(* ===== verification/_CoqProject ===== *)
-Q . S2P
Prelude.v
Text.v
Doubles.v
Types.v
Utils.v
Store.v
Wal.v
Server.v
Calls.v
Fixture.v
Rounds.v
EventLoop.v
Storage.v
Batch.v
Cluster.v
Handlers.v
Restart.v
Conservation.v
Commands.v
Csv.v
Client.v
Report.v
Driver.v
Coding.v
Status.v
Crc.v
LogFile.v
Filename.v
Bloom.v
Dbformat.v
SkipList.v
MemTable.v
WriteBatch.v
Db.v
Recovery.v
Block.v
Format.v
FilterBlock.v
TableFile.v
TwoLevel.v
TableLookup.v
