(* ===== verification/Prelude.v ===== *)
(** * MultiPaxosDB: a verification development

    The program ([src/src]) is a bank of 3000 accounts, sharded over clusters of
    replicas.  A driver process reads sets of transfers from a CSV file and commands
    from the terminal, starts the server processes and owns the client.  The client
    routes a transfer within a shard to the leader of its cluster, and coordinates a
    transfer between two shards by two-phase commit.  The servers of a cluster agree on
    batches of transfers with Paxos rounds, keep a log, write it to a write-ahead log
    file, and keep balances and ballot numbers in a LevelDB database ([src/leveldb]).

    ** Files, from the data to the whole program

    - [Prelude], [Text], [Doubles]: record update, machine integers, loops; C++ text,
      numbers and streams; binary64 arithmetic as the reports use it.
    - [Types]: the structures of [types/types.h] and the messages of [proto/tpc.proto].
    - [Utils]: [utils/utils.cc] and [constants.h]: the deployment and the shard map.
    - [Store]: what a server relies on of the database ([leveldb/db.h]), a type class
      with its laws.
    - [Wal]: [server/wal.cc]: the log file, its records and recovery.
    - [Server]: [server/server.cc]: the record [ServerImpl] has the members of the class,
      and one definition models each member function, with the same name.
    - [Calls]: [server/in_call.cc], [server/out_call.cc] and the event loop
      [HandleRPCs]; an iteration takes what the two completion queues deliver.
    - [Fixture]: a concrete installation, for the examples.
    - [Rounds], [EventLoop]: invariants of the rounds and of the calls in progress.
    - [Storage], [Handlers]: every handler is a sequence of storage steps.
    - [Batch]: a round on a batch of transfers, from its validation to its commit.
    - [Cluster]: the servers of a cluster with the messages between them.
    - [Restart], [Conservation]: recovery after a crash; balances and their totals.
    - [Commands], [Csv]: [utils/commands_parser.cc], [utils/csv_reader.cc].
    - [Client], [Report]: [client/client.cc]: submission and the reply thread as a step
      relation, and the reports.
    - [Driver]: [driver.cc], process control of [utils.cc], [main] of the server.
    - [Coding], [Status], [Crc], [LogFile], [Filename], [Bloom], [Dbformat], [SkipList],
      [MemTable], [WriteBatch]: the parts of LevelDB with the same names: encodings,
      status values, the checksum ([util/crc32c.cc]), log files ([db/log_writer.cc],
      [db/log_reader.cc]) with the failures of the file, file names, the Bloom filter,
      internal keys and comparators, the skip list, the table in memory and batches.
    - [Db]: [db/db_impl.cc]: callers, the leader's group commit, the switch of memory
      tables, background work, snapshots and lookups as a step machine [db_step]; the
      tables on disk are the interface [Tables] with the laws [TablesLaws].
    - [Recovery]: [RecoverLogFile], [Recover] and [DB::Open] of [db/db_impl.cc].
    - [Block], [Format], [FilterBlock]: [table/block_builder.cc] and [table/block.cc] with
      the iterator over a block, [table/format.cc], [table/filter_block.cc].
    - [TableFile], [TwoLevel]: [table/table_builder.cc], [table/table.cc] and
      [table/two_level_iterator.cc]; comparators with separators ([Separators]), filter
      policies ([FilterPolicy]), compression ([Codec]), files ([RandomAccessFile]) and the
      block cache ([BlockCache]) are interfaces with laws.  [TableLookup]: what a table
      that was built gives back.

    ** Conventions

    State is passed explicitly.  What a function sends is appended to [outs].  Signed
    overflow and other undefined behaviour sets a flag of the state ([ub], [client_ub]),
    the use of a deleted call sets [call_fault]; the theorems about data assume the flag
    is not set at the end of the run, the theorems about calls show it is never set.
    A C++ exception is the right side of a sum.  [constants] are the global tables.

    ** What the theorems show

    - A server that stops at any point restarts from its files with the same log,
      balances and undecided transactions ([Restart]); its balances are its initial
      balances plus the effect of the committed entries of its log, once each; the total
      of a shard changes only by transfers that cross its border; replicas with the same
      committed transactions agree ([Conservation]).
    - A round whose quorum answers completes and answers its clients, and commits only
      transfers the accounts can pay ([Batch]).  Runs of a cluster deliver in order, and
      a concrete run shows that two servers can commit different entries at the same
      position ([Cluster]).
    - Every call is answered at most once and none is lost; rounds are well formed in
      every interleaving of requests, replies and timeouts ([EventLoop]).
    - The write-ahead log refines a list of entries with an index, and recovery is the
      inverse of writing ([Wal]).
    - The client sends the decision that the votes prescribe, in every interleaving of
      submissions and replies, routes every transaction to the right leader and keeps
      consistent statistics; a failed prepare leaves a transaction undecided ([Client]).
    - Commands and CSV files round trip, the driver hands every set to the client and
      leaves no server behind, except when a balance number overflows ([Commands],
      [Csv], [Driver]); percentiles are bounded by ranks ([Report]).
    - LevelDB: every encoding and file name round trips, the filter has no false
      negatives, the comparators are orders with separators, the skip list refines a
      sorted sequence, and a lookup in the memory table returns the last visible write;
      the checksum code computes CRC-32C on every path; a log cut at any byte gives back
      the records before the cut; a batch gives back its operations; the database is a
      map in every interleaving of its callers, with any failures of the file system;
      a snapshot is not disturbed; a crash at any moment loses no answered write that
      is in the log.  An iterator over a block, and over a table file, is a cursor in the
      list of the entries that were added; a lookup in a table file finds the entry the
      list has, whatever the filter, the compression and the cache do.  The length check of
      a corrupt block entry wraps around at 32 bits.

    ** Bounds and fuel

    [digits_fuel] gets the number of binary digits, which bounds the decimal digits.
    The searches of the skip list get [search_fuel], the number of links; that it is
    enough is part of the theorem that searches return.  The loops of the log writer and
    reader, of [Iterate] and of the replay get the number of bytes they have left, since
    every round takes bytes; so do the loops over a block ([block_fuel]), the binary
    search gets the number of restart points, and the loop over blocks without entries
    ([skip_fuel]) the bytes of the index, since every round moves in it; the theorems show
    that they return.  The scanners recurse
    on the remaining text.  Nothing else is bounded: lists of events and of transactions have
    any length.

    ** Not modelled

    gRPC, the generated protocol code and threads beyond the interleaving of the client's
    reply thread and of the database's callers; the text of log messages (spdlog);
    LevelDB's versions, compactions, caches, arena and environment, for which the laws of
    [TablesLaws] stand for the database, those of [BlockCacheLaws] for the tables and
    those of [Store] for the servers;
    the memory orders of the concurrent skip list; the test scripts. *)

From stdpp Require Export gmap strings list fin_maps sorting.
From Stdlib Require Export ZArith Lia ZifyN ZifyNat ZifyBool.

Declare Scope mpx_scope.
Delimit Scope mpx_scope with mpx.

(** ** Functional record update

    [s <| f := v |>] is the record [s] with field [f] replaced.  A record type
    opts in with an [Eta] instance (its eta-expansion); the setter of a field is
    read off the eta-expansion by abstracting the projection. *)

Class Eta (R : Type) := eta_of : R -> R.
Class Setter {R A : Type} (proj : R -> A) := set : (A -> A) -> R -> R.
Arguments set {R A} proj {_} f r.

Ltac derive_setter proj :=
  match type of proj with
  | ?R -> ?A =>
    let e := constr:(_ : Eta R) in
    let e := eval hnf in e in
    match eval pattern proj in e with
    | ?g _ =>
      let b := eval cbv beta in
        (fun (f : A -> A) (r : R) => g (fun x => f (proj x)) r) in
      exact b
    end
  end.

#[export] Hint Extern 1 (Setter ?p) => derive_setter p : typeclass_instances.

Notation "r <| p := v |>" := (set p (fun _ => v) r)
  (at level 1, left associativity, p at level 1, v at level 99) : mpx_scope.
Notation "r <| p ::= f |>" := (set p f r)
  (at level 1, left associativity, p at level 1, f at level 99) : mpx_scope.

#[global] Open Scope mpx_scope.
#[global] Open Scope Z_scope.

(** ** Machine integers

    A C++ [int] is 32 bits and a [long] 64 bits wide.  Values are integers of
    type [Z]; [in32] and [in64] say that a value is representable.  Conversion
    to [int] from a wider type wraps; arithmetic on signed integers that leaves
    the range is undefined in C++, which the components record in a flag. *)

Definition int_min : Z := -2147483648.
Definition int_max : Z := 2147483647.
Definition long_min : Z := -9223372036854775808.
Definition long_max : Z := 9223372036854775807.

Definition in32 (z : Z) : Prop := int_min <= z <= int_max.
Definition in64 (z : Z) : Prop := long_min <= z <= long_max.

Definition in32b (z : Z) : bool := (int_min <=? z) && (z <=? int_max).

Definition wrap32 (z : Z) : Z := (z + 2147483648) mod 4294967296 - 2147483648.

Definition wrap64 (z : Z) : Z :=
  (z + 9223372036854775808) mod 18446744073709551616 - 9223372036854775808.

Lemma in32b_spec z : in32b z = true <-> in32 z.
Proof. unfold in32b, in32. rewrite andb_true_iff, !Z.leb_le. lia. Qed.

Lemma wrap32_id z : in32 z -> wrap32 z = z.
Proof.
  unfold in32, wrap32, int_min, int_max. intros H.
  rewrite Z.mod_small; lia.
Qed.

Lemma wrap32_in32 z : in32 (wrap32 z).
Proof.
  unfold in32, wrap32, int_min, int_max.
  pose proof (Z.mod_pos_bound (z + 2147483648) 4294967296). lia.
Qed.

Lemma wrap32_succ z : wrap32 (wrap32 z + 1) = wrap32 (z + 1).
Proof.
  unfold wrap32. f_equal.
  replace (_ - 2147483648 + 1 + 2147483648) with ((z + 2147483648) mod 4294967296 + 1) by lia.
  rewrite Zplus_mod_idemp_l. f_equal. lia.
Qed.

Lemma wrap64_id z : in64 z -> wrap64 z = z.
Proof.
  unfold in64, wrap64, long_min, long_max. intros H.
  rewrite Z.mod_small; lia.
Qed.

Lemma in32_in64 z : in32 z -> in64 z.
Proof. unfold in32, in64, int_min, int_max, long_min, long_max. lia. Qed.

(** ** Automation *)

Create HintDb mpx discriminated.
#[export] Hint Resolve wrap32_in32 in32_in64 : mpx.

(** Splits every conditional and [match] on an option, pair or boolean that
    blocks the goal, closing the trivial branches. *)
Ltac branch :=
  repeat (case_match || case_decide || case_bool_decide); simplify_eq/=; try done.

(** ** Lists *)

Lemma filter_all {A} (P : A -> Prop) `{!forall x, Decision (P x)} l :
  Forall P l -> filter P l = l.
Proof. induction 1 as [|x l Hx _ IH]; [done|]. by rewrite filter_cons_True, IH. Qed.

Lemma filter_none {A} (P : A -> Prop) `{!forall x, Decision (P x)} l :
  Forall (fun x => ~ P x) l -> filter P l = [].
Proof. induction 1 as [|x l Hx _ IH]; [done|]. by rewrite filter_cons_False. Qed.

Lemma filter_fmap {A B} (f : A -> B) (P : B -> Prop) `{!forall y, Decision (P y)} (l : list A) :
  filter P (f <$> l) = f <$> filter (fun x => P (f x)) l.
Proof.
  induction l as [|x l IH]; [done|]. rewrite fmap_cons, !filter_cons, IH.
  by case_decide.
Qed.

Lemma omap_cons {A B} (f : A -> option B) x l :
  omap f (x :: l) = match f x with Some y => y :: omap f l | None => omap f l end.
Proof. done. Qed.

Lemma omap_ext_in {A B} (f g : A -> option B) (l : list A) :
  (forall x, x ∈ l -> f x = g x) -> omap f l = omap g l.
Proof.
  intros E. induction l as [|x l IH]; [done|].
  rewrite !omap_cons, E, IH; [done|intros; apply E; set_solver|set_solver].
Qed.

(** Rewrites with the known values of the fields of the record [x]. *)
Ltac rewrite_fields x :=
  repeat match goal with E : ?f x = _ |- _ => rewrite E; clear E end.

(** ** Counting loops *)

(** The values of [i] in [for (int i = a; i <= b; i++)]. *)
Fixpoint count_up (a : Z) (n : nat) : list Z :=
  match n with O => [] | S n' => a :: count_up (a + 1) n' end.

Definition loop (a b : Z) : list Z := count_up a (Z.to_nat (b - a + 1)).

Lemma count_up_seqZ a n : count_up a n = seqZ a (Z.of_nat n).
Proof.
  revert a. induction n as [|n IH]; intros a; [done|]. simpl count_up.
  rewrite seqZ_cons by lia. f_equal. rewrite IH. f_equal; lia.
Qed.

Lemma loop_seqZ a b : loop a b = seqZ a (b - a + 1).
Proof.
  unfold loop. rewrite count_up_seqZ. destruct (Z.leb_spec 0 (b - a + 1)) as [Hn|Hn].
  - by rewrite Z2Nat.id.
  - by rewrite !seqZ_nil by lia.
Qed.

Lemma loop_nodup a b : NoDup (loop a b).
Proof. rewrite loop_seqZ. apply NoDup_seqZ. Qed.

Lemma elem_of_loop a b i : i ∈ loop a b <-> a <= i <= b.
Proof. rewrite loop_seqZ, elem_of_seqZ. lia. Qed.

(** ** Lists indexed with machine sizes *)

Definition lenz {A} (l : list A) : Z := Z.of_nat (length l).
Definition takez {A} (n : Z) (l : list A) : list A := take (Z.to_nat n) l.
Definition dropz {A} (n : Z) (l : list A) : list A := drop (Z.to_nat n) l.

Lemma lenz_app {A} (a b : list A) : lenz (a ++ b) = lenz a + lenz b.
Proof. unfold lenz. rewrite length_app. lia. Qed.

Lemma lenz_nonneg {A} (l : list A) : 0 <= lenz l.
Proof. unfold lenz. lia. Qed.

Lemma lenz_takez {A} n (l : list A) : 0 <= n -> lenz (takez n l) = Z.min n (lenz l).
Proof. unfold lenz, takez. intros Hn. rewrite length_take. lia. Qed.

Lemma lenz_dropz {A} n (l : list A) : 0 <= n -> lenz (dropz n l) = Z.max 0 (lenz l - n).
Proof. unfold lenz, dropz. intros Hn. rewrite length_drop. lia. Qed.

Lemma takez_app_le {A} n (a b : list A) : n <= lenz a -> takez n (a ++ b) = takez n a.
Proof. unfold takez, lenz. intros Hn. rewrite take_app_le by lia. done. Qed.

Lemma takez_app_ge {A} n (a b : list A) : lenz a <= n -> takez n (a ++ b) = a ++ takez (n - lenz a) b.
Proof.
  unfold takez, lenz. intros Hn. rewrite take_app_ge by lia. do 2 f_equal. lia.
Qed.

Lemma dropz_app_ge {A} n (a b : list A) : lenz a <= n -> dropz n (a ++ b) = dropz (n - lenz a) b.
Proof. unfold dropz, lenz. intros Hn. rewrite drop_app_ge by lia. f_equal. lia. Qed.

Lemma takez_all {A} n (l : list A) : lenz l <= n -> takez n l = l.
Proof. unfold takez, lenz. intros Hn. apply take_ge. lia. Qed.

Lemma dropz_all {A} n (l : list A) : lenz l <= n -> dropz n l = [].
Proof. unfold dropz, lenz. intros Hn. apply drop_ge. lia. Qed.

Lemma takez_dropz {A} n (l : list A) : takez n l ++ dropz n l = l.
Proof. apply take_drop. Qed.

Lemma lenz_nil {A} (l : list A) : lenz l <= 0 -> l = [].
Proof. unfold lenz. destruct l; [done|]. simpl. lia. Qed.

Lemma takez_0 {A} (l : list A) : takez 0 l = [].
Proof. done. Qed.

Lemma dropz_0 {A} (l : list A) : dropz 0 l = l.
Proof. done. Qed.
