(* ===== verification/Text.v ===== *)
(** * Text: characters, decimal numbers and stream extraction

    The program reads and writes decimal integers in four places: the
    write-ahead log ([wal.cc]), the values of the database ([server.cc]), the CSV
    file and the command line ([csv_reader.cc], [commands_parser.cc]).  This file
    models what these use of the C++ standard library, on texts that are lists of
    8-bit characters: [std::to_string] and [operator<<] ([to_text]),
    [operator>>] for integers and words ([scan_int], [scan_word]), [std::stoi]
    ([stoi]) and [std::getline] with the stream position before each line
    ([lines_from]). *)

From S2P Require Import Prelude.

Abbreviation ascii := Ascii.ascii.
Abbreviation text := (list ascii).

(** Literals: [L "abc"] is the text of the C string literal. *)
Definition L (s : string) : text := String.list_ascii_of_string s.

Definition chr (n : N) : ascii := Ascii.ascii_of_N n.
Definition nl : ascii := chr 10.
Definition sp : ascii := chr 32.
Definition minus : ascii := chr 45.
Definition plus : ascii := chr 43.

(** [isspace] in the C locale. *)
Definition is_space (c : ascii) : bool :=
  let n := Ascii.N_of_ascii c in ((9 <=? n) && (n <=? 13) || (n =? 32))%N.

Definition is_digit (c : ascii) : bool :=
  let n := Ascii.N_of_ascii c in ((48 <=? n) && (n <=? 57))%N.

Definition digit_val (c : ascii) : Z := Z.of_N (Ascii.N_of_ascii c) - 48.
Definition digit_chr (d : Z) : ascii := chr (Z.to_N (d + 48)).

(** ** Printing integers *)

Fixpoint digits_fuel (fuel : nat) (n : Z) : text :=
  match fuel with
  | O => []
  | S k => if n <? 10 then [digit_chr n]
           else digits_fuel k (n / 10) ++ [digit_chr (n mod 10)]
  end.

(** Every step divides by ten, so a number needs no more digits than bits. *)
Definition digits (n : Z) : text := digits_fuel (S (Z.to_nat (Z.log2 n))) n.

Definition to_text (z : Z) : text :=
  if z <? 0 then minus :: digits (- z) else digits z.

(** ** Reading integers and words *)

Fixpoint skip_ws (l : text) : text :=
  match l with
  | c :: l' => if is_space c then skip_ws l' else l
  | [] => []
  end.

Fixpoint read_digits (acc : Z) (l : text) : Z * text :=
  match l with
  | c :: l' => if is_digit c then read_digits (acc * 10 + digit_val c) l' else (acc, l)
  | [] => (acc, l)
  end.

(** A non-empty run of digits, with a sign; an optional sign before it. *)
Definition read_unsigned (sgn : Z) (l : text) : option (Z * text) :=
  match l with
  | c :: _ => if is_digit c then let (n, r) := read_digits 0 l in Some (sgn * n, r)
              else None
  | [] => None
  end.

Definition read_number (l : text) : option (Z * text) :=
  match l with
  | c :: l' => if bool_decide (c = minus) then read_unsigned (-1) l'
               else if bool_decide (c = plus) then read_unsigned 1 l'
               else read_unsigned 1 l
  | [] => None
  end.

(** [stream >> n] for an integer type with range [lo..hi]: [None] sets failbit. *)
Definition scan_int (lo hi : Z) (l : text) : option (Z * text) :=
  match read_number (skip_ws l) with
  | Some (n, r) => if (lo <=? n) && (n <=? hi) then Some (n, r) else None
  | None => None
  end.

Definition scan_i32 := scan_int int_min int_max.
Definition scan_i64 := scan_int long_min long_max.

(** The characters before the first one that satisfies [p], and the rest. *)
Fixpoint span_until (p : ascii -> bool) (l : text) : text * text :=
  match l with
  | c :: l' => if p c then ([], l)
               else let (a, b) := span_until p l' in (c :: a, b)
  | [] => ([], [])
  end.

(** [stream >> word] *)
Definition scan_word (l : text) : option (text * text) :=
  match span_until is_space (skip_ws l) with
  | ([], _) => None
  | (w, r) => Some (w, r)
  end.

(** [std::stoi]: throws on a text with no number and on one out of range;
    characters after the number are ignored. *)
Inductive stoi_error := invalid_argument | out_of_range.

Definition stoi (l : text) : Z + stoi_error :=
  match read_number (skip_ws l) with
  | Some (n, _) => if in32b n then inl n else inr out_of_range
  | None => inr invalid_argument
  end.

(** The exceptions of [std::stoi] and [std::vector::at], and sequencing of code
    that may throw one. *)
Abbreviation exn := stoi_error.

Definition try_bind {A B} (m : A + exn) (k : A -> B + exn) : B + exn :=
  match m with inl a => k a | inr e => inr e end.

Notation "'try' x ':=' m 'in' k" := (try_bind m (fun x => k))
  (at level 10, x name, m at level 100, k at level 200) : mpx_scope.

(** [v.at(i)] *)
Definition at_index {A} (l : list A) (i : nat) : A + exn :=
  match l !! i with Some x => inl x | None => inr out_of_range end.

(** [while (pos = in.tellg(), std::getline(in, line))]: the lines with the
    position each starts at.  A last line without a newline is a line when it is
    not empty. *)
Fixpoint lines_from (start pos : Z) (acc : text) (l : text) : list (Z * text) :=
  match l with
  | [] => match acc with [] => [] | _ => [(start, rev acc)] end
  | c :: l' =>
    if bool_decide (c = nl) then (start, rev acc) :: lines_from (pos + 1) (pos + 1) [] l'
    else lines_from start (pos + 1) (c :: acc) l'
  end.

Definition lines (l : text) : list (Z * text) := lines_from 0 0 [] l.

(** [in.seekg(pos); std::getline(in, line)]: [None] when the position is not in
    the file or no character is left. *)
Definition line_at (pos : Z) (l : text) : option text :=
  if (0 <=? pos) && (pos <? Z.of_nat (length l)) then
    Some (span_until (fun c => bool_decide (c = nl)) (drop (Z.to_nat pos) l)).1
  else None.

(** ** Lemmas on digits *)

Lemma digit_chr_props d : 0 <= d < 10 ->
  is_digit (digit_chr d) = true /\ digit_val (digit_chr d) = d.
Proof.
  intros H.
  assert (d = 0 \/ d = 1 \/ d = 2 \/ d = 3 \/ d = 4 \/ d = 5 \/ d = 6 \/ d = 7
          \/ d = 8 \/ d = 9) as Hd by lia.
  repeat destruct Hd as [->|Hd]; try (subst d); by vm_compute.
Qed.

Lemma is_digit_not c : is_digit c = true ->
  is_space c = false /\ c <> minus /\ c <> plus /\ c <> nl.
Proof.
  unfold is_digit, is_space. cbv zeta. intros H.
  split_and!; [lia | intros -> .. ]; by vm_compute in H.
Qed.

(** The text of a non-negative number: all digits, at least one. *)
Lemma digits_fuel_spec fuel n rest acc :
  0 <= n < 2 ^ Z.of_nat fuel ->
  read_digits acc (digits_fuel fuel n ++ rest)
  = read_digits (acc * 10 ^ Z.of_nat (length (digits_fuel fuel n)) + n) rest.
Proof.
  revert n rest acc. induction fuel as [|fuel IH]; intros n rest acc Hn.
  { simpl in *. f_equal. lia. }
  rewrite Nat2Z.inj_succ, Z.pow_succ_r in Hn by lia.
  simpl. destruct (Z.ltb_spec n 10).
  - destruct (digit_chr_props n) as [Hd Hv]; [lia|].
    simpl. rewrite Hd, Hv. f_equal.
  - destruct (digit_chr_props (n mod 10)) as [Hd Hv].
    { pose proof (Z.mod_pos_bound n 10). lia. }
    rewrite <- app_assoc, IH.
    2: { split; [apply Z.div_pos; lia|]. apply Z.div_lt_upper_bound; lia. }
    simpl. rewrite Hd, Hv, length_app, Nat2Z.inj_add, Z.pow_add_r by lia.
    f_equal. simpl. pose proof (Z.div_mod n 10). lia.
Qed.

Lemma digits_fuel_digit fuel n :
  0 <= n -> Forall (fun c => is_digit c = true) (digits_fuel fuel n).
Proof.
  revert n. induction fuel as [|fuel IH]; intros n Hn; simpl; [constructor|].
  destruct (Z.ltb_spec n 10).
  - constructor; [|constructor]. by apply digit_chr_props.
  - apply Forall_app; split.
    + apply IH. apply Z.div_pos; lia.
    + constructor; [|constructor]. apply digit_chr_props.
      pose proof (Z.mod_pos_bound n 10). lia.
Qed.

Lemma log2_fuel n : 0 <= n -> n < 2 ^ Z.of_nat (S (Z.to_nat (Z.log2 n))).
Proof.
  intros Hn. rewrite Nat2Z.inj_succ, Z2Nat.id by apply Z.log2_nonneg.
  destruct (Z.eq_dec n 0) as [->|]; [reflexivity|].
  apply Z.log2_spec. lia.
Qed.

Lemma digits_cons n : 0 <= n -> exists c l, digits n = c :: l /\ is_digit c = true.
Proof.
  intros Hn. pose proof (digits_fuel_digit (S (Z.to_nat (Z.log2 n))) n Hn) as Hd.
  unfold digits in *. destruct (digits_fuel _ n) as [|c l] eqn:E.
  - simpl in E. destruct (n <? 10); [done|]. by apply app_nil in E as [_ ?].
  - inversion Hd. eauto.
Qed.

(** The rest of the input is not a digit: the end of a field. *)
Definition no_digit (l : text) : Prop :=
  match l with c :: _ => is_digit c = false | [] => True end.

Lemma read_digits_stop acc l : no_digit l -> read_digits acc l = (acc, l).
Proof. destruct l as [|c l]; simpl; [done|]. by intros ->. Qed.

Lemma read_digits_digits n rest : 0 <= n -> no_digit rest ->
  read_digits 0 (digits n ++ rest) = (n, rest).
Proof.
  intros Hn Hr. unfold digits.
  rewrite digits_fuel_spec by (split; [done | by apply log2_fuel]).
  rewrite Z.mul_0_l, Z.add_0_l. by apply read_digits_stop.
Qed.

Lemma read_unsigned_digits sgn n rest : 0 <= n -> no_digit rest ->
  read_unsigned sgn (digits n ++ rest) = Some (sgn * n, rest).
Proof.
  intros Hn Hr. pose proof (read_digits_digits n rest Hn Hr) as E.
  destruct (digits_cons n Hn) as (c & l & El & Hc). rewrite El in *.
  simpl in *. rewrite Hc in *. by rewrite E.
Qed.

(** Reading back a printed integer, whatever field separator follows it. *)
Lemma read_number_to_text z rest : no_digit rest ->
  read_number (to_text z ++ rest) = Some (z, rest).
Proof.
  intros Hr. unfold to_text. destruct (Z.ltb_spec z 0) as [Hz|Hz].
  - simpl. rewrite read_unsigned_digits by (done || lia). do 2 f_equal. lia.
  - pose proof (read_unsigned_digits 1 z rest Hz Hr) as E.
    destruct (digits_cons z Hz) as (c & l & El & Hc). rewrite El in *.
    pose proof (is_digit_not c Hc) as (_ & Hm & Hp & _).
    unfold read_number. simpl app in *. cbv iota beta.
    rewrite !bool_decide_false by done. rewrite E. do 2 f_equal. lia.
Qed.

(** A printed integer starts with a digit or a minus sign. *)
Lemma to_text_cons z : exists c l, to_text z = c :: l
  /\ is_space c = false /\ c <> nl.
Proof.
  unfold to_text. destruct (Z.ltb_spec z 0).
  - by exists minus, (digits (- z)).
  - destruct (digits_cons z) as (c & l & E & Hc); [lia|].
    destruct (is_digit_not c Hc) as (? & _ & _ & ?). by exists c, l.
Qed.

Lemma to_text_plain z : Forall (fun c => is_space c = false /\ c <> nl) (to_text z).
Proof.
  assert (forall n, 0 <= n -> Forall (fun c => is_space c = false /\ c <> nl) (digits n)) as Hd.
  { intros n Hn. eapply Forall_impl; [by apply digits_fuel_digit|].
    intros c Hc. by destruct (is_digit_not c Hc) as (? & _ & _ & ?). }
  unfold to_text. destruct (Z.ltb_spec z 0); [constructor; [done|]|]; apply Hd; lia.
Qed.

Lemma to_text_chars z : Forall (fun c => is_digit c = true \/ c = minus) (to_text z).
Proof.
  assert (forall n, 0 <= n -> Forall (fun c => is_digit c = true \/ c = minus) (digits n)) as Hd.
  { intros n Hn. eapply Forall_impl; [by apply digits_fuel_digit|]. by left. }
  unfold to_text. destruct (Z.ltb_spec z 0); [constructor; [by right|]|]; apply Hd; lia.
Qed.

Lemma skip_ws_plain c l : is_space c = false -> skip_ws (c :: l) = c :: l.
Proof. simpl. by intros ->. Qed.

Lemma skip_ws_to_text z rest : skip_ws (to_text z ++ rest) = to_text z ++ rest.
Proof.
  destruct (to_text_cons z) as (c & l & -> & Hc & _). by apply skip_ws_plain.
Qed.

Lemma skip_ws_sp l : skip_ws (sp :: l) = skip_ws l.
Proof. done. Qed.

Lemma scan_int_to_text lo hi z rest : lo <= z <= hi -> no_digit rest ->
  scan_int lo hi (to_text z ++ rest) = Some (z, rest).
Proof.
  intros Hz Hr. unfold scan_int. rewrite skip_ws_to_text, read_number_to_text by done.
  by rewrite !(proj2 (Z.leb_le _ _)) by lia.
Qed.

Lemma scan_int_sp lo hi l : scan_int lo hi (sp :: l) = scan_int lo hi l.
Proof. done. Qed.

Lemma span_until_app p w rest :
  Forall (fun c => p c = false) w ->
  match rest with c :: _ => p c = true | [] => True end ->
  span_until p (w ++ rest) = (w, rest).
Proof.
  intros Hw Hr. induction Hw as [|c w Hc Hw IH]; simpl.
  - destruct rest as [|c r]; simpl in *; [done|]. by rewrite Hr.
  - by rewrite Hc, IH.
Qed.

Lemma scan_word_app w rest : w <> [] ->
  Forall (fun c => is_space c = false) w ->
  match rest with c :: _ => is_space c = true | [] => True end ->
  scan_word (w ++ rest) = Some (w, rest).
Proof.
  intros Hne Hw Hr. unfold scan_word.
  destruct w as [|c w]; [done|].
  replace (skip_ws ((c :: w) ++ rest)) with ((c :: w) ++ rest).
  - by rewrite span_until_app.
  - simpl. inversion Hw as [|?? Hc]. by rewrite Hc.
Qed.

(** [std::stoi] inverts [std::to_string] on every [int]. *)
Lemma stoi_to_text z : in32 z -> stoi (to_text z) = inl z.
Proof.
  intros Hz. unfold stoi.
  pose proof (skip_ws_to_text z []) as E. rewrite app_nil_r in E. rewrite E.
  pose proof (read_number_to_text z [] I) as R. rewrite app_nil_r in R. rewrite R.
  by rewrite (proj2 (in32b_spec z)).
Qed.

#[export] Instance to_text_inj : Inj (=) (=) to_text.
Proof.
  intros x y E.
  pose proof (read_number_to_text x [] I) as Hx.
  pose proof (read_number_to_text y [] I) as Hy.
  rewrite app_nil_r in Hx, Hy. congruence.
Qed.

(** ** Lemmas on lines *)

Lemma lines_from_line start pos acc w rest :
  Forall (fun c => c <> nl) w ->
  lines_from start pos acc (w ++ nl :: rest)
  = (start, rev acc ++ w)
    :: lines_from (pos + Z.of_nat (length w) + 1) (pos + Z.of_nat (length w) + 1) [] rest.
Proof.
  revert pos acc. induction w as [|c w IH]; intros pos acc Hw; simpl.
  - by rewrite app_nil_r, Z.add_0_r.
  - inversion Hw as [|?? Hc Hw']; subst.
    rewrite bool_decide_false by done. rewrite IH by done. simpl.
    rewrite <- app_assoc. simpl. f_equal; f_equal; lia.
Qed.

(** A text made of complete lines only: empty or ending in a newline. *)
Definition newline_terminated (l : text) : Prop := l = [] \/ exists l', l = l' ++ [nl].

Lemma newline_terminated_app l w : newline_terminated (l ++ w ++ [nl]).
Proof. right. exists (l ++ w). by rewrite app_assoc. Qed.

Lemma lines_from_app start pos acc l rest :
  (l = [] -> acc = [] /\ start = pos) -> newline_terminated l ->
  lines_from start pos acc (l ++ rest)
  = lines_from start pos acc l
    ++ lines_from (pos + Z.of_nat (length l)) (pos + Z.of_nat (length l)) [] rest.
Proof.
  revert start pos acc. induction l as [|c l IH]; intros start pos acc Hnil Hl; simpl.
  - destruct Hnil as [-> ->]; [done|]. by rewrite Z.add_0_r.
  - assert (newline_terminated l) as Hl'.
    { destruct Hl as [|[l' E]]; [done|]. destruct l' as [|c' l']; simplify_eq/=.
      - by left.
      - right. eauto. }
    assert (l = [] -> c = nl) as Hc.
    { intros ->. destruct Hl as [|[l' E]]; [done|].
      destruct l' as [|? [|]]; by simplify_eq/=. }
    replace (pos + Z.of_nat (S (length l))) with (pos + 1 + Z.of_nat (length l)) by lia.
    case_bool_decide as Hcn; rewrite IH by (auto || naive_solver); done.
Qed.

Lemma lines_app l rest : newline_terminated l ->
  lines (l ++ rest)
  = lines l ++ lines_from (Z.of_nat (length l)) (Z.of_nat (length l)) [] rest.
Proof. intros Hl. unfold lines. by rewrite lines_from_app. Qed.

Lemma lines_snoc l w : newline_terminated l -> Forall (fun c => c <> nl) w ->
  lines (l ++ w ++ [nl]) = lines l ++ [(Z.of_nat (length l), w)].
Proof. intros Hl Hw. rewrite lines_app, lines_from_line by done. done. Qed.

Lemma line_at_app l w rest : Forall (fun c => c <> nl) w ->
  line_at (Z.of_nat (length l)) (l ++ w ++ nl :: rest) = Some w.
Proof.
  intros Hw. unfold line_at.
  rewrite !length_app; simpl.
  rewrite (proj2 (Z.leb_le 0 _)), (proj2 (Z.ltb_lt _ _)) by lia. simpl.
  rewrite Nat2Z.id, drop_app_length.
  rewrite span_until_app; [done| |by apply bool_decide_true].
  eapply Forall_impl; [done|]. intros c Hc. by apply bool_decide_false.
Qed.

(** A line read back at the position where it starts: what is appended later
    does not change it. *)
Lemma line_at_extend pos l rest w : newline_terminated l ->
  line_at pos l = Some w -> line_at pos (l ++ rest) = Some w.
Proof.
  unfold line_at. intros Hl H. case_match eqn:E; [|done]. simplify_eq.
  rewrite length_app.
  rewrite andb_true_iff, Z.leb_le, Z.ltb_lt in E. destruct E as [H0 H1].
  rewrite (proj2 (Z.leb_le 0 _)), (proj2 (Z.ltb_lt _ _)) by lia. simpl.
  rewrite drop_app_le by lia. f_equal.
  destruct Hl as [->|[l' ->]]; [simpl in *; lia|].
  rewrite length_app in H1. simpl in H1.
  rewrite drop_app_le by lia. generalize (drop (Z.to_nat pos) l') as m. intros m.
  induction m as [|c m IH]; simpl; [done|].
  case_bool_decide; [done|]. simpl in IH.
  destruct (span_until _ ((m ++ [nl]) ++ rest)), (span_until _ (m ++ [nl])). simpl in *.
  by f_equal.
Qed.

Lemma line_at_nil pos : line_at pos [] = None.
Proof. unfold line_at. case_match eqn:E; [|done]. simpl in E. lia. Qed.
