(* ===== verification/Doubles.v ===== *)
(** * Doubles: floating-point numbers

    A [double] is a binary64 number of the Standard Library's executable
    specification of IEEE 754 arithmetic.  Printing with [std::fixed] and two
    decimals rounds the exact value to the nearest hundredth, ties to even. *)

From Stdlib Require Import SpecFloat.
From S2P Require Import Prelude Text.

Definition double := spec_float.
Definition double_of (z : Z) : double := binary_normalize 53 1024 z 0 false.
Definition ddiv (x y : double) : double := SFdiv 53 1024 x y.
Definition dmul (x y : double) : double := SFmul 53 1024 x y.

(** The conversion to an integer drops the fraction. *)
Definition dtrunc (x : double) : Z :=
  match x with
  | S754_finite s m e =>
    let n := if 0 <=? e then Z.pos m * 2 ^ e else Z.pos m / 2 ^ (- e) in
    if s then - n else n
  | _ => 0
  end.

Definition dpos (x : double) : bool :=
  match SFcompare x (S754_zero false) with Some Gt => true | _ => false end.

(** The integer nearest to [n / d], ties to even. *)
Definition round_half_even (n d : Z) : Z :=
  let q := n / d in let r := n mod d in
  if 2 * r <? d then q else if d <? 2 * r then q + 1 else if Z.even q then q else q + 1.

(** The value of [m * 2^e] in hundredths. *)
Definition hundredths (m : positive) (e : Z) : Z :=
  if 0 <=? e then Z.pos m * 100 * 2 ^ e else round_half_even (Z.pos m * 100) (2 ^ (- e)).

Definition fixed2 (h : Z) : text :=
  digits (h / 100) ++ L "." ++ [digit_chr (h mod 100 / 10); digit_chr (h mod 10)].

Definition sign_text (s : bool) : text := if s then [minus] else [].

(** [std::cout << std::fixed << std::setprecision(2) << x] *)
Definition show_double (x : double) : text :=
  match x with
  | S754_zero s => sign_text s ++ fixed2 0
  | S754_infinity s => sign_text s ++ L "inf"
  | S754_nan => L "nan"
  | S754_finite s m e => sign_text s ++ fixed2 (hundredths m e)
  end.
