(* ===== verification/Types.v ===== *)
(** * Types: the shared data of the program

    The structures of [src/types/types.h] and the messages of
    [src/proto/tpc.proto].  A field of a message is prefixed with the initials of
    the message because several messages share field names; a proto3 [optional]
    field is an [option].  An absent sub-message reads as its default (all
    zeros), as protobuf accessors do. *)

From S2P Require Import Prelude Text.

Inductive RequestTypes :=
  | TPC_PREPARE | TPC_COMMIT | TPC_ABORT | TRANSFER | PREPARE | ACCEPT | COMMIT
  | SYNC | BALANCE | LOGS | DISCONNECT.

Record Transaction := mkTransaction {
  sender : Z;
  receiver : Z;
  amount : Z
}.

Inductive TransactionType := INTRA | CROSS.
Inductive TransactionStatus := NO_STATUS | PREPARED | COMMITTED | ABORTED.

Record WALEntry := mkWALEntry {
  tid : Z;
  e_ballot_num : Z;
  e_ballot_server_id : Z;
  txn : Transaction;
  type : TransactionType;
  status : TransactionStatus
}.

Record TransactionSet := mkTransactionSet {
  set_no : Z;
  transactions : list Transaction;
  servers : list text;
  leaders : list text;
  disconnected_servers : list text
}.

Record CSVLine := mkCSVLine {
  l_set_no : Z;
  l_transaction : Transaction;
  l_servers : list text;
  l_leaders : list text
}.

Inductive Command :=
  | PROCESS_NEXT_SET | PRINT_BALANCE | PRINT_DATASTORE | PRINT_PERFORMANCE | EXIT.

Record AppCommand := mkAppCommand { command : Command; client_id : Z }.

(** ** Messages *)

Record TransferReq := mkTransferReq { tr_txn : Transaction; tr_tid : Z }.
Record TransferRes := mkTransferRes { ts_ack : bool; ts_tid : Z }.
Record Ballot := mkBallot { num : Z; ballot_server : Z }.
Definition default_ballot : Ballot := mkBallot 0 0.

Record PrepareReq := mkPrepareReq { pq_ballot : Ballot; pq_paxos_index : Z }.

Record PrepareRes := mkPrepareRes {
  pr_ack : bool;
  pr_ballot : Ballot;
  pr_accept_num : option Ballot;
  pr_accept_val : list TransferReq;
  pr_latest_ballot_num : option Z;
  pr_paxos_index : option Z;
  pr_server_id : option Z
}.

Record AcceptReq := mkAcceptReq { aq_ballot : Ballot; aq_batch : list TransferReq }.
Record AcceptRes := mkAcceptRes { ar_ack : bool; ar_ballot : Ballot }.
Record CommitReq := mkCommitReq { cq_ballot : Ballot }.
Record SyncReq := mkSyncReq { sq_last_inserted : Z }.

Record LogEntry := mkLogEntry {
  le_txn : Transaction;
  le_tid : Z;
  le_type : Z;
  le_status : Z;
  le_ballot_num : Z;
  le_ballot_server_id : Z
}.

Record SyncRes := mkSyncRes {
  sr_ack : bool;
  sr_logs : list LogEntry;
  sr_last_inserted_ballot : Ballot
}.

Record DisconnectReq := mkDisconnectReq { dq_servers : list text }.

(** The two outcomes of a peer RPC the handlers tell apart, and every other
    error code ([UNAVAILABLE], [CANCELLED], ...). *)
Inductive RpcStatus := OK | DEADLINE_EXCEEDED | OTHER_ERROR.

(** ** Decidable equality and record updates *)

#[export] Instance RequestTypes_eq_dec : EqDecision RequestTypes.
Proof. solve_decision. Defined.
#[export] Instance Transaction_eq_dec : EqDecision Transaction.
Proof. solve_decision. Defined.
#[export] Instance TransactionType_eq_dec : EqDecision TransactionType.
Proof. solve_decision. Defined.
#[export] Instance TransactionStatus_eq_dec : EqDecision TransactionStatus.
Proof. solve_decision. Defined.
#[export] Instance Command_eq_dec : EqDecision Command.
Proof. solve_decision. Defined.
#[export] Instance WALEntry_eq_dec : EqDecision WALEntry.
Proof. solve_decision. Defined.
#[export] Instance TransferReq_eq_dec : EqDecision TransferReq.
Proof. solve_decision. Defined.
#[export] Instance Ballot_eq_dec : EqDecision Ballot.
Proof. solve_decision. Defined.

#[export] Instance eta_WALEntry : Eta WALEntry := fun e =>
  mkWALEntry (tid e) (e_ballot_num e) (e_ballot_server_id e) (txn e) (type e) (status e).

(** ** Enumerations on the wire

    [static_cast<int>] of an enumeration and the cast back.  The cast of a value
    outside the enumeration is undefined: [None]. *)

Definition type_code (t : TransactionType) : Z :=
  match t with INTRA => 0 | CROSS => 1 end.
Definition status_code (s : TransactionStatus) : Z :=
  match s with NO_STATUS => 0 | PREPARED => 1 | COMMITTED => 2 | ABORTED => 3 end.

Definition type_of_code (z : Z) : option TransactionType :=
  if z =? 0 then Some INTRA else if z =? 1 then Some CROSS else None.
Definition status_of_code (z : Z) : option TransactionStatus :=
  if z =? 0 then Some NO_STATUS else if z =? 1 then Some PREPARED
  else if z =? 2 then Some COMMITTED else if z =? 3 then Some ABORTED else None.

Lemma type_code_inv t : type_of_code (type_code t) = Some t.
Proof. by destruct t. Qed.
Lemma status_code_inv s : status_of_code (status_code s) = Some s.
Proof. by destruct s. Qed.

(** ** Ranges of the wire types *)

Definition txn_ok (t : Transaction) : Prop :=
  in32 (sender t) /\ in32 (receiver t) /\ in32 (amount t).
Definition req_ok (r : TransferReq) : Prop := txn_ok (tr_txn r) /\ in64 (tr_tid r).
Definition ballot_ok (b : Ballot) : Prop := in32 (num b) /\ in32 (ballot_server b).
Definition entry_ok (e : WALEntry) : Prop :=
  in64 (tid e) /\ in32 (e_ballot_num e) /\ in32 (e_ballot_server_id e) /\ txn_ok (txn e).
