(* ===== verification/Utils.v ===== *)
(** * Utils: clusters, shards and the server directory

    [src/utils/utils.cc] with the process-wide settings of [src/constants.h],
    which are a record passed to every component.  [std::map] is a [gmap] whose
    iteration visits the keys in increasing order. *)

From S2P Require Import Prelude Text Types.

(** ** Ordered iteration over a [std::map] *)

Fixpoint text_leb (a b : text) : bool :=
  match a, b with
  | [], _ => true
  | _ :: _, [] => false
  | x :: a', y :: b' =>
    let m := Ascii.N_of_ascii x in let n := Ascii.N_of_ascii y in
    if (m <? n)%N then true else if (n <? m)%N then false else text_leb a' b'
  end.

Definition text_le (a b : text) : Prop := text_leb a b = true.
#[export] Instance text_le_dec : RelDecision text_le.
Proof. intros a b. unfold text_le. apply _. Defined.

Lemma text_le_total a b : text_le a b \/ text_le b a.
Proof.
  unfold text_le. revert b.
  induction a as [|x a IH]; intros [|y b]; simpl; auto.
  repeat case_match; auto; lia.
Qed.

Definition key_le {V : Type} (p q : text * V) : Prop := text_le p.1 q.1.
#[export] Instance key_le_dec {V} : RelDecision (@key_le V).
Proof. intros p q. unfold key_le. apply _. Defined.

#[export] Instance key_le_total {V} : Total (@key_le V).
Proof. intros p q. apply text_le_total. Qed.

(** [for (auto& pair : map)] *)
Definition map_iter {V : Type} (m : gmap text V) : list (text * V) :=
  merge_sort key_le (map_to_list m).

Lemma map_iter_perm {V} (m : gmap text V) : map_iter m ≡ₚ map_to_list m.
Proof. apply merge_sort_Permutation. Qed.

Lemma elem_of_map_iter {V} (m : gmap text V) k v : (k, v) ∈ map_iter m <-> m !! k = Some v.
Proof. rewrite map_iter_perm. apply elem_of_map_to_list. Qed.

Lemma map_iter_sorted {V} (m : gmap text V) :
  Sorted key_le (map_iter m).
Proof. apply (Sorted_merge_sort _). Qed.

(** ** Settings: [class constants] *)

Definition total_clients : Z := 3000.

Record constants := mkConstants {
  num_clusters : Z;
  cluster_size : Z;
  server_addresses : gmap text text;
  server_ids : gmap text Z
}.

#[export] Instance eta_constants : Eta constants := fun c =>
  mkConstants (num_clusters c) (cluster_size c) (server_addresses c) (server_ids c).

Definition initial_constants : constants := mkConstants 3 3 ∅ ∅.

(** [ceil((double) n / d)].  Both operands are [int]s, so the quotient is either
    an integer or at distance at least [1/d] from one, which the double keeps. *)
Definition ceil_div (n d : Z) : Z := - ((- n) / d).

(** The product of two [int]s; overflow is undefined and wraps in practice. *)
Definition getClusterIdFromClientId (cfg : constants) (id : Z) : Z :=
  ceil_div (wrap32 (id * num_clusters cfg)) total_clients.

Definition getClusterIdFromServerId (cfg : constants) (id : Z) : Z :=
  ceil_div id (cluster_size cfg).

Definition isClientInCluster (cfg : constants) (client_id cluster_id : Z) : bool :=
  getClusterIdFromClientId cfg client_id =? cluster_id.

Definition getServersInCluster (cfg : constants) (cluster_id : Z) : list text :=
  (filter (fun s => getClusterIdFromServerId cfg s.2 = cluster_id)
     (map_iter (server_ids cfg))).*1.

Definition server_name_of (i : Z) : text := L "S" ++ to_text i.
Definition default_address (i : Z) : text := L "localhost:" ++ to_text (50000 + i).

Definition setup_step (cfg : constants) (i : Z) : constants :=
  cfg <| server_addresses ::= <[server_name_of i := default_address i]> |>
      <| server_ids ::= <[server_name_of i := i]> |>.

Definition setupApplicationState (cfg : constants) (nc cs : Z) : constants :=
  foldl setup_step
    (cfg <| num_clusters := nc |> <| cluster_size := cs |>
         <| server_addresses := ∅ |> <| server_ids := ∅ |>)
    (loop 1 (nc * cs)).

(** [while (f >> name >> address)] over the words of the file; the file is
    [None] when it cannot be opened. *)
Fixpoint load_pairs (fuel : nat) (id : Z) (l : text) (cfg : constants) : constants :=
  match fuel with
  | O => cfg
  | S k =>
    match scan_word l with
    | None => cfg
    | Some (name, l1) =>
      match scan_word l1 with
      | None => cfg
      | Some (address, l2) =>
        load_pairs k (id + 1) l2
          (cfg <| server_addresses ::= <[name := address]> |>
               <| server_ids ::= <[name := id]> |>)
      end
    end
  end.

Definition loadConfig (cfg : constants) (file : option text) : constants * bool :=
  match file with
  | None => (cfg, false)
  | Some l =>
    (load_pairs (S (length l)) 1 l
       (cfg <| server_addresses := ∅ |> <| server_ids := ∅ |>), true)
  end.

(** ** Shards and clusters *)

Lemma ceil_div_spec n d c : 0 < d -> ceil_div n d = c <-> (c - 1) * d < n <= c * d.
Proof.
  intros Hd. unfold ceil_div.
  pose proof (Z.div_mod (- n) d ltac:(lia)). pose proof (Z.mod_pos_bound (- n) d Hd).
  split; [intros <-; nia|]. intros Hc.
  assert (- c = - n / d) by (apply Z.div_unique with (r := c * d - n); lia). lia.
Qed.

(** A deployment the servers can address: the products that compute cluster
    numbers stay in [int]. *)
Definition config_ok (cfg : constants) : Prop :=
  1 <= num_clusters cfg <= total_clients /\ 1 <= cluster_size cfg.

Definition valid_client (id : Z) : Prop := 1 <= id <= total_clients.

Lemma client_product cfg id : config_ok cfg -> valid_client id ->
  wrap32 (id * num_clusters cfg) = id * num_clusters cfg.
Proof.
  unfold config_ok, valid_client, total_clients. intros [Hn _] Hid. apply wrap32_id.
  unfold in32, int_min, int_max. nia.
Qed.

Lemma cluster_bounds cfg id : config_ok cfg -> valid_client id ->
  1 <= getClusterIdFromClientId cfg id <= num_clusters cfg.
Proof.
  intros Hc Hid. unfold getClusterIdFromClientId. rewrite client_product by done.
  unfold config_ok, valid_client, total_clients in *.
  pose proof (proj1 (ceil_div_spec (id * num_clusters cfg) 3000 _ ltac:(lia)) eq_refl) as H.
  set (k := ceil_div _ _) in *. nia.
Qed.

(**  Sharding is a partition: on the client numbers the system serves, a
    client is in cluster [c] exactly when it is in the [c]-th of [num_clusters]
    consecutive ranges, and the cluster number is between 1 and
    [num_clusters]. *)
Theorem client_cluster_range cfg id c :
  config_ok cfg -> valid_client id ->
  (getClusterIdFromClientId cfg id = c
   <-> (c - 1) * total_clients < id * num_clusters cfg <= c * total_clients)
  /\ 1 <= getClusterIdFromClientId cfg id <= num_clusters cfg.
Proof.
  intros Hc Hid. split; [|by apply cluster_bounds].
  unfold getClusterIdFromClientId. rewrite client_product by done. by apply ceil_div_spec.
Qed.

Lemma client_cluster_range_witness :
  getClusterIdFromClientId (mkConstants 3 3 ∅ ∅) 1000 = 1
  /\ getClusterIdFromClientId (mkConstants 3 3 ∅ ∅) 1001 = 2.
Proof.
  split; apply (client_cluster_range (mkConstants 3 3 ∅ ∅)); unfold config_ok, valid_client; vm_compute; intuition congruence.
Defined.

Lemma server_cluster_range cfg id c : config_ok cfg ->
  getClusterIdFromServerId cfg id = c
  <-> (c - 1) * cluster_size cfg < id <= c * cluster_size cfg.
Proof. intros [_ H]. apply ceil_div_spec. lia. Qed.

(** ** The server directory *)

#[export] Instance server_name_of_inj : Inj (=) (=) server_name_of.
Proof. intros x y E. unfold server_name_of in E. apply (inj to_text). by simplify_eq. Qed.

Lemma setup_fold_ids l cfg : NoDup l ->
  (forall i, i ∈ l -> server_ids cfg !! server_name_of i = None) ->
  map_to_list (server_ids (foldl setup_step cfg l))
  ≡ₚ map_to_list (server_ids cfg) ++ ((fun i => (server_name_of i, i)) <$> l).
Proof.
  revert cfg. induction l as [|i l IH]; intros cfg Hnd Hf; simpl.
  - by rewrite app_nil_r.
  - apply NoDup_cons in Hnd as [Hi Hnd]. rewrite IH; [|done|].
    + simpl. rewrite map_to_list_insert by (apply Hf; set_solver). apply Permutation_middle.
    + intros j Hj. simpl. rewrite lookup_insert_ne; [apply Hf; set_solver|].
      intros E%(inj server_name_of). by subst.
Qed.

Lemma setup_fold_consts l cfg :
  num_clusters (foldl setup_step cfg l) = num_clusters cfg
  /\ cluster_size (foldl setup_step cfg l) = cluster_size cfg.
Proof.
  revert cfg. induction l as [|i l IH]; intros cfg; simpl; [done|].
  by destruct (IH (setup_step cfg i)) as [-> ->].
Qed.

Lemma setup_consts cfg nc cs :
  num_clusters (setupApplicationState cfg nc cs) = nc
  /\ cluster_size (setupApplicationState cfg nc cs) = cs.
Proof. apply setup_fold_consts. Qed.

Lemma setup_ids_perm cfg nc cs :
  map_to_list (server_ids (setupApplicationState cfg nc cs))
  ≡ₚ (fun i => (server_name_of i, i)) <$> loop 1 (nc * cs).
Proof.
  unfold setupApplicationState. rewrite setup_fold_ids.
  - simpl. by rewrite map_to_list_empty.
  - apply loop_nodup.
  - intros i _. apply lookup_empty.
Qed.

Lemma length_filter_range (a b m n : Z) : a <= m -> m <= n -> n <= b ->
  length (filter (fun i => m < i <= n) (seqZ (a + 1) (b - a))) = Z.to_nat (n - m).
Proof.
  intros H1 H2 H3.
  replace (b - a) with ((m - a) + ((n - m) + (b - n))) by lia.
  rewrite !seqZ_app by lia. rewrite !filter_app, !length_app.
  assert (forall s k, (forall i, s <= i < s + k -> ~ (m < i <= n)) ->
    filter (fun i => m < i <= n) (seqZ s k) = []) as Hout.
  { intros s k Hk. apply filter_none, Forall_forall.
    intros i Hi%elem_of_seqZ. by apply Hk. }
  rewrite (Hout _ (m - a)), (Hout _ (b - n)) by lia.
  rewrite (filter_all _ (seqZ _ (n - m))).
  - rewrite length_seqZ. simpl. lia.
  - apply Forall_forall. intros i Hi%elem_of_seqZ. lia.
Qed.

(** The default deployment of [nc] clusters of [cs] servers gives every
    cluster exactly [cs] servers. *)
Theorem setup_cluster_members cfg nc cs c :
  1 <= nc <= total_clients -> 1 <= cs -> 1 <= c <= nc ->
  Z.of_nat (length (getServersInCluster (setupApplicationState cfg nc cs) c)) = cs.
Proof.
  intros Hnc Hcs Hc. unfold getServersInCluster.
  destruct (setup_consts cfg nc cs) as [E1 E2].
  assert (config_ok (setupApplicationState cfg nc cs)) as Hok.
  { split; [rewrite E1 | rewrite E2]; done. }
  rewrite map_iter_perm, length_fmap, setup_ids_perm.
  rewrite filter_fmap, length_fmap. simpl.
  rewrite (list_filter_iff _ (fun i => (c - 1) * cs < i <= c * cs)).
  2: { intros i. rewrite server_cluster_range by done. by rewrite E2. }
  rewrite loop_seqZ. replace (nc * cs - 1 + 1) with (nc * cs - 0) by lia.
  rewrite (length_filter_range 0 (nc * cs)) by nia. lia.
Qed.

Lemma setup_cluster_members_witness :
  Z.of_nat (length (getServersInCluster (setupApplicationState (mkConstants 0 0 ∅ ∅) 3 3) 2)) = 3.
Proof. apply setup_cluster_members; vm_compute; intuition congruence. Defined.

(** Every server of the default deployment is found under its name. *)
Lemma setup_lookup cfg nc cs i : 1 <= i <= nc * cs ->
  server_ids (setupApplicationState cfg nc cs) !! server_name_of i = Some i.
Proof.
  intros Hi. apply elem_of_map_to_list. rewrite setup_ids_perm.
  apply list_elem_of_fmap. exists i. split; [done|]. apply elem_of_loop. lia.
Qed.
