(* ===== verification/Store.v ===== *)
(** * Store: what the server relies on from the database

    The server keeps balances and its ballot number in a key-value store opened
    with [leveldb::DB::Open] and used through [DB::Get] and [DB::Put]
    ([server.cc]).  The interface below states what those two calls promise
    ([leveldb/include/leveldb/db.h]): the server's theorems are proved against
    it, and an implementation discharges it with an instance. *)

From S2P Require Import Prelude Text.

(** The three outcomes of [DB::Get] the server tells apart: [status.ok()],
    [status.IsNotFound()] and any other error. *)
Inductive GetResult := Found (v : text) | NotFound | GetError.

Class KVStore (D : Type) := {
  db_get : D -> text -> GetResult;
  (** [DB::Put]: the store afterwards and [status.ok()] *)
  db_put : D -> text -> text -> D * bool
}.

(** A put that reports success is visible to the gets that follow, and changes
    no other key. *)
Class KVLaws (D : Type) `{KVStore D} := {
  get_put_eq d k v : (db_put d k v).2 = true -> db_get (db_put d k v).1 k = Found v;
  get_put_ne d k k' v : (db_put d k v).2 = true -> k <> k' ->
    db_get (db_put d k v).1 k' = db_get d k'
}.

(** A store on a disk that does not fail. *)
Class KVReliable (D : Type) `{KVStore D} := {
  put_ok d k v : (db_put d k v).2 = true;
  get_ok d k : db_get d k <> GetError
}.

Section client.
Context {D : Type} `{KVLaws D, !KVReliable D}.

Lemma get_put d k k' v :
  db_get (db_put d k v).1 k' = if decide (k = k') then Found v else db_get d k'.
Proof.
  case_decide as E; [subst; apply get_put_eq | apply get_put_ne]; auto using put_ok.
Qed.

Lemma get_put_same d k v : db_get (db_put d k v).1 k = Found v.
Proof. apply get_put_eq, put_ok. Qed.

Lemma get_put_other d k k' v : k <> k' -> db_get (db_put d k v).1 k' = db_get d k'.
Proof. intros. apply get_put_ne; auto using put_ok. Qed.
End client.

(** The interface is inhabited: a finite map. *)
#[export] Instance map_store : KVStore (gmap text text) := {
  db_get d k := match d !! k with Some v => Found v | None => NotFound end;
  db_put d k v := (<[k := v]> d, true)
}.

#[export] Instance map_store_laws : KVLaws (gmap text text).
Proof.
  split; intros d k; simpl; intros.
  - by rewrite lookup_insert_eq.
  - by rewrite lookup_insert_ne.
Qed.

#[export] Instance map_store_reliable : KVReliable (gmap text text).
Proof. split; intros d k; simpl; [done|]. by case_match. Qed.
