(* ===== verification/Wal.v ===== *)
(** * Wal: the write-ahead log of a server

    [class WAL] ([src/server/wal.h], [src/server/wal.cc]): an append-only text
    file with one line per record, and [transferIndex], which maps the id of a
    prepared and undecided cross-shard transaction to the position of its
    [CS_PREPARE] line.

    The file system is part of the state: [wal_file] is the content of the file
    ([None] when there is none yet) and [wal_openable] says whether the next
    attempts to open it succeed.  A write appends whole lines; a stream opened
    with [std::ios::app] is positioned at the end of the file. *)

From S2P Require Import Prelude Text Types.

Record WAL := mkWAL {
  wal_file : option text;
  wal_openable : bool;
  transferIndex : gmap Z Z
}.

#[export] Instance eta_WAL : Eta WAL := fun w =>
  mkWAL (wal_file w) (wal_openable w) (transferIndex w).

Definition content (w : WAL) : text := default [] (wal_file w).

(** The value the operations return when they fail. *)
Definition error_entry : WALEntry :=
  mkWALEntry (-1) (-1) (-1) (mkTransaction (-1) (-1) (-1)) CROSS NO_STATUS.

(** One record: [op tid ballot server sender receiver amount]. *)
Definition record_text (op : text) (e : WALEntry) : text :=
  op ++ [sp] ++ to_text (tid e) ++ [sp] ++ to_text (e_ballot_num e) ++ [sp]
  ++ to_text (e_ballot_server_id e) ++ [sp] ++ to_text (sender (txn e)) ++ [sp]
  ++ to_text (receiver (txn e)) ++ [sp] ++ to_text (amount (txn e)).

(** [iss >> op >> tid >> ballot_num >> ballot_server_id >> sender >> receiver >>
    amount]; [None] when an extraction fails. *)
Definition parse_record (line : text) : option (text * WALEntry) :=
  '(op, l1) ← scan_word line;
  '(t, l2) ← scan_i64 l1;
  '(bn, l3) ← scan_i32 l2;
  '(bs, l4) ← scan_i32 l3;
  '(sd, l5) ← scan_i32 l4;
  '(rv, l6) ← scan_i32 l5;
  '(am, _) ← scan_i32 l6;
  Some (op, mkWALEntry t bn bs (mkTransaction sd rv am) CROSS NO_STATUS).

(** [outFile << line << "\n"] on a stream opened for appending. *)
Definition append_line (line : text) (w : WAL) : WAL :=
  w <| wal_file := Some (content w ++ line ++ [nl]) |>.

(** ** Recovery *)

Record Recovery := mkRecovery {
  rc_index : gmap Z Z;
  rc_last_inserted : Z;
  rc_ballot_num : Z;
  rc_log : list WALEntry
}.

#[export] Instance eta_Recovery : Eta Recovery := fun r =>
  mkRecovery (rc_index r) (rc_last_inserted r) (rc_ballot_num r) (rc_log r).

(** [log.push_back(entry); last_inserted = static_cast<int>(log.size()) - 1] *)
Definition recover_push (e : WALEntry) (r : Recovery) : Recovery :=
  r <| rc_log ::= fun l => l ++ [e] |>
    <| rc_last_inserted := wrap32 (Z.of_nat (length (rc_log r) + 1)) - 1 |>.

(** The body of the loop of [WAL::recover]: a record found at position [pos],
    and a line. *)
Definition recover_record (r : Recovery) (pos : Z) (op : text) (e : WALEntry) : Recovery :=
  let r := r <| rc_ballot_num := Z.max (rc_ballot_num r) (e_ballot_num e) |> in
  if bool_decide (op = L "IN_COMMIT" \/ op = L "IS_COMMIT") then
    recover_push (e <| type := INTRA |> <| status := COMMITTED |>) r
  else if bool_decide (op = L "CS_PREPARE") then
    recover_push (e <| type := CROSS |> <| status := PREPARED |>)
      (r <| rc_index ::= <[tid e := pos]> |>)
  else if bool_decide (op = L "CS_COMMIT") then
    recover_push (e <| type := CROSS |> <| status := COMMITTED |>)
      (r <| rc_index ::= delete (tid e) |>)
  else if bool_decide (op = L "CS_ABORT") then
    recover_push (e <| type := CROSS |> <| status := ABORTED |>)
      (r <| rc_index ::= delete (tid e) |>)
  else r.

Definition recover_line (r : Recovery) (pl : Z * text) : Recovery :=
  match pl.2 with
  | [] => r
  | _ =>
    match parse_record pl.2 with
    | None => r
    | Some (op, e) => recover_record r pl.1 op e
    end
  end.

(** [WAL::recover]: updates [last_inserted], [ballot_num] and [log] in place and
    rebuilds [transferIndex]; does nothing when the file cannot be opened. *)
Definition recover (w : WAL) (last_inserted ballot_num : Z) (log : list WALEntry)
    : WAL * (Z * Z * list WALEntry) :=
  match wal_openable w, wal_file w with
  | true, Some f =>
    let r := foldl recover_line (mkRecovery ∅ last_inserted ballot_num log) (lines f) in
    (w <| transferIndex := rc_index r |>,
     (rc_last_inserted r, rc_ballot_num r, rc_log r))
  | _, _ => (w, (last_inserted, ballot_num, log))
  end.

(** ** Operations *)

(** [None]: the line could not be read back, the fields are indeterminate. *)
Definition getTransactionFromFile (w : WAL) (pos : Z) : option WALEntry :=
  match wal_openable w, wal_file w with
  | true, Some f =>
    '(_, e) ← line_at pos f ≫= parse_record;
    Some (e <| type := CROSS |> <| status := PREPARED |>)
  | _, _ => Some error_entry
  end.

Definition entry_of (r : TransferReq) (b : Ballot) (ty : TransactionType)
    (st : TransactionStatus) : WALEntry :=
  mkWALEntry (tr_tid r) (num b) (ballot_server b) (tr_txn r) ty st.

(** [WAL::prepareTransaction]: when the file cannot be opened [tellp] returns
    [-1], the line is lost and the index is updated all the same. *)
Definition wal_prepareTransaction (r : TransferReq) (b : Ballot) (w : WAL)
    : WAL * WALEntry :=
  let e := entry_of r b CROSS PREPARED in
  if wal_openable w then
    (append_line (record_text (L "CS_PREPARE") e)
       (w <| transferIndex ::= <[tr_tid r := Z.of_nat (length (content w))]> |>), e)
  else (w <| transferIndex ::= <[tr_tid r := -1]> |>, e).

(** [WAL::commitTransaction(TransferReq&, Ballot&)] *)
Definition wal_commitTransaction (r : TransferReq) (b : Ballot) (w : WAL)
    : WAL * WALEntry :=
  let e := entry_of r b INTRA COMMITTED in
  if wal_openable w then (append_line (record_text (L "IN_COMMIT") e) w, e)
  else (w, error_entry).

(** The common body of [WAL::commitTransaction(TpcTid&)] and
    [WAL::abortTransaction(TpcTid&)].  The second result is [None] when the
    prepared record could not be read back (its fields are indeterminate). *)
Definition wal_decide (op : text) (st : TransactionStatus) (t : Z) (w : WAL)
    : WAL * option WALEntry :=
  match transferIndex w !! t with
  | None => (w, Some error_entry)
  | Some pos =>
    match getTransactionFromFile w pos with
    | None => (w, None)
    | Some e =>
      if wal_openable w then
        (append_line (record_text op (e <| tid := t |>))
           (w <| transferIndex ::= delete t |>),
         Some (e <| status := st |>))
      else (w, Some error_entry)
    end
  end.

Definition wal_commitTpc (t : Z) : WAL -> WAL * option WALEntry :=
  wal_decide (L "CS_COMMIT") COMMITTED t.

Definition wal_abortTpc (t : Z) : WAL -> WAL * option WALEntry :=
  wal_decide (L "CS_ABORT") ABORTED t.

(** [WAL::insertEntry], used during synchronization. *)
Definition insertEntry (e : WALEntry) (w : WAL) : WAL :=
  if wal_openable w then
    let prefix := match type e with INTRA => L "IS_" | CROSS => L "CS_" end in
    let pos := Z.of_nat (length (content w)) in
    let '(suffix, index) :=
      match status e with
      | PREPARED => (L "PREPARE", <[tid e := pos]> (transferIndex w))
      | COMMITTED => (L "COMMIT", delete (tid e) (transferIndex w))
      | ABORTED => (L "ABORT", delete (tid e) (transferIndex w))
      | NO_STATUS => ([], transferIndex w)
      end in
    append_line (record_text (prefix ++ suffix) e) (w <| transferIndex := index |>)
  else w.

(** ** Round trip of one record *)

(** The words the log uses as operation names. *)
Definition op_ok (op : text) : Prop :=
  op <> [] /\ Forall (fun c => is_space c = false /\ c <> nl) op.

Definition op_okb (op : text) : bool :=
  match op with [] => false | _ => forallb (fun c => negb (is_space c) && bool_decide (c <> nl)) op end.

Lemma op_okb_ok op : op_okb op = true -> op_ok op.
Proof.
  unfold op_okb, op_ok. destruct op as [|c op]; [done|]. intros H. split; [done|].
  rewrite forallb_forall in H. apply Forall_forall. intros x Hx.
  apply list_elem_of_In, H in Hx. apply andb_true_iff in Hx as [H1 H2].
  split; [by apply negb_true_iff | by apply bool_decide_eq_true in H2].
Qed.

Lemma record_text_no_nl op e : op_ok op -> Forall (fun c => c <> nl) (record_text op e).
Proof.
  assert (forall z, Forall (fun c => c <> nl) (to_text z)) as Hz.
  { intros z. eapply Forall_impl; [apply to_text_plain|]. by intros c []. }
  intros [_ Hop]. unfold record_text.
  assert (Forall (fun c => c <> nl) op) as Hop'.
  { eapply Forall_impl; [done|]. by intros c []. }
  assert (sp <> nl) by done.
  rewrite !Forall_app, !Forall_singleton. naive_solver.
Qed.

Lemma record_text_cons op e : op_ok op -> exists c l, record_text op e = c :: l.
Proof. intros [H _]. destruct op as [|c op]; [done|]. unfold record_text. simpl. eauto. Qed.

Lemma record_text_parse op e : op_ok op -> entry_ok e ->
  parse_record (record_text op e)
  = Some (op, e <| type := CROSS |> <| status := NO_STATUS |>).
Proof.
  intros [Hne Hop] (Ht & Hbn & Hbs & Hsd & Hrv & Ham).
  assert (Forall (fun c => is_space c = false) op) as Hop'.
  { eapply Forall_impl; [done|]. by intros c []. }
  unfold parse_record, record_text, scan_i64, scan_i32.
  rewrite scan_word_app by done. simpl app.
  rewrite <- (app_nil_r (to_text (amount (txn e)))).
  cbn [mbind option_bind]. rewrite scan_int_sp, scan_int_to_text by done.
  do 5 (cbn [mbind option_bind]; rewrite scan_int_sp, scan_int_to_text by done).
  by destruct e as [? ? ? [] ? ?].
Qed.

(** ** The log as an abstract data type

    What the log promises: the sequence of the records written so far, and the
    prepared transactions that have no decision yet. *)

Record LogSpec := mkLogSpec {
  ls_log : list WALEntry;
  ls_pending : gmap Z WALEntry
}.

Definition spec_empty : LogSpec := mkLogSpec [] ∅.

Definition spec_append (e : WALEntry) (a : LogSpec) : LogSpec :=
  mkLogSpec (ls_log a ++ [e])
    match type e, status e with
    | CROSS, PREPARED => <[tid e := e]> (ls_pending a)
    | CROSS, COMMITTED | CROSS, ABORTED => delete (tid e) (ls_pending a)
    | _, _ => ls_pending a
    end.

(** A decision on a transaction: recorded when it is pending. *)
Definition spec_decide (st : TransactionStatus) (t : Z) (a : LogSpec) : LogSpec * WALEntry :=
  match ls_pending a !! t with
  | Some e => (spec_append (e <| status := st |>) a, e <| status := st |>)
  | None => (a, error_entry)
  end.

(** The largest ballot recorded, starting from [b]. *)
Definition max_ballot (b : Z) (l : list WALEntry) : Z :=
  foldl (fun m e => Z.max m (e_ballot_num e)) b l.

(** What recovery computes from a file, and what it should compute. *)
Definition replay (b : Z) (f : text) : Recovery :=
  foldl recover_line (mkRecovery ∅ (-1) b []) (lines f).

(** The operation name and the kind of record recovery reads it back as. *)
Definition op_kind (op : text) (ty : TransactionType) (st : TransactionStatus) : Prop :=
  (op = L "IN_COMMIT" \/ op = L "IS_COMMIT") /\ ty = INTRA /\ st = COMMITTED
  \/ op = L "CS_PREPARE" /\ ty = CROSS /\ st = PREPARED
  \/ op = L "CS_COMMIT" /\ ty = CROSS /\ st = COMMITTED
  \/ op = L "CS_ABORT" /\ ty = CROSS /\ st = ABORTED.

Lemma op_kind_ok op ty st : op_kind op ty st -> op_ok op.
Proof.
  intros H. apply op_okb_ok.
  destruct H as [[[-> | ->] _]|[[-> _]|[[-> _]|[-> _]]]]; by vm_compute.
Qed.

(** The index after recovering one more record at position [pos]. *)
Definition index_after (pos : Z) (e : WALEntry) (m : gmap Z Z) : gmap Z Z :=
  match type e, status e with
  | CROSS, PREPARED => <[tid e := pos]> m
  | CROSS, COMMITTED | CROSS, ABORTED => delete (tid e) m
  | _, _ => m
  end.

Lemma recover_record_kind r pos op e e0 :
  op_kind op (type e) (status e) ->
  e0 = e <| type := CROSS |> <| status := NO_STATUS |> ->
  recover_record r pos op e0
  = recover_push e (r <| rc_ballot_num := Z.max (rc_ballot_num r) (e_ballot_num e) |>
                      <| rc_index ::= index_after pos e |>).
Proof.
  intros Hk ->. destruct e as [t bn bs tx ty st], r as [ix li b lg]. simpl in Hk.
  unfold recover_record, index_after. simpl.
  destruct Hk as [([-> | ->] & -> & ->)|[(-> & -> & ->)|[(-> & -> & ->)|(-> & -> & ->)]]];
    repeat (rewrite bool_decide_true by (vm_compute; tauto) || rewrite bool_decide_false by (vm_compute; naive_solver)); done.
Qed.

Lemma replay_snoc b f op e : newline_terminated f ->
  op_kind op (type e) (status e) -> entry_ok e ->
  replay b (f ++ record_text op e ++ [nl])
  = recover_push e ((replay b f)
      <| rc_ballot_num := Z.max (rc_ballot_num (replay b f)) (e_ballot_num e) |>
      <| rc_index ::= index_after (Z.of_nat (length f)) e |>).
Proof.
  intros Hf Hk He. pose proof (op_kind_ok _ _ _ Hk) as Hop. unfold replay.
  rewrite lines_snoc by auto using record_text_no_nl.
  rewrite foldl_app. simpl. unfold recover_line. simpl.
  destruct (record_text_cons op e Hop) as (c & l & Ec). rewrite Ec at 1.
  rewrite record_text_parse by done. by apply recover_record_kind.
Qed.

(** ** Refinement

    [wal_refines w a]: the file and the index of [w] represent [a].  The file
    consists of complete lines that recovery reads back as the records of [a],
    recovery rebuilds the index the object holds in memory, and the index of a
    pending transaction leads to its prepared record. *)
Record wal_refines (w : WAL) (a : LogSpec) : Prop := {
  wr_openable : wal_openable w = true;
  wr_lines : newline_terminated (content w);
  wr_log : forall b, rc_log (replay b (content w)) = ls_log a;
  wr_ballot : forall b, rc_ballot_num (replay b (content w)) = max_ballot b (ls_log a);
  wr_last : forall b,
    rc_last_inserted (replay b (content w)) = wrap32 (Z.of_nat (length (ls_log a))) - 1;
  wr_index : forall b, rc_index (replay b (content w)) = transferIndex w;
  wr_pending : forall t,
    match transferIndex w !! t, ls_pending a !! t with
    | Some pos, Some e =>
      type e = CROSS /\ status e = PREPARED /\ tid e = t /\ entry_ok e
      /\ exists op, (line_at pos (content w) ≫= parse_record)
                    = Some (op, e <| status := NO_STATUS |>)
    | None, None => True
    | _, _ => False
    end
}.

Lemma wal_refines_empty : wal_refines (mkWAL None true ∅) spec_empty.
Proof. by split; [..| left | | | | |]; intros; simpl. Qed.

(** Appending one record keeps the refinement, whatever the operation. *)
Lemma wal_refines_append w a op e m :
  wal_refines w a -> op_kind op (type e) (status e) -> entry_ok e ->
  m = index_after (Z.of_nat (length (content w))) e (transferIndex w) ->
  wal_refines (append_line (record_text op e) (w <| transferIndex := m |>))
    (spec_append e a).
Proof.
  intros [Ho Hl Hlog Hb Hla Hix Hp] Hk He ->.
  pose proof (op_kind_ok _ _ _ Hk) as Hop.
  split; simpl; unfold content in *; simpl.
  - done.
  - apply newline_terminated_app.
  - intros b. rewrite replay_snoc by done. simpl. by rewrite Hlog.
  - intros b. rewrite replay_snoc by done. simpl. unfold max_ballot.
    by rewrite foldl_app, Hb.
  - intros b. rewrite replay_snoc by done. simpl. by rewrite Hlog, length_app.
  - intros b. rewrite replay_snoc by done. simpl. by rewrite Hix.
  - assert (forall t,
      match transferIndex w !! t, ls_pending a !! t with
      | Some pos, Some e0 =>
        type e0 = CROSS /\ status e0 = PREPARED /\ tid e0 = t /\ entry_ok e0
        /\ exists op0, (line_at pos (default [] (wal_file w) ++ record_text op e ++ [nl])
                        ≫= parse_record) = Some (op0, e0 <| status := NO_STATUS |>)
      | None, None => True
      | _, _ => False
      end) as Hold.
    { intros t. specialize (Hp t). do 2 case_match; try done.
      destruct Hp as (? & ? & ? & ? & op0 & E). split_and!; auto. exists op0.
      destruct (line_at _ _) as [ln|] eqn:El; [|done].
      by rewrite (line_at_extend _ _ _ ln) by done. }
    intros t. unfold index_after.
    destruct (type e) eqn:Et; [apply Hold|].
    destruct (status e) eqn:Es; [apply Hold| | |].
    1: destruct (decide (t = tid e)) as [->|Hne].
    + rewrite !lookup_insert_eq. split_and!; auto. exists op.
      rewrite (line_at_app _ _ []) by auto using record_text_no_nl.
      simpl. rewrite record_text_parse by done. by destruct e; simpl in *; subst.
    + rewrite !lookup_insert_ne by done. apply Hold.
    + destruct (decide (t = tid e)) as [->|Hne]; [by rewrite !lookup_delete_eq|].
      rewrite !lookup_delete_ne by done. apply Hold.
    + destruct (decide (t = tid e)) as [->|Hne]; [by rewrite !lookup_delete_eq|].
      rewrite !lookup_delete_ne by done. apply Hold.
Qed.

Lemma refines_decide w a op st t :
  wal_refines w a -> op_kind op CROSS st ->
  st = COMMITTED \/ st = ABORTED ->
  wal_refines (wal_decide op st t w).1 (spec_decide st t a).1
  /\ (wal_decide op st t w).2 = Some (spec_decide st t a).2.
Proof.
  intros HR Hk Hst. pose proof (wr_pending w a HR t) as Hp.
  pose proof (wr_openable w a HR) as Ho.
  unfold wal_decide, spec_decide.
  destruct (transferIndex w !! t) as [pos|] eqn:Ei, (ls_pending a !! t) as [e|] eqn:Ep;
    try done.
  destruct Hp as (Hty & Hs & Ht & He & op0 & E).
  assert (getTransactionFromFile w pos = Some e) as Eg.
  { unfold getTransactionFromFile, content in *. rewrite Ho.
    destruct (wal_file w) as [f|]; simpl in *.
    - rewrite E. simpl. f_equal. by destruct e; simpl in *; subst.
    - by rewrite line_at_nil in E. }
  rewrite Eg, Ho. simpl. split; [|done].
  replace (e <| tid := t |>) with e by by destruct e; simpl in *; subst.
  assert (record_text op e = record_text op (e <| status := st |>)) as -> by done.
  apply wal_refines_append with (op := op); [done| |by destruct e|].
  - simpl. by rewrite Hty.
  - unfold index_after. simpl. rewrite Hty, Ht. by destruct Hst as [-> | ->].
Qed.

Lemma refines_prepare w a r b : wal_refines w a -> req_ok r -> ballot_ok b ->
  wal_refines (wal_prepareTransaction r b w).1 (spec_append (entry_of r b CROSS PREPARED) a)
  /\ (wal_prepareTransaction r b w).2 = entry_of r b CROSS PREPARED.
Proof.
  intros HR [Hr Ht] [Hb1 Hb2]. unfold wal_prepareTransaction. rewrite (wr_openable w a HR).
  split; [|done]. apply wal_refines_append; [done|right; by left|done|done].
Qed.

Lemma refines_commit w a r b : wal_refines w a -> req_ok r -> ballot_ok b ->
  wal_refines (wal_commitTransaction r b w).1 (spec_append (entry_of r b INTRA COMMITTED) a)
  /\ (wal_commitTransaction r b w).2 = entry_of r b INTRA COMMITTED.
Proof.
  intros HR [Hr Ht] [Hb1 Hb2]. unfold wal_commitTransaction. rewrite (wr_openable w a HR).
  split; [|done]. simpl.
  replace w with (w <| transferIndex := transferIndex w |>) at 1 by by destruct w.
  apply wal_refines_append; [done|left; simpl; auto|done|done].
Qed.

(** C7.  The write-ahead log implements its specification: from any state that
    represents a log, preparing, committing and aborting transactions return the
    entries the specification prescribes and lead to a state that represents the
    extended log; a decision on a transaction that is not pending changes
    nothing and reports failure. *)
Theorem wal_refinement w a r b t : wal_refines w a -> req_ok r -> ballot_ok b ->
  (wal_refines (wal_prepareTransaction r b w).1 (spec_append (entry_of r b CROSS PREPARED) a)
   /\ (wal_prepareTransaction r b w).2 = entry_of r b CROSS PREPARED)
  /\ (wal_refines (wal_commitTransaction r b w).1 (spec_append (entry_of r b INTRA COMMITTED) a)
      /\ (wal_commitTransaction r b w).2 = entry_of r b INTRA COMMITTED)
  /\ (wal_refines (wal_commitTpc t w).1 (spec_decide COMMITTED t a).1
      /\ (wal_commitTpc t w).2 = Some (spec_decide COMMITTED t a).2)
  /\ (wal_refines (wal_abortTpc t w).1 (spec_decide ABORTED t a).1
      /\ (wal_abortTpc t w).2 = Some (spec_decide ABORTED t a).2).
Proof.
  intros HR Hr Hb. split; [by apply refines_prepare|]. split; [by apply refines_commit|].
  split; apply refines_decide; auto; unfold op_kind; auto 10.
Qed.

Lemma wal_refinement_witness :
  let r := mkTransferReq (mkTransaction 5 2001 4) 77 in
  let b := mkBallot 3 1 in
  let w := (wal_prepareTransaction r b (mkWAL None true ∅)).1 in
  (wal_commitTpc 77 w).2 = Some (entry_of r b CROSS COMMITTED).
Proof.
  intros r b w. subst w.
  assert (req_ok r /\ ballot_ok b) as [Hr Hb].
  { unfold req_ok, txn_ok, ballot_ok, in32, in64. vm_compute. intuition congruence. }
  pose proof (wal_refinement (mkWAL None true ∅) spec_empty r b 77 wal_refines_empty Hr Hb)
    as [[HR _] _].
  pose proof (wal_refinement _ _ r b 77 HR Hr Hb) as (_ & _ & (_ & E) & _).
  rewrite E. reflexivity.
Defined.

(** The entries a peer may send during a synchronization: those recovery knows
    how to read back. *)
Definition syncable (w : WAL) (e : WALEntry) : Prop :=
  entry_ok e /\
  (type e = INTRA /\ status e = COMMITTED /\ transferIndex w !! tid e = None
   \/ type e = CROSS /\ status e <> NO_STATUS).

Lemma refines_insert w a e : wal_refines w a -> syncable w e ->
  wal_refines (insertEntry e w) (spec_append e a).
Proof.
  intros HR [He Hk]. unfold insertEntry. rewrite (wr_openable w a HR).
  destruct Hk as [(Hty & Hst & Hn)|[Hty Hst]]; rewrite Hty.
  - rewrite Hst. apply wal_refines_append; [done| |done|].
    + rewrite Hty, Hst. unfold op_kind. left. auto.
    + unfold index_after. rewrite Hty. by apply delete_id.
  - destruct (status e) eqn:Es; [done|..];
      (apply wal_refines_append; [done| |done|];
       [rewrite Hty, Es; unfold op_kind; auto 10 |
        unfold index_after; by rewrite Hty, Es]).
Qed.

(** ** Recovery

    [wal_reach w l]: the log object can be in state [w] when the records written
    so far, in order, are [l]: the entries a server appends to its in-memory log
    with each operation. *)
Inductive wal_reach : WAL -> list WALEntry -> Prop :=
  | reach_new : wal_reach (mkWAL None true ∅) []
  | reach_prepare w l r b : wal_reach w l -> req_ok r -> ballot_ok b ->
      wal_reach (wal_prepareTransaction r b w).1 (l ++ [(wal_prepareTransaction r b w).2])
  | reach_commit w l r b : wal_reach w l -> req_ok r -> ballot_ok b ->
      wal_reach (wal_commitTransaction r b w).1 (l ++ [(wal_commitTransaction r b w).2])
  | reach_commit_tpc w l t e : wal_reach w l -> transferIndex w !! t <> None ->
      (wal_commitTpc t w).2 = Some e -> wal_reach (wal_commitTpc t w).1 (l ++ [e])
  | reach_abort_tpc w l t e : wal_reach w l -> transferIndex w !! t <> None ->
      (wal_abortTpc t w).2 = Some e -> wal_reach (wal_abortTpc t w).1 (l ++ [e])
  | reach_unknown_tpc w l t : wal_reach w l -> transferIndex w !! t = None ->
      wal_reach (wal_commitTpc t w).1 l
  | reach_insert w l e : wal_reach w l -> syncable w e ->
      wal_reach (insertEntry e w) (l ++ [e]).

Lemma decide_known w a op st t e :
  wal_refines w a -> op_kind op CROSS st -> st = COMMITTED \/ st = ABORTED ->
  transferIndex w !! t <> None -> (wal_decide op st t w).2 = Some e ->
  wal_refines (wal_decide op st t w).1 (spec_append e a).
Proof.
  intros HR Hk Hst Hi E. pose proof (wr_pending w a HR t) as Hp.
  destruct (refines_decide w a op st t HR Hk Hst) as [HR' E'].
  rewrite E in E'. unfold spec_decide in *.
  destruct (transferIndex w !! t), (ls_pending a !! t); try done. by simplify_eq/=.
Qed.

Lemma ls_log_append e a : ls_log (spec_append e a) = ls_log a ++ [e].
Proof. done. Qed.

Lemma wal_reach_refines w l : wal_reach w l -> exists a, wal_refines w a /\ ls_log a = l.
Proof.
  induction 1 as [|w l r b _ (a & HR & <-) Hr Hb|w l r b _ (a & HR & <-) Hr Hb
    |w l t e _ (a & HR & <-) Hi E|w l t e _ (a & HR & <-) Hi E
    |w l t _ (a & HR & <-) Hi|w l e _ (a & HR & <-) He].
  - exists spec_empty. split; [apply wal_refines_empty | done].
  - destruct (refines_prepare w a r b HR Hr Hb) as (H & ->). eauto using ls_log_append.
  - destruct (refines_commit w a r b HR Hr Hb) as (H & ->). eauto using ls_log_append.
  - exists (spec_append e a). split; [|done].
    eapply decide_known; eauto. unfold op_kind. auto 10.
  - exists (spec_append e a). split; [|done].
    eapply decide_known; eauto. unfold op_kind. auto 10.
  - exists a. split; [|done]. unfold wal_commitTpc, wal_decide. by rewrite Hi.
  - exists (spec_append e a). eauto using refines_insert.
Qed.

Lemma recover_reach w l b : wal_reach w l ->
  recover (mkWAL (wal_file w) true ∅) (-1) b []
  = (w, (wrap32 (Z.of_nat (length l)) - 1, max_ballot b l, l)).
Proof.
  intros (a & [Ho Hl Hlog Hb Hla Hix Hp] & <-)%wal_reach_refines.
  unfold recover. simpl. destruct w as [[f|] o ix]; simpl in *; subst o.
  - unfold content in *. simpl in *. fold (replay b f).
    by rewrite Hix, Hb, Hlog, Hla.
  - unfold content in *. simpl in *.
    by rewrite <- (Hix b), <- Hlog with (b := b).
Qed.

(** The entries of a log are well typed. *)
Lemma wal_reach_ok w l : wal_reach w l -> Forall entry_ok l.
Proof.
  assert (forall w l op st t e, wal_reach w l -> transferIndex w !! t <> None ->
    op_kind op CROSS st -> st = COMMITTED \/ st = ABORTED ->
    (wal_decide op st t w).2 = Some e -> entry_ok e) as Hd.
  { intros w0 l0 op st t e (a & HR & _)%wal_reach_refines Hi Hk Hst E.
    pose proof (wr_pending w0 a HR t) as Hp.
    destruct (refines_decide w0 a op st t HR Hk Hst) as [_ E']. rewrite E in E'.
    unfold spec_decide in E'.
    destruct (transferIndex w0 !! t), (ls_pending a !! t) as [e0|]; try done.
    destruct Hp as (_ & _ & _ & He & _). simplify_eq/=. by destruct e0. }
  induction 1 as [|w l r b Hw IH [Hr Ht] [Hb1 Hb2]|w l r b Hw IH Hr Hb|w l t e Hw IH Hi E
    |w l t e Hw IH Hi E|w l t Hw IH Hi|w l e Hw IH [He _]]; [constructor|..|done|];
    try (apply Forall_app; split; [done|]; apply Forall_singleton).
  - destruct (wal_reach_refines _ _ Hw) as (a & HR & _).
    destruct (refines_prepare w a r b HR) as [_ ->]; [by split..|]. by split_and!.
  - destruct (wal_reach_refines _ _ Hw) as (a & HR & _).
    destruct (refines_commit w a r b HR Hr Hb) as [_ ->]. by destruct Hr, Hb.
  - apply (Hd w l (L "CS_COMMIT") COMMITTED t e Hw Hi); [unfold op_kind; auto 10|auto|done].
  - apply (Hd w l (L "CS_ABORT") ABORTED t e Hw Hi); [unfold op_kind; auto 10|auto|done].
  - done.
Qed.


