(* ===== verification/Server.v ===== *)
(** * Server: the replica state machine

    [class ServerImpl] ([src/server/server.h], [src/server/server.cc]) and the
    part of [class InCall] it calls back into.  The state of a server is one
    record whose fields carry the names of the source; every member function is a
    function from states to states.  What leaves the process is appended to
    [outs]: the RPCs it starts on its peers and the replies to parked clients.

    The last fields stand for the world around the object: [clock] is the value of
    [steady_clock::now()] in nanoseconds, [calls] the table of live [InCall]
    objects (a pointer to a call is its key), and two flags record errors: [ub] is
    set when an execution does something C++ leaves undefined (signed overflow, a
    null stub, a cast out of an enumeration, a read of an indeterminate value) and
    [call_fault] when a call is used after it was deleted or finished twice.  Log
    messages are not modelled. *)

From S2P Require Import Prelude Text Types Utils Store Wal.

Definition MAJORITY : Z := 2.
Definition TPC_LOCK_TIMEOUT_MS : Z := 5000.
Definition ns_per_ms : Z := 1000000.

(** [InCall::CallStatus] and the fields of a call that survive its request. *)
Inductive CallStatus := CREATE | PROCESS | RETRY | FINISH | AWAIT_BATCH.
Record InCall := mkInCall { ic_type : RequestTypes; ic_status : CallStatus }.

#[export] Instance CallStatus_eq_dec : EqDecision CallStatus.
Proof. solve_decision. Defined.
#[export] Instance InCall_eq_dec : EqDecision InCall.
Proof. solve_decision. Defined.
#[export] Instance eta_InCall : Eta InCall := fun c => mkInCall (ic_type c) (ic_status c).

Record BatchEntry := mkBatchEntry {
  request : TransferReq;
  call : Z;
  is_cross_shard : bool
}.

Inductive Response :=
  | EmptyRes
  | TransferRes_ (r : TransferRes)
  | BalanceRes (amount : Z)
  | LogRes (logs : list LogEntry)
  | PrepareRes_ (r : PrepareRes)
  | AcceptRes_ (r : AcceptRes)
  | SyncRes_ (r : SyncRes).

(** What a server sends: RPCs to a peer, and the reply to a call. *)
Inductive Output :=
  | SendPrepare (peer : Z) (r : PrepareReq)
  | SendAccept (peer : Z) (r : AcceptReq)
  | SendCommit (peer : Z) (r : CommitReq)
  | SendSync (peer : Z) (r : SyncReq)
  | Reply (c : Z) (r : Response).

Record ServerImpl (D : Type) := mkServer {
  cfg : constants;
  server_id : Z;
  server_name : text;
  cluster_id : Z;
  stubs : list Z;
  i_am_disconnected : bool;
  disconnected : gmap Z bool;
  balances : gmap Z Z;
  balance_applied : gset Z;
  locks : gset Z;
  prepareTimestamps : gmap Z Z;
  db : D;
  wal : WAL;
  log : list WALEntry;
  pending_ : list BatchEntry;
  current_ : list BatchEntry;
  is_paxos_running : bool;
  ballot_num : Z;
  promised : bool;
  promised_num : Ballot;
  accepted : bool;
  accept_num : Ballot;
  accept_batch : list TransferReq;
  last_inserted : Z;
  last_inserted_ballot : Ballot;
  paxos_index : Z;
  in_sync : bool;
  prepare_successes : Z;
  prepare_failures : Z;
  accept_successes : Z;
  accept_failures : Z;
  await_prepare_decision : bool;
  await_accept_decision : bool;
  calls : gmap Z InCall;
  next_call : Z;
  clock : Z;
  outs : list Output;
  ub : bool;
  call_fault : bool
}.

Arguments mkServer {D}.
Arguments cfg {D} _.
Arguments server_id {D} _.
Arguments server_name {D} _.
Arguments cluster_id {D} _.
Arguments stubs {D} _.
Arguments i_am_disconnected {D} _.
Arguments disconnected {D} _.
Arguments balances {D} _.
Arguments balance_applied {D} _.
Arguments locks {D} _.
Arguments prepareTimestamps {D} _.
Arguments db {D} _.
Arguments wal {D} _.
Arguments log {D} _.
Arguments pending_ {D} _.
Arguments current_ {D} _.
Arguments is_paxos_running {D} _.
Arguments ballot_num {D} _.
Arguments promised {D} _.
Arguments promised_num {D} _.
Arguments accepted {D} _.
Arguments accept_num {D} _.
Arguments accept_batch {D} _.
Arguments last_inserted {D} _.
Arguments last_inserted_ballot {D} _.
Arguments paxos_index {D} _.
Arguments in_sync {D} _.
Arguments prepare_successes {D} _.
Arguments prepare_failures {D} _.
Arguments accept_successes {D} _.
Arguments accept_failures {D} _.
Arguments await_prepare_decision {D} _.
Arguments await_accept_decision {D} _.
Arguments calls {D} _.
Arguments next_call {D} _.
Arguments clock {D} _.
Arguments outs {D} _.
Arguments ub {D} _.
Arguments call_fault {D} _.

#[export] Instance eta_ServerImpl {D} : Eta (ServerImpl D) := fun s =>
  mkServer (cfg s) (server_id s) (server_name s) (cluster_id s) (stubs s)
    (i_am_disconnected s) (disconnected s) (balances s) (balance_applied s) (locks s)
    (prepareTimestamps s) (db s) (wal s) (log s) (pending_ s) (current_ s)
    (is_paxos_running s) (ballot_num s) (promised s) (promised_num s) (accepted s)
    (accept_num s) (accept_batch s) (last_inserted s) (last_inserted_ballot s)
    (paxos_index s) (in_sync s) (prepare_successes s) (prepare_failures s)
    (accept_successes s) (accept_failures s) (await_prepare_decision s)
    (await_accept_decision s) (calls s) (next_call s) (clock s) (outs s) (ub s)
    (call_fault s).

(** A log entry produced by a Paxos-agreed append. *)
Definition isPaxosEntry (e : WALEntry) : bool :=
  match type e, status e with
  | INTRA, COMMITTED | CROSS, PREPARED => true
  | _, _ => false
  end.

(** [getLogEntryFromLocalLog] and the conversion back in [handleSyncReply]. *)
Definition getLogEntryFromLocalLog (e : WALEntry) : LogEntry :=
  mkLogEntry (txn e) (tid e) (type_code (type e)) (status_code (status e))
    (e_ballot_num e) (e_ballot_server_id e).

Definition entry_of_log (l : LogEntry) : option WALEntry :=
  ty ← type_of_code (le_type l);
  st ← status_of_code (le_status l);
  Some (mkWALEntry (le_tid l) (le_ballot_num l) (le_ballot_server_id l) (le_txn l) ty st).

(** The entries of a [std::map<long, _>] in increasing order of keys. *)
Definition stamp_le (p q : Z * Z) : Prop := p.1 <= q.1.
#[export] Instance stamp_le_dec : RelDecision stamp_le.
Proof. intros p q. unfold stamp_le. apply _. Defined.
Definition sorted_timestamps (m : gmap Z Z) : list (Z * Z) :=
  merge_sort stamp_le (map_to_list m).

Section server.
Context {D : Type} `{KVStore D}.
Implicit Types s : ServerImpl D.

(** ** Undefined behaviour, outputs and calls *)

Definition flag_if (b : bool) s : ServerImpl D := if b then s <| ub := true |> else s.

(** The result of an [int] operation. *)
Definition check_int (z : Z) s : ServerImpl D := flag_if (negb (in32b z)) s.

Definition emit (o : Output) s : ServerImpl D := s <| outs ::= fun l => l ++ [o] |>.

(** A call through [stubs[id]]: an unknown id yields a null stub. *)
Definition send_to (id : Z) (o : Output) s : ServerImpl D :=
  if bool_decide (id ∈ stubs s) then emit o s else s <| ub := true |>.

Definition broadcast (mk : Z -> Output) s : ServerImpl D :=
  foldl (fun s id => emit (mk id) s) s (stubs s).

(** [responder.Finish(response, Status::OK, this); status_ = FINISH].  A second
    [Finish] on a call, or one on a call that was deleted, is an error. *)
Definition finish (c : Z) (r : Response) s : ServerImpl D :=
  match calls s !! c with
  | Some ic =>
    if bool_decide (ic_status ic = FINISH) then s <| call_fault := true |>
    else emit (Reply c r) (s <| calls ::= <[c := ic <| ic_status := FINISH |>]> |>)
  | None => s <| call_fault := true |>
  end.

(** [InCall::completeTransfer] *)
Definition completeTransfer (c : Z) (ack : bool) (t : Z) s : ServerImpl D :=
  finish c (TransferRes_ (mkTransferRes ack t)) s.

(** ** Storage *)

Definition isClientInCluster_s s (client : Z) : bool :=
  getClusterIdFromClientId (cfg s) client =? cluster_id s.

Definition ballot_key : text := L "__ballot_num__".

(** [updateBalance] and [persistBallotNum]: a failed put is only logged. *)
Definition updateBalance (client balance : Z) s : ServerImpl D :=
  s <| db := (db_put (db s) (to_text client) (to_text balance)).1 |>.

Definition persistBallotNum s : ServerImpl D :=
  s <| db := (db_put (db s) ballot_key (to_text (ballot_num s))).1 |>.

(** [balances[c]] reads 0 for a missing client and inserts it. *)
Definition balance_of s (c : Z) : Z := default 0 (balances s !! c).

Definition touch_balance (c : Z) s : ServerImpl D :=
  s <| balances ::= <[c := balance_of s c]> |>.

(** [balances[c] += d] *)
Definition add_balance (c d : Z) s : ServerImpl D :=
  check_int (balance_of s c + d) (s <| balances ::= <[c := balance_of s c + d]> |>).

(** [updateBalance(c, balances[c])] *)
Definition store_balance (c : Z) s : ServerImpl D := updateBalance c (balance_of s c) s.

Definition push_log (e : WALEntry) s : ServerImpl D := s <| log ::= fun l => l ++ [e] |>.

(** [last_inserted = log.size() - 1; last_inserted_ballot = ballot; paxos_index++] *)
Definition advance (b : Ballot) s : ServerImpl D :=
  check_int (paxos_index s + 1)
    (s <| last_inserted := wrap32 (Z.of_nat (length (log s)) - 1) |>
       <| last_inserted_ballot := b |>
       <| paxos_index := paxos_index s + 1 |>).

Definition prepareTransaction (r : TransferReq) (b : Ballot) s : ServerImpl D :=
  let '(w, e) := wal_prepareTransaction r b (wal s) in
  let s := advance b (push_log e (s <| wal := w |>)) in
  s <| prepareTimestamps ::= <[tr_tid r := clock s]> |>.

Definition commitTransaction (r : TransferReq) (b : Ballot) s : ServerImpl D :=
  if bool_decide (tr_tid r ∈ balance_applied s) then s
  else
    let s := s <| balance_applied ::= union {[ tr_tid r ]} |> in
    let '(w, e) := wal_commitTransaction r b (wal s) in
    let s := push_log e (s <| wal := w |>) in
    let s := add_balance (sender (txn e)) (- amount (txn e)) s in
    let s := add_balance (receiver (txn e)) (amount (txn e)) s in
    let s := store_balance (sender (txn e)) s in
    let s := store_balance (receiver (txn e)) s in
    advance b s.

(** One side of a transaction in [processTpcDecision] and [handleSyncReply]:
    [balances[c] += d; updateBalance(c, balances[c])]. *)
Definition apply_side (c d : Z) s : ServerImpl D := store_balance c (add_balance c d s).

Definition release (c : Z) s : ServerImpl D := s <| locks ::= fun l => l ∖ {[ c ]} |>.
Definition acquire (c : Z) s : ServerImpl D := s <| locks ::= union {[ c ]} |>.

(** ** Two-phase commit *)

Definition decision_side (apply : bool) (c d : Z) s : ServerImpl D :=
  if isClientInCluster_s s c then
    let s := release c s in
    if apply then apply_side c d s else s
  else s.

Definition processTpcDecision (t : Z) (is_commit : bool) s : ServerImpl D :=
  if i_am_disconnected s then s
  else
    let s := s <| prepareTimestamps ::= delete t |> in
    let '(w, r) := if is_commit then wal_commitTpc t (wal s) else wal_abortTpc t (wal s) in
    let s := s <| wal := w |> in
    match r with
    | None => s <| ub := true |>
    | Some e =>
      if tid e =? -1 then s
      else
        let s := push_log e s in
        let first_apply := is_commit && bool_decide (tid e ∉ balance_applied s) in
        let s := if is_commit then s <| balance_applied ::= union {[ tid e ]} |> else s in
        let s := decision_side first_apply (sender (txn e)) (- amount (txn e)) s in
        decision_side first_apply (receiver (txn e)) (amount (txn e)) s
    end.

(** One expired entry of the sweep at the end of each iteration of
    [HandleRPCs]. *)
Definition abort_expired (t : Z) s : ServerImpl D :=
  let '(w, r) := wal_abortTpc t (wal s) in
  let s := s <| wal := w |> in
  let s :=
    match r with
    | None => s <| ub := true |>
    | Some e =>
      if tid e =? -1 then s
      else
        let s := if isClientInCluster_s s (sender (txn e)) then release (sender (txn e)) s else s in
        let s := if isClientInCluster_s s (receiver (txn e)) then release (receiver (txn e)) s else s in
        push_log e s
    end in
  s <| prepareTimestamps ::= delete t |>.

Definition expired (now t0 : Z) : bool := TPC_LOCK_TIMEOUT_MS <? Z.quot (now - t0) ns_per_ms.

Definition sweep_one (now : Z) s (p : Z * Z) : ServerImpl D :=
  if expired now p.2 then abort_expired p.1 s else s.

Definition sweep s : ServerImpl D :=
  foldl (sweep_one (clock s)) s (sorted_timestamps (prepareTimestamps s)).

(** ** A Paxos round on the leader *)

Definition reissuePrepareForCurrent s : ServerImpl D :=
  let s := check_int (ballot_num s + 1) (s <| ballot_num := ballot_num s + 1 |>) in
  let ballot := mkBallot (ballot_num s) (server_id s) in
  let s := persistBallotNum s in
  let s := s <| promised := true |> <| promised_num := ballot |>
             <| await_prepare_decision := true |> <| await_accept_decision := false |>
             <| prepare_successes := 1 |> <| prepare_failures := 0 |> in
  broadcast (fun id => SendPrepare id (mkPrepareReq ballot (paxos_index s))) s.

Definition startRound s : ServerImpl D :=
  reissuePrepareForCurrent
    (s <| current_ := pending_ s |> <| pending_ := [] |> <| is_paxos_running := true |>).

Definition maybeStartRound s : ServerImpl D :=
  if is_paxos_running s || in_sync s || bool_decide (pending_ s = []) then s
  else startRound s.

Definition finishRound s : ServerImpl D :=
  maybeStartRound
    (s <| is_paxos_running := false |> <| promised := false |> <| accepted := false |>
       <| await_prepare_decision := false |> <| await_accept_decision := false |>
       <| current_ := [] |> <| accept_batch := [] |>).

Definition enqueueClientTxn (c : Z) (r : TransferReq) (cross : bool) s : ServerImpl D :=
  if i_am_disconnected s then completeTransfer c false (tr_tid r) s
  else maybeStartRound (s <| pending_ ::= fun l => l ++ [mkBatchEntry r c cross] |>).

(** The precondition of an entry when the prepare quorum is reached.  Reading
    [balances[sender]] inserts a missing client, after the lock tests only. *)
Definition entry_locked (e : BatchEntry) s : bool :=
  let t := tr_txn (request e) in
  isClientInCluster_s s (sender t) && bool_decide (sender t ∈ locks s)
  || isClientInCluster_s s (receiver t) && bool_decide (receiver t ∈ locks s).

Definition entry_short_of_funds (e : BatchEntry) s : bool :=
  let t := tr_txn (request e) in
  isClientInCluster_s s (sender t) && (balance_of s (sender t) <? amount t).

Definition acquire_if_local (c : Z) s : ServerImpl D :=
  if isClientInCluster_s s c then acquire c s else s.

(** The body of the validation loop: the state and the entries kept so far. *)
Definition validate_entry (acc : ServerImpl D * list BatchEntry) (e : BatchEntry)
    : ServerImpl D * list BatchEntry :=
  let '(s, kept) := acc in
  let t := tr_txn (request e) in
  if entry_locked e s then (completeTransfer (call e) false (tr_tid (request e)) s, kept)
  else
    let s := if isClientInCluster_s s (sender t) then touch_balance (sender t) s else s in
    if entry_short_of_funds e s then
      (completeTransfer (call e) false (tr_tid (request e)) s, kept)
    else
      let s := acquire_if_local (sender t) s in
      let s := acquire_if_local (receiver t) s in
      let s := if is_cross_shard e then prepareTransaction (request e) (promised_num s) s
               else s in
      (s, kept ++ [e]).

Definition onPrepareQuorum s : ServerImpl D :=
  let s := s <| await_prepare_decision := false |> in
  let '(s, kept) := foldl validate_entry (s, []) (current_ s) in
  let s := s <| current_ := kept |> in
  match kept with
  | [] => finishRound s
  | _ =>
    let s := s <| accepted := true |> <| accept_num := promised_num s |>
               <| accept_batch := request <$> kept |>
               <| await_accept_decision := true |>
               <| accept_successes := 1 |> <| accept_failures := 0 |> in
    broadcast (fun id => SendAccept id (mkAcceptReq (promised_num s) (request <$> kept))) s
  end.

(** The body of the commit loop of [onAcceptQuorum]. *)
Definition commit_entry s (e : BatchEntry) : ServerImpl D :=
  let t := tr_txn (request e) in
  let s := if is_cross_shard e then s
           else commitTransaction (request e) (accept_num s)
                  (release (receiver t) (release (sender t) s)) in
  completeTransfer (call e) true (tr_tid (request e)) s.

Definition onAcceptQuorum s : ServerImpl D :=
  let s := s <| await_accept_decision := false |> in
  let s := broadcast (fun id => SendCommit id (mkCommitReq (accept_num s))) s in
  finishRound (foldl commit_entry s (current_ s)).

Definition abort_entry (prepare_phase : bool) s (e : BatchEntry) : ServerImpl D :=
  let t := tr_txn (request e) in
  let s := if negb prepare_phase && negb (is_cross_shard e)
           then release (receiver t) (release (sender t) s) else s in
  completeTransfer (call e) false (tr_tid (request e)) s.

Definition onRoundAbort (prepare_phase : bool) s : ServerImpl D :=
  finishRound (foldl (abort_entry prepare_phase) s (current_ s)).

(** ** Requests from peers *)

Definition processPrepareCall (r : PrepareReq) s : ServerImpl D * PrepareRes :=
  if i_am_disconnected s then
    (s, mkPrepareRes false (pq_ballot r) None [] None None None)
  else
    let b := pq_ballot r in
    let '(s, ack) :=
      if ballot_num s <? num b then
        if pq_paxos_index r =? paxos_index s then
          (persistBallotNum (s <| promised := true |> <| promised_num := b |>
                               <| ballot_num := num b |>), true)
        else if paxos_index s <? pq_paxos_index r then
          let s := s <| in_sync := true |> in
          (send_to (ballot_server b)
             (SendSync (ballot_server b) (mkSyncReq (last_inserted s))) s, false)
        else (s, false)
      else (s, false) in
    if ack then
      (s, mkPrepareRes true b
            (if accepted s then Some (accept_num s) else None)
            (if accepted s then accept_batch s else []) None None None)
    else
      (s, mkPrepareRes false b None []
            (if num b <=? ballot_num s then Some (ballot_num s) else None)
            (if pq_paxos_index r <? paxos_index s then Some (paxos_index s) else None)
            (Some (server_id s))).

(** The number of sides of a transaction this cluster owns. *)
Definition in_cluster s (t : Transaction) : Z :=
  (if isClientInCluster_s s (sender t) then 1 else 0)
  + (if isClientInCluster_s s (receiver t) then 1 else 0).

(** The body of the loop of [processAcceptCall]. *)
Definition accept_one (b : Ballot) s (r : TransferReq) : ServerImpl D :=
  let t := tr_txn r in
  let s := s <| accept_batch ::= fun l => l ++ [r] |> in
  let s := acquire_if_local (receiver t) (acquire_if_local (sender t) s) in
  if in_cluster s t =? 1 then prepareTransaction r b s else s.

Definition processAcceptCall (r : AcceptReq) s : ServerImpl D * AcceptRes :=
  if i_am_disconnected s then (s, mkAcceptRes false (aq_ballot r))
  else if promised s && (num (aq_ballot r) =? num (promised_num s)) then
    let s := s <| accepted := true |> <| accept_num := aq_ballot r |>
               <| accept_batch := [] |> in
    (foldl (accept_one (aq_ballot r)) s (aq_batch r), mkAcceptRes true (aq_ballot r))
  else (s, mkAcceptRes false (aq_ballot r)).

Definition release_if_local (c : Z) s : ServerImpl D :=
  if isClientInCluster_s s c then release c s else s.

(** The body of the loop of [processCommitCall]. *)
Definition commit_one (b : Ballot) s (r : TransferReq) : ServerImpl D :=
  let t := tr_txn r in
  let s := release_if_local (receiver t) (release_if_local (sender t) s) in
  if in_cluster s t =? 2 then commitTransaction r b s else s.

Definition processCommitCall (r : CommitReq) s : ServerImpl D :=
  if i_am_disconnected s then s
  else if (num (promised_num s) =? num (cq_ballot r))
       && (num (accept_num s) =? num (cq_ballot r)) then
    let s := foldl (commit_one (accept_num s)) s (accept_batch s) in
    s <| promised := false |> <| accepted := false |>
  else s.

(** [for (int i = commit_idx + 1; i < log.size(); i++)]: the comparison is
    unsigned, so a negative start reads nothing. *)
Definition log_from (i : Z) (l : list WALEntry) : list WALEntry :=
  if i <? 0 then [] else drop (Z.to_nat i) l.

Definition processSyncCall (r : SyncReq) s : SyncRes :=
  if sq_last_inserted r <? last_inserted s then
    mkSyncRes true
      (getLogEntryFromLocalLog <$> log_from (sq_last_inserted r + 1) (log s))
      (last_inserted_ballot s)
  else mkSyncRes false [] default_ballot.

Definition processGetBalanceCall (client : Z) s : ServerImpl D * Z :=
  (touch_balance client s, balance_of s client).

Definition processGetLogsCall s : list LogEntry := getLogEntryFromLocalLog <$> log s.

(** ** Simulated disconnections *)

Definition resetDisconnectedState s : ServerImpl D :=
  foldl (fun s p => if getClusterIdFromServerId (cfg s) p.2 =? cluster_id s
                    then s <| disconnected ::= <[p.2 := false]> |> else s)
    (s <| i_am_disconnected := false |>) (map_iter (server_ids (cfg s))).

(** [constants::server_ids[name]] inserts 0 for an unknown name. *)
Definition disconnect_one s (name : text) : ServerImpl D :=
  let id := default 0 (server_ids (cfg s) !! name) in
  let s := s <| cfg ::= fun c => c <| server_ids ::= <[name := id]> |> |> in
  let s := if getClusterIdFromServerId (cfg s) id =? cluster_id s
           then s <| disconnected ::= <[id := true]> |> else s in
  if id =? server_id s then s <| i_am_disconnected := true |> else s.

Definition processDisconnectCall (r : DisconnectReq) s : ServerImpl D :=
  foldl disconnect_one (resetDisconnectedState s) (dq_servers r).

(** ** Replies from peers *)

(** The round is decided when enough replies of one kind have arrived. *)
Definition prepare_decide s : ServerImpl D :=
  if MAJORITY <=? prepare_successes s then onPrepareQuorum s
  else if MAJORITY <=? prepare_failures s then onRoundAbort true s
  else s.

Definition handlePrepareReply (st : RpcStatus) (q : PrepareReq) (r : PrepareRes) s
    : ServerImpl D :=
  if negb (await_prepare_decision s) then s
  else
    let mine b := (num b =? num (promised_num s)) && (ballot_server b =? server_id s) in
    match st with
    | DEADLINE_EXCEEDED =>
      prepare_decide
        (if mine (pq_ballot q) then s <| prepare_failures ::= Z.succ |> else s)
    | OTHER_ERROR => prepare_decide s
    | OK =>
      if mine (pr_ballot r) then
        let s := if pr_ack r then s <| prepare_successes ::= Z.succ |>
                 else s <| prepare_failures ::= Z.succ |> in
        match pr_latest_ballot_num r with
        | Some b => reissuePrepareForCurrent (persistBallotNum (s <| ballot_num := b |>))
        | None =>
          if match pr_paxos_index r with Some i => paxos_index s <? i | None => false end then
            let s := s <| in_sync := true |> <| await_prepare_decision := false |> in
            let peer := default 0 (pr_server_id r) in
            send_to peer (SendSync peer (mkSyncReq (last_inserted s))) s
          else prepare_decide s
        end
      else prepare_decide s
    end.

Definition accept_decide s : ServerImpl D :=
  if MAJORITY <=? accept_successes s then onAcceptQuorum s
  else if MAJORITY <=? accept_failures s then onRoundAbort false s
  else s.

Definition handleAcceptReply (st : RpcStatus) (q : AcceptReq) (r : AcceptRes) s
    : ServerImpl D :=
  if negb (await_accept_decision s) then s
  else
    let mine b := (num b =? num (accept_num s)) && (ballot_server b =? server_id s) in
    accept_decide
      match st with
      | DEADLINE_EXCEEDED =>
        if mine (aq_ballot q) then s <| accept_failures ::= Z.succ |> else s
      | OTHER_ERROR => s
      | OK =>
        if mine (ar_ballot r) then
          if ar_ack r then s <| accept_successes ::= Z.succ |>
          else s <| accept_failures ::= Z.succ |>
        else s
      end.

(** The body of the loop of [handleSyncReply]. *)
Definition sync_side (apply : bool) (c d : Z) s : ServerImpl D :=
  if apply && isClientInCluster_s s c then apply_side c d s else s.

Definition sync_entry (e : WALEntry) s : ServerImpl D :=
  let s := push_log e s in
  let s := s <| wal ::= insertEntry e |> in
  let s := if isPaxosEntry e
           then check_int (paxos_index s + 1) (s <| paxos_index ::= Z.succ |>) else s in
  let committed := bool_decide (status e = COMMITTED) in
  let first_apply := committed && bool_decide (tid e ∉ balance_applied s) in
  let s := if committed then s <| balance_applied ::= union {[ tid e ]} |> else s in
  let s := sync_side first_apply (sender (txn e)) (- amount (txn e)) s in
  sync_side first_apply (receiver (txn e)) (amount (txn e)) s.

Definition sync_one s (l : LogEntry) : ServerImpl D :=
  match entry_of_log l with
  | Some e => sync_entry e s
  | None => s <| ub := true |>
  end.

Definition handleSyncReply (st : RpcStatus) (r : SyncRes) s : ServerImpl D :=
  let s :=
    match st with
    | OK =>
      if sr_ack r then
        let s := foldl sync_one s (sr_logs r) in
        let s := persistBallotNum (s <| ballot_num := num (sr_last_inserted_ballot r) |>) in
        let n := last_inserted s + wrap32 (Z.of_nat (length (sr_logs r))) in
        check_int n (s <| last_inserted := n |>
                       <| last_inserted_ballot := sr_last_inserted_ballot r |>)
      else s
    | _ => s
    end in
  let s := s <| in_sync := false |> in
  match current_ s with
  | [] => maybeStartRound s
  | _ => reissuePrepareForCurrent s
  end.

(** ** Start-up *)

(** The constructor: [wal] is the log object on its file, [d] the database.  The
    reply counters are set before they are read. *)
Definition new_server (c : constants) (id : Z) (name : text) (w : WAL) (d : D)
    : ServerImpl D :=
  resetDisconnectedState
    (mkServer c id name (getClusterIdFromServerId c id) [] false ∅ ∅ ∅ ∅ ∅ d w [] [] []
       false 0 false default_ballot false default_ballot [] (-1) default_ballot (-1) false
       0 0 0 0 false false ∅ 0 0 [] false false).

(** [stubs]: the peers of the cluster, by increasing id. *)
Definition peers s : list Z :=
  merge_sort Z.le
    (remove_dups (filter (fun id => id <> server_id s /\ getClusterIdFromServerId (cfg s) id = cluster_id s)
       (map_to_list (server_ids (cfg s))).*2)).

(** Loading the ballot number and one balance; [None] when [std::stoi] throws or
    the database fails, in which case the server stops. *)
Definition load_ballot s : option (ServerImpl D) :=
  match db_get (db s) ballot_key with
  | Found v => match stoi v with inl n => Some (s <| ballot_num := n |>) | inr _ => None end
  | _ => Some s
  end.

Definition load_balance s (i : Z) : option (ServerImpl D) :=
  if isClientInCluster_s s i then
    match db_get (db s) (to_text i) with
    | Found v =>
      match stoi v with
      | inl n => Some (s <| balances ::= <[i := n]> |>)
      | inr _ => None
      end
    | NotFound =>
      let s := s <| balances ::= <[i := 10]> |> in
      let '(d, ok) := db_put (db s) (to_text i) (L "10") in
      if ok then Some (s <| db := d |>) else None
    | GetError => None
    end
  else Some s.

Fixpoint load_balances (l : list Z) s : option (ServerImpl D) :=
  match l with
  | [] => Some s
  | i :: l' => s' ← load_balance s i; load_balances l' s'
  end.

Definition recover_wal s : ServerImpl D :=
  let '(w, (li, bn, lg)) := recover (wal s) (last_inserted s) (ballot_num s) (log s) in
  let s := s <| wal := w |> <| last_inserted := li |> <| ballot_num := bn |> <| log := lg |> in
  if 0 <=? last_inserted s then
    match log s !! Z.to_nat (last_inserted s) with
    | Some e => s <| last_inserted_ballot := mkBallot (e_ballot_num e) (e_ballot_server_id e) |>
    | None => s <| ub := true |>
    end
  else s.

(** [paxos_index = -1; for (e : log) if (isPaxosEntry(e)) paxos_index++] *)
Definition count_paxos (l : list WALEntry) : Z :=
  foldl (fun n e => if isPaxosEntry e then n + 1 else n) (-1) l.

(** [ServerImpl::run] up to the event loop. *)
Definition start s : option (ServerImpl D) :=
  s ← load_ballot (s <| stubs := peers s |>);
  s ← load_balances (loop 1 total_clients) s;
  let s := recover_wal s in
  Some (persistBallotNum (s <| paxos_index := count_paxos (log s) |>)).

End server.
