(* ===== verification/Calls.v ===== *)
(** * Calls: the event loop and the life of an RPC

    [class InCall] ([src/server/in_call.h], [src/server/in_call.cc]), the dispatch
    half of [class OutCall] ([src/server/out_call.h], [src/server/out_call.cc])
    and the loop of [ServerImpl::HandleRPCs].  gRPC is outside the model: an
    iteration of the loop is given what the two completion queues deliver. *)

From S2P Require Import Prelude Text Types Utils Store Wal Server.

(** The request fields of an [InCall]; gRPC fills the one of the call's type. *)
Record Request := mkRequest {
  tpcTid : Z;
  transferReq : TransferReq;
  balanceReq : Z;
  prepareReq : PrepareReq;
  acceptReq : AcceptReq;
  commitReq : CommitReq;
  syncReq : SyncReq;
  disconnectReq : DisconnectReq
}.

(** An [OutCall] whose RPC has completed: its type, the outcome, the copy of the
    request it kept and the reply. *)
Record OutCall := mkOutCall {
  oc_type : RequestTypes;
  oc_status : RpcStatus;
  oc_prepareReq : PrepareReq;
  oc_prepareReply : PrepareRes;
  oc_acceptReq : AcceptReq;
  oc_acceptReply : AcceptRes;
  oc_syncReply : SyncRes
}.

Section calls.
Context {D : Type} `{KVStore D}.
Implicit Types s : ServerImpl D.

Definition set_status (c : Z) (st : CallStatus) s : ServerImpl D :=
  s <| calls ::= alter (fun ic => ic <| ic_status := st |>) c |>.

(** The constructor: the call is created and at once registered with gRPC for the
    next request of its type. *)
Definition new_InCall (ty : RequestTypes) s : ServerImpl D :=
  let c := next_call s in
  let s := s <| calls ::= <[c := mkInCall ty CREATE]> |> <| next_call := c + 1 |> in
  set_status c PROCESS s.

(** The dispatch on the type of the request. *)
Definition process (c : Z) (ty : RequestTypes) (q : Request) s : ServerImpl D :=
  match ty with
  | TPC_PREPARE => enqueueClientTxn c (transferReq q) true (set_status c AWAIT_BATCH s)
  | TPC_COMMIT => finish c EmptyRes (processTpcDecision (tpcTid q) true s)
  | TPC_ABORT => finish c EmptyRes (processTpcDecision (tpcTid q) false s)
  | TRANSFER => enqueueClientTxn c (transferReq q) false (set_status c AWAIT_BATCH s)
  | PREPARE =>
    let '(s, r) := processPrepareCall (prepareReq q) s in finish c (PrepareRes_ r) s
  | ACCEPT =>
    let '(s, r) := processAcceptCall (acceptReq q) s in finish c (AcceptRes_ r) s
  | COMMIT => finish c EmptyRes (processCommitCall (commitReq q) s)
  | SYNC => finish c (SyncRes_ (processSyncCall (syncReq q) s)) s
  | BALANCE =>
    let '(s, r) := processGetBalanceCall (balanceReq q) s in finish c (BalanceRes r) s
  | LOGS => finish c (LogRes (processGetLogsCall s)) s
  | DISCONNECT => finish c EmptyRes (processDisconnectCall (disconnectReq q) s)
  end.

(** [InCall::Proceed] *)
Definition Proceed (c : Z) (q : Request) s : ServerImpl D :=
  match calls s !! c with
  | None => s <| call_fault := true |>
  | Some ic =>
    match ic_status ic with
    | CREATE => set_status c PROCESS s
    | PROCESS => process c (ic_type ic) q (new_InCall (ic_type ic) s)
    | RETRY => process c (ic_type ic) q s
    | FINISH => s <| calls ::= delete c |>
    | AWAIT_BATCH => s
    end
  end.

(** [OutCall::HandleRPCResponse] *)
Definition HandleRPCResponse (o : OutCall) s : ServerImpl D :=
  match oc_type o with
  | PREPARE => handlePrepareReply (oc_status o) (oc_prepareReq o) (oc_prepareReply o) s
  | ACCEPT => handleAcceptReply (oc_status o) (oc_acceptReq o) (oc_acceptReply o) s
  | SYNC => handleSyncReply (oc_status o) (oc_syncReply o) s
  | _ => s
  end.

(** What one iteration finds: the time when the events are handled, an event of
    the request queue (its tag and its [ok] bit), one of the response queue, and
    the time of the sweep. *)
Record Poll := mkPoll {
  poll_time : Z;
  poll_request : option (Z * bool * Request);
  poll_response : option (OutCall * bool);
  sweep_time : Z
}.

Definition request_types : list RequestTypes :=
  [TPC_PREPARE; TPC_COMMIT; TPC_ABORT; TRANSFER; BALANCE; LOGS; PREPARE; ACCEPT; COMMIT;
   SYNC; DISCONNECT].

(** The calls [HandleRPCs] creates before its loop. *)
Definition listen s : ServerImpl D := foldl (fun s ty => new_InCall ty s) s request_types.

(** "Handle request events" and "Handle response events": an event whose [ok] bit
    is not set is dropped. *)
Definition on_request (p : Poll) s : ServerImpl D :=
  match poll_request p with
  | Some (c, true, q) => Proceed c q s
  | _ => s
  end.

Definition on_response (p : Poll) s : ServerImpl D :=
  match poll_response p with
  | Some (o, true) => HandleRPCResponse o s
  | _ => s
  end.

Definition iteration (p : Poll) s : ServerImpl D :=
  let s := on_response p (on_request p (s <| clock := poll_time p |>)) in
  sweep (s <| clock := sweep_time p |>).

Definition HandleRPCs (ps : list Poll) s : ServerImpl D :=
  foldl (fun s p => iteration p s) (listen s) ps.

End calls.
