(* ===== verification/Fixture.v ===== *)
(** * Fixture: a concrete installation

    One cluster of three servers in a deployment of a thousand clusters, so that
    the shard of the cluster is the accounts 1, 2 and 3, with a finite map as the
    database and an empty write-ahead log.  The examples that instantiate the
    theorems of the other files start from it. *)

From S2P Require Import Prelude Text Types Utils Store Wal Server Calls.

(** [num_clusters = 1000], [cluster_size = 3], and a configuration file that names
    the servers of the first cluster. *)
Definition deployment : constants :=
  (loadConfig (mkConstants 1000 3 ∅ ∅)
     (Some (L "S1 localhost:50001 S2 localhost:50002 S3 localhost:50003"))).1.

Abbreviation server := (ServerImpl (gmap text text)).

Definition fresh_server (id : Z) : server :=
  new_server deployment id (server_name_of id) (mkWAL None true ∅) ∅.

Definition started (id : Z) : server :=
  default (fresh_server id) (start (fresh_server id)).

Lemma started_1 :
  start (new_server deployment 1 (server_name_of 1) (mkWAL None true ∅) ∅) = Some (started 1).
Proof.
  fold (fresh_server 1).
  assert (bool_decide (is_Some (start (fresh_server 1))) = true) as Hs by by vm_compute.
  apply bool_decide_eq_true in Hs as [s E]. unfold started. by rewrite E.
Qed.

Lemma started_2 :
  start (new_server deployment 2 (server_name_of 2) (mkWAL None true ∅) ∅) = Some (started 2).
Proof.
  fold (fresh_server 2).
  assert (bool_decide (is_Some (start (fresh_server 2))) = true) as Hs by by vm_compute.
  apply bool_decide_eq_true in Hs as [s E]. unfold started. by rewrite E.
Qed.

Definition no_ballot : Ballot := mkBallot 0 0.
Definition no_request : Request :=
  mkRequest 0 (mkTransferReq (mkTransaction 0 0 0) 0) 0 (mkPrepareReq no_ballot 0)
    (mkAcceptReq no_ballot []) (mkCommitReq no_ballot) (mkSyncReq 0) (mkDisconnectReq []).

#[export] Instance eta_Request : Eta Request := fun q =>
  mkRequest (tpcTid q) (transferReq q) (balanceReq q) (prepareReq q) (acceptReq q)
    (commitReq q) (syncReq q) (disconnectReq q).

(** A poll that delivers a request for call [c], and one that finds nothing. *)
Definition got (c : Z) (q : Request) : Poll := mkPoll 0 (Some (c, true, q)) None 0.
Definition nothing : Poll := mkPoll 0 None None 0.

(** A transfer of 4 units from account 1 to account 2, both in cluster 1. *)
Definition transfer_1_2 : TransferReq := mkTransferReq (mkTransaction 1 2 4) 7.

(** A poll that delivers the reply of a peer. *)
Definition answer (o : OutCall) : Poll := mkPoll 0 None (Some (o, true)) 0.

Definition no_prepare_res : PrepareRes := mkPrepareRes false no_ballot None [] None None None.
Definition no_accept_res : AcceptRes := mkAcceptRes false no_ballot.
Definition no_sync_res : SyncRes := mkSyncRes false [] no_ballot.

Definition prepare_acked (b : Ballot) : OutCall :=
  mkOutCall PREPARE OK (mkPrepareReq b (-1)) (mkPrepareRes true b None [] None None None)
    (mkAcceptReq no_ballot []) no_accept_res no_sync_res.

Definition accept_acked (b : Ballot) : OutCall :=
  mkOutCall ACCEPT OK (mkPrepareReq no_ballot 0) no_prepare_res (mkAcceptReq b [])
    (mkAcceptRes true b) no_sync_res.

(** The transfer is received, prepared, accepted and committed, with the votes of
    one peer. *)
Definition commit_run : list Poll :=
  [got 3 (no_request <| transferReq := transfer_1_2 |>);
   answer (prepare_acked (mkBallot 1 1)); answer (accept_acked (mkBallot 1 1))].

(** The same round as seen by a replica: the prepare, the accept and the commit of
    server 1 arrive on the calls registered for them. *)
Definition replica_prepare : Request :=
  no_request <| prepareReq := mkPrepareReq (mkBallot 1 1) (-1) |>.
Definition replica_accept : Request :=
  no_request <| acceptReq := mkAcceptReq (mkBallot 1 1) [transfer_1_2] |>.
Definition replica_commit : Request :=
  no_request <| commitReq := mkCommitReq (mkBallot 1 1) |>.
Definition replica_run : list Poll :=
  [got 6 replica_prepare; got 7 replica_accept; got 8 replica_commit].
