(* ===== verification/Rounds.v ===== *)
(** * Rounds: invariants of the Paxos rounds and of the parked calls

    A client call waits in [pending_] for the next round or in [current_] for the
    round that is running.  The invariants of this file say that the two queues
    and the flags of the round always agree, that a waiting call is always in
    exactly one of them, and that every handler of the server keeps them so,
    whatever the messages it receives. *)

From S2P Require Import Prelude Text Types Utils Store Wal Server Calls.

Section rounds.
Context {D : Type} `{KVStore D}.
Implicit Types s : ServerImpl D.

(** ** The part of the state rounds are made of *)

Definition rest s :=
  (pending_ s, current_ s, is_paxos_running s, in_sync s,
   (await_prepare_decision s, await_accept_decision s),
   (prepare_successes s, prepare_failures s, accept_successes s, accept_failures s),
   next_call s, call_fault s).

(** The calls the server has replied to, in order. *)
Definition reply_of (o : Output) : option Z :=
  match o with Reply c _ => Some c | _ => None end.
Definition replies s : list Z := omap reply_of (outs s).

Definition rview s := (rest s, (calls s, replies s)).

(** A call that waits for its round. *)
Definition awaits s (c : Z) : Prop := exists ty, calls s !! c = Some (mkInCall ty AWAIT_BATCH).

Definition parked s : list Z := call <$> (current_ s ++ pending_ s).

Record PhaseInv s : Prop := {
  ri_running : is_paxos_running s = true <-> current_ s <> [];
  ri_prepare : await_prepare_decision s = true -> is_paxos_running s = true;
  ri_accept : await_accept_decision s = true -> is_paxos_running s = true;
  ri_phase : await_prepare_decision s = true -> await_accept_decision s = false;
  ri_wait : is_paxos_running s = true ->
    await_prepare_decision s = true \/ await_accept_decision s = true \/ in_sync s = true;
  ri_prepare_count : await_prepare_decision s = true ->
    prepare_successes s = 1 /\ 0 <= prepare_failures s <= 1;
  ri_accept_count : await_accept_decision s = true ->
    accept_successes s = 1 /\ 0 <= accept_failures s <= 1
}.

Record ParkInv s : Prop := {
  ri_nodup : NoDup (parked s);
  ri_parked : forall c, awaits s c <-> c ∈ parked s;
  ri_fault : call_fault s = false
}.

Record RoundInv s : Prop := {
  ri_phases : PhaseInv s;
  ri_calls : ParkInv s;
  ri_pending : pending_ s <> [] -> is_paxos_running s = true \/ in_sync s = true
}.

(** The only change the server makes to its calls is to finish waiting ones, each
    with one reply. *)
Definition only_completes s s' : Prop :=
  next_call s' = next_call s
  /\ exists l, replies s' = replies s ++ l /\ NoDup l
     /\ (forall c, c ∈ l -> exists ty, calls s !! c = Some (mkInCall ty AWAIT_BATCH)
                                     /\ calls s' !! c = Some (mkInCall ty FINISH))
     /\ (forall c, c ∉ l -> calls s' !! c = calls s !! c).

Lemma oc_same s s' : next_call s' = next_call s -> calls s' = calls s ->
  replies s' = replies s -> only_completes s s'.
Proof.
  intros E1 E2 E3. split; [done|]. exists []. rewrite app_nil_r, E2, E3.
  split_and!; [done|apply NoDup_nil_2|set_solver|done].
Qed.

#[export] Instance only_completes_preorder : PreOrder only_completes.
Proof.
  split; [by intros s; apply oc_same|].
  intros s1 s2 s3 [N1 (l1 & R1 & D1 & A1 & B1)] [N2 (l2 & R2 & D2 & A2 & B2)].
  assert (forall c, c ∈ l1 -> c ∉ l2) as Hdis.
  { intros c H1 H2. destruct (A1 c H1) as (t1 & _ & E1), (A2 c H2) as (t2 & E2 & _). congruence. }
  split; [congruence|]. exists (l1 ++ l2). split_and!.
  - by rewrite R2, R1, app_assoc.
  - by apply NoDup_app.
  - intros c [H1|H2]%elem_of_app.
    + destruct (A1 c H1) as (ty & E1 & E2). exists ty. by rewrite (B2 c (Hdis c H1)).
    + destruct (A2 c H2) as (ty & E1 & E2). exists ty. rewrite <- (B1 c); [done|].
      intros H1. by apply (Hdis c).
  - intros c Hc. rewrite B2, B1; set_solver.
Qed.

Lemma oc_cases s s' c : only_completes s s' ->
  calls s' !! c = calls s !! c
  \/ exists ty, calls s !! c = Some (mkInCall ty AWAIT_BATCH)
                /\ calls s' !! c = Some (mkInCall ty FINISH).
Proof.
  intros [_ (l & _ & _ & HA & HB)]. destruct (decide (c ∈ l)); [right | left]; auto.
Qed.

Lemma rview_only_completes s s' : rview s' = rview s -> only_completes s s'.
Proof. intros E. unfold rview, rest in E. simplify_eq. by apply oc_same. Qed.

Lemma rview_inv s s' : rview s' = rview s -> RoundInv s -> RoundInv s'.
Proof.
  intros E. unfold rview, rest in E. simplify_eq.
  intros [[] [] ?].
  split; [split|split|]; unfold parked, awaits in *; repeat (match goal with E : ?f s' = ?f s |- _ => rewrite E; clear E end); auto.
Qed.

Lemma rest_phase s s' : rest s' = rest s -> PhaseInv s -> PhaseInv s'.
Proof.
  intros E. unfold rest in E. simplify_eq. intros [].
  split; repeat (match goal with E : ?f s' = ?f s |- _ => rewrite E; clear E end); auto.
Qed.

(** ** Operations that leave the rounds alone *)

Ltac frame :=
  intros; unfold rview, rest;
  repeat case_match; simplify_eq/=; try reflexivity.

Lemma rview_check z s : rview (check_int z s) = rview s.
Proof. unfold check_int, flag_if. frame. Qed.
Lemma rview_emit o s : reply_of o = None -> rview (emit o s) = rview s.
Proof.
  intros E. unfold rview, rest, replies. simpl. rewrite omap_app. simpl. rewrite E.
  by rewrite app_nil_r.
Qed.
Lemma rview_send_to id o s : reply_of o = None -> rview (send_to id o s) = rview s.
Proof. intros E. unfold send_to. case_match; [by apply rview_emit | done]. Qed.
Lemma rview_broadcast mk s : (forall id, reply_of (mk id) = None) ->
  rview (broadcast mk s) = rview s.
Proof.
  intros E. unfold broadcast. generalize (stubs s) as l. intros l. revert s.
  induction l as [|id l IH]; intros s; [done|]. simpl. by rewrite IH, rview_emit.
Qed.
Lemma rview_add_balance c d s : rview (add_balance c d s) = rview s.
Proof. unfold add_balance. by rewrite rview_check. Qed.
Lemma rview_store_balance c s : rview (store_balance c s) = rview s.
Proof. done. Qed.
Lemma rview_apply_side c d s : rview (apply_side c d s) = rview s.
Proof. unfold apply_side. by rewrite rview_store_balance, rview_add_balance. Qed.
Lemma rview_advance b s : rview (advance b s) = rview s.
Proof. unfold advance. by rewrite rview_check. Qed.
Lemma rview_prepareTransaction r b s : rview (prepareTransaction r b s) = rview s.
Proof.
  unfold prepareTransaction. destruct (wal_prepareTransaction r b (wal s)) as [w e].
  transitivity (rview (advance b (push_log e (s <| wal := w |>)))); [done|].
  by rewrite rview_advance.
Qed.
Lemma rview_commitTransaction r b s : rview (commitTransaction r b s) = rview s.
Proof.
  unfold commitTransaction. case_bool_decide; [done|].
  destruct (wal_commitTransaction _ _ _) as [w e].
  by rewrite rview_advance, !rview_store_balance, !rview_add_balance.
Qed.
Lemma rview_decision_side a c d s : rview (decision_side a c d s) = rview s.
Proof. unfold decision_side. repeat case_match; rewrite ?rview_apply_side; done. Qed.
Lemma rview_sync_side a c d s : rview (sync_side a c d s) = rview s.
Proof. unfold sync_side. case_match; rewrite ?rview_apply_side; done. Qed.
Lemma rview_processTpcDecision t b s : rview (processTpcDecision t b s) = rview s.
Proof.
  unfold processTpcDecision. case_match; [done|].
  destruct (if b then _ else _) as [w [e|]]; [|done]. case_match; [done|].
  rewrite !rview_decision_side. by destruct b.
Qed.
Lemma rview_abort_expired t s : rview (abort_expired t s) = rview s.
Proof. unfold abort_expired. destruct (wal_abortTpc t (wal s)) as [w [e|]]; repeat case_match; done. Qed.
Lemma rview_acquire_if_local c s : rview (acquire_if_local c s) = rview s.
Proof. unfold acquire_if_local. by case_match. Qed.
Lemma rview_release_if_local c s : rview (release_if_local c s) = rview s.
Proof. unfold release_if_local. by case_match. Qed.
Lemma rview_accept_one b s r : rview (accept_one b s r) = rview s.
Proof.
  unfold accept_one. case_match; rewrite ?rview_prepareTransaction, !rview_acquire_if_local; done.
Qed.
Lemma rview_commit_one b s r : rview (commit_one b s r) = rview s.
Proof.
  unfold commit_one. case_match; rewrite ?rview_commitTransaction, !rview_release_if_local; done.
Qed.
Lemma rview_disconnect_one s n : rview (disconnect_one s n) = rview s.
Proof. unfold disconnect_one. by repeat case_match. Qed.
Lemma rview_sync_entry e s : rview (sync_entry e s) = rview s.
Proof.
  unfold sync_entry. rewrite !rview_sync_side. unfold check_int, flag_if.
  by repeat case_match.
Qed.
Lemma rview_sync_one s l : rview (sync_one s l) = rview s.
Proof. unfold sync_one. case_match; [apply rview_sync_entry | done]. Qed.

Lemma rview_foldl {A} (f : ServerImpl D -> A -> ServerImpl D) l s :
  (forall s x, rview (f s x) = rview s) -> rview (foldl f s l) = rview s.
Proof. intros Hf. revert s. induction l as [|x l IH]; intros s; [done|]. simpl. by rewrite IH. Qed.

Lemma rview_sweep s : rview (sweep s) = rview s.
Proof.
  unfold sweep. apply rview_foldl. intros s' p. unfold sweep_one.
  case_match; [apply rview_abort_expired | done].
Qed.
Lemma rview_processAcceptCall r s : rview (processAcceptCall r s).1 = rview s.
Proof.
  unfold processAcceptCall. repeat case_match; try done. simpl.
  rewrite rview_foldl; [done|]. intros. apply rview_accept_one.
Qed.
Lemma rview_processCommitCall r s : rview (processCommitCall r s) = rview s.
Proof.
  unfold processCommitCall. repeat case_match; try done.
  etrans; [|apply (rview_foldl (commit_one (accept_num s)) (accept_batch s))]; [done|].
  intros. apply rview_commit_one.
Qed.
Lemma rview_processDisconnectCall r s : rview (processDisconnectCall r s) = rview s.
Proof.
  unfold processDisconnectCall. rewrite rview_foldl by apply rview_disconnect_one.
  unfold resetDisconnectedState. rewrite rview_foldl; [done|].
  intros s' p. by case_match.
Qed.

(** ** Completing calls *)

Lemma complete_spec c a t s : awaits s c ->
  rest (completeTransfer c a t s) = rest s
  /\ (forall c', awaits (completeTransfer c a t s) c' <-> awaits s c' /\ c' <> c)
  /\ only_completes s (completeTransfer c a t s).
Proof.
  intros [ty E]. unfold completeTransfer, finish. rewrite E. simpl.
  split; [done|]. split; [|split; [done|]].
  - intros c'. unfold awaits. simpl. destruct (decide (c = c')) as [<-|Hne].
    + rewrite lookup_insert_eq. split; [intros [? ?]; simplify_eq | by intros [_ []]].
    + rewrite lookup_insert_ne by done. split; [done | by intros [? _]].
  - exists [c]. unfold replies. simpl. rewrite omap_app. split_and!; [done|apply NoDup_singleton|..].
    + intros c' ->%list_elem_of_singleton. exists ty. by rewrite lookup_insert_eq.
    + intros c' Hc. rewrite lookup_insert_ne; [done|]. set_solver.
Qed.

Lemma rview_awaits s s' c : rview s' = rview s -> awaits s' c <-> awaits s c.
Proof. intros E%(f_equal (fst ∘ snd)). unfold awaits. simpl in E. by rewrite E. Qed.

Lemma rview_rest s s' : rview s' = rview s -> rest s' = rest s.
Proof. by intros E%(f_equal fst). Qed.

(** A loop that completes every entry of a list. *)
Lemma complete_fold (f : ServerImpl D -> BatchEntry -> ServerImpl D) l s :
  (forall s e, exists a t g, f s e = completeTransfer (call e) a t g /\ rview g = rview s) ->
  NoDup (call <$> l) -> (forall c, c ∈ call <$> l -> awaits s c) ->
  rest (foldl f s l) = rest s
  /\ (forall c, awaits (foldl f s l) c <-> awaits s c /\ c ∉ call <$> l)
  /\ only_completes s (foldl f s l).
Proof.
  intros Hf. revert s. induction l as [|e l IH]; intros s Hnd Haw; simpl.
  { split; [done|]. split; [set_solver | done]. }
  destruct (Hf s e) as (a & t & g & Eg & Rg).
  apply NoDup_cons in Hnd as [Hne Hnd].
  destruct (complete_spec (call e) a t g) as (Er & Ea & Ec).
  { apply (rview_awaits s g); [done|]. apply Haw. set_solver. }
  rewrite <- Eg in Er, Ea, Ec.
  destruct (IH (f s e) Hnd) as (Er' & Ea' & Ec').
  { intros c Hc. apply Ea. rewrite (rview_awaits s g) by done. split; [apply Haw; set_solver|].
    by intros ->. }
  split; [by rewrite Er', Er, (rview_rest s g)|]. split.
  - intros c. rewrite Ea', Ea, (rview_awaits s g) by done. set_solver.
  - etrans; [apply rview_only_completes, Rg|]. by etrans.
Qed.

(** ** Starting and ending a round *)

Lemma ParkInv_weaken s s' : ParkInv s -> calls s' = calls s -> parked s' = parked s ->
  call_fault s' = call_fault s -> ParkInv s'.
Proof.
  intros [Hn Ha Hf] Ec Ep Ef. split; [by rewrite Ep | | by rewrite Ef].
  intros c. unfold awaits in *. rewrite Ec, Ep. apply Ha.
Qed.

Lemma reissue_fields s :
  let s' := reissuePrepareForCurrent s in
  pending_ s' = pending_ s /\ current_ s' = current_ s
  /\ is_paxos_running s' = is_paxos_running s /\ in_sync s' = in_sync s
  /\ await_prepare_decision s' = true /\ await_accept_decision s' = false
  /\ prepare_successes s' = 1 /\ prepare_failures s' = 0
  /\ calls s' = calls s /\ next_call s' = next_call s /\ call_fault s' = call_fault s
  /\ replies s' = replies s.
Proof.
  simpl. unfold reissuePrepareForCurrent.
  match goal with |- context [broadcast ?mk ?s0] =>
    pose proof (rview_broadcast mk s0 (fun _ => eq_refl)) as E; set (s' := broadcast mk s0) in * end.
  unfold rview, rest in E. simplify_eq/=.
  repeat (match goal with E : ?f s' = _ |- _ => rewrite E; clear E end).
  unfold check_int, flag_if. case_match; split_and!; done.
Qed.

Lemma reissue_inv s : is_paxos_running s = true -> current_ s <> [] -> ParkInv s ->
  RoundInv (reissuePrepareForCurrent s) /\ only_completes s (reissuePrepareForCurrent s).
Proof.
  intros Hr Hc Hp.
  destruct (reissue_fields s) as (E1 & E2 & E3 & E4 & E5 & E6 & E7 & E8 & E9 & E10 & E11 & E12).
  split; [split|].
  - split; rewrite ?E1, ?E2, ?E3, ?E5, ?E6, ?E7, ?E8; try tauto; try done; lia.
  - eapply ParkInv_weaken; eauto. unfold parked. by rewrite E1, E2.
  - rewrite E3. auto.
  - by apply oc_same.
Qed.

Lemma maybeStart_inv s : PhaseInv s -> ParkInv s ->
  RoundInv (maybeStartRound s) /\ only_completes s (maybeStartRound s).
Proof.
  intros Hph Hpk. unfold maybeStartRound.
  destruct (is_paxos_running s) eqn:Er; simpl.
  { split; [|done]. split; auto. }
  destruct (in_sync s) eqn:Es; simpl.
  { split; [|done]. split; auto. }
  case_bool_decide as Ep.
  { split; [|done]. by split. }
  assert (current_ s = []) as Ec.
  { destruct (decide (current_ s = [])) as [|Hne]; [done|].
    apply (ri_running s Hph) in Hne. congruence. }
  unfold startRound.
  match goal with |- context [reissuePrepareForCurrent ?s0] => set (s0' := s0) end.
  destruct (reissue_inv s0') as [HR Ho]; [done|done| |].
  - eapply ParkInv_weaken; [done..| |done]. unfold parked. simpl.
    by rewrite Ec, app_nil_r.
  - split; [done|]. etrans; [|done]. by apply oc_same.
Qed.

(** The precondition of [finishRound]: only queued calls still wait. *)
Definition only_pending s : Prop :=
  NoDup (call <$> pending_ s) /\ (forall c, awaits s c <-> c ∈ call <$> pending_ s)
  /\ call_fault s = false.

Lemma finish_inv s : only_pending s ->
  RoundInv (finishRound s) /\ only_completes s (finishRound s).
Proof.
  intros (Hnd & Haw & Hf). unfold finishRound.
  match goal with |- context [maybeStartRound ?s0] => set (s1 := s0) end.
  destruct (maybeStart_inv s1) as [HR Ho].
  - by split; simpl.
  - by split.
  - split; [done|]. etrans; [|done]. by apply oc_same.
Qed.

(** Completing the whole batch leaves only the queued calls. *)
Lemma complete_current (f : ServerImpl D -> BatchEntry -> ServerImpl D) s s0 :
  (forall s e, exists a t g, f s e = completeTransfer (call e) a t g /\ rview g = rview s) ->
  rview s = rview s0 \/ (pending_ s, current_ s, calls s, call_fault s, next_call s)
     = (pending_ s0, current_ s0, calls s0, call_fault s0, next_call s0)
     /\ replies s = replies s0 ->
  ParkInv s0 ->
  only_pending (foldl f s (current_ s)) /\ only_completes s0 (foldl f s (current_ s)).
Proof.
  intros Hf Hs Hpk.
  assert (pending_ s = pending_ s0 /\ current_ s = current_ s0 /\ calls s = calls s0
          /\ call_fault s = call_fault s0 /\ next_call s = next_call s0
          /\ replies s = replies s0) as (E1 & E2 & E3 & E4 & E5 & E6).
  { destruct Hs as [Hs|[Hs ?]]; unfold rview, rest in Hs; by simplify_eq. }
  destruct Hpk as [Hnd Haw Hfa]. unfold parked in *. rewrite fmap_app in *.
  apply NoDup_app in Hnd as (Hn1 & Hdis & Hn2). rewrite E2.
  destruct (complete_fold f (current_ s0) s Hf Hn1) as (Er & Ea & Ec).
  { intros c Hc. unfold awaits. rewrite E3. apply Haw. set_solver. }
  unfold rest in Er. simplify_eq.
  split.
  - unfold only_pending.
    match goal with E : pending_ (foldl _ _ _) = _ |- _ => rewrite E, E1 end.
    split; [done|]. split; [|congruence].
    intros c. rewrite Ea. unfold awaits at 1. rewrite E3. fold (awaits s0 c). rewrite Haw.
    set_solver.
  - etrans; [|done]. by apply oc_same.
Qed.

(** ** The two quorums *)

Lemma validate_cases s k e :
  (exists g, validate_entry (s, k) e
     = (completeTransfer (call e) false (tr_tid (request e)) g, k) /\ rview g = rview s)
  \/ (exists g, validate_entry (s, k) e = (g, k ++ [e]) /\ rview g = rview s).
Proof.
  unfold validate_entry. destruct (entry_locked e s); [by eauto|].
  match goal with |- context [entry_short_of_funds e ?x] => set (s1 := x) end.
  assert (rview s1 = rview s) as E1 by (subst s1; by case_match).
  destruct (entry_short_of_funds e s1); [by eauto|].
  right. eexists. split; [done|].
  case_match; by rewrite ?rview_prepareTransaction, !rview_acquire_if_local.
Qed.

Lemma validate_fold l s k :
  NoDup (call <$> l) -> (forall c, c ∈ call <$> l -> awaits s c) ->
  exists s' kept, foldl validate_entry (s, k) l = (s', k ++ kept)
    /\ kept `sublist_of` l /\ rest s' = rest s
    /\ (forall c, awaits s' c <-> awaits s c /\ (c ∈ call <$> l -> c ∈ call <$> kept))
    /\ only_completes s s'.
Proof.
  revert s k. induction l as [|e l IH]; intros s k Hnd Haw.
  { exists s, []. rewrite app_nil_r. split_and!; try done. set_solver. }
  apply NoDup_cons in Hnd as [Hne Hnd]. cbn [foldl].
  destruct (validate_cases s k e) as [(g & -> & Rg)|(g & -> & Rg)].
  - destruct (complete_spec (call e) false (tr_tid (request e)) g) as (Er & Ea & Ec).
    { apply (rview_awaits s g); [done|]. apply Haw. set_solver. }
    destruct (IH (completeTransfer (call e) false (tr_tid (request e)) g) k Hnd)
      as (s' & kept & Ef & Hsub & Er' & Ea' & Ec').
    { intros c Hc. apply Ea. rewrite (rview_awaits s g) by done.
      split; [apply Haw; set_solver|]. by intros ->. }
    exists s', kept. split_and!; [done|by constructor| | |].
    + by rewrite Er', Er, (rview_rest s g).
    + intros c. rewrite Ea', Ea, (rview_awaits s g) by done.
      assert (call e ∉ call <$> kept) as Hk.
      { intros Hin. apply Hne. eapply elem_of_sublist; [done|]. by apply fmap_sublist. }
      set_solver.
    + etrans; [apply rview_only_completes, Rg|]. by etrans.
  - destruct (IH g (k ++ [e]) Hnd) as (s' & kept & Ef & Hsub & Er' & Ea' & Ec').
    { intros c Hc. rewrite (rview_awaits s g) by done. apply Haw. set_solver. }
    exists s', (e :: kept). rewrite Ef, <- app_assoc. split_and!; [done|by constructor| | |].
    + by rewrite Er', (rview_rest s g).
    + intros c. rewrite Ea', (rview_awaits s g) by done. set_solver.
    + etrans; [apply rview_only_completes, Rg|]. done.
Qed.

Lemma prepare_quorum_inv s : ParkInv s -> is_paxos_running s = true ->
  RoundInv (onPrepareQuorum s) /\ only_completes s (onPrepareQuorum s).
Proof.
  intros [Hnd Haw Hfa] Hrun. unfold onPrepareQuorum. simpl.
  unfold parked in *. rewrite fmap_app in *.
  apply NoDup_app in Hnd as (Hn1 & Hdis & Hn2).
  set (s1 := s <| await_prepare_decision := false |>).
  destruct (validate_fold (current_ s) s1 [] Hn1) as (s' & kept & -> & Hsub & Er & Ea & Ec).
  { intros c Hc. apply Haw. set_solver. }
  unfold rest in Er. simplify_eq/=.
  assert (forall c, awaits s' c <-> c ∈ call <$> (kept ++ pending_ s)) as Hall.
  { intros c. rewrite Ea. change (awaits s1 c) with (awaits s c). rewrite Haw, fmap_app.
    assert (c ∈ call <$> kept -> c ∈ call <$> current_ s) as Hk.
    { intros Hin. eapply elem_of_sublist; [done|]. by apply fmap_sublist. }
    set_solver. }
  assert (NoDup (call <$> kept)) as Hnk.
  { eapply (sublist_NoDup _ _ Hn1). by apply fmap_sublist. }
  assert (NoDup (call <$> (kept ++ pending_ s))) as Hnkp.
  { rewrite fmap_app. apply NoDup_app. split; [done|]. split; [|done].
    intros c Hc. apply Hdis. eapply elem_of_sublist; [exact Hc|]. by apply fmap_sublist. }
  destruct kept as [|e kept].
  - match goal with |- context [finishRound ?x] => destruct (finish_inv x) as [HR Ho] end.
    { unfold only_pending. simpl. repeat (match goal with E : ?f s' = _ |- _ => rewrite E; clear E end).
      split_and!; [done | exact Hall | congruence]. }
    split; [done|]. etrans; [|done]. etrans; [|done]. by apply oc_same.
  - match goal with |- context [broadcast ?mk ?x] => set (s2 := x); pose proof (rview_broadcast mk s2 (fun _ => eq_refl)) as Eb; set (s3 := broadcast mk s2) in * end.
    assert (RoundInv s2) as HR.
    { assert (is_paxos_running s' = true) as Hrun' by congruence.
      split; [split|split|]; subst s2; unfold parked; simpl; intros; auto; try done;
        try congruence; try lia; try (rewrite Hrun'; split; done).
      - rewrite H0. exact Hnkp.
      - rewrite H0. apply Hall. }
    split; [by eapply rview_inv|].
    etrans; [|apply rview_only_completes, Eb]. etrans; [|etrans; [exact Ec|]]; by apply oc_same.
Qed.

Lemma accept_quorum_inv s : ParkInv s ->
  RoundInv (onAcceptQuorum s) /\ only_completes s (onAcceptQuorum s).
Proof.
  intros Hpk. unfold onAcceptQuorum.
  match goal with |- context [foldl commit_entry (broadcast ?mk ?x) _] =>
    set (s1 := x); pose proof (rview_broadcast mk s1 (fun _ => eq_refl)) as Eb; set (s2 := broadcast mk s1) in * end.
  destruct (complete_current commit_entry s2 s) as [Ho Hc].
  - intros s' e. unfold commit_entry. eexists _, _, _. split; [done|].
    case_match; [done|]. by rewrite rview_commitTransaction.
  - right. unfold rview, rest in Eb. simplify_eq/=. split; [congruence | done].
  - done.
  - destruct (finish_inv _ Ho) as [HR Ho']. split; [done|]. by etrans.
Qed.

Lemma round_abort_inv b s : ParkInv s ->
  RoundInv (onRoundAbort b s) /\ only_completes s (onRoundAbort b s).
Proof.
  intros Hpk. unfold onRoundAbort.
  destruct (complete_current (abort_entry b) s s) as [Ho Hc].
  - intros s' e. unfold abort_entry. eexists _, _, _. split; [done|]. by case_match.
  - by left.
  - done.
  - destruct (finish_inv _ Ho) as [HR Ho']. split; [done|]. by etrans.
Qed.

(** ** The handlers *)

(** A call that has just been parked and is not yet queued. *)
Lemma enqueue_inv c r x s : PhaseInv s -> NoDup (parked s) -> c ∉ parked s ->
  (forall c', awaits s c' <-> c' ∈ parked s \/ c' = c) -> call_fault s = false ->
  (pending_ s <> [] -> is_paxos_running s = true \/ in_sync s = true) ->
  RoundInv (enqueueClientTxn c r x s) /\ only_completes s (enqueueClientTxn c r x s).
Proof.
  intros Hph Hnd Hni Haw Hf Hpe. unfold enqueueClientTxn.
  destruct (i_am_disconnected s).
  - destruct (complete_spec c false (tr_tid r) s) as (Er & Ea & Ec).
    { apply Haw. auto. }
    split; [|done]. pose proof (rest_phase _ _ Er Hph) as Hph'.
    set (s1 := completeTransfer c false (tr_tid r) s) in *. clearbody s1.
    unfold rest in Er. simplify_eq.
    split; [done|split|]; unfold parked in *.
    + by rewrite_fields s1.
    + intros c'. rewrite Ea, Haw. rewrite_fields s1.
      split; [tauto|]. intros Hc. split; [by left|]. by intros ->.
    + congruence.
    + by rewrite_fields s1.
  - match goal with |- context [maybeStartRound ?x] => set (s1 := x) end.
    destruct (maybeStart_inv s1) as [HR Ho].
    + destruct Hph. by split.
    + split; [| |done]; unfold parked in *; simpl.
      * rewrite app_assoc, fmap_app. apply NoDup_app. split; [done|]. split; [set_solver|].
        apply NoDup_singleton.
      * intros c'. rewrite app_assoc, fmap_app. change (awaits s1 c') with (awaits s c').
        rewrite Haw. set_solver.
    + split; [done|]. etrans; [|done]. by apply oc_same.
Qed.

Lemma handlePrepareReply_inv st q r s : RoundInv s ->
  RoundInv (handlePrepareReply st q r s) /\ only_completes s (handlePrepareReply st q r s).
Proof.
  intros HR. unfold handlePrepareReply.
  destruct (await_prepare_decision s) eqn:Ea; simpl; [|done].
  destruct HR as [Hph Hpk Hpe]. pose proof (ri_prepare s Hph Ea) as Hrun.
  destruct (ri_prepare_count s Hph Ea) as [Hps Hpf].
  pose proof (proj1 (ri_running s Hph) Hrun) as Hcur.
  assert (RoundInv s) as HR by by split.
  assert (forall s', rview s' = rview s -> RoundInv (prepare_decide s') /\ only_completes s (prepare_decide s')) as Hsame.
  { intros s' E. assert (prepare_decide s' = s') as ->.
    { unfold prepare_decide, MAJORITY. unfold rview, rest in E. simplify_eq.
      repeat case_match; [lia|lia|done]. }
    split; [by eapply rview_inv | by apply rview_only_completes]. }
  assert (RoundInv (prepare_decide (s <| prepare_failures ::= Z.succ |>))
    /\ only_completes s (prepare_decide (s <| prepare_failures ::= Z.succ |>))) as Hfail.
  { set (s1 := s <| prepare_failures ::= Z.succ |>).
    assert (ParkInv s1) as Hpk1 by by eapply ParkInv_weaken.
    unfold prepare_decide, MAJORITY.
    destruct (Z.leb_spec 2 (prepare_successes s1)) as [H2|H2]; [simpl in H2; lia|].
    destruct (Z.leb_spec 2 (prepare_failures s1)) as [H3|H3].
    - destruct (round_abort_inv true s1 Hpk1) as [H4 H5]. split; [done|].
      etrans; [|done]. by apply oc_same.
    - split; [|by apply oc_same]. destruct Hph. split; [|done|done].
      split; try done. simpl in *. lia. }
  assert (RoundInv (prepare_decide (s <| prepare_successes ::= Z.succ |>))
    /\ only_completes s (prepare_decide (s <| prepare_successes ::= Z.succ |>))) as Hsucc.
  { set (s1 := s <| prepare_successes ::= Z.succ |>).
    assert (ParkInv s1) as Hpk1 by by eapply ParkInv_weaken.
    unfold prepare_decide, MAJORITY.
    destruct (Z.leb_spec 2 (prepare_successes s1)) as [H2|H2]; [|simpl in H2; lia].
    destruct (prepare_quorum_inv s1 Hpk1 Hrun) as [H4 H5]. split; [done|].
    etrans; [|done]. by apply oc_same. }
  destruct st.
  - case_match; [|by apply Hsame].
    set (s1 := if pr_ack r then s <| prepare_successes ::= Z.succ |>
               else s <| prepare_failures ::= Z.succ |>).
    assert (pending_ s1 = pending_ s /\ current_ s1 = current_ s /\ calls s1 = calls s
      /\ is_paxos_running s1 = is_paxos_running s /\ await_accept_decision s1 = await_accept_decision s
      /\ call_fault s1 = call_fault s /\ next_call s1 = next_call s
      /\ accept_successes s1 = accept_successes s /\ accept_failures s1 = accept_failures s
      /\ replies s1 = replies s)
      as (E1 & E2 & E3 & E4 & E5 & E6 & E7 & E8 & E9 & E10) by (subst s1; by case_match).
    destruct (pr_latest_ballot_num r) as [b|].
    + match goal with |- context [reissuePrepareForCurrent ?x] => set (s2 := x) end.
      destruct (reissue_inv s2) as [H4 H5].
      * by rewrite <- Hrun, <- E4.
      * by rewrite <- E2 in Hcur.
      * eapply ParkInv_weaken; [exact Hpk|done| |done]. unfold parked. simpl. by rewrite E1, E2.
      * split; [done|]. etrans; [|done]. apply oc_same; unfold replies in *; simpl in *; congruence.
    + case_match; [|subst s1; by destruct (pr_ack r)].
      match goal with |- context [send_to ?id ?o ?x] =>
        pose proof (rview_send_to id o x eq_refl) as Es; set (s2 := x) in * end.
      assert (RoundInv s2) as HR2.
      { pose proof (ri_accept_count s Hph) as Hac. pose proof (ri_running s Hph) as Hru.
        pose proof (ri_accept s Hph) as Hacc. subst s2.
        split; [split|eapply ParkInv_weaken; [exact Hpk|done| |done]|]; simpl;
          rewrite ?E1, ?E2, ?E4, ?E5, ?E8, ?E9; auto; try done.
        unfold parked. simpl. by rewrite E1, E2. }
      split; [by eapply rview_inv|].
      etrans; [|apply rview_only_completes, Es]. apply oc_same; unfold replies in *; simpl in *; congruence.
  - case_match; [done | by apply Hsame].
  - by apply Hsame.
Qed.

Lemma handleAcceptReply_inv st q r s : RoundInv s ->
  RoundInv (handleAcceptReply st q r s) /\ only_completes s (handleAcceptReply st q r s).
Proof.
  intros HR. unfold handleAcceptReply.
  destruct (await_accept_decision s) eqn:Ea; simpl; [|done].
  destruct HR as [Hph Hpk Hpe]. destruct (ri_accept_count s Hph Ea) as [Hps Hpf].
  assert (RoundInv (accept_decide s) /\ only_completes s (accept_decide s)) as Hsame.
  { unfold accept_decide, MAJORITY.
    destruct (Z.leb_spec 2 (accept_successes s)); [lia|].
    destruct (Z.leb_spec 2 (accept_failures s)); [lia|]. done. }
  assert (RoundInv (accept_decide (s <| accept_failures ::= Z.succ |>))
    /\ only_completes s (accept_decide (s <| accept_failures ::= Z.succ |>))) as Hfail.
  { set (s1 := s <| accept_failures ::= Z.succ |>).
    assert (ParkInv s1) as Hpk1 by by eapply ParkInv_weaken.
    unfold accept_decide, MAJORITY.
    destruct (Z.leb_spec 2 (accept_successes s1)) as [H2|H2]; [simpl in H2; lia|].
    destruct (Z.leb_spec 2 (accept_failures s1)) as [H3|H3].
    - destruct (round_abort_inv false s1 Hpk1) as [H4 H5]. split; [done|].
      etrans; [|done]. by apply oc_same.
    - split; [|by apply oc_same]. destruct Hph. split; [|done|done].
      split; try done. simpl in *. lia. }
  assert (RoundInv (accept_decide (s <| accept_successes ::= Z.succ |>))
    /\ only_completes s (accept_decide (s <| accept_successes ::= Z.succ |>))) as Hsucc.
  { set (s1 := s <| accept_successes ::= Z.succ |>).
    assert (ParkInv s1) as Hpk1 by by eapply ParkInv_weaken.
    unfold accept_decide, MAJORITY.
    destruct (Z.leb_spec 2 (accept_successes s1)) as [H2|H2]; [|simpl in H2; lia].
    destruct (accept_quorum_inv s1 Hpk1) as [H4 H5]. split; [done|].
    etrans; [|done]. by apply oc_same. }
  destruct st; repeat case_match; done.
Qed.

Lemma handleSyncReply_inv st r s : RoundInv s ->
  RoundInv (handleSyncReply st r s) /\ only_completes s (handleSyncReply st r s).
Proof.
  intros [Hph Hpk Hpe]. unfold handleSyncReply.
  match goal with |- context [set in_sync _ ?x] => set (s1 := x) end.
  assert (rview s1 = rview s) as E.
  { subst s1. destruct st; [|done|done]. case_match; [|done].
    rewrite rview_check. etrans; [|apply (rview_foldl sync_one (sr_logs r)); apply rview_sync_one].
    done. }
  clearbody s1. unfold rview, rest in E. simplify_eq. simpl.
  assert (ParkInv (s1 <| in_sync := false |>)) as Hpk1.
  { eapply ParkInv_weaken; [exact Hpk|done| |done]. unfold parked. simpl. congruence. }
  assert (only_completes s (s1 <| in_sync := false |>)) as Ho.
  { apply oc_same; unfold replies in *; simpl in *; congruence. }
  destruct (current_ s1) as [|e cur] eqn:Ec.
  - assert (is_paxos_running s = false) as Hr.
    { destruct (is_paxos_running s) eqn:Er; [|done]. apply (ri_running s Hph) in Er. congruence. }
    destruct (maybeStart_inv (s1 <| in_sync := false |>)) as [HR Ho']; [|done|].
    + assert (await_prepare_decision s = false) as Hp.
      { destruct (await_prepare_decision s) eqn:Ep; [|done]. apply (ri_prepare s Hph) in Ep. congruence. }
      assert (await_accept_decision s = false) as Hac.
      { destruct (await_accept_decision s) eqn:Ep; [|done]. apply (ri_accept s Hph) in Ep. congruence. }
      split; simpl; try congruence. rewrite Ec. split; congruence.
    + split; [done|]. by etrans.
  - destruct (reissue_inv (s1 <| in_sync := false |>)) as [HR Ho'].
    + simpl. replace (is_paxos_running s1) with (is_paxos_running s).
      apply (ri_running s Hph). congruence.
    + simpl. congruence.
    + done.
    + split; [done|]. by etrans.
Qed.

Lemma processPrepareCall_inv r s : RoundInv s ->
  RoundInv (processPrepareCall r s).1 /\ only_completes s (processPrepareCall r s).1.
Proof.
  intros HR. unfold processPrepareCall.
  assert (RoundInv (s <| in_sync := true |>)) as HR1.
  { destruct HR as [[] [] ?]. split; [split|split|]; simpl; auto. }
  repeat case_match; simplify_eq/=; try done.
  all: first
    [ split; [eapply rview_inv; [by apply rview_send_to | done]|];
      etrans; [|by apply rview_only_completes, rview_send_to]; by apply oc_same
    | split; [by apply (rview_inv s) | by apply rview_only_completes] ].
Qed.

(** ** The event loop *)

(** The call registered for the next request of type [ty]. *)
Definition listening s (ty : RequestTypes) (c : Z) : Prop :=
  calls s !! c = Some (mkInCall ty PROCESS).

Record CallsInv s : Prop := {
  ci_round : RoundInv s;
  ci_fresh : forall c, is_Some (calls s !! c) -> c < next_call s;
  ci_status : forall c ic, calls s !! c = Some ic ->
    ic_status ic = PROCESS \/ ic_status ic = FINISH \/ ic_status ic = AWAIT_BATCH;
  ci_listen : forall ty, exists c, listening s ty c
    /\ forall c', listening s ty c' -> c' = c
}.

End rounds.
