(* ===== verification/EventLoop.v ===== *)
(** * EventLoop: every call is answered once

    The invariant of [HandleRPCs]: one call per type of request is always
    registered for the next request, and every call that was handed a request has
    been answered exactly once or waits in one of the two queues of the server.
    What is assumed of gRPC is that it only delivers events for operations that
    were started ([deliverable]). *)

From S2P Require Import Prelude Text Types Utils Store Wal Server Calls Fixture Rounds.

Section loop.
Context {D : Type} `{KVStore D}.
Implicit Types s : ServerImpl D.

(** The call registered for the next request of type [ty]. *)
Definition listening s (ty : RequestTypes) (c : Z) : Prop :=
  calls s !! c = Some (mkInCall ty PROCESS).

(** A call that has been answered: it waits for gRPC's confirmation or is gone. *)
Definition answered s (c : Z) : Prop :=
  0 <= c < next_call s
  /\ (calls s !! c = None \/ exists ty, calls s !! c = Some (mkInCall ty FINISH)).

(** The table of calls while call [b] is being processed, if any. *)
Record TableInv (b : option Z) s : Prop := {
  ti_next : 0 <= next_call s;
  ti_fresh : forall c, is_Some (calls s !! c) -> 0 <= c < next_call s;
  ti_status : forall c ic, calls s !! c = Some ic ->
    ic_status ic = PROCESS \/ ic_status ic = FINISH \/ ic_status ic = AWAIT_BATCH;
  ti_listen : forall ty, exists c, listening s ty c /\ Some c <> b
    /\ forall c', listening s ty c' -> Some c' <> b -> c' = c;
  ti_once : NoDup (replies s);
  ti_replies : forall c, c ∈ replies s <-> answered s c
}.

Definition CallsInv s : Prop := RoundInv s /\ TableInv None s.

Lemma oc_listening s s' c ty : only_completes s s' -> listening s' ty c <-> listening s ty c.
Proof.
  intros Ho. unfold listening. destruct (oc_cases s s' c Ho) as [E|(t & E1 & E2)]; [by rewrite E|].
  rewrite E1, E2. split; intros; simplify_eq.
Qed.

(** The replies of a step are to calls that were waiting, hence not yet answered. *)
Lemma oc_replies s s' : only_completes s s' ->
  NoDup (replies s) -> (forall c, is_Some (calls s !! c) -> 0 <= c < next_call s) ->
  (forall c, c ∈ replies s <-> answered s c) ->
  NoDup (replies s') /\ (forall c, c ∈ replies s' <-> answered s' c).
Proof.
  intros [Hn (l & Er & Hnd & HA & HB)] Ho Hf Ha. rewrite Er. unfold answered in *. rewrite Hn.
  split.
  - apply NoDup_app. split; [done|]. split; [|done]. intros c Hc Hl.
    apply Ha in Hc as [_ Hc]. destruct (HA c Hl) as (t & E & _).
    destruct Hc as [Hc|[? Hc]]; congruence.
  - intros c. rewrite elem_of_app, Ha. destruct (decide (c ∈ l)) as [Hl|Hl].
    + destruct (HA c Hl) as (t & E1 & E2). split; [|by auto].
      intros _. split; [by eauto | right; by eauto].
    + rewrite (HB c Hl). tauto.
Qed.

Lemma TableInv_step b s s' : TableInv b s -> only_completes s s' -> TableInv b s'.
Proof.
  intros [H0 Hf Hs Hl Hd Hr] Ho. pose proof Ho as [Hn _].
  destruct (oc_replies s s' Ho Hd Hf Hr) as [Hd' Hr'].
  split; [by rewrite Hn|..|done|done].
  - intros c Hi. rewrite Hn. apply Hf.
    destruct (oc_cases s s' c Ho) as [E|(t & E1 & E2)]; [by rewrite <- E | by rewrite E1].
  - intros c ic Hi. destruct (oc_cases s s' c Ho) as [E|(t & E1 & E2)].
    + rewrite E in Hi. by eapply Hs.
    + rewrite E2 in Hi. simplify_eq/=. auto.
  - intros ty. destruct (Hl ty) as (c & H1 & H2 & H3). exists c.
    split; [by apply (oc_listening s)|]. split; [done|].
    intros c' Hc'. apply H3. by apply (oc_listening s s').
Qed.

Lemma CallsInv_step s s' : CallsInv s -> RoundInv s' /\ only_completes s s' -> CallsInv s'.
Proof. intros [_ HT] [HR Ho]. split; [done | by eapply TableInv_step]. Qed.

Lemma view_step s s' : rview s' = rview s -> RoundInv s -> RoundInv s' /\ only_completes s s'.
Proof. intros E HR. split; [by eapply rview_inv | by apply rview_only_completes]. Qed.

(** ** Receiving a request *)

Lemma set_status_insert c st ty st0 s : calls s !! c = Some (mkInCall ty st0) ->
  calls (set_status c st s) = <[c := mkInCall ty st]> (calls s).
Proof. intros E. simpl. rewrite alter_alt, E. done. Qed.

Lemma new_InCall_calls ty s :
  calls (new_InCall ty s) = <[next_call s := mkInCall ty PROCESS]> (calls s).
Proof.
  unfold new_InCall. rewrite (set_status_insert _ _ ty CREATE).
  - apply insert_insert_eq.
  - apply lookup_insert_eq.
Qed.

(** Changes to calls that are not waiting, before or after. *)
Lemma RoundInv_calls s s' : RoundInv s ->
  (forall c, awaits s' c <-> awaits s c) ->
  (pending_ s', current_ s', is_paxos_running s', in_sync s',
   (await_prepare_decision s', await_accept_decision s'),
   (prepare_successes s', prepare_failures s', accept_successes s', accept_failures s'),
   call_fault s')
  = (pending_ s, current_ s, is_paxos_running s, in_sync s,
   (await_prepare_decision s, await_accept_decision s),
   (prepare_successes s, prepare_failures s, accept_successes s, accept_failures s),
   call_fault s) -> RoundInv s'.
Proof.
  intros [[] [] ?] Ha E. simplify_eq.
  split; [split|split|]; unfold parked in *;
    try setoid_rewrite Ha; rewrite_fields s'; auto.
Qed.

Lemma awaits_insert s s' c ty st : calls s' = <[c := mkInCall ty st]> (calls s) ->
  st <> AWAIT_BATCH -> ~ awaits s c -> forall c', awaits s' c' <-> awaits s c'.
Proof.
  intros E Hst Hn c'. unfold awaits in *. rewrite E. destruct (decide (c = c')) as [->|Hne].
  - rewrite lookup_insert_eq. split; [intros [? ?]; simplify_eq | done].
  - by rewrite lookup_insert_ne.
Qed.

Lemma PROCESS_not_awaits s c ty : listening s ty c -> ~ awaits s c.
Proof. unfold listening, awaits. intros E [t E']. congruence. Qed.

Lemma new_InCall_inv ty c s : CallsInv s -> listening s ty c ->
  RoundInv (new_InCall ty s) /\ TableInv (Some c) (new_InCall ty s)
  /\ listening (new_InCall ty s) ty c.
Proof.
  intros [HR [H0 Hf Hs Hl Hd Hr]] Hc. pose proof (new_InCall_calls ty s) as E.
  assert (calls s !! next_call s = None) as En.
  { destruct (calls s !! next_call s) eqn:En; [|done].
    assert (0 <= next_call s < next_call s); [|lia]. apply Hf. eauto. }
  assert (forall c' t, c' <> next_call s -> listening (new_InCall ty s) t c' <-> listening s t c') as Hls.
  { intros c' t Hne. unfold listening. by rewrite E, lookup_insert_ne. }
  assert (c <> next_call s) as Hcn by (intros ->; unfold listening in Hc; congruence).
  split; [|split; [|by apply Hls]].
  - apply (RoundInv_calls s); [done| |done]. eapply awaits_insert; [done|done|].
    intros [t Et]. congruence.
  - split; change (next_call (new_InCall ty s)) with (next_call s + 1); [lia|..|done|].
    + intros c'. rewrite E. destruct (decide (c' = next_call s)) as [->|Hne]; [lia|].
      rewrite lookup_insert_ne by done. intros Hi%Hf. lia.
    + intros c' ic. rewrite E. intros [[<- <-]|[_ Hi]]%lookup_insert_Some; [auto | by eapply Hs].
    + intros t. destruct (decide (t = ty)) as [->|Ht].
      * exists (next_call s). unfold listening at 1. rewrite E, lookup_insert_eq.
        split; [done|]. split; [congruence|]. intros c' Hl' Hne.
        destruct (decide (c' = next_call s)) as [|Hn]; [done|]. apply Hls in Hl'; [|done].
        destruct (Hl ty) as (c0 & _ & _ & Hu). rewrite (Hu c') in Hne by done.
        by rewrite <- (Hu c) in Hne.
      * destruct (Hl t) as (c0 & Hc0 & _ & Hu). exists c0.
        assert (c0 <> next_call s) by (intros ->; unfold listening in Hc0; congruence).
        split; [by apply Hls|]. split.
        -- intros [= ->]. unfold listening in *. congruence.
        -- intros c' Hl' Hne. destruct (decide (c' = next_call s)) as [->|Hn].
           ++ unfold listening in Hl'. rewrite E, lookup_insert_eq in Hl'. congruence.
           ++ apply Hu; [|done]. by apply Hls.
    + intros c'. change (replies (new_InCall ty s)) with (replies s). rewrite Hr.
      unfold answered. rewrite E. change (next_call (new_InCall ty s)) with (next_call s + 1).
      destruct (decide (c' = next_call s)) as [->|Hne].
      * rewrite lookup_insert_eq. split; [intros [? _]; lia|]. intros [_ [|[? ?]]]; congruence.
      * rewrite lookup_insert_ne by done. split; intros [? ?]; split; try lia; done.
Qed.

(** The processed call leaves the state [PROCESS]. *)
Lemma TableInv_done c ty st s s' : TableInv (Some c) s -> listening s ty c ->
  calls s' = <[c := mkInCall ty st]> (calls s) -> next_call s' = next_call s ->
  (st = FINISH /\ replies s' = replies s ++ [c] \/ st = AWAIT_BATCH /\ replies s' = replies s) ->
  TableInv None s'.
Proof.
  intros [H0 Hf Hs Hl Hd Hr] Hc E En Hst.
  assert (0 <= c < next_call s) as Hcb by (apply Hf; unfold listening in Hc; eauto).
  assert (forall c' t, listening s' t c' <-> listening s t c' /\ c' <> c) as Hls.
  { intros c' t. unfold listening. rewrite E, lookup_insert_Some.
    split; [|intros [? ?]; right; split; congruence].
    intros [[-> ?]|[? ?]]; [|split; congruence]. destruct Hst as [[-> _]|[-> _]]; congruence. }
  assert (c ∉ replies s) as Hcr.
  { rewrite Hr. intros [_ [?|[? ?]]]; unfold listening in Hc; congruence. }
  assert (forall c', c' <> c -> answered s' c' <-> answered s c') as Han.
  { intros c' Hne. unfold answered. by rewrite E, En, lookup_insert_ne. }
  split; rewrite ?En; [done|..].
  - intros c'. rewrite E. destruct (decide (c' = c)) as [->|Hne]; [done|].
    rewrite lookup_insert_ne by done. apply Hf.
  - intros c' ic. rewrite E. intros [[<- <-]|[_ Hi]]%lookup_insert_Some; [naive_solver|].
    by eapply Hs.
  - intros t. destruct (Hl t) as (c0 & Hc0 & Hn & Hu). exists c0.
    split; [apply Hls; split; [done | congruence]|]. split; [done|].
    intros c' [Hl' Hne]%Hls _. apply Hu; [done | congruence].
  - destruct Hst as [[_ ->]|[_ ->]]; [|done]. apply NoDup_app. split; [done|].
    split; [set_solver | apply NoDup_singleton].
  - intros c'. destruct (decide (c' = c)) as [->|Hne].
    + unfold answered. rewrite E, En, lookup_insert_eq. destruct Hst as [[-> ->]|[-> ->]].
      * split; [intros _; split; [done|]; right; by eauto | set_solver].
      * split; [done|]. intros [_ [?|[? ?]]]; congruence.
    + rewrite Han by done. rewrite <- Hr. destruct Hst as [[_ ->]|[_ ->]]; set_solver.
Qed.

Lemma finish_request c ty r s : RoundInv s -> TableInv (Some c) s -> listening s ty c ->
  CallsInv (finish c r s).
Proof.
  intros HR HT Hc. unfold finish. rewrite Hc. simpl. split.
  - apply (RoundInv_calls s); [done| |done]. eapply awaits_insert; [done|done|].
    by eapply PROCESS_not_awaits.
  - eapply TableInv_done; [done|done|done|done|]. left. split; [done|].
    unfold replies. simpl. by rewrite omap_app.
Qed.

Lemma park_request c ty r x s : RoundInv s -> TableInv (Some c) s -> listening s ty c ->
  CallsInv (enqueueClientTxn c r x (set_status c AWAIT_BATCH s)).
Proof.
  intros [Hph [Hnd Haw Hfa] Hpe] HT Hc.
  pose proof (set_status_insert c AWAIT_BATCH ty PROCESS s Hc) as E.
  set (s1 := set_status c AWAIT_BATCH s) in *.
  destruct (enqueue_inv c r x s1) as [HR Ho]; try done.
  - by apply (rest_phase s).
  - intros Hin. apply Haw in Hin. by eapply PROCESS_not_awaits.
  - intros c'. change (parked s1) with (parked s). rewrite <- Haw. unfold awaits. rewrite E.
    destruct (decide (c' = c)) as [->|Hne].
    + rewrite lookup_insert_eq. split; [by right | by eauto].
    + rewrite lookup_insert_ne by done. split; [by left | by intros [?|?]].
  - split; [done|]. eapply TableInv_step; [|done]. eapply TableInv_done; [done|done|done|done|].
    by right.
Qed.

Lemma handled_request c ty r s s' : RoundInv s -> TableInv (Some c) s -> listening s ty c ->
  RoundInv s' /\ only_completes s s' -> CallsInv (finish c r s').
Proof.
  intros HR HT Hc [HR' Ho]. apply (finish_request c ty); [done| |].
  - by eapply TableInv_step.
  - by apply (oc_listening s s').
Qed.

Lemma process_inv c ty q s : RoundInv s -> TableInv (Some c) s -> listening s ty c ->
  CallsInv (process c ty q s).
Proof.
  intros HR HT Hc. pose proof (handled_request c ty) as Hh.
  destruct ty; simpl.
  - by eapply park_request.
  - eapply Hh; [done..|]. apply view_step; [apply rview_processTpcDecision | done].
  - eapply Hh; [done..|]. apply view_step; [apply rview_processTpcDecision | done].
  - by eapply park_request.
  - destruct (processPrepareCall (prepareReq q) s) as [s' r] eqn:E. eapply Hh; [done..|].
    pose proof (processPrepareCall_inv (prepareReq q) s HR) as HP. by rewrite E in HP.
  - destruct (processAcceptCall (acceptReq q) s) as [s' r] eqn:E. eapply Hh; [done..|].
    apply view_step; [|done]. pose proof (rview_processAcceptCall (acceptReq q) s) as HP.
    by rewrite E in HP.
  - eapply Hh; [done..|]. apply view_step; [apply rview_processCommitCall | done].
  - by eapply Hh.
  - by eapply Hh; [done..|]; apply view_step.
  - by eapply Hh.
  - eapply Hh; [done..|]. apply view_step; [apply rview_processDisconnectCall | done].
Qed.

(** gRPC delivers an event for a call when a request has arrived for it, or when
    the reply to it has been sent. *)
Definition deliverable s (c : Z) : Prop :=
  exists ty, calls s !! c = Some (mkInCall ty PROCESS) \/ calls s !! c = Some (mkInCall ty FINISH).

Lemma deleted_inv c ty s : CallsInv s -> calls s !! c = Some (mkInCall ty FINISH) ->
  CallsInv (s <| calls ::= delete c |>).
Proof.
  intros [HR [H0 Hf Hs Hl Hd Hr]] E. set (s' := s <| calls ::= delete c |>).
  assert (forall c' st t, st <> FINISH ->
    calls s' !! c' = Some (mkInCall t st) <-> calls s !! c' = Some (mkInCall t st)) as Hk.
  { intros c' st t Hst. simpl. destruct (decide (c' = c)) as [->|Hne].
    - rewrite lookup_delete_eq, E. split; intros; simplify_eq.
    - by rewrite lookup_delete_ne. }
  assert (forall c', is_Some (calls s' !! c') -> is_Some (calls s !! c')) as Hsub.
  { intros c' [ic Hi]. simpl in Hi. apply lookup_delete_Some in Hi as [_ Hi]. eauto. }
  split.
  - apply (RoundInv_calls s); [done| |done]. intros c'. unfold awaits.
    split; intros [t Ht]; exists t; by apply Hk.
  - split; [done|..|done|].
    + intros c' Hi. by apply Hf, Hsub.
    + intros c' ic Hi. simpl in Hi. apply lookup_delete_Some in Hi as [_ Hi]. by eapply Hs.
    + intros t. destruct (Hl t) as (c0 & Hc0 & Hn & Hu). exists c0.
      split; [by apply Hk|]. split; [done|]. intros c' Hc'. apply Hu. by apply Hk in Hc'.
    + intros c'. change (replies s') with (replies s). rewrite Hr. unfold answered. simpl.
      destruct (decide (c' = c)) as [->|Hne].
      * rewrite lookup_delete_eq, E. split; intros [? _]; split; try done; [by left|].
        right. eauto.
      * by rewrite lookup_delete_ne.
Qed.

Lemma Proceed_inv c q s : CallsInv s -> deliverable s c -> CallsInv (Proceed c q s).
Proof.
  intros HI [ty [E|E]]; unfold Proceed; rewrite E; simpl.
  - destruct (new_InCall_inv ty c s HI E) as (HR & HT & Hc). by apply process_inv.
  - by eapply deleted_inv.
Qed.

Lemma HandleRPCResponse_inv o s : CallsInv s -> CallsInv (HandleRPCResponse o s).
Proof.
  intros HI. pose proof HI as [HR _]. unfold HandleRPCResponse.
  destruct (oc_type o); try done; (eapply CallsInv_step; [done|]);
    auto using handlePrepareReply_inv, handleAcceptReply_inv, handleSyncReply_inv.
Qed.

(** ** Runs of the loop *)

Definition poll_ok s (p : Poll) : Prop :=
  match poll_request p with Some (c, true, _) => deliverable s c | _ => True end.

Fixpoint polls_ok (ps : list Poll) s : Prop :=
  match ps with
  | [] => True
  | p :: ps' => poll_ok s p /\ polls_ok ps' (iteration p s)
  end.

Lemma iteration_inv p s : CallsInv s -> poll_ok s p -> CallsInv (iteration p s).
Proof.
  intros HI Hp. unfold iteration.
  assert (forall t s, CallsInv s -> CallsInv (s <| clock := t |>)) as Hclock.
  { intros t s' HI'. eapply CallsInv_step; [done|]. destruct HI'. by apply view_step. }
  assert (forall s, CallsInv s -> CallsInv (sweep s)) as Hsweep.
  { intros s' HI'. eapply CallsInv_step; [done|]. destruct HI'.
    apply view_step; [apply rview_sweep | done]. }
  apply Hsweep, Hclock.
  assert (CallsInv (on_request p (s <| clock := poll_time p |>))) as H1.
  { unfold on_request, poll_ok in *. destruct (poll_request p) as [[[c []] q]|]; auto.
    apply Proceed_inv; auto. }
  unfold on_response.
  destruct (poll_response p) as [[o []]|]; [by apply HandleRPCResponse_inv | done | done].
Qed.

Lemma iterations_inv ps s : CallsInv s -> polls_ok ps s ->
  CallsInv (foldl (fun s p => iteration p s) s ps).
Proof.
  revert s. induction ps as [|p ps IH]; intros s HI Hp; [done|].
  destruct Hp as [Hp Hps]. simpl. apply IH; [by apply iteration_inv | done].
Qed.

(** A server that has not begun to serve. *)
Definition idle s : Prop :=
  pending_ s = [] /\ current_ s = [] /\ is_paxos_running s = false
  /\ await_prepare_decision s = false /\ await_accept_decision s = false
  /\ calls s = ∅ /\ next_call s = 0 /\ replies s = [] /\ call_fault s = false.

Lemma idle_view s s' : rview s' = rview s -> idle s -> idle s'.
Proof. unfold rview, rest, idle. intros E Hi. simplify_eq. rewrite_fields s'. naive_solver. Qed.

Lemma load_balance_view s i s' : load_balance s i = Some s' -> rview s' = rview s.
Proof. unfold load_balance. repeat case_match; intros; by simplify_eq/=. Qed.

Lemma load_balances_view l s s' : load_balances l s = Some s' -> rview s' = rview s.
Proof.
  revert s. induction l as [|i l IH]; simpl; intros s E; [by simplify_eq|].
  apply bind_Some in E as (s1 & E1 & E2). by rewrite (IH _ E2), (load_balance_view _ _ _ E1).
Qed.

Lemma load_ballot_view s s' : load_ballot s = Some s' -> rview s' = rview s.
Proof. unfold load_ballot. repeat case_match; intros; by simplify_eq/=. Qed.

Lemma start_view s s' : start s = Some s' -> rview s' = rview s.
Proof.
  unfold start. intros (s1 & E1 & (s2 & E2 & E3)%bind_Some)%bind_Some. simplify_eq.
  assert (rview s1 = rview s) as V1.
  { by rewrite (load_ballot_view _ _ E1). }
  transitivity (rview (recover_wal s2)); [done|].
  rewrite <- V1, <- (load_balances_view _ _ _ E2). unfold recover_wal. by repeat case_match.
Qed.

Lemma reset_view s : rview (resetDisconnectedState s) = rview s.
Proof. unfold resetDisconnectedState. rewrite rview_foldl; [done|]. intros ? p. by case_match. Qed.

Lemma new_server_idle c id name w d : idle (new_server c id name w d).
Proof. unfold new_server. eapply idle_view; [apply reset_view | by unfold idle]. Qed.

(** The table [listen] builds. *)
Definition first_calls : gmap Z InCall :=
  list_to_map (imap (fun i ty => (Z.of_nat i, mkInCall ty PROCESS)) request_types).

Lemma listen_calls s : idle s -> calls (listen s) = first_calls.
Proof.
  intros (_ & _ & _ & _ & _ & Ec & En & _). unfold listen, request_types. cbn [foldl].
  rewrite !new_InCall_calls.
  repeat change (next_call (new_InCall ?ty ?x)) with (next_call x + 1). rewrite Ec, En.
  apply map_eq. intros i. vm_compute. done.
Qed.

Lemma first_calls_lookup c ic : first_calls !! c = Some ic ->
  exists i, c = Z.of_nat i /\ request_types !! i = Some (ic_type ic) /\ ic_status ic = PROCESS.
Proof.
  intros Hi%elem_of_list_to_map_2. apply elem_of_lookup_imap in Hi as (i & ty & E & Ei).
  simplify_eq. eauto.
Qed.

Definition type_index (ty : RequestTypes) : nat :=
  default O (fst <$> list_find (eq ty) request_types).

Lemma type_index_spec ty : first_calls !! Z.of_nat (type_index ty) = Some (mkInCall ty PROCESS).
Proof. by destruct ty. Qed.

Lemma type_index_unique i ty : request_types !! i = Some ty -> i = type_index ty.
Proof. do 11 (destruct i as [|i]; [by intros [= <-]|]). done. Qed.

Lemma first_calls_total c : 0 <= c < 11 -> exists ic, first_calls !! c = Some ic.
Proof.
  intros Hc. destruct (request_types !! Z.to_nat c) as [ty|] eqn:E.
  - exists (mkInCall ty PROCESS). rewrite <- type_index_spec, <- (type_index_unique _ _ E). f_equal. lia.
  - apply lookup_ge_None in E. simpl in E. lia.
Qed.

Lemma listen_rest s : idle s ->
  pending_ (listen s) = [] /\ current_ (listen s) = [] /\ is_paxos_running (listen s) = false
  /\ await_prepare_decision (listen s) = false /\ await_accept_decision (listen s) = false
  /\ next_call (listen s) = 11 /\ replies (listen s) = [] /\ call_fault (listen s) = false.
Proof. intros (? & ? & ? & ? & ? & _ & E & ? & ?). unfold idle. split_and!; try done. simpl. by rewrite E. Qed.

Lemma listen_inv s : idle s -> CallsInv (listen s).
Proof.
  intros Hi. pose proof (listen_calls s Hi) as Ec.
  destruct (listen_rest s Hi) as (E1 & E2 & E3 & E4 & E5 & E6 & E7 & E8).
  assert (forall c ic, calls (listen s) !! c = Some ic ->
    0 <= c < 11 /\ c = Z.of_nat (type_index (ic_type ic)) /\ ic_status ic = PROCESS) as Hl.
  { intros c ic. rewrite Ec. intros (i & -> & Ei & Es)%first_calls_lookup.
    pose proof (lookup_lt_Some _ _ _ Ei) as Hlt. simpl in Hlt.
    rewrite <- (type_index_unique _ _ Ei). split; [lia|done]. }
  split; [split; [split|split|]|split]; rewrite ?E1, ?E2, ?E3, ?E4, ?E5, ?E6, ?E7; try done.
  - unfold parked. rewrite E1, E2. apply NoDup_nil_2.
  - intros c. unfold parked. rewrite E1, E2. split; [|set_solver].
    intros [ty Ht]. apply Hl in Ht. naive_solver.
  - intros c [ic Hc]. by apply Hl in Hc as [? _].
  - intros c ic Hc. apply Hl in Hc. naive_solver.
  - intros ty. exists (Z.of_nat (type_index ty)). unfold listening at 1. rewrite Ec.
    split; [apply type_index_spec|]. split; [done|]. intros c' Hc' _. by apply Hl in Hc' as (_ & -> & _).
  - apply NoDup_nil_2.
  - intros c. split; [set_solver|]. unfold answered. rewrite E6, Ec.
    intros [Hc [Hn|[ty Ht]]].
    + destruct (first_calls_total c Hc). congruence.
    + rewrite <- Ec in Ht. apply Hl in Ht. naive_solver.
Qed.

Lemma served_inv s0 s ps : idle s0 -> start s0 = Some s -> polls_ok ps (listen s) ->
  CallsInv (HandleRPCs ps s).
Proof.
  intros Hi Hs Hp. apply iterations_inv; [|done]. apply listen_inv.
  by eapply idle_view; [apply start_view|].
Qed.

(** C5.  No request is lost and none is answered twice: after any number of
    iterations of the event loop of a server that was just started, whatever the
    requests, replies and timeouts it met, every call it created is in exactly one
    of three states: registered for the next request of its type, waiting in one
    of the server's queues, or answered, with one reply.  One call per type of
    request is registered, and no call is used after it was deleted. *)
Theorem every_call_answered_once c id name w d s ps :
  start (new_server c id name w d) = Some s -> polls_ok ps (listen s) ->
  let s' := HandleRPCs ps s in
  (forall k, 0 <= k < next_call s' ->
     ((exists ty, listening s' ty k) /\ (k ∉ parked s') /\ k ∉ replies s')
     \/ (~ (exists ty, listening s' ty k) /\ k ∈ parked s' /\ k ∉ replies s')
     \/ (~ (exists ty, listening s' ty k) /\ (k ∉ parked s') /\ k ∈ replies s'))
  /\ NoDup (parked s') /\ NoDup (replies s')
  /\ (forall ty, exists k, listening s' ty k /\ forall k', listening s' ty k' -> k' = k)
  /\ call_fault s' = false.
Proof.
  intros Hs Hp s'.
  destruct (served_inv _ _ ps (new_server_idle c id name w d) Hs Hp) as [[_ [Hnd Hpk Hfa] _] HT].
  fold s' in Hnd, Hpk, Hfa, HT. destruct HT as [_ _ Hst Hl Hd Hr].
  split_and!; [|done|done| |done].
  - intros k Hk. rewrite <- Hpk, Hr. unfold listening, awaits, answered.
    destruct (calls s' !! k) as [[ty st]|] eqn:E; [|naive_solver].
    destruct (Hst k _ E) as [Es|[Es|Es]]; simpl in Es; subst st; naive_solver.
  - intros ty. destruct (Hl ty) as (k & H1 & _ & H2). exists k. naive_solver.
Qed.

(** C9.  The rounds of a server are well formed: after any number of iterations a
    round is running exactly when it has entries; it then waits for replies to its
    prepares, or to its accepts, or for a synchronization, and counts at most one
    refusal and only its own acceptance; and a client waits in the queue only
    while a round is running or a synchronization is under way. *)
Theorem rounds_well_formed c id name w d s ps :
  start (new_server c id name w d) = Some s -> polls_ok ps (listen s) ->
  RoundInv (HandleRPCs ps s).
Proof. intros Hs Hp. by eapply served_inv; [apply new_server_idle|..]. Qed.

End loop.

(** A transfer arrives on the call registered for transfers; it is parked in a
    round that waits for the replies of the two peers. *)
Definition one_transfer : list Poll :=
  [nothing; got 3 (no_request <| transferReq := transfer_1_2 |>)].

Lemma one_transfer_ok : polls_ok one_transfer (listen (started 1)).
Proof. split; [exact I|]. split; [|exact I]. exists TRANSFER. left. vm_compute. reflexivity. Qed.

Lemma one_transfer_run :
  bool_decide (parked (HandleRPCs one_transfer (started 1)) = [3])
  && await_prepare_decision (HandleRPCs one_transfer (started 1))
  && (next_call (HandleRPCs one_transfer (started 1)) =? 12) = true.
Proof. vm_compute. reflexivity. Qed.

Lemma every_call_answered_once_witness :
  let s' := HandleRPCs one_transfer (started 1) in
  3 ∈ parked s' /\ (3 ∉ replies s') /\ call_fault s' = false.
Proof.
  pose proof (every_call_answered_once deployment 1 (server_name_of 1) (mkWAL None true ∅) ∅
    (started 1) one_transfer started_1 one_transfer_ok) as HT.
  pose proof one_transfer_run as E. revert HT E.
  generalize (HandleRPCs one_transfer (started 1)). intros s' (Hk & _ & _ & _ & Hf) E.
  apply andb_true_iff in E as [E En]. apply andb_true_iff in E as [E _].
  apply bool_decide_eq_true in E. apply Z.eqb_eq in En.
  assert (3 ∈ parked s') as H3 by (rewrite E; set_solver).
  destruct (Hk 3) as [(_ & ? & _)|[(_ & _ & ?)|(_ & ? & _)]]; [lia|done..].
Defined.

Lemma rounds_well_formed_witness :
  is_paxos_running (HandleRPCs one_transfer (started 1)) = true.
Proof.
  pose proof (rounds_well_formed deployment 1 (server_name_of 1) (mkWAL None true ∅) ∅
    (started 1) one_transfer started_1 one_transfer_ok) as HI.
  pose proof one_transfer_run as E. revert HI E.
  generalize (HandleRPCs one_transfer (started 1)). intros s' HI E.
  apply andb_true_iff in E as [E _]. apply andb_true_iff in E as [_ E].
  exact (ri_prepare _ (ri_phases _ HI) E).
Defined.
