(* ===== verification/Storage.v ===== *)
(** * Storage: what a server keeps, in memory and on disk

    A server holds the same information several times: the log is in memory and in
    the write-ahead log, the balances are in memory and in the database, and both
    are related, since a balance is the initial one plus the effect of the
    committed entries of the log; [paxos_index] counts entries of the log.

    The handlers change this data only through a few operations, the steps of
    [dstep].  The invariants of this file are proved for these steps, by cases on
    the step; that every handler is a sequence of them is proved in [Handlers]. *)

From S2P Require Import Prelude Text Types Utils Store Wal Server.

(** ** The effect of a log on the balances *)

Definition committed (e : WALEntry) : bool := bool_decide (status e = COMMITTED).

Definition committed_tids (l : list WALEntry) : gset Z :=
  list_to_set (tid <$> filter (fun e => committed e = true) l).

(** What a transaction adds to the balance of [c]. *)
Definition delta (e : WALEntry) (c : Z) : Z :=
  (if decide (c = receiver (txn e)) then amount (txn e) else 0)
  - (if decide (c = sender (txn e)) then amount (txn e) else 0).

(** The entries that count: of the committed entries with one transaction id,
    the first. *)
Definition effective (seen : gset Z) (e : WALEntry) : bool :=
  committed e && bool_decide (tid e ∉ seen).

Fixpoint ledger_from (seen : gset Z) (l : list WALEntry) (c : Z) : Z :=
  match l with
  | [] => 0
  | e :: l' =>
    (if effective seen e then delta e c else 0)
    + ledger_from (if committed e then {[ tid e ]} ∪ seen else seen) l' c
  end.

Definition ledger (l : list WALEntry) (c : Z) : Z := ledger_from ∅ l c.

Lemma committed_tids_nil : committed_tids [] = ∅.
Proof. done. Qed.

Lemma committed_tids_cons e l :
  committed_tids (e :: l)
  = if committed e then {[ tid e ]} ∪ committed_tids l else committed_tids l.
Proof.
  unfold committed_tids. rewrite filter_cons. destruct (committed e) eqn:E.
  - rewrite decide_True by done. done.
  - by rewrite decide_False by done.
Qed.

Lemma committed_tids_snoc l e :
  committed_tids (l ++ [e])
  = if committed e then {[ tid e ]} ∪ committed_tids l else committed_tids l.
Proof.
  induction l as [|x l IH]; simpl; rewrite !committed_tids_cons; [done|].
  rewrite IH. destruct (committed x), (committed e); set_solver.
Qed.

Lemma ledger_from_snoc seen l e c :
  ledger_from seen (l ++ [e]) c
  = ledger_from seen l c + if effective (seen ∪ committed_tids l) e then delta e c else 0.
Proof.
  revert seen. induction l as [|x l IH]; intros seen; simpl.
  - rewrite committed_tids_nil, union_empty_r_L. lia.
  - rewrite IH, committed_tids_cons. destruct (committed x).
    + replace ({[tid x]} ∪ seen ∪ committed_tids l)
        with (seen ∪ ({[tid x]} ∪ committed_tids l)) by set_solver. lia.
    + lia.
Qed.

Lemma ledger_snoc l e c :
  ledger (l ++ [e]) c
  = ledger l c + if effective (committed_tids l) e then delta e c else 0.
Proof. unfold ledger. by rewrite ledger_from_snoc, union_empty_l_L. Qed.

Lemma count_paxos_snoc l e :
  count_paxos (l ++ [e]) = count_paxos l + if isPaxosEntry e then 1 else 0.
Proof. unfold count_paxos. rewrite foldl_app. simpl. case_match; lia. Qed.

Section storage.
Context {D : Type} `{KVLaws D, !KVReliable D}.
Implicit Types s : ServerImpl D.

(** ** States with the same data *)

Record same_data s s' : Prop := {
  sd_clusters : num_clusters (cfg s') = num_clusters (cfg s);
  sd_cluster : cluster_id s' = cluster_id s;
  sd_log : log s' = log s;
  sd_wal : wal s' = wal s;
  sd_applied : balance_applied s' = balance_applied s;
  sd_index : paxos_index s' = paxos_index s;
  sd_db : db s' = db s;
  sd_ballot : ballot_num s' = ballot_num s;
  sd_balances : forall c, balance_of s' c = balance_of s c
}.

#[export] Instance same_data_equiv : Equivalence same_data.
Proof.
  split.
  - by split.
  - intros s s' []. by split.
  - intros s s' s'' [] []. split; intros; etrans; eauto.
Qed.

(** An account of this server's shard. *)
Definition local s (c : Z) : Prop := isClientInCluster_s s c = true.

#[export] Instance local_dec s c : Decision (local s c).
Proof. unfold local. apply _. Defined.

#[export] Instance local_proper : Proper (same_data ==> (=) ==> iff) local.
Proof.
  intros s s' [] c ? <-. unfold local, isClientInCluster_s, getClusterIdFromClientId.
  by rewrite sd_clusters0, sd_cluster0.
Qed.

(** ** The storage operations *)

(** A request as a client may send it: the fields have their widths, and the id
    is not the value the log uses for errors. *)
Definition request_ok (r : TransferReq) : Prop := req_ok r /\ tr_tid r <> -1.

Inductive dstep : ServerImpl D -> ServerImpl D -> Prop :=
  | ds_same s s' : same_data s s' -> (ub s = true -> ub s' = true) -> dstep s s'
  | ds_ballot s b : in32 b -> dstep s (persistBallotNum (s <| ballot_num := b |>))
  | ds_prepare s r b : request_ok r -> ballot_ok b -> dstep s (prepareTransaction r b s)
  | ds_commit s r b : request_ok r -> ballot_ok b -> dstep s (commitTransaction r b s)
  | ds_decide s t c : dstep s (processTpcDecision t c s)
  | ds_expire s t : dstep s (abort_expired t s)
  | ds_sync s e : syncable (wal s) e -> tid e <> -1 -> dstep s (sync_entry e s).

Definition dsteps := rtc dstep.

(** ** Moving money

    [moves f s s']: the only change is that the balance of [c] grows by [f c],
    and the database follows. *)
Record moves (f : Z -> Z) s s' : Prop := {
  mv_clusters : num_clusters (cfg s') = num_clusters (cfg s);
  mv_cluster : cluster_id s' = cluster_id s;
  mv_log : log s' = log s;
  mv_wal : wal s' = wal s;
  mv_applied : balance_applied s' = balance_applied s;
  mv_index : paxos_index s' = paxos_index s;
  mv_ballot : ballot_num s' = ballot_num s;
  mv_balances : forall c, balance_of s' c = balance_of s c + f c;
  mv_ub : ub s = true -> ub s' = true;
  mv_range : ub s' = false -> forall c, f c <> 0 -> in32 (balance_of s' c);
  mv_db : forall c, db_get (db s') (to_text c) = Found (to_text (balance_of s' c))
    \/ db_get (db s') (to_text c) = db_get (db s) (to_text c) /\ f c = 0;
  mv_db_ballot : db_get (db s') ballot_key = db_get (db s) ballot_key
}.

Lemma moves_none s : moves (fun _ => 0) s s.
Proof. split; auto; intros; lia. Qed.

Lemma moves_trans f g s1 s2 s3 : moves f s1 s2 -> moves g s2 s3 ->
  moves (fun c => f c + g c) s1 s3.
Proof.
  intros [] []. split; try congruence; auto.
  - intros c. rewrite mv_balances1, mv_balances0. lia.
  - intros Hub c Hc. destruct (decide (g c = 0)) as [Hg|Hg]; [|by auto].
    rewrite mv_balances1, Hg, Z.add_0_r. apply mv_range0; [|lia].
    destruct (ub s2); [|done]. by rewrite mv_ub1 in Hub.
  - intros c. destruct (mv_db1 c) as [|[E Hg]]; [by left|].
    destruct (mv_db0 c) as [E'|[E' Hf]].
    + left. by rewrite E, E', mv_balances1, Hg, Z.add_0_r.
    + right. split; [congruence | lia].
Qed.

Lemma moves_ext f g s s' : (forall c, f c = g c) -> moves f s s' -> moves g s s'.
Proof. intros E []. split; auto; intros; rewrite <- ?E in *; auto. Qed.

Lemma balance_of_add c d s x :
  balance_of (add_balance c d s) x = balance_of s x + if decide (x = c) then d else 0.
Proof.
  transitivity (default 0 (<[c := balance_of s c + d]> (balances s) !! x)).
  - unfold add_balance, check_int, flag_if, balance_of. by case_match.
  - case_decide as E; [subst; by rewrite lookup_insert_eq|].
    rewrite lookup_insert_ne by done. unfold balance_of. lia.
Qed.

Lemma ub_check z s : ub (check_int z s) = negb (in32b z) || ub s.
Proof. unfold check_int, flag_if. by destruct (negb (in32b z)). Qed.

(** Fields [add_balance] leaves alone. *)
Lemma add_balance_fields c d s :
  let s' := add_balance c d s in
  cfg s' = cfg s /\ cluster_id s' = cluster_id s /\ log s' = log s /\ wal s' = wal s
  /\ balance_applied s' = balance_applied s /\ paxos_index s' = paxos_index s
  /\ ballot_num s' = ballot_num s /\ db s' = db s
  /\ ub s' = negb (in32b (balance_of s c + d)) || ub s.
Proof.
  simpl. unfold add_balance.
  split_and!; [..|by rewrite ub_check]; unfold check_int, flag_if; by case_match.
Qed.

Lemma db_store c s x : db_get (db (store_balance c s)) (to_text x)
  = if decide (x = c) then Found (to_text (balance_of s c)) else db_get (db s) (to_text x).
Proof.
  simpl. rewrite get_put. destruct (decide (x = c)) as [->|Hne]; [by rewrite decide_True|].
  rewrite decide_False; [done|]. intros E%to_text_inj. congruence.
Qed.

Lemma ballot_key_not_number z : to_text z <> ballot_key.
Proof.
  intros E. pose proof (read_number_to_text z [] I) as Hr. by rewrite app_nil_r, E in Hr.
Qed.

(** The effect of one side of a transaction. *)
Definition side (a d c : Z) : Z := if decide (c = a) then d else 0.

Lemma moves_apply_side a d s : moves (side a d) s (apply_side a d s).
Proof.
  destruct (add_balance_fields a d s) as (E1 & E2 & E3 & E4 & E5 & E6 & E7 & E8 & E9).
  unfold apply_side. split; unfold side.
  - simpl. by rewrite E1.
  - done.
  - done.
  - done.
  - done.
  - done.
  - done.
  - intros c. apply balance_of_add.
  - change (ub (store_balance a ?x)) with (ub x). rewrite E9. intros ->. apply orb_true_r.
  - change (ub (store_balance a ?x)) with (ub x). rewrite E9. intros [Hr _]%orb_false_iff c Hc.
    change (balance_of (store_balance a ?x) c) with (balance_of x c). rewrite balance_of_add.
    case_decide; [subst | done]. apply in32b_spec. by apply negb_false_iff in Hr.
  - intros c. rewrite db_store. case_decide as Ec; [left; by subst|]. right. by rewrite E8.
  - simpl. rewrite get_put_other by apply ballot_key_not_number. by rewrite E8.
Qed.

Lemma local_moves f s s' c : moves f s s' ->
  isClientInCluster_s s' c = isClientInCluster_s s c.
Proof.
  intros []. unfold isClientInCluster_s, getClusterIdFromClientId.
  by rewrite mv_clusters0, mv_cluster0.
Qed.

(** One side of a decision: locks do not matter here. *)
Lemma moves_decision_side b a d s :
  moves (fun c => if b && isClientInCluster_s s a then side a d c else 0) s
    (decision_side b a d s).
Proof.
  unfold decision_side. destruct (isClientInCluster_s s a), b; simpl;
    try (by destruct (moves_none s)).
  by destruct (moves_apply_side a d (release a s)).
Qed.

Lemma moves_sync_side b a d s :
  moves (fun c => if b && isClientInCluster_s s a then side a d c else 0) s
    (sync_side b a d s).
Proof.
  unfold sync_side. destruct (b && isClientInCluster_s s a); [apply moves_apply_side|apply moves_none].
Qed.

(** Both sides of a transaction: an account of the shard gets its share. *)
Lemma both_sides_local b s e c : local s c ->
  (if b && isClientInCluster_s s (sender (txn e)) then side (sender (txn e)) (- amount (txn e)) c else 0)
  + (if b && isClientInCluster_s s (receiver (txn e)) then side (receiver (txn e)) (amount (txn e)) c else 0)
  = if b then delta e c else 0.
Proof.
  unfold local, side, delta. intros Hc. destruct b; simpl; [|done].
  destruct (decide (c = sender (txn e))) as [<-|], (decide (c = receiver (txn e))) as [<-|];
    rewrite ?Hc; repeat case_match; lia.
Qed.

(** The four updates of [commitTransaction]. *)
Definition transfer_balances (t : Transaction) s : ServerImpl D :=
  store_balance (receiver t) (store_balance (sender t)
    (add_balance (receiver t) (amount t) (add_balance (sender t) (- amount t) s))).

Lemma moves_transfer t s :
  moves (fun c => side (sender t) (- amount t) c + side (receiver t) (amount t) c) s
    (transfer_balances t s).
Proof.
  unfold transfer_balances.
  destruct (add_balance_fields (sender t) (- amount t) s) as (E1 & E2 & E3 & E4 & E5 & E6 & E7 & E8 & E9).
  set (s1 := add_balance (sender t) (- amount t) s) in *.
  destruct (add_balance_fields (receiver t) (amount t) s1) as (F1 & F2 & F3 & F4 & F5 & F6 & F7 & F8 & F9).
  set (s2 := add_balance (receiver t) (amount t) s1) in *.
  assert (forall c, balance_of s2 c = balance_of s c + (side (sender t) (- amount t) c + side (receiver t) (amount t) c)) as Hb.
  { intros c. subst s2. rewrite balance_of_add. subst s1. rewrite balance_of_add. unfold side. lia. }
  split; try (simpl; congruence).
  - done.
  - change (ub s = true -> ub s2 = true). rewrite F9, E9. intros ->.
    by rewrite !orb_true_r.
  - intros Hu c Hc. change (ub s2 = false) in Hu. rewrite F9, E9 in Hu.
    apply orb_false_iff in Hu as [Hr2 Hu]. apply orb_false_iff in Hu as [Hr1 _].
    apply negb_false_iff, in32b_spec in Hr1, Hr2.
    change (in32 (balance_of s2 c)). unfold side in Hc, Hb.
    destruct (decide (c = receiver t)) as [->|Hr].
    + subst s2. rewrite balance_of_add, decide_True by done. done.
    + destruct (decide (c = sender t)) as [->|Hs]; [|lia].
      by rewrite Hb, decide_True, decide_False, Z.add_0_r by done.
  - intros c. change (balance_of (store_balance ?a ?x) c) with (balance_of x c).
    change (balance_of (store_balance ?a ?x) c) with (balance_of x c).
    rewrite !db_store. case_decide as Er; [left; by subst|].
    case_decide as Es; [left; by subst|]. right. rewrite F8, E8. unfold side.
    by rewrite !decide_False.
  - simpl. rewrite !get_put_other by apply ballot_key_not_number. by rewrite F8, E8.
Qed.

Lemma moves_advance f b s s' : moves f s s' ->
  moves f (s <| paxos_index := paxos_index s + 1 |>) (advance b s').
Proof.
  intros []. unfold advance, check_int, flag_if.
  case_match; split; try done; simpl; auto; by rewrite mv_index0.
Qed.

Lemma moves_frame f s s1 s2 : moves f s s1 ->
  num_clusters (cfg s2) = num_clusters (cfg s1) -> cluster_id s2 = cluster_id s1 ->
  log s2 = log s1 -> wal s2 = wal s1 -> balance_applied s2 = balance_applied s1 ->
  paxos_index s2 = paxos_index s1 -> ballot_num s2 = ballot_num s1 ->
  balances s2 = balances s1 -> db s2 = db s1 -> ub s2 = ub s1 -> moves f s s2.
Proof.
  intros [] E1 E2 E3 E4 E5 E6 E7 E8 E9 E10.
  assert (forall c, balance_of s2 c = balance_of s1 c) as Eb by (intros; unfold balance_of; by rewrite E8).
  split; try congruence; intros; rewrite ?Eb, ?E9, ?E10 in *; auto.
Qed.

(** The file agrees with the log in memory, and the value that marks errors is not
    the id of a pending transaction. *)
Definition WalInv s : Prop :=
  wal_reach (wal s) (log s) /\ transferIndex (wal s) !! (-1) = None.

(** ** Appending an entry

    Every operation that changes the log appends one entry, in memory and in the
    file, and applies its effect. *)
Record appends (e : WALEntry) s s' : Prop := {
  ap_clusters : num_clusters (cfg s') = num_clusters (cfg s);
  ap_cluster : cluster_id s' = cluster_id s;
  ap_log : log s' = log s ++ [e];
  ap_wal : WalInv s';
  ap_index : paxos_index s' = paxos_index s + if isPaxosEntry e then 1 else 0;
  ap_applied : balance_applied s'
    = if committed e then {[ tid e ]} ∪ balance_applied s else balance_applied s;
  ap_ballot : ballot_num s' = ballot_num s;
  ap_balances : forall c, local s c -> balance_of s' c
    = balance_of s c + if effective (balance_applied s) e then delta e c else 0;
  ap_ub : ub s = true -> ub s' = true;
  ap_range : ub s' = false -> forall c, balance_of s' c <> balance_of s c -> in32 (balance_of s' c);
  ap_db : forall c, db_get (db s') (to_text c) = Found (to_text (balance_of s' c))
    \/ db_get (db s') (to_text c) = db_get (db s) (to_text c) /\ balance_of s' c = balance_of s c;
  ap_db_ballot : db_get (db s') ballot_key = db_get (db s) ballot_key
}.

Lemma appends_moves e f s s1 s' :
  num_clusters (cfg s1) = num_clusters (cfg s) -> cluster_id s1 = cluster_id s ->
  log s1 = log s ++ [e] -> WalInv s1 ->
  paxos_index s1 = paxos_index s + (if isPaxosEntry e then 1 else 0) ->
  balance_applied s1 = (if committed e then {[ tid e ]} ∪ balance_applied s else balance_applied s) ->
  ballot_num s1 = ballot_num s -> balances s1 = balances s -> db s1 = db s -> (ub s = true -> ub s1 = true) ->
  (forall c, local s c -> f c = if effective (balance_applied s) e then delta e c else 0) ->
  moves f s1 s' -> appends e s s'.
Proof.
  intros E1 E2 E3 E4 E5 E6 E7 E8 E9 E10 Hf []. unfold WalInv in E4.
  assert (forall c, balance_of s1 c = balance_of s c) as Eb by (intros; unfold balance_of; by rewrite E8).
  split; try congruence.
  - unfold WalInv. by rewrite mv_wal0, mv_log0.
  - intros c Hc. by rewrite mv_balances0, Hf, Eb.
  - auto.
  - intros Hu c Hc. apply mv_range0; [done|]. intros E. apply Hc. by rewrite mv_balances0, Eb, E, Z.add_0_r.
  - intros c. destruct (mv_db0 c) as [|[E Ef]]; [by left|]. right.
    rewrite mv_balances0, Eb, Ef. split; [congruence | lia].
Qed.

Lemma effective_off seen e : committed e = false -> effective seen e = false.
Proof. unfold effective. by intros ->. Qed.

Lemma prepare_appends r b s : WalInv s -> request_ok r -> ballot_ok b ->
  appends (entry_of r b CROSS PREPARED) s (prepareTransaction r b s).
Proof.
  intros [Hw Hi] [Hr Ht] Hb. unfold prepareTransaction.
  pose proof (reach_prepare _ _ r b Hw Hr Hb) as Hw'.
  destruct (wal_reach_refines _ _ Hw) as (a & HR & _).
  pose proof (refines_prepare _ _ r b HR Hr Hb) as [_ Ee].
  assert (transferIndex (wal_prepareTransaction r b (wal s)).1 !! (-1) = None) as Hi'.
  { unfold wal_prepareTransaction. case_match; simpl; by rewrite lookup_insert_ne. }
  destruct (wal_prepareTransaction r b (wal s)) as [w e]. simpl in Hw', Ee, Hi'. subst e.
  set (e := entry_of r b CROSS PREPARED) in *.
  set (s1 := push_log e (s <| wal := w |>)).
  eapply (appends_moves e (fun _ => 0) s (s1 <| paxos_index := paxos_index s + 1 |>)); try done.
  eapply moves_frame; [apply (moves_advance _ b s1 s1), moves_none|done..].
Qed.

Lemma commit_appends r b s : WalInv s -> request_ok r -> ballot_ok b ->
  tr_tid r ∉ balance_applied s ->
  appends (entry_of r b INTRA COMMITTED) s (commitTransaction r b s).
Proof.
  intros [Hw Hi] [Hr _] Hb Hn. unfold commitTransaction. rewrite bool_decide_false by done.
  pose proof (reach_commit _ _ r b Hw Hr Hb) as Hw'.
  destruct (wal_reach_refines _ _ Hw) as (a & HR & _).
  pose proof (refines_commit _ _ r b HR Hr Hb) as [_ Ee].
  assert (transferIndex (wal_commitTransaction r b (wal s)).1 !! (-1) = None) as Hi'.
  { unfold wal_commitTransaction. by case_match. }
  change (wal (s <| balance_applied ::= union {[tr_tid r]} |>)) with (wal s).
  destruct (wal_commitTransaction r b (wal s)) as [w e]. simpl in Hw', Ee, Hi'. subst e.
  set (e := entry_of r b INTRA COMMITTED) in *.
  set (s1 := push_log e (s <| balance_applied ::= union {[tr_tid r]} |> <| wal := w |>)).
  fold (transfer_balances (txn e) s1).
  eapply (appends_moves e (fun c => side (sender (txn e)) (- amount (txn e)) c
    + side (receiver (txn e)) (amount (txn e)) c) s (s1 <| paxos_index := paxos_index s + 1 |>)); try done.
  - intros c _. unfold effective. rewrite bool_decide_true by done. unfold delta, side. simpl.
    repeat case_decide; lia.
  - apply (moves_advance _ b s1), moves_transfer.
Qed.

(** A decision on transaction [t], in the log file: unknown, or recorded. *)
Lemma decide_wal s t c : WalInv s ->
  let '(w, r) := if c : bool then wal_commitTpc t (wal s) else wal_abortTpc t (wal s) in
  w = wal s /\ r = Some error_entry
  \/ exists e, r = Some e /\ tid e = t /\ t <> -1 /\ type e = CROSS
      /\ status e = (if c then COMMITTED else ABORTED)
      /\ wal_reach w (log s ++ [e]) /\ transferIndex w !! (-1) = None.
Proof.
  intros [Hw Hi]. destruct (wal_reach_refines _ _ Hw) as (a & HR & _).
  pose proof (wr_pending _ _ HR t) as Hp.
  set (st := if c then COMMITTED else ABORTED).
  set (op := if c then L "CS_COMMIT" else L "CS_ABORT").
  assert ((if c then wal_commitTpc t (wal s) else wal_abortTpc t (wal s))
    = wal_decide op st t (wal s)) as -> by by destruct c.
  destruct (transferIndex (wal s) !! t) as [pos|] eqn:Et.
  2: { unfold wal_decide. rewrite Et. by left. }
  destruct (ls_pending a !! t) as [e0|] eqn:Ep; [|done].
  destruct Hp as (Hty & Hst & Htid & _ & _).
  destruct (refines_decide (wal s) a op st t HR) as [_ E2]; [destruct c; unfold op_kind; auto 10|destruct c; auto|].
  unfold spec_decide in E2. rewrite Ep in E2. simpl in E2.
  assert (wal_reach (wal_decide op st t (wal s)).1 (log s ++ [e0 <| status := st |>])) as Hw'.
  { subst op st. destruct c; [apply reach_commit_tpc | apply reach_abort_tpc]; try done; by rewrite Et. }
  assert (transferIndex (wal_decide op st t (wal s)).1 !! (-1) = None) as Hi'.
  { unfold wal_decide. rewrite Et. repeat case_match; simpl; try done.
    by rewrite lookup_delete_None, Hi; right. }
  destruct (wal_decide op st t (wal s)) as [w r]. simpl in *. right. exists (e0 <| status := st |>).
  split_and!; try done. intros ->. congruence.
Qed.

Definition decision_status (c : bool) : TransactionStatus := if c then COMMITTED else ABORTED.

Lemma decision_appends t c s : WalInv s ->
  (same_data s (processTpcDecision t c s) /\ ub (processTpcDecision t c s) = ub s)
  \/ exists e, tid e = t /\ type e = CROSS /\ status e = decision_status c
       /\ appends e s (processTpcDecision t c s).
Proof.
  intros HW. unfold processTpcDecision. destruct (i_am_disconnected s); [by left|].
  pose proof (decide_wal s t c HW) as Hd.
  change (wal (s <| prepareTimestamps ::= delete t |>)) with (wal s).
  destruct (if c then _ else _) as [w r].
  destruct Hd as [[-> ->]|(e & -> & Ht & Hne & Hty & Hst & Hw & Hi)].
  { left. by destruct s. }
  right. exists e. split_and!; [done..|].
  destruct (Z.eqb_spec (tid e) (-1)) as [?|_]; [congruence|].
  set (s0 := push_log e (s <| prepareTimestamps ::= delete t |> <| wal := w |>)).
  change (balance_applied s0) with (balance_applied s).
  assert (c && bool_decide (tid e ∉ balance_applied s) = effective (balance_applied s) e) as ->.
  { unfold effective, committed. by destruct c; rewrite Hst. }
  set (s1 := if c then s0 <| balance_applied ::= union {[tid e]} |> else s0).
  set (b := effective (balance_applied s) e).
  pose proof (moves_decision_side b (sender (txn e)) (- amount (txn e)) s1) as M1.
  pose proof (moves_decision_side b (receiver (txn e)) (amount (txn e)) (decision_side b (sender (txn e)) (- amount (txn e)) s1)) as M2.
  pose proof (moves_trans _ _ _ _ _ M1 M2) as M. rewrite (local_moves _ _ _ _ M1) in M.
  assert (isPaxosEntry e = false) as Hpx by (unfold isPaxosEntry; rewrite Hty, Hst; by destruct c).
  assert (committed e = c) as Hc by (unfold committed; rewrite Hst; by destruct c).
  eapply (appends_moves e _ s s1); [..|exact M]; subst s1; destruct c; simpl; rewrite ?Hpx, ?Hc; try done.
  - lia.
  - lia.
  - intros x Hx. by apply (both_sides_local b s).
  - intros x Hx. by apply (both_sides_local b s).
Qed.

Lemma expire_appends t s : WalInv s ->
  (same_data s (abort_expired t s) /\ ub (abort_expired t s) = ub s)
  \/ exists e, tid e = t /\ type e = CROSS /\ status e = ABORTED /\ appends e s (abort_expired t s).
Proof.
  intros HW. unfold abort_expired. pose proof (decide_wal s t false HW) as Hd. simpl in Hd.
  destruct (wal_abortTpc t (wal s)) as [w r].
  destruct Hd as [[-> ->]|(e & -> & Ht & Hne & Hty & Hst & Hw & Hi)].
  { left. by destruct s. }
  right. exists e. split_and!; [done..|].
  destruct (Z.eqb_spec (tid e) (-1)) as [?|_]; [congruence|].
  assert (isPaxosEntry e = false) as Hpx by (unfold isPaxosEntry; by rewrite Hty, Hst).
  assert (committed e = false) as Hc by (unfold committed; by rewrite Hst).
  eapply (appends_moves e (fun _ => 0) s (push_log e (s <| wal := w |>))); rewrite ?Hpx, ?Hc; try done.
  - simpl. lia.
  - intros x _. by rewrite effective_off.
  - eapply moves_frame; [apply moves_none|..]; by repeat case_match.
Qed.

Lemma sync_appends e s : WalInv s -> syncable (wal s) e -> tid e <> -1 ->
  appends e s (sync_entry e s).
Proof.
  intros [Hw Hi] He Ht. pose proof (reach_insert _ _ e Hw He) as Hw'.
  assert (transferIndex (insertEntry e (wal s)) !! (-1) = None) as Hi'.
  { unfold insertEntry. case_match; [|done]. destruct (status e); simpl; try done.
    - by rewrite lookup_insert_ne.
    - by rewrite lookup_delete_ne.
    - by rewrite lookup_delete_ne. }
  unfold sync_entry.
  set (s0 := if isPaxosEntry e then _ else _).
  assert (cfg s0 = cfg s /\ cluster_id s0 = cluster_id s /\ log s0 = log s ++ [e]
    /\ wal s0 = insertEntry e (wal s) /\ balance_applied s0 = balance_applied s
    /\ paxos_index s0 = paxos_index s + (if isPaxosEntry e then 1 else 0)
    /\ ballot_num s0 = ballot_num s /\ balances s0 = balances s /\ db s0 = db s
    /\ (ub s = true -> ub s0 = true))
    as (E1 & E2 & E3 & E4 & E5 & E6 & E7 & E8 & E9 & E10).
  { subst s0. unfold check_int, flag_if. repeat case_match; split_and!; try done; simpl; lia. }
  clearbody s0. rewrite E5. fold (committed e) (effective (balance_applied s) e).
  set (s1 := if committed e then s0 <| balance_applied ::= union {[tid e]} |> else s0).
  set (b := effective (balance_applied s) e).
  pose proof (moves_sync_side b (sender (txn e)) (- amount (txn e)) s1) as M1.
  pose proof (moves_sync_side b (receiver (txn e)) (amount (txn e)) (sync_side b (sender (txn e)) (- amount (txn e)) s1)) as M2.
  pose proof (moves_trans _ _ _ _ _ M1 M2) as M. rewrite (local_moves _ _ _ _ M1) in M.
  assert (forall x, isClientInCluster_s s1 x = isClientInCluster_s s x) as El.
  { intros x. subst s1. unfold isClientInCluster_s. destruct (committed e); simpl; congruence. }
  eapply (appends_moves e _ s s1); [..|exact M]; subst s1; destruct (committed e) eqn:Ec; simpl; try congruence; try done.
  - unfold WalInv. simpl. by rewrite E3, E4.
  - unfold WalInv. by rewrite E3, E4.
  - intros x Hx. rewrite !El. by apply (both_sides_local b s).
  - intros x Hx. rewrite !El. by apply (both_sides_local b s).
Qed.

(** ** The invariant *)

(** [base] gives the balances and [n0] the length of the log when the server was
    started. *)
Record DataInv (base : Z -> Z) (n0 : nat) s : Prop := {
  di_wal : WalInv s;
  di_index : paxos_index s = count_paxos (log s);
  di_length : (n0 <= length (log s))%nat;
  di_applied : balance_applied s = committed_tids (drop n0 (log s));
  di_ledger : forall c, local s c -> balance_of s c = base c + ledger (drop n0 (log s)) c;
  di_db : forall c, local s c -> valid_client c ->
    db_get (db s) (to_text c) = Found (to_text (balance_of s c)) /\ in32 (balance_of s c);
  di_ballot : db_get (db s) ballot_key = Found (to_text (ballot_num s)) /\ in32 (ballot_num s)
}.

Lemma DataInv_same base n0 s s' : same_data s s' -> DataInv base n0 s -> DataInv base n0 s'.
Proof.
  intros E []. pose proof (fun c => local_proper s s' E c c eq_refl) as Hl. destruct E.
  split; unfold WalInv in *; intros; rewrite ?sd_log0, ?sd_wal0, ?sd_index0, ?sd_applied0,
    ?sd_balances0, ?sd_db0, ?sd_ballot0; auto.
  - apply di_ledger0. by apply Hl.
  - apply di_db0; [by apply Hl | done].
Qed.

Lemma DataInv_ballot base n0 s b : in32 b -> DataInv base n0 s ->
  DataInv base n0 (persistBallotNum (s <| ballot_num := b |>)).
Proof.
  intros Hb []. split; try done; simpl.
  - intros c Hc Hv. rewrite get_put_other; [by apply di_db0|].
    intros E. by apply (ballot_key_not_number c).
  - by rewrite get_put_same.
Qed.

Lemma DataInv_appends base n0 s s' e : appends e s s' -> ub s' = false ->
  DataInv base n0 s -> DataInv base n0 s'.
Proof.
  intros HA Hu []. destruct HA.
  assert (drop n0 (log s') = drop n0 (log s) ++ [e]) as Ed.
  { rewrite ap_log0. by rewrite drop_app_le. }
  assert (forall c, local s' c <-> local s c) as Hl.
  { intros c. unfold local, isClientInCluster_s, getClusterIdFromClientId.
    by rewrite ap_clusters0, ap_cluster0. }
  split.
  - done.
  - by rewrite ap_index0, ap_log0, count_paxos_snoc, di_index0.
  - rewrite ap_log0, length_app. lia.
  - rewrite Ed, committed_tids_snoc, ap_applied0. by rewrite di_applied0.
  - intros c Hc%Hl. rewrite Ed, ledger_snoc, ap_balances0, di_ledger0 by done.
    rewrite <- di_applied0. lia.
  - intros c Hc%Hl Hv. destruct (di_db0 c Hc Hv) as [E Hr].
    destruct (decide (balance_of s' c = balance_of s c)) as [Eb|Eb].
    + rewrite Eb. split; [|done]. destruct (ap_db0 c) as [?|[? ?]]; congruence.
    + split; [|by apply ap_range0]. by destruct (ap_db0 c) as [?|[? ?]].
  - by rewrite ap_db_ballot0, ap_ballot0.
Qed.

Lemma dstep_inv base n0 s s' : dstep s s' -> ub s' = false ->
  DataInv base n0 s -> DataInv base n0 s'.
Proof.
  intros Hs Hu HI. pose proof (di_wal _ _ _ HI) as HW.
  destruct Hs as [s s' HE _|s b Hb|s r b Hr Hb|s r b Hr Hb|s t c|s t|s e He Ht].
  - by eapply DataInv_same.
  - by apply DataInv_ballot.
  - eapply DataInv_appends; [by apply prepare_appends|done..].
  - destruct (decide (tr_tid r ∈ balance_applied s)) as [Hin|Hin].
    + unfold commitTransaction. by rewrite bool_decide_true.
    + eapply DataInv_appends; [by apply commit_appends|done..].
  - destruct (decision_appends t c s HW) as [[HE _]|(e & _ & _ & _ & HA)].
    + by eapply DataInv_same.
    + by eapply DataInv_appends.
  - destruct (expire_appends t s HW) as [[HE _]|(e & _ & _ & _ & HA)].
    + by eapply DataInv_same.
    + by eapply DataInv_appends.
  - eapply DataInv_appends; [by apply sync_appends|done..].
Qed.

End storage.
