(* ===== verification/Batch.v ===== *)
(** * Batch: what a leader does with a batch of transfers

    [ServerImpl::onPrepareQuorum] and [ServerImpl::onAcceptQuorum]
    ([src/src/server/server.cc]) against a reference: the entries of a batch are taken
    in order of arrival, one that shares an account of the shard with an entry taken
    before it, or with a transaction in progress, is refused, and so is one its sender
    cannot pay.  The theorems: the leader takes exactly the entries of the reference;
    a round that one peer supports answers every client of its batch; and a batch never
    overdraws an account. *)

From S2P Require Import Prelude Text Types Utils Store Wal Server Calls Fixture Rounds EventLoop Storage.

(** ** The reference *)

Section reference.
Variable local : Z -> bool.
Variable funds : Z -> Z.

(** The accounts of the shard a transaction uses. *)
Definition sides (t : Transaction) : gset Z :=
  (if local (sender t) then {[ sender t ]} else ∅)
  ∪ (if local (receiver t) then {[ receiver t ]} else ∅).

Definition payable (t : Transaction) : bool :=
  negb (local (sender t)) || (amount t <=? funds (sender t)).

(** Each entry with the decision about it. *)
Fixpoint vet (locked : gset Z) (es : list BatchEntry) : list (BatchEntry * bool) :=
  match es with
  | [] => []
  | e :: es =>
    let t := tr_txn (request e) in
    if bool_decide (sides t ## locked) && payable t
    then (e, true) :: vet (locked ∪ sides t) es
    else (e, false) :: vet locked es
  end.
End reference.

Definition with_decision (b : bool) (ds : list (BatchEntry * bool)) : list BatchEntry :=
  (filter (fun d => d.2 = b) ds).*1.
Abbreviation taken := (with_decision true).
Abbreviation refused := (with_decision false).

Lemma with_decision_cons b b' e ds :
  with_decision b ((e, b') :: ds) = if bool_decide (b' = b) then e :: with_decision b ds
                                   else with_decision b ds.
Proof. unfold with_decision. rewrite filter_cons. simpl. by repeat case_decide; case_bool_decide. Qed.

Lemma vet_ext local local' funds funds' locked es :
  (forall i, local i = local' i) -> (forall i, funds i = funds' i) ->
  vet local funds locked es = vet local' funds' locked es.
Proof.
  intros El Ef. revert locked. induction es as [|e es IH]; intros locked; [done|]. simpl.
  unfold sides, payable. rewrite !El, Ef. by rewrite !IH.
Qed.

Lemma vet_entries local funds locked es : (vet local funds locked es).*1 = es.
Proof.
  revert locked. induction es as [|e es IH]; intros locked; [done|]. simpl.
  case_match; simpl; by rewrite IH.
Qed.

(** The entries taken are payable, use no locked account and share none. *)
Definition disjoint_sides (local : Z -> bool) (a b : BatchEntry) : Prop :=
  sides local (tr_txn (request a)) ## sides local (tr_txn (request b)).

Lemma vet_taken local funds locked es :
  let kept := taken (vet local funds locked es) in
  Forall (fun e => payable local funds (tr_txn (request e)) = true
                   /\ sides local (tr_txn (request e)) ## locked) kept
  /\ StronglySorted (disjoint_sides local) kept.
Proof.
  revert locked. induction es as [|e es IH]; intros locked; [by repeat constructor|]. simpl.
  case_bool_decide as Hd; simpl; [destruct (payable _ _ _) eqn:Hp|]; simpl;
    rewrite with_decision_cons; simpl; [|apply IH..].
  destruct (IH (locked ∪ sides local (tr_txn (request e)))) as [Hf Hs]. split.
  - constructor; [done|]. eapply Forall_impl; [exact Hf|]. intros e' [??]. split; [done|set_solver].
  - constructor; [done|]. eapply Forall_impl; [exact Hf|]. intros e' [? Hx]. unfold disjoint_sides.
    set_solver.
Qed.

(** ** Validation *)

Section batch.
Context {D : Type} `{KVStore D}.
Implicit Types s : ServerImpl D.

(** The answers to the transfers of clients, in order. *)
Definition answer_of (o : Output) : option (Z * TransferRes) :=
  match o with Reply c (TransferRes_ r) => Some (c, r) | _ => None end.
Definition answers s : list (Z * TransferRes) := omap answer_of (outs s).

Definition verdict_of (ack : bool) (e : BatchEntry) : Z * TransferRes :=
  (call e, mkTransferRes ack (tr_tid (request e))).

(** What validation and commitment leave alone. *)
Definition bframe s :=
  (cfg s, cluster_id s, server_id s, (promised_num s, stubs s, wal_openable (wal s)),
   (pending_ s, in_sync s, i_am_disconnected s)).

Lemma local_same s s' : cfg s' = cfg s -> cluster_id s' = cluster_id s ->
  isClientInCluster_s s' = isClientInCluster_s s.
Proof. unfold isClientInCluster_s. by intros -> ->. Qed.

Lemma answers_complete c a t s : awaits s c ->
  answers (completeTransfer c a t s) = answers s ++ [(c, mkTransferRes a t)].
Proof.
  intros [ty E]. unfold completeTransfer, finish. rewrite E. simpl. unfold answers. simpl.
  by rewrite omap_app.
Qed.

Lemma complete_same c a t s : let s' := completeTransfer c a t s in
  (bframe s', locks s', balances s', log s', balance_applied s', accept_num s')
  = (bframe s, locks s, balances s, log s, balance_applied s, accept_num s).
Proof. simpl. unfold completeTransfer, finish, bframe. by repeat case_match. Qed.

Lemma locked_sides e s :
  entry_locked e s = negb (bool_decide (sides (isClientInCluster_s s) (tr_txn (request e)) ## locks s)).
Proof.
  unfold entry_locked, sides. set (t := tr_txn (request e)).
  apply eq_true_iff_eq.
  rewrite orb_true_iff, !andb_true_iff, negb_true_iff, bool_decide_eq_false, !bool_decide_eq_true.
  destruct (isClientInCluster_s s (sender t)), (isClientInCluster_s s (receiver t));
    destruct (decide (sender t ∈ locks s)), (decide (receiver t ∈ locks s)); set_solver.
Qed.

Lemma funds_payable e s : entry_short_of_funds e s
  = negb (payable (isClientInCluster_s s) (balance_of s) (tr_txn (request e))).
Proof.
  unfold entry_short_of_funds, payable. rewrite negb_orb, negb_involutive. f_equal.
  by rewrite Z.leb_antisym, negb_involutive.
Qed.

(** The log entry a batch entry gets when it is validated. *)
Definition prepared_entry (b : Ballot) (e : BatchEntry) : list WALEntry :=
  if is_cross_shard e then [entry_of (request e) b CROSS PREPARED] else [].

Lemma prepare_same r b s : let s' := prepareTransaction r b s in
  (bframe s', locks s', balances s', answers s', balance_applied s', accept_num s')
  = (bframe s, locks s, balances s, answers s, balance_applied s, accept_num s)
  /\ log s' = log s ++ [entry_of r b CROSS PREPARED].
Proof.
  simpl. unfold prepareTransaction, wal_prepareTransaction, advance, check_int, flag_if, bframe, answers.
  destruct (wal_openable (wal s)) eqn:Ew; simpl; destruct (negb _); simpl; by rewrite ?Ew.
Qed.

Lemma acquire_locks t s :
  let s' := acquire_if_local (receiver t) (acquire_if_local (sender t) s) in
  locks s' = locks s ∪ sides (isClientInCluster_s s) t
  /\ (bframe s', balances s', answers s', balance_applied s', accept_num s', log s')
    = (bframe s, balances s, answers s, balance_applied s, accept_num s, log s).
Proof.
  simpl. unfold acquire_if_local, sides.
  destruct (isClientInCluster_s s (sender t)) eqn:E1.
  - change (isClientInCluster_s (acquire (sender t) s) (receiver t)) with (isClientInCluster_s s (receiver t)).
    case_match; (split; [|done]); simpl; set_solver.
  - case_match; (split; [|done]); simpl; set_solver.
Qed.

Ltac fields := split_and!; unfold bframe, verdict_of, balance_of in *; intros; congruence.

(** One entry. *)
Lemma validate_spec s k e : awaits s (call e) ->
  let t := tr_txn (request e) in
  let ok := bool_decide (sides (isClientInCluster_s s) t ## locks s)
            && payable (isClientInCluster_s s) (balance_of s) t in
  exists s', validate_entry (s, k) e = (s', if ok then k ++ [e] else k)
  /\ bframe s' = bframe s /\ (forall i, balance_of s' i = balance_of s i)
  /\ balance_applied s' = balance_applied s
  /\ locks s' = (if ok then locks s ∪ sides (isClientInCluster_s s) t else locks s)
  /\ answers s' = answers s ++ (if ok then [] else [verdict_of false e])
  /\ log s' = log s ++ (if ok then prepared_entry (promised_num s) e else []).
Proof.
  intros Ha t ok. unfold validate_entry. rewrite locked_sides. fold t.
  unfold ok. case_bool_decide as Hd; simpl.
  2:{ pose proof (complete_same (call e) false (tr_tid (request e)) s) as E. simpl in E. simplify_eq.
      eexists. split; [done|]. rewrite answers_complete, app_nil_r by done.
      fields. }
  set (s1 := if isClientInCluster_s s (sender t) then touch_balance (sender t) s else s).
  assert ((bframe s1, locks s1, answers s1, log s1, balance_applied s1, promised_num s1, calls s1)
    = (bframe s, locks s, answers s, log s, balance_applied s, promised_num s, calls s)) as E1
    by (unfold s1; by case_match).
  assert (forall i, balance_of s1 i = balance_of s i) as Eb.
  { intros i. unfold s1. case_match; [|done]. unfold touch_balance, balance_of. simpl.
    destruct (decide (i = sender t)) as [->|]; [by rewrite lookup_insert_eq|by rewrite lookup_insert_ne]. }
  clearbody s1. simplify_eq. rewrite funds_payable. fold t.
  assert (payable (isClientInCluster_s s1) (balance_of s1) t
          = payable (isClientInCluster_s s) (balance_of s) t) as ->.
  { unfold payable. by rewrite Eb, (local_same s s1). }
  destruct (payable _ _ t); simpl.
  2:{ pose proof (complete_same (call e) false (tr_tid (request e)) s1) as E. simpl in E. simplify_eq.
      eexists. split; [done|].
      rewrite answers_complete, app_nil_r by (destruct Ha as [ty Hty]; exists ty; congruence).
      fields. }
  destruct (acquire_locks t s1) as [El E2].
  set (s2 := acquire_if_local (receiver t) (acquire_if_local (sender t) s1)) in *. clearbody s2.
  simplify_eq. assert (forall i, balance_of s2 i = balance_of s i) as Eb2.
  { intros i. rewrite <- Eb. unfold balance_of. congruence. }
  assert (promised_num s2 = promised_num s) as Ep by (unfold bframe in *; congruence).
  rewrite (local_same s s1) in El by done. rewrite Ep. unfold prepared_entry.
  destruct (is_cross_shard e).
  - destruct (prepare_same (request e) (promised_num s) s2) as [E3 E4].
    set (s3 := prepareTransaction _ _ s2) in *. clearbody s3. simplify_eq.
    eexists. split; [done|]. rewrite app_nil_r. fields.
  - eexists. split; [done|]. rewrite !app_nil_r. fields.
Qed.

Lemma validate_awaits s k e c : awaits s (call e) -> awaits s c -> c <> call e ->
  awaits (validate_entry (s, k) e).1 c.
Proof.
  intros He Hc Hne. destruct (validate_cases s k e) as [(g & -> & Rg)|(g & -> & Rg)]; simpl.
  - destruct (complete_spec (call e) false (tr_tid (request e)) g) as (_ & Ea & _);
      [by apply (rview_awaits s g)|]. apply Ea. by rewrite (rview_awaits s g).
  - by apply (rview_awaits s g).
Qed.

(** The whole batch. *)
Lemma validate_all l s k : NoDup (call <$> l) -> (forall c, c ∈ call <$> l -> awaits s c) ->
  let ds := vet (isClientInCluster_s s) (balance_of s) (locks s) l in
  exists s', foldl validate_entry (s, k) l = (s', k ++ taken ds)
  /\ bframe s' = bframe s /\ (forall i, balance_of s' i = balance_of s i)
  /\ balance_applied s' = balance_applied s
  /\ answers s' = answers s ++ (verdict_of false <$> refused ds)
  /\ log s' = log s ++ concat (prepared_entry (promised_num s) <$> taken ds).
Proof.
  revert s k. induction l as [|e l IH]; intros s k Hnd Haw; cbn [foldl vet].
  { exists s. unfold with_decision. simpl. by rewrite !app_nil_r. }
  apply NoDup_cons in Hnd as [Hne Hnd].
  assert (awaits s (call e)) as He by (apply Haw; left).
  destruct (validate_spec s k e He) as (s1 & E1 & E2 & E3 & E4 & E5 & E6 & E7).
  set (ok := bool_decide _ && _) in *. rewrite E1.
  assert (forall c, c ∈ call <$> l -> awaits s1 c) as Haw1.
  { intros c Hc. pose proof (validate_awaits s k e c He) as Hw. rewrite E1 in Hw.
    apply Hw; [apply Haw; by right|by intros ->]. }
  destruct (IH s1 (if ok then k ++ [e] else k) Hnd Haw1) as (s' & F1 & F2 & F3 & F4 & F5 & F6).
  assert (vet (isClientInCluster_s s1) (balance_of s1) (locks s1) l
    = vet (isClientInCluster_s s) (balance_of s) (locks s1) l) as Ev.
  { apply vet_ext; [|done]. intros i. rewrite (local_same s s1); unfold bframe in E2; congruence. }
  assert (promised_num s1 = promised_num s) as Ep by (unfold bframe in E2; congruence).
  rewrite Ev, E5, ?Ep in *. exists s'. rewrite F1.
  destruct ok; simpl; rewrite !with_decision_cons; simpl; rewrite F5, F6, E6, E7, F2, E2, F4;
    rewrite ?app_nil_r, <- ?app_assoc; (split_and!; [done|done| |done|done|done]); congruence.
Qed.

(** ** Commitment *)

(** The entries that move money: transfers within the shard, the first of each number. *)
Fixpoint fresh_commits (seen : gset Z) (es : list BatchEntry) : list BatchEntry :=
  match es with
  | [] => []
  | e :: es =>
    if is_cross_shard e || bool_decide (tr_tid (request e) ∈ seen) then fresh_commits seen es
    else e :: fresh_commits ({[ tr_tid (request e) ]} ∪ seen) es
  end.

Definition committed_entry (b : Ballot) (e : BatchEntry) : WALEntry :=
  entry_of (request e) b INTRA COMMITTED.

Definition effect (es : list BatchEntry) (i : Z) : Z :=
  foldr (fun e a => delta (committed_entry default_ballot e) i + a) 0 es.

Lemma add_balance_same c d s : let s' := add_balance c d s in
  (bframe s', accept_num s', answers s', calls s', balance_applied s', log s')
  = (bframe s, accept_num s, answers s, calls s, balance_applied s, log s)
  /\ forall i, balance_of s' i = balance_of s i + if decide (i = c) then d else 0.
Proof.
  split; [|intros; apply balance_of_add]. unfold add_balance, check_int, flag_if. by case_match.
Qed.

Lemma advance_same b s : let s' := advance b s in
  (bframe s', accept_num s', answers s', calls s', balance_applied s', log s')
  = (bframe s, accept_num s, answers s, calls s, balance_applied s, log s)
  /\ balances s' = balances s.
Proof. split; unfold advance, check_int, flag_if; by case_match. Qed.

Lemma commit_same r b s : wal_openable (wal s) = true ->
  let s' := commitTransaction r b s in
  let fresh := bool_decide (tr_tid r ∉ balance_applied s) in
  (bframe s', accept_num s', answers s', calls s') = (bframe s, accept_num s, answers s, calls s)
  /\ balance_applied s' = (if fresh then {[ tr_tid r ]} ∪ balance_applied s else balance_applied s)
  /\ log s' = log s ++ (if fresh then [entry_of r b INTRA COMMITTED] else [])
  /\ (forall i, balance_of s' i = balance_of s i
                + if fresh then delta (entry_of r default_ballot INTRA COMMITTED) i else 0).
Proof.
  intros Hw. simpl. unfold commitTransaction. rewrite bool_decide_not.
  case_bool_decide as Ht; simpl.
  { split_and!; [done|done|by rewrite app_nil_r|]. intros i. lia. }
  unfold wal_commitTransaction.
  match goal with |- context [wal ?x] => change (wal x) with (wal s) end. rewrite Hw.
  set (e := entry_of r b INTRA COMMITTED).
  match goal with |- context [add_balance (sender (txn e)) _ ?x] => set (s1 := x) end.
  destruct (add_balance_same (sender (txn e)) (- amount (txn e)) s1) as [E1 F1].
  set (s2 := add_balance _ _ s1) in *.
  destruct (add_balance_same (receiver (txn e)) (amount (txn e)) s2) as [E2 F2].
  set (s3 := add_balance _ _ s2) in *.
  destruct (advance_same b (store_balance (receiver (txn e)) (store_balance (sender (txn e)) s3))) as [E3 F3].
  set (s4 := advance _ _) in *. clearbody s4. clearbody s3. clearbody s2.
  assert (forall i, balance_of s4 i = balance_of s i + delta e i) as Eb.
  { intros i. transitivity (balance_of s3 i); [unfold balance_of; by rewrite F3|].
    rewrite F2, F1. change (balance_of s1 i) with (balance_of s i). unfold delta.
    repeat case_decide; lia. }
  change (bframe (store_balance _ _)) with (bframe s3) in E3.
  change (accept_num (store_balance _ _)) with (accept_num s3) in E3.
  change (answers (store_balance _ _)) with (answers s3) in E3.
  change (calls (store_balance _ _)) with (calls s3) in E3.
  change (balance_applied (store_balance _ _)) with (balance_applied s3) in E3.
  change (log (store_balance _ _)) with (log s3) in E3.
  rewrite E2, E1 in E3. simplify_eq. split_and!; [|done|done|done]. unfold bframe in *. simpl in *.
  change (answers s1) with (answers s) in *. congruence.
Qed.

Lemma complete_calls c a t s c' : awaits s c' -> awaits s c -> c' <> c ->
  awaits (completeTransfer c a t s) c'.
Proof. intros Hc' Hc Hne. destruct (complete_spec c a t s Hc) as (_ & Ea & _). by apply Ea. Qed.

Lemma commit_entry_spec s e : awaits s (call e) -> wal_openable (wal s) = true ->
  let s' := commit_entry s e in
  let now := fresh_commits (balance_applied s) [e] in
  (bframe s', accept_num s') = (bframe s, accept_num s)
  /\ (forall c, awaits s c -> c <> call e -> awaits s' c)
  /\ answers s' = answers s ++ [verdict_of true e]
  /\ balance_applied s' = list_to_set (tr_tid ∘ request <$> now) ∪ balance_applied s
  /\ log s' = log s ++ (committed_entry (accept_num s) <$> now)
  /\ (forall i, balance_of s' i = balance_of s i + effect now i).
Proof.
  intros Ha Hw. cbv zeta. unfold commit_entry.
  match goal with |- context [completeTransfer _ _ _ ?x] => set (s1 := x) end.
  assert ((bframe s1, accept_num s1, answers s1, calls s1) = (bframe s, accept_num s, answers s, calls s)
    /\ balance_applied s1 = list_to_set (tr_tid ∘ request <$> fresh_commits (balance_applied s) [e]) ∪ balance_applied s
    /\ log s1 = log s ++ (committed_entry (accept_num s) <$> fresh_commits (balance_applied s) [e])
    /\ (forall i, balance_of s1 i = balance_of s i + effect (fresh_commits (balance_applied s) [e]) i))
    as (E1 & E2 & E3 & E4).
  { unfold s1. simpl. destruct (is_cross_shard e); simpl.
    { split_and!; [done|set_solver|by rewrite app_nil_r|intros; lia]. }
    set (s0 := release _ (release _ s)).
    destruct (commit_same (request e) (accept_num s0) s0 Hw) as (F1 & F2 & F3 & F4).
    change (balance_applied s0) with (balance_applied s) in *.
    rewrite bool_decide_not in *. case_bool_decide; simpl in *.
    - split_and!; [done|set_solver|done|]. intros i. rewrite F4. reflexivity.
    - split_and!; [done|rewrite F2; set_solver|done|]. intros i. rewrite F4, Z.add_0_r. reflexivity. }
  clearbody s1. assert (forall c, awaits s c -> awaits s1 c) as Hc.
  { intros c [ty Hty]. exists ty. congruence. }
  pose proof (complete_same (call e) true (tr_tid (request e)) s1) as E.
  pose proof (answers_complete (call e) true (tr_tid (request e)) s1 (Hc _ Ha)) as Ea.
  pose proof (fun c Hx => complete_calls (call e) true (tr_tid (request e)) s1 c Hx (Hc _ Ha)) as Hk.
  set (s2 := completeTransfer _ _ _ s1) in *. clearbody s2. simpl in E.
  split_and!; [congruence|auto|unfold verdict_of; congruence|congruence|congruence|].
  intros i. rewrite <- E4. unfold balance_of. congruence.
Qed.

Lemma fresh_commits_cons seen e es :
  fresh_commits seen (e :: es)
  = fresh_commits seen [e]
    ++ fresh_commits (list_to_set (tr_tid ∘ request <$> fresh_commits seen [e]) ∪ seen) es.
Proof.
  simpl. case_match; simpl.
  - f_equal. set_solver.
  - do 2 f_equal. set_solver.
Qed.

Lemma effect_app a b i : effect (a ++ b) i = effect a i + effect b i.
Proof. unfold effect. induction a as [|e a IH]; simpl; [done|]. rewrite IH. lia. Qed.

Lemma commit_all l s : NoDup (call <$> l) -> (forall c, c ∈ call <$> l -> awaits s c) ->
  wal_openable (wal s) = true ->
  let s' := foldl commit_entry s l in
  let now := fresh_commits (balance_applied s) l in
  (bframe s', accept_num s') = (bframe s, accept_num s)
  /\ answers s' = answers s ++ (verdict_of true <$> l)
  /\ log s' = log s ++ (committed_entry (accept_num s) <$> now)
  /\ (forall i, balance_of s' i = balance_of s i + effect now i).
Proof.
  revert s. induction l as [|e l IH]; intros s Hnd Haw Hw; cbn [foldl].
  { simpl. rewrite !app_nil_r. split_and!; [done..|]. intros i. unfold effect. simpl. lia. }
  apply NoDup_cons in Hnd as [Hne Hnd].
  assert (awaits s (call e)) as He by (apply Haw; left).
  destruct (commit_entry_spec s e He Hw) as (E1 & E2 & E3 & E4 & E5 & E6).
  set (s1 := commit_entry s e) in *. clearbody s1.
  destruct (IH s1 Hnd) as (F1 & F2 & F3 & F4).
  { intros c Hc. apply E2; [apply Haw; by right|by intros ->]. }
  { unfold bframe in E1. congruence. }
  assert (accept_num s1 = accept_num s) as En by congruence.
  cbv zeta. rewrite (fresh_commits_cons (balance_applied s) e l), fmap_app, <- E4.
  split_and!; [congruence|by rewrite F2, E3, <- app_assoc|by rewrite F3, E5, En, app_assoc|].
  intros i. rewrite F4, E6, effect_app. lia.
Qed.

(** ** A round *)

Lemma broadcast_same f s : (forall id, answer_of (f id) = None) -> let s' := broadcast f s in
  answers s' = answers s /\ log s' = log s /\ balances s' = balances s
  /\ current_ s' = current_ s /\ await_accept_decision s' = await_accept_decision s.
Proof.
  intros Hf. simpl. unfold broadcast. generalize (stubs s). intros l. revert s.
  induction l as [|id l IH]; intros s; [done|]. simpl. destruct (IH (emit (f id) s)) as (-> & -> & -> & -> & ->).
  split_and!; try done. unfold answers. simpl. rewrite omap_app. simpl. by rewrite Hf, app_nil_r.
Qed.

Lemma broadcast_frame f s : let s' := broadcast f s in
  (bframe s', accept_num s', accept_successes s', balance_applied s', calls s')
  = (bframe s, accept_num s, accept_successes s, balance_applied s, calls s).
Proof.
  simpl. unfold broadcast. generalize (stubs s). intros l. revert s.
  induction l as [|id l IH]; intros s; [done|]. simpl. by rewrite IH.
Qed.

(** Starting the next round answers nobody and moves no money. *)
Lemma reissue_same s : let s' := reissuePrepareForCurrent s in
  answers s' = answers s /\ log s' = log s /\ balances s' = balances s
  /\ current_ s' = current_ s /\ await_accept_decision s' = false.
Proof.
  simpl. unfold reissuePrepareForCurrent.
  match goal with |- context [broadcast ?mk ?x] =>
    pose proof (broadcast_same mk x (fun _ => eq_refl)) as E; cbv zeta in E; revert E;
    generalize (broadcast mk x) end.
  intros s' (-> & -> & -> & -> & ->). unfold check_int, flag_if. by case_match.
Qed.

Lemma finish_same s : let s' := finishRound s in
  answers s' = answers s /\ log s' = log s /\ balances s' = balances s
  /\ current_ s' = (if in_sync s then [] else pending_ s) /\ await_accept_decision s' = false.
Proof.
  simpl. unfold finishRound, maybeStartRound. simpl. destruct (in_sync s); [done|].
  case_bool_decide as Hp; simpl; [by rewrite Hp|]. unfold startRound.
  match goal with |- context [reissuePrepareForCurrent ?x] => set (s1 := x) end.
  destruct (reissue_same s1) as (E1 & E2 & E3 & E4 & E5). by rewrite E1, E2, E3, E4, E5.
Qed.

(** A promise, and a vote, for the ballot of the round. *)
Definition promises s (r : PrepareRes) : Prop :=
  pr_ack r = true /\ num (pr_ballot r) = num (promised_num s)
  /\ ballot_server (pr_ballot r) = server_id s
  /\ pr_latest_ballot_num r = None /\ pr_paxos_index r = None.

Definition votes_for s (r : AcceptRes) : Prop :=
  ar_ack r = true /\ num (ar_ballot r) = num (promised_num s)
  /\ ballot_server (ar_ballot r) = server_id s.

(** The decisions about the batch of a round. *)
Definition decided s : list (BatchEntry * bool) :=
  vet (isClientInCluster_s s) (balance_of s) (locks s) (current_ s).

Lemma prepare_reply_quorum s q r : RoundInv s -> await_prepare_decision s = true -> promises s r ->
  handlePrepareReply OK q r s = onPrepareQuorum (s <| prepare_successes ::= Z.succ |>).
Proof.
  intros HR Hp (Ha & Hn & Hs & Hl & Hi). unfold handlePrepareReply. rewrite Hp. simpl.
  rewrite Hn, Hs, !Z.eqb_refl, Ha, Hl, Hi. simpl. unfold prepare_decide. simpl.
  destruct (ri_prepare_count s (ri_phases s HR) Hp) as [-> _]. done.
Qed.

Lemma parked_current s : ParkInv s ->
  NoDup (call <$> current_ s) /\ (forall c, c ∈ call <$> current_ s -> awaits s c).
Proof.
  intros [Hnd Haw _]. unfold parked in *. rewrite fmap_app in *.
  apply NoDup_app in Hnd as (Hn & _ & _). split; [done|]. intros c Hc. apply Haw.
  apply elem_of_app. by left.
Qed.

Lemma prepare_quorum_spec s : ParkInv s ->
  let s' := onPrepareQuorum s in
  answers s' = answers s ++ (verdict_of false <$> refused (decided s))
  /\ log s' = log s ++ concat (prepared_entry (promised_num s) <$> taken (decided s))
  /\ (forall i, balance_of s' i = balance_of s i)
  /\ if decide (taken (decided s) = [])
     then current_ s' = (if in_sync s then [] else pending_ s) /\ await_accept_decision s' = false
     else current_ s' = taken (decided s) /\ await_accept_decision s' = true
          /\ accept_successes s' = 1 /\ accept_num s' = promised_num s /\ bframe s' = bframe s
          /\ balance_applied s' = balance_applied s.
Proof.
  intros Hpk. destruct (parked_current s Hpk) as [Hnd Haw]. cbv zeta. unfold onPrepareQuorum.
  set (s0 := s <| await_prepare_decision := false |>).
  destruct (validate_all (current_ s0) s0 [] Hnd Haw) as (s1 & E1 & E2 & E3 & E4 & E5 & E6).
  change (vet _ _ _ _) with (decided s) in E1, E5, E6.
  change (answers s0) with (answers s) in E5. change (log s0) with (log s) in E6.
  change (promised_num s0) with (promised_num s) in E6.
  change (balance_applied s0) with (balance_applied s) in E4.
  change (bframe s0) with (bframe s) in E2. change (current_ s0) with (current_ s) in E1.
  assert (forall i, balance_of s1 i = balance_of s i) as Eb by exact E3. clear E3.
  change (current_ s0) with (current_ s). rewrite E1. simpl.
  destruct (taken (decided s)) as [|e kept] eqn:Ek.
  - match goal with |- context [finishRound ?x] => destruct (finish_same x) as (F1 & F2 & F3 & F4 & F5) end.
    rewrite F1, F2, F4, F5. simpl. split_and!; [done|done|..|done].
    + intros i. rewrite <- Eb. unfold balance_of. rewrite F3. done.
    + assert (in_sync s1 = in_sync s /\ pending_ s1 = pending_ s) as [-> ->]
        by (unfold bframe in E2; split; congruence). done.
  - match goal with |- context [broadcast ?mk ?x] =>
      pose proof (broadcast_same mk x (fun _ => eq_refl)) as E; cbv zeta in E;
      pose proof (broadcast_frame mk x) as F; revert E F; generalize (broadcast mk x) end.
    intros s' (-> & -> & Ebal & -> & ->) F. simpl in *. split_and!; try done.
    1: (intros i; rewrite <- Eb; unfold balance_of; by rewrite Ebal).
    all: unfold bframe in *; simpl in F; congruence.
Qed.

Lemma accept_quorum_spec s : ParkInv s -> wal_openable (wal s) = true ->
  let s' := onAcceptQuorum s in
  let now := fresh_commits (balance_applied s) (current_ s) in
  answers s' = answers s ++ (verdict_of true <$> current_ s)
  /\ log s' = log s ++ (committed_entry (accept_num s) <$> now)
  /\ (forall i, balance_of s' i = balance_of s i + effect now i)
  /\ current_ s' = (if in_sync s then [] else pending_ s).
Proof.
  intros Hpk Hw. destruct (parked_current s Hpk) as [Hnd Haw]. cbv zeta. unfold onAcceptQuorum.
  match goal with |- context [foldl commit_entry (broadcast ?mk ?x) _] =>
    pose proof (broadcast_same mk x (fun _ => eq_refl)) as E; cbv zeta in E;
    pose proof (broadcast_frame mk x) as F; revert E F; generalize (broadcast mk x) end.
  intros s1 (E1 & E2 & E3 & E4 & _) F. unfold bframe in F. simpl in *.
  change (answers (set _ _ _)) with (answers s) in E1.
  destruct (commit_all (current_ s) s1 Hnd) as (G1 & G2 & G3 & G4).
  { intros c Hc. destruct (Haw c Hc) as [ty Hty]. exists ty. congruence. }
  { congruence. }
  rewrite E4. destruct (finish_same (foldl commit_entry s1 (current_ s))) as (H1 & H2 & H3 & H4 & _).
  assert (balance_applied s1 = balance_applied s /\ accept_num s1 = accept_num s
          /\ in_sync (foldl commit_entry s1 (current_ s)) = in_sync s
          /\ pending_ (foldl commit_entry s1 (current_ s)) = pending_ s) as (K1 & K2 & K3 & K4)
    by (unfold bframe in *; simplify_eq; split_and!; congruence).
  rewrite H1, H2, H4, G2, G3, K1, K2, K3, K4, E1, E2. split_and!; try done.
  intros i. transitivity (balance_of (foldl commit_entry s1 (current_ s)) i).
  { unfold balance_of. by rewrite H3. }
  rewrite G4, K1. f_equal. unfold balance_of. by rewrite E3.
Qed.

(** What a round leaves when the replies of one peer support it. *)
Lemma round_result s pq pr aq ar : RoundInv s -> await_prepare_decision s = true ->
  promises s pr -> votes_for s ar -> wal_openable (wal s) = true ->
  let s' := handleAcceptReply OK aq ar (handlePrepareReply OK pq pr s) in
  let now := fresh_commits (balance_applied s) (taken (decided s)) in
  answers s' = answers s ++ (verdict_of false <$> refused (decided s))
                         ++ (verdict_of true <$> taken (decided s))
  /\ log s' = log s ++ concat (prepared_entry (promised_num s) <$> taken (decided s))
                     ++ (committed_entry (promised_num s) <$> now)
  /\ (forall i, balance_of s' i = balance_of s i + effect now i)
  /\ current_ s' = (if in_sync s then [] else pending_ s).
Proof.
  intros HR Hp Hpr (Ha & Hn & Hs) Hw. cbv zeta. rewrite (prepare_reply_quorum s pq pr HR Hp Hpr).
  set (s0 := s <| prepare_successes ::= Z.succ |>).
  assert (ParkInv s0) as Hpk by (by eapply ParkInv_weaken; [exact (ri_calls s HR)|..]).
  destruct (prepare_quorum_spec s0 Hpk) as (E1 & E2 & E3 & E4).
  destruct (prepare_quorum_inv s0 Hpk) as [HR1 _]; [exact (ri_prepare s (ri_phases s HR) Hp)|].
  change (decided s0) with (decided s) in *.
  set (s1 := onPrepareQuorum s0) in *. clearbody s1. unfold handleAcceptReply.
  destruct (decide (taken (decided s) = [])) as [Ek|Ek].
  - destruct E4 as [E4 E5]. rewrite E5. simpl. rewrite E1, E2, E4, Ek. simpl.
    rewrite !app_nil_r. split_and!; [done|done| |done].
    intros i. rewrite E3. unfold effect. simpl. by rewrite Z.add_0_r.
  - destruct E4 as (E4 & E5 & E6 & E7 & E8 & E9). rewrite E5. simpl.
    assert (server_id s1 = server_id s /\ wal_openable (wal s1) = true
            /\ in_sync s1 = in_sync s /\ pending_ s1 = pending_ s) as (F1 & F2 & F3 & F4)
      by (unfold bframe in E8; simpl in E8; split_and!; congruence).
    rewrite Hn, Hs, E7, F1. change (promised_num s0) with (promised_num s).
    rewrite !Z.eqb_refl, Ha. simpl. unfold accept_decide. simpl. rewrite E6. simpl.
    set (s2 := s1 <| accept_successes ::= Z.succ |>).
    destruct (accept_quorum_spec s2) as (G1 & G2 & G3 & G4); [|done|].
    { by eapply ParkInv_weaken; [exact (ri_calls s1 HR1)|..]. }
    change (answers s2) with (answers s1) in G1. change (log s2) with (log s1) in G2.
    change (current_ s2) with (current_ s1) in *. change (accept_num s2) with (accept_num s1) in G2.
    change (balance_applied s2) with (balance_applied s1) in *.
    change (in_sync s2) with (in_sync s1) in G4. change (pending_ s2) with (pending_ s1) in G4.
    rewrite E4, E9 in *. change (balance_applied s0) with (balance_applied s) in *.
    rewrite G1, G2, G4, E1, E2, E7, F3, F4, <- !app_assoc. split_and!; [done|done| |done].
    intros i. rewrite G3. f_equal. exact (E3 i).
Qed.

(** ** No overdraft *)

Lemma fresh_sublist seen es : fresh_commits seen es `sublist_of` es.
Proof.
  revert seen. induction es as [|e es IH]; intros seen; [constructor|]. simpl.
  case_match; by constructor.
Qed.

Lemma sublist_Forall {A} (P : A -> Prop) l k : l `sublist_of` k -> Forall P k -> Forall P l.
Proof.
  intros Hs Hk. rewrite Forall_forall in *. intros x Hx. apply Hk. by eapply elem_of_sublist.
Qed.

Lemma sublist_sorted {A} (R : A -> A -> Prop) l k : l `sublist_of` k -> StronglySorted R k ->
  StronglySorted R l.
Proof.
  induction 1 as [|x l k Hs IH|x l k Hs IH]; [done|..]; intros [Hk Hx]%StronglySorted_inv; [|auto].
  constructor; [auto|]. by eapply sublist_Forall.
Qed.

Lemma effect_disjoint local e es i : StronglySorted (disjoint_sides local) (e :: es) ->
  local i = true -> i ∈ sides local (tr_txn (request e)) -> effect es i = 0.
Proof.
  intros Hs%StronglySorted_inv Hi Hin. destruct Hs as [_ Hs]. unfold effect.
  induction Hs as [|e' es Hd Hs IH]; [done|]. simpl. rewrite IH.
  unfold disjoint_sides, sides in *. unfold delta. simpl.
  destruct (decide (i = receiver (tr_txn (request e')))) as [E|_].
  { exfalso. apply (Hd i Hin). rewrite <- E, Hi. set_solver. }
  destruct (decide (i = sender (tr_txn (request e')))) as [E|_]; [|lia].
  exfalso. apply (Hd i Hin). rewrite <- E, Hi. set_solver.
Qed.

Lemma effect_covered local funds es i : StronglySorted (disjoint_sides local) es ->
  Forall (fun e => payable local funds (tr_txn (request e)) = true /\ 0 <= amount (tr_txn (request e))) es ->
  local i = true -> 0 <= funds i -> 0 <= funds i + effect es i.
Proof.
  intros Hs Hf Hi H0. induction es as [|e es IH]; [unfold effect; simpl; lia|].
  apply Forall_cons in Hf as [[Hp Ha] Hf]. change (effect (e :: es) i) with
    (delta (committed_entry default_ballot e) i + effect es i).
  destruct (decide (i ∈ sides local (tr_txn (request e)))) as [Hin|Hout].
  - rewrite (effect_disjoint local e es i Hs Hi Hin). unfold delta, payable in *. simpl.
    repeat case_decide; subst; lia.
  - apply StronglySorted_inv in Hs as [Hs _]. specialize (IH Hs Hf).
    unfold sides in Hout. unfold delta. simpl. repeat case_decide; subst; try lia;
      rewrite Hi in Hout; set_solver.
Qed.

(** C10. A round that a peer supports ends and answers every client of its batch: in any
    state a started server reaches with a round that waits for promises, when a promise
    and then a vote for the ballot of the round arrive, each entry of the batch has been
    answered exactly once.  The entries refused are those the reference refuses: they use
    an account of the shard that is locked or used by an earlier entry, or their sender
    lacks the money.  The others are accepted; the log has grown by one prepared entry for
    each accepted transfer between shards and one committed entry for each new accepted
    transfer within the shard, whose amounts have been moved; and the clients that waited
    in the meantime are in the next round. *)
Theorem round_completes c id name w d s0 ps pq pr aq ar :
  start (new_server c id name w d) = Some s0 -> polls_ok ps (listen s0) ->
  let s := HandleRPCs ps s0 in
  await_prepare_decision s = true -> promises s pr -> votes_for s ar -> wal_openable (wal s) = true ->
  let s' := handleAcceptReply OK aq ar (handlePrepareReply OK pq pr s) in
  let ds := decided s in
  let now := fresh_commits (balance_applied s) (taken ds) in
  ds.*1 = current_ s
  /\ answers s' = answers s ++ (verdict_of false <$> refused ds) ++ (verdict_of true <$> taken ds)
  /\ log s' = log s ++ concat (prepared_entry (promised_num s) <$> taken ds)
                     ++ (committed_entry (promised_num s) <$> now)
  /\ (forall i, balance_of s' i = balance_of s i + effect now i)
  /\ current_ s' = (if in_sync s then [] else pending_ s).
Proof.
  intros Hs Hp s Ha Hpr Hv Hw. split; [apply vet_entries|]. apply round_result; try done.
  by eapply served_inv; [apply new_server_idle|..].
Qed.

(** C11. A batch overdraws no account: when the amounts of the batch of a round are not
    negative and no account of the shard is below zero, none is after the round, although
    the entries are validated one by one before any of them is applied. *)
Theorem no_overdraft c id name w d s0 ps pq pr aq ar :
  start (new_server c id name w d) = Some s0 -> polls_ok ps (listen s0) ->
  let s := HandleRPCs ps s0 in
  await_prepare_decision s = true -> promises s pr -> votes_for s ar -> wal_openable (wal s) = true ->
  Forall (fun e => 0 <= amount (tr_txn (request e))) (current_ s) ->
  (forall i, isClientInCluster_s s i = true -> 0 <= balance_of s i) ->
  let s' := handleAcceptReply OK aq ar (handlePrepareReply OK pq pr s) in
  forall i, isClientInCluster_s s i = true -> 0 <= balance_of s' i.
Proof.
  intros Hs Hp s Ha Hpr Hv Hw Hamt Hpos s' i Hi.
  destruct (round_result s pq pr aq ar) as (_ & _ & Eb & _); try done.
  { by eapply served_inv; [apply new_server_idle|..]. }
  unfold s'. rewrite Eb. apply (effect_covered (isClientInCluster_s s)); [| |done|auto].
  - eapply sublist_sorted; [apply fresh_sublist|]. apply vet_taken.
  - eapply sublist_Forall; [apply fresh_sublist|]. apply Forall_and. split.
    + eapply Forall_impl; [apply vet_taken|]. by intros e [? _].
    + apply Forall_forall. intros e He. rewrite Forall_forall in Hamt. apply Hamt.
      rewrite <- (vet_entries (isClientInCluster_s s) (balance_of s) (locks s) (current_ s)).
      unfold with_decision in He. apply list_elem_of_fmap in He as ([e' b] & -> & He).
      apply list_elem_of_filter in He as [_ He]. apply list_elem_of_fmap. by exists (e', b).
Qed.

End batch.

(** ** A round with a conflict

    Account 1 sends 4 units to account 2; two more transfers, which arrive while that
    round runs, are the next batch: the second of them uses account 1 again. *)
Definition second_transfer (t : Z) : Request :=
  no_request <| transferReq := mkTransferReq (mkTransaction 1 3 6) t |>.

Definition conflict_run : list Poll :=
  [got 3 (no_request <| transferReq := transfer_1_2 |>); got 11 (second_transfer 8);
   got 12 (second_transfer 9);
   answer (prepare_acked (mkBallot 1 1)); answer (accept_acked (mkBallot 1 1))].

Lemma conflict_run_ok : polls_ok conflict_run (listen (started 1)).
Proof.
  repeat split; try exact I; exists TRANSFER; left; vm_compute; reflexivity.
Qed.

Definition second_round : server := HandleRPCs conflict_run (started 1).

Lemma second_round_facts :
  await_prepare_decision second_round && wal_openable (wal second_round)
  && (num (promised_num second_round) =? 2) && (server_id second_round =? 1)
  && bool_decide ((call <$> current_ second_round) = [11; 12])
  && bool_decide ((decided second_round).*2 = [true; false])
  && (balance_of second_round 1 =? 6)
  && bool_decide (Forall (fun e => 0 <= amount (tr_txn (request e))) (current_ second_round)) = true.
Proof. vm_compute. reflexivity. Qed.

Lemma second_round_balances i :
  isClientInCluster_s second_round i = true -> 0 <= balance_of second_round i.
Proof.
  intros _. assert (map_Forall (fun _ b => 0 <= b) (balances second_round)) as Hb.
  { apply (bool_decide_unpack _). vm_compute. exact I. }
  unfold balance_of. destruct (balances second_round !! i) as [b|] eqn:E; [|done].
  exact (Hb i b E).
Qed.

Lemma second_round_replies :
  promises second_round (mkPrepareRes true (mkBallot 2 1) None [] None None None)
  /\ votes_for second_round (mkAcceptRes true (mkBallot 2 1)).
Proof.
  pose proof second_round_facts as F. revert F. generalize second_round. intros s F.
  rewrite !andb_true_iff in F. destruct F as (((((((_ & _) & Fn) & Fi) & _) & _) & _) & _).
  apply Z.eqb_eq in Fn, Fi. unfold promises, votes_for. simpl. by rewrite Fn, Fi.
Qed.

Lemma round_completes_witness :
  let s' := handleAcceptReply OK (mkAcceptReq no_ballot []) (mkAcceptRes true (mkBallot 2 1))
    (handlePrepareReply OK (mkPrepareReq no_ballot 0)
       (mkPrepareRes true (mkBallot 2 1) None [] None None None) second_round) in
  exists e1 e2, current_ second_round = [e1; e2] /\ call e1 = 11 /\ call e2 = 12
  /\ answers s' = answers second_round ++ [verdict_of false e2; verdict_of true e1].
Proof.
  pose proof (fun pq pr aq ar => round_completes deployment 1 (server_name_of 1) (mkWAL None true ∅) ∅ (started 1) conflict_run
    pq pr aq ar started_1 conflict_run_ok) as H.
  fold second_round in H. pose proof second_round_facts as F. destruct second_round_replies as [Hp Hv].
  revert H F Hp Hv. generalize second_round. intros s H F Hp Hv.
  rewrite !andb_true_iff in F. destruct F as (((((((Fa & Fw) & _) & _) & Fc) & Fd) & _) & _).
  apply bool_decide_eq_true in Fc, Fd.
  destruct (H (mkPrepareReq no_ballot 0) _ (mkAcceptReq no_ballot []) _ Fa Hp Hv Fw) as (Ec & Ea & _).
  destruct (decided s) as [|[e1 b1] [|[e2 b2] [|]]]; try discriminate. simpl in Fd, Ec.
  injection Fd as -> ->. rewrite <- Ec in *. simpl in Fc. injection Fc as Fc1 Fc2.
  exists e1, e2. split_and!; [done..|]. exact Ea.
Defined.

Lemma no_overdraft_witness :
  let s' := handleAcceptReply OK (mkAcceptReq no_ballot []) (mkAcceptRes true (mkBallot 2 1))
    (handlePrepareReply OK (mkPrepareReq no_ballot 0)
       (mkPrepareRes true (mkBallot 2 1) None [] None None None) second_round) in
  0 <= balance_of s' 1.
Proof.
  pose proof (fun pq pr aq ar => no_overdraft deployment 1 (server_name_of 1) (mkWAL None true ∅) ∅ (started 1) conflict_run
    pq pr aq ar started_1 conflict_run_ok) as H.
  fold second_round in H. pose proof second_round_facts as F. destruct second_round_replies as [Hp Hv].
  assert (forall i, isClientInCluster_s second_round i = true -> 0 <= balance_of second_round i) as Hb.
  { apply second_round_balances. }
  assert (isClientInCluster_s second_round 1 = true) as H1 by by vm_compute.
  revert H F Hp Hv Hb H1. generalize second_round. intros s H F Hp Hv Hb H1.
  rewrite !andb_true_iff in F. destruct F as (((((((Fa & Fw) & _) & _) & _) & _) & _) & Fp).
  apply bool_decide_eq_true in Fp. apply H; done.
Defined.
