(* ===== verification/Cluster.v ===== *)
(** * Cluster: servers that exchange messages

    The composition of the servers of [Calls]: what one server sends ([outs]) is what
    its peers receive.  gRPC delivers the request of an RPC at most once, on the call its
    peer has registered for requests of that type; the RPC completes once, with the reply
    of the peer or, at any time, with an expired deadline.  Requests of clients arrive at
    any time.  The model is executable: a run is a list of events. *)

From S2P Require Import Prelude Text Types Utils Store Wal Server Calls Fixture Rounds EventLoop.

Section cluster.
Context {D : Type} `{KVStore D}.
Implicit Types s : ServerImpl D.

(** An RPC is named by the server that sent it and its position among the outputs of
    that server. *)
Record Cluster := mkCluster {
  members : gmap Z (ServerImpl D);
  replied : gmap (Z * nat) Response;
  finished : gset (Z * nat)
}.

#[export] Instance eta_Cluster : Eta Cluster := fun n => mkCluster (members n) (replied n) (finished n).

(** The peer an output goes to, and the request it carries. *)
Definition rpc_request (o : Output) : option (Z * RequestTypes * Request) :=
  match o with
  | SendPrepare j r => Some (j, PREPARE, no_request <| prepareReq := r |>)
  | SendAccept j r => Some (j, ACCEPT, no_request <| acceptReq := r |>)
  | SendCommit j r => Some (j, COMMIT, no_request <| commitReq := r |>)
  | SendSync j r => Some (j, SYNC, no_request <| syncReq := r |>)
  | Reply _ _ => None
  end.

(** The [OutCall] of an output, completed with status [st] and the reply [r]. *)
Definition rpc_result (o : Output) (st : RpcStatus) (r : Response) : option OutCall :=
  match o with
  | SendPrepare _ q =>
    Some (mkOutCall PREPARE st q (match r with PrepareRes_ r => r | _ => no_prepare_res end)
            (mkAcceptReq no_ballot []) no_accept_res no_sync_res)
  | SendAccept _ q =>
    Some (mkOutCall ACCEPT st (mkPrepareReq no_ballot 0) no_prepare_res q
            (match r with AcceptRes_ r => r | _ => no_accept_res end) no_sync_res)
  | SendCommit _ _ =>
    Some (mkOutCall COMMIT st (mkPrepareReq no_ballot 0) no_prepare_res (mkAcceptReq no_ballot [])
            no_accept_res no_sync_res)
  | SendSync _ _ =>
    Some (mkOutCall SYNC st (mkPrepareReq no_ballot 0) no_prepare_res (mkAcceptReq no_ballot [])
            no_accept_res (match r with SyncRes_ r => r | _ => no_sync_res end))
  | Reply _ _ => None
  end.

(** The call registered for requests of type [ty]. *)
Definition registered s (ty : RequestTypes) : option Z :=
  fst <$> head (filter (fun p => p.2 = mkInCall ty PROCESS) (map_to_list (calls s))).

(** The reply of a server to call [c] among its outputs. *)
Definition reply_to_call (c : Z) (l : list Output) : option Response :=
  head (omap (fun o => match o with Reply c' r => if c =? c' then Some r else None | _ => None end) l).

Inductive NetEvent :=
  | FromClient (i now : Z) (ty : RequestTypes) (q : Request)
  | Deliver (i : Z) (k : nat) (now : Z)
  | Answered (i : Z) (k : nat) (now : Z)
  | Expired (i : Z) (k : nat) (now : Z)
  | Idle (i now : Z).

(** The requests clients send. *)
Definition client_type (ty : RequestTypes) : bool :=
  match ty with PREPARE | ACCEPT | COMMIT | SYNC => false | _ => true end.

Definition receive (now : Z) (ty : RequestTypes) (q : Request) s : option (ServerImpl D * Z) :=
  c ← registered s ty; Some (iteration (mkPoll now (Some (c, true, q)) None now) s, c).

(** The completion of an RPC at the server that sent it. *)
Definition complete_rpc (i : Z) (k : nat) (now : Z) (st : RpcStatus) (r : Response) (n : Cluster)
    : option Cluster :=
  s ← members n !! i;
  o ← outs s !! k;
  oc ← rpc_result o st r;
  if bool_decide ((i, k) ∈ finished n) then None
  else Some (n <| members ::= <[i := iteration (mkPoll now None (Some (oc, true)) now) s]> |>
               <| finished ::= union {[ (i, k) ]} |>).

Definition happen (ev : NetEvent) (n : Cluster) : option Cluster :=
  match ev with
  | FromClient i now ty q =>
    s ← members n !! i;
    if client_type ty then
      '(s', _) ← receive now ty q s; Some (n <| members ::= <[i := s']> |>)
    else None
  | Deliver i k now =>
    s ← members n !! i;
    o ← outs s !! k;
    '(j, ty, q) ← rpc_request o;
    p ← members n !! j;
    if bool_decide (is_Some (replied n !! (i, k))) then None
    else
      '(p', c) ← receive now ty q p;
      r ← reply_to_call c (outs p');
      Some (n <| members ::= <[j := p']> |> <| replied ::= <[(i, k) := r]> |>)
  | Answered i k now => r ← replied n !! (i, k); complete_rpc i k now OK r n
  | Expired i k now => complete_rpc i k now DEADLINE_EXCEEDED EmptyRes n
  | Idle i now =>
    s ← members n !! i;
    Some (n <| members ::= <[i := iteration (mkPoll now None None now) s]> |>)
  end.

Fixpoint happens (evs : list NetEvent) (n : Cluster) : option Cluster :=
  match evs with
  | [] => Some n
  | ev :: evs => n' ← happen ev n; happens evs n'
  end.

(** A cluster whose servers have just been started. *)
Definition boot (servers : gmap Z (ServerImpl D)) : Cluster :=
  mkCluster (listen <$> servers) ∅ ∅.

Definition all_started (servers : gmap Z (ServerImpl D)) : Prop :=
  map_Forall (fun id s => exists c name w d, start (new_server c id name w d) = Some s) servers.

(** ** Each server of a cluster runs its event loop *)

Lemma registered_listening s ty c : registered s ty = Some c -> listening s ty c.
Proof.
  unfold registered, listening. intros E. destruct (filter _ _) as [|[c' ic] l] eqn:Ef; [done|].
  simpl in E. injection E as ->.
  assert ((c, ic) ∈ filter (fun p : Z * InCall => p.2 = mkInCall ty PROCESS) (map_to_list (calls s))) as Hin
    by (rewrite Ef; left).
  apply list_elem_of_filter in Hin as [E Hin]. simpl in E. subst ic. by apply elem_of_map_to_list.
Qed.

Lemma polls_ok_snoc ps p s : polls_ok ps s -> poll_ok (foldl (fun s p => iteration p s) s ps) p ->
  polls_ok (ps ++ [p]) s.
Proof.
  revert s. induction ps as [|p' ps IH]; intros s Hps Hp; [done|]. destruct Hps as [? Hps]. simpl.
  split; [done|]. by apply IH.
Qed.

(** [s] is a state the event loop of a server started in state [s0] reaches. *)
Definition runs_from (s0 s : ServerImpl D) : Prop :=
  exists ps, polls_ok ps (listen s0) /\ s = HandleRPCs ps s0.

Lemma runs_step s0 s p : runs_from s0 s -> poll_ok s p -> runs_from s0 (iteration p s).
Proof.
  intros (ps & Hps & ->) Hp. exists (ps ++ [p]). split; [by apply polls_ok_snoc|].
  unfold HandleRPCs. by rewrite foldl_app.
Qed.

Definition loops (servers : gmap Z (ServerImpl D)) (n : Cluster) : Prop :=
  forall i s, members n !! i = Some s -> exists s0, servers !! i = Some s0 /\ runs_from s0 s.

Lemma loops_insert servers n n' i s p : loops servers n -> members n !! i = Some s -> poll_ok s p ->
  members n' = <[i := iteration p s]> (members n) -> loops servers n'.
Proof.
  intros Hl Hi Hp E j s' Hj. rewrite E in Hj. apply lookup_insert_Some in Hj as [[-> <-]|[_ Hj]]; [|by auto].
  destruct (Hl j s Hi) as (s0 & E0 & Hr). exists s0. split; [done|]. by apply runs_step.
Qed.

Lemma complete_loops servers i k now st r n n' : loops servers n ->
  complete_rpc i k now st r n = Some n' -> loops servers n'.
Proof.
  intros Hl E. unfold complete_rpc in E.
  apply bind_Some in E as (s & Es & E). apply bind_Some in E as (o & _ & E).
  apply bind_Some in E as (oc & _ & E). case_bool_decide; [done|]. injection E as <-.
  eapply loops_insert; [exact Hl|exact Es| |reflexivity]; exact I.
Qed.

Lemma receive_poll now ty q s s' c : receive now ty q s = Some (s', c) ->
  exists p, poll_ok s p /\ s' = iteration p s.
Proof.
  intros (c0 & Ec & E)%bind_Some. injection E as <- <-. eexists. split; [|done].
  exists ty. left. by apply registered_listening.
Qed.

Lemma happen_loops servers ev n n' : loops servers n -> happen ev n = Some n' -> loops servers n'.
Proof.
  intros Hl. destruct ev as [i now ty q|i k now|i k now|i k now|i now]; simpl; intros E.
  - apply bind_Some in E as (s & Es & E). destruct (client_type ty); [|done].
    apply bind_Some in E as ([s' c] & Er & E). injection E as <-.
    destruct (receive_poll _ _ _ _ _ _ Er) as (p & Hp & ->). by eapply loops_insert.
  - apply bind_Some in E as (s & Es & E). apply bind_Some in E as (o & _ & E).
    apply bind_Some in E as ([[j ty] q] & _ & E). apply bind_Some in E as (p & Ep & E).
    case_bool_decide; [done|]. apply bind_Some in E as ([p' c] & Er & E).
    apply bind_Some in E as (r & _ & E). injection E as <-.
    destruct (receive_poll _ _ _ _ _ _ Er) as (pl & Hp & ->). by eapply loops_insert.
  - apply bind_Some in E as (r & _ & E). by eapply complete_loops.
  - by eapply complete_loops.
  - apply bind_Some in E as (s & Es & E). injection E as <-.
    eapply loops_insert; [exact Hl|exact Es| |reflexivity]; exact I.
Qed.

Lemma happens_loops servers evs n n' : loops servers n -> happens evs n = Some n' -> loops servers n'.
Proof.
  revert n. induction evs as [|ev evs IH]; intros n Hl E; simpl in E; [by injection E as <-|].
  apply bind_Some in E as (n1 & E1 & E2). by eapply IH; [eapply happen_loops|].
Qed.

Lemma boot_loops servers : loops servers (boot servers).
Proof.
  intros i s E. unfold boot in E. simpl in E. rewrite lookup_fmap in E.
  destruct (servers !! i) as [s0|] eqn:E0; [|done]. injection E as <-. exists s0.
  split; [done|]. exists []. done.
Qed.


End cluster.

(** ** Two leaders

    Server 1 has transfer 7 accepted by server 2 and commits it; its commit messages are
    delayed.  Then server 3 runs a round with transfer 8.  Server 2 reports with its promise
    that it has accepted transfer 7, but [handlePrepareReply] does not look at it. *)

Lemma started_3 :
  start (new_server deployment 3 (server_name_of 3) (mkWAL None true ∅) ∅) = Some (started 3).
Proof.
  fold (fresh_server 3).
  assert (bool_decide (is_Some (start (fresh_server 3))) = true) as Hs by by vm_compute.
  apply bool_decide_eq_true in Hs as [s E]. unfold started. by rewrite E.
Qed.

Definition three_servers : gmap Z server := <[1 := started 1]> (<[2 := started 2]> {[3 := started 3]}).

Lemma three_started : all_started three_servers.
Proof.
  intros id s E. unfold three_servers in E.
  apply lookup_insert_Some in E as [[<- <-]|[_ E]]; [eexists _, _, _, _; exact started_1|].
  apply lookup_insert_Some in E as [[<- <-]|[_ E]]; [eexists _, _, _, _; exact started_2|].
  apply lookup_singleton_Some in E as [<- <-]. eexists _, _, _, _. exact started_3.
Qed.

Definition transfer_1_3 : TransferReq := mkTransferReq (mkTransaction 1 3 6) 8.

Definition two_leaders : list NetEvent :=
  [FromClient 1 0 TRANSFER (no_request <| transferReq := transfer_1_2 |>);
   Deliver 1 0 0; Answered 1 0 0; Deliver 1 2 0; Answered 1 2 0;
   FromClient 3 0 TRANSFER (no_request <| transferReq := transfer_1_3 |>);
   Deliver 3 1 0; Answered 3 1 0; Deliver 3 3 0; Answered 3 3 0; Deliver 3 5 0; Answered 3 5 0].

Definition answered_true (c : Z) (t : Z) (s : server) : bool :=
  existsb (fun o => match o with Reply c' (TransferRes_ r) => (c =? c') && ts_ack r && (ts_tid r =? t)
                    | _ => false end) (outs s).

(** C13. Servers of one cluster can disagree: there is a run of a cluster of three
    servers, in which no server fails and some messages are only delayed, after which
    servers 1 and 3 have committed different transfers at the same position, and each has
    told its client that the transfer succeeded. *)
Example agreement_fails : exists n s1 s3,
  happens two_leaders (boot three_servers) = Some n
  /\ members n !! 1 = Some s1 /\ members n !! 3 = Some s3
  /\ log s1 = [entry_of transfer_1_2 (mkBallot 1 1) INTRA COMMITTED]
  /\ log s3 = [entry_of transfer_1_3 (mkBallot 2 3) INTRA COMMITTED]
  /\ paxos_index s1 = 0 /\ paxos_index s3 = 0
  /\ answered_true 3 7 s1 = true /\ answered_true 3 8 s3 = true.
Proof.
  assert (match happens two_leaders (boot three_servers) with
    | Some n =>
      match members n !! 1, members n !! 3 with
      | Some s1, Some s3 =>
        bool_decide (log s1 = [entry_of transfer_1_2 (mkBallot 1 1) INTRA COMMITTED])
        && bool_decide (log s3 = [entry_of transfer_1_3 (mkBallot 2 3) INTRA COMMITTED])
        && (paxos_index s1 =? 0) && (paxos_index s3 =? 0)
        && answered_true 3 7 s1 && answered_true 3 8 s3
      | _, _ => false
      end
    | None => false
    end = true) as E by (vm_compute; reflexivity).
  destruct (happens _ _) as [n|]; [|done].
  destruct (members n !! 1) as [s1|] eqn:E1; [|done]. destruct (members n !! 3) as [s3|] eqn:E3; [|done].
  rewrite !andb_true_iff, !bool_decide_eq_true, !Z.eqb_eq in E. exists n, s1, s3. naive_solver.
Qed.

