(* ===== verification/Handlers.v ===== *)
(** * Handlers: every handler is a sequence of storage operations

    The handlers of [Server] and [Calls] touch the data of a server only through
    the steps of [Storage.dstep].  The proof needs that the messages have the
    types the protocol gives them, and carries an invariant that the requests and
    ballots a server stores are well typed ([Typed]). *)

From S2P Require Import Prelude Text Types Utils Store Wal Server Calls Storage.

Section handlers.
Context {D : Type} `{KVLaws D, !KVReliable D}.
Implicit Types s : ServerImpl D.

Record Typed s : Prop := {
  ty_pending : Forall (fun e => request_ok (request e)) (pending_ s);
  ty_current : Forall (fun e => request_ok (request e)) (current_ s);
  ty_accept : Forall request_ok (accept_batch s);
  ty_promised : ballot_ok (promised_num s);
  ty_accept_num : ballot_ok (accept_num s);
  ty_server : in32 (server_id s);
  ty_ballot : in32 (ballot_num s)
}.

(** A step that is a sequence of storage operations, unless the execution is
    undefined. *)
Definition tstep s s' : Prop :=
  (ub s = true -> ub s' = true) /\ (ub s' = false -> Typed s -> Typed s' /\ dsteps s s').

#[export] Instance tstep_preorder : PreOrder tstep.
Proof.
  split.
  - intros s. split; [done|]. intros _ HT. split; [done | apply rtc_refl].
  - intros s1 s2 s3 [U1 T1] [U2 T2]. split; [by auto|]. intros Hu HT.
    assert (ub s2 = false) as Hu2 by (destruct (ub s2); [by rewrite U2 in Hu | done]).
    destruct (T1 Hu2 HT) as [HT2 D1]. destruct (T2 Hu HT2) as [HT3 D2].
    split; [done | by etrans].
Qed.

Lemma tstep_foldl {A} (P : A -> Prop) (f : ServerImpl D -> A -> ServerImpl D) l s :
  (forall s x, P x -> tstep s (f s x)) -> Forall P l -> tstep s (foldl f s l).
Proof.
  intros Hf. revert s. induction l as [|x l IH]; intros s; [done|].
  intros [Hx Hl]%Forall_cons. simpl. etrans; [by apply Hf | by apply IH].
Qed.

(** ** Steps that do not touch the data *)

(** All the fields [tstep] looks at. *)
Definition tview s :=
  (num_clusters (cfg s), cluster_id s, (log s, wal s, balance_applied s, paxos_index s),
   (db s, ballot_num s, balances s), (pending_ s, current_ s, accept_batch s),
   (promised_num s, accept_num s, server_id s), ub s).

Lemma tstep_view s s' : tview s' = tview s -> tstep s s'.
Proof.
  unfold tview. intros E. simplify_eq. split; [congruence|]. intros Hu []. split.
  - split; by rewrite_fields s'.
  - apply rtc_once, ds_same; [|congruence]. split; try done. intros c. unfold balance_of. congruence.
Qed.

Lemma tview_foldl {A} (f : ServerImpl D -> A -> ServerImpl D) l s :
  (forall s x, tview (f s x) = tview s) -> tview (foldl f s l) = tview s.
Proof. intros Hf. revert s. induction l as [|x l IH]; intros s; [done|]. simpl. by rewrite IH. Qed.

Lemma tview_finish c r s : tview (finish c r s) = tview s.
Proof. unfold finish. by repeat case_match. Qed.
Lemma tview_complete c a t s : tview (completeTransfer c a t s) = tview s.
Proof. apply tview_finish. Qed.
Lemma tview_broadcast mk s : tview (broadcast mk s) = tview s.
Proof. unfold broadcast. by apply tview_foldl. Qed.
Lemma tview_release_if_local c s : tview (release_if_local c s) = tview s.
Proof. unfold release_if_local. by case_match. Qed.
Lemma tview_acquire_if_local c s : tview (acquire_if_local c s) = tview s.
Proof. unfold acquire_if_local. by case_match. Qed.

(** Reading a balance may insert a zero. *)
Lemma tstep_touch c s : tstep s (touch_balance c s).
Proof.
  split; [done|]. intros _ []. split; [by split|]. apply rtc_once, ds_same; [|done].
  split; try done. intros x. unfold touch_balance, balance_of. simpl.
  destruct (decide (x = c)) as [->|]; [by rewrite lookup_insert_eq | by rewrite lookup_insert_ne].
Qed.

Lemma tstep_send_to id o s : tstep s (send_to id o s).
Proof. unfold send_to. case_match; [by apply tstep_view|]. split; [done|]. done. Qed.

(** ** Storage operations *)

(** The queues and ballots, which the storage operations leave alone. *)
Definition qview s :=
  (pending_ s, current_ s, accept_batch s, (promised_num s, accept_num s, server_id s),
   ballot_num s).

(** Operations that change neither and never clear the flag. *)
Definition qstep s s' : Prop := qview s' = qview s /\ (ub s = true -> ub s' = true).

#[export] Instance qstep_preorder : PreOrder qstep.
Proof. split; [by intros s|]. intros s1 s2 s3 [E1 U1] [E2 U2]. split; [congruence | auto]. Qed.

Lemma qstep_typed s s' : qview s' = qview s -> Typed s -> Typed s'.
Proof. unfold qview. intros E []. simplify_eq. split; by rewrite_fields s'. Qed.

Lemma tstep_op s s' : qstep s s' -> (Typed s -> dstep s s') -> tstep s s'.
Proof.
  intros [E U] Hd. split; [done|]. intros _ HT.
  split; [by eapply qstep_typed | by apply rtc_once, Hd].
Qed.

Lemma qstep_check z s : qstep s (check_int z s).
Proof. unfold check_int, flag_if. by case_match. Qed.

Lemma qstep_view s s' : qview s' = qview s -> ub s' = ub s -> qstep s s'.
Proof. intros E U. split; [done | congruence]. Qed.

Lemma qstep_add c d s : qstep s (add_balance c d s).
Proof. unfold add_balance. etrans; [|apply qstep_check]. by apply qstep_view. Qed.

Lemma qstep_store c s : qstep s (store_balance c s).
Proof. by apply qstep_view. Qed.

Lemma qstep_advance b s : qstep s (advance b s).
Proof. unfold advance. etrans; [|apply qstep_check]. by apply qstep_view. Qed.

Lemma qstep_apply_side c d s : qstep s (apply_side c d s).
Proof. unfold apply_side. etrans; [apply qstep_add | apply qstep_store]. Qed.

Lemma qstep_decision_side b c d s : qstep s (decision_side b c d s).
Proof.
  unfold decision_side. repeat case_match; [|by apply qstep_view|done].
  etrans; [|apply qstep_apply_side]. by apply qstep_view.
Qed.

Lemma qstep_sync_side b c d s : qstep s (sync_side b c d s).
Proof. unfold sync_side. case_match; [apply qstep_apply_side | done]. Qed.

Lemma qstep_prepare r b s : qstep s (prepareTransaction r b s).
Proof.
  unfold prepareTransaction. destruct (wal_prepareTransaction r b (wal s)) as [w e].
  etrans; [|by apply qstep_view; [|]]. etrans; [|apply qstep_advance]. by apply qstep_view.
Qed.

Lemma qstep_commit r b s : qstep s (commitTransaction r b s).
Proof.
  unfold commitTransaction. case_match; [done|].
  destruct (wal_commitTransaction r b _) as [w e].
  etrans; [|apply qstep_advance]. do 2 (etrans; [|eapply qstep_store]).
  do 2 (etrans; [|eapply qstep_add]). by apply qstep_view.
Qed.

Lemma qstep_decision t c s : qstep s (processTpcDecision t c s).
Proof.
  unfold processTpcDecision. case_match; [done|].
  destruct (if c then _ else _) as [w [e|]]; [|by split].
  case_match; [by apply qstep_view|].
  do 2 (etrans; [|apply qstep_decision_side]). by destruct c; apply qstep_view.
Qed.

Lemma qstep_expire t s : qstep s (abort_expired t s).
Proof.
  unfold abort_expired. destruct (wal_abortTpc t (wal s)) as [w [e|]]; [|by split].
  repeat case_match; by apply qstep_view.
Qed.

Lemma qstep_sync e s : qstep s (sync_entry e s).
Proof.
  unfold sync_entry. do 2 (etrans; [|apply qstep_sync_side]).
  unfold check_int, flag_if. repeat case_match; by split.
Qed.

Lemma tstep_prepare r b s : request_ok r -> (Typed s -> ballot_ok b) ->
  tstep s (prepareTransaction r b s).
Proof. intros Hr Hb. apply tstep_op; [apply qstep_prepare|]. intros HT. apply ds_prepare; auto. Qed.

Lemma tstep_commit r b s : request_ok r -> (Typed s -> ballot_ok b) ->
  tstep s (commitTransaction r b s).
Proof. intros Hr Hb. apply tstep_op; [apply qstep_commit|]. intros HT. apply ds_commit; auto. Qed.

Lemma tstep_decision t c s : tstep s (processTpcDecision t c s).
Proof. apply tstep_op; [apply qstep_decision|]. intros _. apply ds_decide. Qed.

Lemma tstep_expire t s : tstep s (abort_expired t s).
Proof. apply tstep_op; [apply qstep_expire|]. intros _. apply ds_expire. Qed.

Lemma tstep_sync e s : syncable (wal s) e -> tid e <> -1 -> tstep s (sync_entry e s).
Proof. intros He Ht. apply tstep_op; [apply qstep_sync|]. intros _. by apply ds_sync. Qed.

(** Adopting a ballot number and writing it to the database. *)
Lemma tstep_ballot b s : in32 b -> tstep s (persistBallotNum (s <| ballot_num := b |>)).
Proof.
  intros Hb. split; [done|]. intros _ []. split; [by split|]. by apply rtc_once, ds_ballot.
Qed.

(** ** Rounds *)

(** Steps on the queues and ballots. *)
Definition dview s :=
  (num_clusters (cfg s), cluster_id s, (log s, wal s, balance_applied s, paxos_index s),
   (db s, ballot_num s, balances s), ub s).

Lemma tstep_queues s s' : dview s' = dview s -> (Typed s -> Typed s') -> tstep s s'.
Proof.
  unfold dview. intros E HT. simplify_eq. split; [congruence|]. intros Hu HTs. split; [by auto|].
  apply rtc_once, ds_same; [|congruence]. split; try done. intros c. unfold balance_of. congruence.
Qed.

Lemma tstep_next_ballot s :
  tstep s (persistBallotNum (check_int (ballot_num s + 1) (s <| ballot_num := ballot_num s + 1 |>))).
Proof.
  unfold check_int, flag_if. destruct (in32b (ballot_num s + 1)) eqn:E; simpl.
  - apply tstep_ballot. by apply in32b_spec.
  - by split.
Qed.

Lemma tstep_reissue s : tstep s (reissuePrepareForCurrent s).
Proof.
  unfold reissuePrepareForCurrent. etrans; [apply tstep_next_ballot|].
  etrans; [|apply tstep_view, tview_broadcast].
  apply tstep_queues; [done|]. intros []. by split.
Qed.

Lemma tstep_maybeStart s : tstep s (maybeStartRound s).
Proof.
  unfold maybeStartRound. case_match; [done|]. unfold startRound.
  etrans; [|apply tstep_reissue]. apply tstep_queues; [done|]. intros []. by split.
Qed.

Lemma tstep_finishRound s : tstep s (finishRound s).
Proof.
  unfold finishRound. etrans; [|apply tstep_maybeStart].
  apply tstep_queues; [done|]. intros []. by split.
Qed.

Lemma tstep_enqueue c r x s : request_ok r -> tstep s (enqueueClientTxn c r x s).
Proof.
  intros Hr. unfold enqueueClientTxn. case_match; [apply tstep_view, tview_complete|].
  etrans; [|apply tstep_maybeStart]. apply tstep_queues; [done|]. intros [].
  split; try done. simpl. apply Forall_app. by rewrite Forall_singleton.
Qed.

Lemma tstep_validate s k e : request_ok (request e) -> tstep s (validate_entry (s, k) e).1.
Proof.
  intros Hr. unfold validate_entry.
  destruct (entry_locked e s); simpl; [apply tstep_view, tview_complete|].
  set (s1 := if isClientInCluster_s s _ then _ else _).
  assert (tstep s s1) as Hs1 by (subst s1; case_match; [apply tstep_touch | done]).
  destruct (entry_short_of_funds e s1); simpl;
    [etrans; [exact Hs1|]; apply tstep_view, tview_complete|].
  set (s2 := acquire_if_local _ (acquire_if_local _ s1)).
  assert (tstep s s2) as Hs2.
  { etrans; [exact Hs1|]. apply tstep_view. subst s2. by rewrite !tview_acquire_if_local. }
  destruct (is_cross_shard e); simpl; [|done].
  etrans; [exact Hs2|]. apply tstep_prepare; [done|]. by intros [].
Qed.

(** The entries kept are entries of the batch, and well typed. *)
Lemma tstep_validate_fold l s k : Forall (fun e => request_ok (request e)) l ->
  Forall (fun e => request_ok (request e)) k ->
  tstep s (foldl validate_entry (s, k) l).1
  /\ Forall (fun e => request_ok (request e)) (foldl validate_entry (s, k) l).2.
Proof.
  revert s k. induction l as [|e l IH]; intros s k; [done|].
  intros [He Hl]%Forall_cons Hk. cbn [foldl].
  pose proof (tstep_validate s k e He) as Hs1.
  assert (Forall (fun e => request_ok (request e)) (validate_entry (s, k) e).2) as Hk1.
  { unfold validate_entry. repeat case_match; simpl; try done;
      (apply Forall_app; split; [done | by constructor]). }
  destruct (validate_entry (s, k) e) as [s1 k1]. simpl in *.
  destruct (IH s1 k1 Hl Hk1) as [Hs2 Hk2]. split; [by etrans | done].
Qed.

(** A step whose typing facts come from the invariant. *)
Lemma tstep_typed s s' : (ub s = true -> ub s' = true) -> (Typed s -> tstep s s') -> tstep s s'.
Proof. intros Hu Ht. split; [done|]. intros Hu' HT. by apply Ht. Qed.

Lemma ub_foldl {A} (f : ServerImpl D -> A -> ServerImpl D) l s :
  (forall s x, ub s = true -> ub (f s x) = true) -> ub s = true -> ub (foldl f s l) = true.
Proof. intros Hf. revert s. induction l as [|x l IH]; simpl; auto. Qed.

Lemma tview_ub s s' : tview s' = tview s -> ub s = true -> ub s' = true.
Proof. unfold tview. intros E. simplify_eq. congruence. Qed.

Lemma ub_complete c a t s : ub s = true -> ub (completeTransfer c a t s) = true.
Proof. apply tview_ub, tview_complete. Qed.

Lemma ub_validate s k e : ub s = true -> ub (validate_entry (s, k) e).1 = true.
Proof.
  intros Hu. unfold validate_entry.
  destruct (entry_locked e s); simpl; [by apply ub_complete|].
  set (s1 := if isClientInCluster_s s _ then _ else _).
  assert (ub s1 = true) as Hu1 by (subst s1; by case_match).
  destruct (entry_short_of_funds e s1); simpl; [by apply ub_complete|].
  assert (ub (acquire_if_local (receiver (tr_txn (request e)))
    (acquire_if_local (sender (tr_txn (request e))) s1)) = true) as Hu2
    by (unfold acquire_if_local; by repeat case_match).
  destruct (is_cross_shard e); [by apply qstep_prepare | done].
Qed.

Lemma ub_validate_fold l s k : ub s = true -> ub (foldl validate_entry (s, k) l).1 = true.
Proof.
  revert s k. induction l as [|e l IH]; intros s k Hu; [done|]. cbn [foldl].
  pose proof (ub_validate s k e Hu) as Hu1.
  destruct (validate_entry (s, k) e) as [s1 k1]. by apply IH.
Qed.

Lemma tstep_onPrepareQuorum s : tstep s (onPrepareQuorum s).
Proof.
  unfold onPrepareQuorum. cbn zeta.
  set (s0 := s <| await_prepare_decision := false |>).
  pose proof (ub_validate_fold (current_ s0) s0 []) as Hub.
  pose proof (tstep_validate_fold (current_ s0) s0 []) as Hts.
  destruct (foldl validate_entry (s0, []) (current_ s0)) as [s1 kept]. simpl in Hub, Hts.
  set (s2 := s1 <| current_ := kept |>).
  assert (tstep s s2) as H2.
  { apply tstep_typed; [exact Hub|]. intros HT. pose proof (ty_current _ HT) as Hc.
    destruct (Hts Hc) as [Hs Hk]; [by constructor|].
    etrans; [by apply (tstep_view s s0)|]. etrans; [exact Hs|].
    apply tstep_queues; [done|]. intros []. by split. }
  assert (tstep s (match kept with [] => finishRound s2 | _ =>
    s2 <| accepted := true |> <| accept_num := promised_num s2 |>
       <| accept_batch := request <$> kept |> <| await_accept_decision := true |>
       <| accept_successes := 1 |> <| accept_failures := 0 |> end)) as H3.
  { destruct kept as [|e kept]; [etrans; [exact H2|]; apply tstep_finishRound|].
    etrans; [exact H2|]. apply tstep_queues; [done|]. intros HT. pose proof (ty_current _ HT) as Hc.
    destruct HT. split; try done. simpl in *. apply Forall_cons in Hc as [He Hc].
    constructor; [done|]. by apply Forall_fmap. }
  destruct kept as [|e kept]; [exact H3|].
  etrans; [exact H3|]. by apply tstep_view, tview_broadcast.
Qed.

Lemma ub_commit_entry s e : ub s = true -> ub (commit_entry s e) = true.
Proof.
  intros Hu. unfold commit_entry. apply ub_complete.
  destruct (is_cross_shard e); [done | by apply qstep_commit].
Qed.

Lemma tstep_commit_entry s e : request_ok (request e) -> tstep s (commit_entry s e).
Proof.
  intros Hr. unfold commit_entry. etrans; [|apply tstep_view, tview_complete].
  destruct (is_cross_shard e); [done|].
  etrans; [|apply tstep_commit; [done | by intros []]]. by apply tstep_view.
Qed.

(** A loop over the batch in flight. *)
Lemma tstep_current (f : ServerImpl D -> BatchEntry -> ServerImpl D) s :
  (forall s e, ub s = true -> ub (f s e) = true) ->
  (forall s e, request_ok (request e) -> tstep s (f s e)) ->
  tstep s (foldl f s (current_ s)).
Proof.
  intros Hu Hf. apply tstep_typed; [by apply ub_foldl|]. intros [].
  by apply (tstep_foldl (fun e => request_ok (request e))).
Qed.

Lemma tstep_onAcceptQuorum s : tstep s (onAcceptQuorum s).
Proof.
  unfold onAcceptQuorum. etrans; [|apply tstep_finishRound].
  etrans; [|apply tstep_current; [apply ub_commit_entry | apply tstep_commit_entry]].
  etrans; [|apply tstep_view, tview_broadcast]. by apply tstep_view.
Qed.

Lemma tstep_onRoundAbort b s : tstep s (onRoundAbort b s).
Proof.
  unfold onRoundAbort. etrans; [|apply tstep_finishRound].
  apply tstep_view, tview_foldl. intros s' e. unfold abort_entry.
  rewrite tview_complete. by case_match.
Qed.

(** ** Requests and replies of peers *)

Lemma tstep_processPrepareCall r s : ballot_ok (pq_ballot r) ->
  tstep s (processPrepareCall r s).1.
Proof.
  intros Hb. unfold processPrepareCall. destruct (i_am_disconnected s); [done|].
  set (p := if ballot_num s <? num (pq_ballot r) then _ else _).
  assert (tstep s p.1) as Hp.
  { subst p. repeat case_match; simpl; try done.
    - etrans; [|apply (tstep_ballot (num (pq_ballot r)) (s <| promised := true |> <| promised_num := pq_ballot r |>))].
      + apply tstep_queues; [done|]. intros []. by split.
      + by destruct Hb.
    - etrans; [|apply tstep_send_to]. by apply tstep_view. }
  destruct p as [s1 []]; exact Hp.
Qed.

Lemma ub_accept_one b s r : ub s = true -> ub (accept_one b s r) = true.
Proof.
  intros Hu. unfold accept_one.
  assert (ub (acquire_if_local (receiver (tr_txn r)) (acquire_if_local (sender (tr_txn r))
    (s <| accept_batch ::= fun l => l ++ [r] |>))) = true) as Hu1
    by (unfold acquire_if_local; by repeat case_match).
  case_match; [by apply qstep_prepare | done].
Qed.

Lemma tstep_accept_one b s r : ballot_ok b -> request_ok r -> tstep s (accept_one b s r).
Proof.
  intros Hb Hr. unfold accept_one.
  set (s0 := s <| accept_batch ::= fun l => l ++ [r] |>).
  set (s1 := acquire_if_local _ (acquire_if_local _ s0)).
  assert (tview s1 = tview s0) as E1 by (subst s1; by rewrite !tview_acquire_if_local).
  assert (tstep s s1) as Hs.
  { etrans; [|apply tstep_view, E1]. apply tstep_queues; [done|]. intros []. split; try done. simpl. apply Forall_app.
    by rewrite Forall_singleton. }
  case_match; [|done]. etrans; [exact Hs|]. by apply tstep_prepare.
Qed.

Lemma tstep_processAcceptCall r s : ballot_ok (aq_ballot r) -> Forall request_ok (aq_batch r) ->
  tstep s (processAcceptCall r s).1.
Proof.
  intros Hb Hr. unfold processAcceptCall. destruct (i_am_disconnected s); [done|].
  case_match; [|done]. simpl. etrans.
  2: apply (tstep_foldl request_ok); [|exact Hr]; intros; by apply tstep_accept_one.
  apply tstep_queues; [done|]. intros []. by split.
Qed.

Lemma ub_commit_one b s r : ub s = true -> ub (commit_one b s r) = true.
Proof.
  intros Hu. unfold commit_one.
  assert (ub (release_if_local (receiver (tr_txn r)) (release_if_local (sender (tr_txn r)) s))
    = true) as Hu1 by (unfold release_if_local; by repeat case_match).
  case_match; [by apply qstep_commit | done].
Qed.

Lemma tstep_commit_one b s r : ballot_ok b -> request_ok r -> tstep s (commit_one b s r).
Proof.
  intros Hb Hr. unfold commit_one.
  set (s1 := release_if_local _ (release_if_local _ s)).
  assert (tstep s s1) as Hs by (apply tstep_view; subst s1; by rewrite !tview_release_if_local).
  case_match; [|done]. etrans; [exact Hs|]. by apply tstep_commit.
Qed.

Lemma tstep_processCommitCall r s : tstep s (processCommitCall r s).
Proof.
  unfold processCommitCall. destruct (i_am_disconnected s); [done|]. case_match; [|done].
  etrans; [|by apply (tstep_view (foldl (commit_one (accept_num s)) s (accept_batch s)))].
  apply tstep_typed; [apply ub_foldl; intros; by apply ub_commit_one|]. intros [].
  apply (tstep_foldl request_ok); [|done]. intros. by apply tstep_commit_one.
Qed.

Lemma tview_disconnect r s : tview (processDisconnectCall r s) = tview s.
Proof.
  unfold processDisconnectCall. rewrite tview_foldl.
  - unfold resetDisconnectedState. rewrite tview_foldl; [done|]. intros s' p. by case_match.
  - intros s' n. unfold disconnect_one. by repeat case_match.
Qed.

Lemma tstep_prepare_decide s : tstep s (prepare_decide s).
Proof.
  unfold prepare_decide. case_match; [apply tstep_onPrepareQuorum|].
  case_match; [apply tstep_onRoundAbort | done].
Qed.

Lemma tstep_accept_decide s : tstep s (accept_decide s).
Proof.
  unfold accept_decide. case_match; [apply tstep_onAcceptQuorum|].
  case_match; [apply tstep_onRoundAbort | done].
Qed.

Lemma tstep_handlePrepareReply st q r s :
  (forall b, pr_latest_ballot_num r = Some b -> in32 b) -> tstep s (handlePrepareReply st q r s).
Proof.
  intros Hb. unfold handlePrepareReply. destruct (negb (await_prepare_decision s)); [done|].
  assert (forall s', tview s' = tview s -> tstep s (prepare_decide s')) as Hd.
  { intros s' E. etrans; [by apply tstep_view, E | apply tstep_prepare_decide]. }
  destruct st; [|apply Hd; by case_match|by apply Hd].
  case_match; [|by apply Hd].
  set (s1 := if pr_ack r then _ else _).
  assert (tview s1 = tview s) as E1 by (subst s1; by case_match).
  destruct (pr_latest_ballot_num r) as [b|].
  - etrans; [by apply tstep_view, E1|]. etrans; [|apply tstep_reissue]. by apply tstep_ballot, Hb.
  - destruct (match pr_paxos_index r with Some i => _ | None => _ end); [|by apply Hd].
    etrans; [by apply tstep_view, E1|]. etrans; [|apply tstep_send_to]. by apply tstep_view.
Qed.

Lemma tstep_handleAcceptReply st q r s : tstep s (handleAcceptReply st q r s).
Proof.
  unfold handleAcceptReply. case_match; [done|].
  etrans; [|apply tstep_accept_decide]. apply tstep_view. by repeat case_match.
Qed.

(** The entries a peer may send: each one can be recorded when its turn comes. *)
Fixpoint logs_ok (l : list LogEntry) s : Prop :=
  match l with
  | [] => True
  | x :: l' =>
    match entry_of_log x with
    | Some e => syncable (wal s) e /\ tid e <> -1
    | None => True
    end /\ logs_ok l' (sync_one s x)
  end.

Lemma tstep_sync_fold l s : logs_ok l s -> tstep s (foldl sync_one s l).
Proof.
  revert s. induction l as [|x l IH]; intros s; [done|]. intros [Hx Hl]. simpl.
  etrans; [|by apply IH]. unfold sync_one in *. destruct (entry_of_log x) as [e|].
  - destruct Hx. by apply tstep_sync.
  - by split.
Qed.

Lemma tstep_handleSyncReply st r s :
  ballot_ok (sr_last_inserted_ballot r) -> logs_ok (sr_logs r) s ->
  tstep s (handleSyncReply st r s).
Proof.
  intros [Hb _] Hl. unfold handleSyncReply.
  set (s1 := match st with OK => _ | _ => s end).
  assert (tstep s s1) as Hs1.
  { subst s1. destruct st; try done. destruct (sr_ack r); [|done].
    etrans; [by apply tstep_sync_fold|].
    etrans; [apply (tstep_ballot (num (sr_last_inserted_ballot r))); done|].
    unfold check_int, flag_if. case_match; [by split | by apply tstep_view]. }
  change (current_ (s1 <| in_sync := false |>)) with (current_ s1).
  destruct (current_ s1); (etrans; [exact Hs1|]).
  - etrans; [|apply tstep_maybeStart]. by apply tstep_view.
  - etrans; [|apply tstep_reissue]. by apply tstep_view.
Qed.

Lemma tstep_sweep s : tstep s (sweep s).
Proof.
  unfold sweep. apply (tstep_foldl (fun _ => True)); [|by apply Forall_true].
  intros s' p _. unfold sweep_one. case_match; [apply tstep_expire | done].
Qed.

(** ** The event loop *)

(** What the types of the messages promise, and that ids are not [-1]. *)
Definition request_typed (q : Request) : Prop :=
  request_ok (transferReq q) /\ ballot_ok (pq_ballot (prepareReq q))
  /\ ballot_ok (aq_ballot (acceptReq q)) /\ Forall request_ok (aq_batch (acceptReq q)).

Definition reply_typed (o : OutCall) s : Prop :=
  (forall b, pr_latest_ballot_num (oc_prepareReply o) = Some b -> in32 b)
  /\ ballot_ok (sr_last_inserted_ballot (oc_syncReply o))
  /\ (oc_type o = SYNC -> logs_ok (sr_logs (oc_syncReply o)) s).

Lemma tstep_process c ty q s : request_typed q -> tstep s (process c ty q s).
Proof.
  intros (Hr & Hp & Ha & Hb). destruct ty; simpl.
  - etrans; [|by apply tstep_enqueue]. by apply tstep_view.
  - etrans; [apply tstep_decision | apply tstep_view, tview_finish].
  - etrans; [apply tstep_decision | apply tstep_view, tview_finish].
  - etrans; [|by apply tstep_enqueue]. by apply tstep_view.
  - pose proof (tstep_processPrepareCall (prepareReq q) s Hp) as Hs.
    destruct (processPrepareCall (prepareReq q) s) as [s1 r].
    etrans; [exact Hs | apply tstep_view, tview_finish].
  - pose proof (tstep_processAcceptCall (acceptReq q) s Ha Hb) as Hs.
    destruct (processAcceptCall (acceptReq q) s) as [s1 r].
    etrans; [exact Hs | apply tstep_view, tview_finish].
  - etrans; [apply tstep_processCommitCall | apply tstep_view, tview_finish].
  - apply tstep_view, tview_finish.
  - etrans; [apply tstep_touch | apply tstep_view, tview_finish].
  - apply tstep_view, tview_finish.
  - apply tstep_view. by rewrite tview_finish, tview_disconnect.
Qed.

Lemma tstep_Proceed c q s : request_typed q -> tstep s (Proceed c q s).
Proof.
  intros Hq. unfold Proceed. destruct (calls s !! c) as [ic|]; [|by apply tstep_view].
  destruct (ic_status ic); try by apply tstep_view.
  - etrans; [|by apply tstep_process]. by apply tstep_view.
  - by apply tstep_process.
Qed.

Lemma tstep_HandleRPCResponse o s : reply_typed o s -> tstep s (HandleRPCResponse o s).
Proof.
  intros (Hp & Hb & Hl). unfold HandleRPCResponse. destruct (oc_type o) eqn:E; try done.
  - by apply tstep_handlePrepareReply.
  - apply tstep_handleAcceptReply.
  - apply tstep_handleSyncReply; auto.
Qed.

(** A poll of well-typed messages in state [s]. *)
Definition poll_typed s (p : Poll) : Prop :=
  match poll_request p with Some (_, true, q) => request_typed q | _ => True end
  /\ match poll_response p with
     | Some (o, true) => reply_typed o (on_request p (s <| clock := poll_time p |>))
     | _ => True
     end.

Fixpoint polls_typed (ps : list Poll) s : Prop :=
  match ps with
  | [] => True
  | p :: ps' => poll_typed s p /\ polls_typed ps' (iteration p s)
  end.

Lemma tstep_iteration p s : poll_typed s p -> tstep s (iteration p s).
Proof.
  intros [Hq Ho]. unfold iteration.
  set (s0 := s <| clock := poll_time p |>) in *.
  assert (tstep s (on_request p s0)) as H1.
  { etrans; [by apply (tstep_view s s0)|]. unfold on_request.
    destruct (poll_request p) as [[[c []] q]|]; [by apply tstep_Proceed|done|done]. }
  etrans; [exact H1|]. set (s1 := on_request p s0) in *.
  assert (tstep s1 (on_response p s1)) as H2.
  { unfold on_response. destruct (poll_response p) as [[o []]|]; [|done|done].
    by apply tstep_HandleRPCResponse. }
  etrans; [exact H2|]. etrans; [|apply tstep_sweep]. by apply tstep_view.
Qed.

Lemma tview_listen s : tview (listen s) = tview s.
Proof. done. Qed.

Lemma tstep_HandleRPCs ps s : polls_typed ps (listen s) -> tstep s (HandleRPCs ps s).
Proof.
  intros Hp. etrans; [apply tstep_view, tview_listen|]. unfold HandleRPCs. revert Hp.
  generalize (listen s). clear s. induction ps as [|p ps IH]; intros s; [done|].
  intros [Hp Hps]. simpl. etrans; [by apply tstep_iteration | by apply IH].
Qed.

(** ** Runs keep the data consistent *)

Lemma dstep_ub s s' : dstep s s' -> ub s = true -> ub s' = true.
Proof.
  intros [ | | | | | | ]; auto; try apply qstep_prepare; try apply qstep_commit;
    try apply qstep_decision; try apply qstep_expire; try apply qstep_sync.
Qed.

Lemma dsteps_inv base n0 s s' : dsteps s s' -> ub s' = false ->
  DataInv base n0 s -> DataInv base n0 s'.
Proof.
  intros Hs Hu. induction Hs as [|s s1 s' H1 Hs IH]; [done|]. intros HI. apply IH; [done|].
  eapply dstep_inv; [exact H1| |done].
  clear IH HI H1. destruct (ub s1) eqn:E1; [|done].
  induction Hs as [|s1 s2 s3 H2 Hs IH]; [congruence|].
  apply IH; [done|]. by eapply dstep_ub.
Qed.

Definition same_shard s s' : Prop :=
  num_clusters (cfg s') = num_clusters (cfg s) /\ cluster_id s' = cluster_id s.

#[export] Instance same_shard_preorder : PreOrder same_shard.
Proof. split; [done|]. intros s1 s2 s3 [] []. split; congruence. Qed.

End handlers.
