(* ===== verification/Restart.v ===== *)
(** * Restart: a crash loses no committed data

    What a server leaves on disk is enough to rebuild its log, its balances and
    the transactions that wait for a decision, whatever it did before; and the
    rebuilt server is again consistent, so the argument goes through any number of
    restarts.  Crashes happen between two iterations of the event loop. *)

From S2P Require Import Prelude Text Types Utils Store Wal Server Calls Fixture Storage Handlers.

Section restart.
Context {D : Type} `{KVLaws D, !KVReliable D}.
Implicit Types s : ServerImpl D.

(** ** Loading the balances *)

(** The balance a server starts with, given its database: what is stored there,
    10 for a new account. *)
Definition opening (d : D) (c : Z) : Z :=
  match db_get d (to_text c) with
  | Found v => match stoi v with inl n => n | inr _ => 0 end
  | _ => 10
  end.

(** An account the database knows with a readable balance, or does not know. *)
Definition readable (d : D) (k : text) : Prop :=
  (exists n, in32 n /\ db_get d k = Found (to_text n)) \/ db_get d k = NotFound.

(** The fields loading does not touch. *)
Definition lview s :=
  (cfg s, cluster_id s, server_id s, (log s, wal s, balance_applied s, ballot_num s, last_inserted s),
   (pending_ s, current_ s, accept_batch s, promised_num s, accept_num s, ub s)).

Lemma ten_text : L "10" = to_text 10.
Proof. by vm_compute. Qed.

Lemma load_balance_ok s i : local s i -> readable (db s) (to_text i) ->
  exists s', load_balance s i = Some s' /\ lview s' = lview s
    /\ balances s' = <[i := opening (db s) i]> (balances s)
    /\ in32 (opening (db s) i)
    /\ (forall k, db_get (db s') k
        = if decide (to_text i = k) then Found (to_text (opening (db s) i)) else db_get (db s) k).
Proof.
  unfold local. intros Hi Hr. unfold load_balance, opening. rewrite Hi.
  destruct Hr as [(n & Hn & E)|E]; rewrite E.
  - rewrite stoi_to_text by done. eexists. split; [reflexivity|]. split_and!; [done|done|done|].
    intros k. simpl. case_decide; [by subst | done].
  - change (db (s <| balances ::= <[i := 10]> |>)) with (db s). rewrite ten_text.
    pose proof (put_ok (db s) (to_text i) (to_text 10)) as Hok.
    pose proof (fun k => get_put (db s) (to_text i) k (to_text 10)) as Hg.
    destruct (db_put (db s) (to_text i) (to_text 10)) as [d ok].
    cbn [fst snd] in Hok, Hg. subst ok.
    eexists. split; [reflexivity|]. split_and!; [done|done|by vm_compute|].
    intros k. apply Hg.
Qed.

Lemma load_balance_skip s i : ~ local s i -> load_balance s i = Some s.
Proof. unfold local, load_balance. intros Hi. by destruct (isClientInCluster_s s i). Qed.

Lemma lview_local s s' c : lview s' = lview s -> local s' c <-> local s c.
Proof. unfold lview, local, isClientInCluster_s. intros E. simplify_eq. by rewrite_fields s'. Qed.

Lemma load_balances_ok l s : NoDup l ->
  (forall i, i ∈ l -> local s i -> readable (db s) (to_text i)) ->
  exists s', load_balances l s = Some s' /\ lview s' = lview s
    /\ (forall c, c ∈ l -> local s c -> balance_of s' c = opening (db s) c
          /\ in32 (balance_of s' c) /\ db_get (db s') (to_text c) = Found (to_text (balance_of s' c)))
    /\ (forall k, (forall c, c ∈ l -> to_text c <> k) -> db_get (db s') k = db_get (db s) k)
    /\ (forall c, c ∉ l -> balance_of s' c = balance_of s c).
Proof.
  revert s. induction l as [|i l IH]; intros s Hnd Hr.
  { exists s. split_and!; try done. intros c Hc. set_solver. }
  apply NoDup_cons in Hnd as [Hni Hnd]. simpl.
  destruct (decide (local s i)) as [Hi|Hi].
  2: { rewrite load_balance_skip by done. simpl.
    destruct (IH s Hnd) as (s' & E & Hv & Hb & Hk & Hu); [intros j Hj; apply Hr; set_solver|].
    exists s'. split_and!; [done|done|..].
    - intros c [->|Hc]%elem_of_cons Hl; [done | by apply Hb].
    - intros k Hkk. apply Hk. intros c Hc. apply Hkk. set_solver.
    - intros c Hc. apply Hu. set_solver. }
  destruct (load_balance_ok s i Hi) as (s1 & E1 & Hv1 & Hb1 & Hn1 & Hd1); [apply Hr; set_solver|].
  rewrite E1. simpl.
  assert (forall c, c <> i -> db_get (db s1) (to_text c) = db_get (db s) (to_text c)) as Hd1'.
  { intros c Hc. rewrite Hd1, decide_False; [done|]. intros Et%to_text_inj. congruence. }
  destruct (IH s1 Hnd) as (s' & E & Hv & Hb & Hk & Hu).
  { intros j Hj Hl. unfold readable. rewrite Hd1' by (intros ->; done).
    apply Hr; [set_solver|]. by apply (lview_local s s1). }
  exists s'. split_and!; [done|congruence|..].
  - intros c Hc Hl. destruct (decide (c = i)) as [->|Hne].
    + rewrite Hu, (Hk (to_text i)) by (try done; intros c Hc' Et%to_text_inj; congruence).
      rewrite Hd1, decide_True by done. unfold balance_of. rewrite Hb1, lookup_insert_eq. done.
    + destruct (Hb c) as (B1 & B2 & B3); [set_solver|by apply (lview_local s s1)|].
      split; [|done]. rewrite B1. unfold opening. by rewrite Hd1'.
  - intros k Hkk. rewrite Hk by (intros c Hc; apply Hkk; set_solver).
    rewrite Hd1, decide_False; [done|]. apply Hkk. set_solver.
  - intros c Hc. rewrite Hu by set_solver. unfold balance_of. rewrite Hb1, lookup_insert_ne; set_solver.
Qed.

(** ** Starting *)

Definition opening_ballot (d : D) : Z :=
  match db_get d ballot_key with
  | Found v => match stoi v with inl n => n | inr _ => 0 end
  | _ => 0
  end.

(** What a server of cluster [cl] finds on its disk: a log file that holds the
    entries [l], and a database whose entries can be read. *)
Record DiskInv (c : constants) (cl : Z) (f : option text) (d : D) (l : list WALEntry) : Prop := {
  dk_wal : exists w, wal_file w = f /\ wal_reach w l /\ transferIndex w !! (-1) = None;
  dk_balances : forall i, valid_client i -> isClientInCluster c i cl = true ->
    readable d (to_text i);
  dk_ballot : readable d ballot_key
}.

Definition nview s := (lview s, db s, balances s).

Lemma nview_reset s : nview (resetDisconnectedState s) = nview s.
Proof.
  unfold resetDisconnectedState.
  assert (forall (l : list (text * Z)) s0, nview (foldl (fun s p => if getClusterIdFromServerId (cfg s) p.2 =? cluster_id s
    then s <| disconnected ::= <[p.2 := false]> |> else s) s0 l) = nview s0) as Hl.
  { intros l. induction l as [|p l IH]; intros s0; [done|].
    cbn [foldl]. rewrite IH. by case_match. }
  by rewrite Hl.
Qed.

Lemma load_ballot_ok s : readable (db s) ballot_key ->
  ballot_num s = 0 ->
  exists n, n = opening_ballot (db s) /\ in32 n /\ load_ballot s = Some (s <| ballot_num := n |>).
Proof.
  intros Hr E0. unfold load_ballot, opening_ballot.
  destruct Hr as [(n & Hn & E)|E]; rewrite E.
  - rewrite stoi_to_text by done. by exists n.
  - exists 0. split; [done|]. split; [by vm_compute|]. by destruct s; simpl in *; subst.
Qed.

Lemma wrap32_le n : 0 <= n -> wrap32 n <= n.
Proof. intros Hn. unfold wrap32. pose proof (Z.mod_le (n + 2147483648) 4294967296 ltac:(lia) ltac:(lia)). lia. Qed.

(** Recovery of the log: nothing but the log and the ballots change. *)
Lemma recover_wal_ok s w l : wal s = mkWAL (wal_file w) true ∅ -> wal_reach w l ->
  log s = [] -> last_inserted s = -1 ->
  let s' := recover_wal s in
  log s' = l /\ wal s' = w /\ ballot_num s' = max_ballot (ballot_num s) l
  /\ last_inserted s' = wrap32 (Z.of_nat (length l)) - 1 /\ cfg s' = cfg s
  /\ cluster_id s' = cluster_id s /\ server_id s' = server_id s
  /\ balance_applied s' = balance_applied s /\ balances s' = balances s /\ db s' = db s
  /\ (pending_ s', current_ s', accept_batch s', promised_num s', accept_num s', ub s')
     = (pending_ s, current_ s, accept_batch s, promised_num s, accept_num s, ub s).
Proof.
  intros Ew Hw El Ei. simpl. unfold recover_wal. rewrite Ew, El, Ei.
  rewrite (recover_reach w l (ballot_num s) Hw). simpl.
  destruct (Z.leb_spec 0 (wrap32 (Z.of_nat (length l)) - 1)) as [Hle|_]; [|done].
  destruct (l !! Z.to_nat (wrap32 (Z.of_nat (length l)) - 1)) eqn:E; [done|].
  apply lookup_ge_None in E. pose proof (wrap32_le (Z.of_nat (length l))). lia.
Qed.

Lemma max_ballot_in32 b l : in32 b -> Forall entry_ok l -> in32 (max_ballot b l).
Proof.
  unfold max_ballot. revert b. induction l as [|e l IH]; intros b Hb; [done|].
  intros [He Hl]%Forall_cons. simpl. apply IH; [|done].
  destruct He as (_ & He & _). unfold in32 in *. lia.
Qed.

(** The state of a new server, as far as loading is concerned. *)
Definition blank_view c id f d : _ :=
  (c, getClusterIdFromServerId c id, id, ([] : list WALEntry, mkWAL f true ∅, (∅ : gset Z), 0, -1),
   ([] : list BatchEntry, [] : list BatchEntry, [] : list TransferReq, default_ballot,
    default_ballot, false), d : D, (∅ : gmap Z Z)).

Lemma new_server_view c id name f d :
  nview (new_server c id name (mkWAL f true ∅) d) = blank_view c id f d.
Proof. unfold new_server. by rewrite nview_reset. Qed.

(** The two loading phases. *)
Lemma load_ok c id f d l s : nview s = blank_view c id f d ->
  DiskInv c (getClusterIdFromServerId c id) f d l ->
  exists s', (load_ballot s ≫= load_balances (loop 1 total_clients)) = Some s'
    /\ lview s' = lview (s <| ballot_num := opening_ballot d |>)
    /\ in32 (opening_ballot d)
    /\ (forall i, valid_client i -> local s i -> balance_of s' i = opening d i
         /\ in32 (balance_of s' i) /\ db_get (db s') (to_text i) = Found (to_text (balance_of s' i))).
Proof.
  intros E [_ Hbal Hball]. unfold nview, lview, blank_view in E.
  injection E as Ecf Ecl Eid Elg Ewl Eap Ebn Eli Epe Ecu Eab Epn Ean Eub Edb Eba.
  destruct (load_ballot_ok s) as (n & En & Hn & Eb); [by rewrite Edb|done|].
  rewrite Edb in En. subst n. set (s2 := s <| ballot_num := opening_ballot d |>) in *.
  destruct (load_balances_ok (loop 1 total_clients) s2) as (s3 & Eb3 & Ev3 & Hb3 & _ & _).
  { apply loop_nodup. }
  { intros i Hi%elem_of_loop Hl. change (db s2) with (db s). rewrite Edb. apply Hbal.
    - done.
    - revert Hl. unfold local, isClientInCluster_s, isClientInCluster.
      change (cfg s2) with (cfg s). change (cluster_id s2) with (cluster_id s). by rewrite Ecf, Ecl. }
  exists s3. rewrite Eb. cbn [mbind option_bind]. split_and!; [done..|].
  intros i Hv Hl. rewrite <- Edb. apply Hb3; [|done].
  by apply elem_of_loop.
Qed.

(** The last phase: recovery of the log, the agreed index and the ballot. *)
Definition finish_start s : ServerImpl D :=
  persistBallotNum ((recover_wal s) <| paxos_index := count_paxos (log (recover_wal s)) |>).

Lemma max_ballot_le b l : b <= max_ballot b l.
Proof.
  unfold max_ballot. revert b. induction l as [|e l IH]; intros b; simpl; [done|].
  etrans; [|apply IH]. lia.
Qed.

Lemma start_phases s : start s
  = s' ← (load_ballot (s <| stubs := peers s |>) ≫= load_balances (loop 1 total_clients));
    Some (finish_start s').
Proof.
  unfold start. destruct (load_ballot (s <| stubs := peers s |>)) as [s1|]; [|done]. reflexivity.
Qed.

Lemma finish_start_ok s w l : wal s = mkWAL (wal_file w) true ∅ -> wal_reach w l ->
  transferIndex w !! (-1) = None -> log s = [] -> last_inserted s = -1 ->
  balance_applied s = ∅ -> in32 (ballot_num s) ->
  (forall i, valid_client i -> local s i -> in32 (balance_of s i)
     /\ db_get (db s) (to_text i) = Found (to_text (balance_of s i))) ->
  let s' := finish_start s in
  cfg s' = cfg s /\ cluster_id s' = cluster_id s /\ server_id s' = server_id s
  /\ log s' = l /\ wal s' = w /\ ballot_num s' = max_ballot (ballot_num s) l
  /\ balances s' = balances s
  /\ (pending_ s', current_ s', accept_batch s', promised_num s', accept_num s', ub s')
     = (pending_ s, current_ s, accept_batch s, promised_num s, accept_num s, ub s)
  /\ DataInv (balance_of s') (length l) s'.
Proof.
  intros Ew Hw Hix El Ei Eap Hbn Hb.
  destruct (recover_wal_ok s w l Ew Hw El Ei)
    as (Rlg & Rwl & Rbn & _ & Rcf & Rcl & Rid & Rap & Rba & Rdb & Rq).
  assert (in32 (ballot_num (recover_wal s))) as Hin.
  { rewrite Rbn. apply max_ballot_in32; [done | by eapply wal_reach_ok]. }
  assert (forall i, local (recover_wal s) i <-> local s i) as Hl.
  { intros i. unfold local, isClientInCluster_s. by rewrite Rcf, Rcl. }
  assert (forall i, balance_of (recover_wal s) i = balance_of s i) as Hbo.
  { intros i. unfold balance_of. by rewrite Rba. }
  simpl. unfold finish_start.
  set (s4 := recover_wal s) in *. clearbody s4. split_and!; try done.
  split; simpl; try done.
  - unfold WalInv. simpl. by rewrite Rwl, Rlg.
  - by rewrite Rlg.
  - by rewrite Rap, Rlg, drop_all, Eap.
  - intros i _. rewrite Rlg, drop_all. unfold ledger. simpl. lia.
  - intros i Hli%Hl Hv. destruct (Hb i Hv Hli) as [B1 B2].
    change (balance_of _ i) with (balance_of s4 i). rewrite Hbo, get_put_other, Rdb; [done|].
    intros Ek. by apply (ballot_key_not_number i).
  - by rewrite get_put_same.
Qed.

Lemma start_ok c id name f d l : in32 id ->
  DiskInv c (getClusterIdFromServerId c id) f d l ->
  exists s, start (new_server c id name (mkWAL f true ∅) d) = Some s
    /\ cfg s = c /\ cluster_id s = getClusterIdFromServerId c id
    /\ log s = l /\ wal_file (wal s) = f
    /\ ballot_num s = max_ballot (opening_ballot d) l
    /\ (forall i, valid_client i -> local s i -> balance_of s i = opening d i)
    /\ Typed s /\ ub s = false
    /\ DataInv (balance_of s) (length l) s.
Proof.
  intros Hid HD. rewrite start_phases.
  set (s0 := new_server c id name (mkWAL f true ∅) d).
  assert (nview (s0 <| stubs := peers s0 |>) = blank_view c id f d) as E0
    by apply (new_server_view c id name f d).
  set (s1 := s0 <| stubs := peers s0 |>) in *. clearbody s1. clear s0.
  destruct (load_ok _ _ _ _ _ _ E0 HD) as (s2 & -> & E2 & Hob & Hb).
  destruct HD as [(w & <- & Hw & Hix) _ _]. unfold nview, lview, blank_view in *.
  injection E0 as Ecf Ecl Eid Elg Ewl Eap Ebn Eli Epe Ecu Eab Epn Ean Eub Edb Eba.
  injection E2 as Gcf Gcl Gid Glg Gwl Gap Gbn Gli Gpe Gcu Gab Gpn Gan Gub.
  assert (forall i, local s2 i <-> local s1 i) as Hl2.
  { intros i. unfold local, isClientInCluster_s. by rewrite Gcf, Gcl. }
  destruct (finish_start_ok s2 w l) as (F1 & F2 & F3 & F4 & F5 & F6 & F7 & F8 & F9);
    try congruence; try done.
  { intros i Hv Hl. apply Hb; [done | by apply Hl2]. }
  exists (finish_start s2). split; [done|].
  set (s3 := finish_start s2) in *. clearbody s3. injection F8 as Kpe Kcu Kab Kpn Kan Kub.
  assert (forall i, local s3 i <-> local s1 i) as Hl3.
  { intros i. rewrite <- Hl2. unfold local, isClientInCluster_s. by rewrite F1, F2. }
  split_and!; try congruence.
  - intros i Hv Hl. unfold balance_of. rewrite F7. by apply Hb, Hl3.
  - destruct (di_ballot _ _ _ F9) as [_ Hib].
    split; [by rewrite Kpe, Gpe, Epe|by rewrite Kcu, Gcu, Ecu|by rewrite Kab, Gab, Eab
           |by rewrite Kpn, Gpn, Epn|by rewrite Kan, Gan, Ean|by rewrite F3, Gid, Eid|done].
Qed.

(** ** Lifetimes *)

Lemma crash_disk base n0 s c : DataInv base n0 s -> num_clusters c = num_clusters (cfg s) ->
  DiskInv c (cluster_id s) (wal_file (wal s)) (db s) (log s).
Proof.
  intros [[Hw Hi] _ _ _ _ Hdb [Hb Hb32]] Hc. split.
  - by exists (wal s).
  - intros i Hv Hl. left. exists (balance_of s i). destruct (Hdb i); [|done|done].
    revert Hl. unfold local, isClientInCluster_s, isClientInCluster, getClusterIdFromClientId.
    by rewrite Hc.
  - left. by exists (ballot_num s).
Qed.

(** The states in which server [id] enters its event loop: first on an empty disk,
    then on the disk a previous run left. *)
Inductive booted (c : constants) (id : Z) (name : text) : ServerImpl D -> Prop :=
  | boot_first d s : (forall k, db_get d k = NotFound) ->
      start (new_server c id name (mkWAL None true ∅) d) = Some s -> booted c id name s
  | boot_again s ps s' : booted c id name s -> polls_typed ps (listen s) ->
      ub (HandleRPCs ps s) = false ->
      start (new_server c id name (mkWAL (wal_file (wal (HandleRPCs ps s))) true ∅)
               (db (HandleRPCs ps s))) = Some s' ->
      booted c id name s'.

Lemma appends_shard e s s' : appends e s s' -> same_shard s s'.
Proof. by intros []. Qed.

Lemma dstep_shard base n0 s s' : DataInv base n0 s -> dstep s s' -> same_shard s s'.
Proof.
  intros HI Hs. pose proof (di_wal _ _ _ HI) as HW.
  destruct Hs as [s s' [] _|s b Hb|s r b Hr Hb|s r b Hr Hb|s t c|s t|s e He Ht].
  - done.
  - done.
  - by eapply appends_shard, prepare_appends.
  - destruct (decide (tr_tid r ∈ balance_applied s)) as [Hin|Hin].
    + unfold commitTransaction. by rewrite bool_decide_true.
    + by eapply appends_shard, commit_appends.
  - destruct (decision_appends t c s HW) as [[[] _]|(e & _ & _ & _ & HA)]; [done|].
    by eapply appends_shard.
  - destruct (expire_appends t s HW) as [[[] _]|(e & _ & _ & _ & HA)]; [done|].
    by eapply appends_shard.
  - by eapply appends_shard, sync_appends.
Qed.

Lemma dsteps_ub s s' : dsteps s s' -> ub s' = false -> ub s = false.
Proof.
  induction 1 as [|s s1 s' H1 Hs IH]; [done|]. intros Hu. destruct (ub s) eqn:E; [|done].
  rewrite (dstep_ub _ _ H1 E) in IH. by rewrite IH.
Qed.

Lemma dsteps_shard base n0 s s' : dsteps s s' -> ub s' = false -> DataInv base n0 s ->
  same_shard s s'.
Proof.
  intros Hs Hu. induction Hs as [|s s1 s' H1 Hs IH]; [done|]. intros HI.
  etrans; [by eapply dstep_shard|]. apply IH; [done|].
  eapply dstep_inv; [exact H1| |done]. by eapply dsteps_ub.
Qed.

(** A consistent server with its typing facts, in a fixed deployment. *)
Record Boot (c : constants) (id : Z) s : Prop := {
  bt_shard : num_clusters (cfg s) = num_clusters c
             /\ cluster_id s = getClusterIdFromServerId c id;
  bt_typed : Typed s;
  bt_data : DataInv (balance_of s) (length (log s)) s
}.

Lemma booted_ok c id name s : in32 id -> booted c id name s -> Boot c id s.
Proof.
  intros Hid. induction 1 as [d s Hd Hs|s ps s' Hb IH Hp Hu Hs].
  - destruct (start_ok c id name None d []) as (s1 & E & E1 & E2 & E3 & _ & _ & _ & HT & _ & HD); [done| |].
    { split.
      - exists (mkWAL None true ∅). split; [done|]. split; [constructor | done].
      - intros i _ _. by right.
      - by right. }
    rewrite Hs in E. simplify_eq. split; [done|done|by rewrite E3].
  - destruct IH as [[Hn Hcl] HT HD].
    destruct (tstep_HandleRPCs ps s Hp) as [_ Ht]. destruct (Ht Hu HT) as [HT' Hds].
    pose proof (dsteps_inv _ _ _ _ Hds Hu HD) as HD'.
    destruct (dsteps_shard _ _ _ _ Hds Hu HD) as [En Ec].
    destruct (start_ok c id name (wal_file (wal (HandleRPCs ps s))) (db (HandleRPCs ps s))
      (log (HandleRPCs ps s))) as (s1 & E & E1 & E2 & E3 & _ & _ & _ & HT1 & _ & HD1); [done| |].
    { rewrite <- Hcl, <- Ec. eapply crash_disk; [exact HD' | congruence]. }
    rewrite Hs in E. injection E as <-. split; [split; congruence|done|by rewrite E3].
Qed.

Lemma run_ok c id name s ps : in32 id -> booted c id name s ->
  polls_typed ps (listen s) -> ub (HandleRPCs ps s) = false ->
  DataInv (balance_of s) (length (log s)) (HandleRPCs ps s)
  /\ same_shard s (HandleRPCs ps s) /\ Boot c id s.
Proof.
  intros Hid Hb Hp Hu. pose proof (booted_ok c id name s Hid Hb) as HB.
  destruct HB as [Hs HT HD]. destruct (tstep_HandleRPCs ps s Hp) as [_ Ht].
  destruct (Ht Hu HT) as [_ Hds].
  split; [by eapply dsteps_inv|]. split; [by eapply dsteps_shard | by split].
Qed.



End restart.

(** ** An example: one transfer committed, then a crash *)

Lemma booted_1 : booted deployment 1 (server_name_of 1) (started 1).
Proof. apply (boot_first _ _ _ ∅); [done | apply started_1]. Qed.

Lemma commit_run_typed : polls_typed commit_run (listen (started 1)).
Proof.
  assert (request_typed (no_request <| transferReq := transfer_1_2 |>)) as Hq.
  { repeat split; try constructor; vm_compute; discriminate. }
  assert (forall s : server, reply_typed (prepare_acked (mkBallot 1 1)) s) as Hp.
  { intros s. split; [intros b E; discriminate E|].
    split; [repeat split; vm_compute; discriminate | intros E; discriminate E]. }
  assert (forall s : server, reply_typed (accept_acked (mkBallot 1 1)) s) as Ha.
  { intros s. split; [intros b E; discriminate E|].
    split; [repeat split; vm_compute; discriminate | intros E; discriminate E]. }
  unfold commit_run. generalize (listen (started 1)). intros s.
  split; [split; [exact Hq | exact I]|]. split; [split; [exact I | apply Hp]|].
  split; [split; [exact I | apply Ha] | exact I].
Qed.

Lemma commit_run_defined : ub (HandleRPCs commit_run (started 1)) = false.
Proof. vm_compute. reflexivity. Qed.

Definition committed_transfer : WALEntry :=
  entry_of transfer_1_2 (mkBallot 1 1) INTRA COMMITTED.

Lemma commit_run_log : log (started 1) = [] /\ log (HandleRPCs commit_run (started 1)) = [committed_transfer].
Proof. vm_compute. split; reflexivity. Qed.

Lemma commit_run_local : local (started 1) 1 /\ local (started 1) 2
  /\ local (HandleRPCs commit_run (started 1)) 1
  /\ balance_of (started 1) 1 = 10 /\ balance_of (started 1) 2 = 10.
Proof. vm_compute. repeat split; reflexivity. Qed.

Lemma in32_1 : in32 1.
Proof. by vm_compute. Qed.


