(* ===== verification/Conservation.v ===== *)
(** * Conservation: money moves, it is not made

    Consequences of [Restart.balances_follow_log] for the shard as a whole: the
    total of its accounts changes only by what crosses its border, and replicas
    that have committed the same transactions, in whatever order, hold the same
    balances. *)

From S2P Require Import Prelude Text Types Utils Store Wal Server Calls Fixture Storage.
From S2P Require Import Handlers Restart.

(** ** Sums *)

Definition sumZ {A} (f : A -> Z) (l : list A) : Z := foldr (fun x a => f x + a) 0 l.

Lemma sumZ_ext {A} (f g : A -> Z) l : (forall x, x ∈ l -> f x = g x) -> sumZ f l = sumZ g l.
Proof.
  induction l as [|x l IH]; intros E; [done|]. simpl.
  rewrite (E x), IH; [done| |]; set_solver.
Qed.

Lemma sumZ_add {A} (f g : A -> Z) l : sumZ (fun x => f x + g x) l = sumZ f l + sumZ g l.
Proof. induction l as [|x l IH]; simpl; lia. Qed.

Lemma sumZ_zero {A} (l : list A) : sumZ (fun _ => 0) l = 0.
Proof. induction l as [|x l IH]; simpl; lia. Qed.

#[export] Instance sumZ_perm {A} (f : A -> Z) : Proper ((≡ₚ) ==> (=)) (sumZ f).
Proof. induction 1; simpl; lia. Qed.

Lemma sumZ_fmap {A B} (f : B -> Z) (g : A -> B) l : sumZ f (g <$> l) = sumZ (fun x => f (g x)) l.
Proof.
  induction l as [|x l IH]; [done|].
  change (f (g x) + sumZ f (g <$> l) = f (g x) + sumZ (fun x => f (g x)) l). by rewrite IH.
Qed.

(** Exchanging two sums. *)
Lemma sumZ_swap {A B} (f : A -> B -> Z) l m :
  sumZ (fun x => sumZ (f x) m) l = sumZ (fun y => sumZ (fun x => f x y) l) m.
Proof.
  induction l as [|x l IH]; simpl; [by rewrite sumZ_zero|].
  by rewrite IH, <- sumZ_add.
Qed.

(** A sum with one term. *)
Lemma sumZ_one (a d : Z) l : NoDup l ->
  sumZ (fun i => if decide (i = a) then d else 0) l = if decide (a ∈ l) then d else 0.
Proof.
  induction l as [|x l IH]; intros Hnd; [done|]. apply NoDup_cons in Hnd as [Hn Hnd].
  cbn [sumZ foldr]. fold (sumZ (fun i => if decide (i = a) then d else 0) l).
  rewrite (IH Hnd). destruct (decide (x = a)) as [->|Hne].
  - rewrite decide_False, decide_True by set_solver. lia.
  - destruct (decide (a ∈ l)); [rewrite decide_True by set_solver|rewrite decide_False by set_solver]; lia.
Qed.

(** ** The transactions that count *)

Fixpoint effects (seen : gset Z) (l : list WALEntry) : list WALEntry :=
  match l with
  | [] => []
  | e :: l' =>
    (if effective seen e then [e] else [])
    ++ effects (if committed e then {[ tid e ]} ∪ seen else seen) l'
  end.

Lemma ledger_effects l c : ledger l c = sumZ (fun e => delta e c) (effects ∅ l).
Proof.
  unfold ledger. generalize (∅ : gset Z). induction l as [|e l IH]; intros seen; [done|].
  simpl. rewrite IH. destruct (effective seen e); simpl; lia.
Qed.

(** The effect on an account depends on the transaction only. *)
Definition tdelta (t : Transaction) (c : Z) : Z :=
  (if decide (c = receiver t) then amount t else 0) - (if decide (c = sender t) then amount t else 0).

Section conservation.
Context {D : Type} `{KVLaws D, !KVReliable D}.
Implicit Types s : ServerImpl D.

(** The accounts of the shard, and their total. *)
Definition accounts s : list Z := filter (local s) (loop 1 total_clients).
Definition total s : Z := sumZ (balance_of s) (accounts s).

(** What a transaction brings into the shard. *)
Definition net_flow s (e : WALEntry) : Z :=
  (if decide (receiver (txn e) ∈ accounts s) then amount (txn e) else 0)
  - (if decide (sender (txn e) ∈ accounts s) then amount (txn e) else 0).

Lemma accounts_nodup s : NoDup (accounts s).
Proof. apply NoDup_filter, loop_nodup. Qed.

Lemma sum_delta s e : sumZ (delta e) (accounts s) = net_flow s e.
Proof.
  unfold delta, net_flow.
  rewrite (sumZ_ext _ (fun c => (if decide (c = receiver (txn e)) then amount (txn e) else 0)
    + (if decide (c = sender (txn e)) then - amount (txn e) else 0))).
  - rewrite sumZ_add, !sumZ_one by apply accounts_nodup. repeat case_decide; lia.
  - intros c _. repeat case_decide; lia.
Qed.

(** C3.  The total of a shard changes only by what crosses its border: over any run
    the sum of the balances of the accounts of a shard grows by the amounts
    received minus the amounts sent of the transactions committed, once each; a
    transfer between two accounts of the shard contributes nothing. *)
Theorem shard_total c id name s ps : in32 id -> booted c id name s ->
  polls_typed ps (listen s) -> ub (HandleRPCs ps s) = false ->
  let s' := HandleRPCs ps s in
  let fresh := drop (length (log s)) (log s') in
  sumZ (balance_of s') (accounts s) = total s + sumZ (net_flow s) (effects ∅ fresh)
  /\ (forall e, sender (txn e) ∈ accounts s -> receiver (txn e) ∈ accounts s -> net_flow s e = 0).
Proof.
  intros Hid Hb Hp Hu s' fresh. split.
  - destruct (run_ok c id name s ps Hid Hb Hp Hu) as ([_ _ _ _ Hle _ _] & [En Ec] & _).
    fold s' in Hle, En, Ec. fold fresh in Hle.
    rewrite (sumZ_ext _ (fun i => balance_of s i + sumZ (fun e => delta e i) (effects ∅ fresh))).
    + rewrite sumZ_add, sumZ_swap. unfold total. f_equal. apply sumZ_ext. intros e _. apply sum_delta.
    + intros i Hi. unfold accounts in Hi. apply list_elem_of_filter in Hi as [Hi _].
      rewrite Hle, ledger_effects; [done|]. revert Hi.
      unfold local, isClientInCluster_s, getClusterIdFromClientId. by rewrite En, Ec.
  - intros e H1' H2'. unfold net_flow. by rewrite !decide_True, Z.sub_diag.
Qed.

(** C4.  Replicas that have committed the same transactions agree: two servers of
    one cluster that started with the same balances and have since committed the
    same transactions hold the same balance for every account of the shard,
    whatever the order in which the entries reached them and however often each
    was delivered, through commits, decisions or synchronization. *)
Theorem replicas_agree c id1 id2 name1 name2 s1 s2 ps1 ps2 :
  in32 id1 -> in32 id2 -> getClusterIdFromServerId c id1 = getClusterIdFromServerId c id2 ->
  booted c id1 name1 s1 -> booted c id2 name2 s2 ->
  (forall i, local s1 i -> balance_of s1 i = balance_of s2 i) ->
  polls_typed ps1 (listen s1) -> ub (HandleRPCs ps1 s1) = false ->
  polls_typed ps2 (listen s2) -> ub (HandleRPCs ps2 s2) = false ->
  txn <$> effects ∅ (drop (length (log s1)) (log (HandleRPCs ps1 s1)))
  ≡ₚ txn <$> effects ∅ (drop (length (log s2)) (log (HandleRPCs ps2 s2))) ->
  forall i, local s1 i -> balance_of (HandleRPCs ps1 s1) i = balance_of (HandleRPCs ps2 s2) i.
Proof.
  intros Hid1 Hid2 Hcl Hb1 Hb2 H0' Hp1 Hu1 Hp2 Hu2 Hperm i Hi.
  destruct (run_ok c id1 name1 s1 ps1 Hid1 Hb1 Hp1 Hu1) as ([_ _ _ _ L1 _ _] & [N1 C1] & [[A1 B1] _ _]).
  destruct (run_ok c id2 name2 s2 ps2 Hid2 Hb2 Hp2 Hu2) as ([_ _ _ _ L2 _ _] & [N2 C2] & [[A2 B2] _ _]).
  assert (forall s, num_clusters (cfg s) = num_clusters (cfg s1) -> cluster_id s = cluster_id s1 ->
    local s i) as Hl.
  { intros s E1 E2. revert Hi. unfold local, isClientInCluster_s, getClusterIdFromClientId.
    by rewrite E1, E2. }
  rewrite L1, L2 by (apply Hl; congruence). rewrite (H0' i Hi). f_equal.
  rewrite !ledger_effects.
  assert (forall l, sumZ (fun e => delta e i) l = sumZ (fun t => tdelta t i) (txn <$> l)) as E.
  { intros l. by rewrite sumZ_fmap. }
  by rewrite !E, Hperm.
Qed.

End conservation.

(** ** An example: the leader and a replica of one committed transfer *)

Lemma shard_total_witness :
  sumZ (balance_of (HandleRPCs commit_run (started 1))) (accounts (started 1))
  = total (started 1).
Proof.
  pose proof (shard_total deployment 1 (server_name_of 1) (started 1) commit_run
    in32_1 booted_1 commit_run_typed commit_run_defined) as [Ht _].
  destruct commit_run_log as [E0 E1]. rewrite E0, E1 in Ht.
  refine (eq_trans Ht _).
  assert (sumZ (net_flow (started 1)) (effects ∅ (drop (length (@nil WALEntry)) [committed_transfer])) = 0)
    as -> by (vm_compute; reflexivity).
  apply Z.add_0_r.
Defined.

Lemma booted_2 : booted deployment 2 (server_name_of 2) (started 2).
Proof. apply (boot_first _ _ _ ∅); [done | apply started_2]. Qed.

Lemma replica_run_typed : polls_typed replica_run (listen (started 2)).
Proof.
  assert (forall q, In q [replica_prepare; replica_accept; replica_commit] -> request_typed q) as Hq.
  { simpl. intros q [<-|[<-|[<-|[]]]]; repeat split; try constructor; try constructor;
      try (repeat split; vm_compute; discriminate); vm_compute; discriminate. }
  unfold replica_run. generalize (listen (started 2)). intros s. simpl in Hq.
  split; [split; [apply Hq; auto | exact I]|]. split; [split; [apply Hq; auto | exact I]|].
  split; [split; [apply Hq; auto | exact I] | exact I].
Qed.

Lemma replica_run_defined : ub (HandleRPCs replica_run (started 2)) = false
  /\ log (started 2) = [] /\ log (HandleRPCs replica_run (started 2)) = [committed_transfer].
Proof. vm_compute. repeat split; reflexivity. Qed.

Lemma started_same : forall i, local (started 1) i -> balance_of (started 1) i = balance_of (started 2) i.
Proof.
  assert (bool_decide (balances (started 1) = balances (started 2)) = true) as E
    by (vm_compute; reflexivity).
  apply bool_decide_eq_true in E. revert E. unfold balance_of.
  generalize (balances (started 1)) (balances (started 2)). intros m1 m2 -> i _. reflexivity.
Qed.

Lemma replicas_agree_witness :
  balance_of (HandleRPCs commit_run (started 1)) 1
  = balance_of (HandleRPCs replica_run (started 2)) 1.
Proof.
  destruct commit_run_log as [E0 E1], replica_run_defined as (U2 & F0 & F1).
  apply (replicas_agree deployment 1 2 (server_name_of 1) (server_name_of 2) (started 1) (started 2)
    commit_run replica_run in32_1 ltac:(vm_compute; split; discriminate) eq_refl booted_1 booted_2
    started_same commit_run_typed commit_run_defined replica_run_typed U2).
  - rewrite E0, E1, F0, F1. reflexivity.
  - exact (proj1 commit_run_local).
Defined.
