(* ===== verification/Commands.v ===== *)
(** * Commands: the command line of the driver

    [class CommandsParser] ([src/utils/commands_parser.h],
    [src/utils/commands_parser.cc]).  The regular expressions are recognisers on
    texts; [std::invalid_argument] and [std::out_of_range] are the two ways a
    command is refused.  The results say exactly which lines are commands, what
    they mean, and which exception every other line raises. *)

From S2P Require Import Prelude Text Types.

(** The commands [promptUserForCommand] offers. *)
Definition prompt_text : text :=
  L "Type one of the following commands to proceed:" ++ [nl]
  ++ L "1. processNextSet" ++ [nl]
  ++ L "2. printBalance <client_id>" ++ [nl]
  ++ L "3. printDatastore" ++ [nl]
  ++ L "4. printPerformance" ++ [nl]
  ++ L "5. exit" ++ [nl]
  ++ L "=========================================================================" ++ [nl].

(** What it prints, and the line [getline] returns: standard input is the lines
    not read yet, and the stream fails when there is none. *)
Definition promptUserForCommand (input : list text) : text * option (text * list text) :=
  (prompt_text, match input with [] => None | l :: input' => Some (l, input') end).

(** The pattern [printBalance [1-9][0-9]*]. *)
Definition printBalancePattern (l : text) : bool :=
  let p := L "printBalance " in
  bool_decide (take (length p) l = p) &&
  match drop (length p) l with
  | c :: l' => is_digit c && negb (bool_decide (c = chr 48)) && forallb is_digit l'
  | [] => false
  end.

Definition isValidCommand (l : text) : bool :=
  bool_decide (l = L "processNextSet") || printBalancePattern l
  || bool_decide (l = L "printDatastore") || bool_decide (l = L "printPerformance")
  || bool_decide (l = L "exit").

(** [while (stream >> token)]; every token has a character, so the length of the
    text bounds the rounds. *)
Fixpoint tokens (fuel : nat) (l : text) : list text :=
  match fuel with
  | O => []
  | S k => match scan_word l with None => [] | Some (w, r) => w :: tokens k r end
  end.

Definition tokenizeCommand (l : text) : list text := tokens (S (length l)) l.

Definition parseCommand (l : text) : AppCommand + exn :=
  if negb (isValidCommand l) then inr invalid_argument
  else
    let command_tokens := tokenizeCommand l in
    try t := at_index command_tokens 0 in
    if bool_decide (t = L "processNextSet") then inl (mkAppCommand PROCESS_NEXT_SET (-1))
    else if bool_decide (t = L "printBalance") then
      try w := at_index command_tokens 1 in
      try n := stoi w in inl (mkAppCommand PRINT_BALANCE n)
    else if bool_decide (t = L "printDatastore") then inl (mkAppCommand PRINT_DATASTORE (-1))
    else if bool_decide (t = L "printPerformance") then inl (mkAppCommand PRINT_PERFORMANCE (-1))
    else inl (mkAppCommand EXIT (-1)).

(** ** The commands and their text *)

Definition command_text (c : AppCommand) : text :=
  match command c with
  | PROCESS_NEXT_SET => L "processNextSet"
  | PRINT_BALANCE => L "printBalance " ++ to_text (client_id c)
  | PRINT_DATASTORE => L "printDatastore"
  | PRINT_PERFORMANCE => L "printPerformance"
  | EXIT => L "exit"
  end.

Definition command_ok (c : AppCommand) : Prop :=
  match command c with
  | PRINT_BALANCE => 1 <= client_id c <= int_max
  | _ => client_id c = -1
  end.

(** ** Numbers without leading zeros *)

Lemma digits_fuel_irrel f g n : 0 <= n < 2 ^ Z.of_nat f -> n < 2 ^ Z.of_nat g ->
  f <> O -> g <> O -> digits_fuel f n = digits_fuel g n.
Proof.
  revert g n. induction f as [|f IH]; intros [|g] n Hf Hg H0 H0'; try done. simpl.
  rewrite Nat2Z.inj_succ, Z.pow_succ_r in Hf, Hg by lia.
  destruct (Z.ltb_spec n 10); [done|]. f_equal.
  assert (0 <= n / 10) by (apply Z.div_pos; lia).
  apply IH; [split; [done|]|..]; try (apply Z.div_lt_upper_bound; lia).
  all: intros ->; simpl in *; lia.
Qed.

Lemma digits_step n : 10 <= n -> digits n = digits (n / 10) ++ [digit_chr (n mod 10)].
Proof.
  intros Hn. unfold digits at 1. cbn [digits_fuel]. destruct (Z.ltb_spec n 10); [lia|]. f_equal.
  assert (0 <= n / 10) by (apply Z.div_pos; lia).
  pose proof (log2_fuel (n / 10)) as Hl. pose proof (log2_fuel n) as Hl'.
  rewrite Nat2Z.inj_succ, Z.pow_succ_r in Hl' by lia.
  apply digits_fuel_irrel; [|by apply Hl| |done].
  - split; [done|]. apply Z.div_lt_upper_bound; lia.
  - intros E. rewrite E in Hl'. simpl in Hl'. lia.
Qed.

Lemma digit_chr_val c : is_digit c = true -> 0 <= digit_val c < 10 /\ digit_chr (digit_val c) = c.
Proof.
  unfold is_digit, digit_val, digit_chr, chr. intros Hd.
  apply andb_true_iff in Hd as [H1 H2]. split; [lia|].
  replace (Z.to_N _) with (Ascii.N_of_ascii c) by lia. apply Ascii.ascii_N_embedding.
Qed.

Lemma read_digits_snoc acc l c : Forall (fun c => is_digit c = true) l -> is_digit c = true ->
  (read_digits acc (l ++ [c])).1 = (read_digits acc l).1 * 10 + digit_val c.
Proof.
  intros Hl Hc. revert acc. induction Hl as [|x l Hx Hl IH]; intros acc; simpl.
  - by rewrite Hc.
  - by rewrite Hx, IH.
Qed.

(** A text of digits that does not start with a zero is the text of a number. *)
Lemma digits_of_text c l : is_digit c = true -> c <> chr 48 ->
  Forall (fun c => is_digit c = true) l ->
  exists n, 1 <= n /\ to_text n = c :: l.
Proof.
  intros Hc H0 Hl. exists (read_digits 0 (c :: l)).1.
  assert (1 <= (read_digits 0 (c :: l)).1 /\ digits (read_digits 0 (c :: l)).1 = c :: l) as [Hp E].
  2: { split; [done|]. unfold to_text. destruct (Z.ltb_spec (read_digits 0 (c :: l)).1 0); [lia|done]. }
  induction l as [|d l IH] using rev_ind.
  - destruct (digit_chr_val c Hc) as [Hr Hv]. cbn [read_digits]. rewrite Hc.
    cbn [read_digits fst]. rewrite Z.mul_0_l, Z.add_0_l.
    assert (digit_val c <> 0) by (intros E; apply H0; by rewrite <- Hv, E).
    split; [lia|]. unfold digits. cbn [digits_fuel].
    destruct (Z.ltb_spec (digit_val c) 10); [|lia]. by rewrite Hv.
  - apply Forall_app in Hl as [Hl Hd]. rewrite Forall_singleton in Hd.
    destruct (IH Hl) as [Hp E]. change (c :: l ++ [d]) with ((c :: l) ++ [d]).
    rewrite read_digits_snoc by (done || by constructor).
    destruct (digit_chr_val d Hd) as [Hr Hv]. set (v := (read_digits 0 (c :: l)).1) in *.
    split; [lia|]. rewrite digits_step by lia.
    replace ((v * 10 + digit_val d) / 10) with v
      by (apply Z.div_unique with (r := digit_val d); lia).
    replace ((v * 10 + digit_val d) mod 10) with (digit_val d)
      by (apply Z.mod_unique with (q := v); lia).
    by rewrite E, Hv.
Qed.

Lemma text_of_positive n : 1 <= n -> exists c l, to_text n = c :: l /\ is_digit c = true
  /\ c <> chr 48 /\ Forall (fun c => is_digit c = true) l.
Proof.
  unfold to_text. induction n as [n IH] using (well_founded_induction (Z.lt_wf 0)). intros Hn.
  destruct (Z.ltb_spec n 0); [lia|]. destruct (Z.ltb_spec n 10).
  - exists (digit_chr n), []. destruct (digit_chr_props n) as [Hd Hv]; [lia|].
    unfold digits. cbn [digits_fuel]. destruct (Z.ltb_spec n 10); [|lia].
    split_and!; try done. intros E. rewrite E in Hv. vm_compute in Hv. lia.
  - assert (1 <= n / 10 < n) as Hq by (split; [apply Z.div_le_lower_bound|apply Z.div_lt]; lia).
    destruct (IH (n / 10)) as (c & l & E & Hc & Hz & Hl); [lia..|].
    destruct (Z.ltb_spec (n / 10) 0); [lia|].
    rewrite digits_step, E by lia. exists c, (l ++ [digit_chr (n mod 10)]).
    split_and!; try done. apply Forall_app. split; [done|]. apply Forall_singleton, digit_chr_props.
    apply Z.mod_pos_bound. lia.
Qed.

(** ** Which lines are commands *)

Lemma printBalancePattern_spec l :
  printBalancePattern l = true <-> exists n, 1 <= n /\ l = L "printBalance " ++ to_text n.
Proof.
  unfold printBalancePattern. generalize (L "printBalance ") as p. intros p. split.
  - intros [Ht Hd]%andb_true_iff. apply bool_decide_eq_true in Ht.
    destruct (drop (length p) l) as [|c l'] eqn:E; [done|].
    apply andb_true_iff in Hd as [[Hc H0]%andb_true_iff Hl].
    destruct (digits_of_text c l') as (n & Hn & En).
    + done.
    + by intros ->.
    + apply Forall_forall. intros x Hx. apply list_elem_of_In in Hx.
      rewrite forallb_forall in Hl. auto.
    + exists n. split; [done|]. rewrite En, <- E, <- Ht at 1. by rewrite take_drop.
  - intros (n & Hn & ->). destruct (text_of_positive n Hn) as (c & l & -> & Hc & H0 & Hl).
    rewrite take_app_length, drop_app_length, bool_decide_true, Hc by done. simpl.
    rewrite bool_decide_false by done. simpl. apply forallb_forall.
    intros x Hx. rewrite Forall_forall in Hl. apply Hl, list_elem_of_In, Hx.
Qed.

Lemma isValidCommand_spec l : isValidCommand l = true <->
  l = L "processNextSet" \/ (exists n, 1 <= n /\ l = L "printBalance " ++ to_text n)
  \/ l = L "printDatastore" \/ l = L "printPerformance" \/ l = L "exit".
Proof.
  unfold isValidCommand. rewrite !orb_true_iff, !bool_decide_eq_true, printBalancePattern_spec. tauto.
Qed.

Lemma tokens_number n : tokenizeCommand (L "printBalance " ++ to_text n)
  = [L "printBalance"; to_text n].
Proof.
  destruct (to_text_cons n) as (c & l & E & Hs & _).
  assert (Forall (fun c => is_space c = false) (to_text n)) as Hp.
  { eapply Forall_impl; [apply to_text_plain|]. by intros x [? _]. }
  unfold tokenizeCommand. change (L "printBalance " ++ to_text n) with
    (L "printBalance" ++ sp :: to_text n).
  rewrite length_app. change (length (sp :: to_text n)) with (S (length (to_text n))).
  replace (S (length (L "printBalance") + S (length (to_text n)))) with
    (S (S (S (11 + length (to_text n))))) by (unfold L; simpl; lia).
  cbn [tokens]. rewrite scan_word_app; [|done|by repeat constructor|done].
  assert (scan_word (sp :: to_text n) = Some (to_text n, [])) as ->.
  { transitivity (scan_word (to_text n ++ [])); [by rewrite app_nil_r|].
    apply scan_word_app; [by rewrite E|done|done]. }
  done.
Qed.

Lemma parse_number n : 1 <= n -> parseCommand (L "printBalance " ++ to_text n)
  = if in32b n then inl (mkAppCommand PRINT_BALANCE n) else inr out_of_range.
Proof.
  intros Hn. unfold parseCommand.
  rewrite (proj2 (isValidCommand_spec _)) by eauto. rewrite tokens_number.
  cbn -[stoi in32b]. unfold stoi.
  rewrite <- (app_nil_r (to_text n)), skip_ws_to_text, read_number_to_text by done.
  by destruct (in32b n).
Qed.

Lemma parse_text c : command_ok c -> parseCommand (command_text c) = inl c.
Proof.
  destruct c as [c i]. unfold command_ok, command_text. cbn [command client_id]. intros Hc.
  destruct c; [by rewrite Hc| |by rewrite Hc..].
  rewrite parse_number by lia. rewrite (proj2 (in32b_spec i)); [done|].
  unfold in32, int_min. lia.
Qed.

(** C33. Commands and their text: a line parses to a command exactly when it is the
    text of that command, and client numbers are the positive [int]s written
    without leading zeros. *)
Theorem command_roundtrip l c :
  parseCommand l = inl c <-> command_ok c /\ l = command_text c.
Proof.
  split; [|intros [Hc ->]; by apply parse_text].
  intros E. destruct (isValidCommand l) eqn:Hv; [|by unfold parseCommand in E; rewrite Hv in E].
  apply isValidCommand_spec in Hv as [->|[(n & Hn & ->)|[->|[-> | ->]]]];
    [by vm_compute in E; injection E as <- | | by vm_compute in E; injection E as <- ..].
  rewrite parse_number in E by done. destruct (in32b n) eqn:Hb; [|done]. injection E as <-.
  apply in32b_spec in Hb. unfold command_ok, in32 in *. simpl. split; [lia|done].
Qed.

(** C34. Refused lines: a well-formed balance request whose number does not fit an
    [int] raises [out_of_range], every other line that is no command raises
    [invalid_argument]. *)
Theorem command_errors l e :
  parseCommand l = inr e <->
  (e = out_of_range /\ exists n, int_max < n /\ l = L "printBalance " ++ to_text n)
  \/ (e = invalid_argument /\ isValidCommand l = false).
Proof.
  split.
  - intros E. destruct (isValidCommand l) eqn:Hv.
    + left. apply isValidCommand_spec in Hv as [->|[(n & Hn & ->)|[->|[-> | ->]]]];
        [by vm_compute in E | | by vm_compute in E ..].
      rewrite parse_number in E by done. destruct (in32b n) eqn:Hb; [done|]. injection E as <-.
      split; [done|]. exists n. split; [|done].
      unfold in32b, int_min, int_max in *. lia.
    + right. unfold parseCommand in E. rewrite Hv in E. by injection E as <-.
  - intros [[-> (n & Hn & ->)]|[-> Hv]].
    + unfold int_max in Hn. rewrite parse_number by lia.
      assert (in32b n = false) as ->; [|done]. unfold in32b, int_min, int_max. lia.
    + unfold parseCommand. by rewrite Hv.
Qed.
