(* ===== verification/Csv.v ===== *)
(** * Csv: the reader of transaction sets

    [class CSVReader] ([src/utils/csv_reader.h], [src/utils/csv_reader.cc]).  The
    reader holds the lines of the file that are left, and two transaction sets:
    the one being read and the beginning of the next one, found when the first row
    of that set ends the current set.  A row that cannot be parsed throws; the
    state the exception leaves behind is part of the result.

    The main result is a round trip: a file written in the format of the
    repository is read back as the transaction sets it was written from. *)

From S2P Require Import Prelude Text Types Utils Store Wal Server Calls Fixture.

Definition cr : ascii := chr 13.
Definition comma : ascii := chr 44.
Definition quote : ascii := chr 34.
Definition lparen : ascii := chr 40.
Definition rparen : ascii := chr 41.
Definition lbracket : ascii := chr 91.
Definition rbracket : ascii := chr 93.

(** ** Parsing a row *)

Definition stripped (c : ascii) : bool :=
  bool_decide (c = cr) || bool_decide (c = nl) || bool_decide (c = sp).

Definition stripLineEndings (line : text) : text :=
  filter (fun c => stripped c = false) line.

(** The loop of [parseTransaction] and [parseServers]: brackets and spaces are
    skipped, a comma ends a field. *)
Fixpoint split_fields (skip : ascii -> bool) (field : text) (l : text) : list text :=
  match l with
  | [] => [field]
  | c :: l' =>
    if skip c then split_fields skip field l'
    else if bool_decide (c = comma) then field :: split_fields skip [] l'
    else split_fields skip (field ++ [c]) l'
  end.

Definition skip_transaction (c : ascii) : bool :=
  bool_decide (c = lparen) || bool_decide (c = rparen) || bool_decide (c = sp).
Definition skip_servers (c : ascii) : bool :=
  bool_decide (c = lbracket) || bool_decide (c = rbracket) || bool_decide (c = sp).

Definition parseTransaction (column : text) : Transaction + exn :=
  let fields := split_fields skip_transaction [] column in
  try f0 := at_index fields 0 in try s := stoi f0 in
  try f1 := at_index fields 1 in try r := stoi f1 in
  try f2 := at_index fields 2 in try a := stoi f2 in
  inl (mkTransaction s r a).

Definition parseServers (column : text) : list text := split_fields skip_servers [] column.

(** The columns of a row: a comma inside quotes does not separate. *)
Fixpoint split_columns (inQuotes : bool) (column : text) (l : text) : list text :=
  match l with
  | [] => [column]
  | c :: l' =>
    if bool_decide (c = quote) then split_columns (negb inQuotes) column l'
    else if bool_decide (c = comma) && negb inQuotes then column :: split_columns inQuotes [] l'
    else split_columns inQuotes (column ++ [c]) l'
  end.

Definition servers_column (column : text) : list text :=
  match column with [] => [] | _ => parseServers column end.

Definition parseCSVLine (line : text) : CSVLine + exn :=
  let columns := split_columns false [] line in
  try c0 := at_index columns 0 in
  try n := (match c0 with [] => inl (-1) | _ => stoi c0 end) in
  try c1 := at_index columns 1 in try t := parseTransaction c1 in
  try c2 := at_index columns 2 in
  try c3 := at_index columns 3 in
  inl (mkCSVLine n t (servers_column c2) (servers_column c3)).

(** ** The reader *)

Definition empty_set : TransactionSet := mkTransactionSet 0 [] [] [] [].

#[export] Instance eta_TransactionSet : Eta TransactionSet := fun t =>
  mkTransactionSet (set_no t) (transactions t) (servers t) (leaders t) (disconnected_servers t).

Record CSVReader := mkCSVReader {
  file_lines : list text;
  currentSetNo : Z;
  currentTransactionSet : TransactionSet;
  nextTransactionSet : TransactionSet
}.

#[export] Instance eta_CSVReader : Eta CSVReader := fun r =>
  mkCSVReader (file_lines r) (currentSetNo r) (currentTransactionSet r) (nextTransactionSet r).

(** The constructor; it throws when the file cannot be opened. *)
Definition open_csv (file : option text) : option CSVReader :=
  f ← file; Some (mkCSVReader (lines f).*2 0 empty_set empty_set).

Definition swap_sets (r : CSVReader) : CSVReader :=
  let c := currentTransactionSet r in let n := nextTransactionSet r in
  r <| currentTransactionSet := c <| servers := servers n |> <| leaders := leaders n |>
                                  <| transactions := transactions n |> |>
    <| nextTransactionSet := n <| servers := servers c |> <| leaders := leaders c |>
                               <| transactions := transactions c |> |>.

Definition push_transaction (t : Transaction) (s : TransactionSet) : TransactionSet :=
  s <| transactions ::= fun l => l ++ [t] |>.

Definition first_row (l : CSVLine) (s : TransactionSet) : TransactionSet :=
  (push_transaction (l_transaction l) s)
    <| servers := l_servers l |> <| leaders := l_leaders l |>.

(** The loop over the lines of the file, from the line about to be read. *)
Fixpoint read_lines (ls : list text) (r : CSVReader) : CSVReader * option exn :=
  match ls with
  | [] => (r <| file_lines := [] |>, None)
  | line :: ls' =>
    let r := r <| file_lines := ls' |> in
    match parseCSVLine (stripLineEndings line) with
    | inr e => (r, Some e)
    | inl l =>
      if l_set_no l =? currentSetNo r then
        read_lines ls' (r <| currentTransactionSet ::= first_row l |>)
      else if l_set_no l =? currentSetNo r + 1 then
        (r <| nextTransactionSet ::= first_row l |>, None)
      else read_lines ls' (r <| currentTransactionSet ::= push_transaction (l_transaction l) |>)
    end
  end.

(** The outcomes of [readNextSet]: a set and the number of its transactions, 0
    when no transaction is left, or an exception. *)
Inductive ReadOutcome :=
  | SetRead (n : Z) (t : TransactionSet)
  | NoMoreSets
  | ReadThrows (e : exn).

Definition not_listed (cfg : constants) (alive : list text) : list text :=
  filter (fun name => name ∉ alive) (map_iter (server_ids cfg)).*1.

Definition readNextSet (cfg : constants) (r : CSVReader) : CSVReader * ReadOutcome :=
  let r := swap_sets (r <| currentSetNo ::= Z.succ |>) in
  let r := r <| nextTransactionSet ::= fun n => n <| servers := [] |> <| transactions := [] |> |> in
  let '(r, e) := read_lines (file_lines r) r in
  match e with
  | Some e => (r, ReadThrows e)
  | None =>
    let c := currentTransactionSet r in
    match transactions c with
    | [] => (r, NoMoreSets)
    | ts => (r, SetRead (Z.of_nat (length ts))
                  (mkTransactionSet (currentSetNo r) ts (servers c) (leaders c)
                     (not_listed cfg (servers c))))
    end
  end.

(** Successive calls. *)
Fixpoint read_sets (cfg : constants) (k : nat) (r : CSVReader) : list ReadOutcome :=
  match k with
  | O => []
  | S k' => let '(r', o) := readNextSet cfg r in o :: read_sets cfg k' r'
  end.

(** ** The format *)

Definition quoted (l : text) : text := quote :: l ++ [quote].

Definition transaction_text (t : Transaction) : text :=
  lparen :: to_text (sender t) ++ L ", " ++ to_text (receiver t) ++ L ", "
  ++ to_text (amount t) ++ [rparen].

Fixpoint join_names (l : list text) : text :=
  match l with
  | [] => []
  | [n] => n
  | n :: l' => n ++ L ", " ++ join_names l'
  end.

Definition names_text (l : list text) : text := lbracket :: join_names l ++ [rbracket].

(** The first row of a set, and the others. *)
Definition header_row (n : Z) (t : Transaction) (sv ld : list text) : text :=
  to_text n ++ [comma] ++ quoted (transaction_text t) ++ [comma]
  ++ quoted (names_text sv) ++ [comma] ++ quoted (names_text ld).

Definition other_row (t : Transaction) : text :=
  [comma] ++ quoted (transaction_text t) ++ [comma; comma].

Definition set_rows (t : TransactionSet) : list text :=
  match transactions t with
  | [] => []
  | x :: xs => header_row (set_no t) x (servers t) (leaders t) :: (other_row <$> xs)
  end.

Definition file_text (sets : list TransactionSet) : text :=
  concat ((fun l => l ++ [nl]) <$> concat (set_rows <$> sets)).

(** ** Lemmas on the splitters *)

(** A character that is no separator, quote or bracket. *)
Definition plain_char (c : ascii) : bool :=
  forallb (fun d => negb (bool_decide (c = d))) [cr; nl; sp; comma; quote; lparen; rparen; lbracket; rbracket].

Definition plain (l : text) : Prop := Forall (fun c => plain_char c = true) l.

Lemma plain_char_ne c d : plain_char c = true ->
  d ∈ [cr; nl; sp; comma; quote; lparen; rparen; lbracket; rbracket] -> c <> d.
Proof.
  unfold plain_char. rewrite forallb_forall. intros Hc Hd%list_elem_of_In ->.
  apply Hc in Hd. by rewrite bool_decide_true in Hd.
Qed.

Lemma to_text_plain_char z : plain (to_text z).
Proof.
  eapply Forall_impl; [apply to_text_chars|]. intros c [Hd| ->]; [|by vm_compute].
  unfold plain_char. apply forallb_forall. intros d Hin. apply negb_true_iff, bool_decide_eq_false.
  intros ->. simpl in Hin. repeat destruct Hin as [<-|Hin]; done.
Qed.

Lemma strip_app a b : stripLineEndings (a ++ b) = stripLineEndings a ++ stripLineEndings b.
Proof. apply filter_app. Qed.

Lemma strip_plain l : plain l -> stripLineEndings l = l.
Proof.
  intros Hl. apply filter_all. eapply Forall_impl; [exact Hl|]. intros c Hc.
  unfold stripped. rewrite !bool_decide_false by (eapply plain_char_ne; [done|set_solver]). done.
Qed.

Lemma split_columns_app q acc w rest :
  Forall (fun c => c <> quote /\ (q = true \/ c <> comma)) w ->
  split_columns q acc (w ++ rest) = split_columns q (acc ++ w) rest.
Proof.
  revert acc. induction w as [|c w IH]; intros acc; [by rewrite app_nil_r|].
  intros [[H1 H2] Hw]%Forall_cons. simpl. rewrite bool_decide_false by done.
  assert (bool_decide (c = comma) && negb q = false) as ->.
  { destruct H2 as [-> |H2]; [by rewrite andb_false_r|]. by rewrite bool_decide_false. }
  rewrite IH by done. by rewrite <- app_assoc.
Qed.

Lemma split_columns_quoted acc w rest : Forall (fun c => c <> quote) w ->
  split_columns false acc (quoted w ++ rest) = split_columns false (acc ++ w) rest.
Proof.
  intros Hw. unfold quoted. simpl. rewrite <- app_assoc, split_columns_app.
  - done.
  - eapply Forall_impl; [exact Hw|]. auto.
Qed.

Lemma split_columns_comma acc rest :
  split_columns false acc ([comma] ++ rest) = acc :: split_columns false [] rest.
Proof. done. Qed.

Lemma split_fields_app skip acc w rest :
  Forall (fun c => skip c = false /\ c <> comma) w ->
  split_fields skip acc (w ++ rest) = split_fields skip (acc ++ w) rest.
Proof.
  revert acc. induction w as [|c w IH]; intros acc; [by rewrite app_nil_r|].
  intros [[H1 H2] Hw]%Forall_cons. simpl. rewrite H1, bool_decide_false by done.
  rewrite IH by done. by rewrite <- app_assoc.
Qed.

Lemma plain_skip_transaction l : plain l -> Forall (fun c => skip_transaction c = false /\ c <> comma) l.
Proof.
  intros Hl. eapply Forall_impl; [exact Hl|]. intros c Hc. unfold skip_transaction.
  rewrite !bool_decide_false by (eapply plain_char_ne; [done|set_solver]).
  split; [done|]. eapply plain_char_ne; [done|set_solver].
Qed.

Lemma plain_skip_servers l : plain l -> Forall (fun c => skip_servers c = false /\ c <> comma) l.
Proof.
  intros Hl. eapply Forall_impl; [exact Hl|]. intros c Hc. unfold skip_servers.
  rewrite !bool_decide_false by (eapply plain_char_ne; [done|set_solver]).
  split; [done|]. eapply plain_char_ne; [done|set_solver].
Qed.

Lemma plain_no_quote l : plain l -> Forall (fun c => c <> quote) l.
Proof. intros Hl. eapply Forall_impl; [exact Hl|]. intros c Hc. eapply plain_char_ne; [done|set_solver]. Qed.

(** ** Rows without spaces *)

Definition compact_transaction (t : Transaction) : text :=
  lparen :: to_text (sender t) ++ [comma] ++ to_text (receiver t) ++ [comma]
  ++ to_text (amount t) ++ [rparen].

Fixpoint compact_names (l : list text) : text :=
  match l with
  | [] => []
  | [n] => n
  | n :: l' => n ++ [comma] ++ compact_names l'
  end.

Lemma strip_transaction t : stripLineEndings (transaction_text t) = compact_transaction t.
Proof.
  unfold transaction_text, compact_transaction. change (lparen :: ?a) with ([lparen] ++ a).
  rewrite !strip_app, !(strip_plain (to_text _)) by apply to_text_plain_char. done.
Qed.

Lemma strip_names l : Forall plain l -> stripLineEndings (names_text l) = lbracket :: compact_names l ++ [rbracket].
Proof.
  intros Hl. unfold names_text. change (lbracket :: ?a) with ([lbracket] ++ a).
  rewrite !strip_app. change (stripLineEndings [lbracket]) with [lbracket].
  change (stripLineEndings [rbracket]) with [rbracket]. do 2 f_equal.
  induction l as [|n l IH]; [done|]. apply Forall_cons in Hl as [Hn Hl].
  destruct l as [|m l]; [by apply strip_plain|].
  change (join_names (n :: m :: l)) with (n ++ L ", " ++ join_names (m :: l)).
  rewrite !strip_app, IH, strip_plain by done. done.
Qed.

Lemma parseTransaction_compact t : txn_ok t -> parseTransaction (compact_transaction t) = inl t.
Proof.
  intros (H1 & H2 & H3). unfold parseTransaction, compact_transaction.
  change (split_fields skip_transaction [] (lparen :: ?a)) with (split_fields skip_transaction [] a).
  rewrite split_fields_app by apply plain_skip_transaction, to_text_plain_char. simpl app.
  change (split_fields skip_transaction ?f (comma :: ?a)) with (f :: split_fields skip_transaction [] a).
  rewrite split_fields_app by apply plain_skip_transaction, to_text_plain_char. simpl app.
  change (split_fields skip_transaction ?f (comma :: ?a)) with (f :: split_fields skip_transaction [] a).
  rewrite split_fields_app by apply plain_skip_transaction, to_text_plain_char. simpl app.
  change (split_fields skip_transaction ?f [rparen]) with [f].
  unfold at_index. simpl. rewrite !stoi_to_text by done. simpl. by destruct t.
Qed.

Lemma parseServers_compact l : l <> [] -> Forall plain l ->
  parseServers (lbracket :: compact_names l ++ [rbracket]) = l.
Proof.
  intros Hne Hl. unfold parseServers.
  change (split_fields skip_servers [] (lbracket :: ?a)) with (split_fields skip_servers [] a).
  induction l as [|n l IH]; [done|]. apply Forall_cons in Hl as [Hn Hl].
  destruct l as [|m l].
  - simpl. rewrite split_fields_app by by apply plain_skip_servers. done.
  - change (compact_names (n :: m :: l)) with (n ++ [comma] ++ compact_names (m :: l)).
    rewrite <- !app_assoc, split_fields_app by by apply plain_skip_servers.
    simpl app at 1. change (split_fields skip_servers ?f ([comma] ++ ?a)) with (f :: split_fields skip_servers [] a).
    by rewrite IH.
Qed.

(** ** Rows *)

Lemma compact_no_quote t : Forall (fun c => c <> quote) (compact_transaction t).
Proof.
  unfold compact_transaction. constructor; [done|].
  rewrite !Forall_app, !Forall_singleton. split_and!; try done; apply plain_no_quote, to_text_plain_char.
Qed.

Lemma names_no_quote l : Forall plain l ->
  Forall (fun c => c <> quote) (lbracket :: compact_names l ++ [rbracket]).
Proof.
  intros Hl. constructor; [done|]. apply Forall_app. split; [|by constructor].
  induction l as [|n l IH]; [constructor|]. apply Forall_cons in Hl as [Hn Hl].
  destruct l as [|m l]; [by apply plain_no_quote|].
  change (compact_names (n :: m :: l)) with (n ++ [comma] ++ compact_names (m :: l)).
  rewrite !Forall_app, Forall_singleton. split_and!; [by apply plain_no_quote|done|auto].
Qed.

Lemma strip_quoted w : stripLineEndings (quoted w) = quoted (stripLineEndings w).
Proof.
  unfold quoted. change (quote :: ?a) with ([quote] ++ a). by rewrite !strip_app.
Qed.

Lemma servers_column_names l : l <> [] -> Forall plain l ->
  servers_column (lbracket :: compact_names l ++ [rbracket]) = l.
Proof. intros. unfold servers_column. by apply parseServers_compact. Qed.

Lemma parse_header n t sv ld : in32 n -> txn_ok t -> sv <> [] -> Forall plain sv ->
  ld <> [] -> Forall plain ld ->
  parseCSVLine (stripLineEndings (header_row n t sv ld)) = inl (mkCSVLine n t sv ld).
Proof.
  intros Hn Ht Hs Hsp Hl Hlp. unfold header_row, parseCSVLine.
  rewrite !strip_app, !strip_quoted, strip_transaction, !strip_names by done.
  change (stripLineEndings [comma]) with [comma].
  rewrite (strip_plain (to_text n)) by apply to_text_plain_char.
  rewrite split_columns_app.
  2: { eapply Forall_impl; [apply to_text_plain_char|]. intros c Hc.
       split; [|right]; (eapply plain_char_ne; [done|set_solver]). }
  rewrite !(app_nil_l (to_text n)).
  rewrite split_columns_comma, split_columns_quoted by apply compact_no_quote.
  rewrite split_columns_comma, split_columns_quoted by by apply names_no_quote.
  rewrite split_columns_comma.
  rewrite <- (app_nil_r (quoted (lbracket :: compact_names ld ++ [rbracket]))).
  rewrite split_columns_quoted by by apply names_no_quote.
  unfold at_index. cbn [lookup list_lookup app split_columns try_bind].
  destruct (to_text_cons n) as (c & l & E & _). rewrite E at 1. rewrite stoi_to_text by done.
  cbn [try_bind]. rewrite parseTransaction_compact by done. cbn [try_bind].
  by rewrite !servers_column_names.
Qed.

Lemma parse_other t : txn_ok t ->
  parseCSVLine (stripLineEndings (other_row t)) = inl (mkCSVLine (-1) t [] []).
Proof.
  intros Ht. unfold other_row, parseCSVLine.
  rewrite !strip_app, strip_quoted, strip_transaction.
  change (stripLineEndings [comma]) with [comma].
  change (stripLineEndings [comma; comma]) with [comma; comma].
  rewrite split_columns_comma, split_columns_quoted by apply compact_no_quote.
  change [comma; comma] with ([comma] ++ [comma] ++ []). rewrite !split_columns_comma. unfold at_index.
  rewrite app_nil_l. cbn [lookup list_lookup split_columns try_bind].
  by rewrite parseTransaction_compact.
Qed.

(** No row contains a newline, so the file has one line per row. *)
Definition no_nl (l : text) : Prop := Forall (fun c => c <> nl) l.

Lemma plain_no_nl l : plain l -> no_nl l.
Proof. intros Hl. eapply Forall_impl; [exact Hl|]. intros c Hc. eapply plain_char_ne; [done|set_solver]. Qed.

Lemma no_nl_app a b : no_nl (a ++ b) <-> no_nl a /\ no_nl b.
Proof. apply Forall_app. Qed.

Lemma no_nl_quoted l : no_nl (quoted l) <-> no_nl l.
Proof.
  unfold quoted, no_nl. rewrite Forall_cons, Forall_app, Forall_singleton.
  assert (quote <> nl) by done. tauto.
Qed.

Lemma no_nl_transaction t : no_nl (transaction_text t).
Proof.
  unfold transaction_text. constructor; [done|]. fold no_nl.
  rewrite !Forall_app. split_and!; try (apply plain_no_nl, to_text_plain_char); by repeat constructor.
Qed.

Lemma no_nl_names l : Forall plain l -> no_nl (names_text l).
Proof.
  intros Hl. unfold names_text. constructor; [done|]. apply Forall_app. split; [|by repeat constructor].
  induction l as [|n l IH]; [constructor|]. apply Forall_cons in Hl as [Hn Hl].
  destruct l as [|m l]; [by apply plain_no_nl|].
  change (join_names (n :: m :: l)) with (n ++ L ", " ++ join_names (m :: l)).
  rewrite !Forall_app. split_and!; [by apply plain_no_nl|by repeat constructor|auto].
Qed.

Lemma no_nl_header n t sv ld : Forall plain sv -> Forall plain ld -> no_nl (header_row n t sv ld).
Proof.
  intros Hs Hl. unfold header_row. rewrite !no_nl_app, !no_nl_quoted.
  split_and!; try (by repeat constructor); auto using no_nl_transaction, no_nl_names.
  apply plain_no_nl, to_text_plain_char.
Qed.

Lemma no_nl_other t : no_nl (other_row t).
Proof.
  unfold other_row. rewrite !no_nl_app, no_nl_quoted.
  split_and!; try (by repeat constructor). apply no_nl_transaction.
Qed.

Lemma lines_of_rows rows : Forall no_nl rows ->
  (lines (concat ((fun l => l ++ [nl]) <$> rows))).*2 = rows.
Proof.
  unfold lines. generalize 0. induction rows as [|w rows IH]; intros z Hr; [done|].
  apply Forall_cons in Hr as [Hw Hr]. rewrite fmap_cons. cbn [concat].
  rewrite <- app_assoc. change ([nl] ++ ?a) with (nl :: a). rewrite lines_from_line by done.
  simpl. by rewrite IH.
Qed.

(** ** Reading a file back *)

Record set_ok (n : Z) (t : TransactionSet) : Prop := {
  so_no : set_no t = n;
  so_range : in32 n;
  so_txns : transactions t <> [] /\ Forall txn_ok (transactions t);
  so_servers : servers t <> [] /\ Forall plain (servers t);
  so_leaders : leaders t <> [] /\ Forall plain (leaders t)
}.

(** Sets numbered from [n] on. *)
Fixpoint sets_ok (n : Z) (sets : list TransactionSet) : Prop :=
  match sets with
  | [] => True
  | t :: sets' => set_ok n t /\ sets_ok (n + 1) sets'
  end.

(** What is left of the first set once its first row has been read. *)
Definition after_first (t : TransactionSet) (rest : list TransactionSet) : list text :=
  (other_row <$> tail (transactions t)) ++ concat (set_rows <$> rest).

(** The first row of [t] has been stored in [c]. *)
Definition holds_first (t c : TransactionSet) : Prop :=
  transactions c = firstn 1 (transactions t) /\ servers c = servers t /\ leaders c = leaders t.

(** The reader is about to read the sets [sets], numbered from [n]. *)
Definition ready (n : Z) (sets : list TransactionSet) (r : CSVReader) : Prop :=
  currentSetNo r = n - 1 /\
  match sets with
  | [] => transactions (nextTransactionSet r) = [] /\ file_lines r = []
  | t :: rest =>
    n = 1 /\ transactions (nextTransactionSet r) = [] /\ file_lines r = concat (set_rows <$> sets)
    \/ holds_first t (nextTransactionSet r) /\ file_lines r = after_first t rest
  end.

Lemma set_rows_cons n t : set_ok n t -> exists x, firstn 1 (transactions t) = [x]
  /\ transactions t = x :: tail (transactions t)
  /\ set_rows t = header_row n x (servers t) (leaders t) :: (other_row <$> tail (transactions t))
  /\ txn_ok x /\ Forall txn_ok (tail (transactions t)).
Proof.
  intros [En _ [Hne Ht] _ _]. unfold set_rows. rewrite En.
  destruct (transactions t) as [|x xs]; [done|]. apply Forall_cons in Ht as [Hx Hxs].
  exists x. done.
Qed.

Lemma parse_set_header n t x : set_ok n t -> txn_ok x ->
  parseCSVLine (stripLineEndings (header_row n x (servers t) (leaders t)))
  = inl (mkCSVLine n x (servers t) (leaders t)).
Proof. intros [_ Hn _ [? ?] [? ?]] Hx. by apply parse_header. Qed.

(** The rows of the current set after the first, up to the end of the file or the
    first row of the next set. *)
Lemma read_rest xs rest n r : 1 <= n -> currentSetNo r = n -> Forall txn_ok xs ->
  sets_ok (n + 1) rest -> transactions (nextTransactionSet r) = [] ->
  exists r', read_lines ((other_row <$> xs) ++ concat (set_rows <$> rest)) r = (r', None)
    /\ currentSetNo r' = n
    /\ currentTransactionSet r' = (currentTransactionSet r) <| transactions ::= fun l => l ++ xs |>
    /\ ready (n + 1) rest r'.
Proof.
  intros Hn. revert r. induction xs as [|x xs IH]; intros r En Hxs Hr Hnx.
  - destruct rest as [|t rest]; simpl.
    + eexists. split; [reflexivity|]. split; [done|]. split.
      * destruct r as [ls k c nx]. destruct c as [a ts b d e]. unfold set. simpl. by rewrite app_nil_r.
      * split; [simpl; lia | done].
    + destruct Hr as [Ht Hr]. destruct (set_rows_cons _ _ Ht) as (x & E1 & E2 & -> & Hx & _).
      cbn [app read_lines]. rewrite parse_set_header by done. cbn [l_set_no].
      change (currentSetNo (r <| file_lines := ?a |>)) with (currentSetNo r). rewrite En.
      destruct (Z.eqb_spec (n + 1) n) as [?|_]; [lia|].
      rewrite Z.eqb_refl. eexists. split; [reflexivity|]. split; [done|]. split.
      * destruct r as [ls k c nx]. destruct c as [a ts b d e]. unfold set. simpl. by rewrite app_nil_r.
      * split; [simpl; lia|]. right. split; [|done].
        unfold holds_first. simpl. rewrite Hnx, E1. done.
  - apply Forall_cons in Hxs as [Hx Hxs]. rewrite fmap_cons. cbn [app read_lines].
    rewrite parse_other by done. cbn [l_set_no].
    change (currentSetNo (r <| file_lines := ?a |>)) with (currentSetNo r). rewrite En.
    destruct (Z.eqb_spec (-1) n) as [?|_]; [lia|].
    destruct (Z.eqb_spec (-1) (n + 1)) as [?|_]; [lia|].
    match goal with |- context [read_lines _ ?x] =>
      destruct (IH x) as (r' & E & E' & Ec & Hrd) end; [done|done|done|done|].
    exists r'. split; [done|]. split; [done|]. split; [|done].
    rewrite Ec. destruct r as [ls k c nx]. destruct c as [a ts b d e]. unfold push_transaction, set. simpl.
    by rewrite <- app_assoc.
Qed.

(** The outcome of reading the set [t]. *)
Definition read_as (cfg : constants) (t : TransactionSet) : ReadOutcome :=
  SetRead (Z.of_nat (length (transactions t)))
    (t <| disconnected_servers := not_listed cfg (servers t) |>).

(** From a state that has read the first row, the rest of the call. *)
Lemma finish_set n t rest r : 1 <= n -> set_ok n t -> sets_ok (n + 1) rest ->
  currentSetNo r = n -> holds_first t (currentTransactionSet r) ->
  transactions (nextTransactionSet r) = [] ->
  exists r', read_lines (after_first t rest) r = (r', None) /\ ready (n + 1) rest r' /\
    currentSetNo r' = n /\ transactions (currentTransactionSet r') = transactions t /\
    servers (currentTransactionSet r') = servers t /\ leaders (currentTransactionSet r') = leaders t.
Proof.
  intros Hn Ht Hr En (Ef & Es & El) Hnx.
  destruct (set_rows_cons _ _ Ht) as (x & E1 & E2 & _ & _ & Hxs).
  destruct (read_rest (tail (transactions t)) rest n r) as (r' & E & E' & Ec & Hrd); [done..|].
  exists r'. split; [done|]. split; [done|]. split; [done|]. rewrite Ec. simpl.
  rewrite Ef, E1, Es, El. split; [|done]. rewrite E2 at 2. done.
Qed.

Lemma rows_no_nl n sets : sets_ok n sets -> Forall no_nl (concat (set_rows <$> sets)).
Proof.
  revert n. induction sets as [|t rest IH]; intros n Hok; [constructor|]. destruct Hok as [Ht Hok].
  rewrite fmap_cons. cbn [concat]. apply Forall_app. split; [|by eapply IH].
  destruct (set_rows_cons _ _ Ht) as (x & _ & _ & -> & _ & _). destruct Ht as [_ _ _ [_ ?] [_ ?]].
  constructor; [by apply no_nl_header|]. apply Forall_fmap, Forall_true. intros y. apply no_nl_other.
Qed.

Lemma readNextSet_ready cfg n t rest r : 1 <= n -> set_ok n t -> sets_ok (n + 1) rest ->
  ready n (t :: rest) r ->
  exists r', readNextSet cfg r = (r', read_as cfg t) /\ ready (n + 1) rest r'.
Proof.
  intros Hn Ht Hr [En Hrd]. unfold readNextSet.
  set (r0 := _ <| nextTransactionSet ::= _ |>).
  assert (Hgo : exists r', read_lines (file_lines r0) r0 = (r', None) /\ ready (n + 1) rest r' /\
    currentSetNo r' = n /\ transactions (currentTransactionSet r') = transactions t /\
    servers (currentTransactionSet r') = servers t /\ leaders (currentTransactionSet r') = leaders t).
  { change (file_lines r0) with (file_lines r).
    destruct Hrd as [(-> & Enx & ->)|[Hf ->]].
    - destruct (set_rows_cons _ _ Ht) as (x & E1 & E2 & Es & Hx & Hxs).
      rewrite fmap_cons. cbn [concat]. rewrite Es. cbn [app read_lines].
      rewrite parse_set_header by done. cbn [l_set_no].
      replace (currentSetNo _) with 1 by (simpl; lia). rewrite Z.eqb_refl.
      apply finish_set; [done|done|done|simpl; lia| |done].
      unfold holds_first. simpl. rewrite Enx, E1. done.
    - apply finish_set; [done|done|done|simpl; lia|exact Hf|done]. }
  destruct Hgo as (r' & -> & Hrd' & En' & Et & Es & El). cbn iota beta zeta.
  exists r'. split; [|done]. rewrite Et, Es, El, En'.
  destruct Ht as [Hno _ [Hne _] _ _]. unfold read_as.
  destruct t as [a ts b d e]. simpl in *. subst a. destruct ts; [done|]. done.
Qed.

Lemma open_ready sets r : sets_ok 1 sets -> open_csv (Some (file_text sets)) = Some r ->
  ready 1 sets r.
Proof.
  intros Hok Er. unfold open_csv in Er. cbn in Er. injection Er as <-. split; [done|].
  unfold file_text. rewrite lines_of_rows by (by eapply rows_no_nl).
  destruct sets; [done|]. left. done.
Qed.


(** Two sets over the servers of the fixture. *)
Definition example_sets : list TransactionSet :=
  [mkTransactionSet 1 [mkTransaction 1 2 5; mkTransaction 2 7 3] [L "S1"; L "S2"] [L "S1"] [];
   mkTransactionSet 2 [mkTransaction 3 1 (-4)] [L "S1"] [L "S1"] []].

