(* ===== verification/Client.v ===== *)
(** * Client: the transaction client and coordinator of two-phase commit

    [class Client] ([src/client/client.h], [src/client/client.cc]).  Two threads
    share it: the driver's thread submits transactions ([processTransactions]) and
    the reply thread handles what the completion queue delivers
    ([consumeReplies]).  Their critical sections exclude each other, so the model
    runs them as atomic steps in any interleaving: the submitting thread is the
    list of its steps ([Action]), the reply thread handles one completion of a
    call that has been started and not answered ([consume]).

    gRPC and the clocks are outside the model.  A started call is appended to
    [sent]; a completion brings the [ok] bit, the status, the reply and the clock
    readings of its handling.  [client_ub] records what C++ leaves undefined (a
    leader index out of range, a null stub). *)

From S2P Require Import Prelude Text Types Utils.

(** The message of a call: a transfer or a transaction number. *)
Inductive Message :=
  | TransferMsg (r : TransferReq)
  | TidMsg (tid : Z).

(** [ClientCall]; the flag is not initialised for the calls of a decision. *)
Record ClientCall := mkClientCall {
  cc_type : RequestTypes;
  cc_is_cross_shard : option bool;
  cc_server : text;
  cc_message : Message
}.

Record TpcPrepareRes := mkTpcPrepareRes {
  p_txn : Transaction;
  successes : Z;
  failures : Z;
  start_ns : Z;
  p_is_cross_shard : bool
}.

#[export] Instance eta_TpcPrepareRes : Eta TpcPrepareRes := fun p =>
  mkTpcPrepareRes (p_txn p) (successes p) (failures p) (start_ns p) (p_is_cross_shard p).

(** The value [operator[]] creates. *)
Definition no_prepare : TpcPrepareRes :=
  mkTpcPrepareRes (mkTransaction 0 0 0) 0 0 0 false.

Record Client := mkClient {
  stubs : gmap text text;
  processing : gmap Z TpcPrepareRes;
  latencies : list Z;
  intra_latencies : list Z;
  cross_latencies : list Z;
  current_is_cross_shard : bool;
  transactions_processed : Z;
  wall_start : Z;
  wall_end : Z;
  wall_started : bool;
  sent : list ClientCall;
  client_ub : bool
}.

#[export] Instance eta_Client : Eta Client := fun c =>
  mkClient (stubs c) (processing c) (latencies c) (intra_latencies c) (cross_latencies c)
    (current_is_cross_shard c) (transactions_processed c) (wall_start c) (wall_end c)
    (wall_started c) (sent c) (client_ub c).

(** The constructor: a stub for every server, connected to its address. *)
Definition new_Client (cfg : constants) : Client :=
  mkClient
    (foldl (fun m s => <[s.1 := default [] (server_addresses cfg !! s.1)]> m) ∅
       (map_iter (server_ids cfg)))
    ∅ [] [] [] false 0 0 0 false [] false.

(** Starting a call on the stub of a server. *)
Definition start_call (call : ClientCall) (c : Client) : Client :=
  match stubs c !! cc_server call with
  | Some _ => c <| sent ::= fun l => l ++ [call] |>
  | None => c <| client_ub := true |>
  end.

Definition sendTransfer (request : TransferReq) (leader : text) (c : Client) : Client :=
  start_call (mkClientCall TRANSFER (Some (current_is_cross_shard c)) leader
                (TransferMsg request)) c.

Definition tpcPrepare (request : TransferReq) (leader : text) (c : Client) : Client :=
  start_call (mkClientCall TPC_PREPARE (Some (current_is_cross_shard c)) leader
                (TransferMsg request)) c.

(** The servers of the two clusters, in the order of the directory. *)
Definition participants (cfg : constants) (sender_cluster receiver_cluster : Z) : list text :=
  (filter (fun s => getClusterIdFromServerId cfg s.2 = sender_cluster
                    \/ getClusterIdFromServerId cfg s.2 = receiver_cluster)
     (map_iter (server_ids cfg))).*1.

Definition decision_call (ty : RequestTypes) (tid : Z) (s : text) : ClientCall :=
  mkClientCall ty None s (TidMsg tid).

Definition tpcCommit (cfg : constants) (tid sender_cluster receiver_cluster : Z) (c : Client)
  : Client :=
  foldl (fun c s => start_call (decision_call TPC_COMMIT tid s) c) c
    (participants cfg sender_cluster receiver_cluster).

Definition tpcAbort (cfg : constants) (tid sender_cluster receiver_cluster : Z) (c : Client)
  : Client :=
  foldl (fun c s => start_call (decision_call TPC_ABORT tid s) c) c
    (participants cfg sender_cluster receiver_cluster).

(** ** Submitting transactions *)

(** The clock readings of one transaction: the system clock (its number), and the
    steady clock when the wall clock starts and when it is registered. *)
Record Clock := mkClock { system_ns : Z; wall_ns : Z; steady_ns : Z }.

(** The steps of the submitting thread. *)
Inductive Action :=
  | SetCross (b : bool)
  | StartClock (now : Z)
  | Register (tid : Z) (t : Transaction) (now : Z)
  | Transfer (request : TransferReq) (leader : text)
  | Prepare (request : TransferReq) (leader : text)
  | BadLeader.

Definition do_action (a : Action) (c : Client) : Client :=
  match a with
  | SetCross b => c <| current_is_cross_shard := b |>
  | StartClock now =>
    if wall_started c then c else c <| wall_start := now |> <| wall_started := true |>
  | Register tid t now => c <| processing ::= <[tid := mkTpcPrepareRes t 0 0 now true]> |>
  | Transfer r leader => sendTransfer r leader c
  | Prepare r leader => tpcPrepare r leader c
  | BadLeader => c <| client_ub := true |>
  end.

(** [leaders[i]]: defined inside the vector only. *)
Definition nth_leader (leaders : list text) (i : Z) : option text :=
  if 0 <=? i then leaders !! Z.to_nat i else None.

(** The body of the loop of [processTransactions]. *)
Definition submit (cfg : constants) (leaders : list text) (p : Transaction * Clock)
  : list Action :=
  let '(t, clk) := p in
  let sender_cluster := getClusterIdFromClientId cfg (sender t) in
  let receiver_cluster := getClusterIdFromClientId cfg (receiver t) in
  match nth_leader leaders (sender_cluster - 1), nth_leader leaders (receiver_cluster - 1) with
  | Some sender_leader, Some receiver_leader =>
    let cross_shard := negb (sender_cluster =? receiver_cluster) in
    let request := mkTransferReq t (system_ns clk) in
    [SetCross cross_shard; StartClock (wall_ns clk)] ++
    (if cross_shard then
       [Register (system_ns clk) t (steady_ns clk);
        Prepare request sender_leader; Prepare request receiver_leader]
     else [Transfer request sender_leader])
  | _, _ => [BadLeader]
  end.

Definition processTransactions (cfg : constants) (transactions : list (Transaction * Clock))
    (leaders : list text) : list Action :=
  concat (submit cfg leaders <$> transactions).

(** The calls the driver makes, one set of transactions after the other. *)
Definition submissions (cfg : constants)
    (sets : list (list (Transaction * Clock) * list text)) : list Action :=
  concat ((fun s => processTransactions cfg s.1 s.2) <$> sets).

(** ** Handling replies *)

Record Completion := mkCompletion {
  ev_ok : bool;
  status_ok : bool;
  reply : TransferRes;
  now_system : Z;
  now_wall : Z;
  now_steady : Z
}.

Definition record_latency (cross : bool) (latency_ns : Z) (c : Client) : Client :=
  let c := c <| latencies ::= fun l => l ++ [latency_ns] |> in
  let c := if cross then c <| cross_latencies ::= fun l => l ++ [latency_ns] |>
           else c <| intra_latencies ::= fun l => l ++ [latency_ns] |> in
  c <| transactions_processed ::= fun n => wrap32 (n + 1) |>.

(** The vote of a participant is counted; the counters of one transaction do not
    leave [int]. *)
Definition count_vote (ack : bool) (p : TpcPrepareRes) : TpcPrepareRes :=
  if ack then p <| successes ::= Z.succ |> else p <| failures ::= Z.succ |>.

(** One iteration of the loop of [consumeReplies]. *)
Definition consume (cfg : constants) (call : ClientCall) (ev : Completion) (c : Client)
  : Client :=
  if negb (ev_ok ev) then c
  else if bool_decide (cc_type call = TRANSFER) && status_ok ev then
    let latency_ns := wrap64 (now_system ev - ts_tid (reply ev)) in
    record_latency (default false (cc_is_cross_shard call)) latency_ns
      (c <| wall_end := now_wall ev |>)
  else if bool_decide (cc_type call = TPC_PREPARE) then
    let tid := ts_tid (reply ev) in
    if tid =? 0 then c
    else
      let p := count_vote (status_ok ev && ts_ack (reply ev))
                 (default no_prepare (processing c !! tid)) in
      let c := c <| processing ::= <[tid := p]> |> in
      let commit := successes p =? 2 in
      let abort := (0 <? failures p) && (successes p + failures p =? 2) in
      if commit || abort then
        let c := c <| wall_end := now_wall ev |> in
        let c := record_latency (p_is_cross_shard p)
                   (wrap64 (now_steady ev - start_ns p)) c in
        let sender_cluster := getClusterIdFromClientId cfg (sender (p_txn p)) in
        let receiver_cluster := getClusterIdFromClientId cfg (receiver (p_txn p)) in
        let c := if commit then tpcCommit cfg tid sender_cluster receiver_cluster c
                 else tpcAbort cfg tid sender_cluster receiver_cluster c in
        c <| processing ::= delete tid |>
      else c
  else c.

(** ** Interleavings *)

(** The client, the steps the submitting thread has left, and the completions
    handled so far, each with the number of its call. *)
Record Run := mkRun {
  client : Client;
  todo : list Action;
  answered : list (nat * Completion)
}.

Definition call_tid (call : ClientCall) : Z :=
  match cc_message call with TransferMsg r => tr_tid r | TidMsg t => t end.

(** What a server answers to a call: the number of the transaction it was asked
    about, or an empty reply, as when the call failed. *)
Definition reply_to (call : ClientCall) (ev : Completion) : Prop :=
  ts_tid (reply ev) = call_tid call \/ ts_tid (reply ev) = 0.

Inductive step (cfg : constants) : Run -> Run -> Prop :=
  | step_submit c a todo answered :
      step cfg (mkRun c (a :: todo) answered) (mkRun (do_action a c) todo answered)
  | step_reply c todo answered i call ev :
      sent c !! i = Some call -> (i ∉ answered.*1) -> reply_to call ev ->
      step cfg (mkRun c todo answered)
        (mkRun (consume cfg call ev c) todo (answered ++ [(i, ev)])).

Definition begin (cfg : constants) (todo : list Action) : Run := mkRun (new_Client cfg) todo [].

(** ** What a run has decided *)

Definition is_prepare (τ : Z) (call : ClientCall) : Prop :=
  cc_type call = TPC_PREPARE /\ call_tid call = τ.
#[export] Instance is_prepare_dec τ call : Decision (is_prepare τ call).
Proof. unfold is_prepare. apply _. Defined.

Definition is_decision (τ : Z) (call : ClientCall) : Prop :=
  (cc_type call = TPC_COMMIT \/ cc_type call = TPC_ABORT) /\ call_tid call = τ.
#[export] Instance is_decision_dec τ call : Decision (is_decision τ call).
Proof. unfold is_decision. apply _. Defined.

(** The decision messages about the transaction [τ]. *)
Definition decisions (τ : Z) (c : Client) : list ClientCall := filter (is_decision τ) (sent c).

(** The vote a completion brings for [τ]: none when the call was not a prepare of
    [τ] or failed without a reply. *)
Definition vote (τ : Z) (c : Client) (a : nat * Completion) : option bool :=
  call ← sent c !! a.1;
  if bool_decide (is_prepare τ call) && ev_ok a.2 && negb (ts_tid (reply a.2) =? 0)
  then Some (status_ok a.2 && ts_ack (reply a.2)) else None.

Definition votes (τ : Z) (r : Run) : list bool := omap (vote τ (client r)) (answered r).

(** The messages that two votes call for. *)
Definition verdict (cfg : constants) (τ : Z) (t : Transaction) (vs : list bool)
  : list ClientCall :=
  let servers := participants cfg (getClusterIdFromClientId cfg (sender t))
                   (getClusterIdFromClientId cfg (receiver t)) in
  match vs with
  | [true; true] => decision_call TPC_COMMIT τ <$> servers
  | [_; _] => decision_call TPC_ABORT τ <$> servers
  | _ => []
  end.

(** ** Started calls *)

Lemma lookup_insert_fold {V} (f : text * Z -> V) (l : list (text * Z)) (m : gmap text V) k :
  k ∈ l.*1 \/ is_Some (m !! k) ->
  is_Some (foldl (fun m s => <[s.1 := f s]> m) m l !! k).
Proof.
  revert m. induction l as [|x l IH]; intros m Hk; simpl.
  { destruct Hk as [Hk|Hk]; [by apply elem_of_nil in Hk | done]. }
  apply IH. destruct (decide (k = x.1)) as [->|Hne].
  - right. rewrite lookup_insert_eq. eauto.
  - rewrite lookup_insert_ne by done.
    destruct Hk as [Hk|Hk]; [|by right]. left. apply elem_of_cons in Hk as [?|?]; [done|done].
Qed.

(** Every server of the directory has a stub. *)
Definition connected (cfg : constants) (c : Client) : Prop :=
  forall s, s ∈ (map_iter (server_ids cfg)).*1 -> is_Some (stubs c !! s).

Lemma connected_new cfg : connected cfg (new_Client cfg).
Proof. intros s Hs. apply lookup_insert_fold. by left. Qed.

Lemma participants_directory cfg a b s :
  s ∈ participants cfg a b -> s ∈ (map_iter (server_ids cfg)).*1.
Proof.
  unfold participants. intros (x & -> & Hx)%list_elem_of_fmap.
  apply list_elem_of_filter in Hx as [_ Hx]. apply list_elem_of_fmap. eauto.
Qed.

Lemma start_calls f l c : (forall s, s ∈ l -> is_Some (stubs c !! s)) ->
  (forall s, cc_server (f s) = s) ->
  foldl (fun c s => start_call (f s) c) c l = c <| sent ::= fun k => k ++ (f <$> l) |>.
Proof.
  intros Hl Hf. revert c Hl. induction l as [|s l IH]; intros c Hl.
  - destruct c. unfold set. simpl. by rewrite app_nil_r.
  - cbn [foldl]. unfold start_call at 2. rewrite Hf.
    destruct (Hl s) as [a ->]; [set_solver|]. rewrite IH by (intros; apply Hl; set_solver).
    destruct c. unfold set. simpl. by rewrite <- app_assoc.
Qed.

(** ** One completion *)

(** The decision the counters call for. *)
Definition outcome (p : TpcPrepareRes) : option RequestTypes :=
  if successes p =? 2 then Some TPC_COMMIT
  else if (0 <? failures p) && (successes p + failures p =? 2) then Some TPC_ABORT else None.

Definition outcome_calls (cfg : constants) (τ : Z) (p : TpcPrepareRes) : list ClientCall :=
  let servers := participants cfg (getClusterIdFromClientId cfg (sender (p_txn p)))
                   (getClusterIdFromClientId cfg (receiver (p_txn p))) in
  match outcome p with
  | Some ty => decision_call ty τ <$> servers
  | None => []
  end.

Definition votes_on (call : ClientCall) (ev : Completion) : bool :=
  bool_decide (cc_type call = TPC_PREPARE) && ev_ok ev && negb (ts_tid (reply ev) =? 0).

Lemma record_latency_frame b n c :
  stubs (record_latency b n c) = stubs c /\ processing (record_latency b n c) = processing c
  /\ sent (record_latency b n c) = sent c.
Proof. by destruct b. Qed.

Lemma consume_silent cfg call ev c : votes_on call ev = false ->
  stubs (consume cfg call ev c) = stubs c /\ processing (consume cfg call ev c) = processing c
  /\ sent (consume cfg call ev c) = sent c.
Proof.
  unfold votes_on, consume. intros Hv. destruct (ev_ok ev); [|done]. cbn [negb].
  rewrite andb_true_r in Hv. destruct (bool_decide (cc_type call = TPC_PREPARE)) eqn:Et.
  - apply bool_decide_eq_true in Et. rewrite bool_decide_false by congruence. cbn [andb].
    apply negb_false_iff in Hv. by rewrite Hv.
  - clear Hv. destruct (_ && _); [|done].
    by edestruct record_latency_frame as (-> & -> & ->).
Qed.

Lemma consume_vote cfg call ev c : votes_on call ev = true -> connected cfg c ->
  let τ := ts_tid (reply ev) in
  let p := count_vote (status_ok ev && ts_ack (reply ev))
             (default no_prepare (processing c !! τ)) in
  stubs (consume cfg call ev c) = stubs c
  /\ sent (consume cfg call ev c) = sent c ++ outcome_calls cfg τ p
  /\ processing (consume cfg call ev c)
     = match outcome p with Some _ => delete τ (processing c) | None => <[τ := p]> (processing c) end.
Proof.
  intros Hv Hc τ p. unfold votes_on in Hv.
  apply andb_true_iff in Hv as [[Ht Hok]%andb_true_iff H0].
  apply bool_decide_eq_true in Ht. apply negb_true_iff in H0.
  unfold consume. rewrite Hok, Ht. cbn [negb]. rewrite bool_decide_false by done. cbn [andb].
  rewrite bool_decide_true by done. rewrite H0. fold τ p. unfold outcome_calls, outcome.
  set (sc := getClusterIdFromClientId _ _). set (rc := getClusterIdFromClientId _ _).
  set (c1 := record_latency _ _ _).
  assert (stubs c1 = stubs c /\ processing c1 = <[τ := p]> (processing c) /\ sent c1 = sent c)
    as (E1 & E2 & E3) by (unfold c1; by edestruct record_latency_frame as (-> & -> & ->)).
  assert (forall s, s ∈ participants cfg sc rc -> is_Some (stubs c1 !! s)) as Hs.
  { intros s Hs. rewrite E1. eapply Hc, participants_directory, Hs. }
  clearbody c1.
  destruct (successes p =? 2); cbn [orb].
  - unfold tpcCommit. rewrite start_calls by done. simpl. by rewrite E1, E2, E3, delete_insert_eq.
  - clearbody p. destruct ((0 <? failures p) && _); [|simpl; by rewrite app_nil_r].
    unfold tpcAbort. rewrite start_calls by done. simpl. by rewrite E1, E2, E3, delete_insert_eq.
Qed.

(** ** The invariant of one transaction *)

(** The steps of the submitting thread that concern [τ]. *)
Definition about (τ : Z) (a : Action) : Prop :=
  match a with
  | Register t _ _ => t = τ
  | Prepare r _ => tr_tid r = τ
  | _ => False
  end.
#[export] Instance about_dec τ a : Decision (about τ a).
Proof. destruct a; simpl; apply _. Defined.

(** Calls answered once, at most as many as were started. *)
Definition answers_ok (r : Run) : Prop :=
  NoDup (answered r).*1 /\ Forall (fun i => (i < length (sent (client r)))%nat) (answered r).*1.

(** The counters of [τ] and the messages sent, from the votes received. *)
Definition counted (cfg : constants) (τ : Z) (t : Transaction) (r : Run) : Prop :=
  decisions τ (client r) = verdict cfg τ t (votes τ r) /\
  match votes τ r with
  | [] => exists p, processing (client r) !! τ = Some p /\ p_txn p = t
                    /\ successes p = 0 /\ failures p = 0
  | [b] => exists p, processing (client r) !! τ = Some p /\ p_txn p = t
                    /\ successes p = (if b then 1 else 0) /\ failures p = (if b then 0 else 1)
  | _ => processing (client r) !! τ = None
  end.

Definition prepares (τ : Z) (c : Client) : list ClientCall := filter (is_prepare τ) (sent c).

(** Submission has not reached [τ], or it has and at most two prepares are sent. *)
Definition Phase (cfg : constants) (τ now : Z) (t : Transaction) (sl rl : text) (r : Run) : Prop :=
  let q := mkTransferReq t τ in
  let left := filter (about τ) (todo r) in
  (left = [Register τ t now; Prepare q sl; Prepare q rl] /\ prepares τ (client r) = []
   /\ decisions τ (client r) = [] /\ processing (client r) !! τ = None)
  \/ ((exists k, (k <= 2)%nat /\ left = drop k [Prepare q sl; Prepare q rl]
                 /\ (length (prepares τ (client r)) <= k)%nat)
      /\ counted cfg τ t r).

Lemma index_count {A} (P : A -> Prop) `{!forall x, Decision (P x)} (l : list A) (ix : list nat) :
  NoDup ix -> (forall i, i ∈ ix -> exists x, l !! i = Some x /\ P x) ->
  (length ix <= length (filter P l))%nat.
Proof.
  revert ix. induction l as [|x l IH] using rev_ind; intros ix Hnd Hin.
  - destruct ix as [|i ix]; [done|]. destruct (Hin i) as (y & Hy & _); [set_solver|].
    by rewrite lookup_nil in Hy.
  - rewrite filter_app, length_app.
    assert (forall i, i ∈ ix -> i <> length l -> exists y, l !! i = Some y /\ P y) as Hlt.
    { intros i Hi Hne. destruct (Hin i Hi) as (y & Hy & HP). exists y. split; [|done].
      rewrite lookup_app in Hy. destruct (l !! i) eqn:E; [done|].
      apply lookup_ge_None in E. rewrite list_lookup_singleton_Some in Hy. lia. }
    destruct (decide (length l ∈ ix)) as [Hl|Hl].
    + destruct (Hin _ Hl) as (y & Hy & HP).
      rewrite list_lookup_middle in Hy by done. injection Hy as ->.
      rewrite filter_cons_True by done. apply list_elem_of_split in Hl as (i1 & i2 & ->).
      assert (length (i1 ++ i2) <= length (filter P l))%nat.
      { apply IH.
        - rewrite <- Permutation_middle in Hnd. by apply NoDup_cons in Hnd as [_ ?].
        - intros i Hi. apply Hlt; [set_solver|]. rewrite <- Permutation_middle in Hnd.
          apply NoDup_cons in Hnd as [Hn _]. set_solver. }
      rewrite length_app in *. simpl. lia.
    + assert (length ix <= length (filter P l))%nat; [|lia].
      apply IH; [done|]. intros i Hi. apply Hlt; [done|]. by intros ->.
Qed.

(** Votes are not affected by later calls. *)
Lemma votes_extend τ c c' l l' todo todo' : sent c' = sent c ++ l' ->
  Forall (fun i => (i < length (sent c))%nat) l.*1 ->
  votes τ (mkRun c' todo' l) = votes τ (mkRun c todo l).
Proof.
  intros Es Hl. unfold votes. simpl. induction l as [|a l IH]; [done|].
  rewrite fmap_cons in Hl. apply Forall_cons in Hl as [Ha Hl]. cbn [omap list_omap].
  assert (vote τ c' a = vote τ c a) as ->.
  { unfold vote. by rewrite Es, lookup_app_l. }
  destruct (vote τ c a); [f_equal|]; by apply IH.
Qed.

Lemma votes_snoc τ c todo l a :
  votes τ (mkRun c todo (l ++ [a]))
  = votes τ (mkRun c todo l) ++ match vote τ c a with Some b => [b] | None => [] end.
Proof. unfold votes. simpl. rewrite omap_app. simpl. by destruct (vote τ c a). Qed.

(** The completions of the prepares of [τ]. *)
Definition answers_prepare (τ : Z) (c : Client) (a : nat * Completion) : bool :=
  match sent c !! a.1 with Some call => bool_decide (is_prepare τ call) | None => false end.

Definition answers (τ : Z) (r : Run) : list (nat * Completion) :=
  filter (answers_prepare τ (client r)) (answered r).

Lemma answers_le τ r : answers_ok r -> (length (answers τ r) <= length (prepares τ (client r)))%nat.
Proof.
  intros [Hnd _]. rewrite <- (length_fmap fst). apply index_count.
  - eapply sublist_NoDup; [exact Hnd|]. apply fmap_sublist, sublist_filter.
  - intros i (a & -> & Ha)%list_elem_of_fmap. apply list_elem_of_filter in Ha as [Ha _].
    unfold answers_prepare in Ha. destruct (sent (client r) !! a.1) as [call|]; [|done].
    apply Is_true_true, bool_decide_eq_true in Ha. eauto.
Qed.

Lemma votes_answers τ r : votes τ r = omap (vote τ (client r)) (answers τ r).
Proof.
  unfold votes, answers. generalize (answered r) as l. intros l. induction l as [|a l IH]; [done|].
  rewrite filter_cons. cbn [omap list_omap]. rewrite IH.
  case_decide as Ha; [done|]. assert (vote τ (client r) a = None) as ->; [|done].
  unfold vote, answers_prepare in *. destruct (sent (client r) !! a.1); [|done]. simpl.
  destruct (bool_decide _); [|done]. by destruct Ha.
Qed.

Lemma votes_le τ r : answers_ok r -> (length (votes τ r) <= length (prepares τ (client r)))%nat.
Proof.
  intros Hr. etrans; [|by apply answers_le]. rewrite votes_answers.
  generalize (answers τ r) as l. intros l. induction l as [|a l IH]; [done|].
  cbn [omap list_omap]. destruct (vote _ _ _); simpl; lia.
Qed.

(** ** Steps *)

Lemma filter_prepare_snoc τ c call :
  prepares τ (c <| sent ::= fun l => l ++ [call] |>)
  = prepares τ c ++ filter (is_prepare τ) [call].
Proof. apply filter_app. Qed.

(** A step of the submitting thread about another transaction. *)
Lemma do_action_frame τ a c : ~ about τ a -> exists l,
  sent (do_action a c) = sent c ++ l /\ filter (is_prepare τ) l = []
  /\ filter (is_decision τ) l = [] /\ processing (do_action a c) !! τ = processing c !! τ.
Proof.
  intros Ha. destruct a as [b|now|t x now|q ld|q ld|]; simpl in *.
  - exists []. by rewrite app_nil_r.
  - exists []. rewrite app_nil_r. by destruct (wall_started c).
  - exists []. rewrite app_nil_r, lookup_insert_ne by congruence. done.
  - unfold sendTransfer, start_call. simpl. destruct (stubs c !! ld).
    + eexists. split; [reflexivity|]. rewrite !filter_cons_False; [done|..].
      all: unfold is_prepare, is_decision; simpl; intuition congruence.
    + exists []. by rewrite app_nil_r.
  - unfold tpcPrepare, start_call. simpl. destruct (stubs c !! ld).
    + eexists. split; [reflexivity|]. rewrite !filter_cons_False; [done|..].
      all: unfold is_prepare, is_decision, call_tid; simpl; intuition congruence.
    + exists []. by rewrite app_nil_r.
  - exists []. by rewrite app_nil_r.
Qed.

(** Calls about other transactions leave the phase of [τ] as it is. *)
Lemma phase_frame cfg τ now t sl rl c c' l todo todo' ans ans' :
  sent c' = sent c ++ l -> filter (is_prepare τ) l = [] -> filter (is_decision τ) l = [] ->
  processing c' !! τ = processing c !! τ ->
  filter (about τ) todo' = filter (about τ) todo ->
  votes τ (mkRun c' todo' ans') = votes τ (mkRun c todo ans) ->
  Phase cfg τ now t sl rl (mkRun c todo ans) -> Phase cfg τ now t sl rl (mkRun c' todo' ans').
Proof.
  intros Es Ep Ed Ex Et Ev Hp.
  assert (prepares τ c' = prepares τ c) as E1.
  { unfold prepares. by rewrite Es, filter_app, Ep, app_nil_r. }
  assert (decisions τ c' = decisions τ c) as E2.
  { unfold decisions. by rewrite Es, filter_app, Ed, app_nil_r. }
  unfold Phase, counted in *. simpl in *. rewrite Ev, E1, E2, Ex, Et. exact Hp.
Qed.

Lemma tpcPrepare_frame τ t ld c : let c' := tpcPrepare (mkTransferReq t τ) ld c in
  (exists l, sent c' = sent c ++ l) /\ (length (prepares τ c') <= S (length (prepares τ c)))%nat
  /\ decisions τ c' = decisions τ c /\ processing c' = processing c.
Proof.
  intros c'. unfold c', tpcPrepare, start_call. simpl. destruct (stubs c !! ld).
  - split; [by eexists|]. unfold prepares, decisions. simpl. rewrite !filter_app, length_app.
    rewrite filter_cons_True by done. rewrite (filter_cons_False (is_decision τ)).
    2: { unfold is_decision. simpl. intuition congruence. }
    simpl. rewrite app_nil_r. split; [lia|done].
  - split; [exists []; by rewrite app_nil_r|]. split; [|done].
    change (prepares τ (c <| client_ub := true |>)) with (prepares τ c). lia.
Qed.

Lemma counted_prepare cfg τ x t ld c todo todo' ans :
  answers_ok (mkRun c todo ans) -> counted cfg τ t (mkRun c todo ans) ->
  counted cfg τ t (mkRun (tpcPrepare (mkTransferReq x τ) ld c) todo' ans).
Proof.
  intros Hok Hc. destruct (tpcPrepare_frame τ x ld c) as ([l Es] & _ & Ed & Ex).
  unfold counted in *. rewrite (votes_extend τ c _ ans l todo) by (done || apply Hok).
  simpl in *. by rewrite Ed, Ex.
Qed.

Lemma phase_submit cfg τ now t sl rl c a todo ans :
  answers_ok (mkRun c (a :: todo) ans) ->
  Phase cfg τ now t sl rl (mkRun c (a :: todo) ans) ->
  Phase cfg τ now t sl rl (mkRun (do_action a c) todo ans).
Proof.
  intros Hok Hp. destruct (decide (about τ a)) as [Ha|Ha].
  - destruct Hp as [(El & Ep & Ed & Ex)|[(k & Hk & El & Ep) Hc]]; simpl in *;
      rewrite filter_cons_True in El by done.
    + injection El as -> El. right. split.
      * exists 0%nat. simpl. split; [lia|]. split; [done|].
        change (prepares τ (_ <| processing ::= _ |>)) with (prepares τ c). by rewrite Ep.
      * pose proof (votes_le τ _ Hok) as Hv. simpl in Hv. rewrite Ep in Hv.
        unfold counted. assert (votes τ (mkRun (do_action (Register τ t now) c) todo ans) = []) as ->.
        { rewrite (votes_extend τ c _ ans [] (Register τ t now :: todo));
            [|simpl; by rewrite app_nil_r|apply Hok].
          by apply nil_length_inv, Nat.le_0_r. }
        simpl. split; [done|]. eexists. rewrite lookup_insert_eq. done.
    + assert (exists ld, a = Prepare (mkTransferReq t τ) ld /\ (k < 2)%nat
        /\ filter (about τ) todo = drop (S k) [Prepare (mkTransferReq t τ) sl; Prepare (mkTransferReq t τ) rl])
        as (ld & -> & Hk' & El').
      { destruct k as [|[|[|k]]]; simpl in El; [| |done..]; injection El as -> El;
          eexists; (split; [reflexivity|]); (split; [lia|done]). }
      right. simpl. destruct (tpcPrepare_frame τ t ld c) as (_ & Hl & _ & _). split.
      * exists (S k). split; [lia|]. split; [done|]. simpl. lia.
      * by eapply counted_prepare.
  - destruct (do_action_frame τ a c Ha) as (l & Es & E1 & E2 & E3).
    eapply phase_frame; [done..| |by eapply votes_extend; [|apply Hok]|exact Hp].
    by rewrite filter_cons_False.
Qed.

(** ** Completions *)

Lemma outcome_calls_other cfg τ τ' p : τ' <> τ ->
  filter (is_prepare τ) (outcome_calls cfg τ' p) = []
  /\ filter (is_decision τ) (outcome_calls cfg τ' p) = [].
Proof.
  intros Hne. unfold outcome_calls. destruct (outcome p) as [ty|]; [|done].
  split; apply filter_none, Forall_fmap, Forall_true; intros s; unfold is_prepare, is_decision; simpl;
    intros [_ E]; by apply Hne.
Qed.

Lemma outcome_calls_self cfg τ p :
  filter (is_prepare τ) (outcome_calls cfg τ p) = []
  /\ filter (is_decision τ) (outcome_calls cfg τ p) = outcome_calls cfg τ p.
Proof.
  unfold outcome_calls. destruct (outcome p) as [ty|] eqn:E; [|done].
  assert (ty = TPC_COMMIT \/ ty = TPC_ABORT) as Hty.
  { unfold outcome in E. repeat case_match; simplify_eq; auto. }
  split; [apply filter_none | apply filter_all]; apply Forall_fmap, Forall_true; intros s;
    unfold is_prepare, is_decision; simpl; [|done].
  intros [-> _]. by destruct Hty.
Qed.

(** A completion that is no vote on [τ]. *)
Lemma phase_other cfg τ now t sl rl c todo ans i call ev :
  connected cfg c -> answers_ok (mkRun c todo ans) -> sent c !! i = Some call -> reply_to call ev ->
  ~ (is_prepare τ call /\ votes_on call ev = true) ->
  Phase cfg τ now t sl rl (mkRun c todo ans) ->
  Phase cfg τ now t sl rl (mkRun (consume cfg call ev c) todo (ans ++ [(i, ev)])).
Proof.
  intros Hcn [_ Hok] Hi Hr Hnv. 
  assert (exists l, sent (consume cfg call ev c) = sent c ++ l /\ filter (is_prepare τ) l = []
    /\ filter (is_decision τ) l = []
    /\ processing (consume cfg call ev c) !! τ = processing c !! τ) as (l & Es & E1 & E2 & E3).
  { destruct (votes_on call ev) eqn:Ev.
    - pose proof (consume_vote cfg call ev c Ev Hcn) as (_ & Es & Ex). rewrite Es, Ex.
      assert (ts_tid (reply ev) <> τ) as Hne.
      { unfold votes_on in Ev. apply andb_true_iff in Ev as [[Et%bool_decide_eq_true _]%andb_true_iff E0].
        intros <-. apply Hnv. split; [|done]. split; [done|]. destruct Hr as [Hr|Hr]; [done|].
        rewrite Hr in E0. done. }
      eexists. split; [reflexivity|]. destruct (outcome_calls_other cfg τ (ts_tid (reply ev))
        (count_vote (status_ok ev && ts_ack (reply ev))
           (default no_prepare (processing c !! ts_tid (reply ev)))) Hne) as [-> ->].
      split; [done|]. split; [done|]. destruct (outcome _).
      + by rewrite lookup_delete_ne.
      + by rewrite lookup_insert_ne.
    - destruct (consume_silent cfg call ev c Ev) as (_ & -> & ->). exists []. by rewrite app_nil_r. }
  apply phase_frame with l; try done.
  rewrite votes_snoc, (votes_extend τ c _ ans l todo) by done.
  assert (vote τ (consume cfg call ev c) (i, ev) = None) as ->; [|by rewrite app_nil_r].
  unfold vote. simpl. rewrite Es, lookup_app_l, Hi by (by eapply lookup_lt_Some).
  simpl. destruct (bool_decide (is_prepare τ call)) eqn:Ep; [|done]. simpl.
  apply bool_decide_eq_true in Ep. destruct (ev_ok ev && _) eqn:Eo; [|done]. destruct Hnv.
  split; [done|]. unfold votes_on. destruct Ep as [Et _]. rewrite bool_decide_true by done. exact Eo.
Qed.

Lemma answers_ok_snoc c c' l todo ans i ev : answers_ok (mkRun c todo ans) ->
  sent c' = sent c ++ l -> (i < length (sent c))%nat -> (i ∉ ans.*1) ->
  answers_ok (mkRun c' todo (ans ++ [(i, ev)])).
Proof.
  intros [Hnd Hlt] Es Hi Hni. split; simpl in *; rewrite fmap_app.
  - apply NoDup_app. split; [done|]. split; [|apply NoDup_singleton]. set_solver.
  - rewrite Es, length_app. apply Forall_app. split; [|repeat constructor; simpl; lia].
    eapply Forall_impl; [exact Hlt|]. simpl. lia.
Qed.

Lemma verdict_short cfg τ t vs : (length vs < 2)%nat -> verdict cfg τ t vs = [].
Proof. destruct vs as [|[] [|? ?]]; simpl; [done..| |done|]; lia. Qed.

(** The counters after one more vote, and the messages they call for. *)
Lemma counted_vote cfg τ t p vs b : p_txn p = t -> (length vs < 2)%nat ->
  successes p = Z.of_nat (length (filter (fun b => b = true) vs)) ->
  failures p = Z.of_nat (length (filter (fun b => b = false) vs)) ->
  let p' := count_vote b p in
  outcome_calls cfg τ p' = verdict cfg τ t (vs ++ [b])
  /\ (outcome p' = None <-> vs = [])
  /\ p_txn p' = t
  /\ successes p' = Z.of_nat (length (filter (fun b => b = true) (vs ++ [b])))
  /\ failures p' = Z.of_nat (length (filter (fun b => b = false) (vs ++ [b]))).
Proof.
  intros <- Hl Hs Hf. destruct p as [x s f n k]. simpl in *. subst s f.
  destruct vs as [|b0 [|b1 vs]]; [..|simpl in Hl; lia].
  - by destruct b.
  - by destruct b0, b.
Qed.

(** [counted], with the number of votes of each kind. *)
Lemma counted_spec cfg τ t r : (length (votes τ r) <= 2)%nat ->
  counted cfg τ t r <-> decisions τ (client r) = verdict cfg τ t (votes τ r) /\
    if decide (length (votes τ r) = 2)%nat then processing (client r) !! τ = None
    else exists p, processing (client r) !! τ = Some p /\ p_txn p = t
      /\ successes p = Z.of_nat (length (filter (fun b => b = true) (votes τ r)))
      /\ failures p = Z.of_nat (length (filter (fun b => b = false) (votes τ r))).
Proof.
  unfold counted. intros Hl. destruct (votes τ r) as [|b [|b' [|b'' vs]]]; simpl in *; [done| |done|lia].
  by destruct b.
Qed.

(** A vote on [τ]. *)
Lemma phase_vote cfg τ now t sl rl c todo ans i call ev :
  connected cfg c -> answers_ok (mkRun c todo ans) -> sent c !! i = Some call -> (i ∉ ans.*1) ->
  reply_to call ev -> is_prepare τ call -> votes_on call ev = true ->
  Phase cfg τ now t sl rl (mkRun c todo ans) ->
  Phase cfg τ now t sl rl (mkRun (consume cfg call ev c) todo (ans ++ [(i, ev)])).
Proof.
  intros Hcn Hok Hi Hni Hr Hp Hv Hph.
  destruct Hph as [(_ & Ep & _)|[(k & Hk & El & Hpr) Hc]]; simpl in *.
  { assert (call ∈ prepares τ c) as Hin by (apply list_elem_of_filter; eauto using list_elem_of_lookup_2).
    rewrite Ep in Hin. by apply elem_of_nil in Hin. }
  assert (ts_tid (reply ev) = τ) as Eτ.
  { unfold votes_on in Hv. apply andb_true_iff in Hv as [_ H0]. destruct Hr as [Hr|Hr].
    - rewrite Hr. apply Hp.
    - by rewrite Hr in H0. }
  pose proof (consume_vote cfg call ev c Hv Hcn) as (_ & Es & Ex). rewrite Eτ in Es, Ex.
  set (b := status_ok ev && ts_ack (reply ev)) in *.
  pose proof (lookup_lt_Some _ _ _ Hi) as Hlt.
  pose proof (answers_ok_snoc c _ _ todo ans i ev Hok Es Hlt Hni) as Hok'.
  pose proof (votes_le τ _ Hok') as Hle. simpl in Hle.
  assert (votes τ (mkRun (consume cfg call ev c) todo (ans ++ [(i, ev)]))
    = votes τ (mkRun c todo ans) ++ [b]) as Evs.
  { rewrite votes_snoc, (votes_extend τ c _ ans _ todo) by (done || apply Hok). f_equal.
    unfold vote. simpl. rewrite Es, lookup_app_l, Hi by done. simpl.
    rewrite bool_decide_true by done. unfold votes_on in Hv.
    destruct Hp as [Et _]. rewrite bool_decide_true in Hv by done. simpl in *. by rewrite Hv. }
  assert (prepares τ (consume cfg call ev c) = prepares τ c) as Epr.
  { unfold prepares. rewrite Es, filter_app. by rewrite (proj1 (outcome_calls_self _ _ _)), app_nil_r. }
  rewrite Evs, length_app, Epr in Hle. simpl in Hle.
  apply counted_spec in Hc as [Hd Hc]; [|lia]. simpl in *.
  rewrite decide_False in Hc by lia. destruct Hc as (p & Hp0 & Ht & Hs & Hf).
  rewrite Hp0 in Es, Ex. simpl in Es, Ex.
  destruct (counted_vote cfg τ t p (votes τ (mkRun c todo ans)) b) as (Eo & En & Ht' & Hs' & Hf');
    [done|lia|done|done|].
  right. split; [exists k; simpl; by rewrite Epr|]. apply counted_spec.
  { rewrite Evs, length_app. simpl. lia. }
  rewrite Evs. simpl. split.
  - unfold decisions. rewrite Es, filter_app, (proj2 (outcome_calls_self _ _ _)), Eo.
    unfold decisions in Hd. by rewrite Hd, verdict_short by lia.
  - rewrite Ex, length_app. case_decide as E2; simpl in E2.
    + destruct (outcome (count_vote b p)) eqn:E; [apply lookup_delete_eq|].
      rewrite (proj1 En eq_refl) in E2. simpl in E2. lia.
    + assert (votes τ (mkRun c todo ans) = []) as E0 by (apply nil_length_inv; lia).
      rewrite (proj2 En E0), lookup_insert_eq. eauto.
Qed.

Lemma phase_step cfg τ now t sl rl r r' : connected cfg (client r) -> answers_ok r ->
  step cfg r r' -> Phase cfg τ now t sl rl r -> Phase cfg τ now t sl rl r'.
Proof.
  intros Hcn Hok Hst. revert Hcn Hok.
  destruct Hst as [c a td ans|c td ans i call ev Hi Hni Hr]; cbn [client]; intros Hcn Hok Hp.
  - by apply phase_submit.
  - destruct (decide (is_prepare τ call /\ votes_on call ev = true)) as [[? ?]|Hnv].
    + by apply phase_vote.
    + by apply phase_other.
Qed.

Lemma do_action_sent a c :
  stubs (do_action a c) = stubs c /\ exists l, sent (do_action a c) = sent c ++ l.
Proof.
  destruct a; simpl; try (split; [done|exists []; by rewrite app_nil_r]).
  - destruct (wall_started c); (split; [done|exists []; by rewrite app_nil_r]).
  - unfold sendTransfer, start_call. destruct (stubs c !! _); (split; [done|]);
      [by eexists|exists []; by rewrite app_nil_r].
  - unfold tpcPrepare, start_call. destruct (stubs c !! _); (split; [done|]);
      [by eexists|exists []; by rewrite app_nil_r].
Qed.

Lemma consume_sent cfg call ev c : connected cfg c ->
  stubs (consume cfg call ev c) = stubs c /\ exists l, sent (consume cfg call ev c) = sent c ++ l.
Proof.
  intros Hc. destruct (votes_on call ev) eqn:Ev.
  - destruct (consume_vote cfg call ev c Ev Hc) as (-> & -> & _). eauto.
  - destruct (consume_silent cfg call ev c Ev) as (-> & _ & ->). split; [done|].
    exists []. by rewrite app_nil_r.
Qed.

Lemma step_frame cfg r r' : connected cfg (client r) -> answers_ok r -> step cfg r r' ->
  connected cfg (client r') /\ answers_ok r'.
Proof.
  intros Hcn Hok Hst. revert Hcn Hok.
  destruct Hst as [c a td ans|c td ans i call ev Hi Hni Hr]; cbn [client]; intros Hcn Hok.
  - destruct (do_action_sent a c) as (Es & l & El). unfold connected. simpl. rewrite Es.
    split; [done|]. destruct Hok as [Hnd Hlt]. split; [done|]. simpl in *.
    rewrite El, length_app. eapply Forall_impl; [exact Hlt|]. simpl. lia.
  - destruct (consume_sent cfg call ev c Hcn) as (Es & l & El). unfold connected. simpl. rewrite Es.
    split; [done|]. eapply answers_ok_snoc; [done|done|by eapply lookup_lt_Some|done].
Qed.

(** ** Runs *)

(** The transactions the driver submits are numbered apart: every reading of the
    system clock is larger than the one before. *)
Definition numbers (sets : list (list (Transaction * Clock) * list text)) : list Z :=
  (fun p => system_ns p.2) <$> concat sets.*1.

(** [p] is a transaction between two clusters with the given leaders. *)
Definition cross_shard (cfg : constants) (leaders : list text) (t : Transaction) (sl rl : text) : Prop :=
  getClusterIdFromClientId cfg (sender t) <> getClusterIdFromClientId cfg (receiver t)
  /\ nth_leader leaders (getClusterIdFromClientId cfg (sender t) - 1) = Some sl
  /\ nth_leader leaders (getClusterIdFromClientId cfg (receiver t) - 1) = Some rl.

Lemma submit_other cfg leaders p τ : system_ns p.2 <> τ -> filter (about τ) (submit cfg leaders p) = [].
Proof.
  destruct p as [t clk]. simpl. intros Hne. apply filter_none.
  destruct (nth_leader _ _); [|repeat constructor; auto]. destruct (nth_leader _ _); [|repeat constructor; auto].
  destruct (_ =? _); repeat constructor; auto.
Qed.

Lemma submit_self cfg leaders t clk sl rl : cross_shard cfg leaders t sl rl ->
  let q := mkTransferReq t (system_ns clk) in
  filter (about (system_ns clk)) (submit cfg leaders (t, clk))
  = [Register (system_ns clk) t (steady_ns clk); Prepare q sl; Prepare q rl].
Proof.
  intros (Hne & Es & Er) q. unfold submit. rewrite Es, Er.
  destruct (Z.eqb_spec (getClusterIdFromClientId cfg (sender t))
    (getClusterIdFromClientId cfg (receiver t))) as [E|_]; [contradiction|].
  cbn [negb app]. do 2 (rewrite filter_cons_False by (simpl; tauto)).
  by do 3 (rewrite filter_cons_True by reflexivity).
Qed.

Lemma process_other cfg ts leaders τ : (τ ∉ (fun p => system_ns p.2) <$> ts) ->
  filter (about τ) (processTransactions cfg ts leaders) = [].
Proof.
  unfold processTransactions. induction ts as [|p ts IH]; [done|].
  rewrite fmap_cons, not_elem_of_cons. intros [Hp Hts]. rewrite fmap_cons. cbn [concat].
  rewrite filter_app, IH, submit_other by congruence. done.
Qed.

Lemma process_self cfg ts leaders t clk sl rl : cross_shard cfg leaders t sl rl ->
  (t, clk) ∈ ts -> NoDup ((fun p => system_ns p.2) <$> ts) ->
  filter (about (system_ns clk)) (processTransactions cfg ts leaders)
  = filter (about (system_ns clk)) (submit cfg leaders (t, clk)).
Proof.
  intros Hc Hin. unfold processTransactions. induction ts as [|p ts IH]; [by apply elem_of_nil in Hin|].
  rewrite fmap_cons, NoDup_cons. intros [Hp Hnd]. rewrite (fmap_cons (submit _ _)). cbn [concat].
  rewrite filter_app. apply elem_of_cons in Hin as [<-|Hin].
  - fold (processTransactions cfg ts leaders). by rewrite process_other, app_nil_r.
  - rewrite submit_other, IH; [done..|]. intros E. apply Hp. rewrite E.
    apply list_elem_of_fmap. by exists (t, clk).
Qed.

Lemma submissions_other cfg sets τ : (τ ∉ numbers sets) -> filter (about τ) (submissions cfg sets) = [].
Proof.
  unfold submissions, numbers. induction sets as [|[ts ld] sets IH]; [done|].
  rewrite !fmap_cons. cbn [concat]. rewrite fmap_app, not_elem_of_app. intros [H1 H2].
  by rewrite filter_app, process_other, IH.
Qed.

Lemma submissions_self cfg sets ts leaders t clk sl rl : NoDup (numbers sets) ->
  (ts, leaders) ∈ sets -> (t, clk) ∈ ts -> cross_shard cfg leaders t sl rl ->
  filter (about (system_ns clk)) (submissions cfg sets)
  = filter (about (system_ns clk)) (submit cfg leaders (t, clk)).
Proof.
  intros Hnd Hs Ht Hc. unfold submissions, numbers in *.
  induction sets as [|[ts' ld] sets IH]; [by apply elem_of_nil in Hs|].
  rewrite !fmap_cons in *. cbn [concat fst snd] in *. rewrite fmap_app in Hnd.
  apply NoDup_app in Hnd as (Hn1 & Hn2 & Hn3). rewrite filter_app.
  apply elem_of_cons in Hs as [E|Hs].
  - injection E as <- <-. rewrite (process_self _ _ _ _ _ sl rl) by done.
    fold (submissions cfg sets). rewrite submissions_other, app_nil_r; [done|].
    unfold numbers. apply Hn2. apply list_elem_of_fmap. by exists (t, clk).
  - rewrite process_other, IH; [done..|]. intros Hin. apply (Hn2 _ Hin).
    apply list_elem_of_fmap. exists (t, clk). split; [done|].
    apply list_elem_of_In, in_concat. exists ts. split; apply list_elem_of_In; [|done].
    apply list_elem_of_fmap. by exists (ts, leaders).
Qed.

(** The invariant holds along every run. *)
Lemma run_phase cfg sets ts leaders t clk sl rl r : NoDup (numbers sets) ->
  (ts, leaders) ∈ sets -> (t, clk) ∈ ts -> cross_shard cfg leaders t sl rl ->
  rtc (step cfg) (begin cfg (submissions cfg sets)) r ->
  connected cfg (client r) /\ answers_ok r
  /\ Phase cfg (system_ns clk) (steady_ns clk) t sl rl r.
Proof.
  intros Hnd Hs Ht Hc Hrun.
  assert (connected cfg (client (begin cfg (submissions cfg sets)))
    /\ answers_ok (begin cfg (submissions cfg sets))
    /\ Phase cfg (system_ns clk) (steady_ns clk) t sl rl (begin cfg (submissions cfg sets))) as H0.
  { split; [apply connected_new|]. split; [split; simpl; constructor|]. left. split; [|done].
    simpl. rewrite (submissions_self _ _ ts leaders t clk sl rl) by done. by apply submit_self. }
  revert H0. generalize dependent (begin cfg (submissions cfg sets)). intros r0 Hrun.
  induction Hrun as [r|r1 r2 r3 Hst _ IH]; [done|]. intros H0. apply IH.
  destruct H0 as (Hcn & Hok & Hp). destruct (step_frame cfg r1 r2 Hcn Hok Hst) as [Hcn' Hok'].
  split; [done|]. split; [done|]. exact (phase_step _ _ _ _ _ _ _ _ Hcn Hok Hst Hp).
Qed.

(** C6. Two-phase commit, in every interleaving of submissions and replies: for a
    transaction between two clusters with a number of its own, the decision messages
    the client has sent are determined by the votes received.  No decision is sent
    before both leaders have voted; when both voted yes, a commit has been sent to
    every server of the two clusters, once each; when one of the two votes is no, an
    abort. *)
Theorem two_phase_decision cfg sets ts leaders t clk sl rl r : NoDup (numbers sets) ->
  (ts, leaders) ∈ sets -> (t, clk) ∈ ts -> cross_shard cfg leaders t sl rl ->
  rtc (step cfg) (begin cfg (submissions cfg sets)) r ->
  decisions (system_ns clk) (client r) = verdict cfg (system_ns clk) t (votes (system_ns clk) r).
Proof.
  intros Hnd Hs Ht Hc Hrun.
  destruct (run_phase cfg sets ts leaders t clk sl rl r) as (_ & Hok & Hp); [done..|].
  destruct Hp as [(_ & Ep & -> & _)|[_ [Hd _]]]; [|done].
  pose proof (votes_le (system_ns clk) r Hok) as Hl. rewrite Ep in Hl.
  by rewrite verdict_short by (simpl in Hl; lia).
Qed.

Lemma omap_length_lt {A B} (f : A -> option B) l x : x ∈ l -> f x = None ->
  (length (omap f l) < length l)%nat.
Proof.
  assert (forall l, (length (omap f l) <= length l)%nat) as Hle.
  { intros k. induction k as [|y k IH]; [done|]. rewrite omap_cons. destruct (f y); simpl; lia. }
  intros Hx Hf. induction Hx as [x l|x y l Hx IH]; rewrite omap_cons.
  - rewrite Hf. specialize (Hle l). simpl. lia.
  - specialize (IH Hf). destruct (f y); simpl; lia.
Qed.

(** C29. A prepare that fails is never made up for: once a prepare call of a
    transaction between two clusters has completed without a reply (number 0), no
    decision about the transaction is ever sent, and it stays in the table of
    transactions in flight. *)
Theorem failed_prepare_undecided cfg sets ts leaders t clk sl rl r i ev call :
  NoDup (numbers sets) ->
  (ts, leaders) ∈ sets -> (t, clk) ∈ ts -> cross_shard cfg leaders t sl rl ->
  rtc (step cfg) (begin cfg (submissions cfg sets)) r ->
  (i, ev) ∈ answered r -> sent (client r) !! i = Some call ->
  is_prepare (system_ns clk) call -> ts_tid (reply ev) = 0 ->
  decisions (system_ns clk) (client r) = []
  /\ is_Some (processing (client r) !! system_ns clk).
Proof.
  intros Hnd Hs Ht Hc Hrun Ha Hi Hp H0. set (τ := system_ns clk) in *.
  destruct (run_phase cfg sets ts leaders t clk sl rl r) as (_ & Hok & Hph); [done..|]. fold τ in Hph.
  assert ((i, ev) ∈ answers τ r) as Hin.
  { apply list_elem_of_filter. split; [|done]. unfold answers_prepare. simpl. rewrite Hi.
    by apply Is_true_true, bool_decide_eq_true. }
  pose proof (answers_le τ r Hok) as Hle.
  destruct Hph as [(_ & Ep & _)|[(k & Hk & _ & Hpr) Hct]].
  { rewrite Ep in Hle. destruct (answers τ r); [by apply elem_of_nil in Hin|simpl in Hle; lia]. }
  assert (length (votes τ r) < 2)%nat as Hlt.
  { rewrite votes_answers. enough (length (omap (vote τ (client r)) (answers τ r))
      < length (answers τ r))%nat by lia.
    eapply omap_length_lt; [exact Hin|]. unfold vote. simpl. rewrite Hi. simpl.
    rewrite H0. simpl. by rewrite andb_false_r. }
  apply counted_spec in Hct as [Hd Hx]; [|lia]. rewrite decide_False in Hx by lia.
  destruct Hx as (p & Hx & _). split; [|by exists p]. by rewrite Hd, verdict_short.
Qed.

(** ** Runs that evaluate *)

Inductive Event := Submitted | Answered (i : nat) (ev : Completion).

Definition fire (cfg : constants) (e : Event) (r : Run) : option Run :=
  match e with
  | Submitted =>
    match todo r with
    | [] => None
    | a :: td => Some (mkRun (do_action a (client r)) td (answered r))
    end
  | Answered i ev =>
    call ← sent (client r) !! i;
    if bool_decide (i ∉ (answered r).*1)
       && ((ts_tid (reply ev) =? call_tid call) || (ts_tid (reply ev) =? 0))
    then Some (mkRun (consume cfg call ev (client r)) (todo r) (answered r ++ [(i, ev)]))
    else None
  end.

Fixpoint fires (cfg : constants) (es : list Event) (r : Run) : option Run :=
  match es with [] => Some r | e :: es' => r' ← fire cfg e r; fires cfg es' r' end.

Lemma fires_run cfg es r r' : fires cfg es r = Some r' -> rtc (step cfg) r r'.
Proof.
  revert r. induction es as [|e es IH]; intros r; cbn [fires].
  { intros [= ->]. apply rtc_refl. }
  destruct (fire cfg e r) as [r1|] eqn:E; cbn [mbind option_bind]; [|done]. intros Hes.
  apply rtc_l with r1; [|by apply IH]. destruct r as [c td ans], e as [|i ev]; cbn in E.
  - destruct td as [|a td]; [done|]. injection E as <-. constructor.
  - destruct (sent c !! i) as [call|] eqn:Ei; cbn in E; [|done].
    destruct (bool_decide _) eqn:Eb; cbn in E; [|done]. apply bool_decide_eq_true in Eb.
    destruct (_ || _) eqn:Et; [|done]. injection E as <-. constructor; [done..|].
    unfold reply_to. apply orb_true_iff in Et as [Et|Et]; lia.
Qed.

(** Two clusters of one server each; a transfer from account 1 to account 2000. *)
Definition two_shards : constants := setupApplicationState (mkConstants 0 0 ∅ ∅) 2 1.
Definition cross_sets : list (list (Transaction * Clock) * list text) :=
  [([(mkTransaction 1 2000 5, mkClock 77 0 0)], [L "S1"; L "S2"])].
Definition yes (τ : Z) : Completion := mkCompletion true true (mkTransferRes true τ) 0 0 0.
Definition failed : Completion := mkCompletion true false (mkTransferRes false 0) 0 0 0.

Definition run_of (es : list Event) : Run :=
  default (begin two_shards [])
    (fires two_shards es (begin two_shards (submissions two_shards cross_sets))).

Definition both_vote : list Event :=
  [Submitted; Submitted; Submitted; Submitted; Answered 0 (yes 77); Submitted; Answered 1 (yes 77)].
Definition both_yes : Run := run_of both_vote.
Definition one_fails : list Event :=
  [Submitted; Submitted; Submitted; Submitted; Submitted; Answered 1 failed; Answered 0 (yes 77)].
Definition one_lost : Run := run_of one_fails.

Lemma two_phase_decision_witness :
  votes 77 both_yes = [true; true]
  /\ decisions 77 (client both_yes) = verdict two_shards 77 (mkTransaction 1 2000 5) [true; true]
  /\ length (decisions 77 (client both_yes)) = 2%nat.
Proof.
  assert (votes 77 both_yes = [true; true]) as Ev by by vm_compute.
  split; [done|]. split; [|by vm_compute]. rewrite <- Ev.
  apply (two_phase_decision two_shards cross_sets [(mkTransaction 1 2000 5, mkClock 77 0 0)]
    [L "S1"; L "S2"] (mkTransaction 1 2000 5) (mkClock 77 0 0) (L "S1") (L "S2")).
  - apply NoDup_singleton.
  - apply list_elem_of_here.
  - apply list_elem_of_here.
  - split; [|split]; by vm_compute.
  - apply (fires_run _ both_vote). by vm_compute.
Defined.

Lemma failed_prepare_undecided_witness :
  decisions 77 (client one_lost) = [] /\ is_Some (processing (client one_lost) !! 77).
Proof.
  apply (failed_prepare_undecided two_shards cross_sets [(mkTransaction 1 2000 5, mkClock 77 0 0)]
    [L "S1"; L "S2"] (mkTransaction 1 2000 5) (mkClock 77 0 0) (L "S1") (L "S2") one_lost 1%nat failed
    (mkClientCall TPC_PREPARE (Some true) (L "S2")
       (TransferMsg (mkTransferReq (mkTransaction 1 2000 5) 77)))).
  - apply NoDup_singleton.
  - apply list_elem_of_here.
  - apply list_elem_of_here.
  - split; [|split]; by vm_compute.
  - apply (fires_run _ one_fails). by vm_compute.
  - apply list_elem_of_here.
  - by vm_compute.
  - by split.
  - done.
Defined.

(** ** Routing *)

Definition run_actions (l : list Action) (c : Client) : Client := foldl (fun c a => do_action a c) c l.

(** The leader of a client's cluster. *)
Definition leader_of (cfg : constants) (leaders : list text) (id : Z) : text :=
  default [] (nth_leader leaders (getClusterIdFromClientId cfg id - 1)).

(** The calls a transaction gives rise to. *)
Definition route (cfg : constants) (leaders : list text) (p : Transaction * Clock)
  : list ClientCall :=
  let '(t, clk) := p in
  let msg := TransferMsg (mkTransferReq t (system_ns clk)) in
  if getClusterIdFromClientId cfg (sender t) =? getClusterIdFromClientId cfg (receiver t)
  then [mkClientCall TRANSFER (Some false) (leader_of cfg leaders (sender t)) msg]
  else [mkClientCall TPC_PREPARE (Some true) (leader_of cfg leaders (sender t)) msg;
        mkClientCall TPC_PREPARE (Some true) (leader_of cfg leaders (receiver t)) msg].

(** One leader per cluster, each a server of that cluster. *)
Definition leaders_ok (cfg : constants) (leaders : list text) : Prop :=
  Z.of_nat (length leaders) = num_clusters cfg /\
  forall i l, leaders !! i = Some l -> exists id, server_ids cfg !! l = Some id
    /\ getClusterIdFromServerId cfg id = Z.of_nat i + 1.

Definition clients_ok (t : Transaction) : Prop := valid_client (sender t) /\ valid_client (receiver t).

Lemma leader_found cfg leaders id : config_ok cfg -> leaders_ok cfg leaders -> valid_client id ->
  nth_leader leaders (getClusterIdFromClientId cfg id - 1) = Some (leader_of cfg leaders id)
  /\ exists sid, server_ids cfg !! leader_of cfg leaders id = Some sid
      /\ getClusterIdFromServerId cfg sid = getClusterIdFromClientId cfg id.
Proof.
  intros Hc [Hl Hld] Hid. pose proof (cluster_bounds cfg id Hc Hid) as Hb.
  unfold leader_of. set (k := getClusterIdFromClientId cfg id) in *.
  assert (nth_leader leaders (k - 1) = leaders !! Z.to_nat (k - 1)) as E.
  { unfold nth_leader. destruct (Z.leb_spec 0 (k - 1)); [done|lia]. }
  destruct (lookup_lt_is_Some_2 leaders (Z.to_nat (k - 1))) as [l El]; [lia|].
  rewrite E, El. split; [done|]. destruct (Hld _ _ El) as (sid & Hs & Hcl). exists sid.
  split; [done|]. lia.
Qed.

Lemma leader_connected cfg c leaders id : connected cfg c -> config_ok cfg ->
  leaders_ok cfg leaders -> valid_client id -> is_Some (stubs c !! leader_of cfg leaders id).
Proof.
  intros Hcn Hc Hl Hid. destruct (leader_found cfg leaders id) as (_ & sid & Hs & _); [done..|].
  apply Hcn, list_elem_of_fmap. exists (leader_of cfg leaders id, sid). split; [done|].
  by apply elem_of_map_iter.
Qed.

Lemma submit_route cfg leaders p c : config_ok cfg -> leaders_ok cfg leaders ->
  clients_ok p.1 -> connected cfg c ->
  let c' := run_actions (submit cfg leaders p) c in
  sent c' = sent c ++ route cfg leaders p /\ client_ub c' = client_ub c /\ stubs c' = stubs c.
Proof.
  destruct p as [t clk]. intros Hc Hl [Hs Hr] Hcn. simpl in Hs, Hr.
  destruct (leader_found cfg leaders (sender t)) as [Es _]; [done..|].
  destruct (leader_found cfg leaders (receiver t)) as [Er _]; [done..|].
  destruct (leader_connected cfg c leaders (sender t)) as [a Ha]; [done..|].
  destruct (leader_connected cfg c leaders (receiver t)) as [b Hb]; [done..|].
  unfold submit, route. rewrite Es, Er.
  set (sl := leader_of cfg leaders (sender t)) in *. set (rl := leader_of cfg leaders (receiver t)) in *.
  destruct (_ =? _); cbn [negb app run_actions foldl do_action].
  - unfold sendTransfer, start_call. destruct (wall_started _); simpl; by rewrite Ha.
  - unfold tpcPrepare, start_call. destruct (wall_started _); simpl; rewrite Ha; simpl; rewrite Hb;
      simpl; by rewrite <- app_assoc.
Qed.

(** What the server a call goes to relies on: a transfer is between two accounts of
    its cluster, and a prepare is for a transaction between two clusters one of which
    is its own. *)
Definition well_routed (cfg : constants) (call : ClientCall) : Prop :=
  match cc_message call with
  | TransferMsg r =>
    let sc := getClusterIdFromClientId cfg (sender (tr_txn r)) in
    let rc := getClusterIdFromClientId cfg (receiver (tr_txn r)) in
    exists sid, server_ids cfg !! cc_server call = Some sid /\
    let k := getClusterIdFromServerId cfg sid in
    match cc_type call with
    | TRANSFER => k = sc /\ k = rc
    | TPC_PREPARE => sc <> rc /\ (k = sc \/ k = rc)
    | _ => False
    end
  | TidMsg _ => True
  end.



(** ** Statistics *)

Definition stats_ok (c : Client) : Prop :=
  transactions_processed c = wrap32 (Z.of_nat (length (latencies c)))
  /\ latencies c ≡ₚ intra_latencies c ++ cross_latencies c.

Lemma start_call_stats call c : stats_ok (start_call call c) <-> stats_ok c.
Proof. unfold start_call. by destruct (stubs c !! _). Qed.

Lemma start_calls_stats (f : text -> ClientCall) l c :
  stats_ok (foldl (fun c s => start_call (f s) c) c l) <-> stats_ok c.
Proof.
  revert c. induction l as [|s l IH]; intros c; [done|]. cbn [foldl]. rewrite IH. apply start_call_stats.
Qed.

Lemma record_latency_stats b n c : stats_ok c -> stats_ok (record_latency b n c).
Proof.
  intros [E1 E2]. unfold stats_ok, record_latency. destruct b; simpl;
    rewrite E1, wrap32_succ, length_app; simpl; (split; [f_equal; lia|]); rewrite E2.
  - by rewrite app_assoc.
  - rewrite <- !app_assoc. apply Permutation_app_head, Permutation_app_comm.
Qed.

Lemma do_action_stats a c : stats_ok c -> stats_ok (do_action a c).
Proof.
  destruct a; simpl; try done.
  - by destruct (wall_started c).
  - by apply start_call_stats.
  - by apply start_call_stats.
Qed.

Lemma consume_stats cfg call ev c : stats_ok c -> stats_ok (consume cfg call ev c).
Proof.
  intros Hs. unfold consume. destruct (negb _); [done|].
  destruct (bool_decide (cc_type call = TRANSFER) && _); [by apply record_latency_stats|].
  destruct (bool_decide _); [|done]. destruct (_ =? 0); [done|].
  set (p := count_vote _ _). destruct (_ || _); [|done].
  assert (forall c, stats_ok c -> stats_ok (c <| processing ::= delete (ts_tid (reply ev)) |>)) as Hd
    by done.
  apply Hd. destruct (_ =? 2); apply start_calls_stats, record_latency_stats, Hs.
Qed.

(** The statistics in every interleaving: the number of transactions reported as
    processed is the number of recorded latencies (modulo the width of [int]), and the
    latencies are those of the transactions within a cluster together with those
    between clusters. *)
Theorem statistics_consistent cfg l r : rtc (step cfg) (begin cfg l) r -> stats_ok (client r).
Proof.
  intros Hrun. assert (stats_ok (client (begin cfg l))) as H0 by (split; reflexivity).
  revert H0. generalize dependent (begin cfg l). intros r0 Hrun.
  induction Hrun as [|r1 r2 r3 Hst _ IH]; [done|]. intros H0. apply IH. revert H0.
  destruct Hst; simpl; intros Hs; [by apply do_action_stats | by apply consume_stats].
Qed.

Lemma statistics_consistent_witness :
  stats_ok (client both_yes) /\ transactions_processed (client both_yes) = 1.
Proof.
  split; [|by vm_compute].
  apply (statistics_consistent two_shards (submissions two_shards cross_sets)).
  apply (fires_run _ both_vote). by vm_compute.
Defined.
