(* ===== verification/Report.v ===== *)
(** * Report: what the client prints

    The printing members of [class Client] ([src/client/client.cc]):
    [printBalance], [printDatastore] and [printPerformance].  The result is the
    text written to standard output.  Synchronous RPCs are arguments: the reply of
    a server, or [None] when the call fails.

    The statistics are computed in [double]. *)

From Stdlib Require Import SpecFloat.
From S2P Require Import Prelude Text Types Utils Store Wal Server Client Doubles.

(** ** Streams *)

Definition endl : text := [nl].

(** [std::setw(n)] before an insertion: padded on the left with spaces. *)
Definition setw (n : nat) (l : text) : text := replicate (n - length l) sp ++ l.

(** ** Latency statistics *)

Definition sorted_samples (samples : list Z) : list Z := merge_sort Z.le samples.

(** [sorted[sorted.size() * k / 100]]; a vector is too short for the product to
    leave [size_t]. *)
Definition percentile (k : Z) (samples : list Z) : option Z :=
  sorted_samples samples !! Z.to_nat (Z.of_nat (length samples) * k / 100).

Definition total_ns (samples : list Z) : Z :=
  foldl (fun t l => wrap64 (t + l)) 0 (sorted_samples samples).

Definition ns_per_ms_d : double := double_of 1000000.

Definition printLatencyStats (samples : list Z) : text :=
  match samples with
  | [] => L "Latency mean:                  N/A" ++ endl
          ++ L "Latency p50:                   N/A" ++ endl
          ++ L "Latency p99:                   N/A" ++ endl
  | _ =>
    let mean_ms := ddiv (ddiv (double_of (total_ns samples))
                              (double_of (Z.of_nat (length samples)))) ns_per_ms_d in
    let p50_ms := ddiv (double_of (default 0 (percentile 50 samples))) ns_per_ms_d in
    let p99_ms := ddiv (double_of (default 0 (percentile 99 samples))) ns_per_ms_d in
    L "Latency mean:                  " ++ show_double mean_ms ++ L " ms" ++ endl
    ++ L "Latency p50:                   " ++ show_double p50_ms ++ L " ms" ++ endl
    ++ L "Latency p99:                   " ++ show_double p99_ms ++ L " ms" ++ endl
  end.

Definition printPerformance (c : Client) : text :=
  L "=== Overall ===" ++ endl
  ++ L "Transactions Processed: " ++ to_text (transactions_processed c) ++ endl
  ++ match latencies c with
     | [] => L "No completed transactions to report." ++ endl
     | _ =>
       let wall_s := ddiv (double_of (wrap64 (wall_end c - wall_start c))) (double_of 1000000000) in
       let tps := if dpos wall_s then ddiv (double_of (transactions_processed c)) wall_s
                  else S754_zero false in
       L "Wall-clock time:               " ++ show_double wall_s ++ L " s" ++ endl
       ++ L "Throughput:                    " ++ show_double tps ++ L " tps" ++ endl
       ++ printLatencyStats (latencies c)
       ++ endl
       ++ L "=== Intra-Shard Only ===" ++ endl
       ++ L "Transactions: " ++ to_text (Z.of_nat (length (intra_latencies c))) ++ endl
       ++ printLatencyStats (intra_latencies c)
       ++ endl
       ++ L "=== Cross-Shard Only ===" ++ endl
       ++ L "Transactions: " ++ to_text (Z.of_nat (length (cross_latencies c))) ++ endl
       ++ printLatencyStats (cross_latencies c)
     end.

(** ** Balances *)

Definition balance_row (s balance : text) : text :=
  setw 10 (s ++ L "|") ++ setw 10 (balance ++ L "|") ++ endl.

Definition printBalance (cfg : constants) (Balance : text -> Z -> option Z) (client_id : Z) : text :=
  let cluster_id := getClusterIdFromClientId cfg client_id in
  let servers := getServersInCluster cfg cluster_id in
  let balances := (fun s => match Balance s client_id with
                            | Some amount => to_text amount
                            | None => L "-"
                            end) <$> servers in
  setw 10 (L "Server|") ++ setw 10 (L "Balance|") ++ endl
  ++ concat (zip_with balance_row servers balances).

(** ** Logs *)

Definition status_text (st : TransactionStatus) : text :=
  match st with PREPARED => L "P" | COMMITTED => L "C" | ABORTED => L "A" | NO_STATUS => L "NS" end.

Definition entry_text (e : WALEntry) : text :=
  L "[<" ++ to_text (e_ballot_num e) ++ L "," ++ to_text (e_ballot_server_id e) ++ L ">, "
  ++ match type e with CROSS => status_text (status e) ++ L ", " | INTRA => [] end
  ++ L "(" ++ to_text (sender (txn e)) ++ L ", " ++ to_text (receiver (txn e)) ++ L ", "
  ++ to_text (amount (txn e)) ++ L ")]".

Fixpoint chain_text (l : list WALEntry) : text :=
  match l with
  | [] => []
  | [e] => entry_text e
  | e :: l' => entry_text e ++ L " -> " ++ chain_text l'
  end.

Definition datastore_row (p : text * list WALEntry) : text :=
  setw 10 (p.1 ++ L "|") ++ setw 10 (L " ") ++ chain_text p.2 ++ endl ++ endl.

Definition datastore_header : text := setw 10 (L "Server|") ++ setw 10 (L " ") ++ L "Datastore" ++ endl.

(** The entries of one server; [None] when a reply has a code outside the
    enumerations, whose cast is undefined. *)
Definition fetch_log (Logs : text -> option (list LogEntry)) (s : text) : option (list WALEntry) :=
  match Logs s with
  | Some reply => mapM entry_of_log reply
  | None => Some []
  end.

Definition printDatastore (cfg : constants) (Logs : text -> option (list LogEntry)) : option text :=
  datastore ← mapM (fun s => l ← fetch_log Logs s.1; Some (s.1, l)) (map_iter (server_ids cfg));
  Some (datastore_header ++ concat (datastore_row <$> datastore)).

(** [updateDisconnected]: the request sent on every stub. *)
Definition updateDisconnected (disconnected_servers : list text) (c : Client)
  : list (text * DisconnectReq) :=
  (fun s => (s.1, mkDisconnectReq disconnected_servers)) <$> map_iter (Client.stubs c).

(** ** Percentiles *)

Lemma sorted_perm l : sorted_samples l ≡ₚ l.
Proof. apply merge_sort_Permutation. Qed.

Lemma sorted_sorted l : StronglySorted Z.le (sorted_samples l).
Proof. apply Sorted_StronglySorted; [exact Z.le_trans|]. apply (Sorted_merge_sort _). Qed.

Lemma sorted_rank (l : list Z) (i : nat) (v : Z) : StronglySorted Z.le l -> l !! i = Some v ->
  (i < length (filter (fun x => (x <= v)%Z) l))%nat /\ (length (filter (fun x => (x < v)%Z) l) <= i)%nat.
Proof.
  intros Hs. revert i. induction Hs as [|x l Hs IH Hx]; intros i Hi; [done|].
  rewrite !filter_cons. destruct i as [|i]; simpl in Hi.
  - injection Hi as ->. rewrite decide_True by lia. rewrite decide_False by lia. simpl.
    split; [lia|]. rewrite filter_none; [done|]. eapply Forall_impl; [exact Hx|]. simpl. lia.
  - destruct (IH i Hi) as [H1 H2]. rewrite Forall_forall in Hx.
    assert (x <= v) by (apply Hx; by eapply list_elem_of_lookup_2).
    rewrite decide_True by lia. case_decide; simpl; lia.
Qed.

(** C35. The latency percentiles: for every sample set that is not empty the index is
    inside the sorted samples, the value is one of the samples, at most [k] percent
    of the samples are below it and more than [k] percent are at or below it. *)
Theorem percentile_rank k samples : 0 <= k < 100 -> samples <> [] ->
  exists v, percentile k samples = Some v /\ v ∈ samples
  /\ 100 * Z.of_nat (length (filter (fun x => x < v) samples)) <= k * Z.of_nat (length samples)
  /\ k * Z.of_nat (length samples) < 100 * Z.of_nat (length (filter (fun x => x <= v) samples)).
Proof.
  intros Hk Hne. set (n := Z.of_nat (length samples)).
  assert (0 < n) by (unfold n; destruct samples; [done|simpl; lia]).
  pose proof (Z.div_mod (n * k) 100 ltac:(lia)) as Hdm.
  pose proof (Z.mod_pos_bound (n * k) 100 ltac:(lia)) as Hmb.
  assert (0 <= n * k / 100 < n) as Hi
    by (split; [apply Z.div_pos; nia|apply Z.div_lt_upper_bound; nia]).
  unfold percentile. fold n. set (i := Z.to_nat (n * k / 100)).
  destruct (lookup_lt_is_Some_2 (sorted_samples samples) i) as [v Hv].
  { rewrite sorted_perm. unfold i. unfold n in *. lia. }
  exists v. split; [done|]. destruct (sorted_rank _ i v (sorted_sorted samples) Hv) as [H1 H2].
  rewrite sorted_perm in H1, H2. split.
  { rewrite <- (sorted_perm samples). by eapply list_elem_of_lookup_2. }
  unfold i in *. split; nia.
Qed.

Lemma percentile_rank_witness :
  exists v, percentile 99 [30; 10; 20] = Some v /\ v = 30.
Proof.
  destruct (percentile_rank 99 [30; 10; 20]) as (v & E & _); [lia|done|].
  exists v. split; [exact E|]. vm_compute in E. congruence.
Defined.

(** ** Logs of the servers *)

Lemma entry_of_log_inv e : entry_of_log (getLogEntryFromLocalLog e) = Some e.
Proof.
  unfold entry_of_log, getLogEntryFromLocalLog. simpl. rewrite type_code_inv, status_code_inv.
  by destruct e.
Qed.

Lemma entries_of_logs l : mapM entry_of_log (getLogEntryFromLocalLog <$> l) = Some l.
Proof. induction l as [|e l IH]; [done|]. rewrite fmap_cons. cbn. by rewrite entry_of_log_inv, IH. Qed.

Lemma mapM_Some_total {A B} (f : A -> option B) (g : A -> B) l :
  (forall x, f x = Some (g x)) -> mapM f l = Some (g <$> l).
Proof. intros Hf. induction l as [|x l IH]; [done|]. simpl. by rewrite Hf, IH. Qed.

Section datastore.
Context {D : Type} `{KVStore D}.

(** The printed datastore: when the servers answer with their logs, the report
    is defined and its row for a server is the log of that server, and an empty row
    for a server that does not answer. *)
Theorem datastore_shows_logs (c : constants) (system : text -> option (ServerImpl D)) :
  printDatastore c (fun s => processGetLogsCall <$> system s)
  = Some (datastore_header ++
      concat ((fun s => datastore_row (s.1, match system s.1 with Some sv => log sv | None => [] end))
                <$> map_iter (server_ids c))).
Proof.
  unfold printDatastore.
  rewrite (mapM_Some_total _ (fun s => (s.1, match system s.1 with Some sv => log sv | None => [] end))).
  { cbn [mbind option_bind]. by rewrite <- list_fmap_compose. }
  intros s. unfold fetch_log. destruct (system s.1) as [sv|]; [|done]. cbn [fmap option_fmap option_map].
  unfold processGetLogsCall. by rewrite entries_of_logs.
Qed.

End datastore.
