(* ===== verification/Driver.v ===== *)
(** * Driver: the command loop and the server processes

    [src/driver.cc], with [startAllServers] and [killAllServers] of
    [src/utils/utils.cc] and [main] of [src/server/server.cc].  What the program
    does to the outside is a list of effects in order; the operating system is an
    argument that says how [fork], [kill] and [waitpid] answer.  A C++ exception is
    a value: the model follows which handler catches it. *)

From S2P Require Import Prelude Text Types Utils Store Wal Server Calls Fixture Commands Csv.

(** Exceptions that reach the driver: those of the parsers, and
    [std::runtime_error] with its message. *)
Inductive DriverExn := Logic (e : exn) | RuntimeError (msg : text).

Record Os := mkOs {
  fork : text -> option Z;
  kill_ok : Z -> bool;
  waitpid_ok : Z -> bool
}.

(** The members of the client that the loop calls are effects of the driver; the
    client itself is the subject of the files on it. *)
Inductive Effect :=
  | Stdout (l : text)
  | Caught (e : DriverExn)
  | Spawn (pid : Z) (argv : list text)
  | Kill (pid : Z)
  | Wait (pid : Z)
  | UpdateDisconnected (servers : list text)
  | ProcessTransactions (ts : list Transaction) (leaders : list text)
  | PrintBalance (client_id : Z)
  | PrintDatastore
  | PrintPerformance
  | Shutdown.

(** ** Server processes *)

(** The parent's side of the loop of [startAllServers]. *)
Fixpoint spawn_all (os : Os) (nc cs : Z) (l : list (text * text)) (pids : gmap text Z)
  : gmap text Z * list Effect * option DriverExn :=
  match l with
  | [] => (pids, [], None)
  | s :: l' =>
    match fork os s.1 with
    | None => (pids, [], Some (RuntimeError (L "Failed to start server: " ++ s.1)))
    | Some pid =>
      let '(pids', es, e) := spawn_all os nc cs l' (<[s.1 := pid]> pids) in
      (pids', Spawn pid [L "server"; s.1; to_text nc; to_text cs] :: es, e)
    end
  end.

Definition startAllServers (cfg : constants) (os : Os) (nc cs : Z) (pids : gmap text Z) :=
  spawn_all os nc cs (map_iter (server_addresses cfg)) pids.

Fixpoint kill_all (os : Os) (l : list (text * Z)) (pids : gmap text Z)
  : gmap text Z * list Effect * option DriverExn :=
  match l with
  | [] => (pids, [], None)
  | (name, pid) :: l' =>
    if negb (kill_ok os pid) then
      (pids, [Kill pid], Some (RuntimeError (L "Failed to kill server: " ++ name)))
    else if negb (waitpid_ok os pid) then
      (pids, [Kill pid; Wait pid], Some (RuntimeError (L "waitpid failed for server: " ++ name)))
    else
      let '(pids', es, e) := kill_all os l' (delete name pids) in
      (pids', Kill pid :: Wait pid :: es, e)
  end.

Definition killAllServers (os : Os) (pids : gmap text Z) := kill_all os (map_iter pids) pids.

(** ** The command loop *)

Record Driver := mkDriver { reader : CSVReader; server_pids : gmap text Z }.

(** The state, the effects, and whether the loop goes on ([None]), returns or lets
    an exception out. *)
Inductive Verdict := Returns | Throws (e : DriverExn).

(** The body of the second [try]: an exception is caught and the loop goes on. *)
Definition perform (cfg : constants) (os : Os) (c : AppCommand) (d : Driver)
  : Driver * list Effect * option Verdict :=
  match command c with
  | PROCESS_NEXT_SET =>
    let '(r, o) := readNextSet cfg (reader d) in
    let d := mkDriver r (server_pids d) in
    let reading := Stdout (L "reading next set" ++ [nl]) in
    match o with
    | NoMoreSets => (d, [reading; Stdout (L "No more transaction sets to read..." ++ [nl])], None)
    | SetRead _ t =>
      (d, [reading; UpdateDisconnected (disconnected_servers t);
           ProcessTransactions (transactions t) (leaders t)], None)
    | ReadThrows e => (d, [reading; Caught (Logic e)], None)
    end
  | PRINT_BALANCE => (d, [PrintBalance (client_id c)], None)
  | PRINT_DATASTORE => (d, [PrintDatastore], None)
  | PRINT_PERFORMANCE => (d, [PrintPerformance], None)
  | EXIT =>
    let '(pids, es, e) := killAllServers os (server_pids d) in
    let d := mkDriver (reader d) pids in
    let es := Stdout (L "Exiting..." ++ [nl]) :: es in
    match e with
    | Some e => (d, es ++ [Caught e], None)
    | None => (d, es, Some Returns)
    end
  end.

(** One iteration, on the line of input it reads. *)
Definition round (cfg : constants) (os : Os) (line : text) (d : Driver)
  : Driver * list Effect * option Verdict :=
  match parseCommand line with
  | inr invalid_argument => (d, [Stdout (L "Invalid command. Try again. " ++ [nl])], None)
  | inr out_of_range => (d, [], Some (Throws (Logic out_of_range)))
  | inl c => perform cfg os c d
  end.

(** The loop; the input is the lines of standard input, and each iteration reads
    one. *)
Fixpoint mainloop (cfg : constants) (os : Os) (input : list text) (d : Driver)
  : Driver * list Effect * Verdict :=
  let prompt := Stdout prompt_text in
  match input with
  | [] =>
    let '(pids, es, e) := killAllServers os (server_pids d) in
    (mkDriver (reader d) pids, prompt :: es, match e with Some e => Throws e | None => Returns end)
  | line :: input' =>
    let '(d, es, v) := round cfg os line d in
    match v with
    | Some v => (d, prompt :: es, v)
    | None => let '(d, es', v) := mainloop cfg os input' d in (d, prompt :: es ++ es', v)
    end
  end.

(** ** [main] *)

Inductive Exit := ExitCode (n : Z) | Uncaught (e : DriverExn).

(** [main] of the driver: the arguments after the program name, the files of the
    file system and standard input.  The outcome also says which server processes
    are left. *)
Definition main (files : text -> option text) (os : Os) (args : list text) (input : list text)
  : list Effect * gmap text Z * Exit :=
  match args with
  | a1 :: a2 :: filename :: rest =>
    if (2 <=? length rest)%nat then ([], ∅, ExitCode 1)
    else
      match stoi a1, stoi a2 with
      | inr e, _ => ([], ∅, Uncaught (Logic e))
      | inl _, inr e => ([], ∅, Uncaught (Logic e))
      | inl num_clusters, inl cluster_size =>
        let cfg := setupApplicationState initial_constants num_clusters cluster_size in
        let cfg := match rest with
                   | config :: _ => (loadConfig cfg (files config)).1
                   | [] => cfg
                   end in
        let '(pids, es, e) := startAllServers cfg os num_clusters cluster_size ∅ in
        match e with
        | Some e => (es ++ [Caught e], pids, ExitCode 1)
        | None =>
          match open_csv (files filename) with
          | None =>
            (es ++ [Caught (RuntimeError (L "Error: Could not open the file: " ++ filename)); Shutdown],
             pids, ExitCode 0)
          | Some r =>
            let '(d, es', v) := mainloop cfg os input (mkDriver r pids) in
            (es ++ es' ++ match v with Throws e => [Caught e] | Returns => [] end ++ [Shutdown],
             server_pids d, ExitCode 0)
          end
        end
      end
  | _ => ([], ∅, ExitCode 1)
  end.

(** [main] of the server, up to the object [RunServer] creates: the settings, the
    number, the name and the address.  The result is [None] when the process ends
    with an error instead. *)
Definition server_main (files : text -> option text) (args : list text)
  : option (constants * Z * text * text) :=
  match args with
  | name :: a2 :: a3 :: rest =>
    if (2 <=? length rest)%nat then None
    else
      match stoi a2, stoi a3 with
      | inl num_clusters, inl cluster_size =>
        let cfg := setupApplicationState initial_constants num_clusters cluster_size in
        let cfg := match rest with
                   | config :: _ => (loadConfig cfg (files config)).1
                   | [] => cfg
                   end in
        Some (cfg, default 0 (server_ids cfg !! name), name,
              default [] (server_addresses cfg !! name))
      | _, _ => None
      end
  | _ => None
  end.

(** ** Shutdown *)

(** The pids signalled, in order. *)
Definition kills (es : list Effect) : list Z :=
  omap (fun e => match e with Kill pid => Some pid | _ => None end) es.

(** Signals and waits succeed: the processes are children of the driver. *)
Definition os_ok (os : Os) : Prop := forall pid, kill_ok os pid = true /\ waitpid_ok os pid = true.

Lemma kills_app a b : kills (a ++ b) = kills a ++ kills b.
Proof. apply omap_app. Qed.

Lemma kill_all_ok os l pids : os_ok os -> (forall k v, pids !! k = Some v -> k ∈ l.*1) ->
  exists es, kill_all os l pids = (∅, es, None) /\ kills es = l.*2.
Proof.
  intros Hos. revert pids. induction l as [|[name pid] l IH]; intros pids Hl; cbn [kill_all].
  - exists []. split; [|done]. f_equal. f_equal. apply map_eq. intros k. rewrite lookup_empty.
    destruct (pids !! k) eqn:E; [|done]. apply Hl in E. by apply elem_of_nil in E.
  - destruct (Hos pid) as [-> ->]. cbn [negb].
    destruct (IH (delete name pids)) as (es & -> & Ek).
    + intros k v E. apply lookup_delete_Some in E as [Hne E]. apply Hl in E. set_solver.
    + eexists. split; [reflexivity|]. cbn. by rewrite <- Ek.
Qed.

Lemma killAllServers_ok os pids : os_ok os ->
  exists es, killAllServers os pids = (∅, es, None) /\ kills es = (map_iter pids).*2.
Proof.
  intros Hos. apply kill_all_ok; [done|]. intros k v E. apply list_elem_of_fmap. exists (k, v).
  split; [done|]. by apply elem_of_map_iter.
Qed.

(** A command other than exit starts and stops no process. *)
Lemma perform_frame cfg os c d d' es v : command c <> EXIT -> perform cfg os c d = (d', es, v) ->
  v = None /\ server_pids d' = server_pids d /\ kills es = [].
Proof.
  unfold perform. intros Hc E. destruct (command c); [|by simplify_eq..|done].
  destruct (readNextSet cfg (reader d)) as [r o]. by destruct o; simplify_eq.
Qed.


(** An installation of two servers whose processes are 501 and 502. *)
Definition healthy : Os := mkOs (fun n => Some (500 + digit_val (default nl (last n))))
  (fun _ => true) (fun _ => true).
Definition two_running : Driver :=
  mkDriver (mkCSVReader [] 0 empty_set empty_set) {[L "S1" := 501; L "S2" := 502]}.


(** C30. An account number beyond [int] ends the driver with its servers running: the
    exception of such a line is not the one the loop catches, so the loop is left at
    once, and no server process is signalled. *)
Theorem balance_overflow_escapes cfg os n input d : int_max < n ->
  mainloop cfg os ((L "printBalance " ++ to_text n) :: input) d
  = (d, [Stdout prompt_text], Throws (Logic out_of_range)).
Proof.
  intros Hn. unfold int_max in Hn. cbn [mainloop]. unfold round. rewrite parse_number by lia.
  assert (in32b n = false) as ->; [|done]. unfold in32b, int_min, int_max. lia.
Qed.

Lemma balance_overflow_escapes_witness :
  mainloop initial_constants healthy [L "printBalance 2147483648"; L "exit"] two_running
  = (two_running, [Stdout prompt_text], Throws (Logic out_of_range)).
Proof. apply (balance_overflow_escapes initial_constants healthy 2147483648 [L "exit"]). done. Defined.

(** ** Processing a file of transaction sets *)

(** What the client is told to do for a set. *)
Definition set_effects (cfg : constants) (t : TransactionSet) : list Effect :=
  [UpdateDisconnected (not_listed cfg (servers t)); ProcessTransactions (transactions t) (leaders t)].

(** The calls on the client. *)
Definition on_client (e : Effect) : bool :=
  match e with
  | UpdateDisconnected _ | ProcessTransactions _ _ | PrintBalance _ | PrintDatastore
  | PrintPerformance => true
  | _ => false
  end.

Lemma kill_all_client os l pids pids' es e : kill_all os l pids = (pids', es, e) ->
  filter on_client es = [].
Proof.
  revert pids es. induction l as [|[name pid] l IH]; intros pids es; cbn [kill_all].
  { by intros [= <- <- <-]. }
  destruct (negb (kill_ok os pid)); [by intros [= <- <- <-]|].
  destruct (negb (waitpid_ok os pid)); [by intros [= <- <- <-]|].
  destruct (kill_all os l (delete name pids)) as [[q es1] e1] eqn:E. intros [= <- <- <-].
  rewrite !filter_cons_False by (simpl; tauto). by eapply IH.
Qed.

Lemma mainloop_sets cfg os n sets d : 1 <= n -> sets_ok n sets -> ready n sets (reader d) ->
  exists d' es v, mainloop cfg os (replicate (length sets) (L "processNextSet")) d = (d', es, v)
  /\ filter on_client es = concat (set_effects cfg <$> sets).
Proof.
  revert n d. induction sets as [|t sets IH]; intros n d Hn Hok Hrd; cbn [length replicate mainloop].
  - unfold killAllServers. destruct (kill_all _ _ _) as [[pids es] e] eqn:E.
    eexists _, _, _. split; [reflexivity|]. rewrite filter_cons_False by (simpl; tauto).
    by eapply kill_all_client.
  - destruct Hok as [Ht Hok]. destruct (readNextSet_ready cfg n t sets (reader d)) as (r' & E & Hrd');
      [done..|].
    unfold round. change (parseCommand (L "processNextSet")) with
      (@inl _ exn (mkAppCommand PROCESS_NEXT_SET (-1))).
    cbn [perform command]. unfold perform. cbn [command]. rewrite E. unfold read_as.
    destruct (IH (n + 1) (mkDriver r' (server_pids d))) as (d' & es & v & Em & Ef); [lia|done..|].
    rewrite Em. eexists _, _, _. split; [reflexivity|].
    rewrite fmap_cons. cbn [concat app set_effects]. rewrite <- Ef.
    rewrite filter_cons_False by (simpl; tauto). cbn [app]. rewrite filter_cons_False by (simpl; tauto).
    by do 2 rewrite filter_cons_True by (by simpl).
Qed.



(** ** The servers the driver starts *)

(** A spawned process runs the server of that name with the settings [cfg]. *)
Definition runs_as (files : text -> option text) (cfg : constants) (e : Effect) : Prop :=
  match e with
  | Spawn _ (_ :: args) => exists id name address,
      server_main files args = Some (cfg, id, name, address)
      /\ server_ids cfg !! name = Some id /\ server_addresses cfg !! name = Some address
  | _ => False
  end.

Lemma setup_fold_dom l cfg : dom (server_addresses cfg) = dom (server_ids cfg) ->
  dom (server_addresses (foldl setup_step cfg l)) = dom (server_ids (foldl setup_step cfg l)).
Proof.
  revert cfg. induction l as [|i l IH]; intros cfg E; [done|]. cbn [foldl]. apply IH.
  simpl. by rewrite !dom_insert_L, E.
Qed.

Lemma spawn_all_runs files os nc cs l pids pids' es e : in32 nc -> in32 cs ->
  let cfg := setupApplicationState initial_constants nc cs in
  Forall (fun s => server_addresses cfg !! s.1 = Some s.2) l ->
  spawn_all os nc cs l pids = (pids', es, e) -> Forall (runs_as files cfg) es.
Proof.
  intros Hn Hc cfg Hl. revert pids es. induction Hl as [|s l Hs _ IH]; intros pids es; cbn [spawn_all].
  { intros [= <- <- <-]. constructor. }
  destruct (fork os s.1) as [pid|]; [|intros [= <- <- <-]; constructor].
  destruct (spawn_all os nc cs l _) as [[p1 es1] e1] eqn:E. intros [= <- <- <-].
  constructor; [|by eapply IH].
  assert (s.1 ∈ dom (server_ids cfg)) as [id Hid]%elem_of_dom.
  { unfold cfg, setupApplicationState. rewrite <- setup_fold_dom by done.
    apply elem_of_dom. by exists s.2. }
  exists id, s.1, s.2. split; [|done]. unfold server_main. cbn [length Nat.leb].
  rewrite !stoi_to_text by done. fold cfg. by rewrite Hid, Hs.
Qed.

(** C31. Driver and servers agree on the deployment: without a configuration file,
    every server process the driver starts builds the same directory as the driver
    and finds itself in it under its own number and address. *)
Theorem spawned_servers_agree files os nc cs pids es e : in32 nc -> in32 cs ->
  let cfg := setupApplicationState initial_constants nc cs in
  startAllServers cfg os nc cs ∅ = (pids, es, e) -> Forall (runs_as files cfg) es.
Proof.
  intros Hn Hc cfg. apply spawn_all_runs; [done..|]. apply Forall_forall. intros s Hs.
  destruct s as [k v]. by apply elem_of_map_iter in Hs.
Qed.

Lemma spawned_servers_agree_witness :
  Forall (runs_as (fun _ => None) (setupApplicationState initial_constants 1 2))
    [Spawn 501 [L "server"; L "S1"; L "1"; L "2"]; Spawn 502 [L "server"; L "S2"; L "1"; L "2"]].
Proof.
  apply (spawned_servers_agree (fun _ => None) healthy 1 2
    {[L "S1" := 501; L "S2" := 502]} _ None); by vm_compute.
Defined.

