(* ===== verification/Coding.v ===== *)
(** * Coding: the binary encodings of LevelDB

    [src/leveldb/util/coding.h] and [src/leveldb/util/coding.cc]: little-endian
    fixed-width integers, variable-length integers and length-prefixed strings.  A
    byte is a character and a byte string a text; an unsigned integer is a [Z]
    reduced modulo its width where the source truncates.  A decoder returns the
    value and the rest of the input, [None] where the source returns a null pointer
    or reads past the end. *)

From S2P Require Import Prelude Text.

(** ** Bytes and unsigned integers *)

Definition u32 (z : Z) : Z := z mod 4294967296.
Definition u64 (z : Z) : Z := z mod 18446744073709551616.

Definition byte (z : Z) : ascii := chr (Z.to_N (z mod 256)).
Definition byte_val (c : ascii) : Z := Z.of_N (Ascii.N_of_ascii c).

(** ** Fixed-width integers *)

Definition EncodeFixed32 (v : Z) : text :=
  [byte v; byte (Z.shiftr v 8); byte (Z.shiftr v 16); byte (Z.shiftr v 24)].

Definition EncodeFixed64 (v : Z) : text :=
  [byte v; byte (Z.shiftr v 8); byte (Z.shiftr v 16); byte (Z.shiftr v 24);
   byte (Z.shiftr v 32); byte (Z.shiftr v 40); byte (Z.shiftr v 48); byte (Z.shiftr v 56)].

(** [byte(i) << (8 * i)] *)
Definition at_byte (c : ascii) (i : Z) : Z := Z.shiftl (byte_val c) (8 * i).

Definition DecodeFixed32 (l : text) : option Z :=
  match l with
  | b0 :: b1 :: b2 :: b3 :: _ =>
    Some (Z.lor (Z.lor (Z.lor (at_byte b0 0) (at_byte b1 1)) (at_byte b2 2)) (at_byte b3 3))
  | _ => None
  end.

Definition DecodeFixed64 (l : text) : option Z :=
  match l with
  | b0 :: b1 :: b2 :: b3 :: b4 :: b5 :: b6 :: b7 :: _ =>
    Some (Z.lor (Z.lor (Z.lor (Z.lor (Z.lor (Z.lor (Z.lor (at_byte b0 0) (at_byte b1 1))
      (at_byte b2 2)) (at_byte b3 3)) (at_byte b4 4)) (at_byte b5 5)) (at_byte b6 6))
      (at_byte b7 7))
  | _ => None
  end.

Definition PutFixed32 (dst : text) (v : Z) : text := dst ++ EncodeFixed32 v.
Definition PutFixed64 (dst : text) (v : Z) : text := dst ++ EncodeFixed64 v.

(** ** Variable-length integers *)

Definition EncodeVarint32 (v : Z) : text :=
  let B := 128 in
  if v <? Z.shiftl 1 7 then [byte v]
  else if v <? Z.shiftl 1 14 then [byte (Z.lor v B); byte (Z.shiftr v 7)]
  else if v <? Z.shiftl 1 21 then
    [byte (Z.lor v B); byte (Z.lor (Z.shiftr v 7) B); byte (Z.shiftr v 14)]
  else if v <? Z.shiftl 1 28 then
    [byte (Z.lor v B); byte (Z.lor (Z.shiftr v 7) B); byte (Z.lor (Z.shiftr v 14) B);
     byte (Z.shiftr v 21)]
  else
    [byte (Z.lor v B); byte (Z.lor (Z.shiftr v 7) B); byte (Z.lor (Z.shiftr v 14) B);
     byte (Z.lor (Z.shiftr v 21) B); byte (Z.shiftr v 28)].

Definition PutVarint32 (dst : text) (v : Z) : text := dst ++ EncodeVarint32 v.

(** The loop [while (v >= B)]; it leaves after at most nine rounds on 64 bits. *)
Fixpoint varint64_loop (fuel : nat) (v : Z) : text :=
  match fuel with
  | O => []
  | S k => if 128 <=? v then byte (Z.lor v 128) :: varint64_loop k (Z.shiftr v 7) else [byte v]
  end.

Definition EncodeVarint64 (v : Z) : text := varint64_loop 10 v.
Definition PutVarint64 (dst : text) (v : Z) : text := dst ++ EncodeVarint64 v.

Fixpoint varint_length_loop (fuel : nat) (v len : Z) : Z :=
  match fuel with
  | O => len
  | S k => if 128 <=? v then varint_length_loop k (Z.shiftr v 7) (len + 1) else len
  end.

Definition VarintLength (v : Z) : Z := varint_length_loop 10 v 1.

(** The loop of the decoders: [fuel] bytes at most, accumulated in an unsigned
    integer of [w] bits. *)
Fixpoint varint_loop (w : Z) (fuel : nat) (shift result : Z) (p : text) : option (Z * text) :=
  match fuel, p with
  | S k, c :: p' =>
    let b := byte_val c in
    if negb (Z.land b 128 =? 0) then
      varint_loop w k (shift + 7) (Z.lor result (Z.shiftl (Z.land b 127) shift mod 2 ^ w)) p'
    else Some (Z.lor result (Z.shiftl b shift mod 2 ^ w), p')
  | _, _ => None
  end.

Definition GetVarint32PtrFallback (p : text) : option (Z * text) := varint_loop 32 5 0 0 p.

Definition GetVarint32Ptr (p : text) : option (Z * text) :=
  match p with
  | c :: p' => if Z.land (byte_val c) 128 =? 0 then Some (byte_val c, p')
               else GetVarint32PtrFallback p
  | [] => GetVarint32PtrFallback p
  end.

Definition GetVarint32 (input : text) : option (Z * text) := GetVarint32Ptr input.

Definition GetVarint64Ptr (p : text) : option (Z * text) := varint_loop 64 10 0 0 p.
Definition GetVarint64 (input : text) : option (Z * text) := GetVarint64Ptr input.

(** ** Length-prefixed strings *)

(** The length is converted to [uint32_t]. *)
Definition PutLengthPrefixedSlice (dst value : text) : text :=
  PutVarint32 dst (u32 (Z.of_nat (length value))) ++ value.

Definition GetLengthPrefixedSlice (input : text) : option (text * text) :=
  '(len, input) ← GetVarint32 input;
  if len <=? Z.of_nat (length input)
  then Some (take (Z.to_nat len) input, drop (Z.to_nat len) input) else None.

(** ** Bytes *)

Lemma byte_val_bound c : 0 <= byte_val c < 256.
Proof. unfold byte_val. pose proof (Ascii.N_ascii_bounded c). lia. Qed.

Lemma byte_val_byte z : byte_val (byte z) = z mod 256.
Proof.
  unfold byte_val, byte, chr. pose proof (Z.mod_pos_bound z 256 ltac:(lia)).
  rewrite Ascii.N_ascii_embedding by lia. lia.
Qed.

Lemma byte_byte_val c : byte (byte_val c) = c.
Proof.
  unfold byte, chr. pose proof (byte_val_bound c) as Hb. rewrite Z.mod_small by lia.
  unfold byte_val. rewrite N2Z.id. apply Ascii.ascii_N_embedding.
Qed.

#[export] Instance byte_val_inj : Inj (=) (=) byte_val.
Proof. intros a b E. by rewrite <- (byte_byte_val a), E, byte_byte_val. Qed.

(** ** Bits and arithmetic *)

Lemma lor_add a b k : 0 <= k -> 0 <= a < 2 ^ k -> Z.lor a (Z.shiftl b k) = a + b * 2 ^ k.
Proof.
  intros Hk Ha. rewrite Z.shiftl_mul_pow2 by done. rewrite <- Z.add_lor_land.
  enough (Z.land a (b * 2 ^ k) = 0) as -> by lia.
  destruct (Z.eq_dec a 0) as [->|Ha0]; [done|].
  apply Z.bits_inj'. intros n Hn. rewrite Z.land_spec, Z.bits_0.
  destruct (Z.ltb_spec n k).
  - rewrite Z.mul_pow2_bits_low by lia. apply andb_false_r.
  - rewrite (Z.bits_above_log2 a n); [done|lia|].
    assert (Z.log2 a < k) by (apply Z.log2_lt_pow2; lia). lia.
Qed.

Lemma land_127 z : Z.land z 127 = z mod 128.
Proof. apply (Z.land_ones z 7). lia. Qed.

Lemma byte_lor v : 0 <= v -> (Z.lor v 128) mod 256 = v mod 128 + 128.
Proof.
  intros Hv. change 256 with (2 ^ 8). rewrite <- Z.land_ones by lia.
  rewrite (Z.div_mod v 128) at 1 by lia. pose proof (Z.mod_pos_bound v 128 ltac:(lia)).
  replace (128 * (v / 128) + v mod 128) with (v mod 128 + (v / 128) * 2 ^ 7) by (simpl; lia).
  rewrite <- lor_add by (simpl; lia). rewrite <- Z.lor_assoc.
  rewrite Z.land_lor_distr_l. rewrite (Z.land_ones (v mod 128)) by lia.
  rewrite Z.mod_small by (simpl; lia).
  assert (Z.land (Z.lor (Z.shiftl (v / 128) 7) 128) (Z.ones 8) = Z.shiftl 1 7) as ->.
  { apply Z.bits_inj'. intros n Hn. rewrite Z.land_spec, Z.lor_spec.
    change 128 with (2 ^ 7) at 2. rewrite Z.pow2_bits_eqb by lia.
    rewrite Z.shiftl_spec, Z.testbit_ones by lia. change (Z.shiftl 1 7) with (2 ^ 7).
    rewrite Z.pow2_bits_eqb by lia. destruct (Z.eqb_spec 7 n) as [<-|Hne]; [by rewrite orb_true_r|].
    destruct (Z.ltb_spec n 7).
    - by rewrite (Z.testbit_neg_r _ (n - 7)) by lia.
    - destruct (Z.ltb_spec n 8); [lia|]. by rewrite andb_false_r, andb_false_r. }
  rewrite lor_add; simpl; lia.
Qed.

Lemma land_128 b : 0 <= b < 256 -> (Z.land b 128 =? 0) = (b <? 128).
Proof.
  intros Hb. assert (forallb (fun b => Bool.eqb (Z.land b 128 =? 0) (b <? 128)) (loop 0 255) = true)
    as Hf by by vm_compute.
  rewrite forallb_forall in Hf. apply eqb_prop, Hf, list_elem_of_In, elem_of_loop. lia.
Qed.

Lemma shiftr_7 v : Z.shiftr v 7 = v / 128.
Proof. by rewrite Z.shiftr_div_pow2. Qed.

(** ** Variable-length integers *)

(** Accumulating the bits [b] at [shift]. *)
Lemma accumulate w result b shift : 0 <= shift -> 0 <= result < 2 ^ shift -> 0 <= b ->
  b * 2 ^ shift < 2 ^ w ->
  Z.lor result (Z.shiftl b shift mod 2 ^ w) = result + b * 2 ^ shift.
Proof.
  intros Hs Hr Hb Hw. rewrite Z.mod_small.
  - by apply lor_add.
  - rewrite Z.shiftl_mul_pow2 by done. nia.
Qed.

Lemma varint_loop_cons w k shift result c p :
  varint_loop w (S k) shift result (c :: p)
  = if negb (Z.land (byte_val c) 128 =? 0) then
      varint_loop w k (shift + 7) (Z.lor result (Z.shiftl (Z.land (byte_val c) 127) shift mod 2 ^ w)) p
    else Some (Z.lor result (Z.shiftl (byte_val c) shift mod 2 ^ w), p).
Proof. done. Qed.

Lemma varint64_loop_S k v : varint64_loop (S k) v
  = if 128 <=? v then byte (Z.lor v 128) :: varint64_loop k (Z.shiftr v 7) else [byte v].
Proof. done. Qed.

Lemma varint_loop_inv w fuel fuel' shift result v rest : 0 <= shift -> 0 <= result < 2 ^ shift ->
  0 <= v < 2 ^ (7 * Z.of_nat (S fuel)) -> result + v * 2 ^ shift < 2 ^ w -> (fuel <= fuel')%nat ->
  varint_loop w (S fuel') shift result (varint64_loop (S fuel) v ++ rest)
  = Some (result + v * 2 ^ shift, rest).
Proof.
  revert fuel' shift result v. induction fuel as [|fuel IH]; intros fuel' shift result v Hs Hr Hv Hw Hf;
    rewrite varint64_loop_S; assert (0 < 2 ^ shift) by (apply Z.pow_pos_nonneg; lia).
  - destruct (Z.leb_spec 128 v); [simpl in Hv; lia|]. cbn [app].
    rewrite varint_loop_cons, byte_val_byte, Z.mod_small by lia. rewrite land_128 by lia.
    destruct (Z.ltb_spec v 128); [|lia]. cbn [negb]. rewrite accumulate; [done|lia..|nia].
  - destruct (Z.leb_spec 128 v) as [Hge|Hlt].
    + destruct fuel' as [|fuel']; [lia|]. pose proof (Z.mod_pos_bound v 128 ltac:(lia)) as Hm.
      pose proof (Z.div_mod v 128 ltac:(lia)) as Hd.
      assert (0 <= v / 128) by (apply Z.div_pos; lia).
      rewrite <- app_comm_cons, varint_loop_cons.
      rewrite byte_val_byte, byte_lor, land_128, land_127 by lia.
      destruct (Z.ltb_spec (v mod 128 + 128) 128); [lia|]. cbn [negb].
      replace ((v mod 128 + 128) mod 128) with (v mod 128)
        by (rewrite <- Zplus_mod_idemp_r, Z.mod_same, Z.add_0_r, Z.mod_mod by lia; done).
      assert (2 ^ (shift + 7) = 2 ^ shift * 128) as E7 by (rewrite Z.pow_add_r by lia; done).
      rewrite accumulate; [|lia..|nia]. rewrite shiftr_7, IH.
      * f_equal. f_equal. rewrite E7. nia.
      * lia.
      * rewrite E7. nia.
      * split; [done|]. apply Z.div_lt_upper_bound; [lia|].
        replace (7 * Z.of_nat (S (S fuel))) with (7 + 7 * Z.of_nat (S fuel)) in Hv by lia.
        rewrite Z.pow_add_r in Hv by lia. simpl (2 ^ 7) in Hv. lia.
      * rewrite E7. nia.
      * lia.
    + cbn [app]. rewrite varint_loop_cons, byte_val_byte, Z.mod_small by lia. rewrite land_128 by lia.
      destruct (Z.ltb_spec v 128); [|lia]. cbn [negb]. rewrite accumulate; [done|lia..|nia].
Qed.

(** Enough fuel is enough. *)
Lemma varint64_loop_irrel f g v : 0 <= v < 2 ^ (7 * Z.of_nat (S f)) -> (f <= g)%nat ->
  varint64_loop (S g) v = varint64_loop (S f) v.
Proof.
  revert g v. induction f as [|f IH]; intros g v Hv Hg; rewrite !varint64_loop_S.
  - destruct (Z.leb_spec 128 v); [simpl in Hv; lia|done].
  - destruct (Z.leb_spec 128 v) as [Hge|Hlt]; [|done]. destruct g as [|g]; [lia|]. f_equal.
    apply IH; [|lia]. rewrite shiftr_7. split; [apply Z.div_pos; lia|].
    apply Z.div_lt_upper_bound; [lia|].
    replace (7 * Z.of_nat (S (S f))) with (7 + 7 * Z.of_nat (S f)) in Hv by lia.
    rewrite Z.pow_add_r in Hv by lia. simpl (2 ^ 7) in Hv. lia.
Qed.

Lemma leb_div k v : 0 < k -> (128 <=? v / k) = negb (v <? 128 * k).
Proof.
  intros Hk. destruct (Z.ltb_spec v (128 * k)) as [H|H]; simpl.
  - apply Z.leb_gt. apply Z.div_lt_upper_bound; lia.
  - apply Z.leb_le. apply Z.div_le_lower_bound; lia.
Qed.

Definition is_u32 (v : Z) : Prop := 0 <= v < 4294967296.
Definition is_u64 (v : Z) : Prop := 0 <= v < 18446744073709551616.

Lemma varint32_loop v : is_u32 v -> EncodeVarint32 v = varint64_loop 5 v.
Proof.
  unfold is_u32. intros Hv. rewrite !varint64_loop_S. unfold EncodeVarint32.
  change (Z.shiftl 1 7) with 128. change (Z.shiftl 1 14) with 16384.
  change (Z.shiftl 1 21) with 2097152. change (Z.shiftl 1 28) with 268435456.
  rewrite !Z.shiftr_shiftr by lia. simpl (7 + 7). simpl (14 + 7). simpl (21 + 7).
  rewrite !Z.shiftr_div_pow2 by lia. simpl (2 ^ _).
  rewrite (leb_div 128), (leb_div 16384), (leb_div 2097152), (leb_div 268435456) by lia.
  rewrite (Z.leb_antisym v 128). change (128 * 268435456) with 34359738368.
  change (128 * 2097152) with 268435456. change (128 * 16384) with 2097152.
  change (128 * 128) with 16384.
  assert ((v <? 34359738368) = true) as -> by lia.
  by destruct (v <? 128), (v <? 16384), (v <? 2097152), (v <? 268435456).
Qed.

(** The unrolled encoder of 32-bit integers and the loop for 64-bit integers
    produce the same bytes on every 32-bit value. *)
Theorem varint32_varint64 v : is_u32 v -> EncodeVarint32 v = EncodeVarint64 v.
Proof.
  intros Hv. rewrite varint32_loop by done. unfold is_u32, EncodeVarint64 in *.
  by rewrite (varint64_loop_irrel 4 9) by (simpl; lia).
Qed.

Lemma varint32_varint64_witness : EncodeVarint32 300 = EncodeVarint64 300
  /\ EncodeVarint64 300 = [byte 172; byte 2].
Proof. split; [apply varint32_varint64; unfold is_u32; lia | reflexivity]. Defined.

Lemma get_varint64 v rest : is_u64 v -> GetVarint64 (EncodeVarint64 v ++ rest) = Some (v, rest).
Proof.
  unfold is_u64. intros Hv. unfold GetVarint64, GetVarint64Ptr, EncodeVarint64.
  rewrite (varint_loop_inv 64 9 9); simpl (2 ^ _); [f_equal; f_equal; lia|lia..].
Qed.

(** The fast path of the 32-bit decoder agrees with the loop. *)
Lemma GetVarint32Ptr_loop p : GetVarint32Ptr p = varint_loop 32 5 0 0 p.
Proof.
  unfold GetVarint32Ptr, GetVarint32PtrFallback. destruct p as [|c p]; [done|].
  rewrite varint_loop_cons. destruct (_ =? 0) eqn:E; [|done]. cbn [negb].
  pose proof (byte_val_bound c). rewrite Z.shiftl_0_r, Z.lor_0_l, Z.mod_small by lia. done.
Qed.

Lemma get_varint32 v rest : is_u32 v -> GetVarint32 (EncodeVarint32 v ++ rest) = Some (v, rest).
Proof.
  intros Hv. unfold GetVarint32. rewrite GetVarint32Ptr_loop, varint32_loop by done.
  unfold is_u32 in Hv.
  rewrite (varint_loop_inv 32 4 4); simpl (2 ^ _); [f_equal; f_equal; lia|lia..].
Qed.

(** ** Fixed-width integers *)

Lemma at_byte_spec v i k : 0 <= v -> 0 <= i -> k = 8 * i ->
  at_byte (byte (Z.shiftr v k)) i = Z.shiftl (v / 2 ^ k mod 256) k.
Proof. intros Hv Hi ->. unfold at_byte. by rewrite byte_val_byte, Z.shiftr_div_pow2 by lia. Qed.

(** One more byte of a little-endian number. *)
Lemma fixed_step v k : 0 <= v -> 0 <= k ->
  Z.lor (v mod 2 ^ k) (Z.shiftl (v / 2 ^ k mod 256) k) = v mod 2 ^ (k + 8).
Proof.
  intros Hv Hk. assert (0 < 2 ^ k) by (apply Z.pow_pos_nonneg; lia).
  rewrite lor_add by (done || apply Z.mod_pos_bound; lia).
  rewrite Z.pow_add_r, Z.rem_mul_r by (simpl; lia). simpl (2 ^ 8). lia.
Qed.

Lemma at_byte_0 v : at_byte (byte v) 0 = v mod 2 ^ 8.
Proof. unfold at_byte. by rewrite Z.shiftl_0_r, byte_val_byte. Qed.

Lemma decode_fixed32 v rest : is_u32 v -> DecodeFixed32 (EncodeFixed32 v ++ rest) = Some v.
Proof.
  unfold is_u32. intros Hv. unfold EncodeFixed32. cbn [app DecodeFixed32]. f_equal.
  rewrite at_byte_0. rewrite !(at_byte_spec v) by (done || lia).
  rewrite !fixed_step by lia. apply Z.mod_small. simpl. lia.
Qed.

Lemma decode_fixed64 v rest : is_u64 v -> DecodeFixed64 (EncodeFixed64 v ++ rest) = Some v.
Proof.
  unfold is_u64. intros Hv. unfold EncodeFixed64. cbn [app DecodeFixed64]. f_equal.
  rewrite at_byte_0. rewrite !(at_byte_spec v) by (done || lia).
  rewrite !fixed_step by lia. apply Z.mod_small. simpl. lia.
Qed.

(** ** Length-prefixed strings *)

Lemma get_length_prefixed s rest : Z.of_nat (length s) < 4294967296 ->
  GetLengthPrefixedSlice (PutLengthPrefixedSlice [] s ++ rest) = Some (s, rest).
Proof.
  intros Hs. unfold GetLengthPrefixedSlice, PutLengthPrefixedSlice, PutVarint32, u32. cbn [app].
  rewrite Z.mod_small by lia. rewrite <- app_assoc, get_varint32 by (unfold is_u32; lia).
  cbn [mbind option_bind]. destruct (Z.leb_spec (Z.of_nat (length s)) (Z.of_nat (length (s ++ rest))));
    [|rewrite length_app in *; lia].
  by rewrite Nat2Z.id, take_app_length, drop_app_length.
Qed.

(** ** Values of several kinds *)

(** What the encoders append to a string. *)
Inductive Field := Fixed32 (v : Z) | Fixed64 (v : Z) | Varint32 (v : Z) | Varint64 (v : Z)
  | Prefixed (s : text).

Definition field_ok (f : Field) : Prop :=
  match f with
  | Fixed32 v | Varint32 v => is_u32 v
  | Fixed64 v | Varint64 v => is_u64 v
  | Prefixed s => Z.of_nat (length s) < 4294967296
  end.

Definition put_field (dst : text) (f : Field) : text :=
  match f with
  | Fixed32 v => PutFixed32 dst v
  | Fixed64 v => PutFixed64 dst v
  | Varint32 v => PutVarint32 dst v
  | Varint64 v => PutVarint64 dst v
  | Prefixed s => PutLengthPrefixedSlice dst s
  end.

(** Reading a field of the kind of [f]; a fixed-width field is skipped after it is
    decoded. *)
Definition get_field (f : Field) (input : text) : option (Field * text) :=
  match f with
  | Fixed32 _ => v ← DecodeFixed32 input; Some (Fixed32 v, drop 4 input)
  | Fixed64 _ => v ← DecodeFixed64 input; Some (Fixed64 v, drop 8 input)
  | Varint32 _ => '(v, r) ← GetVarint32 input; Some (Varint32 v, r)
  | Varint64 _ => '(v, r) ← GetVarint64 input; Some (Varint64 v, r)
  | Prefixed _ => '(s, r) ← GetLengthPrefixedSlice input; Some (Prefixed s, r)
  end.

Fixpoint get_fields (fs : list Field) (input : text) : option (list Field * text) :=
  match fs with
  | [] => Some ([], input)
  | f :: fs' =>
    '(g, r) ← get_field f input;
    '(gs, r) ← get_fields fs' r;
    Some (g :: gs, r)
  end.

Lemma put_field_app dst f : put_field dst f = dst ++ put_field [] f.
Proof. destruct f; try done. simpl. unfold PutLengthPrefixedSlice, PutVarint32. by rewrite <- app_assoc. Qed.

Lemma get_put_field f rest : field_ok f -> get_field f (put_field [] f ++ rest) = Some (f, rest).
Proof.
  destruct f; cbn [field_ok get_field put_field]; intros Hf.
  - unfold PutFixed32. cbn [app]. by rewrite decode_fixed32.
  - unfold PutFixed64. cbn [app]. by rewrite decode_fixed64.
  - unfold PutVarint32. cbn [app]. by rewrite get_varint32.
  - unfold PutVarint64. cbn [app]. by rewrite get_varint64.
  - by rewrite get_length_prefixed.
Qed.

(** C39. Every encoding round trips: a string of integers and texts appended by the
    encoders, in any number and order, is read back by the matching decoders, which
    leave exactly the bytes that follow. *)
Theorem coding_roundtrip fs rest : Forall field_ok fs ->
  get_fields fs (foldl put_field [] fs ++ rest) = Some (fs, rest).
Proof.
  intros Hfs.
  assert (forall dst, foldl put_field dst fs = dst ++ concat (put_field [] <$> fs)) as E.
  { clear Hfs. induction fs as [|f fs IH]; intros dst; [by rewrite app_nil_r|]. cbn [foldl].
    rewrite IH, put_field_app, fmap_cons, <- app_assoc. done. }
  rewrite E. cbn [app]. clear E.
  induction Hfs as [|f fs Hf Hfs IH]; [done|]. rewrite fmap_cons. cbn [concat get_fields].
  rewrite <- app_assoc, get_put_field by done. cbn [mbind option_bind]. by rewrite IH.
Qed.

Lemma coding_roundtrip_witness :
  get_fields [Varint32 300; Prefixed (L "key"); Fixed64 77]
    (foldl put_field [] [Varint32 300; Prefixed (L "key"); Fixed64 77] ++ L "tail")
  = Some ([Varint32 300; Prefixed (L "key"); Fixed64 77], L "tail").
Proof. apply coding_roundtrip. repeat constructor; unfold is_u32, is_u64; simpl; lia. Defined.

(** ** Sizes *)

Lemma varint_length_loop_spec f v len : varint_length_loop f v len
  = len + Z.of_nat (length (varint64_loop (S f) v)) - 1 \/ 2 ^ (7 * Z.of_nat (S f)) <= v.
Proof.
  revert v len. induction f as [|f IH]; intros v len.
  - simpl. destruct (Z.leb_spec 128 v); [right; simpl; lia | left; simpl; lia].
  - rewrite varint64_loop_S. cbn [varint_length_loop]. destruct (Z.leb_spec 128 v) as [Hv|Hv];
      [|left; simpl; lia].
    destruct (IH (Z.shiftr v 7) (len + 1)) as [->|Hb]; [left; simpl length; lia|right].
    rewrite shiftr_7 in Hb. pose proof (Z.div_mod v 128 ltac:(lia)).
    pose proof (Z.mod_pos_bound v 128 ltac:(lia)).
    replace (7 * Z.of_nat (S (S f))) with (7 + 7 * Z.of_nat (S f)) by lia.
    rewrite Z.pow_add_r by lia. simpl (2 ^ 7). lia.
Qed.

Lemma varint64_loop_length f v : (1 <= length (varint64_loop (S f) v) <= S f)%nat.
Proof.
  revert v. induction f as [|f IH]; intros v; rewrite varint64_loop_S.
  - destruct (128 <=? v); simpl; lia.
  - destruct (128 <=? v); [|simpl; lia]. specialize (IH (Z.shiftr v 7)). simpl length in *. lia.
Qed.

(** [VarintLength] is the number of bytes the encoder writes, between 1 and 10,
    and at most 5 for a 32-bit value: the buffers of [PutVarint32] and
    [PutVarint64] are large enough. *)
Theorem varint_length_exact v : is_u64 v ->
  VarintLength v = Z.of_nat (length (EncodeVarint64 v)) /\ 1 <= VarintLength v <= 10
  /\ (is_u32 v -> Z.of_nat (length (EncodeVarint32 v)) <= 5).
Proof.
  unfold is_u64. intros Hv. unfold VarintLength, EncodeVarint64.
  destruct (varint_length_loop_spec 10 v 1) as [E|E]; [|simpl in E; lia].
  rewrite (varint64_loop_irrel 9 10) in E by (simpl; lia).
  pose proof (varint64_loop_length 9 v). rewrite E. split_and!; [lia..|].
  intros H32. rewrite varint32_loop by done. pose proof (varint64_loop_length 4 v). lia.
Qed.

Lemma varint_length_exact_witness :
  VarintLength 16384 = Z.of_nat (length (EncodeVarint64 16384)) /\ VarintLength 16384 = 3.
Proof. split; [apply varint_length_exact; unfold is_u64; lia | reflexivity]. Defined.
