(* ===== verification/Status.v ===== *)
(** * Status: results of LevelDB operations

    [src/leveldb/include/leveldb/status.h] and [src/leveldb/util/status.cc].  A status is
    a null pointer or a buffer with the length of its message (a [uint32_t] in memory
    order), the code and the message. *)

From S2P Require Import Prelude Text Coding.

Inductive Code := kOk | kNotFound | kCorruption | kNotSupported | kInvalidArgument | kIOError.

Definition code_number (c : Code) : Z :=
  match c with
  | kOk => 0 | kNotFound => 1 | kCorruption => 2 | kNotSupported => 3
  | kInvalidArgument => 4 | kIOError => 5
  end.

Definition code_of (n : Z) : option Code :=
  head (filter (fun c => code_number c = n)
    [kOk; kNotFound; kCorruption; kNotSupported; kInvalidArgument; kIOError]).

Record Status := mkStatus { state_ : option text }.

Definition status_OK : Status := mkStatus None.

(** [Status::CopyState]: the buffer is copied by the length it starts with. *)
Definition CopyState (state : text) : text :=
  take (Z.to_nat (u32 (default 0 (DecodeFixed32 state) + 5))) state.

(** [Status(code, msg, msg2)] for messages whose lengths add up to less than [2^32]. *)
Definition new_Status (c : Code) (msg msg2 : text) : Status :=
  let len1 := Z.of_nat (length msg) in
  let len2 := Z.of_nat (length msg2) in
  let size := u32 (len1 + if len2 =? 0 then 0 else 2 + len2) in
  mkStatus (Some (EncodeFixed32 size ++ byte (code_number c) :: msg
                  ++ if len2 =? 0 then [] else L ": " ++ msg2)).

Definition status_copy (s : Status) : Status := mkStatus (CopyState <$> state_ s).

Definition NotFoundStatus (msg msg2 : text) : Status := new_Status kNotFound msg msg2.
Definition Corruption (msg msg2 : text) : Status := new_Status kCorruption msg msg2.
Definition NotSupported (msg msg2 : text) : Status := new_Status kNotSupported msg msg2.
Definition InvalidArgument (msg msg2 : text) : Status := new_Status kInvalidArgument msg msg2.
Definition IOError (msg msg2 : text) : Status := new_Status kIOError msg msg2.

Definition status_ok (s : Status) : bool := bool_decide (state_ s = None).

(** [Status::code]: the number of the code. *)
Definition code_value (s : Status) : Z :=
  match state_ s with
  | None => code_number kOk
  | Some st => match st !! 4%nat with Some c => byte_val c | None => 0 end
  end.

Definition IsNotFound (s : Status) : bool := code_value s =? code_number kNotFound.
Definition IsCorruption (s : Status) : bool := code_value s =? code_number kCorruption.
Definition IsIOError (s : Status) : bool := code_value s =? code_number kIOError.
Definition IsNotSupportedError (s : Status) : bool := code_value s =? code_number kNotSupported.
Definition IsInvalidArgument (s : Status) : bool := code_value s =? code_number kInvalidArgument.

(** [Status::ToString] *)
Definition type_text (n : Z) : text :=
  match code_of n with
  | Some kOk => L "OK"
  | Some kNotFound => L "NotFound: "
  | Some kCorruption => L "Corruption: "
  | Some kNotSupported => L "Not implemented: "
  | Some kInvalidArgument => L "Invalid argument: "
  | Some kIOError => L "IO error: "
  | None => L "Unknown code(" ++ to_text n ++ L "): "
  end.

Definition status_text_of (s : Status) : text :=
  match state_ s with
  | None => L "OK"
  | Some st =>
    type_text (code_value s)
    ++ take (Z.to_nat (default 0 (DecodeFixed32 st))) (drop 5 st)
  end.

(** ** A status says what it was made from *)

Definition messages_ok (msg msg2 : text) : Prop :=
  Z.of_nat (length msg) + Z.of_nat (length msg2) + 7 < 4294967296.

(** The message of a status: both parts, with a colon when there are two. *)
Definition joined (msg msg2 : text) : text :=
  msg ++ if bool_decide (msg2 = []) then [] else L ": " ++ msg2.

Lemma new_Status_state c msg msg2 : messages_ok msg msg2 ->
  state_ (new_Status c msg msg2)
  = Some (EncodeFixed32 (Z.of_nat (length (joined msg msg2)))
          ++ byte (code_number c) :: joined msg msg2).
Proof.
  unfold messages_ok, new_Status, joined, u32. intros Hm. cbn [state_].
  rewrite Z.mod_small by (case_match; lia). rewrite length_app.
  destruct msg2 as [|x msg2].
  - rewrite bool_decide_eq_true_2 by done. cbn [length Z.of_nat Z.eqb].
    by rewrite Z.add_0_r, Nat.add_0_r.
  - rewrite bool_decide_eq_false_2 by done.
    destruct (Z.eqb_spec (Z.of_nat (length (x :: msg2))) 0) as [E|_]; [cbn in E; lia|].
    rewrite length_app. change (length (L ": ")) with 2%nat.
    do 3 f_equal. lia.
Qed.

Lemma status_parts c msg msg2 : messages_ok msg msg2 ->
  let s := new_Status c msg msg2 in
  code_value s = code_number c /\ status_ok s = false
  /\ status_text_of s = type_text (code_number c) ++ joined msg msg2 /\ status_copy s = s.
Proof.
  intros Hm s. pose proof (new_Status_state c msg msg2 Hm) as E. fold s in E.
  assert (Z.of_nat (length (joined msg msg2)) + 5 < 4294967296) as Hl.
  { unfold messages_ok, joined in *. case_bool_decide; rewrite length_app; cbn; [lia|].
    change (length (L ": " ++ msg2)) with (2 + length msg2)%nat. lia. }
  set (m := joined msg msg2) in *. clearbody m. clearbody s.
  assert (is_u32 (Z.of_nat (length m))) as Hu by (unfold is_u32; lia).
  assert (code_value s = code_number c) as Ec.
  { unfold code_value. rewrite E. simpl. rewrite byte_val_byte. by destruct c. }
  split; [done|]. split; [unfold status_ok; by rewrite E|]. split.
  - unfold status_text_of. rewrite E, Ec, decode_fixed32 by done. simpl. f_equal.
    rewrite Nat2Z.id. by rewrite firstn_all.
  - unfold status_copy, CopyState. destruct s as [st]. cbn [state_] in *. subst st. cbn [fmap option_fmap option_map].
    rewrite decode_fixed32 by done. cbn [from_option id]. do 2 f_equal. unfold u32.
    rewrite Z.mod_small by lia. apply take_ge. rewrite length_app. cbn [length]. simpl. lia.
Qed.
