(* ===== verification/LogFile.v ===== *)
(** * LogFile: the log of LevelDB

    [src/leveldb/db/log_format.h], [log_writer.cc] and [log_reader.cc].  A log is a
    sequence of blocks; a record is cut into fragments that do not cross blocks, each with
    a checksum, a length and a type.  The file is a text that grows, by what the
    answers of its operations say ([Answer]): an append may fail and leave any part of the
    data.  A read may fail as well ([reads]).  A crash leaves a prefix of what was written.
    The reader may be told to start in the middle of a file
    ([initial_offset]) and reports what it drops.

    The main result: whatever prefix of a log survives, the reader returns exactly the
    records that are complete in it, and reports no corruption. *)

From S2P Require Import Prelude Text Coding Status Crc.

Inductive RecordType := kZeroType | kFullType | kFirstType | kMiddleType | kLastType.

Definition record_number (t : RecordType) : Z :=
  match t with
  | kZeroType => 0 | kFullType => 1 | kFirstType => 2 | kMiddleType => 3 | kLastType => 4
  end.

Definition kMaxRecordType : Z := record_number kLastType.
Definition kBlockSize : Z := 32768.
Definition kHeaderSize : Z := 4 + 2 + 1.

(** What the file system answers to an operation on a file that is written: it does it, or
    it fails, and of the data to append so many bytes were written.  When the list of
    answers is used up, operations succeed. *)
Inductive Answer := Done | Fails (s : Status) (written : Z).

Section log.

(** The checksum instruction of the machine and the address of the data modulo 4, of
    which the checksum does not depend ([Crc.Extend_spec]). *)
Variable accelerated : Z -> text -> Z.
Variable align : nat.

(** ** Writing *)

Record Writer := mkWriter { dest_ : text; block_offset_ : Z }.

Definition new_Writer (dest : text) : Writer := mkWriter dest 0.
(** The writer that continues a file of a given length. *)
Definition append_Writer (dest : text) (dest_length : Z) : Writer :=
  mkWriter dest (dest_length mod kBlockSize).

(** [InitTypeCrc] *)
Definition type_crc (t : RecordType) : Z := Extend accelerated align 0 [byte (record_number t)].

(** [dest_->Append] and [dest_->Flush] *)
Definition file_append (a : list Answer) (data dest : text) : text * list Answer * Status :=
  match a with
  | Fails s n :: a => (dest ++ if status_ok s then data else takez n data, a, s)
  | _ => (dest ++ data, tail a, status_OK)
  end.
Definition file_flush (a : list Answer) : list Answer * Status :=
  match a with Fails s _ :: a => (a, s) | _ => (tail a, status_OK) end.

Definition EmitPhysicalRecord (a : list Answer) (t : RecordType) (data : text) (w : Writer)
    : Writer * list Answer * Status :=
  let length := lenz data in
  let crc := Mask (Extend accelerated align (type_crc t) data) in
  let buf := EncodeFixed32 crc ++ [byte (Z.land length 0xff); byte (Z.shiftr length 8);
                                   byte (record_number t)] in
  let '(dest, a, s) := file_append a buf (dest_ w) in
  let '(dest, a, s) :=
    if status_ok s then
      let '(dest, a, s) := file_append a data dest in
      if status_ok s then let '(a, s) := file_flush a in (dest, a, s) else (dest, a, s)
    else (dest, a, s) in
  (mkWriter dest (block_offset_ w + kHeaderSize + length), a, s).

(** The trailer of a block that has no room for a header; its status is not looked at. *)
Definition switch_block (a : list Answer) (w : Writer) : Writer * list Answer :=
  let leftover := kBlockSize - block_offset_ w in
  if leftover <? kHeaderSize then
    if 0 <? leftover then
      let '(dest, a, _) := file_append a (takez leftover (replicate 6 (byte 0))) (dest_ w) in
      (mkWriter dest 0, a)
    else (mkWriter (dest_ w) 0, a)
  else (w, a).

Definition fragment_type (begin_ end_ : bool) : RecordType :=
  if begin_ && end_ then kFullType
  else if begin_ then kFirstType
  else if end_ then kLastType
  else kMiddleType.

(** The loop of [AddRecord]; [None] when the fuel runs out. *)
Fixpoint add_loop (fuel : nat) (a : list Answer) (begin_ : bool) (left : text) (w : Writer)
    : option (Writer * Status) :=
  match fuel with
  | O => None
  | S fuel =>
    let '(w, a) := switch_block a w in
    let avail := kBlockSize - block_offset_ w - kHeaderSize in
    let fragment_length := if lenz left <? avail then lenz left else avail in
    let end_ := lenz left =? fragment_length in
    let '(w, a, s) := EmitPhysicalRecord a (fragment_type begin_ end_) (takez fragment_length left) w in
    let left := dropz fragment_length left in
    if status_ok s && (0 <? lenz left) then add_loop fuel a false left w else Some (w, s)
  end.

(** Every fragment but the first of a record takes at least one byte of it. *)
Definition AddRecord (a : list Answer) (slice : text) (w : Writer) : option (Writer * Status) :=
  add_loop (2 + length slice) a true slice w.

(** ** Reading *)

Definition kEof : Z := kMaxRecordType + 1.
Definition kBadRecord : Z := kMaxRecordType + 2.

Record Reader := mkReader {
  file_ : text;
  checksum_ : bool;
  buffer_ : text;
  eof_ : bool;
  last_record_offset_ : Z;
  end_of_buffer_offset_ : Z;
  initial_offset_ : Z;
  resyncing_ : bool;
  reads : list Status;           (* what reading the file returns; then [OK] *)
  dropped : list (Z * Status)
}.

#[export] Instance eta_Reader : Eta Reader := fun r =>
  mkReader (file_ r) (checksum_ r) (buffer_ r) (eof_ r) (last_record_offset_ r)
    (end_of_buffer_offset_ r) (initial_offset_ r) (resyncing_ r) (reads r) (dropped r).

Definition new_Reader (file : text) (checksum : bool) (initial_offset : Z) (reads : list Status) : Reader :=
  mkReader file checksum [] false 0 0 initial_offset (0 <? initial_offset) reads [].

Definition ReportDrop (bytes : Z) (reason : Status) (r : Reader) : Reader :=
  if initial_offset_ r <=? u64 (end_of_buffer_offset_ r - lenz (buffer_ r) - bytes)
  then r <| dropped ::= fun l => l ++ [(bytes, reason)] |> else r.

Definition ReportCorruption (bytes : Z) (reason : text) (r : Reader) : Reader :=
  ReportDrop bytes (Corruption reason []) r.

Definition SkipToInitialBlock (r : Reader) : Reader * bool :=
  let offset_in_block := initial_offset_ r mod kBlockSize in
  let block_start_location := initial_offset_ r - offset_in_block in
  let block_start_location :=
    if kBlockSize - 6 <? offset_in_block then block_start_location + kBlockSize
    else block_start_location in
  let r := r <| end_of_buffer_offset_ := block_start_location |> in
  if 0 <? block_start_location then
    let skip_status := default status_OK (head (reads r)) in
    let r := r <| reads ::= tail |> in
    if status_ok skip_status then (r <| file_ ::= dropz block_start_location |>, true)
    else (ReportDrop block_start_location skip_status r, false)
  else (r, true).

(** Reading the next block; false when that fails. *)
Definition read_block (r : Reader) : Reader * bool :=
  let status := default status_OK (head (reads r)) in
  let r := r <| reads ::= tail |> in
  if status_ok status then
    let r := r <| buffer_ := takez kBlockSize (file_ r) |> <| file_ ::= dropz kBlockSize |> in
    let r := r <| end_of_buffer_offset_ := end_of_buffer_offset_ r + lenz (buffer_ r) |> in
    (if lenz (buffer_ r) <? kBlockSize then r <| eof_ := true |> else r, true)
  else (ReportDrop kBlockSize status (r <| buffer_ := [] |>) <| eof_ := true |>, false).

(** [const unsigned int type = header[6]]: a [char] is signed. *)
Definition header_type (c : ascii) : Z :=
  if byte_val c <? 128 then byte_val c else u32 (byte_val c - 256).

(** The part of [ReadPhysicalRecord] after the loop has found a header. *)
Definition parse_physical (r : Reader) : Reader * Z * text :=
  match buffer_ r with
  | h0 :: h1 :: h2 :: h3 :: h4 :: h5 :: h6 :: payload =>
    let length := Z.lor (byte_val h4) (Z.shiftl (byte_val h5) 8) in
    let type := header_type h6 in
    if lenz (buffer_ r) <? kHeaderSize + length then
      let drop_size := lenz (buffer_ r) in
      let r := r <| buffer_ := [] |> in
      if eof_ r then (r, kEof, [])
      else (ReportCorruption drop_size (L "bad record length") r, kBadRecord, [])
    else if (type =? record_number kZeroType) && (length =? 0) then
      (r <| buffer_ := [] |>, kBadRecord, [])
    else
      let expected_crc := Unmask (default 0 (DecodeFixed32 (buffer_ r))) in
      let actual_crc := Extend accelerated align 0 (takez (1 + length) (h6 :: payload)) in
      if checksum_ r && negb (actual_crc =? expected_crc) then
        let drop_size := lenz (buffer_ r) in
        (ReportCorruption drop_size (L "checksum mismatch") (r <| buffer_ := [] |>), kBadRecord, [])
      else
        let r := r <| buffer_ := dropz length payload |> in
        if u64 (end_of_buffer_offset_ r - lenz (buffer_ r) - kHeaderSize - length) <? initial_offset_ r
        then (r, kBadRecord, [])
        else (r, type, takez length payload)
  | _ => (r, kEof, [])
  end.

Fixpoint physical_loop (fuel : nat) (r : Reader) : option (Reader * Z * text) :=
  match fuel with
  | O => None
  | S fuel =>
    if lenz (buffer_ r) <? kHeaderSize then
      if negb (eof_ r) then
        let '(r, ok) := read_block r in
        if ok : bool then physical_loop fuel r else Some (r, kEof, [])
      else Some (r <| buffer_ := [] |>, kEof, [])
    else Some (parse_physical r)
  end.

(** A block of the file is full or the last one, so three rounds are enough. *)
Definition ReadPhysicalRecord (r : Reader) : option (Reader * Z * text) := physical_loop 3 r.

(** The loop of [ReadRecord]: [scratch] and [in_fragmented_record], and the offset the
    record started at.  The result is the record, or [None] at the end. *)
Fixpoint record_loop (fuel : nat) (in_fragmented_record : bool) (scratch : text) (prospective : Z)
    (r : Reader) : option (Reader * option text) :=
  match fuel with
  | O => None
  | S fuel =>
    '(r, record_type, fragment) ← ReadPhysicalRecord r;
    let physical_record_offset :=
      u64 (end_of_buffer_offset_ r - lenz (buffer_ r) - kHeaderSize - lenz fragment) in
    if resyncing_ r && (record_type =? record_number kMiddleType) then
      record_loop fuel in_fragmented_record scratch prospective r
    else if resyncing_ r && (record_type =? record_number kLastType) then
      record_loop fuel in_fragmented_record scratch prospective (r <| resyncing_ := false |>)
    else
      let r := r <| resyncing_ := false |> in
      if record_type =? record_number kFullType then
        let r := if in_fragmented_record && negb (bool_decide (scratch = []))
                 then ReportCorruption (lenz scratch) (L "partial record without end(1)") r else r in
        Some (r <| last_record_offset_ := physical_record_offset |>, Some fragment)
      else if record_type =? record_number kFirstType then
        let r := if in_fragmented_record && negb (bool_decide (scratch = []))
                 then ReportCorruption (lenz scratch) (L "partial record without end(2)") r else r in
        record_loop fuel true fragment physical_record_offset r
      else if record_type =? record_number kMiddleType then
        if in_fragmented_record then record_loop fuel true (scratch ++ fragment) prospective r
        else record_loop fuel false scratch prospective
               (ReportCorruption (lenz fragment) (L "missing start of fragmented record(1)") r)
      else if record_type =? record_number kLastType then
        if in_fragmented_record then
          Some (r <| last_record_offset_ := prospective |>, Some (scratch ++ fragment))
        else record_loop fuel false scratch prospective
               (ReportCorruption (lenz fragment) (L "missing start of fragmented record(2)") r)
      else if record_type =? kEof then Some (r, None)
      else if record_type =? kBadRecord then
        record_loop fuel false (if in_fragmented_record then [] else scratch) prospective
          (if in_fragmented_record
           then ReportCorruption (lenz scratch) (L "error in middle of record") r else r)
      else
        record_loop fuel false [] prospective
          (ReportCorruption (lenz fragment + if in_fragmented_record then lenz scratch else 0)
             (L "unknown record type " ++ to_text record_type) r)
  end.

(** The number of bytes not yet consumed. *)
Definition unread (r : Reader) : nat := length (buffer_ r) + length (file_ r).

(** Every round but the last consumes bytes. *)
Definition ReadRecord (r : Reader) : option (Reader * option text) :=
  let '(r, ok) := if last_record_offset_ r <? initial_offset_ r then SkipToInitialBlock r else (r, true) in
  if ok : bool then record_loop (2 + unread r) false [] 0 r else Some (r, None).

(** All records of a log. *)
Fixpoint read_records (fuel : nat) (r : Reader) : option (Reader * list text) :=
  match fuel with
  | O => None
  | S fuel =>
    '(r, x) ← ReadRecord r;
    match x with
    | None => Some (r, [])
    | Some rec => '(r, recs) ← read_records fuel r; Some (r, rec :: recs)
    end
  end.

Definition read_log (file : text) (checksum : bool) : option (Reader * list text) :=
  read_records (2 + length file) (new_Reader file checksum 0 []).

Fixpoint write_records (recs : list text) (w : Writer) : option Writer :=
  match recs with
  | [] => Some w
  | rec :: recs => '(w, _) ← AddRecord [] rec w; write_records recs w
  end.

(** ** What is written *)

Hypothesis Haccelerated : accelerator_ok accelerated.

Definition header (t : RecordType) (data : text) : text :=
  EncodeFixed32 (Mask (Extend accelerated align (type_crc t) data))
  ++ [byte (Z.land (lenz data) 0xff); byte (Z.shiftr (lenz data) 8); byte (record_number t)].

Lemma header_length t data : lenz (header t data) = kHeaderSize.
Proof. done. Qed.

(** The block offset at which the next header goes, and the zeros before it. *)
Definition next_offset (o : Z) : Z := if kBlockSize - o <? kHeaderSize then 0 else o.
Definition trailer (o : Z) : text :=
  if kBlockSize - o <? kHeaderSize then takez (kBlockSize - o) (replicate 6 (byte 0)) else [].

Lemma trailer_length o : 0 <= o <= kBlockSize -> lenz (trailer o) = (if kBlockSize - o <? kHeaderSize then kBlockSize - o else 0).
Proof.
  intros Ho. unfold trailer. destruct (Z.ltb_spec (kBlockSize - o) kHeaderSize) as [H|H]; [|done].
  rewrite lenz_takez by lia. unfold lenz. rewrite length_replicate. unfold kHeaderSize in H. lia.
Qed.

Lemma switch_block_spec w : 0 <= block_offset_ w <= kBlockSize ->
  switch_block [] w = (mkWriter (dest_ w ++ trailer (block_offset_ w)) (next_offset (block_offset_ w)), []).
Proof.
  intros Ho. unfold switch_block, trailer, next_offset. destruct w as [d o]. cbn [dest_ block_offset_] in *.
  destruct (Z.ltb_spec (kBlockSize - o) kHeaderSize) as [H|H]; [|by rewrite app_nil_r].
  destruct (Z.ltb_spec 0 (kBlockSize - o)) as [H'|H']; [done|].
  replace (kBlockSize - o) with 0 by lia. by rewrite takez_0, app_nil_r.
Qed.

(** One fragment, with what precedes it. *)
Definition chunk (o : Z) (t : RecordType) (data : text) : text := trailer o ++ header t data ++ data.

(** ** What is read back *)

(** The reader is at offset [o] of a block, and [u] is what is left of the file. *)
Record reading (r : Reader) (o : Z) (u : text) : Prop := {
  rd_offset : 0 <= o <= kBlockSize;
  rd_buffer : buffer_ r = takez (kBlockSize - o) u;
  rd_file : file_ r = dropz (kBlockSize - o) u;
  rd_eof : eof_ r = (o + lenz u <? kBlockSize);
  rd_initial : initial_offset_ r = 0;
  rd_resync : resyncing_ r = false;
  rd_last : 0 <= last_record_offset_ r;
  rd_dropped : dropped r = [];
  rd_reads : reads r = []
}.

Lemma new_Reader_reading file checksum : reading (new_Reader file checksum 0 []) kBlockSize file.
Proof.
  split; cbn [new_Reader buffer_ file_ eof_ initial_offset_ resyncing_ last_record_offset_ dropped]; try done.
  symmetry. apply Z.ltb_ge. pose proof (lenz_nonneg file). lia.
Qed.

Lemma reading_skip r o u : reading r o u -> kBlockSize - o < kHeaderSize -> kBlockSize - o <= lenz u ->
  lenz (buffer_ r) < kHeaderSize /\ eof_ r = false
  /\ exists r', read_block r = (r', true) /\ reading r' 0 (dropz (kBlockSize - o) u).
Proof.
  intros [Ho Hb Hf He Hi Hr Hla Hd Hre] Hs Hu. split; [rewrite Hb, lenz_takez by lia; lia|].
  split; [rewrite He; apply Z.ltb_ge; lia|].
  set (v := dropz (kBlockSize - o) u) in *.
  unfold read_block. rewrite Hre. change (status_ok _) with true. cbn iota.
  eexists. split; [reflexivity|]. set (r1 := if _ <? _ then _ else _).
  assert (buffer_ r1 = takez kBlockSize v /\ file_ r1 = dropz kBlockSize v
    /\ initial_offset_ r1 = 0 /\ resyncing_ r1 = false
    /\ dropped r1 = [] /\ last_record_offset_ r1 = last_record_offset_ r /\ reads r1 = []
    /\ eof_ r1 = (lenz (takez kBlockSize v) <? kBlockSize)) as (E1 & E2 & E3 & E4 & E5 & E7 & E8 & E6).
  { unfold r1. simpl. rewrite Hf, ?Hre. fold v.
    destruct (lenz (takez kBlockSize v) <? kBlockSize); simpl; rewrite ?Hf, ?Hre; fold v; try done.
    split_and!; try done. rewrite He. apply Z.ltb_ge. lia. }
  clearbody r1. split; rewrite ?Z.sub_0_r, ?E7; try done. rewrite E6, lenz_takez by (unfold kBlockSize; lia).
  apply eq_true_iff_eq. rewrite !Z.ltb_lt. lia.
Qed.

Lemma fragment_crc t data :
  Extend accelerated align 0 (byte (record_number t) :: data) = Extend accelerated align (type_crc t) data
  /\ is_u32 (Extend accelerated align (type_crc t) data).
Proof.
  unfold type_crc. rewrite !Extend_spec by (done || (rewrite ?Extend_spec by done; apply crc32c_u32)).
  rewrite crc32c_app. split; [done|apply crc32c_u32].
Qed.

Lemma header_size_bytes n : 0 <= n < 65536 ->
  Z.lor (byte_val (byte (Z.land n 255))) (Z.shiftl (byte_val (byte (Z.shiftr n 8))) 8) = n.
Proof.
  intros Hn. rewrite !byte_val_byte. change 255 with (Z.ones 8). rewrite Z.land_ones, Z.shiftr_div_pow2 by lia.
  change (2 ^ 8) with 256. rewrite lor_add by (change (2 ^ 8) with 256; lia). change (2 ^ 8) with 256. lia.
Qed.

Lemma header_type_number t : header_type (byte (record_number t)) = record_number t.
Proof. by destruct t. Qed.

(** The header of a fragment, byte by byte. *)
Lemma header_bytes t data : lenz data < 65536 -> exists h0 h1 h2 h3 h4 h5,
  header t data = [h0; h1; h2; h3; h4; h5; byte (record_number t)]
  /\ Z.lor (byte_val h4) (Z.shiftl (byte_val h5) 8) = lenz data
  /\ forall p, Unmask (default 0 (DecodeFixed32 (h0 :: h1 :: h2 :: h3 :: p)))
               = Extend accelerated align (type_crc t) data.
Proof.
  intros Hl. pose proof (lenz_nonneg data). destruct (fragment_crc t data) as [_ Hc].
  destruct (unmask_mask _ Hc) as [E Hu].
  unfold header. set (m := Mask _) in *. clearbody m.
  do 6 eexists. split; [reflexivity|]. split; [apply header_size_bytes; lia|].
  intros p. rewrite <- E. f_equal. pose proof (decode_fixed32 m p Hu) as Ed.
  unfold EncodeFixed32 in Ed. cbn [app] in Ed. by rewrite Ed.
Qed.

Lemma u64_nonneg z : 0 <= u64 z.
Proof. unfold u64. apply Z.mod_pos_bound. lia. Qed.

Lemma parse_full r o t data u : reading r o (header t data ++ data ++ u) ->
  o + kHeaderSize + lenz data <= kBlockSize -> t <> kZeroType ->
  kHeaderSize <= lenz (buffer_ r)
  /\ exists r', parse_physical r = (r', record_number t, data)
  /\ reading r' (o + kHeaderSize + lenz data) u.
Proof.
  intros [Ho Hb Hf He Hi Hr Hla Hd] Hl Ht. pose proof (lenz_nonneg data) as Hdn. pose proof (lenz_nonneg u) as Hun.
  unfold kHeaderSize, kBlockSize in *. change (4 + 2 + 1) with 7 in *.
  pose proof (header_length t data) as Hh. change kHeaderSize with 7 in Hh.
  assert (buffer_ r = header t data ++ data ++ takez (32768 - (o + 7 + lenz data)) u) as Eb.
  { rewrite Hb. rewrite takez_app_ge by lia. rewrite takez_app_ge by lia. rewrite Hh. do 3 f_equal. lia. }
  assert (file_ r = dropz (32768 - (o + 7 + lenz data)) u) as Ef.
  { rewrite Hf. rewrite dropz_app_ge by lia. rewrite dropz_app_ge by lia. rewrite Hh. f_equal. lia. }
  split; [rewrite Eb, lenz_app, Hh, lenz_app; pose proof (lenz_nonneg (takez (32768 - (o + 7 + lenz data)) u)); lia|].
  set (v := takez (32768 - (o + 7 + lenz data)) u) in *. pose proof (lenz_nonneg v) as Hv.
  destruct (header_bytes t data ltac:(lia)) as (h0 & h1 & h2 & h3 & h4 & h5 & Eh & El & Ec).
  unfold parse_physical. rewrite Eb, Eh. cbn [app]. rewrite El, header_type_number, Ec.
  assert (lenz (h0 :: h1 :: h2 :: h3 :: h4 :: h5 :: byte (record_number t) :: data ++ v)
          = 7 + lenz data + lenz v) as ->.
  { unfold lenz. cbn [length]. rewrite length_app. lia. }
  change kHeaderSize with 7. destruct (Z.ltb_spec (7 + lenz data + lenz v) (7 + lenz data)); [lia|].
  assert ((record_number t =? record_number kZeroType) = false) as -> by (by destruct t).
  cbn [andb].
  assert (takez (1 + lenz data) (byte (record_number t) :: data ++ v) = byte (record_number t) :: data) as ->.
  { change (byte (record_number t) :: data ++ v) with ((byte (record_number t) :: data) ++ v).
    rewrite takez_app_le by (unfold lenz; cbn [length]; lia). apply takez_all. unfold lenz. cbn [length]. lia. }
  destruct (fragment_crc t data) as [-> _]. rewrite Z.eqb_refl, andb_false_r.
  rewrite dropz_app_ge, takez_app_le, Z.sub_diag, dropz_0, takez_all by lia.
  match goal with |- context [u64 ?x <? ?y] => destruct (Z.ltb_spec (u64 x) y) as [Hlt|_] end.
  { pose proof (u64_nonneg (end_of_buffer_offset_ (r <| buffer_ := v |>) - lenz (buffer_ (r <| buffer_ := v |>)) - 7 - lenz data)) as Hnn.
    simpl in Hlt, Hnn. rewrite Hi in Hlt. exfalso. apply (Z.lt_irrefl 0). eapply Z.le_lt_trans; [exact Hnn|exact Hlt]. }
  eexists. split; [reflexivity|]. split; simpl; try done; try (unfold kBlockSize; lia).
  rewrite He, !lenz_app, Hh. unfold kBlockSize. apply eq_true_iff_eq. rewrite !Z.ltb_lt. lia.
Qed.

Lemma physical_S fuel r : physical_loop (S fuel) r
  = if lenz (buffer_ r) <? kHeaderSize then
      if negb (eof_ r) then
        let '(r, ok) := read_block r in
        if ok : bool then physical_loop fuel r else Some (r, kEof, [])
      else Some (r <| buffer_ := [] |>, kEof, [])
    else Some (parse_physical r).
Proof. reflexivity. Qed.

(** A fragment that was cut off ends the log silently. *)
Lemma parse_cut fuel r o t data m : reading r o (takez m (header t data ++ data)) ->
  0 <= m < kHeaderSize + lenz data -> o + kHeaderSize + lenz data <= kBlockSize ->
  exists r', physical_loop (S fuel) r = Some (r', kEof, []) /\ dropped r' = [].
Proof.
  intros [Ho Hb Hf He Hi Hr Hla Hd] Hm Hl. pose proof (lenz_nonneg data) as Hdn.
  pose proof (header_length t data) as Hh.
  assert (lenz (takez m (header t data ++ data)) = m) as Elen.
  { rewrite lenz_takez, lenz_app, Hh by lia. lia. }
  assert (eof_ r = true) as Eeof.
  { rewrite He, Elen. apply Z.ltb_lt. lia. }
  assert (buffer_ r = takez m (header t data ++ data)) as Eb.
  { rewrite Hb. apply takez_all. lia. }
  rewrite physical_S. rewrite Eb, Elen, Eeof. cbn [negb].
  destruct (Z.ltb_spec m kHeaderSize) as [Hs|Hs].
  { eexists. split; [reflexivity|done]. }
  rewrite takez_app_ge in Eb by lia. rewrite Hh in Eb.
  destruct (header_bytes t data) as (h0 & h1 & h2 & h3 & h4 & h5 & Eh & El & _);
    [unfold kBlockSize, kHeaderSize in Hl; lia|].
  assert (lenz (buffer_ r) = m) as Em.
  { rewrite Eb, lenz_app, Hh, lenz_takez by lia. lia. }
  unfold parse_physical. rewrite Em. rewrite Eb, Eh. cbn [app]. rewrite El.
  destruct (Z.ltb_spec m (kHeaderSize + lenz data)) as [_|H]; [|lia].
  assert (eof_ (r <| buffer_ := [] |>) = true) as -> by done.
  eexists. split; [reflexivity|done].
Qed.

Lemma read_chunk r o t data u : reading r o (chunk o t data ++ u) ->
  next_offset o + kHeaderSize + lenz data <= kBlockSize -> t <> kZeroType ->
  exists r', ReadPhysicalRecord r = Some (r', record_number t, data)
  /\ reading r' (next_offset o + kHeaderSize + lenz data) u.
Proof.
  intros HR Hl Ht. pose proof (rd_offset _ _ _ HR) as Ho. unfold chunk in HR. rewrite <- !app_assoc in HR.
  pose proof (trailer_length o Ho) as Etr. unfold ReadPhysicalRecord. unfold next_offset in *.
  destruct (Z.ltb_spec (kBlockSize - o) kHeaderSize) as [Hs|Hs].
  - destruct (reading_skip r o _ HR Hs) as (Hb & He & r1 & Erb & HR').
    { rewrite lenz_app. pose proof (lenz_nonneg (header t data ++ data ++ u)). lia. }
    rewrite dropz_app_ge, Etr, Z.sub_diag, dropz_0 in HR' by lia.
    destruct (parse_full _ _ _ _ _ HR' Hl Ht) as (Hb' & r' & Ep & HR2).
    exists r'. split; [|done]. rewrite physical_S.
    destruct (Z.ltb_spec (lenz (buffer_ r)) kHeaderSize) as [_|]; [|lia]. rewrite He. cbn [negb].
    rewrite Erb, physical_S. destruct (Z.ltb_spec (lenz (buffer_ r1)) kHeaderSize) as [|_]; [lia|]. by rewrite Ep.
  - unfold trailer in HR. destruct (Z.ltb_spec (kBlockSize - o) kHeaderSize) as [|_]; [lia|]. cbn [app] in HR.
    destruct (parse_full _ _ _ _ _ HR Hl Ht) as (Hb' & r' & Ep & HR2).
    exists r'. split; [|done]. rewrite physical_S.
    destruct (Z.ltb_spec (lenz (buffer_ r)) kHeaderSize) as [|_]; [lia|]. by rewrite Ep.
Qed.

Lemma read_cut r o t data m : reading r o (takez m (chunk o t data)) -> 0 <= m < lenz (chunk o t data) ->
  next_offset o + kHeaderSize + lenz data <= kBlockSize ->
  exists r', ReadPhysicalRecord r = Some (r', kEof, []) /\ dropped r' = [].
Proof.
  intros HR Hm Hl. pose proof (rd_offset _ _ _ HR) as Ho. unfold chunk in *.
  pose proof (trailer_length o Ho) as Etr. pose proof (header_length t data) as Hh.
  rewrite !lenz_app, Hh in Hm. unfold ReadPhysicalRecord. unfold next_offset, trailer in *.
  destruct (Z.ltb_spec (kBlockSize - o) kHeaderSize) as [Hs|Hs].
  - set (tr := takez (kBlockSize - o) _) in *.
    destruct (Z.ltb_spec m (kBlockSize - o)) as [Hm'|Hm'].
    + destruct HR as [_ Hb _ He _ _ _ Hd _].
      assert (lenz (takez m (tr ++ header t data ++ data)) = m) as Elen.
      { rewrite lenz_takez, lenz_app by lia. pose proof (lenz_nonneg (header t data ++ data)). lia. }
      rewrite physical_S. rewrite Hb, takez_all, Elen by lia.
      destruct (Z.ltb_spec m kHeaderSize) as [_|]; [|lia]. rewrite He, Elen.
      destruct (Z.ltb_spec (o + m) kBlockSize) as [_|]; [|lia]. cbn [negb].
      eexists. split; [reflexivity|done].
    + rewrite takez_app_ge, Etr in HR by lia.
      destruct (reading_skip r o _ HR Hs) as (Hb & He & r1 & Erb & HR').
      { rewrite lenz_app, Etr. pose proof (lenz_nonneg (takez (m - (kBlockSize - o)) (header t data ++ data))). lia. }
      rewrite dropz_app_ge, Etr, Z.sub_diag, dropz_0 in HR' by lia.
      destruct (parse_cut 1 _ _ _ _ _ HR') as (r' & E & Hd'); [lia|done|].
      exists r'. split; [|done]. rewrite physical_S.
      destruct (Z.ltb_spec (lenz (buffer_ r)) kHeaderSize) as [_|]; [|lia]. rewrite He. cbn [negb]. by rewrite Erb.
  - cbn [app] in HR. destruct (parse_cut 2 _ _ _ _ _ HR) as (r' & E & Hd'); [lia|done|]. by exists r'.
Qed.

(** ** Records *)

Lemma reading_fields r r' o u : reading r o u -> buffer_ r' = buffer_ r -> file_ r' = file_ r ->
  eof_ r' = eof_ r -> initial_offset_ r' = initial_offset_ r -> resyncing_ r' = false ->
  0 <= last_record_offset_ r' -> dropped r' = dropped r -> reads r' = reads r -> reading r' o u.
Proof. intros [] E1 E2 E3 E4 E5 E6 E7 E8. split; try done; congruence. Qed.

(** The record of the fragments [scratch] already read, when one has begun, and [left]. *)
Definition assembled (begin_ : bool) (scratch left : text) : text :=
  if begin_ then left else scratch ++ left.

(** Writing [left] from block offset [o] puts [bytes] into the file and ends at offset
    [o']; the reader reverses it, and a proper prefix of [bytes] gives no record. *)
Definition reads_back (begin_ : bool) (left : text) (o o' : Z) (bytes : text) : Prop :=
  (forall r u fuel scratch pr, reading r o (bytes ++ u) -> (length bytes < fuel)%nat -> 0 <= pr ->
     exists r', record_loop fuel (negb begin_) scratch pr r
                = Some (r', Some (assembled begin_ scratch left)) /\ reading r' o' u)
  /\ (forall r m fuel scratch pr, 0 <= m < lenz bytes -> reading r o (takez m bytes) -> m < Z.of_nat fuel ->
       exists r', record_loop fuel (negb begin_) scratch pr r = Some (r', None) /\ dropped r' = []).

Lemma chunk_length o t data : 0 <= o <= kBlockSize ->
  lenz (chunk o t data) = lenz (trailer o) + kHeaderSize + lenz data.
Proof. intros Ho. unfold chunk. rewrite !lenz_app, header_length. lia. Qed.

Lemma chunk_pos o t data : 0 <= o <= kBlockSize -> 0 < lenz (chunk o t data).
Proof.
  intros Ho. rewrite chunk_length by done. pose proof (lenz_nonneg (trailer o)).
  pose proof (lenz_nonneg data). unfold kHeaderSize. lia.
Qed.

Lemma fuel_S n fuel : (n < fuel)%nat -> exists f, fuel = S f.
Proof. destruct fuel as [|f]; [lia|]. eauto. Qed.

Lemma record_eof f inf scratch pr r r1 : ReadPhysicalRecord r = Some (r1, kEof, []) -> dropped r1 = [] ->
  exists r', record_loop (S f) inf scratch pr r = Some (r', None) /\ dropped r' = [].
Proof.
  intros E Hd. cbn [record_loop]. rewrite E. cbn [mbind option_bind]. rewrite andb_false_r.
  change (kEof =? record_number kLastType) with false. rewrite andb_false_r.
  cbn [record_number]. change (kEof =? 1) with false. change (kEof =? 2) with false.
  change (kEof =? 3) with false. change (kEof =? 4) with false. change (kEof =? kEof) with true.
  cbn iota. eexists. split; [reflexivity|done].
Qed.

(** The last fragment of a record. *)
Lemma reads_back_end begin_ left o : 0 <= o <= kBlockSize ->
  next_offset o + kHeaderSize + lenz left <= kBlockSize ->
  reads_back begin_ left o (next_offset o + kHeaderSize + lenz left)
    (chunk o (fragment_type begin_ true) left).
Proof.
  intros Ho Hl. pose proof (lenz_nonneg left). pose proof (lenz_nonneg (trailer o)).
  set (t := fragment_type begin_ true). assert (t <> kZeroType) as Ht by (by destruct begin_).
  split.
  - intros r u fuel scratch pr HR Hf Hpr. destruct (fuel_S _ _ Hf) as [f ->].
    destruct (read_chunk r o t left u HR Hl Ht) as (r1 & E & HR1).
    cbn [record_loop]. rewrite E. cbn [mbind option_bind]. rewrite (rd_resync _ _ _ HR1). cbn [andb].
    unfold t. destruct begin_; cbn [fragment_type andb record_number Z.eqb Pos.eqb negb assembled];
      (eexists; split; [reflexivity|]; eapply reading_fields; try done; apply u64_nonneg).
  - intros r m fuel scratch pr Hm HR Hf. destruct fuel as [|f]; [lia|].
    destruct (read_cut r o t left m HR Hm Hl) as (r1 & E & Hd). by apply (record_eof f _ _ _ r r1).
Qed.

(** A fragment that is not the last. *)
Lemma reads_back_more begin_ data left o o' bytes : 0 <= o <= kBlockSize ->
  next_offset o + kHeaderSize + lenz data <= kBlockSize ->
  reads_back false left (next_offset o + kHeaderSize + lenz data) o' bytes ->
  reads_back begin_ (data ++ left) o o' (chunk o (fragment_type begin_ false) data ++ bytes).
Proof.
  intros Ho Hl [Hfull Hcut]. pose proof (lenz_nonneg data). pose proof (lenz_nonneg (trailer o)).
  set (t := fragment_type begin_ false). assert (t <> kZeroType) as Ht by (by destruct begin_).
  pose proof (chunk_length o t data Ho) as Hch. unfold kHeaderSize in Hch.
  assert (forall r u f scratch pr, reading r o (chunk o t data ++ u) ->
    exists r1 pr1, reading r1 (next_offset o + kHeaderSize + lenz data) u /\ (0 <= pr -> 0 <= pr1)
      /\ record_loop (S f) (negb begin_) scratch pr r
         = record_loop f true (if begin_ then data else scratch ++ data) pr1 r1) as Hone.
  { intros r u f scratch pr HR. destruct (read_chunk r o t data u HR Hl Ht) as (r1 & E & HR1).
    cbn [record_loop]. rewrite E. cbn [mbind option_bind]. rewrite (rd_resync _ _ _ HR1). cbn [andb].
    unfold t. destruct begin_; cbn [fragment_type andb record_number Z.eqb Pos.eqb negb];
      (eexists _, _; split; [|split; [|reflexivity]]);
      try (eapply reading_fields; try done; apply (rd_last _ _ _ HR1)); auto using u64_nonneg. }
  split.
  - intros r u fuel scratch pr HR Hf Hpr. destruct (fuel_S _ _ Hf) as [f ->]. rewrite <- app_assoc in HR.
    destruct (Hone r _ f scratch pr HR) as (r1 & pr1 & HR1 & Hpr1 & ->).
    destruct (Hfull r1 u f (if begin_ then data else scratch ++ data) pr1 HR1) as (r' & E' & HR').
    { rewrite length_app in Hf. unfold lenz in Hch. lia. }
    { auto. }
    cbn [negb] in E'. rewrite E'. exists r'. split; [|done]. do 3 f_equal. unfold assembled.
    destruct begin_; [done|]. by rewrite app_assoc.
  - intros r m fuel scratch pr Hm HR Hf. destruct fuel as [|f]; [lia|]. rewrite lenz_app in Hm.
    destruct (Z.ltb_spec m (lenz (chunk o t data))) as [Hlt|Hge].
    + rewrite takez_app_le in HR by lia. destruct (read_cut r o t data m HR) as (r1 & E & Hd); [lia|done|].
      by apply (record_eof f _ _ _ r r1).
    + rewrite takez_app_ge in HR by lia.
      destruct (Hone r _ f scratch pr HR) as (r1 & pr1 & HR1 & Hpr1 & ->). apply Hcut with (m := m - lenz (chunk o t data)); [lia|done|lia].
Qed.

Lemma next_offset_bound o : 0 <= o <= kBlockSize -> 0 <= next_offset o <= kBlockSize - kHeaderSize.
Proof. unfold next_offset, kHeaderSize, kBlockSize. intros Ho. case_match; lia. Qed.

Lemma emit_chunk t data w : 0 <= block_offset_ w <= kBlockSize ->
  EmitPhysicalRecord [] t data (mkWriter (dest_ w ++ trailer (block_offset_ w)) (next_offset (block_offset_ w)))
  = (mkWriter (dest_ w ++ chunk (block_offset_ w) t data) (next_offset (block_offset_ w) + kHeaderSize + lenz data),
     [], status_OK).
Proof.
  intros Ho. unfold EmitPhysicalRecord, chunk, header. cbn [dest_ block_offset_ file_append file_flush tail].
  change (status_ok status_OK) with true. cbn iota. by rewrite <- !app_assoc.
Qed.

(** The fuel of [AddRecord] is enough, and what it writes is read back. *)
Lemma add_loop_spec fuel begin_ left w : 0 <= block_offset_ w <= kBlockSize ->
  (length left + (if (next_offset (block_offset_ w) =? kBlockSize - kHeaderSize)%Z then 1 else 0) < fuel)%nat ->
  exists w' bytes, add_loop fuel [] begin_ left w = Some (w', status_OK) /\ dest_ w' = dest_ w ++ bytes
    /\ 0 < lenz bytes /\ 0 <= block_offset_ w' <= kBlockSize
    /\ reads_back begin_ left (block_offset_ w) (block_offset_ w') bytes.
Proof.
  revert begin_ left w. induction fuel as [|fuel IH]; intros begin_ left w Ho Hf; [lia|].
  set (o := block_offset_ w) in *. pose proof (next_offset_bound o Ho) as Hn.
  pose proof (lenz_nonneg left) as Hln. cbn [add_loop].
  rewrite switch_block_spec by done. cbn [block_offset_]. fold o. set (avail := kBlockSize - next_offset o - kHeaderSize).
  destruct (Z.ltb_spec (lenz left) avail) as [Hl|Hl].
  - rewrite Z.eqb_refl, takez_all, dropz_all, emit_chunk by (done || lia). fold o.
    change (status_ok status_OK && (0 <? lenz [])) with false. eexists _, _. split; [reflexivity|]. split; [reflexivity|].
    split; [by apply chunk_pos|]. cbn [block_offset_]. split; [unfold kHeaderSize in *; lia|]. apply reads_back_end; [done|lia].
  - destruct (Z.eqb_spec (lenz left) avail) as [He|He].
    + rewrite takez_all, dropz_all, emit_chunk by (done || lia). fold o.
      change (status_ok status_OK && (0 <? lenz [])) with false. eexists _, _. split; [reflexivity|]. split; [reflexivity|].
      split; [by apply chunk_pos|]. cbn [block_offset_]. split; [unfold kHeaderSize in *; lia|]. apply reads_back_end; [done|lia].
    + rewrite emit_chunk by done. fold o. set (data := takez avail left).
      assert (lenz data = avail) as Ed by (unfold data; rewrite lenz_takez by lia; lia).
      assert (lenz (dropz avail left) = lenz left - avail) as El by (rewrite lenz_dropz by lia; lia).
      destruct (Z.ltb_spec 0 (lenz (dropz avail left))) as [Hp|Hp]; [|lia].
      change (status_ok status_OK && true) with true. cbn iota.
      set (w1 := mkWriter _ _).
      destruct (IH false (dropz avail left) w1) as (w' & bytes & E & Ed' & _ & Ho' & Hrb).
      { unfold w1. cbn [block_offset_]. unfold kHeaderSize in *. lia. }
      { unfold w1. cbn [block_offset_]. rewrite Ed.
        replace (next_offset o + kHeaderSize + avail) with kBlockSize by lia.
        change (next_offset kBlockSize =? kBlockSize - kHeaderSize) with false.
        unfold lenz in El, He. destruct (Z.eqb_spec (next_offset o) (kBlockSize - kHeaderSize)); lia. }
      rewrite E. eexists w', _. split; [reflexivity|]. rewrite Ed'. unfold w1 in *. cbn [dest_ block_offset_] in *.
      rewrite <- app_assoc. split; [reflexivity|].
      split; [rewrite lenz_app; pose proof (chunk_pos o (fragment_type begin_ false) data Ho); pose proof (lenz_nonneg bytes); lia|].
      split; [done|]. rewrite <- (takez_dropz avail left). fold data. apply reads_back_more; [done|lia|]. exact Hrb.
Qed.

(** Whatever the file system answers, [AddRecord] returns, and the next header has a place. *)
Lemma switch_offset a w : exists dest a',
  switch_block a w = (mkWriter dest (next_offset (block_offset_ w)), a').
Proof.
  unfold switch_block, next_offset. destruct (kBlockSize - block_offset_ w <? kHeaderSize).
  - destruct (0 <? _); [|by eexists _, _]. destruct (file_append _ _ _) as [[dest a'] s]. by eexists _, _.
  - exists (dest_ w), a. by destruct w.
Qed.

Lemma emit_offset a t data w : exists dest a' s,
  EmitPhysicalRecord a t data w = (mkWriter dest (block_offset_ w + kHeaderSize + lenz data), a', s).
Proof.
  unfold EmitPhysicalRecord. destruct (file_append a _ _) as [[dest a1] s].
  destruct (status_ok s); [|by eexists _, _, _]. destruct (file_append a1 _ _) as [[dest2 a2] s2].
  destruct (status_ok s2); [|by eexists _, _, _]. destruct (file_flush a2) as [a3 s3]. by eexists _, _, _.
Qed.

Lemma add_loop_total fuel a begin_ left w : 0 <= block_offset_ w <= kBlockSize ->
  (length left + (if (next_offset (block_offset_ w) =? kBlockSize - kHeaderSize)%Z then 1 else 0) < fuel)%nat ->
  exists w' s, add_loop fuel a begin_ left w = Some (w', s) /\ 0 <= block_offset_ w' <= kBlockSize.
Proof.
  revert a begin_ left w. induction fuel as [|fuel IH]; intros a begin_ left w Ho Hf; [lia|]. cbn [add_loop].
  set (o := block_offset_ w) in *. pose proof (next_offset_bound o Ho) as Hn. pose proof (lenz_nonneg left) as Hln.
  destruct (switch_offset a w) as (dest & a1 & ->). fold o. cbn [block_offset_].
  set (n := if lenz left <? _ then _ else _).
  assert (0 <= n <= kBlockSize - next_offset o - kHeaderSize /\ n <= lenz left
    /\ (n < lenz left -> n = kBlockSize - next_offset o - kHeaderSize)) as (Hn1 & Hn2 & Hn3).
  { unfold n. destruct (Z.ltb_spec (lenz left) (kBlockSize - next_offset o - kHeaderSize)); lia. }
  destruct (emit_offset a1 (fragment_type begin_ (lenz left =? n)) (takez n left) (mkWriter dest (next_offset o)))
    as (dest2 & a2 & s & ->). cbn [block_offset_]. rewrite lenz_takez, Z.min_l by lia.
  assert (lenz (dropz n left) = lenz left - n) as El by (rewrite lenz_dropz by lia; lia).
  destruct (status_ok s); [|eexists _, _; split; [reflexivity|cbn [block_offset_]; unfold kHeaderSize in *; lia]].
  destruct (Z.ltb_spec 0 (lenz (dropz n left))) as [Hp|Hp];
    [|eexists _, _; split; [reflexivity|cbn [block_offset_]; unfold kHeaderSize in *; lia]].
  apply IH; cbn [block_offset_]; [unfold kHeaderSize in *; lia|].
  replace (next_offset o + kHeaderSize + n) with kBlockSize by lia.
  change (next_offset kBlockSize =? kBlockSize - kHeaderSize) with false.
  unfold lenz in El, Hn2, Hn3, Hp. destruct (Z.eqb_spec (next_offset o) (kBlockSize - kHeaderSize)); lia.
Qed.

Lemma AddRecord_total a rec w : 0 <= block_offset_ w <= kBlockSize ->
  exists w' s, AddRecord a rec w = Some (w', s) /\ 0 <= block_offset_ w' <= kBlockSize.
Proof. intros Ho. apply add_loop_total; [done|]. case_match; lia. Qed.

(** ** Logs *)

Lemma AddRecord_spec rec w : 0 <= block_offset_ w <= kBlockSize ->
  exists w' bytes, AddRecord [] rec w = Some (w', status_OK) /\ dest_ w' = dest_ w ++ bytes
    /\ 0 < lenz bytes /\ 0 <= block_offset_ w' <= kBlockSize
    /\ reads_back true rec (block_offset_ w) (block_offset_ w') bytes.
Proof. intros Ho. apply add_loop_spec; [done|]. case_match; lia. Qed.

Lemma reading_unread r o u : reading r o u -> unread r = length u.
Proof.
  intros HR. unfold unread. rewrite (rd_buffer _ _ _ HR), (rd_file _ _ _ HR), <- length_app.
  by rewrite takez_dropz.
Qed.

Lemma ReadRecord_loop r o u : reading r o u ->
  ReadRecord r = record_loop (2 + length u) false [] 0 r.
Proof.
  intros HR. unfold ReadRecord. rewrite (rd_initial _ _ _ HR).
  destruct (Z.ltb_spec (last_record_offset_ r) 0) as [H|_]; [pose proof (rd_last _ _ _ HR); lia|].
  by rewrite (reading_unread r o u HR).
Qed.

Lemma ReadRecord_back r rec o o' bytes u : reads_back true rec o o' bytes -> reading r o (bytes ++ u) ->
  exists r', ReadRecord r = Some (r', Some rec) /\ reading r' o' u.
Proof.
  intros [Hfull _] HR. rewrite (ReadRecord_loop r o _ HR).
  destruct (Hfull r u (2 + length (bytes ++ u))%nat [] 0 HR) as (r' & E & HR'); [rewrite length_app; lia|lia|].
  by exists r'.
Qed.

Lemma ReadRecord_cut r rec o o' bytes m : reads_back true rec o o' bytes -> 0 <= m < lenz bytes ->
  reading r o (takez m bytes) -> exists r', ReadRecord r = Some (r', None) /\ dropped r' = [].
Proof.
  intros [_ Hcut] Hm HR. rewrite (ReadRecord_loop r o _ HR). apply (Hcut r m); [done|done|].
  assert (lenz (takez m bytes) = m) as E by (rewrite lenz_takez by lia; lia). unfold lenz in E. lia.
Qed.

Lemma ReadRecord_empty r o : reading r o [] -> exists r', ReadRecord r = Some (r', None) /\ dropped r' = [].
Proof.
  intros HR. rewrite (ReadRecord_loop r o _ HR). pose proof (rd_offset _ _ _ HR) as Ho.
  destruct (read_cut r o kFullType [] 0) as (r1 & E & Hd); [done| | |by apply (record_eof _ _ _ _ r r1)].
  - split; [done|]. rewrite chunk_length by done. pose proof (lenz_nonneg (trailer o)).
    unfold kHeaderSize. change (lenz (@nil ascii)) with 0. lia.
  - pose proof (next_offset_bound o Ho). change (lenz (@nil ascii)) with 0. lia.
Qed.

Lemma write_records_app recs w : 0 <= block_offset_ w <= kBlockSize ->
  exists w' bytes, write_records recs w = Some w' /\ dest_ w' = dest_ w ++ bytes
    /\ 0 <= block_offset_ w' <= kBlockSize.
Proof.
  revert w. induction recs as [|rec recs IH]; intros w Ho; cbn [write_records].
  { exists w, []. by rewrite app_nil_r. }
  destruct (AddRecord_spec rec w Ho) as (w1 & b1 & -> & E1 & _ & Ho1 & _). cbn [mbind option_bind].
  destruct (IH w1 Ho1) as (w' & b2 & -> & E2 & Ho2). exists w', (b1 ++ b2).
  by rewrite E2, E1, <- app_assoc.
Qed.

(** [j] records written from [w] on end within the first [n] bytes of the file. *)
Definition within (recs : list text) (w : Writer) (j : nat) (n : Z) : Prop :=
  exists wj, write_records (take j recs) w = Some wj /\ lenz (dest_ wj) <= n.

Lemma within_0 recs w n : within recs w 0 n <-> lenz (dest_ w) <= n.
Proof. split; [intros (wj & E & H); by injection E as <-|intros H; by exists w]. Qed.

Lemma within_S rec recs w w1 j n : AddRecord [] rec w = Some (w1, status_OK) ->
  within (rec :: recs) w (S j) n <-> within recs w1 j n.
Proof. intros E. unfold within. cbn [take write_records]. rewrite E. done. Qed.

(** The reader returns the records, then reaches the end, and drops nothing. *)
Inductive yields : Reader -> list text -> Prop :=
  | yields_end r r' : ReadRecord r = Some (r', None) -> dropped r' = [] -> yields r []
  | yields_record r r' rec recs : ReadRecord r = Some (r', Some rec) -> dropped r' = [] ->
      yields r' recs -> yields r (rec :: recs).

Lemma read_yields r recs fuel : yields r recs -> (length recs < fuel)%nat ->
  exists r', read_records fuel r = Some (r', recs) /\ dropped r' = [].
Proof.
  intros Hy. revert fuel. induction Hy as [r r' E Hd|r r' rec recs E Hd Hy IH]; intros [|fuel] Hf; try (simpl in Hf; lia);
    cbn [read_records]; rewrite E; cbn [mbind option_bind]; [by exists r'|].
  simpl in Hf. destruct (IH fuel) as (r2 & E2 & Hd2); [lia|]. rewrite E2. by exists r2.
Qed.

Lemma records_back recs w w' : 0 <= block_offset_ w <= kBlockSize -> write_records recs w = Some w' ->
  exists bytes, dest_ w' = dest_ w ++ bytes
  /\ forall r m, 0 <= m -> reading r (block_offset_ w) (takez m bytes) ->
     exists k, yields r (take k recs) /\ (k <= length recs)%nat /\ (k <= length (takez m bytes))%nat
     /\ forall j, (j <= length recs)%nat -> within recs w j (lenz (dest_ w) + m) <-> (j <= k)%nat.
Proof.
  revert w. induction recs as [|rec recs IH]; intros w Ho E; cbn [write_records] in E.
  - injection E as <-. exists []. rewrite app_nil_r. split; [done|]. intros r m Hm HR. cbn [length].
    assert (takez m (@nil ascii) = []) as En by (unfold takez; by rewrite take_nil). rewrite En in HR.
    destruct (ReadRecord_empty r _ HR) as (r' & E & Hd). exists O.
    split; [by eapply yields_end|]. split; [lia|]. split; [lia|]. intros j Hj. replace j with O by lia.
    rewrite within_0. lia.
  - destruct (AddRecord_spec rec w Ho) as (w1 & b1 & E1 & Ed1 & Hb1 & Ho1 & Hrb). rewrite E1 in E.
    cbn [mbind option_bind] in E. destruct (IH w1 Ho1 E) as (b2 & Ed2 & HIH).
    exists (b1 ++ b2). split; [by rewrite Ed2, Ed1, <- app_assoc|].
    intros r m Hm HR. cbn [length].
    assert (lenz (dest_ w1) = lenz (dest_ w) + lenz b1) as El by (by rewrite Ed1, lenz_app).
    destruct (Z.ltb_spec m (lenz b1)) as [Hlt|Hge].
    + rewrite takez_app_le in HR by lia.
      destruct (ReadRecord_cut r rec _ _ b1 m Hrb) as (r' & Er & Hd); [lia|done|].
      exists O. split; [by eapply yields_end|]. split; [lia|]. split; [lia|].
      intros j Hj. destruct j as [|j]; [rewrite within_0; lia|]. rewrite (within_S _ _ _ w1) by done.
      split; [|lia]. intros (wj & Ej & Hn).
      destruct (write_records_app (take j recs) w1 Ho1) as (wj' & bj & Ej' & Edj & _).
      rewrite Ej in Ej'. injection Ej' as <-. rewrite Edj, lenz_app in Hn. pose proof (lenz_nonneg bj). lia.
    + rewrite takez_app_ge in HR |- * by lia. rewrite length_app. unfold lenz in Hb1.
      destruct (ReadRecord_back r rec _ _ b1 _ Hrb HR) as (r1 & Er & HR1).
      destruct (HIH r1 (m - lenz b1)) as (k & Hy & Hk & Hk' & Hw); [lia|done|].
      exists (S k). split; [eapply yields_record; [done|apply HR1|done]|]. split; [lia|]. split; [lia|].
      intros j Hj. destruct j as [|j]; [rewrite within_0; lia|]. rewrite (within_S _ _ _ w1) by done.
      replace (lenz (dest_ w) + m) with (lenz (dest_ w1) + (m - lenz b1)) by lia.
      rewrite Hw by lia. lia.
Qed.

(** A writer at the end of a block writes what one at the start of a block writes. *)
Lemma write_records_start recs :
  dest_ <$> write_records recs (new_Writer []) = dest_ <$> write_records recs (mkWriter [] kBlockSize).
Proof. destruct recs as [|rec recs]; done. Qed.

Lemma within_start recs j n : within recs (new_Writer []) j n <-> within recs (mkWriter [] kBlockSize) j n.
Proof.
  unfold within. pose proof (write_records_start (take j recs)) as E.
  destruct (write_records (take j recs) (new_Writer [])) as [a|],
    (write_records (take j recs) (mkWriter [] kBlockSize)) as [b|]; simpl in E; try discriminate.
  - injection E as E. split; intros (wj & Ej & Hn); injection Ej as <-; eexists; (split; [done|congruence]).
  - by split; intros (wj & Ej & Hn).
Qed.

(** The records of a log that lie within the first [n] bytes of its file. *)
Lemma log_yields recs w n : 0 <= n -> write_records recs (new_Writer []) = Some w ->
  exists k, yields (new_Reader (takez n (dest_ w)) true 0 []) (take k recs)
  /\ (k <= length recs)%nat /\ (k <= length (takez n (dest_ w)))%nat
  /\ forall j, (j <= length recs)%nat -> within recs (new_Writer []) j n <-> (j <= k)%nat.
Proof.
  intros Hn E. assert (0 <= block_offset_ (mkWriter [] kBlockSize) <= kBlockSize) as Ho by done.
  destruct (write_records_app recs (mkWriter [] kBlockSize)) as (w2 & _ & E2 & _); [done|].
  pose proof (write_records_start recs) as Es. rewrite E, E2 in Es. injection Es as Es.
  destruct (records_back recs _ w2 Ho E2) as (b & Ed & Hb). cbn [dest_ app] in Ed. rewrite Es, Ed.
  destruct (Hb (new_Reader (takez n b) true 0 []) n) as (k & Hy & Hk & Hk' & Hw); [done|apply new_Reader_reading|].
  exists k. split; [done|]. split; [done|]. split; [done|].
  intros j Hj. rewrite within_start, <- Hw by done. done.
Qed.

Lemma log_prefix recs n : 0 <= n ->
  exists w, write_records recs (new_Writer []) = Some w
  /\ exists r k, read_log (takez n (dest_ w)) true = Some (r, take k recs) /\ dropped r = []
     /\ (k <= length recs)%nat
     /\ forall j, (j <= length recs)%nat -> within recs (new_Writer []) j n <-> (j <= k)%nat.
Proof.
  intros Hn. destruct (write_records_app recs (new_Writer [])) as (w & bytes & E & _); [done|].
  exists w. split; [done|]. destruct (log_yields recs w n Hn E) as (k & Hy & Hk & Hk' & Hw).
  destruct (read_yields _ _ (2 + length (takez n (dest_ w)))%nat Hy) as (r & Er & Hd).
  { rewrite length_take. lia. }
  by exists r, k.
Qed.

(** C20. The log survives a crash: whatever prefix of a log is left, the reader
    returns the records that lie within the prefix, in order, each as it was written
    whatever its size, and then stops without reporting any corruption; in particular
    all records when the file is complete. *)
Theorem log_survives_crash recs n : 0 <= n ->
  exists w, write_records recs (new_Writer []) = Some w
  /\ exists r k, read_log (takez n (dest_ w)) true = Some (r, take k recs) /\ dropped r = []
     /\ (k <= length recs)%nat
     /\ forall j, (j <= length recs)%nat -> within recs (new_Writer []) j n <-> (j <= k)%nat.
Proof. apply log_prefix. Qed.

End log.

(** Three records of which the last is cut off. *)
Lemma log_survives_crash_witness :
  let none := fun (_ : Z) (_ : text) => 0 in
  let recs := [L "hello"; []; L "world"] in
  exists w, write_records none 0 recs (new_Writer []) = Some w
  /\ exists r, read_log none 0 (takez 20 (dest_ w)) true = Some (r, [L "hello"; []]) /\ dropped r = [].
Proof.
  intros none recs.
  destruct (log_survives_crash none 0 (or_intror (fun _ _ => eq_refl)) recs 20)
    as (w & E & r & k & Er & Hd & Hk & Hw); [lia|].
  exists w. split; [done|]. exists r. split; [|done].
  assert (2 <= k)%nat as H2.
  { apply Hw; [simpl; lia|]. eexists. split; [vm_compute; reflexivity|]. by vm_compute. }
  assert (~ (3 <= k)%nat) as H3.
  { rewrite <- Hw by (simpl; lia). intros (wj & Ej & Hn). change (take 3 recs) with recs in Ej. rewrite E in Ej. injection Ej as <-.
    assert (lenz (dest_ w) = 31) as El; [|lia].
    assert (lenz <$> (dest_ <$> write_records none 0 recs (new_Writer [])) = Some 31) as Ev by by vm_compute.
    rewrite E in Ev. by injection Ev. }
  rewrite Er. replace k with 2%nat by lia. done.
Defined.
