(* ===== verification/Filename.v ===== *)
(** * Filename: numbers in text and the names of LevelDB's files

    [src/leveldb/util/logging.cc] (printing and reading decimal numbers, escaping) and
    [src/leveldb/db/filename.cc] (the names a database gives its files and the parser
    that recognises them).  The file system is an argument of [SetCurrentFile]. *)

From S2P Require Import Prelude Text Commands Coding.

(** ** Numbers and escapes: [logging.cc] *)

Definition AppendNumberTo (str : text) (num : Z) : text := str ++ digits num.
Definition NumberToString (num : Z) : text := AppendNumberTo [] num.

(** A lower-case hexadecimal digit. *)
Definition hex_digit (d : Z) : ascii := if d <? 10 then digit_chr d else chr (Z.to_N (d + 87)).

(** [char] is signed: a byte of 128 or more is below the space. *)
Definition printable (c : ascii) : bool := (32 <=? byte_val c) && (byte_val c <=? 126).

Definition escape_char (c : ascii) : text :=
  if printable c then [c]
  else [chr 92; chr 120; hex_digit (byte_val c / 16); hex_digit (byte_val c mod 16)].

Definition AppendEscapedStringTo (str value : text) : text := str ++ concat (escape_char <$> value).
Definition EscapeString (value : text) : text := AppendEscapedStringTo [] value.

Definition kMaxUint64 : Z := 18446744073709551615.

(** The loop of [ConsumeDecimalNumber]: the value and the rest, or [None] on
    overflow. *)
Fixpoint consume_digits (value : Z) (l : text) : option (Z * text) :=
  match l with
  | c :: l' =>
    if is_digit c then
      if (kMaxUint64 / 10 <? value)
         || ((value =? kMaxUint64 / 10) && (kMaxUint64 mod 10 <? digit_val c))
      then None else consume_digits (value * 10 + digit_val c) l'
    else Some (value, l)
  | [] => Some (value, l)
  end.

(** The number and the rest of the input; [None] where the source returns false. *)
Definition ConsumeDecimalNumber (l : text) : option (Z * text) :=
  '(v, rest) ← consume_digits 0 l;
  if (length rest =? length l)%nat then None else Some (v, rest).

(** ** Names: [filename.cc] *)

Inductive FileType :=
  | kLogFile | kDBLockFile | kTableFile | kDescriptorFile | kCurrentFile | kTempFile | kInfoLogFile.

(** ["%06llu"] *)
Definition pad6 (n : Z) : text := replicate (6 - length (digits n)) (chr 48) ++ digits n.

Definition MakeFileName (dbname : text) (number : Z) (suffix : text) : text :=
  dbname ++ L "/" ++ pad6 number ++ L "." ++ suffix.

Definition LogFileName (dbname : text) (number : Z) : text := MakeFileName dbname number (L "log").
Definition TableFileName (dbname : text) (number : Z) : text := MakeFileName dbname number (L "ldb").
Definition SSTTableFileName (dbname : text) (number : Z) : text := MakeFileName dbname number (L "sst").
Definition DescriptorFileName (dbname : text) (number : Z) : text :=
  dbname ++ L "/MANIFEST-" ++ pad6 number.
Definition CurrentFileName (dbname : text) : text := dbname ++ L "/CURRENT".
Definition LockFileName (dbname : text) : text := dbname ++ L "/LOCK".
Definition TempFileName (dbname : text) (number : Z) : text := MakeFileName dbname number (L "dbtmp").
Definition InfoLogFileName (dbname : text) : text := dbname ++ L "/LOG".
Definition OldInfoLogFileName (dbname : text) : text := dbname ++ L "/LOG.old".

(** [Slice::starts_with] followed by [remove_prefix]. *)
Definition strip_prefix (p l : text) : option text :=
  if bool_decide (take (length p) l = p) then Some (drop (length p) l) else None.

Definition ParseFileName (filename : text) : option (Z * FileType) :=
  if bool_decide (filename = L "CURRENT") then Some (0, kCurrentFile)
  else if bool_decide (filename = L "LOCK") then Some (0, kDBLockFile)
  else if bool_decide (filename = L "LOG") || bool_decide (filename = L "LOG.old")
    then Some (0, kInfoLogFile)
  else match strip_prefix (L "MANIFEST-") filename with
  | Some rest =>
    '(num, rest) ← ConsumeDecimalNumber rest;
    match rest with [] => Some (num, kDescriptorFile) | _ => None end
  | None =>
    '(num, suffix) ← ConsumeDecimalNumber filename;
    if bool_decide (suffix = L ".log") then Some (num, kLogFile)
    else if bool_decide (suffix = L ".sst") || bool_decide (suffix = L ".ldb")
      then Some (num, kTableFile)
    else if bool_decide (suffix = L ".dbtmp") then Some (num, kTempFile)
    else None
  end.

(** What [SetCurrentFile] asks of the file system, which answers each operation. *)
Inductive FileOp :=
  | WriteSync (name data : text)
  | Rename (old new : text)
  | Remove (name : text).

Definition SetCurrentFile (env : FileOp -> bool) (dbname : text) (number : Z) : list FileOp * bool :=
  let manifest := DescriptorFileName dbname number in
  let contents := drop (length dbname + 1) manifest in
  let tmp := TempFileName dbname number in
  let write := WriteSync tmp (contents ++ [nl]) in
  let rename := Rename tmp (CurrentFileName dbname) in
  if env write then
    if env rename then ([write; rename], true) else ([write; rename; Remove tmp], false)
  else ([write; Remove tmp], false).

(** ** Decimal numbers *)

Abbreviation all_digits := (Forall (fun c => is_digit c = true)).

Lemma digit_val_bound c : is_digit c = true -> 0 <= digit_val c < 10.
Proof. intros Hc. by apply digit_chr_val. Qed.

Lemma read_digits_mono acc l : 0 <= acc -> all_digits l -> acc <= (read_digits acc l).1.
Proof.
  intros Ha Hl. revert acc Ha. induction Hl as [|c l Hc Hl IH]; intros acc Ha; [done|].
  simpl. rewrite Hc. pose proof (digit_val_bound c Hc). specialize (IH (acc * 10 + digit_val c)). lia.
Qed.

(** The loop computes the value of the digits, or fails when it exceeds 64 bits. *)
Lemma consume_digits_spec v l rest : 0 <= v <= kMaxUint64 -> all_digits l -> no_digit rest ->
  consume_digits v (l ++ rest)
  = if (read_digits v l).1 <=? kMaxUint64 then Some ((read_digits v l).1, rest) else None.
Proof.
  intros Hv Hl Hr. revert v Hv. induction Hl as [|c l Hc Hl IH]; intros v Hv.
  - simpl. destruct (Z.leb_spec v kMaxUint64); [|lia]. destruct rest as [|c rest]; [done|].
    simpl in *. by rewrite Hr.
  - simpl. rewrite Hc. pose proof (digit_val_bound c Hc) as Hd.
    unfold kMaxUint64 in *. simpl (_ / _). simpl (_ mod _).
    destruct ((_ <? v) || _) eqn:E.
    + destruct (Z.leb_spec (read_digits (v * 10 + digit_val c) l).1 18446744073709551615); [|done].
      pose proof (read_digits_mono (v * 10 + digit_val c) l ltac:(lia) Hl). lia.
    + apply IH. lia.
Qed.

Lemma digits_all n : 0 <= n -> all_digits (digits n).
Proof. apply digits_fuel_digit. Qed.

Lemma read_zeros k acc l : read_digits acc (replicate k (chr 48) ++ l) = read_digits (acc * 10 ^ Z.of_nat k) l.
Proof.
  revert acc. induction k as [|k IH]; intros acc; [simpl; f_equal; lia|].
  rewrite Nat2Z.inj_succ, Z.pow_succ_r by lia. cbn [replicate app read_digits].
  change (is_digit (chr 48)) with true. cbn iota. rewrite IH. f_equal.
  change (digit_val (chr 48)) with 0. lia.
Qed.

Lemma read_pad6 n : 0 <= n -> (read_digits 0 (pad6 n)).1 = n /\ all_digits (pad6 n).
Proof.
  intros Hn. unfold pad6. split.
  - rewrite read_zeros, Z.mul_0_l. pose proof (read_digits_digits n [] Hn I) as E.
    rewrite app_nil_r in E. by rewrite E.
  - apply Forall_app. split; [|by apply digits_all]. apply Forall_replicate. reflexivity.
Qed.

Lemma consume_number l rest : all_digits l -> l <> [] -> no_digit rest ->
  ConsumeDecimalNumber (l ++ rest)
  = if (read_digits 0 l).1 <=? kMaxUint64 then Some ((read_digits 0 l).1, rest) else None.
Proof.
  intros Hl Hne Hr. unfold ConsumeDecimalNumber.
  rewrite consume_digits_spec by (done || unfold kMaxUint64; lia).
  destruct (_ <=? _); [|done]. cbn [mbind option_bind]. rewrite length_app.
  destruct (Nat.eqb_spec (length rest) (length l + length rest)) as [E|_]; [|done].
  destruct l; [done|simpl in E; lia].
Qed.

(** Reading decimal numbers: the text of a number followed by anything but a
    digit is consumed exactly, and refused when the number does not fit 64 bits;
    a text that starts with no digit is refused. *)
Theorem decimal_roundtrip n rest : 0 <= n -> no_digit rest ->
  ConsumeDecimalNumber (NumberToString n ++ rest)
  = (if n <=? kMaxUint64 then Some (n, rest) else None)
  /\ ConsumeDecimalNumber rest = None.
Proof.
  intros Hn Hr. split.
  - unfold NumberToString, AppendNumberTo. cbn [app].
    destruct (digits_cons n Hn) as (c & l & E & _).
    rewrite consume_number; [|by apply digits_all|by rewrite E|done].
    pose proof (read_digits_digits n [] Hn I) as Er. rewrite app_nil_r in Er. by rewrite Er.
  - unfold ConsumeDecimalNumber. pose proof (consume_digits_spec 0 [] rest) as E. cbn [app] in E.
    rewrite E by (done || unfold kMaxUint64; lia || constructor). simpl. by rewrite Nat.eqb_refl.
Qed.

Lemma decimal_roundtrip_witness :
  ConsumeDecimalNumber (NumberToString 18446744073709551615 ++ L "x") = Some (18446744073709551615, L "x")
  /\ ConsumeDecimalNumber (NumberToString 18446744073709551616 ++ L "x") = None.
Proof.
  split; [apply (decimal_roundtrip 18446744073709551615 (L "x")) |
          apply (decimal_roundtrip 18446744073709551616 (L "x"))]; by vm_compute.
Defined.

(** ** Escapes *)

(** An escaped string can be printed: it has printable characters only, and a
    string of printable characters is not changed. *)
Theorem escape_printable value :
  Forall (fun c => printable c = true) (EscapeString value)
  /\ (Forall (fun c => printable c = true) value -> EscapeString value = value).
Proof.
  unfold EscapeString, AppendEscapedStringTo. cbn [app]. split.
  - induction value as [|c l IH]; [constructor|]. rewrite fmap_cons. cbn [concat].
    apply Forall_app. split; [|done]. unfold escape_char. destruct (printable c) eqn:E.
    { by repeat constructor. }
    assert (forall d, 0 <= d < 16 -> printable (hex_digit d) = true) as Hh.
    { intros d Hd. assert (forallb (fun d => printable (hex_digit d)) (loop 0 15) = true) as Hf
        by by vm_compute.
      rewrite forallb_forall in Hf. apply Hf, list_elem_of_In, elem_of_loop. lia. }
    pose proof (byte_val_bound c). repeat constructor; apply Hh.
    + split; [apply Z.div_pos; lia|apply Z.div_lt_upper_bound; lia].
    + apply Z.mod_pos_bound. lia.
  - induction 1 as [|c l Hc _ IH]; [done|]. rewrite fmap_cons. cbn [concat]. rewrite IH.
    unfold escape_char. by rewrite Hc.
Qed.

Lemma escape_printable_witness :
  EscapeString (L "abc") = L "abc" /\ EscapeString [chr 1; chr 98] = L "\x01b".
Proof. split; [apply (escape_printable (L "abc")); by repeat constructor | reflexivity]. Defined.

(** ** File names *)

(** The name without the directory. *)
Definition base (dbname name : text) : text := drop (length dbname + 1) name.

Lemma base_app dbname rest : base dbname (dbname ++ L "/" ++ rest) = rest.
Proof.
  unfold base. rewrite app_assoc. replace (length dbname + 1)%nat with (length (dbname ++ L "/"))
    by (rewrite length_app; done). apply drop_app_length.
Qed.

Lemma pad6_cons n : 0 <= n -> exists c l, pad6 n = c :: l /\ is_digit c = true.
Proof.
  intros Hn. destruct (read_pad6 n Hn) as [_ Hd]. destruct (pad6 n) as [|c l] eqn:E.
  - unfold pad6 in E. apply app_nil in E as [_ E].
    destruct (digits_cons n Hn) as (c & l & E' & _). by rewrite E' in E.
  - apply Forall_cons in Hd as [Hc _]. eauto.
Qed.

Lemma consume_pad6 n rest : 0 <= n <= kMaxUint64 -> no_digit rest ->
  ConsumeDecimalNumber (pad6 n ++ rest) = Some (n, rest).
Proof.
  intros Hn Hr. destruct (read_pad6 n) as [E Hd]; [lia|].
  destruct (pad6_cons n) as (c & l & Ec & _); [lia|].
  rewrite consume_number, E by (done || by rewrite Ec).
  destruct (Z.leb_spec n kMaxUint64); [done|lia].
Qed.

(** A name that starts with a digit is none of the fixed names. *)
Lemma parse_numbered c l : is_digit c = true -> ParseFileName (c :: l)
  = '(num, suffix) ← ConsumeDecimalNumber (c :: l);
    if bool_decide (suffix = L ".log") then Some (num, kLogFile)
    else if bool_decide (suffix = L ".sst") || bool_decide (suffix = L ".ldb")
      then Some (num, kTableFile)
    else if bool_decide (suffix = L ".dbtmp") then Some (num, kTempFile)
    else None.
Proof.
  intros Hc. unfold ParseFileName, strip_prefix. cbn [L length take].
  repeat (rewrite bool_decide_false; [|intros E; injection E as -> _; by vm_compute in Hc]).
  done.
Qed.

Lemma parse_suffix dbname n suffix : 0 <= n <= kMaxUint64 ->
  no_digit (L "." ++ suffix) ->
  ParseFileName (base dbname (MakeFileName dbname n suffix))
  = if bool_decide (L "." ++ suffix = L ".log") then Some (n, kLogFile)
    else if bool_decide (L "." ++ suffix = L ".sst") || bool_decide (L "." ++ suffix = L ".ldb")
      then Some (n, kTableFile)
    else if bool_decide (L "." ++ suffix = L ".dbtmp") then Some (n, kTempFile)
    else None.
Proof.
  intros Hn Hs. unfold MakeFileName. rewrite base_app.
  destruct (pad6_cons n) as (c & l & E & Hc); [lia|].
  pose proof (consume_pad6 n (L "." ++ suffix) Hn Hs) as Ec. rewrite E in *.
  cbn [app] in *. rewrite parse_numbered by done. by rewrite Ec.
Qed.

Lemma parse_descriptor n : 0 <= n <= kMaxUint64 ->
  ParseFileName (L "MANIFEST-" ++ pad6 n) = Some (n, kDescriptorFile).
Proof.
  intros Hn. unfold ParseFileName.
  assert (strip_prefix (L "MANIFEST-") (L "MANIFEST-" ++ pad6 n) = Some (pad6 n)) as ->.
  { unfold strip_prefix. by rewrite take_app_length, drop_app_length, bool_decide_true. }
  pose proof (consume_pad6 n [] Hn I) as E. rewrite app_nil_r in E. rewrite E.
  by do 4 (rewrite bool_decide_false by done).
Qed.

(** C40. The names a database gives its files are recognised for what they are: for
    every file number, the parser returns the kind of the file and its number. *)
Theorem filename_roundtrip dbname n : 0 <= n <= kMaxUint64 ->
  ParseFileName (base dbname (LogFileName dbname n)) = Some (n, kLogFile)
  /\ ParseFileName (base dbname (TableFileName dbname n)) = Some (n, kTableFile)
  /\ ParseFileName (base dbname (SSTTableFileName dbname n)) = Some (n, kTableFile)
  /\ ParseFileName (base dbname (TempFileName dbname n)) = Some (n, kTempFile)
  /\ ParseFileName (base dbname (DescriptorFileName dbname n)) = Some (n, kDescriptorFile)
  /\ ParseFileName (base dbname (CurrentFileName dbname)) = Some (0, kCurrentFile)
  /\ ParseFileName (base dbname (LockFileName dbname)) = Some (0, kDBLockFile)
  /\ ParseFileName (base dbname (InfoLogFileName dbname)) = Some (0, kInfoLogFile)
  /\ ParseFileName (base dbname (OldInfoLogFileName dbname)) = Some (0, kInfoLogFile).
Proof.
  intros Hn. unfold LogFileName, TableFileName, SSTTableFileName, TempFileName.
  rewrite !parse_suffix by done.
  unfold DescriptorFileName, CurrentFileName, LockFileName, InfoLogFileName, OldInfoLogFileName.
  change (L "/MANIFEST-" ++ pad6 n) with (L "/" ++ L "MANIFEST-" ++ pad6 n).
  change (L "/CURRENT") with (L "/" ++ L "CURRENT"). change (L "/LOCK") with (L "/" ++ L "LOCK").
  change (L "/LOG.old") with (L "/" ++ L "LOG.old"). change (L "/LOG") with (L "/" ++ L "LOG").
  rewrite !base_app, parse_descriptor by done. split_and!; reflexivity.
Qed.

Lemma filename_roundtrip_witness :
  LogFileName (L "db") 7 = L "db/000007.log"
  /\ ParseFileName (base (L "db") (LogFileName (L "db") 7)) = Some (7, kLogFile).
Proof. split; [reflexivity|]. apply filename_roundtrip. unfold kMaxUint64. lia. Defined.

(** Installing a descriptor: when [SetCurrentFile] succeeds, CURRENT has been
    replaced by renaming a file, written and synced before, that holds the name of the
    descriptor and a newline, and that name parses to the descriptor's number; when it
    fails, the last operation removes the temporary file. *)
Theorem set_current_file env dbname n : 0 <= n <= kMaxUint64 ->
  let '(ops, ok) := SetCurrentFile env dbname n in
  if ok then exists name, ops = [WriteSync (TempFileName dbname n) (name ++ [nl]);
                                 Rename (TempFileName dbname n) (CurrentFileName dbname)]
             /\ Forall (fun o => env o = true) ops /\ ParseFileName name = Some (n, kDescriptorFile)
  else last ops = Some (Remove (TempFileName dbname n)).
Proof.
  intros Hn. unfold SetCurrentFile. set (w := WriteSync _ _). set (r := Rename _ _).
  destruct (env w) eqn:Ew; [|done]. destruct (env r) eqn:Er; [|done].
  exists (L "MANIFEST-" ++ pad6 n).
  assert (w = WriteSync (TempFileName dbname n) ((L "MANIFEST-" ++ pad6 n) ++ [nl])) as Ew'.
  { unfold w. f_equal. f_equal. apply (base_app dbname (L "MANIFEST-" ++ pad6 n)). }
  split; [by rewrite <- Ew'|]. split; [by repeat constructor|]. by apply parse_descriptor.
Qed.

Lemma set_current_file_witness :
  exists name, (SetCurrentFile (fun _ => true) (L "db") 5).1
    = [WriteSync (TempFileName (L "db") 5) (name ++ [nl]);
       Rename (TempFileName (L "db") 5) (CurrentFileName (L "db"))]
    /\ ParseFileName name = Some (5, kDescriptorFile).
Proof.
  pose proof (set_current_file (fun _ => true) (L "db") 5 ltac:(unfold kMaxUint64; lia)) as H.
  cbn iota beta in H. destruct H as (name & E & _ & H). by exists name.
Defined.
