(* ===== verification/Bloom.v ===== *)
(** * Bloom: hashing and the Bloom filter of LevelDB

    [src/leveldb/util/hash.cc] and [src/leveldb/util/bloom.cc].  A filter is the
    bytes of a bit array followed by one byte with the number of probes; integers
    wrap at the width the source gives them. *)

From S2P Require Import Prelude Text Doubles Coding.

(** ** [Hash] *)

Definition hash_m : Z := 3332679571.

(** The loop over four bytes at a time: the hash and the bytes left. *)
Fixpoint hash_words (h : Z) (data : text) : Z * text :=
  match data with
  | b0 :: b1 :: b2 :: b3 :: data' =>
    let w := default 0 (DecodeFixed32 [b0; b1; b2; b3]) in
    let h := u32 (h + w) in
    let h := u32 (h * hash_m) in
    hash_words (Z.lxor h (Z.shiftr h 16)) data'
  | _ => (h, data)
  end.

(** The [switch] on the remaining bytes, with its fall-through. *)
Definition hash_tail (h : Z) (data : text) : Z :=
  match data with
  | [] => h
  | b0 :: rest =>
    let h := match rest with
             | b1 :: b2 :: _ => u32 (h + Z.shiftl (byte_val b2) 16)
             | _ => h
             end in
    let h := match rest with b1 :: _ => u32 (h + Z.shiftl (byte_val b1) 8) | [] => h end in
    let h := u32 (h + byte_val b0) in
    let h := u32 (h * hash_m) in
    Z.lxor h (Z.shiftr h 24)
  end.

Definition Hash (data : text) (seed : Z) : Z :=
  let h := u32 (Z.lxor seed (u64 (Z.of_nat (length data) * hash_m))) in
  let '(h, rest) := hash_words h data in hash_tail h rest.

(** ** [BloomFilterPolicy] *)

Definition BloomHash (key : text) : Z := Hash key 3164544308.

Record BloomFilterPolicy := mkBloom { bits_per_key_ : Z; k_ : Z }.

(** [0.69] *)
Definition ln2 : double := ddiv (double_of 69) (double_of 100).

Definition new_BloomFilterPolicy (bits_per_key : Z) : BloomFilterPolicy :=
  let k := dtrunc (dmul (double_of bits_per_key) ln2) in
  let k := if k <? 1 then 1 else k in
  let k := if 30 <? k then 30 else k in
  mkBloom (u64 bits_per_key) k.

(** [(h >> 17) | (h << 15)] on 32 bits. *)
Definition rotate17 (h : Z) : Z := Z.lor (Z.shiftr h 17) (u32 (Z.shiftl h 15)).

Definition set_bit (array : text) (bitpos : Z) : text :=
  alter (fun c => byte (Z.lor (byte_val c) (Z.shiftl 1 (bitpos mod 8)))) (Z.to_nat (bitpos / 8)) array.

Definition get_bit (array : text) (bitpos : Z) : bool :=
  match array !! Z.to_nat (bitpos / 8) with
  | Some c => negb (Z.land (byte_val c) (Z.shiftl 1 (bitpos mod 8)) =? 0)
  | None => false
  end.

(** The probes of a key: the loop over [j]. *)
Fixpoint set_probes (k : nat) (h delta bits : Z) (array : text) : text :=
  match k with
  | O => array
  | S k' => set_probes k' (u32 (h + delta)) delta bits (set_bit array (h mod bits))
  end.

Fixpoint all_probes (k : nat) (h delta bits : Z) (array : text) : bool :=
  match k with
  | O => true
  | S k' => if get_bit array (h mod bits) then all_probes k' (u32 (h + delta)) delta bits array else false
  end.

Definition add_key (k bits : Z) (array key : text) : text :=
  let h := BloomHash key in set_probes (Z.to_nat k) h (rotate17 h) bits array.

Definition filter_bytes (p : BloomFilterPolicy) (n : Z) : Z :=
  let bits := u64 (n * bits_per_key_ p) in
  let bits := if bits <? 64 then 64 else bits in
  u64 (bits + 7) / 8.

Definition CreateFilter (p : BloomFilterPolicy) (keys : list text) (dst : text) : text :=
  let bytes := filter_bytes p (Z.of_nat (length keys)) in
  let bits := bytes * 8 in
  let array := replicate (Z.to_nat bytes) (byte 0) in
  dst ++ foldl (add_key (k_ p) bits) array keys ++ [byte (k_ p)].

Definition KeyMayMatch (key bloom_filter : text) : bool :=
  let len := Z.of_nat (length bloom_filter) in
  if len <? 2 then false
  else
    let bits := (len - 1) * 8 in
    let k := byte_val (default (byte 0) (last bloom_filter)) in
    if 30 <? k then true
    else let h := BloomHash key in all_probes (Z.to_nat k) h (rotate17 h) bits bloom_filter.

(** ** Bits of the array *)

Lemma bit_index p n : 0 <= p < 8 * Z.of_nat n -> (Z.to_nat (p / 8) < n)%nat.
Proof.
  intros Hp. assert (0 <= p / 8 < Z.of_nat n); [|lia].
  split; [apply Z.div_pos; lia|apply Z.div_lt_upper_bound; lia].
Qed.

Lemma land_bit c i : 0 <= i -> negb (Z.land c (Z.shiftl 1 i) =? 0) = Z.testbit c i.
Proof.
  intros Hi. rewrite Z.shiftl_1_l. destruct (Z.testbit c i) eqn:E.
  - apply negb_true_iff, Z.eqb_neq. intros H0.
    assert (Z.testbit (Z.land c (2 ^ i)) i = true) as Ht.
    { by rewrite Z.land_spec, E, Z.pow2_bits_true. }
    by rewrite H0, Z.bits_0 in Ht.
  - apply negb_false_iff, Z.eqb_eq, Z.bits_inj'. intros n Hn.
    rewrite Z.land_spec, Z.bits_0, Z.pow2_bits_eqb by done.
    destruct (Z.eqb_spec i n) as [->|]; [by rewrite E|apply andb_false_r].
Qed.

Lemma get_bit_spec array p : 0 <= p ->
  get_bit array p = match array !! Z.to_nat (p / 8) with
                    | Some c => Z.testbit (byte_val c) (p mod 8) | None => false end.
Proof.
  intros Hp. unfold get_bit. destruct (array !! _); [|done]. apply land_bit.
  apply Z.mod_pos_bound. lia.
Qed.

Lemma set_bit_length array p : length (set_bit array p) = length array.
Proof. apply length_alter. Qed.

(** Bit [j] of a byte after bit [i] is set. *)
Lemma set_byte_bit c i j : 0 <= i < 8 -> 0 <= j < 8 ->
  Z.testbit (byte_val (byte (Z.lor (byte_val c) (Z.shiftl 1 i)))) j
  = Z.testbit (byte_val c) j || (i =? j).
Proof.
  intros Hi Hj. rewrite byte_val_byte. change 256 with (2 ^ 8).
  rewrite Z.mod_pow2_bits_low, Z.lor_spec, Z.shiftl_1_l, Z.pow2_bits_eqb by lia. done.
Qed.

Lemma get_set_bit array p q : 0 <= p -> 0 <= q < 8 * Z.of_nat (length array) ->
  get_bit (set_bit array p) q = get_bit array q || (p =? q).
Proof.
  intros Hp Hq. rewrite !get_bit_spec by lia. unfold set_bit.
  pose proof (Z.mod_pos_bound p 8 ltac:(lia)). pose proof (Z.mod_pos_bound q 8 ltac:(lia)).
  pose proof (Z.div_mod p 8 ltac:(lia)). pose proof (Z.div_mod q 8 ltac:(lia)).
  assert (0 <= p / 8) by (apply Z.div_pos; lia). assert (0 <= q / 8) by (apply Z.div_pos; lia).
  destruct (lookup_lt_is_Some_2 array (Z.to_nat (q / 8))) as [c Hc]; [by apply bit_index|].
  destruct (Z.eq_dec (p / 8) (q / 8)) as [E|Hne].
  - rewrite E, list_lookup_alter_eq, Hc. cbn [fmap option_fmap option_map].
    rewrite set_byte_bit by done. f_equal.
    destruct (Z.eqb_spec (p mod 8) (q mod 8)), (Z.eqb_spec p q); lia.
  - rewrite list_lookup_alter_ne by lia. rewrite Hc.
    destruct (Z.eqb_spec p q) as [->|]; [done|]. by rewrite orb_false_r.
Qed.

(** ** Probes *)

(** Every bit of [a] is a bit of [b]. *)
Definition sub_bits (a b : text) : Prop :=
  length a = length b
  /\ forall q, 0 <= q < 8 * Z.of_nat (length a) -> get_bit a q = true -> get_bit b q = true.

#[export] Instance sub_bits_preorder : PreOrder sub_bits.
Proof.
  split; [by split|]. intros a b c [E1 H1] [E2 H2]. split; [congruence|].
  intros q Hq Ha. apply H2; [by rewrite <- E1|]. by apply H1.
Qed.

Lemma sub_bits_set array p : 0 <= p -> sub_bits array (set_bit array p).
Proof.
  intros Hp. split; [by rewrite set_bit_length|]. intros q Hq E. by rewrite get_set_bit, E.
Qed.

Lemma sub_bits_probes k h delta bits array : 0 < bits -> sub_bits array (set_probes k h delta bits array).
Proof.
  intros Hb. revert h array. induction k as [|k IH]; intros h array; [done|]. cbn [set_probes].
  etrans; [apply (sub_bits_set array (h mod bits)), Z.mod_pos_bound, Hb|apply IH].
Qed.

Lemma all_probes_mono k h delta bits a b : 0 < bits <= 8 * Z.of_nat (length a) -> sub_bits a b ->
  all_probes k h delta bits a = true -> all_probes k h delta bits b = true.
Proof.
  intros Hb [El Hab]. revert h. induction k as [|k IH]; intros h; [done|]. cbn [all_probes].
  pose proof (Z.mod_pos_bound h bits ltac:(lia)).
  destruct (get_bit a (h mod bits)) eqn:E; [|done]. rewrite Hab by (done || lia). apply IH.
Qed.

Lemma probes_set k h delta bits array : 0 < bits <= 8 * Z.of_nat (length array) ->
  all_probes k h delta bits (set_probes k h delta bits array) = true.
Proof.
  intros Hb. revert h array Hb. induction k as [|k IH]; intros h array Hb; [done|].
  cbn [set_probes all_probes]. pose proof (Z.mod_pos_bound h bits ltac:(lia)) as Hm.
  destruct (sub_bits_probes k (u32 (h + delta)) delta bits (set_bit array (h mod bits))) as [_ Hs]; [lia|].
  rewrite set_bit_length in Hs.
  rewrite Hs; [|lia|by rewrite get_set_bit, Z.eqb_refl, orb_true_r by lia].
  apply IH. by rewrite set_bit_length.
Qed.

Definition probed (k bits : Z) (array key : text) : bool :=
  all_probes (Z.to_nat k) (BloomHash key) (rotate17 (BloomHash key)) bits array.

Lemma sub_bits_keys k bits keys array : 0 < bits -> sub_bits array (foldl (add_key k bits) array keys).
Proof.
  intros Hb. revert array. induction keys as [|key keys IH]; intros array; [done|]. cbn [foldl].
  etrans; [by apply sub_bits_probes|apply IH].
Qed.

Lemma keys_probed k bits keys array key : 0 < bits <= 8 * Z.of_nat (length array) -> key ∈ keys ->
  probed k bits (foldl (add_key k bits) array keys) key = true.
Proof.
  intros Hb Hk. revert array Hb. induction keys as [|x keys IH]; intros array Hb.
  { by apply elem_of_nil in Hk. }
  cbn [foldl]. destruct (sub_bits_probes (Z.to_nat k) (BloomHash x) (rotate17 (BloomHash x)) bits array)
    as [El _]; [lia|].
  apply elem_of_cons in Hk as [->|Hk].
  - apply (all_probes_mono _ _ _ _ (add_key k bits array x)).
    + unfold add_key. by rewrite <- El.
    + apply sub_bits_keys. lia.
    + by apply probes_set.
  - apply IH; [done|]. unfold add_key. by rewrite <- El.
Qed.

(** The byte after the array is not part of it. *)
Lemma probed_snoc k bits array c key : 0 < bits <= 8 * Z.of_nat (length array) ->
  probed k bits (array ++ [c]) key = probed k bits array key.
Proof.
  intros Hb. unfold probed. generalize (BloomHash key) at 1 3 as h.
  generalize (rotate17 (BloomHash key)) as delta. intros delta h. revert h.
  induction (Z.to_nat k) as [|n IH]; intros h; [done|]. cbn [all_probes].
  assert (get_bit (array ++ [c]) (h mod bits) = get_bit array (h mod bits)) as ->.
  { unfold get_bit. pose proof (Z.mod_pos_bound h bits ltac:(lia)).
    rewrite lookup_app_l by (apply bit_index; lia). done. }
  destruct (get_bit array _); [apply IH|done].
Qed.

Lemma probes_range n : 1 <= k_ (new_BloomFilterPolicy n) <= 30.
Proof. unfold new_BloomFilterPolicy. simpl. repeat case_match; lia. Qed.

Lemma bloom_match n keys key : key ∈ keys ->
  Z.of_nat (length keys) * bits_per_key_ (new_BloomFilterPolicy n) < 2 ^ 64 - 8 ->
  KeyMayMatch key (CreateFilter (new_BloomFilterPolicy n) keys []) = true.
Proof.
  intros Hk Hn. unfold CreateFilter. cbn [app].
  set (p := new_BloomFilterPolicy n) in *. pose proof (probes_range n) as Hp. fold p in Hp.
  assert (0 <= bits_per_key_ p) by (apply Z.mod_pos_bound; lia).
  assert (8 <= filter_bytes p (Z.of_nat (length keys))) as Hb.
  { unfold filter_bytes, u64. change (2 ^ 64 - 8) with 18446744073709551608 in Hn.
    assert (0 <= Z.of_nat (length keys) * bits_per_key_ p) by (apply Z.mul_nonneg_nonneg; lia).
    rewrite (Z.mod_small (Z.of_nat (length keys) * bits_per_key_ p)) by lia.
    destruct (Z.ltb_spec (Z.of_nat (length keys) * bits_per_key_ p) 64);
      (rewrite Z.mod_small by lia); apply Z.div_le_lower_bound; lia. }
  set (bytes := filter_bytes p _) in *.
  set (arr := foldl _ _ keys).
  assert (Z.of_nat (length arr) = bytes) as El.
  { destruct (sub_bits_keys (k_ p) (bytes * 8) keys (replicate (Z.to_nat bytes) (byte 0))) as [E _]; [lia|].
    fold arr in E. rewrite <- E, length_replicate. lia. }
  unfold KeyMayMatch. rewrite length_app, Nat2Z.inj_add, El. change (Z.of_nat (length [byte (k_ p)])) with 1.
  destruct (Z.ltb_spec (bytes + 1) 2); [lia|]. rewrite last_snoc. cbn [from_option id].
  rewrite byte_val_byte, Z.mod_small by lia. destruct (Z.ltb_spec 30 (k_ p)); [lia|].
  replace ((bytes + 1 - 1) * 8) with (bytes * 8) by lia.
  change (probed (k_ p) (bytes * 8) (arr ++ [byte (k_ p)]) key = true).
  rewrite probed_snoc by lia. apply keys_probed; [|done]. rewrite length_replicate. lia.
Qed.

(** C38. The Bloom filter has no false negatives: for every parameter and every set of
    keys (whose filter is shorter than 2^61 bytes), each key matches the filter
    built from the set, whatever the filter is appended to. *)
Theorem bloom_no_false_negatives n keys dst key : key ∈ keys ->
  Z.of_nat (length keys) * bits_per_key_ (new_BloomFilterPolicy n) < 2 ^ 64 - 8 ->
  KeyMayMatch key (drop (length dst) (CreateFilter (new_BloomFilterPolicy n) keys dst)) = true.
Proof.
  intros Hk Hn. pose proof (bloom_match n keys key Hk Hn) as E. unfold CreateFilter in *. cbn [app] in E.
  by rewrite drop_app_length.
Qed.

Lemma bloom_no_false_negatives_witness :
  KeyMayMatch (L "hello") (drop (length (L "xy"))
    (CreateFilter (new_BloomFilterPolicy 10) [L "hello"; L "world"] (L "xy"))) = true
  /\ KeyMayMatch (L "foo") (CreateFilter (new_BloomFilterPolicy 10) [L "hello"; L "world"] []) = false.
Proof.
  split; [|by vm_compute]. apply (bloom_no_false_negatives 10); [apply list_elem_of_here|by vm_compute].
Defined.
