(* ===== verification/Dbformat.v ===== *)
(** * Dbformat: the order of keys and the format of internal keys

    [src/leveldb/util/comparator.cc] (the bytewise order and its separators),
    [Slice::compare] of [src/leveldb/include/leveldb/slice.h] and
    [src/leveldb/db/dbformat.h], [src/leveldb/db/dbformat.cc] (internal keys: a user
    key, a sequence number and the kind of the entry, ordered by increasing user key
    and decreasing sequence number).  A three-way comparison returns Rocq's
    [comparison]: the sign of the source's [int]. *)

From S2P Require Import Prelude Text Doubles Coding Bloom.

(** ** [Slice::compare] *)

(** [memcmp] on two blocks of the same size, as unsigned bytes. *)
Fixpoint memcmp (a b : text) : comparison :=
  match a, b with
  | x :: a', y :: b' =>
    match byte_val x ?= byte_val y with Eq => memcmp a' b' | r => r end
  | _, _ => Eq
  end.

Definition slice_compare (a b : text) : comparison :=
  let min_len := if (length a <? length b)%nat then length a else length b in
  match memcmp (take min_len a) (take min_len b) with
  | Eq => if (length a <? length b)%nat then Lt else if (length b <? length a)%nat then Gt else Eq
  | r => r
  end.

(** ** [BytewiseComparatorImpl] *)

(** The loop that finds the length of the common prefix. *)
Fixpoint diff_index (start limit : text) : nat :=
  match start, limit with
  | x :: s', y :: l' => if bool_decide (x = y) then S (diff_index s' l') else O
  | _, _ => O
  end.

Definition FindShortestSeparator (start limit : text) : text :=
  let i := diff_index start limit in
  match start !! i, limit !! i with
  | Some s, Some l =>
    if (byte_val s <? 255) && (byte_val s + 1 <? byte_val l)
    then take i start ++ [byte (byte_val s + 1)] else start
  | _, _ => start
  end.

Fixpoint FindShortSuccessor (key : text) : text :=
  match key with
  | [] => []
  | c :: key' => if byte_val c =? 255 then c :: FindShortSuccessor key' else [byte (byte_val c + 1)]
  end.

(** ** Internal keys *)

Inductive ValueType := kTypeDeletion | kTypeValue.
Definition type_tag (t : ValueType) : Z := match t with kTypeDeletion => 0 | kTypeValue => 1 end.
Definition kValueTypeForSeek : ValueType := kTypeValue.
Definition kMaxSequenceNumber : Z := Z.shiftl 1 56 - 1.

Record ParsedInternalKey := mkKey { user_key : text; sequence : Z; key_type : ValueType }.

Definition PackSequenceAndType (seq : Z) (t : ValueType) : Z := Z.lor (u64 (Z.shiftl seq 8)) (type_tag t).

Definition AppendInternalKey (result : text) (key : ParsedInternalKey) : text :=
  PutFixed64 (result ++ user_key key) (PackSequenceAndType (sequence key) (key_type key)).

(** The last eight bytes of a key. *)
Definition tag_of (internal_key : text) : Z :=
  default 0 (DecodeFixed64 (drop (length internal_key - 8) internal_key)).

Definition ExtractUserKey (internal_key : text) : text := take (length internal_key - 8) internal_key.

Definition ParseInternalKey (internal_key : text) : option ParsedInternalKey :=
  if (length internal_key <? 8)%nat then None
  else
    let num := tag_of internal_key in
    let c := Z.land num 255 in
    let key t := mkKey (ExtractUserKey internal_key) (Z.shiftr num 8) t in
    if c =? 0 then Some (key kTypeDeletion) else if c =? 1 then Some (key kTypeValue) else None.

(** [InternalKeyComparator::Compare] over the bytewise comparator. *)
Definition internal_compare (akey bkey : text) : comparison :=
  match slice_compare (ExtractUserKey akey) (ExtractUserKey bkey) with
  | Eq =>
    let anum := tag_of akey in let bnum := tag_of bkey in
    if bnum <? anum then Lt else if anum <? bnum then Gt else Eq
  | r => r
  end.

Definition seek_tag : Z := PackSequenceAndType kMaxSequenceNumber kValueTypeForSeek.

(** [InternalKeyComparator::FindShortestSeparator], [FindShortSuccessor] *)
Definition InternalFindShortestSeparator (start limit : text) : text :=
  let user_start := ExtractUserKey start in
  let user_limit := ExtractUserKey limit in
  let tmp := FindShortestSeparator user_start user_limit in
  if (length tmp <? length user_start)%nat && bool_decide (slice_compare user_start tmp = Lt)
  then PutFixed64 tmp seek_tag else start.

Definition InternalFindShortSuccessor (key : text) : text :=
  let user_key := ExtractUserKey key in
  let tmp := FindShortSuccessor user_key in
  if (length tmp <? length user_key)%nat && bool_decide (slice_compare user_key tmp = Lt)
  then PutFixed64 tmp seek_tag else key.

(** [InternalFilterPolicy] *)
Definition InternalCreateFilter (p : BloomFilterPolicy) (keys : list text) (dst : text) : text :=
  CreateFilter p (ExtractUserKey <$> keys) dst.

Definition InternalKeyMayMatch (key f : text) : bool := KeyMayMatch (ExtractUserKey key) f.

(** ** [LookupKey] *)

Record LookupKey := mkLookupKey { klength : text; kstart : text }.

Definition new_LookupKey (user_key : text) (s : Z) : LookupKey :=
  mkLookupKey (EncodeVarint32 (u32 (Z.of_nat (length user_key) + 8)))
    (user_key ++ EncodeFixed64 (PackSequenceAndType s kValueTypeForSeek)).

Definition memtable_key (k : LookupKey) : text := klength k ++ kstart k.
Definition internal_key (k : LookupKey) : text := kstart k.
Definition lookup_user_key (k : LookupKey) : text := take (length (kstart k) - 8) (kstart k).

(** ** The lexicographic order *)

Fixpoint lex (a b : text) : comparison :=
  match a, b with
  | [], [] => Eq
  | [], _ :: _ => Lt
  | _ :: _, [] => Gt
  | x :: a', y :: b' => match byte_val x ?= byte_val y with Eq => lex a' b' | r => r end
  end.

Lemma slice_compare_lex a b : slice_compare a b = lex a b.
Proof.
  revert b. induction a as [|x a IH]; intros [|y b]; [done..|]. specialize (IH b).
  unfold slice_compare in *. simpl length. change (S (length a) <? S (length b))%nat with
    (length a <? length b)%nat. change (S (length b) <? S (length a))%nat with (length b <? length a)%nat.
  assert ((if (length a <? length b)%nat then S (length a) else S (length b))
    = S (if (length a <? length b)%nat then length a else length b)) as -> by (by destruct (_ <? _)%nat).
  cbn [take memcmp lex]. destruct (byte_val x ?= byte_val y); [exact IH|done..].
Qed.

Lemma lex_refl a : lex a a = Eq.
Proof. induction a as [|x a IH]; [done|]. simpl. by rewrite Z.compare_refl. Qed.

Lemma lex_eq a b : lex a b = Eq <-> a = b.
Proof.
  split; [|intros ->; apply lex_refl]. revert b.
  induction a as [|x a IH]; intros [|y b]; simpl; [done..|].
  destruct (Z.compare_spec (byte_val x) (byte_val y)) as [E| |]; [|done..].
  intros H. apply (inj byte_val) in E as ->. f_equal. auto.
Qed.

Lemma lex_antisym a b : lex b a = CompOpp (lex a b).
Proof.
  revert b. induction a as [|x a IH]; intros [|y b]; simpl; [done..|].
  rewrite Z.compare_antisym. by destruct (byte_val x ?= byte_val y); simpl.
Qed.

Lemma lex_trans a b c : lex a b = Lt -> lex b c = Lt -> lex a c = Lt.
Proof.
  revert b c. induction a as [|x a IH]; intros [|y b] [|z c]; simpl; try done.
  destruct (Z.compare_spec (byte_val x) (byte_val y)) as [E1|E1|E1]; try done;
    destruct (Z.compare_spec (byte_val y) (byte_val z)) as [E2|E2|E2]; try done; intros H1 H2;
    destruct (Z.compare_spec (byte_val x) (byte_val z)) as [E3|E3|E3]; try done; try lia; eauto.
Qed.

Lemma lex_app p a b : lex (p ++ a) (p ++ b) = lex a b.
Proof. induction p as [|x p IH]; [done|]. simpl. by rewrite Z.compare_refl. Qed.

Lemma lex_head p x y a b : byte_val x < byte_val y -> lex (p ++ x :: a) (p ++ y :: b) = Lt.
Proof. intros H. rewrite lex_app. simpl. by rewrite (proj2 (Z.compare_lt_iff _ _) H). Qed.

(** ** Separators *)

Lemma diff_index_spec start limit s l :
  start !! diff_index start limit = Some s -> limit !! diff_index start limit = Some l ->
  let p := take (diff_index start limit) start in
  exists r1 r2, start = p ++ s :: r1 /\ limit = p ++ l :: r2.
Proof.
  revert limit. induction start as [|x start IH]; intros [|y limit]; cbn [diff_index]; try done.
  case_bool_decide as E; simpl.
  - intros H1 H2. destruct (IH limit H1 H2) as (r1 & r2 & E1 & E2). exists r1, r2.
    subst y. split; by f_equal.
  - intros [= ->] [= ->]. eauto.
Qed.

Lemma separator_cases start limit :
  FindShortestSeparator start limit = start \/
  exists p s l r1 r2, start = p ++ s :: r1 /\ limit = p ++ l :: r2
    /\ byte_val s + 1 < byte_val l
    /\ FindShortestSeparator start limit = p ++ [byte (byte_val s + 1)].
Proof.
  unfold FindShortestSeparator. destruct (start !! _) as [s|] eqn:Es; [|by left].
  destruct (limit !! _) as [l|] eqn:El; [|by left].
  destruct (_ && _) eqn:Eb; [right|by left].
  destruct (diff_index_spec start limit s l Es El) as (r1 & r2 & E1 & E2).
  exists (take (diff_index start limit) start), s, l, r1, r2. split; [exact E1|]. split; [exact E2|].
  split; [lia|done].
Qed.

Lemma byte_succ c d : byte_val c + 1 < byte_val d -> byte_val (byte (byte_val c + 1)) = byte_val c + 1.
Proof.
  intros H. pose proof (byte_val_bound c). pose proof (byte_val_bound d).
  rewrite byte_val_byte. apply Z.mod_small. lia.
Qed.

Lemma separator_spec start limit : lex start limit = Lt ->
  let r := FindShortestSeparator start limit in
  (lex start r = Lt \/ r = start) /\ lex r limit = Lt /\ (length r <= length start)%nat.
Proof.
  intros Hlt. destruct (separator_cases start limit) as [->|(p & s & l & r1 & r2 & E1 & E2 & Hb & ->)].
  { split; [by right|]. split; [done|lia]. }
  pose proof (byte_succ s l Hb) as Hs. rewrite E1, E2. split_and!.
  - left. apply lex_head. lia.
  - apply lex_head. lia.
  - rewrite !length_app. simpl. lia.
Qed.

Lemma successor_spec key : slice_compare key (FindShortSuccessor key) <> Gt
  /\ (length (FindShortSuccessor key) <= length key)%nat.
Proof.
  rewrite slice_compare_lex. induction key as [|c l [IH IHl]]; [done|]. cbn [FindShortSuccessor].
  pose proof (byte_val_bound c). destruct (Z.eqb_spec (byte_val c) 255); simpl.
  - rewrite Z.compare_refl. split; [done|lia].
  - rewrite byte_val_byte, Z.mod_small by lia. rewrite (proj2 (Z.compare_lt_iff _ _)) by lia. split; [done|lia].
Qed.

(** Index keys between blocks: the shortest separator of [start < limit] is at
    least [start], below [limit] and no longer than [start]; the short successor of a
    key is at least the key and no longer. *)
Theorem separators_between start limit : slice_compare start limit = Lt ->
  let r := FindShortestSeparator start limit in
  let t := FindShortSuccessor start in
  slice_compare start r <> Gt /\ slice_compare r limit = Lt /\ (length r <= length start)%nat
  /\ slice_compare start t <> Gt /\ (length t <= length start)%nat.
Proof.
  rewrite slice_compare_lex. intros Hlt r t. rewrite !slice_compare_lex.
  destruct (separator_spec start limit Hlt) as (H1 & H2 & H3). fold r in H1, H2, H3.
  split_and!; [|done|done|..].
  - destruct H1 as [-> | ->]; [done|by rewrite lex_refl].
  - rewrite <- slice_compare_lex. apply successor_spec.
  - apply successor_spec.
Qed.

Lemma separators_between_witness :
  FindShortestSeparator (L "abcdefg") (L "abzz") = L "abd"
  /\ slice_compare (L "abcdefg") (FindShortestSeparator (L "abcdefg") (L "abzz")) <> Gt
  /\ FindShortSuccessor (L "abcdefg") = L "b".
Proof.
  split; [reflexivity|]. split; [|reflexivity]. apply (separators_between (L "abcdefg") (L "abzz")).
  reflexivity.
Defined.

(** ** Encoded keys *)

Definition key_ok (k : ParsedInternalKey) : Prop := 0 <= sequence k <= kMaxSequenceNumber.

Lemma pack_spec seq t : 0 <= seq <= kMaxSequenceNumber ->
  PackSequenceAndType seq t = seq * 256 + type_tag t /\ is_u64 (PackSequenceAndType seq t).
Proof.
  change kMaxSequenceNumber with 72057594037927935. intros Hs. unfold PackSequenceAndType, u64, is_u64.
  assert (Z.lor (Z.shiftl seq 8 mod 18446744073709551616) (type_tag t) = seq * 256 + type_tag t) as E.
  { rewrite Z.mod_small by (rewrite Z.shiftl_mul_pow2 by lia; lia).
    rewrite Z.lor_comm, lor_add by (destruct t; simpl; lia). change (2 ^ 8) with 256. lia. }
  rewrite E. destruct t; cbn [type_tag]; lia.
Qed.

Lemma fixed64_length v : length (EncodeFixed64 v) = 8%nat.
Proof. done. Qed.

(** A user key followed by a tag. *)
Definition tagged (u : text) (n : Z) : text := u ++ EncodeFixed64 n.

Lemma extract_tagged u n : ExtractUserKey (tagged u n) = u.
Proof.
  unfold ExtractUserKey, tagged. rewrite length_app, fixed64_length, Nat.add_sub. apply take_app_length.
Qed.

Lemma tag_tagged u n : is_u64 n -> tag_of (tagged u n) = n.
Proof.
  intros Hn. unfold tag_of, tagged. rewrite length_app, fixed64_length, Nat.add_sub, drop_app_length.
  pose proof (decode_fixed64 n [] Hn) as E. rewrite app_nil_r in E. by rewrite E.
Qed.

Lemma append_tagged k : AppendInternalKey [] k
  = tagged (user_key k) (PackSequenceAndType (sequence k) (key_type k)).
Proof. done. Qed.

(** Internal keys round trip: parsing the encoding of a user key, a sequence
    number and a type returns them, for every sequence number of 56 bits. *)
Theorem internal_key_roundtrip k : key_ok k -> ParseInternalKey (AppendInternalKey [] k) = Some k.
Proof.
  intros Hk. destruct (pack_spec (sequence k) (key_type k) Hk) as [Ep Hp].
  unfold ParseInternalKey. rewrite append_tagged, extract_tagged, tag_tagged by done.
  destruct (Nat.ltb_spec (length (tagged (user_key k) (PackSequenceAndType (sequence k) (key_type k)))) 8)
    as [H|_]; [unfold tagged in H; rewrite length_app, fixed64_length in H; lia|].
  rewrite Ep. change 255 with (Z.ones 8). rewrite Z.land_ones, Z.shiftr_div_pow2 by lia.
  change (2 ^ 8) with 256. assert (0 <= type_tag (key_type k) < 256) by (destruct k as [? ? []]; simpl; lia).
  replace ((sequence k * 256 + type_tag (key_type k)) mod 256) with (type_tag (key_type k))
    by (apply Z.mod_unique with (q := sequence k); lia).
  replace ((sequence k * 256 + type_tag (key_type k)) / 256) with (sequence k)
    by (apply Z.div_unique with (r := type_tag (key_type k)); lia).
  by destruct k as [? ? []].
Qed.

Lemma internal_key_roundtrip_witness :
  ParseInternalKey (AppendInternalKey [] (mkKey (L "foo") 100 kTypeValue))
  = Some (mkKey (L "foo") 100 kTypeValue).
Proof. apply internal_key_roundtrip. by vm_compute. Defined.

(** The order of internal keys on what they encode. *)
Definition key_order (a b : ParsedInternalKey) : comparison :=
  match lex (user_key a) (user_key b) with
  | Eq => match sequence b ?= sequence a with
          | Eq => type_tag (key_type b) ?= type_tag (key_type a)
          | r => r
          end
  | r => r
  end.

Lemma tag_compare x y : (if y <? x then Lt else if x <? y then Gt else Eq) = (y ?= x).
Proof.
  destruct (Z.compare_spec y x); destruct (Z.ltb_spec y x), (Z.ltb_spec x y); done || lia.
Qed.

(** The internal comparator implements its specification: encoded keys are ordered
    by increasing user key, then decreasing sequence number, then decreasing type. *)
Theorem internal_compare_order a b : key_ok a -> key_ok b ->
  internal_compare (AppendInternalKey [] a) (AppendInternalKey [] b) = key_order a b.
Proof.
  intros Ha Hb. destruct (pack_spec (sequence a) (key_type a) Ha) as [Ea Pa].
  destruct (pack_spec (sequence b) (key_type b) Hb) as [Eb Pb].
  unfold internal_compare, key_order. rewrite !append_tagged, !extract_tagged, !tag_tagged by done.
  rewrite slice_compare_lex, Ea, Eb. destruct (lex _ _); [|done..]. rewrite tag_compare.
  assert (0 <= type_tag (key_type a) <= 1) by (destruct (key_type a); simpl; lia).
  assert (0 <= type_tag (key_type b) <= 1) by (destruct (key_type b); simpl; lia).
  destruct (Z.compare_spec (sequence b) (sequence a)) as [E|E|E].
  - rewrite E. destruct (Z.compare_spec (type_tag (key_type b)) (type_tag (key_type a))) as [F|F|F].
    + rewrite F. apply Z.compare_refl.
    + apply Z.compare_lt_iff. lia.
    + apply Z.compare_gt_iff. lia.
  - apply Z.compare_lt_iff. lia.
  - apply Z.compare_gt_iff. lia.
Qed.

Lemma internal_compare_order_witness :
  internal_compare (AppendInternalKey [] (mkKey (L "a") 7 kTypeValue))
    (AppendInternalKey [] (mkKey (L "a") 3 kTypeDeletion)) = Lt.
Proof.
  pose proof (internal_compare_order (mkKey (L "a") 7 kTypeValue) (mkKey (L "a") 3 kTypeDeletion)
    ltac:(by vm_compute) ltac:(by vm_compute)) as E.
  rewrite E. reflexivity.
Defined.

Lemma internal_compare_tagged u v m n : is_u64 m -> is_u64 n ->
  internal_compare (tagged u m) (tagged v n) = match lex u v with Eq => n ?= m | r => r end.
Proof.
  intros Hm Hn. unfold internal_compare. rewrite !extract_tagged, !tag_tagged by done.
  rewrite slice_compare_lex. destruct (lex u v); [apply tag_compare|done..].
Qed.

(** The internal comparator is an order. *)
Lemma internal_antisym a b : internal_compare b a = CompOpp (internal_compare a b).
Proof.
  unfold internal_compare. rewrite !slice_compare_lex, lex_antisym, !tag_compare.
  destruct (lex (ExtractUserKey a) (ExtractUserKey b)); simpl; [|done..]. apply Z.compare_antisym.
Qed.

Lemma internal_trans a b c : internal_compare a b = Lt -> internal_compare b c = Lt ->
  internal_compare a c = Lt.
Proof.
  unfold internal_compare. rewrite !slice_compare_lex, !tag_compare.
  set (x := ExtractUserKey a). set (y := ExtractUserKey b). set (z := ExtractUserKey c).
  destruct (lex x y) eqn:E1; [|..|done].
  - apply lex_eq in E1 as ->. destruct (lex y z); [|done..].
    rewrite !Z.compare_lt_iff. lia.
  - intros _. destruct (lex y z) eqn:E2; [|..|done].
    + apply lex_eq in E2 as <-. by rewrite E1.
    + by rewrite (lex_trans x y z).
Qed.

Lemma internal_eq_l a b c : internal_compare a b = Eq -> internal_compare a c = internal_compare b c.
Proof.
  unfold internal_compare. rewrite !slice_compare_lex, !tag_compare.
  destruct (lex (ExtractUserKey a) (ExtractUserKey b)) eqn:E; [|done..].
  apply lex_eq in E as ->. intros E%Z.compare_eq. by rewrite E.
Qed.

Lemma seek_tag_u64 : is_u64 seek_tag.
Proof. apply pack_spec. by vm_compute. Qed.

Lemma internal_separator_spec u v m n : is_u64 m -> is_u64 n -> internal_compare (tagged u m) (tagged v n) = Lt ->
  let r := InternalFindShortestSeparator (tagged u m) (tagged v n) in
  r = tagged u m
  \/ exists t, r = tagged t seek_tag /\ lex u t = Lt /\ lex t v = Lt /\ (length t < length u)%nat.
Proof.
  intros Hm Hn Hlt. unfold InternalFindShortestSeparator, PutFixed64. rewrite !extract_tagged, slice_compare_lex.
  destruct (_ && _) eqn:E; [right|by left]. apply andb_true_iff in E as [El%Nat.ltb_lt E%bool_decide_eq_true].
  exists (FindShortestSeparator u v). split_and!; [done..| |done].
  rewrite internal_compare_tagged in Hlt by done.
  destruct (lex u v) eqn:Eu; [|by destruct (separator_spec _ _ Eu) as (_ & -> & _)|done].
  apply lex_eq in Eu. destruct (separator_cases u v) as [Es|(p & s & l & r1 & r2 & E1 & E2 & Hs & _)]; [rewrite Es in El; lia|].
  rewrite <- Eu, E1 in E2. apply app_inv_head in E2. injection E2 as -> _. lia.
Qed.

Lemma internal_successor_spec u m : let r := InternalFindShortSuccessor (tagged u m) in
  r = tagged u m \/ exists t, r = tagged t seek_tag /\ lex u t = Lt /\ (length t < length u)%nat.
Proof.
  unfold InternalFindShortSuccessor, PutFixed64. rewrite !extract_tagged, slice_compare_lex.
  destruct (_ && _) eqn:E; [right|by left]. apply andb_true_iff in E as [El%Nat.ltb_lt E%bool_decide_eq_true].
  by exists (FindShortSuccessor u).
Qed.

(** C37. The separators of internal keys keep the promises asserted in the source: for
    encoded keys [start < limit], the separator is at least [start] and below
    [limit], and the successor is at least the key. *)
Theorem internal_separators a b : key_ok a -> key_ok b ->
  let start := AppendInternalKey [] a in
  let limit := AppendInternalKey [] b in
  internal_compare start limit = Lt ->
  let r := InternalFindShortestSeparator start limit in
  let t := InternalFindShortSuccessor start in
  internal_compare start r <> Gt /\ internal_compare r limit = Lt /\ internal_compare start t <> Gt.
Proof.
  intros Ha Hb start limit Hlt r t. subst start limit r t.
  destruct (pack_spec _ (key_type a) Ha) as [_ Pa]. destruct (pack_spec _ (key_type b) Hb) as [_ Pb]. rewrite !append_tagged in *.
  assert (Hrefl : forall u m, is_u64 m -> internal_compare (tagged u m) (tagged u m) = Eq)
    by (intros u m Hm; by rewrite internal_compare_tagged, lex_refl, Z.compare_refl).
  pose proof seek_tag_u64. split; [|split].
  - destruct (internal_separator_spec _ _ _ _ Pa Pb Hlt) as [->|(t & -> & Hut & _)]; [by rewrite Hrefl|].
    by rewrite internal_compare_tagged, Hut.
  - destruct (internal_separator_spec _ _ _ _ Pa Pb Hlt) as [->|(t & -> & _ & Htv & _)]; [done|].
    by rewrite internal_compare_tagged, Htv.
  - destruct (internal_successor_spec (user_key a) (PackSequenceAndType (sequence a) (key_type a))) as [->|(t & -> & Hut & _)];
      [by rewrite Hrefl|]. by rewrite internal_compare_tagged, Hut.
Qed.

Lemma internal_separators_witness :
  let start := AppendInternalKey [] (mkKey (L "abcdef") 9 kTypeValue) in
  let limit := AppendInternalKey [] (mkKey (L "axy") 4 kTypeValue) in
  internal_compare start (InternalFindShortestSeparator start limit) <> Gt
  /\ InternalFindShortestSeparator start limit = L "ac" ++ EncodeFixed64 seek_tag.
Proof.
  split; [|by vm_compute].
  apply (internal_separators (mkKey (L "abcdef") 9 kTypeValue) (mkKey (L "axy") 4 kTypeValue)); by vm_compute.
Defined.

(** ** Lookup keys *)

Lemma lookup_key_parts u s : let k := new_LookupKey u s in
  internal_key k = AppendInternalKey [] (mkKey u s kValueTypeForSeek)
  /\ lookup_user_key k = u
  /\ (Z.of_nat (length u) + 8 < 4294967296 ->
      GetLengthPrefixedSlice (memtable_key k) = Some (internal_key k, [])).
Proof.
  intros k. split; [done|]. split.
  - apply (extract_tagged u (PackSequenceAndType s kValueTypeForSeek)).
  - intros Hu. assert (Z.of_nat (length (kstart k)) = Z.of_nat (length u) + 8) as El.
    { simpl. rewrite length_app, fixed64_length. lia. }
    assert (memtable_key k = PutLengthPrefixedSlice [] (kstart k)) as ->.
    { unfold PutLengthPrefixedSlice. rewrite El. done. }
    pose proof (get_length_prefixed (kstart k) [] ltac:(lia)) as E. by rewrite app_nil_r in E.
Qed.
