(* ===== verification/SkipList.v ===== *)
(** * SkipList: the ordered index of the in-memory table

    [src/leveldb/util/random.h] and [src/leveldb/db/skiplist.h].  The nodes live in
    an arena: a node is its number in a list of nodes, the head is node 0, and a
    null pointer is [None].  Every node has an array of links, one per level below
    its height; heights come from the pseudo-random generator of the source.  The
    model is sequential (the source serialises insertions and lets readers run
    against the links published so far).

    The main results: the generator computes the Lehmer recurrence its comment
    announces; every search ends within as many steps as the list has nodes and
    levels; and insertion keeps all levels sorted, so that the list refines a sorted
    sequence of keys. *)

From S2P Require Import Prelude Coding.

(** ** [Random] *)

Definition rnd_M : Z := 2147483647.

Definition new_Random (s : Z) : Z :=
  let seed := Z.land s 2147483647 in
  if (seed =? 0) || (seed =? 2147483647) then 1 else seed.

(** [Random::Next]: the new seed, which is also the result. *)
Definition rnd_Next (seed : Z) : Z :=
  let product := u64 (seed * 16807) in
  let seed := u32 (Z.shiftr product 31 + Z.land product rnd_M) in
  if rnd_M <? seed then u32 (seed - rnd_M) else seed.

Definition Uniform (seed n : Z) : Z * Z := let s := rnd_Next seed in (s mod n, s).
Definition OneIn (seed n : Z) : bool * Z := let s := rnd_Next seed in (s mod n =? 0, s).

Definition seed_ok (seed : Z) : Prop := 1 <= seed < rnd_M.

Lemma land_M z : Z.land z 2147483647 = z mod 2147483648.
Proof. apply (Z.land_ones z 31). lia. Qed.

Lemma new_Random_ok s : seed_ok (new_Random s).
Proof.
  unfold new_Random, seed_ok, rnd_M. rewrite land_M.
  pose proof (Z.mod_pos_bound s 2147483648 ltac:(lia)) as H.
  destruct (_ || _) eqn:E; lia.
Qed.

(** The generator computes [(seed * 16807) mod (2^31 - 1)] with shifts instead of
    a division, and stays in its period: the new seed is again neither 0 nor the
    modulus. *)
Theorem random_next_lehmer seed : seed_ok seed ->
  rnd_Next seed = (seed * 16807) mod rnd_M /\ seed_ok (rnd_Next seed).
Proof.
  unfold seed_ok, rnd_M. intros Hs. unfold rnd_Next, u64, rnd_M.
  rewrite (Z.mod_small (seed * 16807)) by lia.
  rewrite land_M, Z.shiftr_div_pow2 by lia. change (2 ^ 31) with 2147483648. unfold u32.
  assert ((seed * 16807) mod 2147483647 <> 0) as Hne.
  { intros E. apply Z.mod_divide in E; [|lia]. rewrite Z.mul_comm in E.
    apply Z.gauss in E; [|by vm_compute]. apply Z.divide_pos_le in E; lia. }
  set (p := seed * 16807) in *.
  pose proof (Z.div_mod p 2147483648 ltac:(lia)) as Hd.
  pose proof (Z.mod_pos_bound p 2147483648 ltac:(lia)) as Hm.
  set (q := p / 2147483648) in *. set (r := p mod 2147483648) in *.
  assert (0 <= q < 16807) as Hq by (unfold p in *; lia).
  rewrite (Z.mod_small (q + r)) by lia.
  pose proof (Z.mod_pos_bound p 2147483647 ltac:(lia)) as Hb.
  enough ((if 2147483647 <? q + r then (q + r - 2147483647) mod 4294967296 else q + r)
    = p mod 2147483647) as -> by lia.
  destruct (Z.ltb_spec 2147483647 (q + r)).
  - rewrite Z.mod_small by lia. apply Z.mod_unique with (q := q + 1); lia.
  - destruct (Z.eq_dec (q + r) 2147483647) as [E|].
    + destruct Hne. symmetry. apply Z.mod_unique with (q := q + 1); lia.
    + apply Z.mod_unique with (q := q); lia.
Qed.

Lemma random_next_lehmer_witness :
  rnd_Next (new_Random 3735928559) = (new_Random 3735928559 * 16807) mod rnd_M.
Proof. apply random_next_lehmer, new_Random_ok. Defined.

(** ** [SkipList] *)

Definition kMaxHeight : nat := 12.
Definition kBranching : Z := 4.

(** The order of keys a list relies on: a three-way comparison. *)
Class Comparator (K : Type) := compare_ : K -> K -> comparison.

Class ComparatorLaws (K : Type) `{Comparator K} := {
  cmp_antisym a b : compare_ b a = CompOpp (compare_ a b);
  cmp_trans a b c : compare_ a b = Lt -> compare_ b c = Lt -> compare_ a c = Lt;
  cmp_eq_l a b c : compare_ a b = Eq -> compare_ a c = compare_ b c
}.

Section skiplist.
Context {K : Type} `{Comparator K}.

Record Node := mkNode { node_key : K; next_ : list (option nat) }.

Record SkipList := mkSkipList {
  nodes : list Node;
  max_height_ : nat;
  rnd_ : Z
}.

Definition head_ : nat := 0.

(** [Node::Next]; a link past the height of the node does not exist. *)
Definition Next (s : SkipList) (x : nat) (level : nat) : option nat :=
  match nodes s !! x with
  | Some n => match next_ n !! level with Some p => p | None => None end
  | None => None
  end.

Definition SetNext (s : SkipList) (x level : nat) (p : option nat) : SkipList :=
  mkSkipList (alter (fun n => mkNode (node_key n) (<[level := p]> (next_ n))) x (nodes s))
    (max_height_ s) (rnd_ s).

(** The head's key is any key. *)
Definition new_SkipList (any : K) : SkipList :=
  mkSkipList [mkNode any (replicate kMaxHeight None)] 1 (new_Random 3735928559).

(** [RandomHeight]: at most [kMaxHeight] rounds. *)
Fixpoint height_loop (fuel height : nat) (seed : Z) : nat * Z :=
  match fuel with
  | O => (height, seed)
  | S k =>
    if (height <? kMaxHeight)%nat then
      let '(b, seed) := OneIn seed kBranching in
      if b then height_loop k (S height) seed else (height, seed)
    else (height, seed)
  end.

Definition RandomHeight (seed : Z) : nat * Z := height_loop kMaxHeight 1 seed.

Definition key_of (s : SkipList) (x : nat) : option K := node_key <$> nodes s !! x.

(** [KeyIsAfterNode]: null is considered infinite. *)
Definition KeyIsAfterNode (s : SkipList) (key : K) (n : option nat) : bool :=
  match n ≫= key_of s with
  | Some k => match compare_ k key with Lt => true | _ => false end
  | None => false
  end.

(** The search loop shared by [FindGreaterOrEqual], [FindLessThan] and [FindLast]:
    follow the links of a level while [ahead] accepts the next node, then go one
    level down.  The result is the last node visited, its successor at level 0, and
    the nodes where each level was left, from level 0 up ([prev]).  [None] means out
    of fuel. *)
Fixpoint search (s : SkipList) (ahead : option nat -> bool) (fuel : nat) (x level : nat)
    (prev : list nat) : option (nat * option nat * list nat) :=
  match fuel with
  | O => None
  | S k =>
    let next := Next s x level in
    if ahead next then
      match next with Some y => search s ahead k y level prev | None => None end
    else
      match level with
      | O => Some (x, next, x :: prev)
      | S level' => search s ahead k x level' (x :: prev)
      end
  end.

(** Every step moves to a later node or one level down. *)
Definition search_fuel (s : SkipList) : nat := length (nodes s) + max_height_ s.

Definition run_search (s : SkipList) (ahead : option nat -> bool) :=
  search s ahead (search_fuel s) head_ (max_height_ s - 1) [].

Definition FindGreaterOrEqual (s : SkipList) (key : K) : option (option nat * list nat) :=
  '(_, next, prev) ← run_search s (KeyIsAfterNode s key); Some (next, prev).

(** [next == nullptr || compare_(next->key, key) >= 0] is the negation of
    [KeyIsAfterNode]. *)
Definition FindLessThan (s : SkipList) (key : K) : option nat :=
  '(x, _, _) ← run_search s (KeyIsAfterNode s key); Some x.

Definition FindLast (s : SkipList) : option nat :=
  '(x, _, _) ← run_search s (fun next => bool_decide (is_Some next)); Some x.

(** The loop that links the new node [x] at level [i]. *)
Fixpoint link (x : nat) (prev : list nat) (i : nat) (s : SkipList) : SkipList :=
  match prev with
  | [] => s
  | p :: prev' =>
    link x prev' (S i) (SetNext (SetNext s x i (Next s p i)) p i (Some x))
  end.

Definition Insert (s : SkipList) (key : K) : option SkipList :=
  '(_, prev) ← FindGreaterOrEqual s key;
  let '(height, seed) := RandomHeight (rnd_ s) in
  let prev := prev ++ replicate (height - max_height_ s) head_ in
  let x := length (nodes s) in
  let s := mkSkipList (nodes s ++ [mkNode key (replicate height None)])
             (Nat.max height (max_height_ s)) seed in
  Some (link x (take height prev) 0 s).

Definition Contains (s : SkipList) (key : K) : option bool :=
  '(next, _) ← FindGreaterOrEqual s key;
  Some (match next ≫= key_of s with
        | Some k => match compare_ key k with Eq => true | _ => false end
        | None => false
        end).

(** *** [SkipList::Iterator]: the current node, [None] when not valid. *)

Definition Valid (it : option nat) : bool := bool_decide (is_Some it).
Definition iter_key (s : SkipList) (it : option nat) : option K := it ≫= key_of s.
Definition iter_Next (s : SkipList) (it : option nat) : option nat := x ← it; Next s x 0.
Definition not_head (x : nat) : option nat := if (x =? head_)%nat then None else Some x.
Definition iter_Prev (s : SkipList) (it : option nat) : option (option nat) :=
  k ← iter_key s it; x ← FindLessThan s k; Some (not_head x).
Definition Seek (s : SkipList) (target : K) : option (option nat) :=
  '(next, _) ← FindGreaterOrEqual s target; Some next.
Definition SeekToFirst (s : SkipList) : option nat := Next s head_ 0.
Definition SeekToLast (s : SkipList) : option (option nat) := x ← FindLast s; Some (not_head x).

(** ** The invariant *)

Definition height (s : SkipList) (x : nat) : nat :=
  match nodes s !! x with Some n => length (next_ n) | None => 0 end.

(** The nodes of a list that have a link at level [l]. *)
Definition at_level (s : SkipList) (l : nat) (xs : list nat) : list nat :=
  filter (fun x => (l < height s x)%nat) xs.

(** The links of level [l] follow the list. *)
Fixpoint chain (s : SkipList) (l : nat) (xs : list nat) : Prop :=
  match xs with
  | [] => True
  | x :: xs' => Next s x l = head xs' /\ chain s l xs'
  end.

Definition node_lt (s : SkipList) (x y : nat) : Prop :=
  exists a b, key_of s x = Some a /\ key_of s y = Some b /\ compare_ a b = Lt.

(** [xs] is the sequence of the nodes in order, without the head. *)
Record SkipInv (s : SkipList) (xs : list nat) : Prop := {
  si_nodes : xs ≡ₚ seq 1 (length (nodes s) - 1);
  si_some : (1 <= length (nodes s))%nat;
  si_head : height s head_ = kMaxHeight;
  si_height : forall x, x ∈ xs -> (1 <= height s x <= max_height_ s)%nat;
  si_max : (1 <= max_height_ s <= kMaxHeight)%nat;
  si_sorted : StronglySorted (node_lt s) xs;
  si_chain : forall l, (l < kMaxHeight)%nat -> chain s l (at_level s l (head_ :: xs))
}.

Lemma chain_app s l a b : chain s l (a ++ b) -> chain s l b.
Proof. induction a as [|x a IH]; [done|]. intros [_ Hc]. auto. Qed.

(** ** Searching *)

(** Node [p] is the last of level [l] among the head and [A]. *)
Definition cut (s : SkipList) (A : list nat) (l p : nat) : Prop :=
  exists A1 A2, head_ :: A = A1 ++ p :: A2 /\ (l < height s p)%nat
    /\ Forall (fun y => ~ (l < height s y)%nat) A2.

Section searching.
Context (s : SkipList) (A B : list nat) (ahead : option nat -> bool).
Context (Hinv : SkipInv s (A ++ B)).
Context (HA : forall y, y ∈ A -> ahead (Some y) = true).
Context (HB : forall y, y ∈ B -> ahead (Some y) = false).
Context (HN : ahead None = false).

Lemma later_in x y A1 A2 : head_ :: A = A1 ++ x :: A2 -> y ∈ A2 -> y ∈ A.
Proof.
  intros E Hy. destruct A1 as [|a A1]; simpl in E; injection E as E1 E2.
  - by rewrite E2.
  - rewrite E2. set_solver.
Qed.

Lemma level_split l x A1 A2 : head_ :: A = A1 ++ x :: A2 -> (l < height s x)%nat ->
  at_level s l (head_ :: A ++ B)
  = at_level s l A1 ++ x :: (at_level s l A2 ++ at_level s l B).
Proof.
  intros E Hx. rewrite app_comm_cons, E, <- app_assoc. unfold at_level.
  rewrite filter_app. f_equal. cbn [app]. by rewrite filter_cons_True, filter_app.
Qed.

Lemma next_split l x A1 A2 : (l < kMaxHeight)%nat -> head_ :: A = A1 ++ x :: A2 ->
  (l < height s x)%nat -> Next s x l = head (at_level s l A2 ++ at_level s l B).
Proof.
  intros Hl E Hx. pose proof (si_chain _ _ Hinv l Hl) as Hc.
  rewrite (level_split l x A1 A2 E Hx) in Hc. apply chain_app in Hc. apply Hc.
Qed.

(** At the end of the nodes accepted at a level, the next node is not accepted. *)
Lemma stop_ahead l : ahead (head (at_level s l B)) = false.
Proof.
  destruct (at_level s l B) as [|y ys] eqn:E; [done|]. apply HB.
  assert (y ∈ at_level s l B) as Hy by (rewrite E; apply list_elem_of_here).
  by apply list_elem_of_filter in Hy as [_ ?].
Qed.

Lemma search_spec fuel x level prev A1 A2 :
  head_ :: A = A1 ++ x :: A2 -> (level < height s x)%nat -> (level < max_height_ s)%nat ->
  (length A2 + level < fuel)%nat -> (length prev + S level = max_height_ s)%nat ->
  (forall j p, prev !! j = Some p -> cut s A (S level + j) p) ->
  exists prevs, search s ahead fuel x level prev
      = Some (default head_ (last (head_ :: A)), head B, prevs)
    /\ length prevs = max_height_ s /\ forall l p, prevs !! l = Some p -> cut s A l p.
Proof.
  pose proof (si_max _ _ Hinv) as Hmax.
  revert x level prev A1 A2. induction fuel as [|fuel IH]; intros x level prev A1 A2 E Hx Hlm Hf Hp Hc;
    [lia|]. cbn [search]. rewrite (next_split level x A1 A2) by (done || lia).
  destruct (at_level s level A2) as [|y ys] eqn:El; cbn [app].
  - rewrite stop_ahead. assert (Forall (fun y => ~ (level < height s y)%nat) A2) as Hcut.
    { apply Forall_forall. intros y Hy Hly.
      assert (y ∈ at_level s level A2) as Hin by (by apply list_elem_of_filter).
      rewrite El in Hin. by apply elem_of_nil in Hin. }
    assert (forall j p, (x :: prev) !! j = Some p -> cut s A (level + j) p) as Hc'.
    { intros [|j] p; simpl.
      - intros [= <-]. rewrite Nat.add_0_r. by exists A1, A2.
      - intros Hj. replace (level + S j)%nat with (S level + j)%nat by lia. by apply Hc. }
    destruct level as [|level].
    + assert (A2 = []) as ->.
      { destruct A2 as [|y A2]; [done|]. apply Forall_cons in Hcut as [Hy _].
        assert (y ∈ A) as HyA by (eapply later_in; [exact E|apply list_elem_of_here]).
        destruct (si_height _ _ Hinv y); [set_solver|]. lia. }
      exists (x :: prev). rewrite E, last_snoc. split; [|split; [simpl; lia|exact Hc']].
      f_equal. f_equal. f_equal. unfold at_level. destruct B as [|b B']; [done|].
      rewrite filter_cons_True; [done|]. destruct (si_height _ _ Hinv b); [set_solver|]. lia.
    + apply (IH x level (x :: prev) A1 A2); [done|lia|lia|lia|simpl in *; lia|].
      intros j p Hj. apply Hc' in Hj. by replace (S level + j)%nat with (S level + j)%nat by lia.
  - assert (y ∈ at_level s level A2) as Hy by (rewrite El; apply list_elem_of_here).
    apply list_elem_of_filter in Hy as [Hly Hy]. cbn [head].
    assert (y ∈ A) as HyA by (by eapply later_in).
    rewrite (HA y HyA). apply list_elem_of_split in Hy as (A21 & A22 & ->).
    apply (IH y level prev (A1 ++ x :: A21) A22); [|done|done| |done|done].
    + by rewrite <- app_assoc.
    + rewrite length_app in Hf. simpl in Hf. lia.
Qed.

Lemma run_search_spec : exists prevs,
  run_search s ahead = Some (default head_ (last (head_ :: A)), head B, prevs)
  /\ length prevs = max_height_ s /\ forall l p, prevs !! l = Some p -> cut s A l p.
Proof.
  pose proof (si_max _ _ Hinv) as Hmax. pose proof (si_head _ _ Hinv) as Hh.
  pose proof (si_some _ _ Hinv) as Hs.
  assert (length A <= length (nodes s) - 1)%nat as Hl.
  { pose proof (Permutation_length (si_nodes _ _ Hinv)) as E. rewrite length_app, length_seq in E. lia. }
  apply (search_spec _ head_ _ [] [] A); [done|lia|lia|unfold search_fuel; lia|simpl; lia|done].
Qed.

End searching.

(** ** Links *)

(** What linking does not change. *)
Definition same_nodes (s s' : SkipList) : Prop :=
  length (nodes s') = length (nodes s) /\ max_height_ s' = max_height_ s /\ rnd_ s' = rnd_ s
  /\ (forall x, key_of s' x = key_of s x) /\ (forall x, height s' x = height s x).

#[local] Instance same_nodes_preorder : PreOrder same_nodes.
Proof.
  split; [intros a; by split_and!|]. intros a b c (H1 & H2 & H3 & H4 & H5) (G1 & G2 & G3 & G4 & G5).
  split_and!; [congruence..| |]; intros x; [by rewrite G4|by rewrite G5].
Qed.

Lemma SetNext_same s x l p : same_nodes s (SetNext s x l p).
Proof.
  split_and!; try done.
  - apply length_alter.
  - intros y. unfold key_of, SetNext. simpl. rewrite list_lookup_alter.
    case_decide as E; [subst|done]. by destruct (nodes s !! y).
  - intros y. unfold height, SetNext. simpl. rewrite list_lookup_alter.
    case_decide as E; [subst|done]. destruct (nodes s !! y); [|done]. simpl. apply length_insert.
Qed.

Lemma Next_SetNext s x l p y m : (l < height s x)%nat ->
  Next (SetNext s x l p) y m
  = if decide (y = x /\ m = l) then p else Next s y m.
Proof.
  intros Hl. unfold Next, SetNext, height in *. simpl. rewrite list_lookup_alter.
  destruct (decide (x = y)) as [->|Hne].
  - destruct (nodes s !! y) as [n|]; [|lia]. simpl.
    destruct (decide (m = l)) as [->|Hm].
    + rewrite decide_True by done. by rewrite list_lookup_insert_eq.
    + rewrite decide_False by (by intros [_ ?]). by rewrite list_lookup_insert_ne.
  - by rewrite decide_False by (intros [? _]; congruence).
Qed.

(** All the links after the loop of [Insert]. *)
Lemma link_spec x ps i s : (forall j p, ps !! j = Some p -> p <> x /\ (i + j < height s p)%nat
    /\ (i + j < height s x)%nat) ->
  same_nodes s (link x ps i s) /\
  forall y l, Next (link x ps i s) y l =
    match (if (i <=? l)%nat then ps !! (l - i)%nat else None) with
    | Some p => if decide (y = x) then Next s p l else if decide (y = p) then Some x else Next s y l
    | None => Next s y l
    end.
Proof.
  revert i s. induction ps as [|p ps IH]; intros i s Hps; cbn [link].
  - split; [done|]. intros y l. by destruct (i <=? l)%nat.
  - destruct (Hps 0%nat p eq_refl) as (Hpx & Hp & Hx). rewrite Nat.add_0_r in Hp, Hx.
    set (s1 := SetNext s x i (Next s p i)). set (s2 := SetNext s1 p i (Some x)).
    assert (same_nodes s s1) as Hs1 by apply SetNext_same.
    assert (same_nodes s s2) as Hs2 by (etrans; [exact Hs1|apply SetNext_same]).
    destruct Hs1 as (_ & _ & _ & _ & Hh1). pose proof Hs2 as (_ & _ & _ & _ & Hh2).
    destruct (IH (S i) s2) as [Hs Hn].
    { intros j q Hj. destruct (Hps (S j) q Hj) as (Hq & Hl & Hlx). rewrite !Hh2.
      replace (S i + j)%nat with (i + S j)%nat by lia. done. }
    split; [by etrans|]. intros y l. rewrite Hn.
    assert (forall y l, l <> i -> Next s2 y l = Next s y l) as Hother.
    { intros z m Hm. unfold s2, s1. rewrite Next_SetNext by (by rewrite Hh1).
      rewrite decide_False by (by intros [_ ?]). rewrite Next_SetNext by done.
      by rewrite decide_False by (by intros [_ ?]). }
    destruct (Nat.leb_spec (S i) l) as [Hl|Hl].
    + destruct (Nat.leb_spec i l); [|lia]. replace (l - i)%nat with (S (l - S i)) by lia. cbn [lookup list_lookup].
      destruct (ps !! (l - S i)%nat) as [q|] eqn:Eq; [|by apply Hother; lia].
      by rewrite !Hother by lia.
    + destruct (Nat.leb_spec i l) as [Hil|Hil]; [|by apply Hother; lia].
      assert (l = i) as -> by lia. rewrite Nat.sub_diag. cbn [lookup list_lookup].
      unfold s2, s1. rewrite Next_SetNext by (by rewrite Hh1). rewrite Next_SetNext by done.
      destruct (decide (y = p)) as [->|Hyp].
      * rewrite decide_True by done. rewrite (decide_False (P := p = x)) by done. done.
      * rewrite decide_False by (by intros [? _]).
        destruct (decide (y = x)) as [->|Hyx]; [by rewrite decide_True|].
        by rewrite decide_False by (by intros [? _]).
Qed.

(** ** Heights *)

Lemma height_loop_bound fuel h seed : (1 <= h <= kMaxHeight)%nat ->
  (1 <= (height_loop fuel h seed).1 <= kMaxHeight)%nat.
Proof.
  revert h seed. induction fuel as [|fuel IH]; intros h seed Hh; [done|]. cbn [height_loop].
  destruct (Nat.ltb_spec h kMaxHeight); [|done]. destruct (OneIn seed kBranching) as [[] seed'].
  - apply IH. lia.
  - done.
Qed.

Lemma RandomHeight_bound seed : (1 <= (RandomHeight seed).1 <= kMaxHeight)%nat.
Proof. apply height_loop_bound. unfold kMaxHeight. lia. Qed.

(** ** Insertion *)

Context `{!ComparatorLaws K}.

Lemma split_sorted s xs k : StronglySorted (node_lt s) xs ->
  exists A B, xs = A ++ B
  /\ (forall y, y ∈ A -> KeyIsAfterNode s k (Some y) = true)
  /\ (forall y, y ∈ B -> KeyIsAfterNode s k (Some y) = false).
Proof.
  induction 1 as [|x xs Hs (A & B & -> & HA & HB) Hx].
  { exists [], []. split; [done|]. split; intros y Hy; by apply elem_of_nil in Hy. }
  destruct (KeyIsAfterNode s k (Some x)) eqn:E.
  - exists (x :: A), B. split; [done|]. split; [|done].
    intros y [->|Hy]%elem_of_cons; [done|]. by apply HA.
  - exists [], (x :: A ++ B). split; [done|]. split; [intros y Hy; by apply elem_of_nil in Hy|].
    intros y [->|Hy]%elem_of_cons; [done|]. rewrite Forall_forall in Hx.
    destruct (Hx y Hy) as (a & b & Ea & Eb & Hab). unfold KeyIsAfterNode in *. cbn in *.
    rewrite Ea in E. rewrite Eb. destruct (compare_ b k) eqn:Ek; [done| |done].
    by rewrite (cmp_trans a b k) in E.
Qed.

Lemma node_range s xs x : SkipInv s xs -> x ∈ head_ :: xs -> (x < length (nodes s))%nat.
Proof.
  intros Hi [->|Hx]%elem_of_cons; [pose proof (si_some _ _ Hi); unfold head_; lia|].
  rewrite (si_nodes _ _ Hi) in Hx. apply elem_of_seq in Hx. lia.
Qed.

Lemma nodes_NoDup s xs : SkipInv s xs -> NoDup (head_ :: xs).
Proof.
  intros Hi. apply NoDup_cons. rewrite (si_nodes _ _ Hi). split; [|apply NoDup_seq].
  rewrite elem_of_seq. unfold head_. lia.
Qed.

Lemma chain_ext s s' l L : (forall y, y ∈ L -> Next s' y l = Next s y l) -> chain s l L -> chain s' l L.
Proof.
  induction L as [|x L IH]; [done|]. intros Ho [E Hc]. split.
  - rewrite Ho by set_solver. done.
  - apply IH; [|done]. intros y Hy. apply Ho. set_solver.
Qed.

(** The chain of a level with a new node after [p]. *)
Lemma chain_insert s s' l X p Y n : NoDup (X ++ p :: Y) -> chain s l (X ++ p :: Y) ->
  (forall y, y ∈ X ++ Y -> y <> p -> Next s' y l = Next s y l) ->
  Next s' p l = Some n -> Next s' n l = Next s p l -> chain s' l (X ++ p :: n :: Y).
Proof.
  intros Hnd Hc Ho Hp Hn. induction X as [|x X IH].
  - cbn [app] in *. destruct Hc as [E Hc]. apply NoDup_cons in Hnd as [HpY Hnd].
    cbn [chain head]. split; [done|]. split; [by rewrite Hn|].
    apply (chain_ext s); [|done]. intros y Hy. apply Ho; [set_solver|]. by intros ->.
  - cbn [app] in *. destruct Hc as [E Hc]. apply NoDup_cons in Hnd as [Hx Hnd].
    cbn [chain]. split.
    + rewrite Ho; [|set_solver|set_solver]. rewrite E. by destruct X.
    + apply IH; [done|done|]. intros y Hy. apply Ho. set_solver.
Qed.

Section inserting.
Context (s : SkipList) (A B : list nat) (k : K).
Context (Hinv : SkipInv s (A ++ B)).
Context (HA : forall y, y ∈ A -> KeyIsAfterNode s k (Some y) = true).
Context (HB : forall y, y ∈ B -> KeyIsAfterNode s k (Some y) = false).
Context (Hfresh : forall x a, x ∈ A ++ B -> key_of s x = Some a -> compare_ k a <> Eq).
Context (h : nat) (seed : Z) (Hh : (1 <= h <= kMaxHeight)%nat).

(** The list with the new node allocated. *)
Let n := length (nodes s).
Let s1 := mkSkipList (nodes s ++ [mkNode k (replicate h None)]) (Nat.max h (max_height_ s)) seed.

Lemma alloc_old x : (x < n)%nat -> key_of s1 x = key_of s x /\ height s1 x = height s x
  /\ forall l, Next s1 x l = Next s x l.
Proof.
  intros Hx. assert (nodes s1 !! x = nodes s !! x) as E by (by apply lookup_app_l).
  unfold key_of, height, Next. by rewrite E.
Qed.

Lemma alloc_new : key_of s1 n = Some k /\ height s1 n = h.
Proof.
  assert (nodes s1 !! n = Some (mkNode k (replicate h None))) as E by (by apply list_lookup_middle).
  unfold key_of, height. rewrite E. simpl. by rewrite length_replicate.
Qed.

Lemma cut_range l p : cut s A l p -> p ∈ head_ :: A /\ (p < n)%nat.
Proof.
  intros (A1 & A2 & E & _ & _). assert (p ∈ head_ :: A) as Hp by (rewrite E; set_solver).
  split; [done|]. apply (node_range _ _ _ Hinv). set_solver.
Qed.

(** The nodes the new node is linked after. *)
Definition link_prev (prevs : list nat) : list nat :=
  take h (prevs ++ replicate (h - max_height_ s) head_).

Lemma link_prev_cut prevs l : length prevs = max_height_ s ->
  (forall l p, prevs !! l = Some p -> cut s A l p) ->
  (l < h)%nat -> exists p, link_prev prevs !! l = Some p /\ cut s A l p.
Proof.
  intros Hl Hc Hlt. unfold link_prev. rewrite lookup_take_lt by done.
  destruct (Nat.lt_ge_cases l (max_height_ s)) as [H1|H1].
  - rewrite lookup_app_l by lia. destruct (lookup_lt_is_Some_2 prevs l) as [p Hp]; [lia|]. eauto.
  - rewrite lookup_app_r, lookup_replicate_2 by lia. exists head_. split; [done|].
    exists [], A. split; [done|]. split; [rewrite (si_head _ _ Hinv); lia|].
    apply Forall_forall. intros y Hy. pose proof (si_height _ _ Hinv y ltac:(set_solver)). lia.
Qed.

Context (prevs : list nat) (Hpl : length prevs = max_height_ s).
Context (Hpc : forall l p, prevs !! l = Some p -> cut s A l p).
Let s' := link n (link_prev prevs) 0 s1.

Lemma linked_facts : same_nodes s1 s' /\ forall y l, Next s' y l =
    match link_prev prevs !! l with
    | Some p => if decide (y = n) then Next s p l else if decide (y = p) then Some n else Next s1 y l
    | None => Next s1 y l
    end.
Proof.
  destruct (link_spec n (link_prev prevs) 0 s1) as [Hs Hn].
  - intros j p Hj. assert (j < h)%nat as Hjh.
    { apply lookup_lt_Some in Hj. unfold link_prev in Hj. rewrite length_take in Hj. lia. }
    destruct (link_prev_cut prevs j Hpl Hpc Hjh) as (q & Hq & Hcut).
    rewrite Hj in Hq. injection Hq as <-. destruct (cut_range j p Hcut) as [_ Hpn].
    destruct (alloc_old p Hpn) as (_ & -> & _). destruct alloc_new as [_ ->].
    destruct Hcut as (_ & _ & _ & Hlp & _). simpl. split; [lia|]. by split.
  - split; [exact Hs|]. intros y l. rewrite Hn. cbn [Nat.leb]. rewrite Nat.sub_0_r.
    destruct (link_prev prevs !! l) as [p|] eqn:Ep; [|done].
    assert (l < h)%nat as Hlh.
    { apply lookup_lt_Some in Ep. unfold link_prev in Ep. rewrite length_take in Ep. lia. }
    destruct (link_prev_cut prevs l Hpl Hpc Hlh) as (q & Hq & Hcut).
    rewrite Ep in Hq. injection Hq as <-. destruct (cut_range l p Hcut) as [_ Hpn].
    by destruct (alloc_old p Hpn) as (_ & _ & ->).
Qed.

Lemma linked_old x : x ∈ head_ :: A ++ B -> key_of s' x = key_of s x /\ height s' x = height s x.
Proof.
  intros Hx. destruct linked_facts as [(_ & _ & _ & Hk & He) _]. rewrite Hk, He.
  destruct (alloc_old x) as (-> & -> & _); [by apply (node_range _ _ _ Hinv)|done].
Qed.

Lemma linked_new : key_of s' n = Some k /\ height s' n = h.
Proof. destruct linked_facts as [(_ & _ & _ & Hk & He) _]. rewrite Hk, He. apply alloc_new. Qed.

Lemma linked_level l L : (forall x, x ∈ L -> x ∈ head_ :: A ++ B) -> at_level s' l L = at_level s l L.
Proof.
  intros HL. unfold at_level. induction L as [|x L IH]; [done|]. rewrite !filter_cons.
  destruct (linked_old x) as [_ ->]; [apply HL; set_solver|].
  rewrite IH by (intros; apply HL; set_solver). done.
Qed.

Lemma linked_chain l : (l < kMaxHeight)%nat -> chain s' l (at_level s' l (head_ :: A ++ n :: B)).
Proof.
  intros Hl. pose proof (si_chain _ _ Hinv l Hl) as Hc. destruct linked_facts as [_ Hn].
  pose proof (nodes_NoDup _ _ Hinv) as Hnd.
  assert (at_level s' l (head_ :: A ++ n :: B)
    = at_level s l (head_ :: A) ++ (if decide (l < h)%nat then [n] else []) ++ at_level s l B) as E.
  { rewrite app_comm_cons. unfold at_level at 1. rewrite filter_app. fold (at_level s' l (head_ :: A)).
    rewrite linked_level by set_solver. f_equal. rewrite filter_cons. destruct linked_new as [_ ->].
    fold (at_level s' l B). rewrite linked_level by set_solver. by case_decide. }
  rewrite E. destruct (decide (l < h)%nat) as [Hlh|Hlh].
  - destruct (link_prev_cut prevs l Hpl Hpc Hlh) as (p & Hp & A1 & A2 & Ea & Hlp & Hcut).
    rewrite (level_split s A B l p A1 A2 Ea Hlp) in Hc.
    assert (at_level s l A2 = []) as E2 by (by apply filter_none).
    assert (at_level s l (head_ :: A) = at_level s l A1 ++ [p]) as E1.
    { rewrite Ea. unfold at_level. rewrite filter_app. f_equal. rewrite filter_cons_True by done.
      f_equal. exact E2. }
    rewrite E2 in Hc. rewrite E1, <- app_assoc. cbn [app] in *.
    assert (forall y, y ∈ at_level s l A1 ++ p :: at_level s l B -> y ∈ head_ :: A ++ B) as Hin.
    { intros y Hy. rewrite app_comm_cons, Ea. unfold at_level in Hy.
      rewrite elem_of_app, elem_of_cons, !list_elem_of_filter in Hy. set_solver. }
    eapply chain_insert; [|exact Hc| | |].
    + eapply sublist_NoDup; [exact Hnd|]. rewrite (app_comm_cons A B head_), Ea, <- app_assoc.
      apply sublist_app; [apply sublist_filter|]. apply sublist_skip.
      change (at_level s l B `sublist_of` A2 ++ B). apply sublist_inserts_l, sublist_filter.
    + intros y Hy Hyp. assert (y < n)%nat as Hyn by (apply (node_range _ _ _ Hinv), Hin; set_solver).
      rewrite Hn, Hp. rewrite decide_False by lia. rewrite decide_False by done.
      apply (alloc_old y Hyn).
    + assert (p < n)%nat by (apply (node_range _ _ _ Hinv), Hin; set_solver).
      rewrite Hn, Hp. rewrite decide_False by lia. by rewrite decide_True.
    + rewrite Hn, Hp. by rewrite decide_True.
  - cbn [app]. assert (at_level s l (head_ :: A) ++ at_level s l B = at_level s l (head_ :: A ++ B)) as ->.
    { rewrite app_comm_cons. unfold at_level. by rewrite filter_app. }
    apply (chain_ext s); [|done]. intros y Hy. apply list_elem_of_filter in Hy as [_ Hy].
    assert (link_prev prevs !! l = None) as Ep.
    { apply lookup_ge_None. unfold link_prev. rewrite length_take. lia. }
    rewrite Hn, Ep. apply (alloc_old y), (node_range _ _ _ Hinv), Hy.
Qed.

Lemma node_key_some x : x ∈ head_ :: A ++ B -> exists a, key_of s x = Some a.
Proof.
  intros Hx. destruct (lookup_lt_is_Some_2 (nodes s) x) as [m Hm]; [by apply (node_range _ _ _ Hinv)|].
  exists (node_key m). unfold key_of. by rewrite Hm.
Qed.

Lemma node_lt_old x y : x ∈ A ++ B -> y ∈ A ++ B -> node_lt s x y -> node_lt s' x y.
Proof.
  intros Hx Hy. unfold node_lt. destruct (linked_old x) as [-> _]; [set_solver|].
  destruct (linked_old y) as [-> _]; [set_solver|]. done.
Qed.

Lemma sorted_old L : (forall x, x ∈ L -> x ∈ A ++ B) -> StronglySorted (node_lt s) L ->
  StronglySorted (node_lt s') L.
Proof.
  intros HL. induction 1 as [|x L Hs IH Hx]; constructor.
  - apply IH. intros y Hy. apply HL. set_solver.
  - rewrite Forall_forall in *. intros y Hy. apply node_lt_old; [apply HL; set_solver..|]. by apply Hx.
Qed.

Lemma linked_sorted : StronglySorted (node_lt s') (A ++ n :: B).
Proof.
  pose proof (si_sorted _ _ Hinv) as Hs. apply StronglySorted_app in Hs as (Hab & Hsa & Hsb).
  destruct linked_new as [Hk _].
  apply StronglySorted_app. split; [|split].
  - intros x y Hx Hy. apply elem_of_cons in Hy as [->|Hy];
      [|apply node_lt_old; [set_solver..|by apply Hab]].
    destruct (node_key_some x) as [a Ha]; [set_solver|].
    exists a, k. destruct (linked_old x) as [-> _]; [set_solver|]. split; [done|]. split; [done|].
    pose proof (HA x Hx) as E. unfold KeyIsAfterNode in E. cbn in E. rewrite Ha in E.
    by destruct (compare_ a k).
  - apply sorted_old; [set_solver|done].
  - constructor; [apply sorted_old; [set_solver|done]|]. apply Forall_forall. intros y Hy.
    destruct (node_key_some y) as [a Ha]; [set_solver|].
    exists k, a. destruct (linked_old y) as [-> _]; [set_solver|]. split; [done|]. split; [done|].
    pose proof (HB y Hy) as E. unfold KeyIsAfterNode in E. cbn in E. rewrite Ha in E.
    pose proof (Hfresh y a ltac:(set_solver) Ha) as Hne. rewrite (cmp_antisym k a) in E.
    by destruct (compare_ k a).
Qed.

Lemma linked_inv : SkipInv s' (A ++ n :: B).
Proof.
  destruct linked_facts as [(El & Em & _ & _ & _) _].
  assert (length (nodes s1) = S n) as En by (unfold s1; simpl; rewrite length_app; simpl; unfold n; lia).
  pose proof (si_some _ _ Hinv) as Hn1. fold n in Hn1. pose proof (si_max _ _ Hinv) as Hmax.
  split.
  - rewrite El, En. rewrite <- Permutation_middle. rewrite (si_nodes _ _ Hinv). fold n.
    replace (S n - 1)%nat with (S (n - 1)) by lia. rewrite seq_S.
    replace (1 + (n - 1))%nat with n by lia. rewrite Permutation_app_comm. done.
  - lia.
  - destruct (linked_old head_) as [_ ->]; [set_solver|]. apply (si_head _ _ Hinv).
  - intros x Hx. rewrite Em. change (max_height_ s1) with (Nat.max h (max_height_ s)).
    destruct (decide (x = n)) as [->|Hne].
    + destruct linked_new as [_ ->]. lia.
    + destruct (linked_old x) as [_ ->]; [set_solver|].
      pose proof (si_height _ _ Hinv x ltac:(set_solver)). lia.
  - rewrite Em. simpl. lia.
  - apply linked_sorted.
  - apply linked_chain.
Qed.

End inserting.

Lemma Insert_spec s xs k : SkipInv s xs ->
  (forall x a, x ∈ xs -> key_of s x = Some a -> compare_ k a <> Eq) ->
  exists A B s', xs = A ++ B /\ Insert s k = Some s' /\ SkipInv s' (A ++ length (nodes s) :: B)
    /\ key_of s' (length (nodes s)) = Some k
    /\ (forall x, x ∈ xs -> key_of s' x = key_of s x).
Proof.
  intros Hinv Hf. destruct (split_sorted s xs k (si_sorted _ _ Hinv)) as (A & B & -> & HA & HB).
  destruct (run_search_spec s A B (KeyIsAfterNode s k) Hinv HA HB eq_refl) as (prevs & E & Hpl & Hpc).
  pose proof (RandomHeight_bound (rnd_ s)) as Hh.
  destruct (RandomHeight (rnd_ s)) as [h seed] eqn:Er. simpl in Hh.
  exists A, B. eexists. split; [done|]. split.
  { unfold Insert, FindGreaterOrEqual. rewrite E. cbn [mbind option_bind]. by rewrite Er. }
  fold (link_prev s h prevs). split; [by apply linked_inv|]. split.
  - by eapply linked_new.
  - intros x Hx. apply (linked_old s A B); try done. set_solver.
Qed.

(** ** Contents *)

(** The keys in order. *)
Definition keys_of (s : SkipList) (xs : list nat) : list K := omap (key_of s) xs.

Definition key_lt (a b : K) : Prop := compare_ a b = Lt.

(** The sorted sequence of keys a list stands for. *)
Definition represents (s : SkipList) (ks : list K) : Prop :=
  exists xs, SkipInv s xs /\ keys_of s xs = ks.

Lemma new_SkipList_inv any : SkipInv (new_SkipList any) [].
Proof.
  split; [done|simpl; lia|done|intros x Hx; by apply elem_of_nil in Hx|
          simpl; unfold kMaxHeight; lia|constructor|].
  intros l Hl. unfold at_level. rewrite filter_cons. destruct (decide _); [|done].
  split; [|done]. unfold Next. cbn [nodes new_SkipList lookup list_lookup head_ next_].
  by rewrite lookup_replicate_2.
Qed.

Lemma keys_sorted s xs : SkipInv s xs -> StronglySorted key_lt (keys_of s xs).
Proof.
  intros Hi. pose proof (si_sorted _ _ Hi) as Hs. clear Hi. induction Hs as [|x xs Hs IH Hx]; [constructor|].
  unfold keys_of in *. rewrite omap_cons.
  destruct (key_of s x) as [a|] eqn:Ea; [|done]. constructor; [done|]. apply Forall_forall.
  intros b (y & Hy & Eb)%list_elem_of_omap. rewrite Forall_forall in Hx.
  destruct (Hx y Hy) as (a' & b' & E1 & E2 & Hlt). congruence.
Qed.

(** At level 0 the links follow the whole sequence. *)
Lemma level0 s xs : SkipInv s xs -> chain s 0 (head_ :: xs).
Proof.
  intros Hi. pose proof (si_chain _ _ Hi 0%nat ltac:(unfold kMaxHeight; lia)) as Hc.
  assert (at_level s 0 (head_ :: xs) = head_ :: xs) as E; [|by rewrite E in Hc].
  apply filter_all. constructor; [rewrite (si_head _ _ Hi); unfold kMaxHeight; lia|].
  apply Forall_forall. intros x Hx. pose proof (si_height _ _ Hi x Hx). lia.
Qed.

(** The keys from a position on. *)
Fixpoint scan (s : SkipList) (fuel : nat) (it : option nat) : list K :=
  match fuel with
  | O => []
  | S f => match iter_key s it with Some k => k :: scan s f (iter_Next s it) | None => [] end
  end.

Lemma node_has_key s xs x : SkipInv s xs -> x ∈ xs -> exists a, key_of s x = Some a.
Proof.
  intros Hi Hx. destruct (lookup_lt_is_Some_2 (nodes s) x) as [m Hm];
    [by apply (node_range _ _ _ Hi); set_solver|].
  exists (node_key m). unfold key_of. by rewrite Hm.
Qed.

Lemma scan_from s A B fuel : SkipInv s (A ++ B) -> (length B <= fuel)%nat ->
  scan s fuel (head B) = keys_of s B.
Proof.
  revert A fuel. induction B as [|x B IH]; intros A fuel Hi Hf.
  - by destruct fuel.
  - destruct fuel as [|fuel]; [simpl in Hf; lia|]. cbn [head scan].
    destruct (node_has_key s _ x Hi) as [a Ha]; [set_solver|].
    unfold keys_of. rewrite omap_cons, Ha. cbn [iter_key mbind option_bind]. rewrite Ha. f_equal.
    assert (iter_Next s (Some x) = head B) as ->.
    { pose proof (level0 _ _ Hi) as Hc. rewrite app_comm_cons in Hc. apply chain_app in Hc. apply Hc. }
    apply (IH (A ++ [x])); [by rewrite <- app_assoc|simpl in Hf; lia].
Qed.

Lemma keys_length s xs : SkipInv s xs -> length (keys_of s xs) = length xs.
Proof.
  intros Hi. assert (forall x, x ∈ xs -> exists a, key_of s x = Some a) as Hk
    by (intros; by eapply node_has_key).
  clear Hi. unfold keys_of. induction xs as [|x xs IH]; [done|]. rewrite omap_cons.
  destruct (Hk x) as [a ->]; [set_solver|]. simpl. f_equal. apply IH. set_solver.
Qed.

(** The keys before and from [k] on, when [A] and [B] are the nodes on the two sides. *)
Lemma keys_before s A B k : SkipInv s (A ++ B) ->
  (forall y, y ∈ A -> KeyIsAfterNode s k (Some y) = true) ->
  (forall y, y ∈ B -> KeyIsAfterNode s k (Some y) = false) ->
  keys_of s A = filter (fun b => compare_ b k = Lt) (keys_of s (A ++ B))
  /\ keys_of s B = filter (fun b => compare_ b k <> Lt) (keys_of s (A ++ B)).
Proof.
  intros Hi HA HB. unfold keys_of. rewrite omap_app, !filter_app.
  assert (Forall (fun b => compare_ b k = Lt) (omap (key_of s) A)) as FA.
  { apply Forall_forall. intros b (y & Hy & Eb)%list_elem_of_omap. specialize (HA y Hy).
    unfold KeyIsAfterNode in HA. cbn in HA. rewrite Eb in HA. by destruct (compare_ b k). }
  assert (Forall (fun b => compare_ b k <> Lt) (omap (key_of s) B)) as FB.
  { apply Forall_forall. intros b (y & Hy & Eb)%list_elem_of_omap. specialize (HB y Hy).
    unfold KeyIsAfterNode in HB. cbn in HB. rewrite Eb in HB. by destruct (compare_ b k). }
  rewrite (filter_all _ _ FA), (filter_all _ _ FB).
  rewrite (filter_none (fun b => compare_ b k = Lt) (omap (key_of s) B)) by done.
  rewrite (filter_none (fun b => compare_ b k <> Lt) (omap (key_of s) A)).
  - by rewrite app_nil_r.
  - eapply Forall_impl; [exact FA|]. simpl. tauto.
Qed.

(** ** Refinement of a sorted sequence *)

Fixpoint inserts (s : SkipList) (ks : list K) : option SkipList :=
  match ks with [] => Some s | k :: ks' => s' ← Insert s k; inserts s' ks' end.

(** No key compares equal to an earlier one. *)
Fixpoint distinct (ks : list K) : Prop :=
  match ks with
  | [] => True
  | a :: ks' => Forall (fun b => compare_ b a <> Eq) ks' /\ distinct ks'
  end.

Lemma inserts_spec ks s xs : SkipInv s xs -> distinct ks ->
  Forall (fun b => Forall (fun a => compare_ b a <> Eq) (keys_of s xs)) ks ->
  exists s' xs', inserts s ks = Some s' /\ SkipInv s' xs' /\ keys_of s' xs' ≡ₚ keys_of s xs ++ ks.
Proof.
  revert s xs. induction ks as [|k ks IH]; intros s xs Hi Hd Hf.
  - exists s, xs. by rewrite app_nil_r.
  - destruct Hd as [Hk Hd]. apply Forall_cons in Hf as [Hfk Hf]. rewrite Forall_forall in Hfk.
    destruct (Insert_spec s xs k Hi) as (A & B & s1 & -> & E & Hi1 & Hn & Ho).
    { intros x a Hx Ha. apply Hfk, list_elem_of_omap. eauto. }
    set (n := length (nodes s)) in *.
    assert (keys_of s1 (A ++ n :: B) ≡ₚ k :: keys_of s (A ++ B)) as Ek.
    { unfold keys_of. rewrite !omap_app, omap_cons, Hn, <- Permutation_middle. constructor.
      rewrite (omap_ext_in (key_of s1) (key_of s) A) by (intros; apply Ho; set_solver).
      by rewrite (omap_ext_in (key_of s1) (key_of s) B) by (intros; apply Ho; set_solver). }
    destruct (IH s1 (A ++ n :: B) Hi1 Hd) as (s' & xs' & E' & Hi' & Ek').
    { apply Forall_forall. intros b Hb. rewrite Forall_forall in Hf, Hk. rewrite Ek. constructor.
      - by apply Hk.
      - by apply Hf. }
    exists s', xs'. cbn [inserts]. rewrite E. cbn [mbind option_bind]. split; [done|]. split; [done|].
    rewrite Ek', Ek. cbn [app]. by rewrite Permutation_middle.
Qed.

Lemma search_key s xs k : SkipInv s xs -> exists A B prevs, xs = A ++ B
  /\ (forall y, y ∈ A -> KeyIsAfterNode s k (Some y) = true)
  /\ (forall y, y ∈ B -> KeyIsAfterNode s k (Some y) = false)
  /\ run_search s (KeyIsAfterNode s k) = Some (default head_ (last (head_ :: A)), head B, prevs).
Proof.
  intros Hi. destruct (split_sorted s xs k (si_sorted _ _ Hi)) as (A & B & -> & HA & HB).
  destruct (run_search_spec s A B (KeyIsAfterNode s k) Hi HA HB eq_refl) as (prevs & E & _).
  by exists A, B, prevs.
Qed.

Lemma last_key s A xs : SkipInv s xs -> (forall x, x ∈ A -> x ∈ xs) ->
  iter_key s (not_head (default head_ (last (head_ :: A)))) = last (keys_of s A).
Proof.
  intros Hi HA. induction A as [|x A _] using rev_ind; [done|].
  rewrite app_comm_cons, last_snoc. cbn [from_option id].
  destruct (node_has_key s xs x Hi) as [a Ha]; [set_solver|].
  assert (x <> head_) as Hx.
  { intros ->. pose proof (nodes_NoDup _ _ Hi) as Hnd. apply NoDup_cons in Hnd as [Hn _].
    apply Hn, HA. set_solver. }
  unfold not_head. destruct (Nat.eqb_spec x head_); [done|]. cbn. rewrite Ha.
  unfold keys_of. rewrite omap_app, omap_cons, Ha. symmetry. apply last_snoc.
Qed.

Lemma cmp_refl a : compare_ a a = Eq.
Proof. pose proof (cmp_antisym a a) as E. by destruct (compare_ a a). Qed.

Lemma contains_spec s xs k : SkipInv s xs -> exists b, Contains s k = Some b
  /\ (b = true <-> Exists (fun a => compare_ k a = Eq) (keys_of s xs)).
Proof.
  intros Hi. destruct (search_key s xs k Hi) as (A & B & prevs & -> & HA & HB & E).
  unfold Contains, FindGreaterOrEqual. rewrite E. cbn [mbind option_bind]. eexists. split; [done|].
  destruct (keys_before s A B k Hi HA HB) as [EA EB].
  pose proof (keys_sorted _ _ Hi) as Hs. split.
  - destruct B as [|x B]; [done|]. cbn [head mbind option_bind].
    destruct (key_of s x) as [a|] eqn:Ea; [|done]. destruct (compare_ k a) eqn:Ec; [|done..]. intros _.
    apply Exists_exists. exists a. split; [|done]. apply list_elem_of_omap. exists x. split; [set_solver|done].
  - intros (c & Hc & Eqc)%Exists_exists.
    assert (c ∈ keys_of s B) as HcB.
    { rewrite EB. apply list_elem_of_filter. split; [|done]. rewrite cmp_antisym, Eqc. done. }
    unfold keys_of in Hs. rewrite omap_app in Hs. apply StronglySorted_app in Hs as (_ & _ & Hs).
    destruct B as [|x B]; [by apply elem_of_nil in HcB|]. cbn [head mbind option_bind].
    destruct (node_has_key s _ x Hi) as [a Ea]; [set_solver|]. rewrite Ea.
    unfold keys_of in HcB. rewrite omap_cons, Ea in HcB, Hs. inversion_clear Hs as [|? ? _ Hlt].
    rewrite Forall_forall in Hlt. rewrite (cmp_eq_l k c a Eqc).
    apply elem_of_cons in HcB as [->|HcB]; [by rewrite cmp_refl|].
    pose proof (Hlt c HcB) as Hac. pose proof (HB x ltac:(set_solver)) as Hx.
    unfold KeyIsAfterNode in Hx. cbn in Hx. rewrite Ea in Hx.
    rewrite (cmp_antisym k a), (cmp_eq_l k c a Eqc), (cmp_antisym a c) in Hx.
    unfold key_lt in Hac. by rewrite Hac in Hx.
Qed.

Lemma seek_spec s xs k : SkipInv s xs -> exists it, Seek s k = Some it
  /\ iter_key s it = head (filter (fun a => compare_ a k <> Lt) (keys_of s xs)).
Proof.
  intros Hi. destruct (search_key s xs k Hi) as (A & B & prevs & -> & HA & HB & Es).
  exists (head B). split; [unfold Seek, FindGreaterOrEqual; by rewrite Es|].
  destruct (keys_before s A B k Hi HA HB) as [_ <-]. destruct B as [|x B]; [done|].
  destruct (node_has_key s _ x Hi) as [a Ha]; [set_solver|].
  unfold keys_of. rewrite omap_cons, Ha. cbn. by rewrite Ha.
Qed.

(** C24. The skip list refines a sorted sequence: inserting any keys of which no two
    compare equal succeeds (every search ends), whatever heights the generator
    draws.  The list then holds exactly those keys in increasing order: a scan from
    the first position returns them all, membership is membership among them, seeking
    a key finds the first key that is not smaller and everything after it, and the
    backward searches find the last smaller key and the last key. *)
Theorem skiplist_refines any ks : distinct ks ->
  exists s sorted, inserts (new_SkipList any) ks = Some s
  /\ sorted ≡ₚ ks /\ StronglySorted key_lt sorted
  /\ scan s (length ks) (SeekToFirst s) = sorted
  /\ (forall k, exists b, Contains s k = Some b /\ (b = true <-> Exists (fun a => compare_ k a = Eq) ks))
  /\ (forall k, exists it, Seek s k = Some it
        /\ scan s (length ks) it = filter (fun a => compare_ a k <> Lt) sorted)
  /\ (forall k, exists x, FindLessThan s k = Some x
        /\ iter_key s (not_head x) = last (filter (fun a => compare_ a k = Lt) sorted))
  /\ exists it, SeekToLast s = Some it /\ iter_key s it = last sorted.
Proof.
  intros Hd. destruct (inserts_spec ks (new_SkipList any) [] (new_SkipList_inv any) Hd)
    as (s & xs & E & Hi & Ek); [apply Forall_true; constructor|].
  change (keys_of (new_SkipList any) [] ++ ks) with ks in Ek.
  pose proof (keys_length _ _ Hi) as Hl. rewrite (Permutation_length Ek) in Hl.
  exists s, (keys_of s xs). split; [done|]. split; [done|]. split; [by apply keys_sorted|]. split; [|split; [|split; [|split]]].
  - assert (SeekToFirst s = head xs) as -> by apply (level0 _ _ Hi).
    apply (scan_from s []); [done|lia].
  - intros k. destruct (contains_spec s xs k Hi) as (b & Hb & Hbk). exists b. split; [done|].
    by rewrite Hbk, Ek.
  - intros k. destruct (search_key s xs k Hi) as (A & B & prevs & -> & HA & HB & Es).
    exists (head B). split.
    + unfold Seek, FindGreaterOrEqual. by rewrite Es.
    + destruct (keys_before s A B k Hi HA HB) as [_ <-]. rewrite length_app in Hl.
      apply (scan_from s A); [done|lia].
  - intros k. destruct (search_key s xs k Hi) as (A & B & prevs & -> & HA & HB & Es).
    eexists. split; [unfold FindLessThan; by rewrite Es|].
    destruct (keys_before s A B k Hi HA HB) as [<- _]. apply (last_key s A (A ++ B)); [done|set_solver].
  - rewrite <- (app_nil_r xs) in Hi.
    destruct (run_search_spec s xs [] (fun next => bool_decide (is_Some next)) Hi) as (prevs & Es & _).
    { intros y _. by apply bool_decide_eq_true. }
    { intros y Hy. by apply elem_of_nil in Hy. }
    { done. }
    eexists. split; [unfold SeekToLast, FindLast; by rewrite Es|].
    cbn [mbind option_bind]. apply (last_key s xs (xs ++ [])); [done|set_solver].
Qed.

End skiplist.

#[export] Instance Z_comparator : Comparator Z := Z.compare.
#[export] Instance Z_comparator_laws : ComparatorLaws Z.
Proof.
  split.
  - intros a b. apply Z.compare_antisym.
  - intros a b c. unfold compare_, Z_comparator. rewrite !Z.compare_lt_iff. lia.
  - intros a b c E%Z.compare_eq. by rewrite E.
Qed.

Lemma skiplist_refines_witness :
  exists s sorted, inserts (new_SkipList 0) [30; 10; 20; 40] = Some s
  /\ sorted ≡ₚ [30; 10; 20; 40] /\ scan s 4 (SeekToFirst s) = sorted.
Proof.
  destruct (skiplist_refines 0 [30; 10; 20; 40]) as (s & sorted & E & Hp & _ & Hs & _).
  - repeat constructor; by vm_compute.
  - by exists s, sorted.
Defined.
