(* ===== verification/MemTable.v ===== *)
(** * MemTable: the in-memory table of LevelDB

    [src/leveldb/db/memtable.h] and [src/leveldb/db/memtable.cc].  An entry is one
    buffer holding the length-prefixed internal key and the length-prefixed value;
    the buffers are the keys of a skip list ordered by their internal keys.  The
    arena that owns the buffers is not modelled.

    The main result: with the sequence numbers that writes get, a lookup at a
    snapshot returns the latest write of the key at or before the snapshot. *)

From S2P Require Import Prelude Text Doubles Coding Bloom Dbformat SkipList.

(** The [GetLengthPrefixedSlice] of [memtable.cc]: the string and what
    follows it. *)
Definition prefixed_slice (data : text) : text * text :=
  match GetVarint32Ptr data with
  | Some (len, p) => (take (Z.to_nat len) p, drop (Z.to_nat len) p)
  | None => ([], [])
  end.

(** [MemTable::KeyComparator] *)
#[export] Instance KeyComparator : Comparator text := fun a b =>
  internal_compare (prefixed_slice a).1 (prefixed_slice b).1.

Record MemTable := mkMemTable { table_ : SkipList (K := text) }.

Definition new_MemTable : MemTable := mkMemTable (new_SkipList []).

(** [EncodeKey], which the iterator uses to seek. *)
Definition EncodeKey (target : text) : text :=
  PutVarint32 [] (u32 (Z.of_nat (length target))) ++ target.

(** The buffer [MemTable::Add] builds. *)
Definition encode_entry (s : Z) (type : ValueType) (key value : text) : text :=
  let internal_key_size := Z.of_nat (length key) + 8 in
  EncodeVarint32 (u32 internal_key_size) ++ key
  ++ EncodeFixed64 (Z.lor (u64 (Z.shiftl s 8)) (type_tag type))
  ++ EncodeVarint32 (u32 (Z.of_nat (length value))) ++ value.

Definition Add (s : Z) (type : ValueType) (key value : text) (m : MemTable) : option MemTable :=
  t ← Insert (table_ m) (encode_entry s type key value); Some (mkMemTable t).

(** The outcomes of [MemTable::Get]: false, or true with a value or [NotFound]. *)
Inductive MemGet := NotInTable | Found (v : text) | Deleted.

Definition mem_Get (key : LookupKey) (m : MemTable) : option MemGet :=
  it ← Seek (table_ m) (memtable_key key);
  Some match iter_key (table_ m) it with
       | None => NotInTable
       | Some entry =>
         let '(ikey, rest) := prefixed_slice entry in
         match slice_compare (take (length ikey - 8) ikey) (lookup_user_key key) with
         | Eq =>
           let tag := tag_of ikey in
           if Z.land tag 255 =? 1 then Found (prefixed_slice rest).1
           else if Z.land tag 255 =? 0 then Deleted
           else NotInTable
         | _ => NotInTable
         end
       end.

(** [MemTableIterator] *)
Definition mem_Seek (m : MemTable) (k : text) : option (option nat) := Seek (table_ m) (EncodeKey k).
Definition mem_key (m : MemTable) (it : option nat) : option text :=
  (fun e => (prefixed_slice e).1) <$> iter_key (table_ m) it.
Definition mem_value (m : MemTable) (it : option nat) : option text :=
  (fun e => (prefixed_slice (prefixed_slice e).2).1) <$> iter_key (table_ m) it.

(** ** The comparator is an order *)

#[export] Instance KeyComparator_laws : ComparatorLaws text.
Proof.
  split; unfold compare_, KeyComparator; intros.
  - apply internal_antisym.
  - by eapply internal_trans.
  - by apply internal_eq_l.
Qed.

(** ** Entries *)

(** A write: its number, its kind, the key and the value. *)
Record MemEntry := mkEntry { e_seq : Z; e_type : ValueType; e_key : text; e_value : text }.

Definition enc (e : MemEntry) : text := encode_entry (e_seq e) (e_type e) (e_key e) (e_value e).

Definition mem_entry_ok (e : MemEntry) : Prop :=
  0 <= e_seq e <= kMaxSequenceNumber /\ Z.of_nat (length (e_key e)) + 8 < 4294967296
  /\ Z.of_nat (length (e_value e)) < 4294967296.

Definition pack (e : MemEntry) : Z := PackSequenceAndType (e_seq e) (e_type e).

Lemma prefixed_slice_app s rest : Z.of_nat (length s) < 4294967296 ->
  prefixed_slice (EncodeVarint32 (u32 (Z.of_nat (length s))) ++ s ++ rest) = (s, rest).
Proof.
  intros Hs. unfold prefixed_slice, u32. rewrite Z.mod_small by lia.
  pose proof (get_varint32 (Z.of_nat (length s)) (s ++ rest)) as E. unfold GetVarint32 in E.
  rewrite E by (unfold is_u32; lia). by rewrite Nat2Z.id, take_app_length, drop_app_length.
Qed.

Lemma enc_key e : mem_entry_ok e -> (prefixed_slice (enc e)).1 = tagged (e_key e) (pack e)
  /\ (prefixed_slice (prefixed_slice (enc e)).2).1 = e_value e.
Proof.
  intros (Hs & Hk & Hv). unfold enc, encode_entry.
  fold (PackSequenceAndType (e_seq e) (e_type e)). fold (pack e).
  assert (Z.of_nat (length (e_key e)) + 8 = Z.of_nat (length (tagged (e_key e) (pack e)))) as El.
  { unfold tagged. rewrite length_app, fixed64_length. lia. }
  assert (forall r, e_key e ++ EncodeFixed64 (pack e) ++ r = tagged (e_key e) (pack e) ++ r) as Ea.
  { intros r. unfold tagged. by rewrite <- app_assoc. }
  rewrite Ea, El, prefixed_slice_app by lia. cbn [fst snd]. split; [done|].
  pose proof (prefixed_slice_app (e_value e) [] Hv) as E. rewrite app_nil_r in E. by rewrite E.
Qed.

Lemma pack_u64 e : mem_entry_ok e -> is_u64 (pack e) /\ pack e = e_seq e * 256 + type_tag (e_type e).
Proof. intros (Hs & _). destruct (pack_spec (e_seq e) (e_type e) Hs) as [E ?]. done. Qed.

Lemma enc_compare a b : mem_entry_ok a -> mem_entry_ok b ->
  compare_ (enc a) (enc b)
  = match lex (e_key a) (e_key b) with Eq => pack b ?= pack a | r => r end.
Proof.
  intros Ha Hb. unfold compare_, KeyComparator. destruct (enc_key a Ha) as [-> _].
  destruct (enc_key b Hb) as [-> _]. apply internal_compare_tagged; by apply pack_u64.
Qed.

Lemma lookup_compare e u s : mem_entry_ok e -> 0 <= s <= kMaxSequenceNumber ->
  Z.of_nat (length u) + 8 < 4294967296 ->
  compare_ (enc e) (memtable_key (new_LookupKey u s))
  = match lex (e_key e) u with Eq => PackSequenceAndType s kTypeValue ?= pack e | r => r end.
Proof.
  intros He Hs Hu. unfold compare_, KeyComparator. destruct (enc_key e He) as [-> _].
  assert (prefixed_slice (memtable_key (new_LookupKey u s))
    = (tagged u (PackSequenceAndType s kTypeValue), [])) as ->.
  { unfold memtable_key, new_LookupKey. cbn [kstart klength].
    assert (Z.of_nat (length u) + 8 = Z.of_nat (length (tagged u (PackSequenceAndType s kTypeValue)))) as El
      by (unfold tagged; rewrite length_app, fixed64_length; lia).
    rewrite El. rewrite <- (app_nil_r (_ ++ _)), <- app_assoc.
    apply prefixed_slice_app. lia. }
  apply internal_compare_tagged; [by apply pack_u64|by apply pack_spec].
Qed.

(** ** Lookups *)

Fixpoint add_all (es : list MemEntry) (m : MemTable) : option MemTable :=
  match es with
  | [] => Some m
  | e :: es => m' ← Add (e_seq e) (e_type e) (e_key e) (e_value e) m; add_all es m'
  end.

(** The entries come in the order of their numbers. *)
Definition increasing (es : list MemEntry) : Prop :=
  StronglySorted (fun a b => e_seq a < e_seq b) es.

Definition visible (u : text) (s : Z) (e : MemEntry) : Prop := e_key e = u /\ e_seq e <= s.

#[export] Instance visible_dec u s e : Decision (visible u s e).
Proof. unfold visible. apply _. Defined.

(** The last write of [u] numbered at most [s]. *)
Definition latest (u : text) (s : Z) (es : list MemEntry) : option MemEntry :=
  last (filter (visible u s) es).

Definition outcome (r : option MemEntry) : MemGet :=
  match r with
  | None => NotInTable
  | Some e => match e_type e with kTypeValue => Found (e_value e) | kTypeDeletion => Deleted end
  end.

Definition MemInv (m : MemTable) (es : list MemEntry) : Prop :=
  exists xs, SkipInv (table_ m) xs /\ keys_of (table_ m) xs ≡ₚ enc <$> es.

Lemma new_MemTable_inv : MemInv new_MemTable [].
Proof. exists []. split; [apply new_SkipList_inv|done]. Qed.

Lemma latest_spec u s es : increasing es ->
  match latest u s es with
  | Some e => e ∈ es /\ visible u s e /\ (forall e', e' ∈ es -> visible u s e' -> e_seq e' <= e_seq e)
  | None => forall e', e' ∈ es -> ~ visible u s e'
  end.
Proof.
  unfold latest, increasing. induction es as [|e es IH] using rev_ind; intros Hs; [set_solver|].
  apply StronglySorted_app in Hs as (Hlt & Hs & _). specialize (IH Hs). rewrite filter_app.
  destruct (decide (visible u s e)) as [Hv|Hv].
  - rewrite (filter_cons_True _ e []), filter_nil, last_snoc by done. split; [set_solver|]. split; [done|].
    intros e' [He'|He'%list_elem_of_singleton]%elem_of_app _; [|subst; lia].
    specialize (Hlt e' e He' (list_elem_of_here _ _)). simpl in Hlt. lia.
  - rewrite (filter_cons_False _ e []), filter_nil, app_nil_r by done.
    destruct (last (filter (visible u s) es)) as [e0|].
    + destruct IH as (Hi & Hv0 & Hmax). split; [set_solver|]. split; [done|].
      intros e' [He'|He'%list_elem_of_singleton]%elem_of_app Hv'; [auto|by subst].
    + intros e' [He'|He'%list_elem_of_singleton]%elem_of_app; [auto|by subst].
Qed.

Lemma tag_land e : mem_entry_ok e -> Z.land (pack e) 255 = type_tag (e_type e).
Proof.
  intros He. destruct (pack_u64 e He) as [_ ->]. change 255 with (Z.ones 8).
  rewrite Z.land_ones by lia. change (2 ^ 8) with 256. rewrite Z.add_comm, Z.mod_add by lia.
  by destruct (e_type e).
Qed.

(** What [Get] makes of the entry the search stopped at. *)
Lemma Get_entry m u s it e : mem_entry_ok e -> Seek (table_ m) (memtable_key (new_LookupKey u s)) = Some it ->
  iter_key (table_ m) it = Some (enc e) ->
  mem_Get (new_LookupKey u s) m
  = Some (if decide (e_key e = u) then outcome (Some e) else NotInTable).
Proof.
  intros He Es Ei. unfold mem_Get. rewrite Es. cbn [mbind option_bind]. rewrite Ei. f_equal.
  destruct (enc_key e He) as [E1 E2]. destruct (prefixed_slice (enc e)) as [ikey rest].
  cbn [fst snd] in E1, E2. subst ikey. rewrite E2.
  pose proof (lookup_key_parts u s) as (_ & -> & _).
  assert (take (length (tagged (e_key e) (pack e)) - 8) (tagged (e_key e) (pack e)) = e_key e) as ->.
  { unfold tagged. rewrite length_app, fixed64_length, Nat.add_sub. apply take_app_length. }
  rewrite slice_compare_lex, tag_tagged, tag_land by (try apply pack_u64; done).
  destruct (decide (e_key e = u)) as [->|Hn].
  - rewrite lex_refl. unfold outcome. by destruct (e_type e).
  - destruct (lex (e_key e) u) eqn:E; [|done..]. by apply lex_eq in E.
Qed.

Lemma Add_inv m es e : MemInv m es -> Forall mem_entry_ok (es ++ [e]) ->
  Forall (fun a => e_seq a <> e_seq e) es ->
  exists m', Add (e_seq e) (e_type e) (e_key e) (e_value e) m = Some m' /\ MemInv m' (es ++ [e]).
Proof.
  intros (xs & Hi & Hp) Hok Hne. apply Forall_app in Hok as [Hok He]. rewrite Forall_singleton in He.
  rewrite Forall_forall in Hok, Hne.
  destruct (inserts_spec [enc e] (table_ m) xs Hi) as (t & xs' & E & Hi' & Hp').
  { split; [|done]. constructor. }
  { rewrite Forall_singleton. apply Forall_forall. intros a Ha. rewrite Hp in Ha.
    apply list_elem_of_fmap in Ha as (a0 & -> & Ha). specialize (Hok a0 Ha). specialize (Hne a0 Ha).
    rewrite enc_compare by done. destruct (lex _ _); [|done..].
    rewrite Z.compare_eq_iff. destruct (pack_u64 e He) as [_ ->], (pack_u64 a0 Hok) as [_ ->].
    destruct (e_type a0), (e_type e); simpl; lia. }
  cbn [inserts] in E. fold (enc e) in E. unfold Add. fold (enc e).
  destruct (Insert (table_ m) (enc e)) as [t'|]; [|done]. cbn in E. injection E as ->.
  eexists. split; [done|]. exists xs'. split; [done|]. cbn [table_]. by rewrite Hp', Hp, fmap_app.
Qed.

Lemma add_all_inv es m es0 : MemInv m es0 -> Forall mem_entry_ok (es0 ++ es) -> increasing (es0 ++ es) ->
  exists m', add_all es m = Some m' /\ MemInv m' (es0 ++ es).
Proof.
  revert m es0. induction es as [|e es IH]; intros m es0 Hi Hok Hs.
  - exists m. by rewrite app_nil_r.
  - replace (es0 ++ e :: es) with ((es0 ++ [e]) ++ es) in * by by rewrite <- app_assoc.
    destruct (Add_inv m es0 e Hi) as (m' & E & Hi').
    + by apply Forall_app in Hok as [? _].
    + apply Forall_forall. intros a Ha. apply StronglySorted_app in Hs as (_ & Hs & _).
      apply StronglySorted_app in Hs as (Hlt & _).
      specialize (Hlt a e Ha (list_elem_of_here _ _)). simpl in Hlt. lia.
    + destruct (IH m' _ Hi' Hok Hs) as (m2 & E2 & H2). exists m2. cbn [add_all]. by rewrite E.
Qed.

Lemma seq_inj es a b : increasing es -> a ∈ es -> b ∈ es -> e_seq a = e_seq b -> a = b.
Proof.
  induction 1 as [|x es Hs IH Hx]; [set_solver|]. rewrite Forall_forall in Hx.
  intros Ha Hb E. apply elem_of_cons in Ha as [->|Ha], Hb as [->|Hb]; [done|..].
  - specialize (Hx b Hb). lia.
  - specialize (Hx a Ha). lia.
  - auto.
Qed.

(** The first element of a sorted list that satisfies [P] is before every other that does. *)
Lemma head_filter_min {A} (R : A -> A -> Prop) P `{!forall x, Decision (P x)} l h :
  StronglySorted R l -> head (filter P l) = Some h ->
  h ∈ l /\ P h /\ (forall x, x ∈ l -> P x -> x = h \/ R h x).
Proof.
  induction 1 as [|y l Hs IH Hy]; [done|]. rewrite Forall_forall in Hy.
  destruct (decide (P y)) as [Hp|Hp].
  - rewrite filter_cons_True by done. intros [= ->]. split; [set_solver|]. split; [done|].
    intros x [->|Hx]%elem_of_cons _; auto.
  - rewrite filter_cons_False by done. intros (Hin & Hp' & Hmin)%IH. split; [set_solver|]. split; [done|].
    intros x [->|Hx]%elem_of_cons Hpx; [done|auto].
Qed.

(** The search key of [u] at [s] is after the writes of smaller keys and the later writes of [u]. *)
Lemma lookup_not_before e u s : mem_entry_ok e -> 0 <= s <= kMaxSequenceNumber ->
  Z.of_nat (length u) + 8 < 4294967296 ->
  compare_ (enc e) (memtable_key (new_LookupKey u s)) <> Lt
  <-> lex (e_key e) u = Gt \/ visible u s e.
Proof.
  intros He Hs Hu. rewrite lookup_compare by done. unfold visible.
  destruct (pack_u64 e He) as [_ ->]. destruct (pack_spec s kTypeValue Hs) as [-> _].
  destruct (lex (e_key e) u) eqn:E.
  - apply lex_eq in E as ->. rewrite Z.compare_lt_iff. destruct (e_type e); cbn [type_tag];
      (split; [intros; right; split; [done|lia]|intros [?|[_ ?]]; [done|lia]]).
  - split; [done|]. intros [?|[Eu _]]; [done|]. by rewrite Eu, lex_refl in E.
  - split; auto.
Qed.

(** A lookup finds the last visible write. *)
Lemma Get_spec m es u s : MemInv m es -> Forall mem_entry_ok es -> increasing es ->
  0 <= s <= kMaxSequenceNumber -> Z.of_nat (length u) + 8 < 4294967296 ->
  mem_Get (new_LookupKey u s) m = Some (outcome (latest u s es)).
Proof.
  intros (xs & Hi & Hp) Hok Hs Hq Hu. rewrite Forall_forall in Hok.
  set (k := memtable_key (new_LookupKey u s)).
  destruct (seek_spec (table_ m) xs k Hi) as (it & Es & Ei).
  pose proof (latest_spec u s es Hs) as Hl.
  assert (forall e, e ∈ es -> enc e ∈ keys_of (table_ m) xs) as Hin.
  { intros e He. rewrite Hp. by apply list_elem_of_fmap_2. }
  assert (forall e, e ∈ es -> compare_ (enc e) k <> Lt <-> lex (e_key e) u = Gt \/ visible u s e) as Hk
    by (intros; apply lookup_not_before; auto).
  destruct (iter_key (table_ m) it) as [h|] eqn:Eh; symmetry in Ei.
  - apply (head_filter_min key_lt) in Ei as (Hh & Hc & Hmin); [|by apply keys_sorted].
    rewrite Hp in Hh. apply list_elem_of_fmap in Hh as (e' & -> & He').
    rewrite (Get_entry m u s it e' (Hok _ He') Es Eh). f_equal. apply (Hk e' He') in Hc.
    destruct (latest u s es) as [e|].
    + destruct Hl as (He & Hv & Hmax).
      assert (compare_ (enc e') (enc e) <> Gt) as Hcmp.
      { destruct (Hmin (enc e)) as [->|Hlt]; [auto|apply Hk; auto|by rewrite cmp_refl|by rewrite Hlt]. }
      rewrite enc_compare in Hcmp by auto. destruct Hv as [Hu' Hle]. rewrite Hu' in Hcmp.
      destruct Hc as [Hc|[Eu Hle']]; [by rewrite Hc in Hcmp|]. rewrite decide_True by done.
      rewrite Eu, lex_refl, Z.compare_gt_iff in Hcmp. specialize (Hmax e' He' (conj Eu Hle')).
      destruct (pack_u64 e (Hok _ He)) as [_ E1], (pack_u64 e' (Hok _ He')) as [_ E2].
      do 2 f_equal. apply (seq_inj es); auto. destruct (e_type e), (e_type e'); simpl in *; lia.
    + rewrite decide_False; [done|]. intros E. apply (Hl e' He').
      destruct Hc as [Hc|?]; [by rewrite E, lex_refl in Hc|done].
  - unfold mem_Get. fold k. rewrite Es. cbn [mbind option_bind]. rewrite Eh. f_equal.
    destruct (latest u s es) as [e|]; [|done]. destruct Hl as (He & Hv & _).
    destruct (filter _ _) as [|x l] eqn:Ef; [|done]. exfalso.
    assert (enc e ∈ filter (fun a => compare_ a k <> Lt) (keys_of (table_ m) xs)) as Hf
      by (apply list_elem_of_filter; split; [apply Hk|]; auto).
    rewrite Ef in Hf. by apply elem_of_nil in Hf.
Qed.

(** C23. The in-memory table answers as the history of its writes does: after any writes
    with increasing numbers, a lookup of a key at a snapshot gives the value of the last
    write of that key numbered at most the snapshot, [Deleted] when that write is a
    deletion, and [NotInTable] when there is none. *)
Theorem memtable_get es : Forall mem_entry_ok es -> increasing es ->
  exists m, add_all es new_MemTable = Some m
  /\ forall u s, 0 <= s <= kMaxSequenceNumber -> Z.of_nat (length u) + 8 < 4294967296 ->
     mem_Get (new_LookupKey u s) m = Some (outcome (latest u s es)).
Proof.
  intros Hok Hs. destruct (add_all_inv es new_MemTable [] new_MemTable_inv Hok Hs) as (m & E & Hi).
  exists m. split; [done|]. intros u s Hq Hu. by apply Get_spec.
Qed.

Lemma memtable_get_witness :
  let es := [mkEntry 1 kTypeValue (L "a") (L "10"); mkEntry 2 kTypeValue (L "b") (L "20");
             mkEntry 3 kTypeDeletion (L "a") []] in
  exists m, add_all es new_MemTable = Some m
  /\ mem_Get (new_LookupKey (L "a") 2) m = Some (Found (L "10"))
  /\ mem_Get (new_LookupKey (L "a") 3) m = Some Deleted
  /\ mem_Get (new_LookupKey (L "c") 3) m = Some NotInTable.
Proof.
  intros es. destruct (memtable_get es) as (m & E & H).
  - repeat constructor; by vm_compute.
  - repeat constructor.
  - exists m. split; [done|]. split; [|split]; by rewrite H by (split; by vm_compute).
Defined.
