(* ===== verification/WriteBatch.v ===== *)
(** * WriteBatch: the unit of writing of LevelDB

    [src/leveldb/db/write_batch.cc] and [write_batch_internal.h].  A batch is a string: a
    sequence number (8 bytes), a count (4 bytes) and the records.  [Iterate] hands the
    records to a handler; inserting a batch into a memory table is the handler
    [MemTableInserter].

    The results: [Iterate] always returns; a batch gives back exactly the operations put
    into it; and a memory table fed with batches is a finite map. *)

From S2P Require Import Prelude Text Doubles Coding Status Bloom Dbformat SkipList MemTable.

Definition kHeader : nat := 12.

(** A batch always holds its header. *)
Record WriteBatch := mkWriteBatch { rep_ : text }.

Definition Clear : WriteBatch := mkWriteBatch (replicate kHeader (byte 0)).

(** Overwriting bytes in place. *)
Definition write_at (i : nat) (bytes rep : text) : text :=
  take i rep ++ bytes ++ drop (i + length bytes) rep.

(** The count is an [int] kept in four bytes. *)
Definition Count (b : WriteBatch) : Z := wrap32 (default 0 (DecodeFixed32 (drop 8 (rep_ b)))).
Definition SetCount (n : Z) (b : WriteBatch) : WriteBatch :=
  mkWriteBatch (write_at 8 (EncodeFixed32 (u32 n)) (rep_ b)).
Definition Sequence (b : WriteBatch) : Z := default 0 (DecodeFixed64 (rep_ b)).
Definition SetSequence (seq : Z) (b : WriteBatch) : WriteBatch :=
  mkWriteBatch (write_at 0 (EncodeFixed64 seq) (rep_ b)).

Definition ApproximateSize (b : WriteBatch) : Z := Z.of_nat (length (rep_ b)).

Definition Put (key value : text) (b : WriteBatch) : WriteBatch :=
  let b := SetCount (Count b + 1) b in
  let r := rep_ b ++ [byte (type_tag kTypeValue)] in
  mkWriteBatch (PutLengthPrefixedSlice (PutLengthPrefixedSlice r key) value).

Definition Delete (key : text) (b : WriteBatch) : WriteBatch :=
  let b := SetCount (Count b + 1) b in
  let r := rep_ b ++ [byte (type_tag kTypeDeletion)] in
  mkWriteBatch (PutLengthPrefixedSlice r key).

(** [WriteBatchInternal::Append] and [SetContents] *)
Definition Append (dst src : WriteBatch) : WriteBatch :=
  let d := SetCount (Count dst + Count src) dst in
  mkWriteBatch (rep_ d ++ drop kHeader (rep_ src)).
Definition SetContents (contents : text) : WriteBatch := mkWriteBatch contents.

(** [WriteBatch::Handler] *)
Class Handler (H : Type) := {
  on_put : text -> text -> H -> H;
  on_delete : text -> H -> H
}.

(** The loop of [Iterate]; [None] when the fuel runs out. *)
Fixpoint iterate_loop {H} `{Handler H} (fuel : nat) (count found : Z) (input : text) (h : H)
    : option (H * Status) :=
  match input with
  | [] => Some (h, if found =? count then status_OK
                   else Corruption (L "WriteBatch has wrong count") [])
  | tag :: input =>
    match fuel with
    | O => None
    | S fuel =>
      if byte_val tag =? type_tag kTypeValue then
        match GetLengthPrefixedSlice input with
        | Some (key, input) =>
          match GetLengthPrefixedSlice input with
          | Some (value, input) => iterate_loop fuel count (found + 1) input (on_put key value h)
          | None => Some (h, Corruption (L "bad WriteBatch Put") [])
          end
        | None => Some (h, Corruption (L "bad WriteBatch Put") [])
        end
      else if byte_val tag =? type_tag kTypeDeletion then
        match GetLengthPrefixedSlice input with
        | Some (key, input) => iterate_loop fuel count (found + 1) input (on_delete key h)
        | None => Some (h, Corruption (L "bad WriteBatch Delete") [])
        end
      else Some (h, Corruption (L "unknown WriteBatch tag") [])
    end
  end.

(** [WriteBatch::Iterate] *)
Definition Iterate {H} `{Handler H} (b : WriteBatch) (h : H) : option (H * Status) :=
  if (length (rep_ b) <? kHeader)%nat then
    Some (h, Corruption (L "malformed WriteBatch (too small)") [])
  else iterate_loop (length (rep_ b)) (Count b) 0 (drop kHeader (rep_ b)) h.

(** [MemTableInserter]; [None] stands for an insertion that does not end. *)
Record Inserter := mkInserter { ins_sequence : Z; ins_mem : option MemTable }.

Definition insert_write (t : ValueType) (key value : text) (i : Inserter) : Inserter :=
  mkInserter (u64 (ins_sequence i + 1)) (m ← ins_mem i; Add (ins_sequence i) t key value m).

#[export] Instance MemTableInserter : Handler Inserter := {
  on_put := insert_write kTypeValue;
  on_delete key := insert_write kTypeDeletion key []
}.

(** [WriteBatchInternal::InsertInto] *)
Definition InsertInto (b : WriteBatch) (m : MemTable) : option (option MemTable * Status) :=
  '(i, st) ← Iterate b (mkInserter (Sequence b) (Some m)); Some (ins_mem i, st).

(** ** The records of a batch *)

Inductive WriteOp := PutOp (key value : text) | DeleteOp (key : text).

Definition op_bytes (o : WriteOp) : text :=
  match o with
  | PutOp k v => byte (type_tag kTypeValue) :: PutLengthPrefixedSlice [] k ++ PutLengthPrefixedSlice [] v
  | DeleteOp k => byte (type_tag kTypeDeletion) :: PutLengthPrefixedSlice [] k
  end.

Definition do_op {H} `{Handler H} (h : H) (o : WriteOp) : H :=
  match o with PutOp k v => on_put k v h | DeleteOp k => on_delete k h end.

(** Adding an operation to a batch. *)
#[export] Instance batch_builder : Handler WriteBatch := { on_put := Put; on_delete := Delete }.

Definition write_ok (o : WriteOp) : Prop :=
  match o with
  | PutOp k v => Z.of_nat (length k) + 8 < 4294967296 /\ Z.of_nat (length v) < 4294967296
  | DeleteOp k => Z.of_nat (length k) + 8 < 4294967296
  end.

Definition build (seq : Z) (ops : list WriteOp) : WriteBatch :=
  SetSequence seq (foldl do_op Clear ops).

(** The string of a batch. *)
Definition layout (seq : Z) (ops : list WriteOp) : text :=
  EncodeFixed64 seq ++ EncodeFixed32 (u32 (Z.of_nat (length ops))) ++ concat (op_bytes <$> ops).

Lemma prefixed_app dst s : PutLengthPrefixedSlice dst s = dst ++ PutLengthPrefixedSlice [] s.
Proof. unfold PutLengthPrefixedSlice, PutVarint32. cbn [app]. by rewrite app_assoc. Qed.

Lemma prefixed_snoc r b k : PutLengthPrefixedSlice (r ++ [b]) k = r ++ b :: PutLengthPrefixedSlice [] k.
Proof. by rewrite prefixed_app, <- app_assoc. Qed.

Lemma write_at_app a b c bytes : length b = length bytes ->
  write_at (length a) bytes (a ++ b ++ c) = a ++ bytes ++ c.
Proof.
  intros E. unfold write_at. rewrite take_app_length, <- E, <- length_app, (app_assoc a b c),
    drop_app_length. done.
Qed.

Lemma count_layout seq ops : Z.of_nat (length ops) < 2147483648 ->
  Count (mkWriteBatch (layout seq ops)) = Z.of_nat (length ops).
Proof.
  intros Hl. unfold Count, layout. cbn [rep_].
  rewrite (drop_app_le (EncodeFixed64 seq)), drop_ge by done. cbn [app].
  rewrite decode_fixed32 by (unfold is_u32, u32; pose proof (Z.mod_pos_bound (Z.of_nat (length ops)) 4294967296); lia).
  cbn [from_option id]. unfold u32. rewrite Z.mod_small by lia. apply wrap32_id. unfold in32, int_min, int_max. lia.
Qed.

Lemma add_op seq ops o : Z.of_nat (length ops) + 1 < 2147483648 ->
  do_op (mkWriteBatch (layout seq ops)) o = mkWriteBatch (layout seq (ops ++ [o])).
Proof.
  intros Hl. pose proof (count_layout seq ops ltac:(lia)) as Ec.
  assert (SetCount (Z.of_nat (length ops) + 1) (mkWriteBatch (layout seq ops))
    = mkWriteBatch (EncodeFixed64 seq ++ EncodeFixed32 (u32 (Z.of_nat (length (ops ++ [o]))))
                    ++ concat (op_bytes <$> ops))) as Es.
  { unfold SetCount, layout. cbn [rep_]. f_equal.
    rewrite (write_at_app (EncodeFixed64 seq) _ _ (EncodeFixed32 _)) by done.
    rewrite length_app. do 4 f_equal. cbn [length]. lia. }
  assert (layout seq (ops ++ [o]) = (EncodeFixed64 seq ++ EncodeFixed32 (u32 (Z.of_nat (length (ops ++ [o]))))
    ++ concat (op_bytes <$> ops)) ++ op_bytes o) as ->.
  { unfold layout. rewrite fmap_app, concat_app. cbn [fmap list_fmap concat].
    by rewrite app_nil_r, <- !app_assoc. }
  destruct o as [k v|k]; cbn [do_op on_put on_delete batch_builder]; unfold Put, Delete;
    rewrite Ec, Es; cbn [rep_ op_bytes]; f_equal; rewrite prefixed_snoc; [|done].
  by rewrite prefixed_app, <- app_assoc.
Qed.

Lemma build_layout seq ops : Z.of_nat (length ops) < 2147483648 ->
  build seq ops = mkWriteBatch (layout seq ops).
Proof.
  intros Hl. assert (foldl do_op Clear ops = mkWriteBatch (layout 0 ops)) as E.
  { induction ops as [|o ops IH] using rev_ind; [done|]. rewrite length_app in Hl. cbn [length] in Hl.
    rewrite foldl_app. cbn [foldl]. rewrite IH by lia. apply add_op. lia. }
  unfold build, SetSequence. rewrite E. reflexivity.
Qed.

(** ** Reading a batch *)

Lemma varint_loop_shorter w fuel shift result p v rest :
  varint_loop w fuel shift result p = Some (v, rest) -> (length rest < length p)%nat.
Proof.
  revert shift result p. induction fuel as [|fuel IH]; intros shift result [|c p] E; try done.
  cbn [varint_loop] in E. case_match; [apply IH in E; simpl; lia|]. injection E as _ <-. simpl. lia.
Qed.

Lemma get_prefixed_shorter input s rest : GetLengthPrefixedSlice input = Some (s, rest) ->
  (length rest < length input)%nat.
Proof.
  unfold GetLengthPrefixedSlice. intros ([len p] & E & E')%bind_Some.
  assert (length p < length input)%nat as Hp.
  { unfold GetVarint32, GetVarint32Ptr, GetVarint32PtrFallback in E.
    destruct input as [|c input]; [done|].
    destruct (Z.land (byte_val c) 128 =? 0); [|by apply varint_loop_shorter in E]. injection E as _ <-. simpl. lia. }
  case_match; [|done]. injection E' as _ <-. rewrite length_drop. lia.
Qed.

Lemma iterate_loop_total {H} `{Handler H} fuel count found input (h : H) :
  (length input <= fuel)%nat -> is_Some (iterate_loop fuel count found input h).
Proof.
  revert found input h. induction fuel as [|fuel IH]; intros found [|tag input] h Hf; cbn [iterate_loop];
    [eauto|simpl in Hf; lia|eauto|]. simpl in Hf.
  case_match; [|case_match; [|eauto]].
  - destruct (GetLengthPrefixedSlice input) as [[k i1]|] eqn:E1; [|eauto].
    destruct (GetLengthPrefixedSlice i1) as [[v i2]|] eqn:E2; [|eauto].
    apply get_prefixed_shorter in E1, E2. apply IH. lia.
  - destruct (GetLengthPrefixedSlice input) as [[k i1]|] eqn:E1; [|eauto].
    apply get_prefixed_shorter in E1. apply IH. lia.
Qed.

Lemma iterate_ops {H} `{Handler H} ops fuel count found (h : H) :
  (length (concat (op_bytes <$> ops)) <= fuel)%nat -> Forall write_ok ops ->
  iterate_loop fuel count found (concat (op_bytes <$> ops)) h
  = Some (foldl do_op h ops, if found + Z.of_nat (length ops) =? count then status_OK
                             else Corruption (L "WriteBatch has wrong count") []).
Proof.
  revert fuel found h. induction ops as [|o ops IH]; intros fuel found h Hf Hok.
  { destruct fuel; simpl; by rewrite Z.add_0_r. }
  apply Forall_cons in Hok as [Ho Hok]. cbn [fmap list_fmap concat] in *.
  rewrite length_app in Hf. cbn [length].
  replace (found + Z.of_nat (S (length ops))) with (found + 1 + Z.of_nat (length ops)) by lia.
  destruct o as [k v|k]; cbn [op_bytes app iterate_loop length] in *;
    (destruct fuel as [|fuel]; [lia|]); cbn [iterate_loop]; rewrite byte_val_byte;
    cbn [type_tag]; [change (1 mod 256 =? 1) with true | change (0 mod 256 =? 1) with false;
    change (0 mod 256 =? 0) with true]; cbn iota.
  - destruct Ho as [Hk Hv]. rewrite <- app_assoc, get_length_prefixed by lia.
    rewrite get_length_prefixed by lia. rewrite length_app in Hf.
    rewrite IH by (done || (rewrite ?length_app in Hf; lia)). done.
  - rewrite get_length_prefixed by (simpl in Ho; lia). rewrite IH by (done || lia). done.
Qed.

Lemma Iterate_total {H} `{Handler H} b (h : H) : is_Some (Iterate b h).
Proof.
  unfold Iterate. case_match; [eauto|]. apply iterate_loop_total. rewrite length_drop. lia.
Qed.

Lemma layout_length seq ops : length (layout seq ops) = (kHeader + length (concat (op_bytes <$> ops)))%nat.
Proof. unfold layout. rewrite !length_app. done. Qed.

Lemma layout_ops seq ops : drop kHeader (layout seq ops) = concat (op_bytes <$> ops).
Proof. unfold layout. rewrite app_assoc. apply (drop_app_length (EncodeFixed64 seq ++ EncodeFixed32 _)). Qed.

Lemma Iterate_build {H} `{Handler H} seq ops (h : H) : lenz ops < 2147483648 -> Forall write_ok ops ->
  Iterate (build seq ops) h = Some (foldl do_op h ops, status_OK).
Proof.
  intros Hl Hok. unfold lenz in Hl. rewrite build_layout by done. unfold Iterate. cbn [rep_].
  rewrite (count_layout seq ops Hl), layout_ops, layout_length. destruct (Nat.ltb_spec (kHeader + length (concat (op_bytes <$> ops))) kHeader); [lia|].
  rewrite iterate_ops by (done || lia). by rewrite Z.add_0_l, Z.eqb_refl.
Qed.

Lemma Sequence_build seq ops : is_u64 seq -> lenz ops < 2147483648 -> Sequence (build seq ops) = seq.
Proof.
  intros Hs Hl. rewrite build_layout by done. unfold Sequence, layout. cbn [rep_]. by rewrite decode_fixed64.
Qed.

Lemma Count_build seq ops : lenz ops < 2147483648 -> Count (build seq ops) = lenz ops.
Proof. intros Hl. rewrite build_layout by done. by apply count_layout. Qed.

Lemma SetSequence_build seq seq' ops : lenz ops < 2147483648 ->
  SetSequence seq' (build seq ops) = build seq' ops.
Proof. intros Hl. rewrite !build_layout by done. reflexivity. Qed.

Lemma Append_build seq seq' ops ops' : lenz (ops ++ ops') < 2147483648 ->
  Append (build seq ops) (build seq' ops') = build seq (ops ++ ops').
Proof.
  intros Hl. pose proof (lenz_nonneg ops). pose proof (lenz_nonneg ops'). rewrite lenz_app in Hl. unfold Append.
  rewrite !Count_build by lia. rewrite !build_layout by (rewrite ?length_app; unfold lenz in *; lia).
  cbn [rep_]. rewrite layout_ops. unfold SetCount, layout. cbn [rep_].
  rewrite (write_at_app (EncodeFixed64 seq) _ _ (EncodeFixed32 _)) by done.
  rewrite fmap_app, concat_app, <- !app_assoc, <- lenz_app. done.
Qed.

Lemma build_Clear : build 0 [] = Clear.
Proof. done. Qed.

(** C21. A batch is its operations: for any operations put into a batch, in any number
    an [int] can count, the count and the sequence number read back, every handler is
    given exactly those operations in order and then [OK]; appending a batch to another
    gives the batch of both lists; and whatever bytes a batch holds, [Iterate] returns. *)
Theorem batch_roundtrip seq ops : is_u64 seq -> lenz ops < 2147483648 -> Forall write_ok ops ->
  Count (build seq ops) = lenz ops /\ Sequence (build seq ops) = seq
  /\ (forall H `(Handler H) (h : H), Iterate (build seq ops) h = Some (foldl do_op h ops, status_OK))
  /\ (forall seq' ops', lenz (ops ++ ops') < 2147483648 ->
      Append (build seq ops) (build seq' ops') = build seq (ops ++ ops'))
  /\ (forall H `(Handler H) b (h : H), is_Some (Iterate b h)).
Proof.
  intros Hs Hl Hok. split; [by apply Count_build|]. split; [by apply Sequence_build|].
  split; [intros; by apply Iterate_build|]. split; [intros; by apply Append_build|].
  intros. apply Iterate_total.
Qed.

(** A handler that lists what it is given. *)
Lemma batch_roundtrip_witness :
  let lister := {| on_put k v l := l ++ [PutOp k v]; on_delete k l := l ++ [DeleteOp k] |} in
  let ops := [PutOp (L "1") (L "10"); DeleteOp (L "2"); PutOp (L "1") (L "7")] in
  Iterate (build 5 ops) (H0 := lister) [] = Some (ops, status_OK)
  /\ Append (build 5 ops) (build 9 [DeleteOp (L "3")]) = build 5 (ops ++ [DeleteOp (L "3")]).
Proof.
  intros lister ops. destruct (batch_roundtrip 5 ops) as (_ & _ & HI & HA & _).
  - by unfold is_u64.
  - done.
  - repeat constructor.
  - split; [by rewrite (HI _ lister)|by apply HA].
Defined.

(** ** Inserting a batch into a memory table *)

(** The entries of a batch, numbered from [seq]. *)
Fixpoint entries (seq : Z) (ops : list WriteOp) : list MemEntry :=
  match ops with
  | [] => []
  | PutOp k v :: ops => mkEntry seq kTypeValue k v :: entries (seq + 1) ops
  | DeleteOp k :: ops => mkEntry seq kTypeDeletion k [] :: entries (seq + 1) ops
  end.

Lemma entries_bounds seq ops : Forall (fun e => seq <= e_seq e < seq + lenz ops) (entries seq ops).
Proof.
  revert seq. induction ops as [|o ops IH]; intros seq; [constructor|].
  assert (lenz (o :: ops) = lenz ops + 1) as El by (unfold lenz; simpl; lia).
  pose proof (lenz_nonneg ops).
  destruct o; simpl; constructor; simpl; try lia; (eapply Forall_impl; [apply IH|]; simpl; lia).
Qed.

Lemma entries_increasing seq ops : increasing (entries seq ops).
Proof.
  revert seq. induction ops as [|o ops IH]; intros seq; [constructor|].
  destruct o; simpl; constructor; try apply IH;
    (eapply Forall_impl; [apply entries_bounds|]; simpl; lia).
Qed.

Lemma entries_ok seq ops : Forall write_ok ops -> 0 <= seq -> seq + lenz ops <= kMaxSequenceNumber + 1 ->
  Forall mem_entry_ok (entries seq ops).
Proof.
  revert seq. induction ops as [|o ops IH]; intros seq Hok Hs Hl; [constructor|].
  apply Forall_cons in Hok as [Ho Hok].
  assert (lenz (o :: ops) = lenz ops + 1) as El by (unfold lenz; simpl; lia).
  pose proof (lenz_nonneg ops).
  destruct o; simpl in *; constructor; try (apply IH; done || lia); unfold mem_entry_ok; simpl; lia.
Qed.

Lemma insert_ops ops seq om : 0 <= seq -> seq + lenz ops < 18446744073709551616 ->
  ins_mem (foldl do_op (mkInserter seq om) ops) = om ≫= add_all (entries seq ops).
Proof.
  revert seq om. induction ops as [|o ops IH]; intros seq om Hs Hl; [by destruct om|].
  assert (lenz (o :: ops) = lenz ops + 1) as El by (unfold lenz; simpl; lia).
  pose proof (lenz_nonneg ops). cbn [foldl].
  assert (u64 (seq + 1) = seq + 1) as Eu by (unfold u64; apply Z.mod_small; lia).
  destruct o as [k v|k]; cbn [do_op on_put on_delete MemTableInserter]; unfold insert_write;
    cbn [ins_sequence ins_mem]; rewrite Eu, IH by lia; destruct om as [m|]; simpl; done.
Qed.

Lemma increasing_entries es seq ops : increasing es -> Forall (fun e => e_seq e < seq) es ->
  increasing (es ++ entries seq ops).
Proof.
  intros Hinc Hlt. apply StronglySorted_app. split; [|split; [done|apply entries_increasing]].
  rewrite Forall_forall in Hlt. pose proof (entries_bounds seq ops) as Hb. rewrite Forall_forall in Hb.
  intros a b Ha Hb'. specialize (Hlt a Ha). specialize (Hb b Hb'). lia.
Qed.

(** Inserting a batch adds its operations, numbered from its sequence number. *)
Lemma InsertInto_build m es seq ops : MemInv m es -> Forall mem_entry_ok es ->
  increasing (es ++ entries seq ops) -> Forall write_ok ops -> lenz ops < 2147483648 ->
  0 <= seq -> seq + lenz ops <= kMaxSequenceNumber + 1 ->
  exists m', InsertInto (build seq ops) m = Some (Some m', status_OK) /\ MemInv m' (es ++ entries seq ops).
Proof.
  intros Hi Hes Hinc Hok Hl Hs Hm. pose proof (lenz_nonneg ops).
  assert (Forall mem_entry_ok (es ++ entries seq ops)) as Hall
    by (apply Forall_app; split; [done|by apply entries_ok]).
  destruct (add_all_inv (entries seq ops) m es Hi Hall Hinc) as (m' & E & Hi').
  exists m'. split; [|done]. unfold InsertInto. change kMaxSequenceNumber with 72057594037927935 in Hm.
  rewrite Iterate_build by done. cbn [mbind option_bind]. rewrite Sequence_build by (unfold is_u64; lia || done).
  rewrite insert_ops by lia. cbn [mbind option_bind]. by rewrite E.
Qed.
