(* ===== verification/Db.v ===== *)
(** * Db: writing to and reading from a database

    [src/leveldb/db/db_impl.cc]: [Write] with its queue of writers, [BuildBatchGroup],
    [MakeRoomForWrite], [CompactMemTable], [Get] and snapshots.  Concurrent calls queue up;
    the writer at the front of the queue leads: it makes room, joins the batches of the
    writers behind it, logs the joint batch, inserts it into the memory table and
    publishes the new sequence number.  The mutex is released while the leader waits, logs
    and inserts, so the state is a record with the leader's position in it, and each stretch
    between two points at which other threads may run is one step.

    The table files are behind an interface, [Tables].  The memory a table takes is a
    parameter, because it depends on the addresses the allocator returns.

    The main result: whatever the interleaving and whatever input/output fails, calls are
    answered in the order of arrival, and the database holds exactly the writes of the
    calls that were answered [OK]. *)

From S2P Require Import Prelude Text Coding Status Crc LogFile Dbformat MemTable WriteBatch Store.

(** [config] of [dbformat.h] *)
Definition kL0_SlowdownWritesTrigger : Z := 8.
Definition kL0_StopWritesTrigger : Z := 12.

(** What one place of a search makes of the next place's answer. *)
Definition or_next (here : option MemGet) (next : GetResult) : GetResult :=
  match here with
  | Some (MemTable.Found v) => Store.Found v
  | Some Deleted => NotFound
  | Some NotInTable => next
  | None => GetError
  end.

(** What the write path relies on from the table files: looking up a key
    ([Version::Get]), the number of files at level 0, adding a memory table as a file
    ([WriteLevel0Table] and [LogAndApply]), and merging files for readers from a sequence
    number on ([DoCompactionWork], for one choice of files). *)
Class Tables (V : Type) := {
  version_get : V -> LookupKey -> GetResult;
  NumLevelFiles0 : V -> Z;
  add_table : MemTable -> V -> V;
  merge_tables : nat -> Z -> V -> V
}.

(** A new table is searched before the others, and a merge is not seen by the readers it is
    done for. *)
Class TablesLaws (V : Type) `{Tables V} := {
  get_add m v u s : version_get (add_table m v) (new_LookupKey u s)
    = or_next (mem_Get (new_LookupKey u s) m) (version_get v (new_LookupKey u s));
  get_merge c smallest v u s : smallest <= s ->
    version_get (merge_tables c smallest v) (new_LookupKey u s) = version_get v (new_LookupKey u s)
}.

(** [DBImpl::Writer], and the number of the call it stands for *)
Record DBWriter := mkDBWriter { w_id : nat; w_batch : option WriteBatch; w_sync : bool }.

(** ** [BuildBatchGroup] *)

Definition ByteSize (b : WriteBatch) : Z := lenz (rep_ b).

(** The loop over the writers after the first: [result], whether it is [tmp_batch_], and
    the number of writers up to [last_writer]. *)
Fixpoint group_loop (first_sync : bool) (first tmp : WriteBatch) (max_size size : Z)
    (result : WriteBatch) (is_tmp : bool) (n : nat) (ws : list DBWriter) : WriteBatch * bool * nat :=
  match ws with
  | [] => (result, is_tmp, n)
  | w :: ws =>
    if w_sync w && negb first_sync then (result, is_tmp, n)
    else
      match w_batch w with
      | Some b =>
        let size := size + ByteSize b in
        if max_size <? size then (result, is_tmp, n)
        else
          let result := if is_tmp then result else Append tmp first in
          group_loop first_sync first tmp max_size size (Append result b) true (S n) ws
      | None => group_loop first_sync first tmp max_size size result is_tmp (S n) ws
      end
  end.

Definition BuildBatchGroup (tmp first : WriteBatch) (first_sync : bool) (ws : list DBWriter)
    : WriteBatch * bool * nat :=
  let size := ByteSize first in
  let max_size := if size <=? Z.shiftl 128 10 then size + Z.shiftl 128 10 else Z.shiftl 1 20 in
  group_loop first_sync first tmp max_size size first false 1 ws.

(** ** What the database promises *)

(** A call of [Write], seen from outside: its operations ([None] for the null batch). *)
Record Call := mkCall { c_id : nat; c_sync : bool; c_ops : option (list WriteOp) }.

Definition ops_of (c : Call) : list WriteOp := default [] (c_ops c).

Definition writer_of (c : Call) : DBWriter :=
  mkDBWriter (c_id c) (foldl do_op Clear <$> c_ops c) (c_sync c).

Definition call_ok (c : Call) : Prop := Forall write_ok (ops_of c) /\ lenz (ops_of c) < 2147483648.

(** A database as a function from keys to answers. *)
Definition apply_op (f : text -> GetResult) (o : WriteOp) : text -> GetResult :=
  match o with
  | PutOp k v => fun u => if decide (u = k) then Store.Found v else f u
  | DeleteOp k => fun u => if decide (u = k) then NotFound else f u
  end.
Definition apply_ops (f : text -> GetResult) (ops : list WriteOp) : text -> GetResult :=
  foldl apply_op f ops.

(** The operations of the calls that were answered [OK]. *)
Definition applied (calls : list Call) (sts : list Status) : list WriteOp :=
  concat (zip_with (fun c s => if status_ok s then ops_of c else []) calls sts).

Definition key_fits (u : text) : Prop := lenz u + 8 < 4294967296.

(** ** Entries *)

Definition op_of (e : MemEntry) : WriteOp :=
  match e_type e with kTypeValue => PutOp (e_key e) (e_value e) | kTypeDeletion => DeleteOp (e_key e) end.

Lemma op_of_entries seq ops : op_of <$> entries seq ops = ops.
Proof. revert seq. induction ops as [|[k v|k] ops IH]; intros seq; simpl; f_equal; auto. Qed.

Lemma latest_app u s a b :
  latest u s (a ++ b) = match latest u s b with Some e => Some e | None => latest u s a end.
Proof. unfold latest. rewrite filter_app, last_app. done. Qed.

Lemma chain_latest u s a b f : or_next (Some (outcome (latest u s b))) (or_next (Some (outcome (latest u s a))) f)
  = or_next (Some (outcome (latest u s (a ++ b)))) f.
Proof. rewrite latest_app. destruct (latest u s b) as [e|]; [|done]. simpl. by destruct (e_type e). Qed.

Lemma latest_none u s es : Forall (fun e => s < e_seq e) es -> latest u s es = None.
Proof.
  intros Hs. unfold latest. replace (filter (visible u s) es) with (@nil MemEntry); [done|]. symmetry.
  induction Hs as [|e es He Hs IH]; [done|]. rewrite filter_cons_False; [done|]. unfold visible. lia.
Qed.

Lemma latest_apply u s es f : Forall (fun e => e_seq e <= s) es ->
  or_next (Some (outcome (latest u s es))) (f u) = apply_ops f (op_of <$> es) u.
Proof.
  induction es as [|e es IH] using rev_ind; intros Hs; [done|]. apply Forall_app in Hs as [Hs He].
  rewrite Forall_singleton in He. rewrite latest_app, fmap_app. unfold apply_ops. rewrite foldl_app.
  cbn [fmap list_fmap foldl]. fold (apply_ops f (op_of <$> es)). unfold latest at 1. destruct (decide (e_key e = u)) as [Eu|Eu].
  - rewrite filter_cons_True, filter_nil by done. simpl. unfold op_of.
    destruct (e_type e); simpl; by rewrite decide_True.
  - rewrite filter_cons_False, filter_nil by (unfold visible; tauto). cbn [last]. rewrite IH by done.
    unfold op_of at 3. destruct (e_type e); simpl; by rewrite decide_False.
Qed.

(** ** Groups *)

Lemma batch_build ops : lenz ops < 2147483648 -> foldl do_op Clear ops = build 0 ops.
Proof.
  intros Hl. rewrite build_layout by done. induction ops as [|o ops IH] using rev_ind; [done|].
  rewrite lenz_app in Hl. unfold lenz in Hl. cbn [length] in Hl. rewrite foldl_app. cbn [foldl].
  rewrite IH by (unfold lenz; lia). apply add_op. lia.
Qed.

Lemma op_bytes_length ops : (length ops <= length (concat (op_bytes <$> ops)))%nat.
Proof.
  induction ops as [|o ops IH]; [done|]. cbn [fmap list_fmap concat length]. rewrite length_app.
  destruct o; cbn [op_bytes length]; lia.
Qed.

Lemma ByteSize_build seq ops : lenz ops < 2147483648 -> lenz ops <= ByteSize (build seq ops).
Proof.
  intros Hl. rewrite build_layout by done. unfold ByteSize, lenz. cbn [rep_]. rewrite layout_length.
  pose proof (op_bytes_length ops). lia.
Qed.

(** A group is the batch of the operations of its calls. *)
Lemma group_loop_spec first_sync first max_size queue :
  lenz (ops_of first) < 2147483648 -> max_size <= 1048576 -> Forall call_ok queue ->
  forall acc size is_tmp n, size >= lenz acc -> lenz acc < 2147483648 ->
  (is_tmp = false -> acc = ops_of first) ->
  exists is_tmp' k,
    group_loop first_sync (build 0 (ops_of first)) Clear max_size size (build 0 acc) is_tmp n
      (writer_of <$> queue)
    = (build 0 (acc ++ concat (ops_of <$> take k queue)), is_tmp', (n + k)%nat)
    /\ (k <= length queue)%nat /\ lenz (acc ++ concat (ops_of <$> take k queue)) < 2147483648.
Proof.
  intros Hf Hmax Hq. induction Hq as [|c queue Hc Hq IH]; intros acc size is_tmp n Hs Ha Ht.
  { exists is_tmp, 0%nat. simpl. by rewrite app_nil_r, Nat.add_0_r. }
  assert (exists is_tmp' k, (build 0 acc, is_tmp, n)
    = (build 0 (acc ++ concat (ops_of <$> take k (c :: queue))), is_tmp', (n + k)%nat)
    /\ (k <= length (c :: queue))%nat
    /\ lenz (acc ++ concat (ops_of <$> take k (c :: queue))) < 2147483648) as Hstop.
  { exists is_tmp, 0%nat. simpl. rewrite app_nil_r, Nat.add_0_r. split; [done|]. split; [lia|done]. }
  cbn [fmap list_fmap group_loop]. destruct (w_sync (writer_of c) && negb first_sync); [done|].
  destruct Hc as [Hok Hl]. destruct c as [call sync [ops|]]; cbn [writer_of w_batch c_ops fmap option_fmap option_map];
    cbn [ops_of c_ops from_option id] in Hok, Hl.
  - rewrite batch_build by done. destruct (Z.ltb_spec max_size (size + ByteSize (build 0 ops))); [done|].
    pose proof (ByteSize_build 0 ops Hl). pose proof (lenz_nonneg acc). pose proof (lenz_nonneg ops).
    assert (lenz (acc ++ ops) < 2147483648) as Hal by (rewrite lenz_app; lia).
    assert (Append (if is_tmp then build 0 acc else Append Clear (build 0 (ops_of first))) (build 0 ops)
      = build 0 (acc ++ ops)) as ->.
    { destruct is_tmp; [by apply Append_build|]. rewrite Ht by done. rewrite <- build_Clear.
      rewrite Append_build by done. rewrite app_nil_l, <- Ht by done. by apply Append_build. }
    destruct (IH (acc ++ ops) (size + ByteSize (build 0 ops)) true (S n)) as (t & k & E & Hk & Hb);
      [rewrite lenz_app; lia|done|done|].
    exists t, (S k). cbn [take fmap list_fmap concat ops_of c_ops from_option id]. rewrite app_assoc.
    rewrite E. split; [f_equal; lia|]. split; [simpl; lia|done].
  - destruct (IH acc size is_tmp (S n)) as (t & k & E & Hk & Hb); [done..|].
    exists t, (S k). cbn [take fmap list_fmap concat ops_of c_ops from_option id]. rewrite app_nil_l.
    rewrite E. split; [f_equal; lia|]. split; [simpl; lia|done].
Qed.

Lemma BuildBatchGroup_spec first queue : call_ok first -> Forall call_ok queue ->
  exists is_tmp k,
    BuildBatchGroup Clear (build 0 (ops_of first)) (c_sync first) (writer_of <$> queue)
    = (build 0 (concat (ops_of <$> take (S k) (first :: queue))), is_tmp, S k)
    /\ (k <= length queue)%nat /\ lenz (concat (ops_of <$> take (S k) (first :: queue))) < 2147483648.
Proof.
  intros [_ Hf] Hq. unfold BuildBatchGroup. set (max_size := (if (_ <=? _) then _ else _ : Z)).
  pose proof (ByteSize_build 0 (ops_of first) Hf).
  destruct (group_loop_spec (c_sync first) first max_size queue Hf) with (acc := ops_of first)
    (size := ByteSize (build 0 (ops_of first))) (is_tmp := false) (n := 1%nat) as (t & k & E & Hk & Hb).
  - unfold max_size. destruct (Z.leb_spec (ByteSize (build 0 (ops_of first))) (Z.shiftl 128 10)) as [Hs|_]; [|done].
    change (Z.shiftl 128 10) with 131072 in *. lia.
  - done.
  - lia.
  - done.
  - done.
  - exists t, k. cbn [take fmap list_fmap concat]. rewrite E. done.
Qed.

(** [DB::Put] and [DB::Delete] *)
Definition db_Put (id : nat) (sync : bool) (key value : text) : DBWriter :=
  mkDBWriter id (Some (Put key value Clear)) sync.
Definition db_Delete (id : nat) (sync : bool) (key : text) : DBWriter :=
  mkDBWriter id (Some (Delete key Clear)) sync.

Section db.
Variable accelerated : Z -> text -> Z.
Variable align : nat.
Context {V : Type} `{Tables V}.
Variable ApproximateMemoryUsage : MemTable -> Z.
Variable write_buffer_size : Z.

(** ** The state *)

(** What the leader works on: the batch, whether it is [tmp_batch_], the number of
    writers it answers, and [last_sequence]. *)
Record Group := mkGroup { g_batch : WriteBatch; g_tmp : bool; g_writers : nat; g_last : Z }.

(** Where the leader is in [Write]. *)
Inductive WritePhase :=
  | Idle
  | Making (force allow_delay : bool)
  | Grouped (g : Group)
  | Logged (g : Group) (status : Status) (sync_error : bool)
  | Inserted (g : Group) (status : Status) (sync_error : bool).

Record DBImpl := mkDB {
  writers_ : list DBWriter;
  phase : WritePhase;
  mem_ : MemTable;
  imm_ : option MemTable;
  versions_ : V;
  last_sequence_ : Z;
  saved_sequence_ : Z;           (* the last sequence number the descriptor records *)
  log_ : Writer;
  logs_ : list text;             (* the earlier log files still needed *)
  bg_error_ : Status;
  tmp_batch_ : WriteBatch;
  snapshots_ : list Z;
  replies : list (nat * Status)  (* the calls that returned *)
}.

#[export] Instance eta_DBImpl : Eta DBImpl := fun d =>
  mkDB (writers_ d) (phase d) (mem_ d) (imm_ d) (versions_ d) (last_sequence_ d)
    (saved_sequence_ d) (log_ d) (logs_ d) (bg_error_ d) (tmp_batch_ d) (snapshots_ d) (replies d).

(** A database just opened, with a new log and an empty memory table. *)
Definition opened (v : V) (last_sequence : Z) : DBImpl :=
  mkDB [] Idle new_MemTable None v last_sequence last_sequence (new_Writer []) [] status_OK Clear [] [].

Definition RecordBackgroundError (s : Status) (db : DBImpl) : DBImpl :=
  if status_ok (bg_error_ db) then db <| bg_error_ := s |> else db.

(** ** [MakeRoomForWrite] *)

(** One round of its loop ends the loop or goes on. *)
Inductive Room := Break (s : Status) | Again (force allow_delay : bool).

(** What the file system answers: opening the new log file, closing the old one. *)
Record RoomIO := mkRoomIO { io_open : Status; io_close : Status }.

Definition make_room (io : RoomIO) (force allow_delay : bool) (db : DBImpl) : DBImpl * Room :=
  if negb (status_ok (bg_error_ db)) then (db, Break (bg_error_ db))
  else if allow_delay && (kL0_SlowdownWritesTrigger <=? NumLevelFiles0 (versions_ db)) then
    (db, Again force false)
  else if negb force && (ApproximateMemoryUsage (mem_ db) <=? write_buffer_size) then
    (db, Break status_OK)
  else if bool_decide (is_Some (imm_ db)) then (db, Again force allow_delay)
  else if kL0_StopWritesTrigger <=? NumLevelFiles0 (versions_ db) then (db, Again force allow_delay)
  else if negb (status_ok (io_open io)) then (db, Break (io_open io))
  else
    let db := if status_ok (io_close io) then db else RecordBackgroundError (io_close io) db in
    (db <| logs_ ::= fun l => l ++ [dest_ (log_ db)] |> <| log_ := new_Writer [] |>
        <| imm_ := Some (mem_ db) |> <| mem_ := new_MemTable |>, Again false allow_delay).

(** ** [Write] *)

(** The loop at the end of [Write]: the writers up to [last_writer] leave the queue. *)
Definition finish_write (n : nat) (status : Status) (db : DBImpl) : DBImpl :=
  db <| replies ::= fun l => l ++ ((fun w => (w_id w, status)) <$> take n (writers_ db)) |>
     <| writers_ := drop n (writers_ db) |> <| phase := Idle |>.

(** Joining the batches and numbering the joint batch. *)
Definition form_group (b : WriteBatch) (w : DBWriter) (ws : list DBWriter) (db : DBImpl) : DBImpl :=
  let '(write_batch, is_tmp, n) := BuildBatchGroup (tmp_batch_ db) b (w_sync w) ws in
  let write_batch := SetSequence (u64 (last_sequence_ db + 1)) write_batch in
  let last_sequence := u64 (last_sequence_ db + Count write_batch) in
  db <| phase := Grouped (mkGroup write_batch is_tmp n last_sequence) |>
     <| tmp_batch_ := if is_tmp then write_batch else tmp_batch_ db |>.

(** What the file system answers when the log is appended to and when it is synced. *)
Record LogIO := mkLogIO { io_append : list Answer; io_sync : Status }.

Inductive DBEvent :=
  | Arrive (w : DBWriter)        (* a call of [Write] enters the queue *)
  | Begin                        (* the writer at the front becomes the leader *)
  | MakeRoom (io : RoomIO)       (* a round of [MakeRoomForWrite]; the group is formed at its end *)
  | LogRecord (io : LogIO)
  | InsertBatch
  | Publish
  | Flush (s : Status)           (* [CompactMemTable], with the status of its output *)
  | Merge (choice : nat)
  | TakeSnapshot
  | ReleaseSnapshot (s : Z).

(** The compaction keeps what the oldest snapshot sees. *)
Definition smallest_snapshot (db : DBImpl) : Z :=
  match snapshots_ db with [] => last_sequence_ db | s :: _ => s end.

Fixpoint remove_first (s : Z) (l : list Z) : list Z :=
  match l with [] => [] | x :: l => if x =? s then l else x :: remove_first s l end.

(** [CompactMemTable], for a status of writing the table and the descriptor; the earlier
    log files are then removed. *)
Definition CompactMemTable (s : Status) (imm : MemTable) (db : DBImpl) : DBImpl :=
  if status_ok s then
    db <| versions_ ::= add_table imm |> <| saved_sequence_ := last_sequence_ db |>
       <| imm_ := None |> <| logs_ := [] |>
  else RecordBackgroundError s db.

Definition GetSnapshot (db : DBImpl) : DBImpl := db <| snapshots_ ::= fun l => l ++ [last_sequence_ db] |>.

(** The step of the leader from the group to the log: [AddRecord] and [Sync]. *)
Definition log_group (io : LogIO) (g : Group) (sync : bool) (db : DBImpl) : option DBImpl :=
  '(log, status) ← AddRecord accelerated align (io_append io) (rep_ (g_batch g)) (log_ db);
  let synced := status_ok status && sync in
  let status := if synced then io_sync io else status in
  Some (db <| log_ := log |> <| phase := Logged g status (synced && negb (status_ok status)) |>).

(** From the log to the memory table. *)
Definition insert_group (g : Group) (status : Status) (sync_error : bool) (db : DBImpl) : option DBImpl :=
  if status_ok status then
    '(m, status) ← InsertInto (g_batch g) (mem_ db);
    m ← m;
    Some (db <| mem_ := m |> <| phase := Inserted g status sync_error |>)
  else Some (db <| phase := Inserted g status sync_error |>).

(** With the mutex again: the error, the sequence number and the answers. *)
Definition publish (g : Group) (status : Status) (sync_error : bool) (db : DBImpl) : DBImpl :=
  let db := if sync_error then RecordBackgroundError status db else db in
  let db := if g_tmp g then db <| tmp_batch_ := Clear |> else db in
  let db := db <| last_sequence_ := g_last g |> in
  finish_write (g_writers g) status db.

(** The steps of all threads; [None] for a step that is not possible now. *)
Definition db_step (e : DBEvent) (db : DBImpl) : option DBImpl :=
  match e, phase db, writers_ db with
  | Arrive w, _, _ => Some (db <| writers_ ::= fun l => l ++ [w] |>)
  | Begin, Idle, w :: _ =>
    let force := bool_decide (w_batch w = None) in
    Some (db <| phase := Making force (negb force) |>)
  | MakeRoom io, Making force allow_delay, w :: ws =>
    match make_room io force allow_delay db with
    | (db, Again force allow_delay) => Some (db <| phase := Making force allow_delay |>)
    | (db, Break s) =>
      if status_ok s then
        match w_batch w with
        | Some b => Some (form_group b w ws db)
        | None => Some (finish_write 1 s db)
        end
      else Some (finish_write 1 s db)
    end
  | LogRecord io, Grouped g, w :: _ => log_group io g (w_sync w) db
  | InsertBatch, Logged g status sync_error, _ => insert_group g status sync_error db
  | Publish, Inserted g status sync_error, _ => Some (publish g status sync_error db)
  | Flush s, _, _ =>
    if status_ok (bg_error_ db) then imm ← imm_ db; Some (CompactMemTable s imm db) else None
  | Merge choice, _, _ =>
    if status_ok (bg_error_ db) then
      Some (db <| versions_ ::= merge_tables choice (smallest_snapshot db) |>
               <| saved_sequence_ := last_sequence_ db |>)
    else None
  | TakeSnapshot, _, _ => Some (GetSnapshot db)
  | ReleaseSnapshot s, _, _ => Some (db <| snapshots_ ::= remove_first s |>)
  | _, _, _ => None
  end.

Fixpoint db_run (es : list DBEvent) (db : DBImpl) : option DBImpl :=
  match es with [] => Some db | e :: es => db ← db_step e db; db_run es db end.

(** ** [Get] *)

Definition db_Get (snapshot : option Z) (key : text) (db : DBImpl) : GetResult :=
  let s := match snapshot with Some s => s | None => last_sequence_ db end in
  let lkey := new_LookupKey key s in
  let tables := version_get (versions_ db) lkey in
  or_next (mem_Get lkey (mem_ db))
    (match imm_ db with Some imm => or_next (mem_Get lkey imm) tables | None => tables end).

(** ** Runs *)

Definition arrivals (es : list DBEvent) : list DBWriter :=
  omap (fun e => match e with Arrive w => Some w | _ => None end) es.

(** What the table files answer, from a sequence number on. *)
Definition holds (v : V) (from : Z) (f : text -> GetResult) : Prop :=
  forall u s, key_fits u -> from <= s <= kMaxSequenceNumber -> version_get v (new_LookupKey u s) = f u.

(** ** The invariant *)

Hypothesis Haccelerated : accelerator_ok accelerated.
Context `{!TablesLaws V}.

(** The log files hold groups: sequence numbers and operations. *)
Definition group_fits (g : Z * list WriteOp) : Prop :=
  Forall write_ok g.2 /\ lenz g.2 < 2147483648 /\ 1 <= g.1 /\ g.1 + lenz g.2 <= kMaxSequenceNumber + 1.
Definition entries_of (gs : list (Z * list WriteOp)) : list MemEntry :=
  concat ((fun g => entries g.1 g.2) <$> gs).
Definition records_of (gs : list (Z * list WriteOp)) : list text :=
  (fun g => rep_ (build g.1 g.2)) <$> gs.
Definition logged_as (gs : list (Z * list WriteOp)) (w : Writer) : Prop :=
  write_records accelerated align (records_of gs) (new_Writer []) = Some w /\ Forall group_fits gs.

(** The operations of a group, by the calls waiting in the queue. *)
Definition group_ops (g : Group) (queue : list Call) : list WriteOp :=
  concat (ops_of <$> take (g_writers g) queue).

(** The group being written, when it is in the log; its entries, when they are in the
    memory table. *)
Definition in_log (db : DBImpl) (queue : list Call) : list (Z * list WriteOp) :=
  match phase db with
  | Logged g _ _ | Inserted g _ _ => [(last_sequence_ db + 1, group_ops g queue)]
  | _ => []
  end.
Definition in_mem (db : DBImpl) (queue : list Call) : list MemEntry :=
  match phase db with
  | Inserted g st _ =>
    if status_ok st then entries (last_sequence_ db + 1) (group_ops g queue) else []
  | _ => []
  end.

Definition group_inv (g : Group) (queue : list Call) (db : DBImpl) : Prop :=
  let ops := group_ops g queue in
  (1 <= g_writers g <= length queue)%nat /\ g_batch g = build (last_sequence_ db + 1) ops
  /\ lenz ops < 2147483648 /\ g_last g = last_sequence_ db + lenz ops
  /\ (g_tmp g = false -> tmp_batch_ db = Clear).

Definition phase_inv (queue : list Call) (db : DBImpl) : Prop :=
  match phase db with
  | Idle => tmp_batch_ db = Clear
  | Making _ _ => tmp_batch_ db = Clear /\ queue <> []
  | Grouped g => group_inv g queue db
  | Logged g _ _ | Inserted g _ _ => group_inv g queue db
  end.

(** The entries are the writes of the first calls. *)
Definition aligned (served : list Call) (sts : list Status) (es : list MemEntry) : Prop :=
  exists j, (j <= length served)%nat /\ op_of <$> es = applied (take j served) sts.

(** The group was logged without an error. *)
Definition phase_ok (db : DBImpl) : Prop :=
  match phase db with Logged _ st _ | Inserted _ st _ => status_ok st = true | _ => True end.

(** [ev], [ei] and [em] are the writes the table files, the immutable and the mutable
    memory table hold. *)
Record DBInv (last0 : Z) (base : text -> GetResult) (clean : bool) (served queue : list Call)
    (db : DBImpl) (ev ei em : list MemEntry) : Prop := {
  inv_writers : writers_ db = writer_of <$> queue;
  inv_replies : (replies db).*1 = c_id <$> served;
  inv_tables : forall u s, key_fits u ->
    Z.min (saved_sequence_ db) (smallest_snapshot db) <= s <= kMaxSequenceNumber ->
    version_get (versions_ db) (new_LookupKey u s) = or_next (Some (outcome (latest u s ev))) (base u);
  inv_imm : match imm_ db with Some m => MemInv m ei | None => ei = [] end;
  inv_mem : MemInv (mem_ db) (em ++ in_mem db queue);
  inv_ok : Forall mem_entry_ok ((ev ++ ei ++ em) ++ in_mem db queue);
  inv_inc : increasing ((ev ++ ei ++ em) ++ in_mem db queue);
  inv_le : Forall (fun e => e_seq e <= last_sequence_ db) (ev ++ ei ++ em);
  inv_ops : op_of <$> (ev ++ ei ++ em) = applied served (replies db).*2;
  inv_last : 0 <= last_sequence_ db <= last0 + lenz (concat (ops_of <$> served));
  inv_snap : StronglySorted Z.le (0 :: snapshots_ db ++ [last_sequence_ db]);
  inv_offset : 0 <= block_offset_ (log_ db) <= kBlockSize;
  inv_saved : Forall (fun e => e_seq e <= saved_sequence_ db) ev
    /\ 0 <= saved_sequence_ db <= last_sequence_ db;
  inv_files : clean = true -> exists gi gm, logged_as (gm ++ in_log db queue) (log_ db)
    /\ entries_of gm = em
    /\ (forall k, aligned served (replies db).*2 (ev ++ ei ++ entries_of (take k gm)))
    /\ match imm_ db with
       | Some _ => exists w, logs_ db = [dest_ w] /\ logged_as gi w /\ entries_of gi = ei
       | None => logs_ db = []
       end
    /\ phase_ok db;
  inv_phase : phase_inv queue db
}.

Lemma opened_inv v last0 base : 0 <= last0 -> holds v last0 base ->
  DBInv last0 base true [] [] (opened v last0) [] [] [].
Proof.
  intros Hl Hv. constructor; simpl; try done.
  - intros u s Hu Hs. apply Hv; [done|]. unfold smallest_snapshot in Hs. simpl in Hs. lia.
  - apply new_MemTable_inv.
  - constructor.
  - unfold lenz. simpl. lia.
  - repeat constructor; lia.
  - intros _. exists [], []. split; [done|]. split; [done|]. split; [|done]. intros k. exists 0%nat.
    by rewrite take_nil.
Qed.

Lemma write_records_snoc recs r w :
  write_records accelerated align (recs ++ [r]) w
  = (w' ← write_records accelerated align recs w; fst <$> AddRecord accelerated align [] r w').
Proof.
  revert w. induction recs as [|x recs IH]; intros w; cbn [write_records app].
  - simpl. by destruct (AddRecord accelerated align [] r w) as [[w' s]|].
  - destruct (AddRecord accelerated align [] x w) as [[w' s]|]; simpl; [apply IH|done].
Qed.

Lemma entries_of_app a b : entries_of (a ++ b) = entries_of a ++ entries_of b.
Proof. unfold entries_of. by rewrite fmap_app, concat_app. Qed.

Lemma entries_of_snoc gs s ops : entries_of (gs ++ [(s, ops)]) = entries_of gs ++ entries s ops.
Proof. unfold entries_of. rewrite fmap_app, concat_app. simpl. by rewrite app_nil_r. Qed.

Lemma applied_snoc served g sts st : length served = length sts ->
  applied (served ++ g) (sts ++ replicate (length g) st)
  = applied served sts ++ if status_ok st then concat (ops_of <$> g) else [].
Proof.
  intros El. unfold applied. rewrite zip_with_app by done. rewrite concat_app. f_equal.
  induction g as [|c g IH]; simpl; [by case_match|]. rewrite IH. by case_match.
Qed.

Lemma applied_take j served g sts st : length served = length sts -> (j <= length served)%nat ->
  applied (take j (served ++ g)) (sts ++ st) = applied (take j served) sts.
Proof.
  intros El Hj. rewrite take_app_le by done. unfold applied. f_equal.
  revert sts j El Hj. induction served as [|c served IH]; intros [|s sts] [|j] El Hj; simpl in *; try done; try lia.
  - f_equal. apply IH; lia.
Qed.

Lemma aligned_app served g sts st es : length served = length sts -> aligned served sts es ->
  aligned (served ++ g) (sts ++ st) es.
Proof.
  intros El (j & Hj & E). exists j. rewrite length_app. split; [lia|]. by rewrite E, applied_take.
Qed.

Lemma aligned_all served sts es : op_of <$> es = applied served sts -> aligned served sts es.
Proof. intros E. exists (length served). by rewrite firstn_all. Qed.

Lemma smallest_le db : StronglySorted Z.le (0 :: snapshots_ db ++ [last_sequence_ db]) ->
  0 <= smallest_snapshot db <= last_sequence_ db.
Proof.
  unfold smallest_snapshot. intros Hs. destruct (snapshots_ db) as [|s l]; simpl in Hs;
    inversion_clear Hs as [|? ? Hs' H0]; rewrite Forall_forall in H0.
  - specialize (H0 (last_sequence_ db)). split; [apply H0; set_solver|lia].
  - inversion_clear Hs' as [|? ? _ H1]. rewrite Forall_forall in H1.
    split; [apply H0|apply H1]; set_solver.
Qed.

Lemma in_mem_after db queue : Forall (fun e => last_sequence_ db < e_seq e) (in_mem db queue).
Proof.
  unfold in_mem. destruct (phase db) as [| | | |g st se]; try constructor.
  case_match; [|constructor]. eapply Forall_impl; [apply entries_bounds|]. simpl. lia.
Qed.

(** ** Reading *)

Section reading.
Context (last0 : Z) (base : text -> GetResult) (clean : bool) (served queue : list Call)
  (db : DBImpl) (ev ei em : list MemEntry).
Hypothesis Hinv : DBInv last0 base clean served queue db ev ei em.

Lemma split_entries :
  (Forall mem_entry_ok ev /\ Forall mem_entry_ok ei /\ Forall mem_entry_ok (em ++ in_mem db queue))
  /\ (increasing ei /\ increasing (em ++ in_mem db queue)).
Proof.
  pose proof (inv_ok _ _ _ _ _ _ _ _ _ Hinv) as Hok. pose proof (inv_inc _ _ _ _ _ _ _ _ _ Hinv) as Hinc.
  rewrite <- !app_assoc in Hok, Hinc. apply Forall_app in Hok as [Hv Hok]. apply Forall_app in Hok as [Hi Hm].
  apply StronglySorted_app in Hinc as (_ & _ & Hinc). apply StronglySorted_app in Hinc as (_ & Hi' & Hm').
  done.
Qed.

Lemma get_history u s : key_fits u -> smallest_snapshot db <= s <= last_sequence_ db ->
  last_sequence_ db <= kMaxSequenceNumber ->
  db_Get (Some s) u db = or_next (Some (outcome (latest u s (ev ++ ei ++ em)))) (base u).
Proof.
  intros Hu Hs Hl. destruct split_entries as ((Hv & Hi & Hm) & Hii & Him). destruct Hinv.
  pose proof (smallest_le db inv_snap0). unfold db_Get. cbv zeta.
  rewrite (Get_spec _ _ u s inv_mem0 Hm Him) by (done || lia).
  rewrite (latest_app _ _ em), (latest_none _ _ (in_mem db queue))
    by (eapply Forall_impl; [apply in_mem_after|]; simpl; lia).
  rewrite <- 2!chain_latest. f_equal.
  rewrite <- inv_tables0 by (done || lia).
  destruct (imm_ db) as [imm|].
  - by rewrite (Get_spec _ _ u s inv_imm0 Hi Hii) by (done || lia).
  - by subst ei.
Qed.

Lemma get_applied u : key_fits u -> last_sequence_ db <= kMaxSequenceNumber ->
  db_Get None u db = apply_ops base (applied served (replies db).*2) u.
Proof.
  intros Hu Hl. change (db_Get None u db) with (db_Get (Some (last_sequence_ db)) u db).
  pose proof (smallest_le db (inv_snap _ _ _ _ _ _ _ _ _ Hinv)).
  rewrite get_history by (done || lia). rewrite latest_apply by apply Hinv.
  by rewrite (inv_ops _ _ _ _ _ _ _ _ _ Hinv).
Qed.
End reading.

(** ** The steps *)

Lemma group_ops_app g queue c db : group_inv g queue db -> group_ops g (queue ++ [c]) = group_ops g queue.
Proof. intros ((_ & Hn) & _). unfold group_ops. by rewrite take_app_le by lia. Qed.

Lemma arrive_inv last0 base clean served queue db ev ei em c :
  DBInv last0 base clean served queue db ev ei em ->
  DBInv last0 base clean served (queue ++ [c]) (db <| writers_ ::= fun l => l ++ [writer_of c] |>) ev ei em.
Proof.
  intros Hinv. destruct Hinv.
  assert (in_mem (db <| writers_ ::= fun l => l ++ [writer_of c] |>) (queue ++ [c]) = in_mem db queue
    /\ in_log (db <| writers_ ::= fun l => l ++ [writer_of c] |>) (queue ++ [c]) = in_log db queue) as [Em El].
  { unfold in_mem, in_log, phase_inv in *. simpl. destruct (phase db); try done;
      by rewrite (group_ops_app _ _ _ _ inv_phase0). }
  constructor; rewrite ?Em, ?El; try done.
  - simpl. by rewrite inv_writers0, fmap_app.
  - unfold phase_inv in *. simpl. destruct (phase db) as [| |g|g ? ?|g ? ?]; try done.
    + destruct inv_phase0 as [? ?]. split; [done|]. by destruct queue.
    + all: pose proof (group_ops_app _ _ c _ inv_phase0) as E; unfold group_inv in *; simpl; rewrite E, length_app;
        destruct inv_phase0 as ([? ?] & ?); (split; [lia|done]).
    + pose proof (group_ops_app _ _ c _ inv_phase0) as E; unfold group_inv in *; simpl; rewrite E, length_app;
        destruct inv_phase0 as ([? ?] & ?); (split; [lia|done]).
    + pose proof (group_ops_app _ _ c _ inv_phase0) as E; unfold group_inv in *; simpl; rewrite E, length_app;
        destruct inv_phase0 as ([? ?] & ?); (split; [lia|done]).
Qed.

(** A step that leaves the entries alone: neither the group's nor the tables' change. *)
Lemma quiet_step last0 base clean served queue db db' ev ei em :
  DBInv last0 base clean served queue db ev ei em ->
  writers_ db' = writers_ db -> replies db' = replies db -> versions_ db' = versions_ db ->
  imm_ db' = imm_ db -> mem_ db' = mem_ db -> last_sequence_ db' = last_sequence_ db ->
  saved_sequence_ db' = saved_sequence_ db ->
  log_ db' = log_ db -> logs_ db' = logs_ db -> snapshots_ db' = snapshots_ db ->
  in_mem db' queue = in_mem db queue -> in_log db' queue = in_log db queue ->
  (phase_ok db -> phase_ok db') -> phase_inv queue db' ->
  DBInv last0 base clean served queue db' ev ei em.
Proof.
  intros [] Ew Er Ev Ei Em El Ea Eo Es En Ein Eil Hok Hp.
  constructor; unfold smallest_snapshot in *;
    rewrite ?Ew, ?Er, ?Ev, ?Ei, ?Em, ?El, ?Ea, ?Eo, ?Es, ?En, ?Ein, ?Eil; try done.
  intros Hc. destruct (inv_files0 Hc) as (gi & gm & ? & ? & ? & ? & ?). exists gi, gm.
  repeat (split; [done|]). auto.
Qed.

Lemma reply_parts n (st : Status) queue :
  let l := (fun w => (w_id w, st)) <$> take n (writer_of <$> queue) in
  l.*1 = c_id <$> take n queue /\ l.*2 = replicate (length (take n queue)) st.
Proof. cbv zeta. rewrite <- fmap_take. induction (take n queue) as [|c q [IH1 IH2]]; [done|]. split; csimpl; by f_equal. Qed.

(** Answering the first [n] calls of the queue. *)
Lemma answer_inv last0 base clean served queue db db' n st ev ei em :
  DBInv last0 base clean served queue db ev ei em ->
  writers_ db' = writers_ db -> replies db' = replies db -> versions_ db' = versions_ db ->
  imm_ db' = imm_ db -> mem_ db' = mem_ db -> log_ db' = log_ db -> logs_ db' = logs_ db ->
  snapshots_ db' = snapshots_ db -> saved_sequence_ db' = saved_sequence_ db -> tmp_batch_ db' = Clear ->
  (n <= length queue)%nat -> (phase_ok db -> entries_of (in_log db queue) = in_mem db queue) ->
  op_of <$> in_mem db queue = (if status_ok st then concat (ops_of <$> take n queue) else []) ->
  last_sequence_ db <= last_sequence_ db' ->
  last_sequence_ db' <= last_sequence_ db + lenz (concat (ops_of <$> take n queue)) ->
  Forall (fun e => e_seq e <= last_sequence_ db') (in_mem db queue) ->
  DBInv last0 base clean (served ++ take n queue) (drop n queue) (finish_write n st db')
    ev ei (em ++ in_mem db queue).
Proof.
  intros [] Ew Er Ev Ei Em Eo Es En Ea Et Hn Eil Eops Hl Hl' Hle.
  assert (in_mem (finish_write n st db') (drop n queue) = []) as Ein by done.
  assert (length served = length (replies db).*2) as Elen.
  { rewrite <- (length_fmap c_id), <- inv_replies0, !length_fmap. done. }
  assert (op_of <$> ev ++ ei ++ em ++ in_mem db queue
    = applied (served ++ take n queue) (replies (finish_write n st db')).*2) as Eall.
  { simpl. rewrite !app_assoc, <- (app_assoc ev), fmap_app, inv_ops0, Eops, Er, Ew, inv_writers0, fmap_app.
    rewrite <- applied_snoc by done. do 2 f_equal. symmetry. apply reply_parts. }
  constructor; rewrite ?Ein; simpl; rewrite ?app_nil_r; try done.
  - by rewrite Ew, inv_writers0, fmap_drop.
  - rewrite Er, Ew, inv_writers0, !fmap_app, inv_replies0. f_equal. apply reply_parts.
  - intros u s Hu Hs. unfold smallest_snapshot in *. simpl in Hs. rewrite Ev. rewrite En, Ea in Hs.
    apply inv_tables0; [done|]. destruct (snapshots_ db); lia.
  - by rewrite Ei.
  - by rewrite Em.
  - by rewrite !app_assoc, <- (app_assoc ev).
  - by rewrite !app_assoc, <- (app_assoc ev).
  - rewrite !app_assoc, <- (app_assoc ev). apply Forall_app. split; [|done].
    eapply Forall_impl; [done|]. simpl. lia.
  - rewrite fmap_app, concat_app, lenz_app. lia.
  - rewrite En. inversion_clear inv_snap0 as [|? ? Hs H0].
    apply StronglySorted_app in Hs as (Hs1 & Hs2 & _). constructor.
    + apply StronglySorted_app. split; [|split; [done|repeat constructor]].
      intros a b Ha ->%list_elem_of_singleton. specialize (Hs1 a (last_sequence_ db) Ha). etrans; [apply Hs1; set_solver|done].
    + apply Forall_app in H0 as [? _]. apply Forall_app. split; [done|]. repeat constructor. lia.
  - by rewrite Eo.
  - rewrite Ea. split; [apply inv_saved0|]. lia.
  - intros Hc. destruct (inv_files0 Hc) as (gi & gm & H1 & H2 & H3 & H4 & H5). exists gi, (gm ++ in_log db queue).
    rewrite Eo, Ei, Es. change (in_log (finish_write n st db') (drop n queue)) with (@nil (Z * list WriteOp)).
    rewrite app_nil_r, entries_of_app, H2, Eil by done. split; [done|]. split; [done|]. split; [|done].
    intros k. destruct (decide (k <= length gm)%nat) as [Hk|Hk].
    + rewrite take_app_le by done. rewrite Er, fmap_app. by apply aligned_app.
    + rewrite (take_ge (gm ++ _)), entries_of_app, H2, Eil; [by apply aligned_all|done|].
      rewrite length_app. unfold in_log. destruct (phase db); cbn [length]; lia.
Qed.

Lemma make_room_inv last0 base clean served queue db ev ei em io force allow_delay db' r f a :
  DBInv last0 base clean served queue db ev ei em -> phase db = Making f a ->
  make_room io force allow_delay db = (db', r) ->
  exists ei' em', DBInv last0 base clean served queue db' ev ei' em' /\ ei' ++ em' = ei ++ em
    /\ phase db' = Making f a /\ last_sequence_ db' = last_sequence_ db
    /\ tmp_batch_ db' = tmp_batch_ db.
Proof.
  intros Hinv Hp. unfold make_room.
  assert (forall r', (db, r') = (db', r) -> exists ei' em', DBInv last0 base clean served queue db' ev ei' em'
    /\ ei' ++ em' = ei ++ em /\ phase db' = Making f a /\ last_sequence_ db' = last_sequence_ db
    /\ tmp_batch_ db' = tmp_batch_ db) as Hsame.
  { intros r' [= <- <-]. by exists ei, em. }
  repeat (case_match; [by apply Hsame|]). intros [= <- _]. clear Hsame.
  assert (~ is_Some (imm_ db)) as Hi by (by eapply bool_decide_eq_false).
  set (db1 := if status_ok (io_close io) then db else _).
  assert (DBInv last0 base clean served queue db1 ev ei em /\ imm_ db1 = None /\ phase db1 = Making f a
    /\ last_sequence_ db1 = last_sequence_ db /\ tmp_batch_ db1 = tmp_batch_ db) as (Hinv1 & Hi1 & Hp1 & El & Et).
  { apply eq_None_not_Some in Hi. unfold db1, RecordBackgroundError. repeat case_match; try done.
    split; [|done]. by eapply quiet_step; [done..|apply Hinv]. }
  exists em, []. rewrite app_nil_r. destruct Hinv1. rewrite Hi1 in inv_imm0, inv_files0. subst ei.
  assert (in_mem db1 queue = [] /\ in_log db1 queue = []) as [Em Eo] by (unfold in_mem, in_log; by rewrite Hp1).
  rewrite Em, Eo, ?app_nil_r in *.
  split; [|by simpl]. constructor; unfold in_mem, in_log, phase_inv in *; simpl; rewrite ?Hp1, ?app_nil_r in *; try done.
  - apply new_MemTable_inv.
  - intros Hc. destruct (inv_files0 Hc) as (_ & gm & H1' & H2' & _ & -> & _). exists gm, [].
    rewrite app_nil_r in H1'. split; [by split|]. split; [done|].
    split; [|split; [by exists (log_ db1)|unfold phase_ok; simpl; by rewrite Hp1]].
    intros k. rewrite take_nil, app_nil_r. by apply aligned_all.
Qed.

Section bounded.
Context (last0 : Z) (base : text -> GetResult) (clean : bool) (served queue : list Call) (db : DBImpl)
  (ev ei em : list MemEntry).
Hypothesis Hinv : DBInv last0 base clean served queue db ev ei em.
Hypothesis Hcalls : Forall call_ok queue.
Hypothesis Hbound : last0 + lenz (concat (ops_of <$> served ++ queue)) <= kMaxSequenceNumber.

(** The numbers of a group do not run out. *)
Lemma group_bound n : lenz (concat (ops_of <$> take n queue)) <= kMaxSequenceNumber - last_sequence_ db.
Proof.
  pose proof (inv_last _ _ _ _ _ _ _ _ _ Hinv) as [_ Hl]. rewrite fmap_app, concat_app, lenz_app in Hbound.
  rewrite <- (take_drop n queue), fmap_app, concat_app, lenz_app in Hbound.
  pose proof (lenz_nonneg (concat (ops_of <$> drop n queue))). lia.
Qed.

Lemma group_writes n : Forall write_ok (concat (ops_of <$> take n queue)).
Proof.
  apply Forall_concat, Forall_fmap, Forall_take. eapply Forall_impl; [done|]. by intros c [? _].
Qed.

Lemma last_bound : 0 <= last_sequence_ db <= kMaxSequenceNumber.
Proof. pose proof (group_bound 0) as Hb. pose proof (inv_last _ _ _ _ _ _ _ _ _ Hinv) as [? _]. simpl in Hb. unfold lenz in Hb. simpl in Hb. lia. Qed.

Lemma form_group_inv c q ops f a : queue = c :: q -> c_ops c = Some ops -> phase db = Making f a ->
  DBInv last0 base clean served queue
    (form_group (foldl do_op Clear ops) (writer_of c) (writer_of <$> q) db) ev ei em.
Proof.
  intros Eq Eo Hp. pose proof last_bound as Hl. change kMaxSequenceNumber with 72057594037927935 in Hl.
  assert (ops = ops_of c) as -> by (unfold ops_of; by rewrite Eo).
  assert (tmp_batch_ db = Clear) as Et.
  { pose proof (inv_phase _ _ _ _ _ _ _ _ _ Hinv) as Hpi. unfold phase_inv in Hpi. rewrite Hp in Hpi. tauto. }
  pose proof Hcalls as Hq. rewrite Eq in Hq. apply Forall_cons in Hq as [Hc Hq].
  rewrite batch_build by apply Hc. unfold form_group. rewrite Et.
  destruct (BuildBatchGroup_spec c q Hc Hq) as (t & k & E & Hk & Hn). cbn [writer_of w_sync]. rewrite E.
  pose proof (group_bound (S k)) as Hgb. rewrite Eq in Hgb. set (gops := concat (ops_of <$> take (S k) (c :: q))) in *.
  change kMaxSequenceNumber with 72057594037927935 in Hgb. pose proof (lenz_nonneg gops).
  rewrite SetSequence_build, Count_build by done.
  assert (u64 (last_sequence_ db + 1) = last_sequence_ db + 1) as -> by (unfold u64; apply Z.mod_small; lia).
  assert (u64 (last_sequence_ db + lenz gops) = last_sequence_ db + lenz gops) as ->
    by (unfold u64; apply Z.mod_small; lia).
  eapply quiet_step; [exact Hinv|done..| | | |]; unfold in_mem, in_log, phase_inv; simpl; [by rewrite Hp..|done|].
  unfold group_inv, group_ops. simpl. rewrite Eq. fold gops. split; [simpl; lia|]. split; [done|].
  split; [done|]. split; [done|]. by intros ->.
Qed.

(** Answering the leader alone, without a group. *)
Lemma finish_alone st f a : phase db = Making f a -> queue <> [] ->
  (status_ok st = true -> forall c, head queue = Some c -> c_ops c = None) ->
  DBInv last0 base clean (served ++ take 1 queue) (drop 1 queue) (finish_write 1 st db) ev ei em.
Proof.
  intros Hp Hq Hst. assert (in_mem db queue = []) as Em by (unfold in_mem; by rewrite Hp).
  pose proof (answer_inv last0 base clean served queue db db 1 st ev ei em Hinv) as Hf.
  rewrite Em, app_nil_r in Hf. apply Hf; try done.
  - pose proof (inv_phase _ _ _ _ _ _ _ _ _ Hinv) as Hpi. unfold phase_inv in Hpi. rewrite Hp in Hpi. tauto.
  - destruct queue; [done|]. simpl. lia.
  - unfold in_log. by rewrite Hp.
  - destruct (status_ok st); [|done]. destruct queue as [|c q]; [done|]. simpl. unfold ops_of.
    by rewrite (Hst eq_refl c eq_refl).
  - pose proof (lenz_nonneg (concat (ops_of <$> take 1 queue))). lia.
Qed.

(** The log after a group was appended. *)
Lemma log_inv g log st se : phase db = Grouped g -> 0 <= block_offset_ log <= kBlockSize ->
  (clean = true -> AddRecord accelerated align [] (rep_ (g_batch g)) (log_ db) = Some (log, status_OK)
    /\ status_ok st = true) ->
  DBInv last0 base clean served queue (db <| log_ := log |> <| phase := Logged g st se |>) ev ei em.
Proof.
  intros Hp Ho Hc. pose proof (group_bound (g_writers g)) as Hgb. pose proof (group_writes (g_writers g)) as Hgw.
  destruct Hinv. assert (in_mem db queue = [] /\ in_log db queue = []) as [Em El] by (unfold in_mem, in_log; by rewrite Hp).
  rewrite Em, El in *. unfold phase_inv in inv_phase0. rewrite Hp in inv_phase0.
  constructor; unfold in_mem, in_log, phase_inv in *; simpl; try done.
  intros Ec. destruct (Hc Ec) as [Ea Est]. destruct (inv_files0 Ec) as (gi & gm & [H1 H2] & H3 & H4 & H5 & _).
  rewrite app_nil_r in H1, H2. exists gi, gm. split; [|done]. destruct inv_phase0 as (_ & Hb & Hl & _ & _). split.
  - unfold records_of. rewrite fmap_app. cbn [fmap list_fmap fst snd]. rewrite write_records_snoc.
    fold (records_of gm). rewrite H1. cbn [mbind option_bind]. by rewrite <- Hb, Ea.
  - apply Forall_app. split; [done|]. rewrite Forall_singleton. unfold group_fits. simpl. fold (group_ops g queue) in Hgb, Hgw.
    split; [done|]. split; [done|]. lia.
Qed.

(** The memory table after a group was inserted. *)
Lemma insert_inv g st se : phase db = Logged g st se -> status_ok st = true ->
  exists m, InsertInto (g_batch g) (mem_ db) = Some (Some m, status_OK)
  /\ DBInv last0 base clean served queue (db <| mem_ := m |> <| phase := Inserted g status_OK se |>) ev ei em.
Proof.
  intros Hp Hst. pose proof (group_bound (g_writers g)) as Hgb. pose proof (group_writes (g_writers g)) as Hgw.
  pose proof last_bound as Hlb. destruct (split_entries _ _ _ _ _ _ _ _ _ Hinv) as ((_ & _ & Hok) & _ & Hinc).
  destruct Hinv. assert (in_mem db queue = []) as Em by (unfold in_mem; by rewrite Hp).
  rewrite Em, ?app_nil_r in *. unfold phase_inv in inv_phase0. rewrite Hp in inv_phase0.
  pose proof inv_phase0 as (Hn & Hb & Hl & _). fold (group_ops g queue) in Hgb, Hgw.
  assert (Forall (fun e => e_seq e < last_sequence_ db + 1) (ev ++ ei ++ em)) as Hlt
    by (eapply Forall_impl; [done|]; simpl; lia).
  destruct (InsertInto_build (mem_ db) em (last_sequence_ db + 1) (group_ops g queue)) as (m & E & Hm);
    [done|done| |done|done|lia|lia|].
  { apply increasing_entries; [done|]. apply Forall_app in Hlt as [_ Hlt]. by apply Forall_app in Hlt as [_ Hlt]. }
  exists m. rewrite Hb, E. split; [done|].
  constructor; unfold in_mem, in_log, phase_inv in *; simpl; try done.
  - apply Forall_app. split; [done|]. apply entries_ok; [done|lia|lia].
  - by apply increasing_entries.
  - intros Hc. destruct (inv_files0 Hc) as (gi & gm & H1 & H2 & H3 & H4 & _). exists gi, gm. by rewrite Hp in H1.
Qed.

Lemma publish_inv g st se db' : phase db = Inserted g st se -> db_step Publish db = Some db' ->
  DBInv last0 base clean (served ++ take (g_writers g) queue) (drop (g_writers g) queue) db'
    ev ei (em ++ in_mem db queue).
Proof.
  intros Hp. unfold db_step. rewrite Hp. intros [= <-]. unfold publish.
  pose proof (inv_phase _ _ _ _ _ _ _ _ _ Hinv) as Hpi. unfold phase_inv in Hpi. rewrite Hp in Hpi.
  destruct Hpi as (Hn & _ & _ & Hg & Ht).
  assert (in_mem db queue = if status_ok st then entries (last_sequence_ db + 1) (group_ops g queue) else []) as Em
    by (unfold in_mem; by rewrite Hp).
  set (db1 := if se then RecordBackgroundError st db else db).
  assert (db1 = db <| bg_error_ := bg_error_ db1 |>) as E1.
  { unfold db1, RecordBackgroundError. destruct db. by repeat case_match. }
  set (db2 := if g_tmp g then db1 <| tmp_batch_ := Clear |> else db1).
  assert (db2 = db <| bg_error_ := bg_error_ db1 |> <| tmp_batch_ := Clear |>) as ->.
  { unfold db2. rewrite E1. destruct (g_tmp g); [done|]. rewrite <- Ht by done. by destruct db. }
  eapply answer_inv; try done.
  - lia.
  - unfold in_log, in_mem, phase_ok. rewrite Hp. intros ->. unfold entries_of. simpl. by rewrite app_nil_r.
  - rewrite Em. destruct (status_ok st); [apply op_of_entries|done].
  - simpl. rewrite Hg. pose proof (lenz_nonneg (group_ops g queue)). lia.
  - simpl. rewrite Hg. unfold group_ops. lia.
  - rewrite Em. destruct (status_ok st); [|constructor]. eapply Forall_impl; [apply entries_bounds|].
    simpl. rewrite Hg. lia.
Qed.

Lemma flush_inv m : imm_ db = Some m ->
  DBInv last0 base clean served queue (db <| versions_ ::= add_table m |> <| saved_sequence_ := last_sequence_ db |> <| imm_ := None |> <| logs_ := [] |>)
    (ev ++ ei) [] em.
Proof.
  intros Hi. destruct (split_entries _ _ _ _ _ _ _ _ _ Hinv) as ((_ & Hok & _) & Hinc & _).
  pose proof last_bound as Hl. destruct Hinv. pose proof (smallest_le db inv_snap0) as Hs. rewrite Hi in *.
  constructor; unfold in_mem, in_log, phase_inv, smallest_snapshot in *; simpl; rewrite <- ?(app_assoc ev ei em); try done.
  - intros u s Hu Hs'. rewrite get_add, (Get_spec _ _ u s inv_imm0 Hok Hinc) by (done || lia).
    rewrite inv_tables0 by (done || lia). apply chain_latest.
  - rewrite app_assoc in inv_le0. apply Forall_app in inv_le0 as [? _]. split; [done|lia].
  - intros Hc. destruct (inv_files0 Hc) as (gi & gm & H1 & H2 & H3 & _ & H5). exists gi, gm.
    split; [done|]. split; [done|]. split; [|done]. intros k. rewrite <- (app_assoc ev ei). apply H3.
Qed.

Lemma merge_inv c : DBInv last0 base clean served queue
  (db <| versions_ ::= merge_tables c (smallest_snapshot db) |> <| saved_sequence_ := last_sequence_ db |>) ev ei em.
Proof.
  pose proof (smallest_le db (inv_snap _ _ _ _ _ _ _ _ _ Hinv)) as Hsm. destruct Hinv.
  constructor; unfold in_mem, in_log, phase_inv in *; simpl; try done.
  - intros u s Hu Hs. change (smallest_snapshot (_ <| saved_sequence_ := _ |>)) with (smallest_snapshot db) in Hs.
    rewrite get_merge by lia. apply inv_tables0; [done|lia].
  - apply Forall_app in inv_le0 as [? _]. split; [done|lia].
Qed.

Lemma snapshots_inv l : StronglySorted Z.le (0 :: l ++ [last_sequence_ db]) ->
  smallest_snapshot db <= smallest_snapshot (db <| snapshots_ := l |>) ->
  DBInv last0 base clean served queue (db <| snapshots_ := l |>) ev ei em.
Proof.
  intros Hs Hm. destruct Hinv. constructor; try done. intros u s Hu Hs'.
  change (saved_sequence_ (db <| snapshots_ := l |>)) with (saved_sequence_ db) in Hs'. apply inv_tables0; [done|lia].
Qed.

Lemma take_snapshot_inv : DBInv last0 base clean served queue
  (db <| snapshots_ ::= fun l => l ++ [last_sequence_ db] |>) ev ei em.
Proof.
  apply snapshots_inv; pose proof (inv_snap _ _ _ _ _ _ _ _ _ Hinv) as Hs.
  - apply (StronglySorted_app Z.le (0 :: snapshots_ db ++ [last_sequence_ db]) [last_sequence_ db]).
    split; [|split; [done|repeat constructor]].
    intros x y Hx ->%list_elem_of_singleton. change (0 :: snapshots_ db ++ [last_sequence_ db])
      with ((0 :: snapshots_ db) ++ [last_sequence_ db]) in *.
    apply elem_of_app in Hx as [Hx|Hx%list_elem_of_singleton]; [|lia].
    apply StronglySorted_app in Hs as (Hs & _). apply Hs; [done|set_solver].
  - unfold smallest_snapshot. simpl. destruct (snapshots_ db); simpl; lia.
Qed.

Lemma remove_first_sublist s l : remove_first s l `sublist_of` l.
Proof.
  induction l as [|x l IH]; simpl; [done|]. case_match; [by apply sublist_cons|by apply sublist_skip].
Qed.

Lemma sorted_sublist (l k : list Z) : l `sublist_of` k -> StronglySorted Z.le k -> StronglySorted Z.le l.
Proof.
  induction 1 as [|x l k Hlk IH|x l k Hlk IH]; intros Hs; [done|..]; inversion_clear Hs as [|? ? Hs' Hx]; [|auto].
  constructor; [auto|]. rewrite Forall_forall in *. intros y Hy. apply Hx. by eapply elem_of_submseteq; [|apply sublist_submseteq].
Qed.

Lemma release_snapshot_inv s : DBInv last0 base clean served queue
  (db <| snapshots_ ::= remove_first s |>) ev ei em.
Proof.
  pose proof (inv_snap _ _ _ _ _ _ _ _ _ Hinv) as Hs. apply snapshots_inv.
  - eapply sorted_sublist; [|exact Hs]. apply sublist_skip, sublist_app; [apply remove_first_sublist|done].
  - unfold smallest_snapshot. simpl. destruct (snapshots_ db) as [|x l] eqn:E; simpl; [lia|].
    destruct (x =? s); [|simpl; lia]. inversion_clear Hs as [|? ? Hs' _]. inversion_clear Hs' as [|? ? _ Hx].
    rewrite Forall_forall in Hx. destruct l as [|y l]; simpl in *; apply Hx; set_solver.
Qed.
End bounded.

(** Events in which the log file takes what it is given. *)
Definition clean_event (e : DBEvent) : bool :=
  match e with
  | LogRecord io => match io_append io with [] => status_ok (io_sync io) | _ => false end
  | _ => true
  end.

Lemma inv_weaken last0 base clean clean' served queue db ev ei em :
  DBInv last0 base clean served queue db ev ei em -> (clean' = true -> clean = true) ->
  DBInv last0 base clean' served queue db ev ei em.
Proof. intros [] Hc. constructor; auto. Qed.

(** What a step does to the calls and to the history of writes. *)
Definition advances (last0 : Z) (base : text -> GetResult) (clean : bool) (calls : list Call)
    (db db' : DBImpl) (es : list MemEntry) : Prop :=
  exists served queue ev ei em later,
    DBInv last0 base clean served queue db' ev ei em /\ served ++ queue = calls
    /\ ev ++ ei ++ em = es ++ later /\ Forall (fun e => last_sequence_ db < e_seq e) later
    /\ last_sequence_ db <= last_sequence_ db'.

Lemma advances_same last0 base clean served queue db db' ev ei em ev' ei' em' :
  DBInv last0 base clean served queue db' ev' ei' em' -> ev' ++ ei' ++ em' = ev ++ ei ++ em ->
  last_sequence_ db' = last_sequence_ db ->
  advances last0 base clean (served ++ queue) db db' (ev ++ ei ++ em).
Proof.
  intros Hi E El. exists served, queue, ev', ei', em', []. rewrite app_nil_r, El.
  split; [done|]. split; [done|]. split; [done|]. split; [constructor|lia].
Qed.

Section step.
Context (last0 : Z) (base : text -> GetResult) (clean : bool) (served queue : list Call) (db : DBImpl)
  (ev ei em : list MemEntry).
Hypothesis Hinv : DBInv last0 base clean served queue db ev ei em.
Hypothesis Hcalls : Forall call_ok queue.
Hypothesis Hbound : last0 + lenz (concat (ops_of <$> served ++ queue)) <= kMaxSequenceNumber.

Lemma make_room_step io db' : db_step (MakeRoom io) db = Some db' ->
  advances last0 base clean (served ++ queue) db db' (ev ++ ei ++ em).
Proof.
  unfold db_step. destruct (phase db) as [|f a|g|g st se|g st se] eqn:Hp; try done.
  destruct (writers_ db) as [|w ws] eqn:Ew; [done|].
  destruct (make_room io f a db) as [db1 r] eqn:Er.
  destruct (make_room_inv _ _ _ _ _ _ _ _ _ _ _ _ _ _ _ _ Hinv Hp Er) as (ei' & em' & Hi & E & Hp1 & El & Et).
  pose proof (inv_writers _ _ _ _ _ _ _ _ _ Hinv) as Eq. rewrite Ew in Eq.
  destruct queue as [|c q] eqn:Equeue; [done|]. injection Eq as -> ->.
  assert (ev ++ ei' ++ em' = ev ++ ei ++ em) as E' by (by rewrite E).
  assert (forall s, (status_ok s = true -> c_ops c = None) ->
    advances last0 base clean (served ++ c :: q) db (finish_write 1 s db1) (ev ++ ei ++ em)) as Hfin.
  { intros s Hs. replace (served ++ c :: q) with ((served ++ [c]) ++ q) by by rewrite <- app_assoc.
    eapply advances_same; [|done|done].
    eapply (finish_alone _ _ _ _ (c :: q)); [done..|]. intros Hok x [= <-]. auto. }
  destruct r as [s|f' a']; intros E1.
  - destruct (status_ok s) eqn:Hs; [|injection E1 as <-; apply Hfin; by rewrite Hs].
    destruct (c_ops c) as [ops|] eqn:Ec; unfold writer_of in E1; cbn [w_batch] in E1; rewrite Ec in E1; simpl in E1;
      injection E1 as <-; [|by apply Hfin].
    eapply advances_same; [by eapply form_group_inv|done|]. unfold form_group. by repeat case_match.
  - injection E1 as <-. eapply advances_same; [|done|done].
    eapply quiet_step; [exact Hi|done..| | | |]; unfold in_mem, in_log, phase_inv; simpl; [by rewrite Hp1..|done|].
    pose proof (inv_phase _ _ _ _ _ _ _ _ _ Hi) as Hpi. unfold phase_inv in Hpi. by rewrite Hp1 in Hpi.
Qed.

Lemma log_step io db' : db_step (LogRecord io) db = Some db' ->
  advances last0 base (clean && clean_event (LogRecord io)) (served ++ queue) db db' (ev ++ ei ++ em).
Proof.
  unfold db_step, log_group. destruct (phase db) as [|f a|g|g st se|g st se] eqn:Hp; try done.
  destruct (writers_ db) as [|w ws] eqn:Ew; [done|]. intros ([log st] & Ea & E)%bind_Some. injection E as <-.
  eapply advances_same; [|done|done].
  destruct (AddRecord_total accelerated align (io_append io) (rep_ (g_batch g)) (log_ db)) as (w1 & s1 & E1 & Ho).
  { apply Hinv. }
  rewrite Ea in E1. injection E1 as <- <-.
  eapply log_inv; [eapply inv_weaken; [done|]|done|done|done|done|].
  - by intros [? _]%andb_true_iff.
  - cbn [clean_event]. intros [_ Hs]%andb_true_iff. destruct (io_append io); [|done].
    destruct (AddRecord_spec accelerated align Haccelerated (rep_ (g_batch g)) (log_ db)) as (w2 & b & E2 & _); [apply Hinv|].
    rewrite Ea in E2. injection E2 as <- ->. split; [done|]. by destruct (w_sync w).
Qed.

Lemma begin_step db' : db_step Begin db = Some db' ->
  advances last0 base clean (served ++ queue) db db' (ev ++ ei ++ em).
Proof.
  unfold db_step. destruct (phase db) eqn:Hp; try done. destruct (writers_ db) as [|w ws] eqn:Ew; [done|].
  intros [= <-]. eapply advances_same; [|done|done]. pose proof Hinv as Hi. destruct Hi.
  eapply quiet_step; [exact Hinv|done..| | | |]; unfold in_mem, in_log, phase_inv in *; simpl; [by rewrite Hp..|done|].
  rewrite Hp in inv_phase0. split; [done|]. intros ->. rewrite Ew in inv_writers0. done.
Qed.

Lemma insert_step db' : db_step InsertBatch db = Some db' ->
  advances last0 base clean (served ++ queue) db db' (ev ++ ei ++ em).
Proof.
  unfold db_step, insert_group. destruct (phase db) as [|f a|g|g st se|g st se] eqn:Hp; try done.
  destruct (status_ok st) eqn:Hst; intros E.
  - destruct (insert_inv _ _ _ _ _ _ _ _ _ Hinv Hcalls Hbound g st se Hp Hst) as (m & Em & Hi). rewrite Em in E.
    cbn [mbind option_bind] in E. injection E as <-. eapply advances_same; [done|done|done].
  - injection E as <-. eapply advances_same; [|done|done].
    pose proof (inv_phase _ _ _ _ _ _ _ _ _ Hinv) as Hpi.
    eapply quiet_step; [exact Hinv|done..| | | |]; unfold in_mem, in_log, phase_ok, phase_inv in *; simpl; rewrite Hp in *;
      by rewrite ?Hst.
Qed.

Lemma publish_step db' : db_step Publish db = Some db' ->
  advances last0 base clean (served ++ queue) db db' (ev ++ ei ++ em).
Proof.
  intros E. destruct (phase db) as [|f a|g|g st se|g st se] eqn:Hp; try (unfold db_step in E; by rewrite Hp in E).
  pose proof (publish_inv _ _ _ _ _ _ _ _ _ Hinv g st se db' Hp E) as Hi.
  exists (served ++ take (g_writers g) queue), (drop (g_writers g) queue), ev, ei, (em ++ in_mem db queue), (in_mem db queue).
  split; [done|]. split; [by rewrite <- app_assoc, take_drop|]. split; [by rewrite !app_assoc|].
  split; [apply in_mem_after|]. pose proof (inv_phase _ _ _ _ _ _ _ _ _ Hinv) as Hpi.
  unfold phase_inv in Hpi. rewrite Hp in Hpi. destruct Hpi as (_ & _ & _ & Hg & _).
  unfold db_step in E. rewrite Hp in E. injection E as <-. simpl. rewrite Hg.
  pose proof (lenz_nonneg (group_ops g queue)). lia.
Qed.

Lemma flush_step s db' : db_step (Flush s) db = Some db' ->
  advances last0 base clean (served ++ queue) db db' (ev ++ ei ++ em).
Proof.
  unfold db_step. destruct (status_ok (bg_error_ db)); [|done]. intros (m & Em & E)%bind_Some. injection E as <-.
  unfold CompactMemTable.
  destruct (status_ok s).
  - eapply advances_same; [by eapply flush_inv|by rewrite app_nil_l, <- app_assoc|done].
  - unfold RecordBackgroundError. case_match; (eapply advances_same; [|done|done]); [|done].
    eapply quiet_step; [exact Hinv|done..|apply Hinv].
Qed.

Lemma step_inv e db' new : db_step e db = Some db' -> arrivals [e] = writer_of <$> new ->
  advances last0 base (clean && clean_event e) (served ++ queue ++ new) db db' (ev ++ ei ++ em).
Proof.
  intros E Ea. destruct e as [w| |io|io| | |s|c| |s]; cbn [arrivals omap list_omap] in Ea; cbn [clean_event];
    rewrite ?andb_true_r; (destruct new as [|c' [|? ?]]; try done); rewrite ?app_nil_r.
  - injection Ea as ->. unfold db_step in E. injection E as <-. eapply advances_same; [by apply arrive_inv|done|done].
  - by apply begin_step.
  - by eapply make_room_step.
  - by apply log_step.
  - by apply insert_step.
  - by apply publish_step.
  - by eapply flush_step.
  - assert (db <| versions_ ::= merge_tables c (smallest_snapshot db) |>
               <| saved_sequence_ := last_sequence_ db |> = db') as <-
      by (unfold db_step in E; destruct (phase db), (writers_ db), (status_ok (bg_error_ db)); by simplify_eq).
    eapply advances_same; [by apply merge_inv|done|done].
  - assert (GetSnapshot db = db') as <- by (unfold db_step in E; destruct (phase db), (writers_ db); congruence).
    eapply advances_same; [by apply take_snapshot_inv|done|done].
  - assert (db <| snapshots_ ::= remove_first s |> = db') as <-
      by (unfold db_step in E; destruct (phase db), (writers_ db); congruence).
    eapply advances_same; [by apply release_snapshot_inv|done|done].
Qed.
End step.

Lemma arrivals_cons e es : arrivals (e :: es) = arrivals [e] ++ arrivals es.
Proof. destruct e; done. Qed.

Lemma run_inv es last0 base clean served queue db db' ev ei em new :
  DBInv last0 base clean served queue db ev ei em ->
  Forall call_ok (served ++ queue ++ new) ->
  last0 + lenz (concat (ops_of <$> served ++ queue ++ new)) <= kMaxSequenceNumber ->
  arrivals es = writer_of <$> new -> db_run es db = Some db' ->
  advances last0 base (clean && forallb clean_event es) (served ++ queue ++ new) db db' (ev ++ ei ++ em).
Proof.
  revert clean served queue db ev ei em new.
  induction es as [|e es IH]; intros clean served queue db ev ei em new Hinv Hok Hb Ea E.
  { injection E as <-. destruct new; [|done]. rewrite app_nil_r. cbn [forallb]. rewrite andb_true_r.
    by eapply advances_same. }
  cbn [db_run] in E. apply bind_Some in E as (db1 & E1 & E). rewrite arrivals_cons in Ea.
  symmetry in Ea. apply fmap_app_inv in Ea as (n1 & n2 & E2 & E3 & ->).
  rewrite !app_assoc, <- (app_assoc served queue n1) in Hok, Hb |- *.
  assert (Forall call_ok queue) as Hq by (rewrite !Forall_app in Hok; tauto).
  assert (last0 + lenz (concat (ops_of <$> served ++ queue)) <= kMaxSequenceNumber) as Hb1.
  { rewrite app_assoc, !fmap_app, !concat_app, !lenz_app in Hb. rewrite fmap_app, concat_app, lenz_app.
    pose proof (lenz_nonneg (concat (ops_of <$> n1))). pose proof (lenz_nonneg (concat (ops_of <$> n2))). lia. }
  destruct (step_inv _ _ _ _ _ _ _ _ _ Hinv Hq Hb1 e db1 n1 E1 E2)
    as (s1 & q1 & ev1 & ei1 & em1 & later1 & Hi1 & Ec1 & Ee1 & Hl1 & Hle1).
  rewrite <- Ec1, <- app_assoc in Hok, Hb |- *.
  destruct (IH _ _ _ _ _ _ _ n2 Hi1 Hok Hb E3 E) as (s2 & q2 & ev2 & ei2 & em2 & later2 & Hi2 & Ec2 & Ee2 & Hl2 & Hle2).
  exists s2, q2, ev2, ei2, em2, (later1 ++ later2). cbn [forallb]. rewrite andb_assoc. split; [done|].
  split; [done|]. split; [by rewrite Ee2, Ee1, <- app_assoc|]. split; [|lia].
  apply Forall_app. split; [done|]. eapply Forall_impl; [done|]. simpl. lia.
Qed.

(** The next step of the leader when the file system does not fail. *)
Definition next_event (db : DBImpl) : DBEvent :=
  match phase db with
  | Idle => Begin
  | Making _ _ => MakeRoom (mkRoomIO status_OK status_OK)
  | Grouped _ => LogRecord (mkLogIO [] status_OK)
  | Logged _ _ _ => InsertBatch
  | Inserted _ _ _ => Publish
  end.

Lemma next_enabled last0 base clean served queue db ev ei em :
  DBInv last0 base clean served queue db ev ei em -> Forall call_ok queue ->
  last0 + lenz (concat (ops_of <$> served ++ queue)) <= kMaxSequenceNumber -> writers_ db <> [] ->
  is_Some (db_step (next_event db) db).
Proof.
  intros Hinv Hq Hb Hw. unfold next_event. destruct (phase db) as [|f a|g|g st se|g st se] eqn:Hp;
    unfold db_step, log_group, insert_group; rewrite Hp; destruct (writers_ db) as [|w ws]; try done.
  - by destruct (make_room _ _ _ _) as [db1 [s|f' a']]; repeat case_match.
  - destruct (AddRecord_total accelerated align [] (rep_ (g_batch g)) (log_ db)) as (w1 & s & E1 & _);
      [apply Hinv|]. cbn [io_append]. by rewrite E1.
  - destruct (status_ok st) eqn:Hst; [|done].
    destruct (insert_inv _ _ _ _ _ _ _ _ _ Hinv Hq Hb g st se Hp Hst) as (m & Em & _). by rewrite Em.
Qed.

(** Everything known about a database that was opened and used. *)
Lemma reached_inv es v last0 base calls db : 0 <= last0 -> holds v last0 base ->
  Forall call_ok calls -> last0 + lenz (concat (ops_of <$> calls)) <= kMaxSequenceNumber ->
  arrivals es = writer_of <$> calls -> db_run es (opened v last0) = Some db ->
  exists served queue ev ei em, calls = served ++ queue /\ length served = length (replies db)
    /\ DBInv last0 base (forallb clean_event es) served queue db ev ei em
    /\ last_sequence_ db <= kMaxSequenceNumber.
Proof.
  intros Hl Hv Hok Hb Ea E.
  destruct (run_inv es last0 base true [] [] (opened v last0) db [] [] [] calls) 
    as (s & q & ev & ei & em & later & Hi & Ec & _); [by apply opened_inv|done..|].
  exists s, q, ev, ei, em. split; [done|]. split; [|split; [done|]].
  - pose proof (inv_replies _ _ _ _ _ _ _ _ _ Hi) as Er. apply (f_equal length) in Er. by rewrite !length_fmap in Er.
  - eapply last_bound; [exact Hi|]. by rewrite Ec.
Qed.

(** C15. The database is a map, whatever the interleaving: after any sequence of steps
    of callers, leaders, background work and snapshots, with any failures of the file
    system, the calls are answered in the order in which they arrived and each once; a
    lookup gives the effect of the operations of exactly the calls answered [OK], in
    that order, on what the tables held at the start; and while calls wait, the leader's
    next step can be taken. *)
Theorem db_refines_map es v last0 base calls db : 0 <= last0 -> holds v last0 base ->
  Forall call_ok calls -> last0 + lenz (concat (ops_of <$> calls)) <= kMaxSequenceNumber ->
  arrivals es = writer_of <$> calls -> db_run es (opened v last0) = Some db ->
  let served := take (length (replies db)) calls in
  (replies db).*1 = c_id <$> served
  /\ writers_ db = writer_of <$> drop (length (replies db)) calls
  /\ (forall u, key_fits u -> db_Get None u db = apply_ops base (applied served (replies db).*2) u)
  /\ (writers_ db <> [] -> is_Some (db_step (next_event db) db)).
Proof.
  intros Hl Hv Hok Hb Ea E served.
  destruct (reached_inv es v last0 base calls db) as (s & q & ev & ei & em & Ec & Es & Hi & Hm); [done..|].
  unfold served. rewrite <- Es. subst calls. rewrite take_app_length, drop_app_length.
  split; [apply Hi|]. split; [apply Hi|]. split; [intros u Hu; by eapply get_applied|].
  intros Hw. eapply next_enabled; [exact Hi| |done|done]. by apply Forall_app in Hok as [_ ?].
Qed.

(** C16. A snapshot is not disturbed: as long as it is held, a read through it gives what
    a read gave when it was taken, whatever is written, deleted, flushed and merged in
    the meantime. *)
Theorem snapshot_isolation es es' v last0 base calls db db' : 0 <= last0 -> holds v last0 base ->
  Forall call_ok calls -> last0 + lenz (concat (ops_of <$> calls)) <= kMaxSequenceNumber ->
  arrivals (es ++ es') = writer_of <$> calls -> db_run es (opened v last0) = Some db ->
  db_run (TakeSnapshot :: es') db = Some db' -> last_sequence_ db ∈ snapshots_ db' ->
  forall u, key_fits u -> db_Get (Some (last_sequence_ db)) u db' = db_Get None u db.
Proof.
  intros Hl Hv Hok Hb Ea E E' Hs u Hu. unfold arrivals in Ea. rewrite omap_app in Ea.
  symmetry in Ea. apply fmap_app_inv in Ea as (c1 & c2 & E1 & E2 & ->).
  assert (last0 + lenz (concat (ops_of <$> c1)) <= kMaxSequenceNumber) as Hb1.
  { rewrite fmap_app, concat_app, lenz_app in Hb. pose proof (lenz_nonneg (concat (ops_of <$> c2))). lia. }
  pose proof Hok as Hok'. apply Forall_app in Hok' as [Hok1 _].
  destruct (reached_inv es v last0 base c1 db) as (s & q & ev & ei & em & Ec & _ & Hi & Hm); [done..|].
  rewrite Ec, <- app_assoc in Hok, Hb.
  destruct (run_inv (TakeSnapshot :: es') _ _ _ _ _ _ db' _ _ _ c2 Hi Hok Hb) 
    as (s2 & q2 & ev2 & ei2 & em2 & later & Hi2 & Ec2 & Ee & Hlt & Hle); [done|done|].
  assert (smallest_snapshot db' <= last_sequence_ db) as Hsm.
  { pose proof (inv_snap _ _ _ _ _ _ _ _ _ Hi2) as Hss. inversion_clear Hss as [|? ? Hss' _]. unfold smallest_snapshot.
    destruct (snapshots_ db') as [|x l]; [by apply elem_of_nil in Hs|]. inversion_clear Hss' as [|? ? _ Hx].
    apply elem_of_cons in Hs as [->|Hs]; [done|]. rewrite Forall_forall in Hx. apply Hx. set_solver. }
  pose proof (smallest_le db (inv_snap _ _ _ _ _ _ _ _ _ Hi)).
  assert (last_sequence_ db' <= kMaxSequenceNumber) as Hm' by (eapply last_bound; [exact Hi2|by rewrite Ec2]).
  erewrite get_history by (done || lia). rewrite Ee, latest_app, (latest_none _ _ later) by done.
  change (db_Get None u db) with (db_Get (Some (last_sequence_ db)) u db). symmetry.
  eapply get_history; [exact Hi|done|lia|done].
Qed.

End db.

(** ** The interface is inhabited *)

(** Tables kept as the memory tables they were written from, the newest first. *)
#[export] Instance memory_tables : Tables (list MemTable) := {
  version_get v k := foldr (fun m r => or_next (mem_Get k m) r) NotFound v;
  NumLevelFiles0 v := lenz v;
  add_table m v := m :: v;
  merge_tables _ _ v := v
}.

#[export] Instance memory_tables_laws : TablesLaws (list MemTable).
Proof. by split. Qed.

(** No checksum instruction, and a table is full when it holds one entry. *)
Definition no_instruction (_ : Z) (_ : text) : Z := 0.
Definition entry_count (m : MemTable) : Z := lenz (SkipList.nodes (table_ m)).

(** Three calls: the first alone; then the memory table is full, a new one is made, and
    the other two are written as one group; then the old table is flushed. *)
Definition sample_calls : list Call :=
  [mkCall 0 false (Some [PutOp (L "1") (L "10"); PutOp (L "2") (L "20")]);
   mkCall 1 true (Some [DeleteOp (L "1")]);
   mkCall 2 false (Some [PutOp (L "3") (L "30")])].

Definition io_ok : RoomIO := mkRoomIO status_OK status_OK.

Definition sample_first : list DBEvent :=
  [Arrive (mkDBWriter 0 (Some (foldl do_op Clear [PutOp (L "1") (L "10"); PutOp (L "2") (L "20")])) false);
   Begin; MakeRoom io_ok; LogRecord (mkLogIO [] status_OK); InsertBatch; Publish].
Definition sample_second : list DBEvent :=
  [Arrive (mkDBWriter 1 (Some (foldl do_op Clear [DeleteOp (L "1")])) true);
   Arrive (mkDBWriter 2 (Some (foldl do_op Clear [PutOp (L "3") (L "30")])) false);
   Begin; MakeRoom io_ok; MakeRoom io_ok; LogRecord (mkLogIO [] status_OK); InsertBatch; Publish;
   Flush status_OK].

#[local] Abbreviation sample_run := (db_run no_instruction 0 entry_count 2).

Lemma empty_holds : holds ([] : list MemTable) 0 (fun _ => NotFound).
Proof. by intros u s _ _. Qed.

Lemma sample_ok : Forall call_ok sample_calls.
Proof. repeat constructor. Qed.

Lemma db_refines_map_witness :
  exists db, sample_run (sample_first ++ sample_second) (opened ([] : list MemTable) 0) = Some db
  /\ replies db = [(0%nat, status_OK); (1%nat, status_OK); (2%nat, status_OK)]
  /\ db_Get None (L "1") db = NotFound /\ db_Get None (L "2") db = Store.Found (L "20").
Proof.
  destruct (sample_run (sample_first ++ sample_second) (opened ([] : list MemTable) 0)) as [db|] eqn:E;
    [|by vm_compute in E].
  assert (replies <$> sample_run (sample_first ++ sample_second) (opened ([] : list MemTable) 0)
    = Some [(0%nat, status_OK); (1%nat, status_OK); (2%nat, status_OK)]) as Er by (vm_compute; reflexivity).
  rewrite E in Er. injection Er as Er. exists db. split; [done|]. split; [done|].
  destruct (db_refines_map no_instruction 0 entry_count 2 (or_intror (fun _ _ => eq_refl))
    (sample_first ++ sample_second) [] 0 (fun _ => NotFound) sample_calls db) as (_ & _ & Hg & _).
  - done.
  - apply empty_holds.
  - apply sample_ok.
  - by vm_compute.
  - done.
  - exact E.
  - rewrite Er in Hg. split; rewrite Hg by done; by vm_compute.
Defined.

Lemma snapshot_isolation_witness :
  exists db db', sample_run sample_first (opened ([] : list MemTable) 0) = Some db
  /\ sample_run (TakeSnapshot :: sample_second) db = Some db'
  /\ db_Get (Some 2) (L "1") db' = Store.Found (L "10").
Proof.
  assert ((db ← sample_run sample_first (opened ([] : list MemTable) 0);
    db' ← sample_run (TakeSnapshot :: sample_second) db;
    Some (last_sequence_ db, db_Get None (L "1") db, snapshots_ db')) = Some (2, Store.Found (L "10"), [2])) as Ev
    by (vm_compute; reflexivity).
  destruct (sample_run sample_first (opened ([] : list MemTable) 0)) as [db|] eqn:E; [|discriminate Ev].
  cbn [mbind option_bind] in Ev.
  destruct (sample_run (TakeSnapshot :: sample_second) db) as [db'|] eqn:E'; [|discriminate Ev].
  cbn [mbind option_bind] in Ev. injection Ev as El Eg Es.
  exists db, db'. split; [reflexivity|]. split; [exact E'|]. refine (eq_trans _ Eg). rewrite <- El.
  apply (snapshot_isolation no_instruction 0 entry_count 2 (or_intror (fun _ _ => eq_refl)) sample_first sample_second
    [] 0 (fun _ => NotFound) sample_calls db db').
  - done.
  - apply empty_holds.
  - apply sample_ok.
  - by vm_compute.
  - done.
  - exact E.
  - exact E'.
  - rewrite Es, El. left.
  - done.
Defined.
