(* ===== verification/Recovery.v ===== *)
(** * Recovery: opening a database

    [src/leveldb/db/db_impl.cc]: [RecoverLogFile], [Recover] and [DB::Open].  Opening a
    database reads its descriptor, replays the log files that the descriptor does not cover
    into memory tables, writes these as table files and starts a new log.

    The main result: a database that is killed at any moment and opened again holds the
    writes of the first so many calls, none of them in part, and at least those that were
    answered when the log file is complete. *)

From S2P Require Import Prelude Text Coding Status Crc LogFile Filename Dbformat MemTable WriteBatch Store Db.

(** [Options] *)
Record Options := mkOptions {
  create_if_missing : bool;
  error_if_exists : bool;
  paranoid_checks : bool;
  reuse_logs : bool
}.

(** What [VersionSet::Recover] finds in the descriptor. *)
Record Descriptor (V : Type) := mkDescriptor {
  d_version : V;
  d_last_sequence : Z;
  d_log_number : Z;
  d_prev_log_number : Z;
  d_live_files : list Z
}.
Arguments mkDescriptor {V} _ _ _ _ _.
Arguments d_version {V} _.
Arguments d_last_sequence {V} _.
Arguments d_log_number {V} _.
Arguments d_prev_log_number {V} _.
Arguments d_live_files {V} _.

(** The answers of the file system while a database is opened. *)
Record OpenEnv (V : Type) := mkOpenEnv {
  env_lock : Status;
  env_current : bool;                      (* the file CURRENT exists *)
  env_NewDB : Status;
  env_descriptor : Status * Descriptor V;
  env_children : Status * list text;
  env_log_file : Z -> Status * (text * list Status);  (* a log file, and what reading it returns *)
  env_table : nat -> Status;               (* the n-th table written *)
  env_append : bool;                       (* the last log file can be appended to *)
  env_new_log : Status;
  env_apply : Status                       (* [LogAndApply] *)
}.
Arguments mkOpenEnv {V} _ _ _ _ _ _ _ _ _ _.
Arguments env_lock {V} _.
Arguments env_current {V} _.
Arguments env_NewDB {V} _.
Arguments env_descriptor {V} _.
Arguments env_children {V} _.
Arguments env_log_file {V} _ _.
Arguments env_table {V} _ _.
Arguments env_append {V} _.
Arguments env_new_log {V} _.
Arguments env_apply {V} _.

Section recovery.
Variable accelerated : Z -> text -> Z.
Variable align : nat.
Context {V : Type} `{Tables V}.
Variable ApproximateMemoryUsage : MemTable -> Z.
Variable write_buffer_size : Z.
Variable options : Options.
Variable env : OpenEnv V.

(** ** [RecoverLogFile] *)

(** Its variables: [status], [mem], [*max_sequence], [compactions], [*edit] (the tables
    it adds), [*save_manifest], and the number of tables written. *)
Record Replay := mkReplay {
  r_status : Status;
  r_mem : option MemTable;
  r_max : Z;
  r_compactions : nat;
  r_edit : list MemTable;
  r_save : bool;
  r_written : nat
}.

#[export] Instance eta_Replay : Eta Replay := fun r =>
  mkReplay (r_status r) (r_mem r) (r_max r) (r_compactions r) (r_edit r) (r_save r) (r_written r).

Definition MaybeIgnoreError (s : Status) : Status :=
  if status_ok s || paranoid_checks options then s else status_OK.

(** [LogReporter::Corruption] *)
Definition report (s : Status) (rp : Replay) : Replay :=
  if paranoid_checks options && status_ok (r_status rp) then rp <| r_status := s |> else rp.

(** [WriteLevel0Table]; a table without entries is no file, which readers do not notice. *)
Definition WriteLevel0Table (m : MemTable) (rp : Replay) : Replay :=
  let s := env_table env (r_written rp) in
  rp <| r_status := s |> <| r_written ::= S |>
     <| r_edit ::= fun l => if status_ok s then l ++ [m] else l |>.

(** A record that was read: the state after it and whether the loop goes on. *)
Definition replay_record (record : text) (rp : Replay) : option (Replay * bool) :=
  if lenz record <? 12 then Some (report (Corruption (L "log record too small") []) rp, true)
  else
    let batch := SetContents record in
    '(m, s) ← InsertInto batch (default new_MemTable (r_mem rp));
    m ← m;
    let rp := rp <| r_mem := Some m |> <| r_status := MaybeIgnoreError s |> in
    if negb (status_ok (r_status rp)) then Some (rp, false)
    else
      let last_seq := u64 (Sequence batch + Count batch - 1) in
      let rp := if r_max rp <? last_seq then rp <| r_max := last_seq |> else rp in
      if write_buffer_size <? ApproximateMemoryUsage m then
        let rp := rp <| r_compactions ::= S |> <| r_save := true |> in
        let rp := (WriteLevel0Table m rp) <| r_mem := None |> in
        Some (rp, status_ok (r_status rp))
      else Some (rp, true).

Fixpoint replay_loop (fuel : nat) (r : Reader) (rp : Replay) : option Replay :=
  match fuel with
  | O => None
  | S fuel =>
    '(r', x) ← ReadRecord accelerated align r;
    let rp := foldl (fun rp s => report s rp) rp (drop (length (dropped r)) (dropped r')).*2 in
    match x with
    | Some record =>
      if status_ok (r_status rp) then
        '(rp, more) ← replay_record record rp;
        if more : bool then replay_loop fuel r' rp else Some rp
      else Some rp
    | None => Some rp
    end
  end.

(** The end of [RecoverLogFile]: the log and memory table that are used further on. *)
Definition finish_replay (last_log : bool) (file : text) (rp : Replay)
    : Replay * option (Writer * MemTable) :=
  let reused :=
    if status_ok (r_status rp) && reuse_logs options && last_log && (r_compactions rp =? 0)%nat
       && env_append env
    then Some (append_Writer file (lenz file), default new_MemTable (r_mem rp)) else None in
  let rp :=
    match reused, r_mem rp with
    | None, Some m =>
      if status_ok (r_status rp) then WriteLevel0Table m (rp <| r_save := true |>) else rp
    | _, _ => rp
    end in
  (rp <| r_mem := None |>, reused).

Definition RecoverLogFile (log_number : Z) (last_log : bool) (rp : Replay)
    : option (Replay * option (Writer * MemTable)) :=
  let '(s, (file, reads)) := env_log_file env log_number in
  if negb (status_ok s) then Some (rp <| r_status := MaybeIgnoreError s |>, None)
  else
    let rp := rp <| r_status := s |> <| r_compactions := 0%nat |> <| r_mem := None |> in
    rp ← replay_loop (2 + length file) (new_Reader file true 0 reads) rp;
    Some (finish_replay last_log file rp).

(** ** [Recover] *)

(** The log files to replay, and the live files that are missing. *)
Fixpoint scan_files (d : Descriptor V) (filenames : list text) (logs expected : list Z) : list Z * list Z :=
  match filenames with
  | [] => (logs, expected)
  | f :: filenames =>
    match ParseFileName f with
    | Some (number, type) =>
      let expected := filter (fun n => n <> number) expected in
      let logs :=
        if (match type with kLogFile => true | _ => false end)
           && ((d_log_number d <=? number) || (number =? d_prev_log_number d))
        then logs ++ [number] else logs in
      scan_files d filenames logs expected
    | None => scan_files d filenames logs expected
    end
  end.

Fixpoint recover_logs (logs : list Z) (rp : Replay) (reused : option (Writer * MemTable))
    : option (Replay * option (Writer * MemTable)) :=
  match logs with
  | [] => Some (rp, reused)
  | number :: logs =>
    '(rp, reused) ← RecoverLogFile number (bool_decide (logs = [])) rp;
    if status_ok (r_status rp) then recover_logs logs rp reused else Some (rp, None)
  end.

Definition new_Replay : Replay := mkReplay status_OK None 0 0 [] false 0.

(** The status, and what was recovered: the tables to add, whether the descriptor is to
    be written, the log and memory table to continue, and the last sequence number. *)
Definition Recover (dbname : text) : option (Status * (list MemTable * bool * option (Writer * MemTable) * Z)) :=
  let none := ([], false, None, 0) in
  if negb (status_ok (env_lock env)) then Some (env_lock env, none)
  else
    let s :=
      if negb (env_current env) then
        if create_if_missing options then env_NewDB env
        else InvalidArgument dbname (L "does not exist (create_if_missing is false)")
      else if error_if_exists options then InvalidArgument dbname (L "exists (error_if_exists is true)")
      else status_OK in
    if negb (status_ok s) then Some (s, none)
    else
      let '(s, d) := env_descriptor env in
      if negb (status_ok s) then Some (s, none)
      else
        let '(s, filenames) := env_children env in
        if negb (status_ok s) then Some (s, none)
        else
          let '(logs, expected) := scan_files d filenames [] (d_live_files d) in
          match expected with
          | first :: _ =>
            Some (Corruption (to_text (lenz expected) ++ L " missing files; e.g.") (TableFileName dbname first), none)
          | [] =>
            '(rp, reused) ← recover_logs (merge_sort Z.le logs) new_Replay None;
            if negb (status_ok (r_status rp)) then Some (r_status rp, none)
            else
              Some (status_OK, (r_edit rp, r_save rp, reused,
                    if d_last_sequence d <? r_max rp then r_max rp else d_last_sequence d))
          end.

(** ** [DB::Open] *)

Definition Open (dbname : text) : option (Status * option (DBImpl (V := V))) :=
  '(s, (edit, save_manifest, reused, last_sequence)) ← Recover dbname;
  if negb (status_ok s) then Some (s, None)
  else
    let version := d_version (env_descriptor env).2 in
    let '(s, log, mem) :=
      match reused with
      | Some (log, mem) => (status_OK, log, mem)
      | None => (env_new_log env, new_Writer [], new_MemTable)
      end in
    if negb (status_ok s) then Some (s, None)
    else if (save_manifest : bool) then
      if status_ok (env_apply env) then
        Some (status_OK, Some (mkDB [] Idle mem None (foldl (fun v m => add_table m v) version edit)
          last_sequence last_sequence log [] status_OK Clear [] []))
      else Some (env_apply env, None)
    else
      Some (status_OK, Some (mkDB [] Idle mem None version last_sequence
        (d_last_sequence (env_descriptor env).2) log [] status_OK Clear [] [])).

(** ** Replaying a log *)

Hypothesis Haccelerated : accelerator_ok accelerated.
Context `{!TablesLaws V}.

(** A log file that opens and reads without error. *)
Definition readable (file : text) : Status * (text * list Status) := (status_OK, (file, [])).

(** A file system that does not fail, with the descriptor of a version and log files
    that hold the given bytes, in the order of their numbers; options as the server has
    them. *)
Record found (v : V) (saved : Z) (files : list text) : Prop := {
  f_lock : env_lock env = status_OK;
  f_current : env_current env = true;
  f_options : error_if_exists options = false /\ reuse_logs options = false;
  f_descriptor : (env_descriptor env).1 = status_OK;
  f_version : d_version (env_descriptor env).2 = v;
  f_saved : d_last_sequence (env_descriptor env).2 = saved;
  f_children : (env_children env).1 = status_OK;
  f_files : exists logs,
    scan_files (env_descriptor env).2 (env_children env).2 [] (d_live_files (env_descriptor env).2) = (logs, [])
    /\ env_log_file env <$> merge_sort Z.le logs = readable <$> files;
  f_tables : forall n, env_table env n = status_OK;
  f_new_log : env_new_log env = status_OK;
  f_apply : env_apply env = status_OK
}.

Section replaying.
Hypothesis Htables : forall n, env_table env n = status_OK.

(** The tables written and the memory table hold the entries, in this order. *)
Record ReplayInv (rp : Replay) (es : list MemEntry) : Prop := {
  rp_ok : r_status rp = status_OK;
  rp_entries : exists ess em, Forall2 MemInv (r_edit rp) ess
    /\ match r_mem rp with Some m => MemInv m em | None => em = [] end /\ es = concat ess ++ em;
  rp_fit : Forall mem_entry_ok es;
  rp_inc : increasing es;
  rp_max : Forall (fun e => e_seq e <= r_max rp) es;
  rp_bound : 0 <= r_max rp <= kMaxSequenceNumber;
  rp_save : r_save rp = false -> r_edit rp = [] /\ (r_mem rp = None -> r_max rp = 0)
}.

Lemma new_Replay_inv : ReplayInv new_Replay [].
Proof. constructor; simpl; try done. - by exists [], []. - constructor. Qed.

(** Writing the memory table as a table file. *)
Lemma write_table_inv rp rp' m es : ReplayInv rp es -> r_mem rp = Some m ->
  rp' = (WriteLevel0Table m (rp <| r_save := true |>)) <| r_mem := None |> -> ReplayInv rp' es.
Proof.
  intros [] Em ->. unfold WriteLevel0Table. cbv zeta. rewrite Htables.
  destruct rp_entries0 as (ess & em & H1 & H2 & ->). rewrite Em in H2.
  constructor; simpl; try done.
  exists (ess ++ [em]), []. split; [by apply Forall2_app; [|constructor]|]. split; [done|].
  rewrite concat_app. simpl. by rewrite !app_nil_r.
Qed.

Lemma insert_group_inv rp es seq ops : ReplayInv rp es -> group_fits (seq, ops) ->
  increasing (es ++ entries seq ops) ->
  exists m, InsertInto (build seq ops) (default new_MemTable (r_mem rp)) = Some (Some m, status_OK)
  /\ ReplayInv (rp <| r_mem := Some m |> <| r_max := Z.max (r_max rp) (seq + lenz ops - 1) |>)
       (es ++ entries seq ops).
Proof.
  intros [] (Hok & Hl & Hs & Hb) Hinc. cbn [fst snd] in Hok, Hl, Hs, Hb. pose proof (lenz_nonneg ops) as Hn.
  pose proof (entries_ok seq ops Hok ltac:(lia) ltac:(lia)) as Hfit'.
  destruct rp_entries0 as (ess & em & H1 & H2 & ->).
  assert (MemInv (default new_MemTable (r_mem rp)) em) as Hm.
  { destruct (r_mem rp); [done|]. subst em. apply new_MemTable_inv. }
  destruct (InsertInto_build (default new_MemTable (r_mem rp)) em seq ops) as (m & E & Hm'); try done; try lia.
  { by apply Forall_app in rp_fit0 as [_ ?]. }
  { rewrite <- app_assoc in Hinc. by apply StronglySorted_app in Hinc as (_ & _ & ?). }
  exists m. split; [done|]. constructor; simpl; try done.
  - exists ess, (em ++ entries seq ops). by rewrite app_assoc.
  - by apply Forall_app.
  - apply Forall_app. split; [eapply Forall_impl; [exact rp_max0|]|eapply Forall_impl; [apply entries_bounds|]]; simpl; lia.
  - change kMaxSequenceNumber with 72057594037927935 in *. lia.
  - intros Es. split; [by apply rp_save0|done].
Qed.

(** A logged group is replayed whole. *)
Lemma replay_record_inv rp es g : ReplayInv rp es -> group_fits g -> increasing (es ++ entries g.1 g.2) ->
  exists rp', replay_record (rep_ (build g.1 g.2)) rp = Some (rp', true)
  /\ ReplayInv rp' (es ++ entries g.1 g.2).
Proof.
  destruct g as [seq ops]. cbn [fst snd]. intros Hinv Hfit Hinc.
  destruct (insert_group_inv rp es seq ops Hinv Hfit Hinc) as (m & E & Hinv').
  destruct Hfit as (_ & Hl & Hs & Hb). cbn [fst snd] in Hl, Hs, Hb. pose proof (lenz_nonneg ops) as Hn.
  unfold replay_record. destruct (Z.ltb_spec (lenz (rep_ (build seq ops))) 12) as [Hlt|_].
  { exfalso. rewrite build_layout in Hlt by done. unfold lenz in Hlt. cbn [rep_] in Hlt.
    rewrite layout_length in Hlt. unfold kHeader in Hlt. lia. }
  change (SetContents (rep_ (build seq ops))) with (build seq ops). rewrite E. cbn [mbind option_bind]. cbv zeta.
  change (MaybeIgnoreError status_OK) with status_OK. change kMaxSequenceNumber with 72057594037927935 in Hb.
  rewrite Sequence_build, Count_build by (unfold is_u64; lia || done).
  assert (u64 (seq + lenz ops - 1) = seq + lenz ops - 1) as -> by (unfold u64; apply Z.mod_small; lia).
  set (rp2 := if r_max _ <? _ then _ else _).
  assert (rp2 = rp <| r_mem := Some m |> <| r_max := Z.max (r_max rp) (seq + lenz ops - 1) |>) as Erp2.
  { unfold rp2. simpl. pose proof (rp_ok _ _ Hinv) as Est. destruct rp as [st mm mx ? ? ? ?]. simpl in *. subst st.
    destruct (Z.ltb_spec mx (seq + lenz ops - 1)); [by rewrite Z.max_r by lia|by rewrite Z.max_l by lia]. }
  change (status_ok _) with true at 1. cbn [negb]. clearbody rp2. subst rp2.
  destruct (write_buffer_size <? ApproximateMemoryUsage m); [|by eexists].
  eexists. split.
  - unfold WriteLevel0Table. simpl. rewrite Htables. reflexivity.
  - assert (ReplayInv (rp <| r_mem := Some m |> <| r_max := Z.max (r_max rp) (seq + lenz ops - 1) |>
      <| r_compactions ::= S |>) (es ++ entries seq ops)) as Hinv3 by (by destruct Hinv').
    eapply write_table_inv; [exact Hinv3|done|]. unfold WriteLevel0Table. simpl. by rewrite Htables.
Qed.

Lemma replay_loop_inv gs fuel r rp es : yields accelerated align r (records_of gs) -> (length gs < fuel)%nat ->
  ReplayInv rp es -> Forall group_fits gs -> increasing (es ++ entries_of gs) ->
  exists rp', replay_loop fuel r rp = Some rp' /\ ReplayInv rp' (es ++ entries_of gs).
Proof.
  revert fuel r rp es. induction gs as [|g gs IH]; intros [|fuel] r rp es Hy Hf Hinv Hfit Hinc; try (simpl in Hf; lia);
    inversion Hy as [? r' E Hd|? r' rec recs E Hd Hy']; subst; cbn [replay_loop]; rewrite E; cbn [mbind option_bind];
    rewrite Hd, drop_nil; cbn [fmap list_fmap foldl].
  - exists rp. by rewrite app_nil_r.
  - apply Forall_cons in Hfit as [Hg Hfit]. unfold entries_of in Hinc. cbn [fmap list_fmap concat] in Hinc.
    fold (entries_of gs) in Hinc. rewrite app_assoc in Hinc.
    pose proof Hinc as Hinc1. apply StronglySorted_app in Hinc1 as (_ & Hinc1 & _).
    rewrite (rp_ok _ _ Hinv). change (status_ok status_OK) with true. cbn iota.
    destruct (replay_record_inv rp es g Hinv Hg Hinc1) as (rp1 & E1 & Hinv1).
    change (write_at 0 _ _) with (rep_ (build g.1 g.2)). rewrite E1. cbn [mbind option_bind].
    simpl in Hf. destruct (IH fuel r' rp1 _ Hy' ltac:(lia) Hinv1 Hfit Hinc) as (rp2 & E2 & Hinv2).
    exists rp2. split; [done|]. unfold entries_of. cbn [fmap list_fmap concat]. by rewrite app_assoc.
Qed.

(** A log file from which the groups [gs] are read back. *)
Definition log_holds (file : text) (gs : list (Z * list WriteOp)) : Prop :=
  yields accelerated align (new_Reader file true 0 []) (records_of gs)
  /\ (length gs <= length file)%nat /\ Forall group_fits gs.

Hypothesis Hreuse : reuse_logs options = false.

Lemma RecoverLogFile_inv number last_log file gs rp es : env_log_file env number = readable file ->
  log_holds file gs -> ReplayInv rp es -> r_mem rp = None -> increasing (es ++ entries_of gs) ->
  exists rp', RecoverLogFile number last_log rp = Some (rp', None)
  /\ ReplayInv rp' (es ++ entries_of gs) /\ r_mem rp' = None.
Proof.
  intros Ef (Hy & Hl & Hfit) Hinv Hm Hinc. unfold RecoverLogFile. rewrite Ef. unfold readable.
  change (status_ok status_OK) with true. cbn [negb]. cbv zeta.
  set (rp0 := rp <| r_status := status_OK |> <| r_compactions := 0%nat |> <| r_mem := None |>).
  assert (ReplayInv rp0 es) as Hinv0 by (destruct Hinv; constructor; try done; by rewrite Hm in *).
  destruct (replay_loop_inv gs (2 + length file) _ rp0 es Hy ltac:(lia) Hinv0 Hfit Hinc) as (rp1 & E1 & Hinv1).
  rewrite E1. cbn [mbind option_bind]. unfold finish_replay.
  rewrite Hreuse, (rp_ok _ _ Hinv1), andb_false_r. cbn [andb]. cbv zeta.
  change (status_ok status_OK) with true. destruct (r_mem rp1) as [m|] eqn:Em1.
  - eexists. split; [done|]. split; [|done]. by eapply write_table_inv.
  - eexists. split; [done|]. split; [|done]. clear E1. destruct rp1. cbn [r_mem] in Em1. by subst.
Qed.

Lemma recover_logs_inv logs files rp es reused : env_log_file env <$> logs = readable <$> files.*1 ->
  Forall (fun f => log_holds f.1 f.2) files ->
  ReplayInv rp es -> r_mem rp = None -> increasing (es ++ concat (entries_of <$> files.*2)) -> reused = None ->
  exists rp', recover_logs logs rp reused = Some (rp', None)
  /\ ReplayInv rp' (es ++ concat (entries_of <$> files.*2)) /\ r_mem rp' = None.
Proof.
  revert logs rp es reused. induction files as [|[file gs] files IH]; intros logs rp es reused El Hf Hinv Hm Hinc ->.
  { destruct logs; [|done]. exists rp. simpl. by rewrite app_nil_r. }
  destruct logs as [|number logs]; [done|]. injection El as Ef El. apply Forall_cons in Hf as [Hh Hf].
  cbn [fmap list_fmap concat fst snd] in Hinc |- *. rewrite app_assoc in Hinc |- *.
  pose proof Hinc as Hinc1. apply StronglySorted_app in Hinc1 as (_ & Hinc1 & _).
  cbn [recover_logs].
  destruct (RecoverLogFile_inv number (bool_decide (logs = [])) file gs rp es Ef Hh Hinv Hm Hinc1) as (rp1 & E1 & Hinv1 & Hm1).
  rewrite E1. cbn [mbind option_bind]. rewrite (rp_ok _ _ Hinv1). change (status_ok status_OK) with true. cbn iota.
  by apply (IH logs).
Qed.

End replaying.

(** The tables of a replay answer with the last write, else with what was there before. *)
Lemma get_tables edit ess v u s : Forall2 MemInv edit ess -> Forall mem_entry_ok (concat ess) ->
  increasing (concat ess) -> 0 <= s <= kMaxSequenceNumber -> key_fits u ->
  version_get (foldl (fun v m => add_table m v) v edit) (new_LookupKey u s)
  = or_next (Some (outcome (latest u s (concat ess)))) (version_get v (new_LookupKey u s)).
Proof.
  intros H2. revert v. induction H2 as [|m es edit ess Hm H2 IH]; intros v Hfit Hinc Hs Hu; [done|].
  cbn [concat] in *. apply Forall_app in Hfit as [Hf1 Hf2]. apply StronglySorted_app in Hinc as (_ & Hi1 & Hi2).
  cbn [foldl]. rewrite IH by done. rewrite get_add, (Get_spec m es u s) by done. apply chain_latest.
Qed.

(** Opening a database replays its log files. *)
Lemma Open_spec v saved files dbname : found v saved files.*1 ->
  Forall (fun f => log_holds f.1 f.2) files -> 0 <= saved <= kMaxSequenceNumber ->
  increasing (concat (entries_of <$> files.*2)) ->
  let es := concat (entries_of <$> files.*2) in
  exists v' last, Open dbname = Some (status_OK, Some (opened v' last)) /\ saved <= last <= kMaxSequenceNumber
  /\ Forall (fun e => e_seq e <= last) es
  /\ forall u s, key_fits u -> 0 <= s <= kMaxSequenceNumber ->
     version_get v' (new_LookupKey u s)
     = or_next (Some (outcome (latest u s es))) (version_get v (new_LookupKey u s)).
Proof.
  intros [] Hf Hs Hinc es. destruct f_files0 as (logs & Escan & Efiles).
  destruct (recover_logs_inv f_tables0 (proj2 f_options0) (merge_sort Z.le logs) files new_Replay [] None)
    as (rp & Er & Hinv & Hm); [done|done|apply new_Replay_inv|done|done|done|].
  cbn [app] in Hinv. fold es in Hinv. destruct (rp_entries _ _ Hinv) as (ess & em & H1 & H2 & Ees).
  rewrite Hm in H2. subst em. rewrite app_nil_r in Ees.
  set (last := if saved <? r_max rp then r_max rp else saved).
  pose proof (rp_bound _ _ Hinv). assert (saved <= last <= kMaxSequenceNumber /\ r_max rp <= last) as [Hlast Hmax]
    by (unfold last; destruct (Z.ltb_spec saved (r_max rp)); lia).
  assert (Recover dbname = Some (status_OK, (r_edit rp, r_save rp, None, last))) as ERec.
  { unfold Recover. rewrite f_lock0, f_current0, (proj1 f_options0).
    destruct (env_descriptor env) as [ds d]. cbn [fst snd] in *. subst ds saved.
    destruct (env_children env) as [cs names]. cbn [fst snd] in *. subst cs.
    change (status_ok status_OK) with true. cbn [negb]. cbv zeta. rewrite Escan, Er.
    cbn [mbind option_bind]. by rewrite (rp_ok _ _ Hinv). }
  exists (foldl (fun v m => add_table m v) v (r_edit rp)), last. split; [|split; [done|split]].
  - unfold Open. rewrite ERec. cbn [mbind option_bind]. rewrite f_new_log0, f_apply0, f_version0, f_saved0.
    change (status_ok status_OK) with true. cbn [negb]. cbv zeta.
    destruct (r_save rp) eqn:Esave; [done|]. destruct (rp_save _ _ Hinv Esave) as [-> Ezero].
    unfold last. rewrite (Ezero Hm). destruct (Z.ltb_spec saved 0); [lia|done].
  - eapply Forall_impl; [apply (rp_max _ _ Hinv)|]. simpl. lia.
  - intros u s Hu Hs'. rewrite Ees. apply get_tables; try done.
    + rewrite <- Ees. apply Hinv.
    + rewrite <- Ees. apply Hinv.
Qed.

(** ** Crashes *)

(** A prefix of a log file holds the groups that lie within it. *)
Lemma log_holds_prefix gs w n : logged_as accelerated align gs w -> 0 <= n ->
  exists k, (k <= length gs)%nat /\ log_holds (takez n (dest_ w)) (take k gs)
  /\ (lenz (dest_ w) <= n -> k = length gs).
Proof.
  intros [E Hfit] Hn. destruct (log_yields accelerated align Haccelerated (records_of gs) w n Hn E) as (k & Hy & Hk & Hk' & Hw).
  unfold records_of in Hk. rewrite length_fmap in Hk. exists k. split; [done|]. split.
  - split; [by unfold records_of in *; rewrite fmap_take|]. rewrite length_take. split; [lia|]. by apply Forall_take.
  - intros Hfull. assert (length gs <= k)%nat; [|lia]. apply Hw; [unfold records_of; by rewrite length_fmap|].
    exists w. split; [|done]. rewrite take_ge; [done|]. unfold records_of. by rewrite length_fmap.
Qed.

(** The statuses of the calls of which none that is still waiting fails. *)
Definition statuses (db : DBImpl (V := V)) (calls : list Call) : list Status :=
  (replies db).*2 ++ replicate (length calls) status_OK.

Lemma applied_pending served queue sts m n : length served = length sts -> (n <= length queue <= m)%nat ->
  applied (take (length served + n) (served ++ queue)) (sts ++ replicate m status_OK)
  = applied served sts ++ concat (ops_of <$> take n queue).
Proof.
  intros El Hn. rewrite take_app_add. replace m with (n + (m - n))%nat by lia. rewrite replicate_add, app_assoc.
  pose proof (applied_snoc served (take n queue) sts status_OK El) as Es.
  rewrite length_take, Nat.min_l in Es by lia. change (status_ok status_OK) with true in Es. cbn iota in Es. rewrite <- Es.
  unfold applied. rewrite <- (app_nil_r (served ++ take n queue)) at 1.
  rewrite zip_with_app; [|rewrite !length_app, length_replicate, length_take; lia].
  rewrite concat_app. simpl. by rewrite app_nil_r.
Qed.

(** Whatever prefix of the groups in the last log survives, the writes are those of the
    first calls. *)
Lemma surviving_calls last0 base served queue db ev ei em gm k :
  DBInv accelerated align last0 base true served queue db ev ei em ->
  entries_of gm = em -> (forall k, aligned served (replies db).*2 (ev ++ ei ++ entries_of (take k gm))) ->
  (k <= length (gm ++ in_log db queue))%nat ->
  exists j, (j <= length (served ++ queue))%nat
  /\ op_of <$> ev ++ ei ++ entries_of (take k (gm ++ in_log db queue))
     = applied (take j (served ++ queue)) (statuses db (served ++ queue))
  /\ ((length gm <= k)%nat -> (length served <= j)%nat).
Proof.
  intros Hinv Hgm Hal Hk.
  assert (length served = length (replies db).*2) as El.
  { pose proof (inv_replies _ _ _ _ _ _ _ _ _ _ _ Hinv) as Er. apply (f_equal length) in Er. by rewrite !length_fmap in *. }
  pose proof (inv_ops _ _ _ _ _ _ _ _ _ _ _ Hinv) as Hops. unfold statuses. rewrite length_app.
  destruct (decide (k < length gm)%nat) as [Hlt|Hge].
  { rewrite take_app_le by lia. destruct (Hal k) as (j & Hj & E). exists j. split; [lia|]. split; [|lia].
    rewrite E. symmetry. by apply applied_take. }
  assert (take k (gm ++ in_log db queue) = gm ++ take (k - length gm) (in_log db queue)) as ->
    by (rewrite take_app_ge by lia; done).
  rewrite entries_of_app, Hgm.
  destruct (decide (k = length gm)) as [->|Hne].
  { rewrite Nat.sub_diag. exists (length served). rewrite app_nil_r. split; [lia|]. split; [|lia].
    rewrite Hops. symmetry. rewrite applied_take by lia. by rewrite firstn_all. }
  pose proof (inv_phase _ _ _ _ _ _ _ _ _ _ _ Hinv) as Hp. unfold phase_inv, in_log in *. rewrite length_app in Hk.
  assert (exists g, (g_writers g <= length queue)%nat
    /\ match phase db with Logged g _ _ | Inserted g _ _ => [(last_sequence_ db + 1, group_ops g queue)] | _ => [] end
       = [(last_sequence_ db + 1, group_ops g queue)]) as (g & Hg & Eg).
  { destruct (phase db) as [|f a|g|g st se|g st se]; simpl in Hk; try lia; exists g; split; try done; apply Hp. }
  rewrite Eg in *. simpl in Hk. replace (k - length gm)%nat with 1%nat by lia.
  exists (length served + g_writers g)%nat. split; [lia|]. split; [|lia].
  rewrite applied_pending by lia. rewrite <- Hops, !fmap_app, <- !app_assoc. do 3 f_equal.
  unfold entries_of. simpl. rewrite app_nil_r. apply op_of_entries.
Qed.

Lemma logged_increasing last0 base served queue db ev ei em gm k :
  DBInv accelerated align last0 base true served queue db ev ei em -> entries_of gm = em ->
  increasing (ei ++ entries_of (take k (gm ++ in_log db queue))).
Proof.
  intros Hinv Hgm. assert (increasing (ei ++ em ++ entries_of (in_log db queue))) as Hall.
  { pose proof (inv_le _ _ _ _ _ _ _ _ _ _ _ Hinv) as Hle. pose proof (inv_inc _ _ _ _ _ _ _ _ _ _ _ Hinv) as Hinc.
    apply Forall_app in Hle as [_ Hle]. apply StronglySorted_app in Hinc as (_ & Hinc & _).
    apply StronglySorted_app in Hinc as (_ & _ & Hinc). rewrite app_assoc. unfold in_log. assert (forall ops, increasing ((ei ++ em) ++ entries_of [(last_sequence_ db + 1, ops)])) as Hone.
    { intros ops. unfold entries_of. simpl. rewrite app_nil_r. apply increasing_entries; [done|].
      eapply Forall_impl; [exact Hle|]. simpl. lia. }
    destruct (phase db); try apply Hone; unfold entries_of; simpl; by rewrite app_nil_r. }
  rewrite <- Hgm, <- entries_of_app, <- (take_drop k (gm ++ in_log db queue)), entries_of_app, app_assoc in Hall.
  by apply StronglySorted_app in Hall as (_ & ? & _).
Qed.

(** The files of a database that ran without log errors: what they hold. *)
Lemma crash_files last0 base served queue db ev ei em n :
  DBInv accelerated align last0 base true served queue db ev ei em -> 0 <= n ->
  exists files gm k, files.*1 = logs_ db ++ [takez n (dest_ (log_ db))]
  /\ Forall (fun f => log_holds f.1 f.2) files
  /\ concat (entries_of <$> files.*2) = ei ++ entries_of (take k (gm ++ in_log db queue))
  /\ (k <= length (gm ++ in_log db queue))%nat
  /\ entries_of gm = em
  /\ (forall k, aligned served (replies db).*2 (ev ++ ei ++ entries_of (take k gm)))
  /\ (lenz (dest_ (log_ db)) <= n -> k = length (gm ++ in_log db queue)).
Proof.
  intros Hinv Hn. destruct (inv_files _ _ _ _ _ _ _ _ _ _ _ Hinv eq_refl) as (gi & gm & Hlog & Hgm & Hal & Himm & Hp).
  destruct (log_holds_prefix _ _ n Hlog Hn) as (k & Hk & Hh & Hfull).
  pose proof (inv_imm _ _ _ _ _ _ _ _ _ _ _ Hinv) as Hi.
  destruct (imm_ db) as [imm|].
  - destruct Himm as (w & Ew & Hlw & Hgi).
    destruct (log_holds_prefix _ _ (lenz (dest_ w)) Hlw (lenz_nonneg _)) as (k' & _ & Hh' & Hfull').
    rewrite Hfull' in Hh' by lia. rewrite firstn_all, takez_all in Hh' by lia.
    exists [(dest_ w, gi); (takez n (dest_ (log_ db)), take k (gm ++ in_log db queue))], gm, k.
    split; [by rewrite Ew|]. split; [by apply Forall_cons; split; [|apply Forall_singleton]|]. split; [|done]. simpl. by rewrite app_nil_r, Hgi.
  - exists [(takez n (dest_ (log_ db)), take k (gm ++ in_log db queue))], gm, k.
    split; [by rewrite Himm|]. split; [by apply Forall_singleton|]. split; [|done]. subst ei. simpl. by rewrite app_nil_r.
Qed.


End recovery.

(** The file system that a crash leaves: the descriptor, and the two log files. *)
Definition crashed (db : DBImpl (V := list MemTable)) (n : Z) : OpenEnv (list MemTable) :=
  mkOpenEnv status_OK true status_OK
    (status_OK, mkDescriptor (versions_ db) (saved_sequence_ db) 4 0 [])
    (status_OK, [L "CURRENT"; L "LOCK"; L "000005.log"; L "000004.log"; L "000003.log"; L "MANIFEST-000002"])
    (fun number => readable (if number =? 4 then default [] (head (logs_ db)) else takez n (dest_ (log_ db))))
    (fun _ => status_OK) true status_OK status_OK.

(** The server's options. *)
Definition server_options : Options := mkOptions true false false false.

