(* ===== verification/Block.v ===== *)
(** * Block: sorted blocks of a table file

    [src/leveldb/table/block_builder.cc] and [block.cc].  A block holds sorted entries; a
    key is stored without the prefix it shares with the key before, except at restart
    points, every [block_restart_interval] entries.  The offsets of the restart points and
    their number end the block.  An iterator seeks with a binary search over the restart
    points and then scans.

    The main result: the iterator of a block that was built behaves like a cursor over
    the entries put into it. *)

From S2P Require Import Prelude Text Coding Status Dbformat SkipList.

(** ** [BlockBuilder] *)

Record BlockBuilder := mkBlockBuilder {
  bb_buffer : text;
  bb_restarts : list Z;
  bb_counter : Z;
  bb_finished : bool;
  bb_last_key : text
}.

#[export] Instance eta_BlockBuilder : Eta BlockBuilder := fun b =>
  mkBlockBuilder (bb_buffer b) (bb_restarts b) (bb_counter b) (bb_finished b) (bb_last_key b).

Definition new_BlockBuilder : BlockBuilder := mkBlockBuilder [] [0] 0 false [].

(** [Reset] *)
Definition bb_Reset (b : BlockBuilder) : BlockBuilder :=
  b <| bb_buffer := [] |> <| bb_restarts := [0] |> <| bb_counter := 0 |> <| bb_finished := false |>
    <| bb_last_key := [] |>.

Definition CurrentSizeEstimate (b : BlockBuilder) : Z :=
  lenz (bb_buffer b) + lenz (bb_restarts b) * 4 + 4.

Definition bb_Finish (b : BlockBuilder) : BlockBuilder :=
  b <| bb_buffer := PutFixed32 (foldl PutFixed32 (bb_buffer b) (bb_restarts b)) (u32 (lenz (bb_restarts b))) |>
    <| bb_finished := true |>.

(** The length of the longest common prefix. *)
Fixpoint shared_prefix (a b : text) : nat :=
  match a, b with
  | x :: a, y :: b => if decide (x = y) then S (shared_prefix a b) else O
  | _, _ => O
  end.

Definition bb_Add (block_restart_interval : Z) (key value : text) (b : BlockBuilder) : BlockBuilder :=
  let '(shared, b) :=
    if bb_counter b <? block_restart_interval then (shared_prefix (bb_last_key b) key, b)
    else (O, b <| bb_restarts ::= fun l => l ++ [u32 (lenz (bb_buffer b))] |> <| bb_counter := 0 |>) in
  let non_shared := lenz key - Z.of_nat shared in
  let buffer := PutVarint32 (bb_buffer b) (u32 (Z.of_nat shared)) in
  let buffer := PutVarint32 buffer (u32 non_shared) in
  let buffer := PutVarint32 buffer (u32 (lenz value)) in
  b <| bb_buffer := buffer ++ drop shared key ++ value |>
    <| bb_last_key := take shared (bb_last_key b) ++ drop shared key |>
    <| bb_counter ::= Z.add 1 |>.

(** ** [Block] *)

Record Block := mkBlock { data_ : text; size_ : Z; restart_offset_ : Z }.

Definition NumRestarts (data : text) (size : Z) : Z := default 0 (DecodeFixed32 (dropz (size - 4) data)).

Definition new_Block (contents : text) : Block :=
  let size := lenz contents in
  if size <? 4 then mkBlock contents 0 0
  else
    let max_restarts_allowed := (size - 4) / 4 in
    if max_restarts_allowed <? NumRestarts contents size then mkBlock contents 0 0
    else mkBlock contents size (u32 (size - u32 (1 + NumRestarts contents size) * 4)).

(** [p] and [limit] delimit the bytes: the lengths, and the bytes after them. *)
Definition DecodeEntry (p : text) : option (Z * Z * Z * text) :=
  if lenz p <? 3 then None
  else
    match p with
    | a :: b :: c :: rest =>
      '(shared, non_shared, value_length, p) ←
        (if Z.lor (Z.lor (byte_val a) (byte_val b)) (byte_val c) <? 128 then
           Some (byte_val a, byte_val b, byte_val c, rest)
         else
           '(shared, p) ← GetVarint32Ptr p;
           '(non_shared, p) ← GetVarint32Ptr p;
           '(value_length, p) ← GetVarint32Ptr p;
           Some (shared, non_shared, value_length, p));
      if u32 (lenz p) <? u32 (non_shared + value_length) then None
      else Some (shared, non_shared, value_length, p)
    | _ => None
    end.

(** ** [Block::Iter] *)

(** [value_] is a range of [data_]; the empty slice, which points elsewhere, is there only
    while the iterator is not valid. *)
Record BlockIter := mkBlockIter {
  it_data : text;
  it_restarts : Z;
  it_num_restarts : Z;
  it_current : Z;
  it_restart_index : Z;
  it_key : text;
  it_value : Z * Z;
  it_status : Status
}.

#[export] Instance eta_BlockIter : Eta BlockIter := fun i =>
  mkBlockIter (it_data i) (it_restarts i) (it_num_restarts i) (it_current i) (it_restart_index i)
    (it_key i) (it_value i) (it_status i).

Definition new_BlockIter (data : text) (restarts num_restarts : Z) : BlockIter :=
  mkBlockIter data restarts num_restarts restarts num_restarts [] (0, 0) status_OK.

Definition it_Valid (i : BlockIter) : bool := it_current i <? it_restarts i.
Definition value_text (i : BlockIter) : text := takez (it_value i).2 (dropz (it_value i).1 (it_data i)).

Definition NextEntryOffset (i : BlockIter) : Z := u32 ((it_value i).1 + (it_value i).2).
Definition GetRestartPoint (i : BlockIter) (index : Z) : Z :=
  default 0 (DecodeFixed32 (dropz (it_restarts i + index * 4) (it_data i))).

Definition SeekToRestartPoint (index : Z) (i : BlockIter) : BlockIter :=
  i <| it_key := [] |> <| it_restart_index := index |> <| it_value := (GetRestartPoint i index, 0) |>.

Definition CorruptionError (i : BlockIter) : BlockIter :=
  i <| it_current := it_restarts i |> <| it_restart_index := it_num_restarts i |>
    <| it_status := Corruption (L "bad entry in block") [] |> <| it_key := [] |> <| it_value := (0, 0) |>.

(** The bytes from an offset to the restart array, and a range of the block.  The result
    of a function of the iterator is [None] when bytes outside the block are read or a
    loop does not end within its fuel; neither happens in a block that was built. *)
Definition entry_bytes (i : BlockIter) (offset : Z) : text :=
  dropz offset (takez (it_restarts i) (it_data i)).
Definition read_at (i : BlockIter) (offset n : Z) : option text :=
  if offset + n <=? lenz (it_data i) then Some (takez n (dropz offset (it_data i))) else None.

Fixpoint index_loop (fuel : nat) (i : BlockIter) : option BlockIter :=
  match fuel with
  | O => None
  | S fuel =>
    if (u32 (it_restart_index i + 1) <? it_num_restarts i)
       && (GetRestartPoint i (it_restart_index i + 1) <? it_current i)
    then index_loop fuel (i <| it_restart_index ::= Z.add 1 |>)
    else Some i
  end.

Definition ParseNextKey (i : BlockIter) : option (BlockIter * bool) :=
  let i := i <| it_current := NextEntryOffset i |> in
  if it_restarts i <=? it_current i then
    Some (i <| it_current := it_restarts i |> <| it_restart_index := it_num_restarts i |>, false)
  else
    let bytes := entry_bytes i (it_current i) in
    match DecodeEntry bytes with
    | Some (shared, non_shared, value_length, p) =>
      if lenz (it_key i) <? shared then Some (CorruptionError i, false)
      else
        let offset := it_current i + lenz bytes - lenz p in
        delta ← read_at i offset non_shared;
        let i := i <| it_key := takez shared (it_key i) ++ delta |>
                   <| it_value := (offset + non_shared, value_length) |> in
        i ← index_loop (S (Z.to_nat (it_num_restarts i))) i;
        Some (i, true)
    | None => Some (CorruptionError i, false)
    end.

Definition it_Next (i : BlockIter) : option BlockIter := fst <$> ParseNextKey i.

(** A loop that parses entries as long as the condition holds. *)
Fixpoint parse_while (fuel : nat) (cond : BlockIter -> bool) (i : BlockIter) : option BlockIter :=
  match fuel with
  | O => None
  | S fuel =>
    '(i, more) ← ParseNextKey i;
    if more && cond i then parse_while fuel cond i else Some i
  end.

(** Every round takes bytes of the block. *)
Definition block_fuel (i : BlockIter) : nat := S (length (it_data i)).

Fixpoint prev_loop (fuel : nat) (original : Z) (i : BlockIter) : option (option BlockIter) :=
  match fuel with
  | O => None
  | S fuel =>
    if original <=? GetRestartPoint i (it_restart_index i) then
      if it_restart_index i =? 0 then Some None
      else prev_loop fuel original (i <| it_restart_index ::= fun n => n - 1 |>)
    else Some (Some i)
  end.

Definition it_Prev (i : BlockIter) : option BlockIter :=
  let original := it_current i in
  r ← prev_loop (S (Z.to_nat (it_num_restarts i))) original i;
  match r with
  | None => Some (i <| it_current := it_restarts i |> <| it_restart_index := it_num_restarts i |>)
  | Some i =>
    parse_while (block_fuel i) (fun i => NextEntryOffset i <? original)
      (SeekToRestartPoint (it_restart_index i) i)
  end.

Section seek.
Context `{Comparator text}.

(** The binary search of [Seek]; an error ends it. *)
Fixpoint search_loop (fuel : nat) (target : text) (left right : Z) (i : BlockIter) : option (option Z) :=
  match fuel with
  | O => None
  | S fuel =>
    if left <? right then
      let mid := u32 (left + right + 1) / 2 in
      let region_offset := GetRestartPoint i mid in
      let bytes := entry_bytes i region_offset in
      match DecodeEntry bytes with
      | Some (0, non_shared, value_length, p) =>
        mid_key ← read_at i (region_offset + lenz bytes - lenz p) non_shared;
        match compare_ mid_key target with
        | Lt => search_loop fuel target mid right i
        | _ => search_loop fuel target left (mid - 1) i
        end
      | _ => Some None
      end
    else Some (Some left)
  end.

Definition it_Seek (target : text) (i : BlockIter) : option BlockIter :=
  let current_key_compare := if it_Valid i then Some (compare_ (it_key i) target) else None in
  match current_key_compare with
  | Some Eq => Some i
  | _ =>
    let left := match current_key_compare with Some Lt => it_restart_index i | _ => 0 end in
    let right := match current_key_compare with Some Gt => it_restart_index i | _ => it_num_restarts i - 1 end in
    r ← search_loop (S (Z.to_nat (it_num_restarts i))) target left right i;
    match r with
    | None => Some (CorruptionError i)
    | Some lo =>
      let skip_seek := (lo =? it_restart_index i)
                       && match current_key_compare with Some Lt => true | _ => false end in
      let i := if skip_seek then i else SeekToRestartPoint lo i in
      parse_while (block_fuel i) (fun i => match compare_ (it_key i) target with Lt => true | _ => false end) i
    end
  end.

End seek.

Definition it_SeekToFirst (i : BlockIter) : option BlockIter :=
  fst <$> ParseNextKey (SeekToRestartPoint 0 i).

Definition it_SeekToLast (i : BlockIter) : option BlockIter :=
  parse_while (block_fuel i) (fun i => NextEntryOffset i <? it_restarts i)
    (SeekToRestartPoint (it_num_restarts i - 1) i).

(** [Block::NewIterator]: an iterator with an error, an empty one, or one over the entries. *)
Inductive NewIter := ErrorIterator (s : Status) | EmptyIterator | EntryIterator (i : BlockIter).

Definition NewIterator (b : Block) : NewIter :=
  if size_ b <? 4 then ErrorIterator (Corruption (L "bad block contents") [])
  else
    let num_restarts := NumRestarts (data_ b) (size_ b) in
    if num_restarts =? 0 then EmptyIterator
    else EntryIterator (new_BlockIter (data_ b) (restart_offset_ b) num_restarts).

(** ** The layout of a block *)

Definition build_block (interval : Z) (es : list (text * text)) : BlockBuilder :=
  foldl (fun b e => bb_Add interval e.1 e.2 b) new_BlockBuilder es.

Definition block_text (interval : Z) (es : list (text * text)) : text :=
  bb_buffer (bb_Finish (build_block interval es)).

Definition key_at (es : list (text * text)) (i : nat) : text := default [] (fst <$> es !! i).
Definition value_at (es : list (text * text)) (i : nat) : text := default [] (snd <$> es !! i).

Definition shared_at (k : nat) (es : list (text * text)) (i : nat) : nat :=
  if decide (i `mod` k = 0)%nat then O else shared_prefix (key_at es (i - 1)) (key_at es i).

Definition entry_image (shared : nat) (key value : text) : text :=
  EncodeVarint32 (Z.of_nat shared) ++ EncodeVarint32 (lenz key - Z.of_nat shared)
  ++ EncodeVarint32 (lenz value) ++ drop shared key ++ value.

Definition chunk (k : nat) (es : list (text * text)) (i : nat) : text :=
  entry_image (shared_at k es i) (key_at es i) (value_at es i).

Definition chunks (k : nat) (es : list (text * text)) : list text := chunk k es <$> seq 0 (length es).
Definition offset (k : nat) (es : list (text * text)) (i : nat) : nat := length (concat (take i (chunks k es))).
Definition num_points (k n : nat) : nat := S ((n - 1) `div` k)%nat.

Definition points (k : nat) (es : list (text * text)) : list Z :=
  (fun j => Z.of_nat (offset k es (j * k))) <$> seq 0 (num_points k (length es)).

(** *** Lists of chunks *)

Lemma shared_prefix_le a b : (shared_prefix a b <= length a /\ shared_prefix a b <= length b)%nat.
Proof.
  revert b. induction a as [|x a IH]; intros [|y b]; simpl; try lia.
  case_decide; simpl; [|lia]. specialize (IH b). lia.
Qed.

Lemma shared_prefix_take a b : take (shared_prefix a b) a = take (shared_prefix a b) b.
Proof.
  revert b. induction a as [|x a IH]; intros [|y b]; simpl; try done.
  case_decide; simpl; [|done]. by subst; rewrite IH.
Qed.

Lemma key_at_app es e i : (i < length es)%nat -> key_at (es ++ [e]) i = key_at es i.
Proof. intros Hi. unfold key_at. by rewrite lookup_app_l. Qed.

Lemma value_at_app es e i : (i < length es)%nat -> value_at (es ++ [e]) i = value_at es i.
Proof. intros Hi. unfold value_at. by rewrite lookup_app_l. Qed.

Lemma key_at_snoc es e : key_at (es ++ [e]) (length es) = e.1.
Proof. unfold key_at. by rewrite list_lookup_middle. Qed.

Lemma value_at_snoc es e : value_at (es ++ [e]) (length es) = e.2.
Proof. unfold value_at. by rewrite list_lookup_middle. Qed.

Lemma shared_at_le k es i : (shared_at k es i <= length (key_at es i))%nat.
Proof. unfold shared_at. case_decide; [lia|]. apply shared_prefix_le. Qed.

Lemma chunk_app k es e i : (i < length es)%nat -> chunk k (es ++ [e]) i = chunk k es i.
Proof.
  intros Hi. unfold chunk, shared_at. rewrite !key_at_app, value_at_app by lia. done.
Qed.

Lemma chunks_length k es : length (chunks k es) = length es.
Proof. unfold chunks. by rewrite length_fmap, length_seq. Qed.

Lemma chunks_snoc k es e : chunks k (es ++ [e]) = chunks k es ++ [chunk k (es ++ [e]) (length es)].
Proof.
  unfold chunks. rewrite length_app, seq_app, fmap_app. f_equal.
  apply list_fmap_ext. intros j x Hj. apply lookup_seq in Hj as [-> Hj]. by apply chunk_app.
Qed.

Lemma offset_snoc k es e i : (i <= length es)%nat -> offset k (es ++ [e]) i = offset k es i.
Proof.
  intros Hi. unfold offset. rewrite chunks_snoc, take_app_le; [done|]. by rewrite chunks_length.
Qed.

Lemma offset_all k es : offset k es (length es) = length (concat (chunks k es)).
Proof. unfold offset. by rewrite take_ge by (by rewrite chunks_length). Qed.

Lemma chunks_lookup k es i : (i < length es)%nat -> chunks k es !! i = Some (chunk k es i).
Proof. intros Hi. unfold chunks. by rewrite list_lookup_fmap, lookup_seq_lt. Qed.

Lemma offset_S k es i : (i < length es)%nat -> offset k es (S i) = (offset k es i + length (chunk k es i))%nat.
Proof.
  intros Hi. unfold offset. rewrite (take_S_r _ _ _ (chunks_lookup k es i Hi)), concat_app, length_app.
  simpl. by rewrite app_nil_r.
Qed.

Lemma varint32_nonempty v : (1 <= length (EncodeVarint32 v))%nat.
Proof. unfold EncodeVarint32. repeat case_match; simpl; lia. Qed.

Lemma entry_image_length s key value : (3 <= length (entry_image s key value))%nat.
Proof.
  unfold entry_image. rewrite !length_app.
  pose proof (varint32_nonempty (Z.of_nat s)). pose proof (varint32_nonempty (lenz key - Z.of_nat s)).
  pose proof (varint32_nonempty (lenz value)). lia.
Qed.

Lemma offset_lt k es i j : (i < j)%nat -> (j <= length es)%nat -> (offset k es i + 3 * (j - i) <= offset k es j)%nat.
Proof.
  intros Hij. induction Hij as [|j Hij IH]; intros Hj; rewrite offset_S by lia.
  - pose proof (entry_image_length (shared_at k es i) (key_at es i) (value_at es i)). unfold chunk. lia.
  - pose proof (entry_image_length (shared_at k es j) (key_at es j) (value_at es j)). unfold chunk. lia.
Qed.

Lemma offset_le k es i j : (i <= j)%nat -> (j <= length es)%nat -> (offset k es i <= offset k es j)%nat.
Proof.
  intros Hij Hj. destruct (decide (i = j)) as [->|Hn]; [done|].
  pose proof (offset_lt k es i j ltac:(lia) Hj). lia.
Qed.

(** *** The builder writes the layout *)

Lemma next_index k n : (1 <= k)%nat -> (1 <= n)%nat ->
  if decide (S ((n - 1) `mod` k) < k)%nat
  then (n `mod` k = S ((n - 1) `mod` k) /\ n `div` k = (n - 1) `div` k)%nat
  else (n `mod` k = 0 /\ n `div` k = S ((n - 1) `div` k))%nat.
Proof.
  intros Hk Hn. pose proof (Nat.div_mod_eq (n - 1) k) as Hd.
  pose proof (Nat.mod_upper_bound (n - 1) k ltac:(lia)) as Hm. case_decide as Hlt.
  - split; symmetry.
    + apply (Nat.mod_unique _ _ ((n - 1) `div` k)); lia.
    + apply (Nat.div_unique _ _ _ (S ((n - 1) `mod` k))); lia.
  - split; symmetry.
    + apply (Nat.mod_unique _ _ (S ((n - 1) `div` k))); lia.
    + apply (Nat.div_unique _ _ _ 0); lia.
Qed.

Lemma point_le k n j : (1 <= k)%nat -> (j < num_points k n)%nat -> (j * k <= n)%nat.
Proof.
  intros Hk Hj. unfold num_points in Hj. pose proof (Nat.div_mod_eq (n - 1) k).
  assert (j * k <= (n - 1) `div` k * k)%nat by (apply Nat.mul_le_mono_r; lia). lia.
Qed.

Record BuilderInv (k : nat) (es : list (text * text)) (b : BlockBuilder) : Prop := {
  bi_buffer : bb_buffer b = concat (chunks k es);
  bi_restarts : bb_restarts b = points k es;
  bi_counter : bb_counter b = Z.of_nat (if decide (es = []) then 0 else S ((length es - 1) `mod` k));
  bi_last : bb_last_key b = key_at es (length es - 1);
  bi_last_length : lenz (bb_last_key b) <= lenz (bb_buffer b);
  bi_finished : bb_finished b = false
}.

Lemma bb_Add_fields interval key value b :
  let go := bb_counter b <? interval in
  let sh := if go then shared_prefix (bb_last_key b) key else O in
  bb_Add interval key value b =
    mkBlockBuilder
      (bb_buffer b ++ EncodeVarint32 (u32 (Z.of_nat sh)) ++ EncodeVarint32 (u32 (lenz key - Z.of_nat sh))
       ++ EncodeVarint32 (u32 (lenz value)) ++ drop sh key ++ value)
      (bb_restarts b ++ if go then [] else [u32 (lenz (bb_buffer b))])
      (1 + if go then bb_counter b else 0) (bb_finished b) (take sh (bb_last_key b) ++ drop sh key).
Proof.
  unfold bb_Add, PutVarint32. destruct (_ <? _); destruct b; simpl; rewrite <- ?app_assoc, ?app_nil_r; done.
Qed.

Lemma size_grows interval key value b :
  CurrentSizeEstimate b + lenz value <= CurrentSizeEstimate (bb_Add interval key value b).
Proof.
  rewrite bb_Add_fields. unfold CurrentSizeEstimate, lenz. cbn [bb_buffer bb_restarts].
  rewrite !length_app. lia.
Qed.

Lemma tail_bound interval key value b :
  let sh := if bb_counter b <? interval then shared_prefix (bb_last_key b) key else O in
  lenz (bb_buffer b) + lenz (drop sh key) + lenz value <= CurrentSizeEstimate (bb_Add interval key value b).
Proof.
  intros sh. rewrite bb_Add_fields. fold sh. unfold CurrentSizeEstimate, lenz. cbn [bb_buffer bb_restarts].
  rewrite !length_app. lia.
Qed.

Lemma build_snoc interval es e :
  build_block interval (es ++ [e]) = bb_Add interval e.1 e.2 (build_block interval es).
Proof. unfold build_block. by rewrite foldl_app. Qed.

Lemma points_snoc k es e : (1 <= k)%nat -> points k (es ++ [e]) =
  points k es ++ if bool_decide (es <> [] /\ length es `mod` k = 0)%nat then [Z.of_nat (offset k es (length es))] else [].
Proof.
  intros Hk. unfold points. assert (Hext : forall l : list nat, (forall j, j ∈ l -> (j * k <= length es)%nat) ->
    ((fun j => Z.of_nat (offset k (es ++ [e]) (j * k))) <$> l) = (fun j => Z.of_nat (offset k es (j * k))) <$> l).
  { intros l Hl. apply list_fmap_ext. intros i j Hj. rewrite offset_snoc; [done|].
    apply Hl. by eapply list_elem_of_lookup_2. }
  rewrite length_app. unfold num_points. simpl (length [e]). replace (length es + 1 - 1)%nat with (length es) by lia.
  destruct (decide (es = [])) as [->|Hne].
  { rewrite bool_decide_false by naive_solver. rewrite app_nil_r. change (length (@nil (text * text))) with O. change (0 - 1)%nat with O.
    by rewrite Nat.Div0.div_0_l. }
  assert (1 <= length es)%nat by (destruct es; simpl; [done|lia]).
  pose proof (next_index k (length es) Hk ltac:(done)) as Hn. case_decide as Hlt; destruct Hn as [Hm Hd].
  - rewrite Hd, bool_decide_false by lia. rewrite app_nil_r. apply Hext. intros j Hj.
    apply elem_of_seq in Hj. apply point_le; [done|unfold num_points; lia].
  - rewrite Hd, bool_decide_true by done. rewrite (seq_S (S _)), fmap_app. simpl (0 + _)%nat. f_equal.
    + apply Hext. intros j Hj. apply elem_of_seq in Hj. apply point_le; [done|unfold num_points; lia].
    + cbn [fmap list_fmap]. do 2 f_equal. pose proof (Nat.div_mod_eq (length es) k).
      rewrite <- Hd. replace (length es `div` k * k)%nat with (length es) by lia. by rewrite offset_snoc.
Qed.

Lemma go_shared k es e b : (1 <= k)%nat -> BuilderInv k es b ->
  (if bb_counter b <? Z.of_nat k then shared_prefix (bb_last_key b) e.1 else O) = shared_at k (es ++ [e]) (length es)
  /\ ((bb_counter b <? Z.of_nat k) = negb (bool_decide (es <> [] /\ length es `mod` k = 0)%nat))
  /\ (1 + if bb_counter b <? Z.of_nat k then bb_counter b else 0) = Z.of_nat (S (length es `mod` k)).
Proof.
  intros Hk I. rewrite (bi_counter _ _ _ I), (bi_last _ _ _ I). unfold shared_at. rewrite key_at_snoc.
  destruct (decide (es = [])) as [->|Hne].
  { rewrite (proj2 (Z.ltb_lt _ _)) by lia. rewrite bool_decide_false by naive_solver.
    change (length (@nil (text * text))) with O. by rewrite Nat.Div0.mod_0_l. }
  assert (1 <= length es)%nat by (destruct es; simpl; [done|lia]).
  rewrite key_at_app by lia.
  pose proof (next_index k (length es) Hk ltac:(done)) as Hn. case_decide as Hlt; destruct Hn as [Hm Hd].
  - rewrite (proj2 (Z.ltb_lt _ _)) by lia. rewrite decide_False by lia.
    rewrite bool_decide_false by lia. split_and!; [done..|lia].
  - rewrite (proj2 (Z.ltb_ge _ _)) by lia. rewrite decide_True by lia.
    rewrite bool_decide_true by done. split_and!; [done..|lia].
Qed.

Lemma build_inv k es : (1 <= k)%nat -> CurrentSizeEstimate (build_block (Z.of_nat k) es) < 2 ^ 32 ->
  BuilderInv k es (build_block (Z.of_nat k) es).
Proof.
  intros Hk. induction es as [|e es IH] using rev_ind; intros Hsz.
  { split; try done. unfold points, num_points. simpl. rewrite Nat.Div0.div_0_l. done. }
  rewrite build_snoc in *. set (b := build_block (Z.of_nat k) es) in *.
  pose proof (size_grows (Z.of_nat k) e.1 e.2 b) as Hg. pose proof (lenz_nonneg e.2) as Hv.
  pose proof (tail_bound (Z.of_nat k) e.1 e.2 b) as Ht.
  specialize (IH ltac:(lia)). destruct (go_shared k es e b Hk IH) as (Hsh & Hgo & Hc).
  rewrite Hsh in Ht. cbn beta zeta in Ht. pose proof (lenz_nonneg (bb_buffer b)).
  assert (Hlast : lenz (take (shared_at k (es ++ [e]) (length es)) (bb_last_key b)) <= lenz (bb_buffer b)).
  { pose proof (bi_last_length _ _ _ IH). unfold lenz in *. rewrite length_take. lia. }
  assert (Htake : take (shared_at k (es ++ [e]) (length es)) (bb_last_key b) = take (shared_at k (es ++ [e]) (length es)) e.1).
  { rewrite <- Hsh. destruct (_ <? _); [apply shared_prefix_take|done]. }
  pose proof (shared_at_le k (es ++ [e]) (length es)) as Hle. rewrite key_at_snoc in Hle.
  rewrite bb_Add_fields, Hsh, Hc, Htake, take_drop. rewrite Htake in Hlast.
  remember (shared_at k (es ++ [e]) (length es)) as sh eqn:Esh.
  assert (lenz (take sh e.1) = Z.of_nat sh) by (unfold lenz; rewrite length_take; lia).
  assert (lenz (drop sh e.1) = lenz e.1 - Z.of_nat sh) by (unfold lenz; rewrite length_drop; lia).
  pose proof (lenz_nonneg (drop sh e.1)).
  assert (Hu : forall x, 0 <= x < 2 ^ 32 -> u32 x = x) by (intros x Hx; unfold u32; by apply Z.mod_small).
  rewrite !Hu by lia.
  split; cbn [bb_buffer bb_restarts bb_counter bb_last_key bb_finished].
  - rewrite (bi_buffer _ _ _ IH), chunks_snoc, concat_app. simpl. rewrite app_nil_r.
    unfold chunk. rewrite <- Esh, key_at_snoc, value_at_snoc. done.
  - rewrite (bi_restarts _ _ _ IH), points_snoc, Hgo by done.
    rewrite (bi_buffer _ _ _ IH). unfold lenz. rewrite <- offset_all. by destruct (bool_decide _).
  - rewrite decide_False by (by destruct es). rewrite length_app. simpl. do 3 f_equal. lia.
  - rewrite length_app. simpl. replace (length es + 1 - 1)%nat with (length es) by lia. by rewrite key_at_snoc.
  - rewrite !lenz_app. pose proof (lenz_nonneg (EncodeVarint32 (Z.of_nat sh))).
    pose proof (lenz_nonneg (EncodeVarint32 (lenz e.1 - Z.of_nat sh))). pose proof (lenz_nonneg (EncodeVarint32 (lenz e.2))). lia.
  - apply IH.
Qed.

(** *** The bytes of the block *)

Lemma lor_small a b k : 0 <= a -> 0 <= b -> 0 <= k -> Z.lor a b < 2 ^ k -> a < 2 ^ k /\ b < 2 ^ k.
Proof.
  intros Ha Hb Hk Hl. assert (0 < 2 ^ k) by (apply Z.pow_pos_nonneg; lia).
  assert (Hx : forall x, 0 <= x -> Z.log2 x <= Z.log2 (Z.lor a b) -> 0 < Z.lor a b -> x < 2 ^ k).
  { intros x Hx Hle Hp. destruct (Z.eq_dec x 0) as [->|]; [lia|].
    apply Z.log2_lt_pow2; [lia|]. apply Z.log2_lt_pow2 in Hl; lia. }
  pose proof (Z.log2_lor a b Ha Hb). destruct (Z.eq_dec (Z.lor a b) 0) as [E|].
  - apply Z.lor_eq_0_iff in E as [-> ->]. lia.
  - assert (0 < Z.lor a b) by (pose proof (proj2 (Z.lor_nonneg a b) (conj Ha Hb)); lia).
    split; apply Hx; lia.
Qed.

(** Three single bytes are what the general decoder reads as well. *)
Lemma DecodeEntry_general p : 3 <= lenz p ->
  DecodeEntry p =
    '(shared, p) ← GetVarint32Ptr p;
    '(non_shared, p) ← GetVarint32Ptr p;
    '(value_length, p) ← GetVarint32Ptr p;
    if u32 (lenz p) <? u32 (non_shared + value_length) then None
    else Some (shared, non_shared, value_length, p).
Proof.
  intros Hp. unfold DecodeEntry. rewrite (proj2 (Z.ltb_ge _ _)) by done.
  destruct p as [|a [|b [|c rest]]]; try (unfold lenz in Hp; simpl in Hp; lia).
  assert (Hsmall : forall x p, byte_val x < 128 -> GetVarint32Ptr (x :: p) = Some (byte_val x, p)).
  { intros x p Hx. unfold GetVarint32Ptr. pose proof (byte_val_bound x).
    rewrite (proj2 (Z.eqb_eq _ _)); [done|]. apply Z.eqb_eq. rewrite land_128 by lia. by apply Z.ltb_lt. }
  destruct (_ <? 128) eqn:E.
  - apply Z.ltb_lt in E. pose proof (byte_val_bound a). pose proof (byte_val_bound b). pose proof (byte_val_bound c).
    apply (lor_small _ _ 7) in E as [E Ec]; [|apply Z.lor_nonneg; lia|lia..].
    apply (lor_small _ _ 7) in E as [Ea Eb]; [|lia..]. simpl (2 ^ 7) in *. rewrite Hsmall by done.
    cbn [mbind option_bind]. rewrite Hsmall by done. cbn [mbind option_bind]. by rewrite Hsmall.
  - destruct (GetVarint32Ptr (a :: _)) as [[? ?]|]; simpl; [|done].
    destruct (GetVarint32Ptr _) as [[? ?]|]; simpl; [|done].
    destruct (GetVarint32Ptr _) as [[? ?]|]; simpl; done.
Qed.

Lemma decode_entry_bytes a b c p : is_u32 a -> is_u32 b -> is_u32 c ->
  DecodeEntry (EncodeVarint32 a ++ EncodeVarint32 b ++ EncodeVarint32 c ++ p)
  = if u32 (lenz p) <? u32 (b + c) then None else Some (a, b, c, p).
Proof.
  intros Ha Hb Hc. rewrite DecodeEntry_general.
  2: { unfold lenz. rewrite !length_app. pose proof (varint32_nonempty a). pose proof (varint32_nonempty b).
       pose proof (varint32_nonempty c). lia. }
  pose proof get_varint32 as Hg. unfold GetVarint32 in Hg. rewrite Hg by done. cbn [mbind option_bind].
  rewrite Hg by done. cbn [mbind option_bind]. by rewrite Hg.
Qed.

Lemma decode_entry_image a b c p : is_u32 a -> is_u32 b -> is_u32 c -> b + c <= lenz p -> is_u32 (lenz p) ->
  DecodeEntry (EncodeVarint32 a ++ EncodeVarint32 b ++ EncodeVarint32 c ++ p) = Some (a, b, c, p).
Proof.
  intros Ha Hb Hc Hlen Hp. rewrite decode_entry_bytes by done.
  unfold is_u32, u32 in *. rewrite !Z.mod_small by lia. by rewrite (proj2 (Z.ltb_ge _ _)).
Qed.

Lemma put_fixed32s dst l : foldl PutFixed32 dst l = dst ++ concat (EncodeFixed32 <$> l).
Proof.
  revert dst. induction l as [|v l IH]; intros dst; simpl; [by rewrite app_nil_r|].
  rewrite IH. unfold PutFixed32. by rewrite <- app_assoc.
Qed.

Lemma fixed32s_length l : lenz (concat (EncodeFixed32 <$> l)) = 4 * lenz l.
Proof. induction l as [|v l IH]; [done|]. cbn [fmap list_fmap concat]. rewrite lenz_app, IH. unfold lenz. simpl. lia. Qed.

Lemma fixed32s_lookup l j v rest : l !! j = Some v -> is_u32 v ->
  DecodeFixed32 (dropz (Z.of_nat j * 4) (concat (EncodeFixed32 <$> l) ++ rest)) = Some v.
Proof.
  intros Hj Hv. rewrite <- (take_drop_middle _ _ _ Hj), fmap_app, concat_app, <- app_assoc.
  assert (j < length l)%nat by (by apply lookup_lt_Some in Hj).
  rewrite dropz_app_ge; rewrite fixed32s_length; unfold lenz; rewrite length_take; [|lia].
  replace (Z.of_nat j * 4 - _) with 0 by lia. rewrite dropz_0. cbn [fmap list_fmap concat].
  rewrite <- app_assoc. by apply decode_fixed32.
Qed.

Lemma sorted_lookup {A} (R : A -> A -> Prop) (l : list A) i j x y :
  StronglySorted R l -> (i < j)%nat -> l !! i = Some x -> l !! j = Some y -> R x y.
Proof.
  intros Hs Hij Hx Hy. rewrite <- (take_drop_middle _ _ _ Hx) in Hs.
  apply StronglySorted_app_1_r, StronglySorted_cons in Hs as [Hs _].
  rewrite Forall_forall in Hs. apply Hs. apply (list_elem_of_lookup_2 _ (j - S i)).
  rewrite lookup_drop. by replace (S i + (j - S i))%nat with j by lia.
Qed.

Section layout.
Context (k : nat) (es : list (text * text)).
Context (Hk : (1 <= k)%nat) (Hsize : CurrentSizeEstimate (build_block (Z.of_nat k) es) < 2 ^ 32).

Abbreviation n := (length es).
Abbreviation m := (num_points k (length es)).
Abbreviation off := (offset k es).
Abbreviation contents := (block_text (Z.of_nat k) es).

Lemma points_length : length (points k es) = m.
Proof. unfold points. by rewrite length_fmap, length_seq. Qed.

Lemma size_estimate : CurrentSizeEstimate (build_block (Z.of_nat k) es) = Z.of_nat (off n) + 4 * Z.of_nat m + 4.
Proof.
  pose proof (build_inv k es Hk Hsize) as I. unfold CurrentSizeEstimate, lenz.
  rewrite (bi_buffer _ _ _ I), (bi_restarts _ _ _ I), <- offset_all, points_length. lia.
Qed.

Lemma contents_layout :
  contents = concat (chunks k es) ++ concat (EncodeFixed32 <$> points k es) ++ EncodeFixed32 (Z.of_nat m).
Proof.
  pose proof (build_inv k es Hk Hsize) as I. pose proof size_estimate.
  unfold block_text, bb_Finish. cbn. rewrite put_fixed32s.
  rewrite (bi_buffer _ _ _ I), (bi_restarts _ _ _ I). unfold PutFixed32, lenz. rewrite points_length.
  unfold u32. rewrite Z.mod_small by lia. by rewrite <- app_assoc.
Qed.

Lemma contents_length : lenz contents = Z.of_nat (off n) + 4 * Z.of_nat m + 4.
Proof.
  rewrite contents_layout, !lenz_app, fixed32s_length. unfold lenz. rewrite points_length, <- offset_all.
  simpl (length (EncodeFixed32 _)). lia.
Qed.

Lemma num_restarts_contents : NumRestarts contents (lenz contents) = Z.of_nat m.
Proof.
  unfold NumRestarts. rewrite contents_length, contents_layout, app_assoc.
  rewrite dropz_app_ge; rewrite lenz_app, fixed32s_length; unfold lenz; rewrite points_length, <- offset_all; [|lia].
  replace (_ - _) with 0 by lia. rewrite dropz_0, <- (app_nil_r (EncodeFixed32 _)), decode_fixed32; [done|].
  pose proof size_estimate. unfold is_u32. lia.
Qed.

Lemma new_Block_contents : new_Block contents = mkBlock contents (lenz contents) (Z.of_nat (off n)).
Proof.
  unfold new_Block. rewrite num_restarts_contents, contents_length. pose proof size_estimate.
  assert (0 < Z.of_nat m) by (unfold num_points; lia).
  rewrite (proj2 (Z.ltb_ge _ _)) by lia. rewrite (proj2 (Z.ltb_ge _ _)).
  - f_equal. unfold u32. rewrite (Z.mod_small (1 + _)), Z.mod_small by lia. lia.
  - apply Z.div_le_lower_bound; lia.
Qed.

(** *** Positions of the iterator *)

Record on_block (it : BlockIter) : Prop := {
  ob_data : it_data it = contents;
  ob_restarts : it_restarts it = Z.of_nat (off n);
  ob_num : it_num_restarts it = Z.of_nat m;
  ob_status : it_status it = status_OK
}.

(** The restart index is that of a restart point not after entry [i]. *)
Definition index_ok (i : nat) (it : BlockIter) : Prop :=
  exists r, it_restart_index it = Z.of_nat r /\ (r < m)%nat /\ (r * k <= i)%nat.

(** The iterator is at entry [i], or at the end. *)
Record position (i : nat) (it : BlockIter) : Prop := {
  pos_block : on_block it;
  pos_le : (i <= n)%nat;
  pos_current : it_current it = Z.of_nat (off i);
  pos_key : (i < n)%nat -> it_key it = key_at es i;
  pos_value : (i < n)%nat -> it_value it = (Z.of_nat (off (S i)) - lenz (value_at es i), lenz (value_at es i));
  pos_index : (i < n)%nat -> index_ok i it
}.

(** The iterator is about to read entry [i]. *)
Record before (i : nat) (it : BlockIter) : Prop := {
  bf_block : on_block it;
  bf_le : (i <= n)%nat;
  bf_next : NextEntryOffset it = Z.of_nat (off i);
  bf_key : (i `mod` k <> 0)%nat -> it_key it = key_at es (i - 1);
  bf_index : index_ok i it
}.

Lemma off_bound i : (i <= n)%nat -> Z.of_nat (off i) <= Z.of_nat (off n) < 2 ^ 32.
Proof. intros Hi. pose proof (offset_le k es i n Hi ltac:(done)). pose proof size_estimate. lia. Qed.

Lemma off_iff i j : (i <= n)%nat -> (j <= n)%nat -> (off i < off j)%nat <-> (i < j)%nat.
Proof.
  intros Hi Hj. split; intros H.
  - destruct (Nat.lt_ge_cases i j); [done|]. pose proof (offset_le k es j i ltac:(done) Hi). lia.
  - pose proof (offset_lt k es i j H Hj). lia.
Qed.

Lemma off_ltb i j : (i <= n)%nat -> (j <= n)%nat -> (Z.of_nat (off i) <? Z.of_nat (off j)) = bool_decide (i < j)%nat.
Proof.
  intros Hi Hj. pose proof (off_iff i j Hi Hj). case_bool_decide; [apply Z.ltb_lt|apply Z.ltb_ge]; lia.
Qed.

Lemma GetRestartPoint_at it j : on_block it -> (j < m)%nat -> GetRestartPoint it (Z.of_nat j) = Z.of_nat (off (j * k)).
Proof.
  intros B Hj. unfold GetRestartPoint. rewrite (ob_data _ B), (ob_restarts _ B), contents_layout.
  rewrite dropz_app_ge; unfold lenz; rewrite <- offset_all; [|lia].
  replace (_ + _ - _) with (Z.of_nat j * 4) by lia.
  rewrite (fixed32s_lookup _ _ (Z.of_nat (off (j * k)))); [done| |].
  - unfold points. by rewrite list_lookup_fmap, lookup_seq_lt.
  - pose proof (off_bound (j * k) (point_le k n j Hk Hj)). unfold is_u32. lia.
Qed.

(** What lies at the offset of an entry. *)
Lemma contents_at i : (i < n)%nat ->
  concat (chunks k es) = concat (take i (chunks k es)) ++ chunk k es i ++ concat (drop (S i) (chunks k es)).
Proof.
  intros Hi. rewrite <- (take_drop_middle _ _ _ (chunks_lookup k es i Hi)) at 1.
  by rewrite concat_app.
Qed.

Lemma entry_bytes_at it i : on_block it -> (i < n)%nat ->
  entry_bytes it (Z.of_nat (off i)) = chunk k es i ++ concat (drop (S i) (chunks k es)).
Proof.
  intros B Hi. unfold entry_bytes. rewrite (ob_data _ B), (ob_restarts _ B), contents_layout.
  rewrite takez_app_le by (unfold lenz; rewrite <- offset_all; lia).
  rewrite takez_all by (unfold lenz; rewrite <- offset_all; lia).
  rewrite (contents_at i Hi). rewrite dropz_app_ge; unfold lenz; unfold offset; [|lia].
  by rewrite Z.sub_diag, dropz_0.
Qed.

Abbreviation sh i := (shared_at k es i).
Abbreviation delta i := (drop (sh i) (key_at es i)).
Abbreviation rest i := (delta i ++ value_at es i ++ concat (drop (S i) (chunks k es))).

Lemma chunk_bound i : (i < n)%nat -> Z.of_nat (off i) + lenz (delta i) + lenz (value_at es i) + 3 <= Z.of_nat (off (S i)).
Proof.
  intros Hi. rewrite offset_S by done. unfold chunk, entry_image. rewrite !length_app.
  pose proof (varint32_nonempty (Z.of_nat (sh i))). pose proof (varint32_nonempty (lenz (key_at es i) - Z.of_nat (sh i))).
  pose proof (varint32_nonempty (lenz (value_at es i))). unfold lenz in *. lia.
Qed.

Lemma key_bound i : (i < n)%nat -> lenz (key_at es i) <= Z.of_nat (off (S i)).
Proof.
  intros Hi. assert (Hsh : Z.of_nat (sh i) <= Z.of_nat (off i)).
  2: { pose proof (chunk_bound i Hi). pose proof (lenz_nonneg (value_at es i)).
       unfold lenz in *. rewrite length_drop in *. pose proof (shared_at_le k es i). lia. }
  induction i as [|i IH]; unfold shared_at.
  { rewrite Nat.Div0.mod_0_l. rewrite decide_True by done. lia. }
  case_decide; [lia|]. replace (S i - 1)%nat with i by lia.
  pose proof (shared_prefix_le (key_at es i) (key_at es (S i))) as [Hp _]. specialize (IH ltac:(lia)).
  pose proof (chunk_bound i ltac:(lia)). pose proof (lenz_nonneg (value_at es i)).
  unfold lenz in *. rewrite length_drop in *. pose proof (shared_at_le k es i). lia.
Qed.

Lemma entry_decoded it i : on_block it -> (i < n)%nat ->
  let bytes := entry_bytes it (Z.of_nat (off i)) in
  let key_ptr := Z.of_nat (off i) + lenz bytes - lenz (rest i) in
  let non_shared := lenz (key_at es i) - Z.of_nat (sh i) in
  DecodeEntry bytes = Some (Z.of_nat (sh i), non_shared, lenz (value_at es i), rest i)
  /\ read_at it key_ptr non_shared = Some (delta i)
  /\ key_ptr + non_shared = Z.of_nat (off (S i)) - lenz (value_at es i).
Proof.
  intros B Hi. cbn zeta. rewrite (entry_bytes_at it i B Hi).
  pose proof (shared_at_le k es i) as Hle. pose proof (chunk_bound i Hi) as Hc. pose proof (key_bound i Hi) as Hkey.
  pose proof (off_bound (S i) ltac:(lia)) as Hb. pose proof (lenz_nonneg (value_at es i)) as Hv.
  assert (Hd : lenz (delta i) = lenz (key_at es i) - Z.of_nat (sh i)) by (unfold lenz; rewrite length_drop; lia).
  pose proof (lenz_nonneg (delta i)) as Hd0.
  assert (Hall : Z.of_nat (off i) + lenz (chunk k es i) + lenz (concat (drop (S i) (chunks k es))) = Z.of_nat (off n)).
  { rewrite offset_all, (contents_at i Hi), !length_app. unfold offset, lenz. lia. }
  assert (HS : Z.of_nat (off (S i)) = Z.of_nat (off i) + lenz (chunk k es i)) by (rewrite offset_S by done; unfold lenz; lia).
  pose proof (lenz_nonneg (concat (drop (S i) (chunks k es)))).
  remember (concat (drop (S i) (chunks k es))) as tl eqn:Etl.
  set (hdr := EncodeVarint32 (Z.of_nat (sh i)) ++ EncodeVarint32 (lenz (key_at es i) - Z.of_nat (sh i))
              ++ EncodeVarint32 (lenz (value_at es i))).
  assert (Hchunk : chunk k es i = hdr ++ delta i ++ value_at es i)
    by (unfold chunk, entry_image, hdr; by rewrite <- !app_assoc).
  assert (Hlen : lenz (chunk k es i) = lenz hdr + lenz (delta i) + lenz (value_at es i))
    by (rewrite Hchunk, !lenz_app; lia).
  split_and!.
  - rewrite Hchunk. unfold hdr. rewrite <- !app_assoc. pose proof (lenz_nonneg hdr).
    apply decode_entry_image; unfold is_u32; rewrite ?lenz_app; lia.
  - unfold read_at. rewrite (ob_data _ B), contents_length, !lenz_app.
    pose proof (lenz_nonneg hdr).
    replace (_ + _ - _) with (Z.of_nat (off i) + lenz hdr) by lia.
    rewrite (proj2 (Z.leb_le _ _)) by lia. f_equal.
    rewrite contents_layout, (contents_at i Hi), Hchunk, <- !app_assoc, <- Etl.
    rewrite dropz_app_ge; change (lenz (concat (take i (chunks k es)))) with (Z.of_nat (off i)); [|lia].
    rewrite dropz_app_ge; [|lia].
    replace (_ - _ - lenz hdr) with 0 by lia. rewrite dropz_0, takez_app_le by lia. by rewrite takez_all by lia.
  - rewrite !lenz_app. lia.
Qed.

Lemma index_loop_at fuel it i : on_block it -> (i < n)%nat -> it_current it = Z.of_nat (off i) -> index_ok i it ->
  (forall r, it_restart_index it = Z.of_nat r -> (m - r < fuel)%nat) ->
  exists r, index_loop fuel it = Some (it <| it_restart_index := Z.of_nat r |>) /\ (r < m)%nat /\ (r * k <= i)%nat.
Proof.
  revert it. induction fuel as [|fuel IH]; intros it B Hi Hcur (r & Er & Hr & Hri) Hf.
  { specialize (Hf r Er). lia. }
  specialize (Hf r Er). simpl. rewrite Er, (ob_num _ B). pose proof size_estimate.
  replace (Z.of_nat r + 1) with (Z.of_nat (S r)) by lia.
  assert (u32 (Z.of_nat (S r)) = Z.of_nat (S r)) as -> by (unfold u32; rewrite Z.mod_small; lia).
  destruct (Z.ltb_spec (Z.of_nat (S r)) (Z.of_nat m)) as [Hlt|Hge]; cbn [andb].
  2: { exists r. split; [|done]. f_equal. rewrite <- Er. by destruct it. }
  pose proof (point_le k n (S r) Hk ltac:(lia)).
  rewrite GetRestartPoint_at, Hcur, off_ltb by (done || lia). case_bool_decide as Hc.
  2: { exists r. split; [|done]. f_equal. rewrite <- Er. by destruct it. }
  destruct (IH (it <| it_restart_index ::= Z.add 1 |>)) as (r' & E & Hr').
  - by destruct B; split.
  - done.
  - done.
  - exists (S r). split_and!; [simpl; lia|lia|lia].
  - intros r' Er'. simpl in Er'. lia.
  - exists r'. split; [|done]. simpl. replace (1 + it_restart_index it) with (Z.of_nat (S r)) in E by lia. done.
Qed.

Lemma ParseNextKey_entry it i : before i it -> (i < n)%nat ->
  exists it', ParseNextKey it = Some (it', true) /\ position i it'.
Proof.
  intros [B _ Hnext Hkey Hidx] Hi. unfold ParseNextKey. cbv zeta. rewrite Hnext.
  set (it1 := it <| it_current := Z.of_nat (off i) |>). assert (B1 : on_block it1) by (by destruct B; split).
  assert (Hc1 : it_current it1 = Z.of_nat (off i)) by done. rewrite Hc1, (ob_restarts _ B1).
  pose proof (proj2 (off_iff i n ltac:(lia) ltac:(lia)) Hi). rewrite (proj2 (Z.leb_gt _ _)) by lia.
  destruct (entry_decoded it1 i B1 Hi) as (-> & Hread & Hvalue).
  assert (Hsh : (sh i <= length (it_key it))%nat /\ take (sh i) (it_key it) = take (sh i) (key_at es i)).
  { unfold shared_at. case_decide as Hm; [split; [lia|done]|]. rewrite Hkey by done.
    split; [apply shared_prefix_le|apply shared_prefix_take]. }
  destruct Hsh as [Hsh Htake]. change (it_key it1) with (it_key it). unfold lenz at 1. rewrite (proj2 (Z.ltb_ge _ _)) by lia.
  rewrite Hread. cbn [mbind option_bind]. rewrite Hvalue.
  assert (Hk1 : takez (Z.of_nat (sh i)) (it_key it) ++ delta i = key_at es i).
  { unfold takez. by rewrite Nat2Z.id, Htake, take_drop. }
  rewrite Hk1.
  set (it2 := it1 <| it_key := _ |> <| it_value := _ |>). assert (B2 : on_block it2) by (by destruct B; split).
  destruct (index_loop_at (S (Z.to_nat (it_num_restarts it2))) it2 i B2 Hi ltac:(done) Hidx) as (r & Hloop & Hr & Hri).
  { intros r Er. rewrite (ob_num _ B2). lia. }
  rewrite Hloop. cbn [mbind option_bind].
  eexists. split; [done|]. split; try done; [by destruct B2; split|lia|].
  intros _. by exists r.
Qed.

Lemma ParseNextKey_end it : before n it -> exists it', ParseNextKey it = Some (it', false) /\ position n it'.
Proof.
  intros [B _ Hnext _ _]. unfold ParseNextKey. cbv zeta. rewrite Hnext.
  set (it1 := it <| it_current := Z.of_nat (off n) |>). assert (B1 : on_block it1) by (by destruct B; split).
  assert (Hc1 : it_current it1 = Z.of_nat (off n)) by done. rewrite Hc1, (ob_restarts _ B1), Z.leb_refl.
  eexists. split; [done|]. split; [by destruct B; split|done|done|lia..].
Qed.

Lemma position_before i it : position i it -> (i < n)%nat -> before (S i) it.
Proof.
  intros P Hi. split.
  - apply P.
  - lia.
  - unfold NextEntryOffset. rewrite (pos_value _ _ P) by done. simpl. pose proof (off_bound (S i) ltac:(lia)).
    unfold u32. rewrite Z.mod_small; lia.
  - intros _. replace (S i - 1)%nat with i by lia. by apply P.
  - destruct (pos_index _ _ P Hi) as (r & ? & ? & ?). exists r. split_and!; [done..|lia].
Qed.

Lemma next_offset i it : position i it -> (i < n)%nat -> NextEntryOffset it = Z.of_nat (off (S i)).
Proof. intros P Hi. apply (position_before _ _ P Hi). Qed.

Lemma restart_before it j : on_block it -> (j < m)%nat -> before (j * k) (SeekToRestartPoint (Z.of_nat j) it).
Proof.
  intros B Hj. pose proof (point_le k n j Hk Hj). unfold SeekToRestartPoint. rewrite GetRestartPoint_at by done. split.
  - by destruct B; split.
  - done.
  - unfold NextEntryOffset. simpl. pose proof (off_bound (j * k) ltac:(lia)). unfold u32. rewrite Z.mod_small; lia.
  - by rewrite Nat.Div0.mod_mul.
  - exists j. split_and!; [done..|lia].
Qed.

(** A scan stops at the first entry at which its condition fails, or at the end. *)
Lemma parse_while_at fuel cond (c : nat -> bool) it i : before i it -> (n - i < fuel)%nat ->
  (forall j it, position j it -> (j < n)%nat -> cond it = c j) ->
  exists it' j, parse_while fuel cond it = Some it' /\ position j it' /\ (i <= j)%nat
    /\ (forall l, (i <= l < j)%nat -> c l = true) /\ ((j < n)%nat -> c j = false).
Proof.
  revert it i. induction fuel as [|fuel IH]; intros it i B Hf Hc; [lia|]. simpl.
  destruct (decide (i = n)) as [->|Hne].
  { destruct (ParseNextKey_end it B) as (it' & -> & P). simpl. exists it', n. split_and!; [done..|lia|lia]. }
  pose proof (bf_le _ _ B). destruct (ParseNextKey_entry it i B ltac:(lia)) as (it' & -> & P). simpl.
  rewrite (Hc i it' P ltac:(lia)). destruct (c i) eqn:Ei.
  - destruct (IH it' (S i) (position_before _ _ P ltac:(lia)) ltac:(lia) Hc) as (it2 & j & E & Hj & Hle & Hall & Hlast).
    exists it2, j. split_and!; [done|done|lia| |done]. intros l Hl.
    destruct (decide (l = i)) as [->|]; [done|]. apply Hall. lia.
  - exists it', i. split_and!; [done..|lia|done].
Qed.

Lemma fuel_enough it : on_block it -> (n < block_fuel it)%nat.
Proof.
  intros B. unfold block_fuel. rewrite (ob_data _ B). pose proof contents_length as Hl. unfold lenz in Hl.
  destruct (decide (n = 0%nat)) as [|Hn]; [lia|]. pose proof (offset_lt k es 0 n ltac:(lia) ltac:(done)). lia.
Qed.

Lemma points_pos : (0 < m)%nat.
Proof. unfold num_points. lia. Qed.

(** *** The operations of the iterator *)

Lemma SeekToFirst_at it : on_block it -> exists it', it_SeekToFirst it = Some it' /\ position 0 it'.
Proof.
  intros B. unfold it_SeekToFirst. pose proof (restart_before it 0 B points_pos) as Hb. simpl (0 * k)%nat in Hb.
  change (Z.of_nat 0) with 0 in Hb. destruct (decide (n = 0%nat)) as [Hn|Hn].
  - rewrite <- Hn in Hb at 1. destruct (ParseNextKey_end _ Hb) as (it' & -> & P). rewrite Hn in P. by exists it'.
  - destruct (ParseNextKey_entry _ 0 Hb ltac:(lia)) as (it' & -> & P). by exists it'.
Qed.

Lemma Next_at it i : position i it -> (i < n)%nat -> exists it', it_Next it = Some it' /\ position (S i) it'.
Proof.
  intros P Hi. unfold it_Next. pose proof (position_before i it P Hi) as Hb.
  destruct (decide (S i = n)) as [E|E].
  - rewrite E in *. destruct (ParseNextKey_end _ Hb) as (it' & -> & P'). by exists it'.
  - destruct (ParseNextKey_entry _ (S i) Hb ltac:(lia)) as (it' & -> & P'). by exists it'.
Qed.

Lemma SeekToLast_at it : on_block it -> exists it', it_SeekToLast it = Some it' /\ position (n - 1) it'.
Proof.
  intros B. unfold it_SeekToLast. rewrite (ob_num _ B). pose proof points_pos.
  replace (Z.of_nat m - 1) with (Z.of_nat (m - 1)) by lia.
  pose proof (restart_before it (m - 1) B ltac:(lia)) as Hb.
  destruct (parse_while_at (block_fuel it) (fun i => NextEntryOffset i <? it_restarts i) (fun j => bool_decide (S j < n)%nat) _ _ Hb)
    as (it' & j & E & P & Hle & Hall & Hlast).
  - pose proof (fuel_enough it B). lia.
  - intros j it' P Hj. rewrite (next_offset j it' P Hj), (ob_restarts _ (pos_block _ _ P)), off_ltb by lia. done.
  - exists it'. split; [done|]. replace (n - 1)%nat with j; [done|]. pose proof (pos_le _ _ P).
    pose proof (bf_le _ _ Hb). destruct (decide (j < n)%nat) as [Hj|Hj].
    + specialize (Hlast Hj). apply bool_decide_eq_false in Hlast. lia.
    + destruct (decide (n = 0%nat)) as [|Hn]; [lia|].
      assert ((m - 1) * k <= n - 1)%nat as Hp.
      { unfold num_points. simpl. rewrite Nat.sub_0_r, Nat.mul_comm. apply Nat.Div0.mul_div_le. }
      specialize (Hall (n - 1)%nat ltac:(lia)). apply bool_decide_eq_true in Hall. lia.
Qed.

Lemma prev_loop_at fuel it i r : on_block it -> (i <= n)%nat -> it_restart_index it = Z.of_nat r -> (r < m)%nat ->
  (r < fuel)%nat ->
  prev_loop fuel (Z.of_nat (off i)) it = Some None /\ i = 0%nat
  \/ exists r', prev_loop fuel (Z.of_nat (off i)) it = Some (Some (it <| it_restart_index := Z.of_nat r' |>))
       /\ (r' < m)%nat /\ (r' * k < i)%nat.
Proof.
  revert it r. induction fuel as [|fuel IH]; intros it r B Hi Er Hr Hf; [lia|]. simpl. rewrite Er.
  pose proof (point_le k n r Hk Hr) as Hp. rewrite GetRestartPoint_at, Z.leb_antisym, off_ltb by done.
  case_bool_decide as Hlt; cbn [negb].
  { right. exists r. split_and!; [|done..]. rewrite <- Er. by destruct it. }
  destruct (Z.eqb_spec (Z.of_nat r) 0) as [H0|H0].
  { left. split; [done|]. assert (r = 0%nat) as -> by lia. lia. }
  destruct (IH (it <| it_restart_index ::= fun z => z - 1 |>) (r - 1)%nat) as [[E ?]|(r' & E & ?)].
  - by destruct B; split.
  - done.
  - simpl. lia.
  - lia.
  - lia.
  - by left.
  - right. exists r'. by split.
Qed.

Lemma Prev_at it i : position i it -> (i < n)%nat ->
  exists it', it_Prev it = Some it' /\ position (if decide (i = 0%nat) then n else i - 1) it'.
Proof.
  intros P Hi. pose proof (pos_block _ _ P) as B. destruct (pos_index _ _ P Hi) as (r & Er & Hr & Hri).
  unfold it_Prev. rewrite (pos_current _ _ P).
  destruct (prev_loop_at (S (Z.to_nat (it_num_restarts it))) it i r B ltac:(lia) Er Hr) as [[-> ->]|(r' & -> & Hr' & Hlt)].
  - rewrite (ob_num _ B). lia.
  - cbn [mbind option_bind]. eexists. split; [done|]. rewrite decide_True by done.
    split; [by destruct B; split|done|by apply B|lia..].
  - cbn [mbind option_bind]. rewrite decide_False by lia. set (it1 := it <| it_restart_index := _ |>).
    assert (B1 : on_block it1) by (by destruct B; split). pose proof (restart_before it1 r' B1 Hr') as Hb.
    destruct (parse_while_at (block_fuel it1) (fun j => NextEntryOffset j <? Z.of_nat (off i)) (fun j => bool_decide (S j < i)%nat) _ _ Hb)
      as (it' & j & E & P' & Hle & Hall & Hlast).
    + pose proof (fuel_enough it1 B1). lia.
    + intros j it' P' Hj. rewrite (next_offset j it' P' Hj), off_ltb by lia. done.
    + exists it'. split; [done|]. replace (i - 1)%nat with j; [done|].
      assert (j <= i - 1)%nat.
      { destruct (Nat.le_gt_cases j (i - 1)) as [|Hgt]; [done|].
        specialize (Hall (i - 1)%nat ltac:(lia)). apply bool_decide_eq_true in Hall. lia. }
      specialize (Hlast ltac:(lia)). apply bool_decide_eq_false in Hlast. lia.
Qed.

Lemma value_at_position it i : position i it -> (i < n)%nat -> value_text it = value_at es i.
Proof.
  intros P Hi. unfold value_text. rewrite (pos_value _ _ P Hi), (ob_data _ (pos_block _ _ P)). cbn [fst snd].
  pose proof (chunk_bound i Hi) as Hc. pose proof (lenz_nonneg (delta i)). pose proof (lenz_nonneg (value_at es i)).
  assert (exists hdr, chunk k es i = hdr ++ value_at es i) as [hdr Hchunk].
  { unfold chunk, entry_image. rewrite !app_assoc. by eexists. }
  rewrite contents_layout, (contents_at i Hi). rewrite offset_S in * by done. rewrite Hchunk in *.
  rewrite <- !app_assoc, app_assoc. rewrite length_app in *.
  rewrite dropz_app_ge; rewrite lenz_app; unfold lenz in *; unfold offset in *; [|lia].
  replace (_ - _) with 0 by lia. rewrite dropz_0, takez_app_le by (unfold lenz; lia).
  by rewrite takez_all by (unfold lenz; lia).
Qed.

Context `{ComparatorLaws text} (Hsorted : StronglySorted key_lt es.*1).

Definition below (target : text) (i : nat) : Prop :=
  forall l, (l < i)%nat -> compare_ (key_at es l) target = Lt.

Lemma keys_lt i j : (i < j < n)%nat -> compare_ (key_at es i) (key_at es j) = Lt.
Proof.
  intros Hij. destruct (lookup_lt_is_Some_2 es i ltac:(lia)) as [a Ha].
  destruct (lookup_lt_is_Some_2 es j ltac:(lia)) as [b Hb].
  unfold key_at. rewrite Ha, Hb. simpl. apply (sorted_lookup key_lt es.*1 i j); [done|lia| |].
  - by rewrite list_lookup_fmap, Ha.
  - by rewrite list_lookup_fmap, Hb.
Qed.

Lemma below_key target i : (i < n)%nat -> compare_ (key_at es i) target = Lt -> below target (S i).
Proof.
  intros Hi Hc l Hl. destruct (decide (l = i)) as [->|]; [done|].
  eapply cmp_trans; [|done]. apply keys_lt. lia.
Qed.

Lemma below_le target i j : below target i -> (j <= i)%nat -> below target j.
Proof. intros Hb Hj l Hl. apply Hb. lia. Qed.

Lemma search_loop_at fuel target left right it : on_block it -> (left <= right < m)%nat -> (right - left < fuel)%nat ->
  below target (left * k) ->
  exists l, search_loop fuel target (Z.of_nat left) (Z.of_nat right) it = Some (Some (Z.of_nat l))
    /\ (left <= l <= right)%nat /\ below target (l * k).
Proof.
  revert left right. induction fuel as [|fuel IH]; intros left right B Hlr Hf Hb; [lia|]. simpl.
  destruct (Z.ltb_spec (Z.of_nat left) (Z.of_nat right)) as [Hlt|Hge].
  2: { exists left. by split_and!; [|lia|lia|]. }
  pose proof size_estimate. unfold u32. rewrite Z.mod_small by lia.
  set (mid := ((left + right + 1) / 2)%nat).
  replace ((Z.of_nat left + Z.of_nat right + 1) / 2) with (Z.of_nat mid)
    by (unfold mid; rewrite Nat2Z.inj_div; f_equal; lia).
  assert (Hmid : (left < mid <= right)%nat).
  { unfold mid. pose proof (Nat.div_mod_eq (left + right + 1) 2).
    pose proof (Nat.mod_upper_bound (left + right + 1) 2 ltac:(lia)). lia. }
  assert (Hmk : (mid * k < n)%nat).
  { assert (mid * k <= n - 1)%nat.
    { unfold num_points in Hlr. transitivity (k * ((n - 1) `div` k))%nat; [|apply Nat.Div0.mul_div_le].
      rewrite Nat.mul_comm. apply Nat.mul_le_mono_l. lia. }
    assert (1 <= mid * k)%nat by (destruct mid; [lia|simpl; lia]). lia. }
  rewrite GetRestartPoint_at by (done || lia).
  assert (Hsh : sh (mid * k) = 0%nat) by (unfold shared_at; rewrite Nat.Div0.mod_mul; by rewrite decide_True).
  destruct (entry_decoded it (mid * k) B Hmk) as (Hd & Hread & _). rewrite Hd. rewrite Hsh in Hread |- *.
  change (Z.of_nat 0) with 0 in *. cbn match. rewrite Hread. cbn [mbind option_bind]. rewrite drop_0.
  destruct (compare_ (key_at es (mid * k)) target) eqn:Ec.
  2: { destruct (IH mid right B ltac:(lia) ltac:(lia)) as (l & E & Hl & Hbl); [|exists l; split_and!; [done|lia..|done]].
       eapply below_le; [by apply (below_key target (mid * k))|lia]. }
  all: replace (Z.of_nat mid - 1) with (Z.of_nat (mid - 1)) by lia;
    destruct (IH left (mid - 1)%nat B ltac:(lia) ltac:(lia) Hb) as (l & E & Hl & Hbl); exists l; split_and!; [done|lia..|done].
Qed.

(** The scan from an entry not after the target. *)
Lemma scan_at target it i : before i it -> below target i ->
  exists it' j, parse_while (block_fuel it) (fun i => match compare_ (it_key i) target with Lt => true | _ => false end) it
      = Some it' /\ position j it' /\ below target j /\ ((j < n)%nat -> compare_ (key_at es j) target <> Lt).
Proof.
  intros B Hb. set (c j := match compare_ (key_at es j) target with Lt => true | _ => false end).
  pose proof (fuel_enough it (bf_block _ _ B)) as Hfuel.
  destruct (parse_while_at (block_fuel it) (fun i => match compare_ (it_key i) target with Lt => true | _ => false end)
    c it i B ltac:(lia)) as (it' & j & E & P & Hle & Hall & Hlast).
  { intros j it' P Hj. by rewrite (pos_key _ _ P Hj). }
  exists it', j. split_and!; [done..| |].
  - intros l Hl. destruct (decide (l < i)%nat); [by apply Hb|]. specialize (Hall l ltac:(lia)). unfold c in Hall. by case_match.
  - intros Hj. specialize (Hlast Hj). unfold c in Hlast. by case_match.
Qed.

Lemma Seek_at target it i : position i it ->
  exists it' j, it_Seek target it = Some it' /\ position j it' /\ below target j
    /\ ((j < n)%nat -> compare_ (key_at es j) target <> Lt).
Proof.
  intros P. pose proof (pos_block _ _ P) as B. pose proof (pos_le _ _ P) as Hi. pose proof points_pos as Hm.
  unfold it_Seek, it_Valid. rewrite (pos_current _ _ P), (ob_restarts _ B), (ob_num _ B), off_ltb by done.
  assert (Hfuel : forall l r, (l <= r < m)%nat -> (r - l < S (Z.to_nat (Z.of_nat m)))%nat) by lia.
  replace (Z.of_nat m - 1) with (Z.of_nat (m - 1)) by lia.
  assert (Hfrom : forall l, (l < m)%nat -> below target (l * k) -> exists it' j,
    parse_while (block_fuel (SeekToRestartPoint (Z.of_nat l) it))
      (fun i => match compare_ (it_key i) target with Lt => true | _ => false end) (SeekToRestartPoint (Z.of_nat l) it)
      = Some it' /\ position j it' /\ below target j /\ ((j < n)%nat -> compare_ (key_at es j) target <> Lt)).
  { intros l Hl Hb. apply (scan_at target _ (l * k)); [by apply restart_before|done]. }
  case_bool_decide as Hv.
  2: { destruct (search_loop_at (S (Z.to_nat (Z.of_nat m))) target 0 (m - 1) it B ltac:(lia) ltac:(lia)) as (l & E & Hl & Hb);
         [intros l Hl; lia|]. change 0 with (Z.of_nat 0). rewrite E. cbn [mbind option_bind]. rewrite andb_false_r. apply Hfrom; [lia|done]. }
  rewrite (pos_key _ _ P Hv). destruct (pos_index _ _ P Hv) as (r & Er & Hr & Hri).
  destruct (compare_ (key_at es i) target) eqn:Ec.
  - exists it, i. split_and!; [done..| |by rewrite Ec].
    intros l Hl. rewrite cmp_antisym, <- (cmp_eq_l _ _ _ Ec), <- cmp_antisym. apply keys_lt. lia.
  - pose proof (below_key target i Hv Ec) as Hbi. rewrite Er.
    destruct (search_loop_at (S (Z.to_nat (Z.of_nat m))) target r (m - 1) it B ltac:(lia) ltac:(lia)) as (l & E & Hl & Hb);
      [eapply below_le; [done|lia]|]. rewrite E. cbn [mbind option_bind]. rewrite andb_true_r.
    destruct (Z.of_nat l =? Z.of_nat r); [|apply Hfrom; [lia|done]].
    apply (scan_at target it (S i)); [by apply position_before|done].
  - rewrite Er. destruct (search_loop_at (S (Z.to_nat (Z.of_nat m))) target 0 r it B ltac:(lia) ltac:(lia)) as (l & E & Hl & Hb);
      [intros l Hl; lia|]. change 0 with (Z.of_nat 0). rewrite E. cbn [mbind option_bind]. rewrite andb_false_r.
    apply Hfrom; [lia|done].
Qed.

End layout.

(** ** The iterator is a cursor *)

Section cursor.
Context `{ComparatorLaws text}.

Inductive CursorOp := SeekFirst | SeekLast | SeekKey (target : text) | Forward | Backward.

(** The number of keys before the target. *)
Fixpoint lower_bound (target : text) (es : list (text * text)) : nat :=
  match es with
  | [] => O
  | e :: es => match compare_ e.1 target with Lt => S (lower_bound target es) | _ => O end
  end.

(** A cursor is the number of entries before it; [Next] and [Prev] require an entry. *)
Definition cursor_step (es : list (text * text)) (op : CursorOp) (p : nat) : option nat :=
  match op with
  | SeekFirst => Some O
  | SeekLast => Some (length es - 1)%nat
  | SeekKey target => Some (lower_bound target es)
  | Forward => if decide (p < length es)%nat then Some (S p) else None
  | Backward => if decide (p < length es)%nat then Some (if decide (p = 0%nat) then length es else p - 1)%nat else None
  end.

Definition iter_step (op : CursorOp) (it : BlockIter) : option BlockIter :=
  match op with
  | SeekFirst => it_SeekToFirst it
  | SeekLast => it_SeekToLast it
  | SeekKey target => it_Seek target it
  | Forward => it_Next it
  | Backward => it_Prev it
  end.

Definition cursor_run es ops p : option nat := foldl (fun p op => p ≫= cursor_step es op) (Some p) ops.
Definition iter_run ops it : option BlockIter := foldl (fun it op => it ≫= iter_step op) (Some it) ops.

Lemma lower_bound_unique target es j : (forall l, (l < j)%nat -> compare_ (key_at es l) target = Lt) -> (j <= length es)%nat ->
  ((j < length es)%nat -> compare_ (key_at es j) target <> Lt) -> lower_bound target es = j.
Proof.
  revert j. induction es as [|e es IH]; intros j Hb Hj Hn; simpl in *; [lia|]. destruct j as [|j].
  - specialize (Hn ltac:(lia)). unfold key_at in Hn. simpl in Hn. by destruct (compare_ e.1 target).
  - pose proof (Hb 0%nat ltac:(lia)) as He. unfold key_at in He. simpl in He. rewrite He. f_equal. apply IH; [|lia|].
    + intros l Hl. apply (Hb (S l)). lia.
    + intros Hl. apply Hn. lia.
Qed.

Context (k : nat) (es : list (text * text)) (Hk : (1 <= k)%nat).
Context (Hsize : CurrentSizeEstimate (build_block (Z.of_nat k) es) < 2 ^ 32) (Hsorted : StronglySorted key_lt es.*1).

Lemma iter_step_at op p p' it : position k es p it -> cursor_step es op p = Some p' ->
  exists it', iter_step op it = Some it' /\ position k es p' it'.
Proof.
  intros P Hstep. pose proof (pos_block _ _ _ _ P) as B. destruct op as [| |target| |]; simpl in *; try case_decide; simplify_eq.
  - by apply SeekToFirst_at.
  - by apply SeekToLast_at.
  - destruct (Seek_at k es Hk Hsize Hsorted target it p P) as (it' & j & E & P' & Hb & Hn). exists it'. split; [done|].
    rewrite (lower_bound_unique target es j); [done|done|by apply P'|done].
  - by apply Next_at.
  - by apply Prev_at.
Qed.

Lemma iter_run_at ops p p' it : position k es p it -> cursor_run es ops p = Some p' ->
  exists it', iter_run ops it = Some it' /\ position k es p' it'.
Proof.
  unfold cursor_run, iter_run. revert p it. induction ops as [|op ops IH]; intros p it P Hrun.
  { simpl in *. simplify_eq. by exists it. }
  simpl in Hrun |- *. destruct (cursor_step es op p) as [q|] eqn:E.
  - destruct (iter_step_at op p q it P E) as (it' & -> & P'). by apply (IH q).
  - exfalso. clear -Hrun. induction ops; simpl in Hrun; [done|by apply IHops].
Qed.

Lemma new_iterator : exists it, NewIterator (new_Block (block_text (Z.of_nat k) es)) = EntryIterator it
  /\ position k es (length es) it.
Proof.
  rewrite new_Block_contents by done. unfold NewIterator. cbn [size_ data_ restart_offset_].
  rewrite num_restarts_contents, contents_length by done. unfold num_points.
  rewrite (proj2 (Z.ltb_ge _ _)) by lia. rewrite (proj2 (Z.eqb_neq _ _)) by lia.
  eexists. split; [done|]. split; [done|lia|done|lia..].
Qed.

(** What can be seen of a position *)
Lemma position_view p it : position k es p it ->
  it_status it = status_OK /\ it_Valid it = bool_decide (p < length es)%nat
  /\ forall key value, es !! p = Some (key, value) -> it_key it = key /\ value_text it = value.
Proof.
  intros P. pose proof (pos_block _ _ _ _ P) as B. split_and!; [apply B| |].
  - unfold it_Valid. rewrite (pos_current _ _ _ _ P), (ob_restarts _ _ _ B). apply off_ltb; [done..|apply P|done].
  - intros key value Hp. assert (p < length es)%nat as Hlt by (by eapply lookup_lt_Some).
    rewrite (pos_key _ _ _ _ P Hlt), (value_at_position k es Hk Hsize it p P Hlt). unfold key_at, value_at. by rewrite Hp.
Qed.

End cursor.

#[local] Instance bytewise : Comparator text := slice_compare.
#[local] Instance bytewise_laws : ComparatorLaws text.
Proof.
  split; unfold compare_, bytewise; setoid_rewrite slice_compare_lex.
  - apply lex_antisym.
  - apply lex_trans.
  - intros a b c Hab. by apply lex_eq in Hab as ->.
Qed.

(** C19. A block is its entries: for sorted entries and any restart interval, the block the
    builder writes has the size it estimated, and an iterator over it is a cursor over the
    entries: after any sequence of moves and seeks it is valid if the cursor is at an entry
    and then has the key and the value of that entry, no corruption is reported and no
    loop fails to end.  A seek finds the first key not less than the target, from wherever
    the iterator was. *)
Theorem block_cursor `{ComparatorLaws text} interval es ops p : 1 <= interval -> StronglySorted key_lt es.*1 ->
  CurrentSizeEstimate (build_block interval es) < 2 ^ 32 -> cursor_run es ops (length es) = Some p ->
  lenz (block_text interval es) = CurrentSizeEstimate (build_block interval es)
  /\ exists it0 it, NewIterator (new_Block (block_text interval es)) = EntryIterator it0
     /\ iter_run ops it0 = Some it /\ it_status it = status_OK
     /\ it_Valid it = bool_decide (p < length es)%nat
     /\ forall key value, es !! p = Some (key, value) -> it_key it = key /\ value_text it = value.
Proof.
  intros Hi Hsorted Hsize Hrun. rewrite <- (Z2Nat.id interval) in * by lia.
  remember (Z.to_nat interval) as k eqn:Ek. assert (1 <= k)%nat as Hk by lia. clear Ek Hi.
  split; [by rewrite contents_length, size_estimate|].
  destruct (new_iterator k es Hk Hsize) as (it0 & E0 & P0).
  destruct (iter_run_at k es Hk Hsize Hsorted ops _ p it0 P0 Hrun) as (it & E & P).
  exists it0, it. split; [done|]. split; [done|]. by apply (position_view k es Hk Hsize).
Qed.

Lemma block_cursor_witness :
  let es := [(L "apple", L "1"); (L "apply", L "2"); (L "banana", L "3"); (L "band", L "4"); (L "bandit", L "5")] in
  let ops := [SeekKey (L "bananas"); Backward; Forward; Forward] in
  exists it0 it, NewIterator (new_Block (block_text 2 es)) = EntryIterator it0 /\ iter_run ops it0 = Some it
    /\ it_key it = L "bandit" /\ value_text it = L "5".
Proof.
  intros es ops. destruct (block_cursor 2 es ops 4) as (_ & it0 & it & E0 & E & _ & _ & Hp).
  - lia.
  - repeat constructor.
  - vm_compute. reflexivity.
  - vm_compute. reflexivity.
  - exists it0, it. split; [exact E0|]. split; [exact E|]. exact (Hp (L "bandit") (L "5") eq_refl).
Defined.

(** C36. The check of an entry against the end of its block wraps around: the sum of the
    two lengths is computed in 32 bits, so an entry whose lengths add up to [2^32] or more
    is accepted when the bytes that are left cover the sum less [2^32], although its key
    and value end past the block. *)
Theorem decode_entry_wraps shared non_shared value_length rest :
  is_u32 shared -> is_u32 non_shared -> is_u32 value_length -> is_u32 (lenz rest) ->
  4294967296 <= non_shared + value_length <= 4294967296 + lenz rest ->
  DecodeEntry (EncodeVarint32 shared ++ EncodeVarint32 non_shared ++ EncodeVarint32 value_length ++ rest)
  = Some (shared, non_shared, value_length, rest) /\ lenz rest < non_shared + value_length.
Proof.
  intros Ha Hb Hc Hp Hsum. rewrite decode_entry_bytes by done. unfold is_u32, u32 in *. split; [|lia].
  replace (non_shared + value_length) with (non_shared + value_length - 4294967296 + 1 * 4294967296) by lia.
  rewrite Z.mod_add, !Z.mod_small by lia. by rewrite (proj2 (Z.ltb_ge _ _)) by lia.
Qed.

Lemma decode_entry_wraps_witness :
  DecodeEntry (EncodeVarint32 0 ++ EncodeVarint32 4294967295 ++ EncodeVarint32 1 ++ []) = Some (0, 4294967295, 1, [])
  /\ lenz ([] : text) < 4294967295 + 1.
Proof. apply (decode_entry_wraps 0 4294967295 1 []); unfold is_u32, lenz; simpl; lia. Defined.
