(* ===== verification/Format.v ===== *)
(** * Format: block handles, the footer and stored blocks of a table file

    [src/leveldb/table/format.h] and [format.cc], and the writing of a block in
    [table_builder.cc] ([WriteRawBlock] and the choice of compression in [WriteBlock]).
    The compression libraries are parameters; so is the file that is read.

    The main results: handles and footers round trip, and a block that was stored,
    compressed or not, is read back. *)

From S2P Require Import Prelude Text Coding Status Crc LogFile Block.

(** ** [BlockHandle] *)

Record BlockHandle := mkHandle { bh_offset : Z; bh_size : Z }.

Definition kMaxEncodedLength : Z := 10 + 10.
Definition new_BlockHandle : BlockHandle := mkHandle (2 ^ 64 - 1) (2 ^ 64 - 1).

Definition handle_EncodeTo (h : BlockHandle) (dst : text) : text :=
  PutVarint64 (PutVarint64 dst (bh_offset h)) (bh_size h).

Definition bad_handle : Status := Corruption (L "bad block handle") [].

(** The handle and the input that is left, or the error. *)
Definition handle_DecodeFrom (input : text) : BlockHandle * text + Status :=
  match GetVarint64 input with
  | Some (offset, input) =>
    match GetVarint64 input with
    | Some (size, input) => inl (mkHandle offset size, input)
    | None => inr bad_handle
    end
  | None => inr bad_handle
  end.

(** ** [Footer] *)

Record Footer := mkFooter { metaindex_handle_ : BlockHandle; index_handle_ : BlockHandle }.

Definition kEncodedLength : Z := 2 * kMaxEncodedLength + 8.
Definition kTableMagicNumber : Z := 0xdb4775248b80fb57.
Definition kBlockTrailerSize : Z := 5.

(** [std::string::resize] *)
Definition resize (n : Z) (s : text) : text := takez n s ++ replicate (Z.to_nat n - length s) (byte 0).

Definition footer_EncodeTo (f : Footer) (dst : text) : text :=
  let dst := handle_EncodeTo (metaindex_handle_ f) dst in
  let dst := handle_EncodeTo (index_handle_ f) dst in
  let dst := resize (2 * kMaxEncodedLength) dst in
  let dst := PutFixed32 dst (Z.land kTableMagicNumber 4294967295) in
  PutFixed32 dst (Z.shiftr kTableMagicNumber 32).

Definition footer_DecodeFrom (input : text) : Footer * text + Status :=
  if lenz input <? kEncodedLength then inr (Corruption (L "not an sstable (footer too short)") [])
  else
    let magic_ptr := dropz (kEncodedLength - 8) input in
    let magic_lo := default 0 (DecodeFixed32 magic_ptr) in
    let magic_hi := default 0 (DecodeFixed32 (dropz 4 magic_ptr)) in
    let magic := Z.lor (Z.shiftl magic_hi 32) magic_lo in
    if negb (magic =? kTableMagicNumber) then inr (Corruption (L "not an sstable (bad magic number)") [])
    else
      match handle_DecodeFrom input with
      | inl (metaindex, rest) =>
        match handle_DecodeFrom rest with
        | inl (index, _) => inl (mkFooter metaindex index, dropz 8 magic_ptr)
        | inr s => inr s
        end
      | inr s => inr s
      end.

(** ** Round trips *)

Definition handle_ok (h : BlockHandle) : Prop := is_u64 (bh_offset h) /\ is_u64 (bh_size h).

Lemma handle_roundtrip h dst : handle_ok h ->
  exists bytes, handle_EncodeTo h dst = dst ++ bytes /\ lenz bytes <= kMaxEncodedLength
    /\ forall rest, handle_DecodeFrom (bytes ++ rest) = inl (h, rest).
Proof.
  intros [Ho Hs]. exists (EncodeVarint64 (bh_offset h) ++ EncodeVarint64 (bh_size h)). split_and!.
  - unfold handle_EncodeTo, PutVarint64. by rewrite <- app_assoc.
  - unfold lenz, EncodeVarint64. rewrite length_app. pose proof (varint64_loop_length 9 (bh_offset h)).
    pose proof (varint64_loop_length 9 (bh_size h)). unfold kMaxEncodedLength. lia.
  - intros rest. unfold handle_DecodeFrom. rewrite <- app_assoc, get_varint64 by done.
    rewrite get_varint64 by done. by destruct h.
Qed.

Lemma footer_roundtrip f : handle_ok (metaindex_handle_ f) -> handle_ok (index_handle_ f) ->
  lenz (footer_EncodeTo f []) = kEncodedLength /\ footer_DecodeFrom (footer_EncodeTo f []) = inl (f, []).
Proof.
  intros Hm Hi. unfold footer_EncodeTo.
  destruct (handle_roundtrip (metaindex_handle_ f) [] Hm) as (bm & -> & Lm & Dm).
  destruct (handle_roundtrip (index_handle_ f) ([] ++ bm) Hi) as (bi & -> & Li & Di). cbn [app].
  unfold kMaxEncodedLength in *. pose proof (lenz_nonneg bm). pose proof (lenz_nonneg bi).
  unfold resize. rewrite takez_all by (rewrite lenz_app; lia).
  set (pad := replicate _ _). assert (Hpad : lenz ((bm ++ bi) ++ pad) = 40).
  { rewrite lenz_app. unfold pad, lenz. rewrite length_replicate. unfold lenz in *. rewrite length_app. lia. }
  unfold PutFixed32. set (lo := EncodeFixed32 _). set (hi := EncodeFixed32 _).
  assert (Hlen : lenz ((((bm ++ bi) ++ pad) ++ lo) ++ hi) = kEncodedLength)
    by (rewrite lenz_app, (lenz_app (_ ++ pad)), Hpad; done).
  split; [done|]. unfold footer_DecodeFrom. rewrite Hlen, Z.ltb_irrefl.
  assert (Hmagic : dropz (kEncodedLength - 8) ((((bm ++ bi) ++ pad) ++ lo) ++ hi) = lo ++ hi).
  { rewrite <- app_assoc, dropz_app_ge by (rewrite Hpad; done). rewrite Hpad. done. }
  rewrite Hmagic. change (negb _) with false. cbn match.
  rewrite <- !app_assoc, Dm, Di. by destruct f.
Qed.

(** ** Stored blocks *)

Inductive CompressionType := kNoCompression | kSnappyCompression | kZstdCompression.

Definition compression_number (t : CompressionType) : Z :=
  match t with kNoCompression => 0 | kSnappyCompression => 1 | kZstdCompression => 2 end.

(** A compression library as [port/port_stdcxx.h] offers it: each function may fail. *)
Record Codec := mkCodec {
  Compress : text -> option text;
  GetUncompressedLength : text -> option Z;
  Uncompress : text -> option text
}.

(** The port without the library. *)
Definition no_codec : Codec := mkCodec (fun _ => None) (fun _ => None) (fun _ => None).

(** What was compressed is uncompressed, and its length is known. *)
Definition codec_ok (c : Codec) : Prop :=
  forall raw data, Compress c raw = Some data ->
  GetUncompressedLength c data = Some (lenz raw) /\ Uncompress c data = Some raw.

Record BlockContents := mkContents { bc_data : text; cachable : bool; heap_allocated : bool }.

Section stored.
Variable accelerated : Z -> text -> Z.
Variable align : nat.
Variables snappy zstd : Codec.

(** The compression step of [WriteBlock]: what is stored, and how. *)
Definition compress_block (type : CompressionType) (raw : text) : text * CompressionType :=
  let small data := lenz data <? lenz raw - lenz raw / 8 in
  match type with
  | kNoCompression => (raw, kNoCompression)
  | kSnappyCompression =>
    match Compress snappy raw with
    | Some data => if small data then (data, kSnappyCompression) else (raw, kNoCompression)
    | None => (raw, kNoCompression)
    end
  | kZstdCompression =>
    match Compress zstd raw with
    | Some data => if small data then (data, kZstdCompression) else (raw, kNoCompression)
    | None => (raw, kNoCompression)
    end
  end.

(** The trailer of [WriteRawBlock]. *)
Definition block_trailer (block_contents : text) (type : CompressionType) : text :=
  let crc := Extend accelerated align 0 block_contents in
  let crc := Extend accelerated align crc [byte (compression_number type)] in
  byte (compression_number type) :: EncodeFixed32 (Mask crc).

(** A random access file: from an offset at most so many bytes are read; they are put
    into the buffer of the caller or are elsewhere. *)
Definition RandomAccessFile : Type := Z -> Z -> Status * text * bool.

Definition uncompressed (c : Codec) (what data : text) : BlockContents + Status :=
  match GetUncompressedLength c data with
  | None => inr (Corruption (L "corrupted " ++ what ++ L " compressed block length") [])
  | Some ulength =>
    match Uncompress c data with
    | None => inr (Corruption (L "corrupted " ++ what ++ L " compressed block contents") [])
    | Some ubuf => inl (mkContents (takez ulength ubuf) true true)
    end
  end.

Definition ReadBlock (file : RandomAccessFile) (verify_checksums : bool) (handle : BlockHandle)
    : BlockContents + Status :=
  let n := bh_size handle in
  let '(s, contents, in_buf) := file (bh_offset handle) (u64 (n + kBlockTrailerSize)) in
  if negb (status_ok s) then inr s
  else if negb (lenz contents =? u64 (n + kBlockTrailerSize)) then inr (Corruption (L "truncated block read") [])
  else if verify_checksums
          && negb (Extend accelerated align 0 (takez (n + 1) contents)
                   =? Unmask (default 0 (DecodeFixed32 (dropz (n + 1) contents))))
  then inr (Corruption (L "block checksum mismatch") [])
  else
    let data := takez n contents in
    match contents !! Z.to_nat n with
    | Some type =>
      if byte_val type =? 0 then inl (mkContents data in_buf in_buf)
      else if byte_val type =? 1 then uncompressed snappy (L "snappy") data
      else if byte_val type =? 2 then uncompressed zstd (L "zstd") data
      else inr (Corruption (L "bad block type") [])
    | None => inr (Corruption (L "bad block type") [])
    end.

(** What a file that holds a text answers to a read. *)
Definition reads_file (file : RandomAccessFile) (contents : text) : Prop :=
  forall offset n, 0 <= offset -> 0 <= n ->
  exists in_buf, file offset n = (status_OK, takez n (dropz offset contents), in_buf).

Hypothesis Haccelerated : accelerator_ok accelerated.
Hypothesis Hsnappy : codec_ok snappy.
Hypothesis Hzstd : codec_ok zstd.

Lemma block_trailer_length data type : lenz (block_trailer data type) = kBlockTrailerSize.
Proof. done. Qed.

Lemma trailer_checksum data type :
  is_u32 (Extend accelerated align 0 (data ++ [byte (compression_number type)]))
  /\ Extend accelerated align (Extend accelerated align 0 data) [byte (compression_number type)]
     = Extend accelerated align 0 (data ++ [byte (compression_number type)]).
Proof.
  rewrite !Extend_spec by (done || (rewrite ?Extend_spec by done; apply crc32c_u32)).
  split; [apply crc32c_u32|apply crc32c_app].
Qed.

(** Whatever the compression asked for, what is stored is no longer than the block and is
    read back as the block. *)
Lemma stored_read file contents verify offset type raw data t pre post : reads_file file contents ->
  compress_block type raw = (data, t) -> contents = pre ++ data ++ block_trailer data t ++ post ->
  offset = lenz pre -> lenz raw < 2 ^ 64 - 5 ->
  lenz data <= lenz raw
  /\ exists c, ReadBlock file verify (mkHandle offset (lenz data)) = inl c /\ bc_data c = raw.
Proof.
  intros Hf Hc -> -> Hraw. pose proof (lenz_nonneg data). pose proof (lenz_nonneg pre). pose proof (lenz_nonneg raw).
  assert (Hdata : lenz data <= lenz raw
    /\ (t = kNoCompression /\ data = raw \/ t = kSnappyCompression /\ Compress snappy raw = Some data
        \/ t = kZstdCompression /\ Compress zstd raw = Some data)).
  { assert (0 <= lenz raw / 8) by (apply Z.div_pos; lia). unfold compress_block in Hc.
    repeat case_match; simplify_eq; split; try lia; naive_solver. }
  destruct Hdata as [Hle Ht]. split; [done|]. unfold ReadBlock. cbn [bh_offset bh_size].
  assert (u64 (lenz data + kBlockTrailerSize) = lenz data + kBlockTrailerSize) as ->
    by (unfold u64, kBlockTrailerSize; apply Z.mod_small; lia).
  destruct (Hf (lenz pre) (lenz data + kBlockTrailerSize)) as [in_buf ->]; [lia|unfold kBlockTrailerSize; lia|].
  rewrite dropz_app_ge by lia. rewrite Z.sub_diag, dropz_0, takez_app_ge by (unfold kBlockTrailerSize; lia).
  replace (lenz data + kBlockTrailerSize - lenz data) with (lenz (block_trailer data t)) by (rewrite block_trailer_length; lia).
  rewrite takez_app_le, takez_all, lenz_app, block_trailer_length, Z.eqb_refl by lia. cbn [negb status_ok].
  destruct (trailer_checksum data t) as [Hu Hcrc]. destruct (unmask_mask _ Hu) as [Hmask Hmasku].
  set (crc := Extend accelerated align 0 (data ++ [byte (compression_number t)])) in *.
  assert (Htr : block_trailer data t = [byte (compression_number t)] ++ EncodeFixed32 (Mask crc))
    by (unfold block_trailer; by rewrite Hcrc).
  rewrite Htr, app_assoc. rewrite takez_app_le, takez_all by (rewrite lenz_app; change (lenz [_]) with 1; lia).
  rewrite dropz_app_ge by (rewrite lenz_app; change (lenz [_]) with 1; lia). rewrite lenz_app. change (lenz [_]) with 1.
  rewrite Z.sub_diag, dropz_0. rewrite <- (app_nil_r (EncodeFixed32 _)), decode_fixed32 by done. cbn [default from_option id].
  rewrite Hmask.
  fold crc. rewrite Z.eqb_refl, andb_false_r, <- !app_assoc. change (negb (status_ok status_OK)) with false. cbn match.
  rewrite takez_app_le, takez_all by lia.
  assert ((data ++ [byte (compression_number t)] ++ EncodeFixed32 (Mask crc) ++ []) !! Z.to_nat (lenz data)
          = Some (byte (compression_number t))) as -> by (apply list_lookup_middle; unfold lenz; lia).
  rewrite byte_val_byte. destruct Ht as [[-> ->]|[[-> Hcmp]|[-> Hcmp]]]; cbn.
  - by eexists.
  - unfold uncompressed. destruct (Hsnappy _ _ Hcmp) as [-> ->]. eexists. split; [done|]. by apply takez_all.
  - unfold uncompressed. destruct (Hzstd _ _ Hcmp) as [-> ->]. eexists. split; [done|]. by apply takez_all.
Qed.

End stored.
