(* ===== verification/FilterBlock.v ===== *)
(** * FilterBlock: the filters of a table file

    [src/leveldb/table/filter_block.h] and [filter_block.cc], over a filter policy as
    [include/leveldb/filter_policy.h] declares it.  A filter is made for every 2048 bytes
    of the file, from the keys of the blocks that start in them; the filters, the array of
    their offsets and its offset are one block.

    The main result: no key of a block is filtered out. *)

From S2P Require Import Prelude Text Coding Bloom Dbformat Block.

(** [FilterPolicy] *)
Record FilterPolicy := mkPolicy {
  Name : text;
  policy_CreateFilter : list text -> text -> text;
  policy_KeyMayMatch : text -> text -> bool
}.

Definition kFilterBaseLg : Z := 11.
Definition kFilterBase : Z := Z.shiftl 1 kFilterBaseLg.

(** ** [FilterBlockBuilder] *)

Record FilterBlockBuilder := mkFilterBuilder {
  fb_keys : text;
  fb_start : list Z;
  fb_result : text;
  filter_offsets : list Z
}.

#[export] Instance eta_FilterBlockBuilder : Eta FilterBlockBuilder := fun b =>
  mkFilterBuilder (fb_keys b) (fb_start b) (fb_result b) (filter_offsets b).

Definition new_FilterBlockBuilder : FilterBlockBuilder := mkFilterBuilder [] [] [] [].

Definition AddKey (key : text) (b : FilterBlockBuilder) : FilterBlockBuilder :=
  b <| fb_start ::= fun l => l ++ [lenz (fb_keys b)] |> <| fb_keys ::= fun l => l ++ key |>.

(** The keys of the flattened structure, from the start of each and of the next. *)
Definition tmp_keys (keys : text) (start : list Z) (num_keys : nat) : list text :=
  (fun i => let base := default 0 (start !! i) in
            takez (default 0 (start !! S i) - base) (dropz base keys)) <$> seq 0 num_keys.

Section policy.
Variable policy : FilterPolicy.

Definition GenerateFilter (b : FilterBlockBuilder) : FilterBlockBuilder :=
  let num_keys := length (fb_start b) in
  if decide (num_keys = 0%nat) then b <| filter_offsets ::= fun l => l ++ [u32 (lenz (fb_result b))] |>
  else
    let keys := tmp_keys (fb_keys b) (fb_start b ++ [lenz (fb_keys b)]) num_keys in
    b <| filter_offsets ::= fun l => l ++ [u32 (lenz (fb_result b))] |>
      <| fb_result ::= policy_CreateFilter policy keys |> <| fb_keys := [] |> <| fb_start := [] |>.

(** The loop of [StartBlock], which adds a filter in every round. *)
Fixpoint start_loop (fuel : nat) (filter_index : Z) (b : FilterBlockBuilder) : FilterBlockBuilder :=
  match fuel with
  | O => b
  | S fuel => if lenz (filter_offsets b) <? filter_index then start_loop fuel filter_index (GenerateFilter b) else b
  end.

Definition StartBlock (block_offset : Z) (b : FilterBlockBuilder) : FilterBlockBuilder :=
  let filter_index := block_offset / kFilterBase in
  start_loop (Z.to_nat filter_index) filter_index b.

Definition fb_Finish (b : FilterBlockBuilder) : FilterBlockBuilder :=
  let b := if decide (fb_start b = []) then b else GenerateFilter b in
  let array_offset := u32 (lenz (fb_result b)) in
  b <| fb_result := PutFixed32 (foldl PutFixed32 (fb_result b) (filter_offsets b)) array_offset
                    ++ [byte kFilterBaseLg] |>.

(** ** [FilterBlockReader] *)

(** [data_], the offset of [offset_] in it, [num_] and [base_lg_] *)
Record FilterBlockReader := mkFilterReader { fr_data : text; fr_offset : Z; fr_num : Z; fr_base_lg : Z }.

(** The conversion of a [char] to [size_t]. *)
Definition char_size (c : ascii) : Z := u64 (if byte_val c <? 128 then byte_val c else byte_val c - 256).

Definition new_FilterBlockReader (contents : text) : FilterBlockReader :=
  let n := lenz contents in
  if n <? 5 then mkFilterReader [] 0 0 0
  else
    let base_lg := char_size (default (byte 0) (contents !! Z.to_nat (n - 1))) in
    let last_word := default 0 (DecodeFixed32 (dropz (n - 5) contents)) in
    if n - 5 <? last_word then mkFilterReader [] 0 0 base_lg
    else mkFilterReader contents last_word ((n - 5 - last_word) / 4) base_lg.

Definition fr_KeyMayMatch (r : FilterBlockReader) (block_offset : Z) (key : text) : bool :=
  let index := Z.shiftr block_offset (fr_base_lg r) in
  if index <? fr_num r then
    let start := default 0 (DecodeFixed32 (dropz (fr_offset r + index * 4) (fr_data r))) in
    let limit := default 0 (DecodeFixed32 (dropz (fr_offset r + index * 4 + 4) (fr_data r))) in
    if (start <=? limit) && (limit <=? fr_offset r) then
      policy_KeyMayMatch policy key (takez (limit - start) (dropz start (fr_data r)))
    else if start =? limit then false
    else true
  else true.

(** ** No key is lost *)

(** The calls for one block of the table. *)
Definition add_block (b : FilterBlockBuilder) (block : Z * list text) : FilterBlockBuilder :=
  foldl (fun b key => AddKey key b) (StartBlock block.1 b) block.2.

Definition filter_block (blocks : list (Z * list text)) : text :=
  fb_result (fb_Finish (foldl add_block new_FilterBlockBuilder blocks)).

(** Where the pieces of a concatenation start. *)
Definition starts (l : list text) (n : nat) : list Z := (fun i => lenz (concat (take i l))) <$> seq 0 n.

Definition filter_of (keys : list text) : text :=
  if decide (keys = []) then [] else policy_CreateFilter policy keys [].

(** The builder has made filters for lists of keys, and some keys are waiting. *)
Record FilterInv (made : list (list text)) (waiting : list text) (b : FilterBlockBuilder) : Prop := {
  fi_keys : fb_keys b = concat waiting;
  fi_start : fb_start b = starts waiting (length waiting);
  fi_result : fb_result b = concat (filter_of <$> made);
  fi_offsets : filter_offsets b = u32 <$> starts (filter_of <$> made) (length made)
}.

Hypothesis Hcreate : forall keys dst, policy_CreateFilter policy keys dst = dst ++ policy_CreateFilter policy keys [].

Lemma starts_snoc l x : starts (l ++ [x]) (length l) = starts l (length l).
Proof.
  unfold starts. apply list_fmap_ext. intros j i Hj. apply lookup_seq in Hj as [-> Hj].
  rewrite take_app_le by lia. done.
Qed.

Lemma starts_S l : starts l (S (length l)) = starts l (length l) ++ [lenz (concat l)].
Proof. unfold starts. rewrite seq_S, fmap_app. simpl. by rewrite take_ge. Qed.

Lemma starts_app l x : starts (l ++ [x]) (length (l ++ [x])) = starts l (length l) ++ [lenz (concat l)].
Proof.
  rewrite length_app. simpl. rewrite Nat.add_comm. simpl. unfold starts at 1. rewrite seq_S, fmap_app.
  fold (starts (l ++ [x]) (length l)). rewrite starts_snoc. simpl. by rewrite take_app_length.
Qed.

Lemma starts_length l n : length (starts l n) = n.
Proof. unfold starts. by rewrite length_fmap, length_seq. Qed.

Lemma AddKey_inv made waiting b key : FilterInv made waiting b -> FilterInv made (waiting ++ [key]) (AddKey key b).
Proof.
  intros [Ek Es Er Eo]. split; unfold AddKey; simpl; [|..|done|done].
  - rewrite Ek, concat_app. simpl. by rewrite app_nil_r.
  - rewrite Es, Ek, starts_app. done.
Qed.

(** Cutting a concatenation at the starts gives the pieces. *)
Lemma tmp_keys_concat l : tmp_keys (concat l) (starts l (S (length l))) (length l) = l.
Proof.
  apply list_eq. intros i. unfold tmp_keys. rewrite list_lookup_fmap.
  destruct (decide (i < length l)%nat) as [Hi|Hi].
  2: { rewrite !lookup_ge_None_2; [done| |]; [lia|rewrite length_seq; lia]. }
  destruct (lookup_lt_is_Some_2 l i Hi) as [x Hx]. rewrite Hx, lookup_seq_lt by done. simpl.
  unfold starts. rewrite !list_lookup_fmap, !lookup_seq_lt by lia. cbn [fmap option_fmap option_map default from_option id Nat.add].
  f_equal. assert (concat l = concat (take i l) ++ x ++ concat (drop (S i) l)) as ->
    by (rewrite <- (take_drop_middle _ _ _ Hx) at 1; by rewrite concat_app).
  rewrite (take_S_r _ _ _ Hx), concat_app, lenz_app. cbn [concat]. rewrite app_nil_r, dropz_app_ge by lia.
  rewrite Z.sub_diag, dropz_0, takez_app_le by lia. apply takez_all. lia.
Qed.

Lemma GenerateFilter_inv made waiting b : FilterInv made waiting b -> FilterInv (made ++ [waiting]) [] (GenerateFilter b).
Proof.
  intros [Ek Es Er Eo]. unfold GenerateFilter. rewrite Es, starts_length, Ek, <- starts_S, tmp_keys_concat.
  assert (Hoff : filter_offsets b ++ [u32 (lenz (fb_result b))]
    = u32 <$> starts (filter_of <$> (made ++ [waiting])) (length (made ++ [waiting]))).
  { rewrite fmap_app. replace (length (made ++ [waiting])) with (length ((filter_of <$> made) ++ [filter_of waiting]))
      by (by rewrite !length_app, length_fmap).
    change (filter_of <$> [waiting]) with [filter_of waiting]. rewrite starts_app, fmap_app, length_fmap, Eo, Er. done. }
  assert (Hcat : concat (filter_of <$> (made ++ [waiting])) = fb_result b ++ filter_of waiting).
  { rewrite fmap_app, concat_app, Er. simpl. by rewrite app_nil_r. }
  case_decide as Hw.
  - apply nil_length_inv in Hw as ->. split; simpl; [done|done| |done].
    rewrite Hcat. unfold filter_of. simpl. by rewrite app_nil_r.
  - split; simpl; [done|done| |done]. rewrite Hcat, Hcreate. unfold filter_of. rewrite decide_False; [done|]. by intros ->.
Qed.

Lemma made_length made waiting b : FilterInv made waiting b -> lenz (filter_offsets b) = lenz made.
Proof. intros I. rewrite (fi_offsets _ _ _ I). unfold lenz. by rewrite length_fmap, starts_length. Qed.

(** Starting a block makes the filters of the blocks before. *)
Lemma start_loop_inv fuel index made waiting b : FilterInv made waiting b -> index - lenz made <= Z.of_nat fuel ->
  exists made' waiting', FilterInv made' waiting' (start_loop fuel index b) /\ index <= lenz made'
    /\ (made' = made /\ waiting' = waiting
        \/ exists more, made' = made ++ waiting :: more /\ concat more = [] /\ waiting' = [] /\ lenz made' = index).
Proof.
  revert made waiting b. induction fuel as [|fuel IH]; intros made waiting b I Hf; simpl.
  { exists made, waiting. split_and!; [done|lia|by left]. }
  rewrite (made_length _ _ _ I). destruct (Z.ltb_spec (lenz made) index) as [Hlt|Hge].
  2: { exists made, waiting. split_and!; [done|lia|by left]. }
  assert (lenz (made ++ [waiting]) = lenz made + 1) as Hlen by (rewrite lenz_app; done).
  destruct (IH _ _ _ (GenerateFilter_inv _ _ _ I)) as (made' & waiting' & I' & Hge & Hcase); [lia|].
  exists made', waiting'. split_and!; [done..|]. right. destruct Hcase as [[-> ->]|(more & -> & Hm & -> & Hl)].
  - exists []. split_and!; [done..|lia].
  - exists ([] :: more). split_and!; [by rewrite <- app_assoc|done..].
Qed.

(** Every key of a block is in the filter of the block, or waits for it. *)
Definition covered (blocks : list (Z * list text)) (made : list (list text)) (waiting : list text) : Prop :=
  forall offset keys key, (offset, keys) ∈ blocks -> key ∈ keys ->
  let i := Z.to_nat (offset / kFilterBase) in
  (exists l, made !! i = Some l /\ key ∈ l) \/ i = length made /\ key ∈ waiting.

Lemma covered_generate blocks made waiting more : covered blocks made waiting -> covered blocks (made ++ waiting :: more) [].
Proof.
  intros C offset keys key Hb Hk. left. destruct (C offset keys key Hb Hk) as [(l & Hl & Hin)|[Hi Hin]].
  - exists l. split; [|done]. by apply lookup_app_l_Some.
  - exists waiting. split; [|done]. rewrite Hi. by apply list_lookup_middle.
Qed.

Lemma AddKeys_inv made keys waiting b : FilterInv made waiting b ->
  FilterInv made (waiting ++ keys) (foldl (fun b key => AddKey key b) b keys).
Proof.
  revert waiting b. induction keys as [|key keys IH]; intros waiting b I; simpl; [by rewrite app_nil_r|].
  specialize (IH _ _ (AddKey_inv _ _ _ key I)). by rewrite <- app_assoc in IH.
Qed.

Lemma blocks_inv blocks : StronglySorted Z.le (0 :: blocks.*1) ->
  exists made waiting, FilterInv made waiting (foldl add_block new_FilterBlockBuilder blocks)
    /\ covered blocks made waiting /\ concat made ++ waiting = concat blocks.*2
    /\ lenz made = default 0 (last blocks.*1) / kFilterBase.
Proof.
  induction blocks as [|[offset keys] blocks IH] using rev_ind; intros Hs.
  { exists [], []. split_and!; [done| |done|done]. intros offset keys key Hb. by apply not_elem_of_nil in Hb. }
  rewrite (fmap_app fst) in Hs |- *. destruct IH as (made & waiting & I & C & Hcat & Hlen); [by apply (StronglySorted_app_1_l _ (0 :: blocks.*1)) in Hs|].
  assert (Hlast : default 0 (last blocks.*1) <= offset).
  { change (0 :: blocks.*1 ++ [(offset, keys)].*1) with ((0 :: blocks.*1) ++ [offset]) in Hs.
    apply (StronglySorted_app_1_elem_of Z.le (0 :: blocks.*1) [offset]); [done| |by apply list_elem_of_singleton].
    destruct (last blocks.*1) as [x|] eqn:El; simpl; [|by left]. right. by apply last_Some_elem_of. }
  rewrite foldl_app. simpl. rewrite last_snoc. simpl. unfold add_block, StartBlock. cbn [fst snd].
  assert (Hle : lenz made <= offset / kFilterBase) by (rewrite Hlen; by apply Z.div_le_mono).
  destruct (start_loop_inv (Z.to_nat (offset / kFilterBase)) (offset / kFilterBase) made waiting _ I)
    as (made' & waiting' & I' & Hge & Hcase); [pose proof (lenz_nonneg made); lia|].
  assert (C' : covered blocks made' waiting' /\ concat made' ++ waiting' = concat blocks.*2 /\ lenz made' = offset / kFilterBase).
  { destruct Hcase as [[-> ->]|(more & -> & Hm & -> & Hl)]; [split_and!; [done..|lia]|].
    split_and!; [by apply covered_generate| |done]. rewrite concat_app, <- Hcat. simpl. by rewrite Hm, !app_nil_r. }
  destruct C' as (C' & Hcat' & Hl'). exists made', (waiting' ++ keys). split_and!; [by apply AddKeys_inv| | |done].
  2: { rewrite app_assoc, Hcat', fmap_app, concat_app. simpl. by rewrite app_nil_r. }
  intros o ks key Hb Hk. apply elem_of_app in Hb as [Hb|Hb].
  - destruct (C' o ks key Hb Hk) as [?|[Hi Hin]]; [by left|]. right. split; [done|]. apply elem_of_app. by left.
  - apply list_elem_of_singleton in Hb. simplify_eq. right. split; [unfold lenz in Hl'; lia|]. apply elem_of_app. by right.
Qed.

Lemma Finish_inv made waiting b : FilterInv made waiting b ->
  exists made', FilterInv made' [] (if decide (fb_start b = []) then b else GenerateFilter b)
    /\ concat made' = concat made ++ waiting
    /\ forall blocks, covered blocks made waiting -> covered blocks made' [].
Proof.
  intros I. case_decide as Hw.
  - assert (waiting = []) as ->.
    { rewrite (fi_start _ _ _ I) in Hw. apply (f_equal length) in Hw. rewrite starts_length in Hw. by destruct waiting. }
    exists made. by rewrite app_nil_r.
  - exists (made ++ [waiting]). split_and!; [by apply GenerateFilter_inv| |].
    + rewrite concat_app. simpl. by rewrite app_nil_r.
    + intros blocks. apply covered_generate.
Qed.

Section finished.
Context (made : list (list text)) (b : FilterBlockBuilder) (I : FilterInv made [] b).
Abbreviation filters := (filter_of <$> made).
Abbreviation contents := (concat filters ++ concat (EncodeFixed32 <$> starts filters (S (length made))) ++ [byte kFilterBaseLg]).

Lemma contents_size : lenz contents = lenz (concat filters) + 4 * (lenz made + 1) + 1.
Proof. rewrite !lenz_app, fixed32s_length. unfold lenz. rewrite starts_length. simpl. lia. Qed.

Lemma finished_size :
  lenz (PutFixed32 (foldl PutFixed32 (fb_result b) (filter_offsets b)) (u32 (lenz (fb_result b))) ++ [byte kFilterBaseLg])
  = lenz contents.
Proof.
  rewrite contents_size, put_fixed32s, (fi_result _ _ _ I), (fi_offsets _ _ _ I). unfold PutFixed32.
  rewrite !lenz_app, fixed32s_length. unfold lenz. rewrite length_fmap, starts_length. simpl. lia.
Qed.

Context (Hsize : lenz contents < 2 ^ 32).

Lemma start_bound i : 0 <= lenz (concat (take i filters)) <= lenz (concat filters).
Proof.
  split; [apply lenz_nonneg|]. rewrite <- (take_drop i filters) at 2. rewrite concat_app, lenz_app.
  pose proof (lenz_nonneg (concat (drop i filters))). lia.
Qed.

Lemma finished_contents :
  PutFixed32 (foldl PutFixed32 (fb_result b) (filter_offsets b)) (u32 (lenz (fb_result b))) ++ [byte kFilterBaseLg] = contents.
Proof.
  rewrite put_fixed32s, (fi_result _ _ _ I), (fi_offsets _ _ _ I). unfold PutFixed32. rewrite <- !app_assoc. f_equal.
  rewrite <- (length_fmap filter_of made), starts_S, fmap_app, concat_app, <- app_assoc, length_fmap. pose proof contents_size.
  pose proof (lenz_nonneg made). assert (Hu : forall x, 0 <= x <= lenz (concat filters) -> u32 x = x)
    by (intros x Hx; unfold u32; apply Z.mod_small; lia).
  rewrite (Hu (lenz _)) by (pose proof (lenz_nonneg (concat filters)); lia). do 2 f_equal.
  rewrite <- list_fmap_compose. apply list_fmap_ext. intros j x Hj. simpl. f_equal.
  unfold starts in Hj. rewrite list_lookup_fmap in Hj. destruct (seq 0 _ !! j); simplify_eq/=. apply Hu, start_bound.
Qed.

Lemma start_word i rest : (i <= length made)%nat ->
  DecodeFixed32 (dropz (Z.of_nat i * 4) (concat (EncodeFixed32 <$> starts filters (S (length made))) ++ rest))
  = Some (lenz (concat (take i filters))).
Proof.
  intros Hi. apply fixed32s_lookup.
  - unfold starts. by rewrite list_lookup_fmap, lookup_seq_lt by lia.
  - pose proof (start_bound i). pose proof contents_size. pose proof (lenz_nonneg made). unfold is_u32. lia.
Qed.

Lemma new_reader : new_FilterBlockReader contents = mkFilterReader contents (lenz (concat filters)) (lenz made) kFilterBaseLg.
Proof.
  unfold new_FilterBlockReader. pose proof contents_size as Hs. pose proof (lenz_nonneg made). pose proof (lenz_nonneg (concat filters)).
  assert (Hlast : contents !! Z.to_nat (lenz contents - 1) = Some (byte kFilterBaseLg)).
  { rewrite app_assoc. apply list_lookup_middle. unfold lenz. rewrite !length_app. simpl. lia. }
  assert (Hword : DecodeFixed32 (dropz (lenz contents - 5) contents) = Some (lenz (concat filters))).
  { rewrite Hs, dropz_app_ge by lia. replace (_ - _ - _) with (Z.of_nat (length made) * 4) by (unfold lenz; lia).
    rewrite start_word by lia. by rewrite take_ge by (by rewrite length_fmap). }
  rewrite Hlast, Hword. cbn [default from_option id]. rewrite Hs, (proj2 (Z.ltb_ge _ _)) by lia.
  rewrite (proj2 (Z.ltb_ge _ _)) by lia. f_equal. replace (_ - 5 - _) with (lenz made * 4) by lia. by apply Z.div_mul.
Qed.

Lemma reader_filter i keys : made !! i = Some keys -> forall offset key,
  0 <= offset -> Z.to_nat (offset / kFilterBase) = i ->
  fr_KeyMayMatch (new_FilterBlockReader contents) offset key = policy_KeyMayMatch policy key (filter_of keys).
Proof.
  intros Hi offset key Ho Ei. rewrite new_reader. unfold fr_KeyMayMatch. cbn [fr_data fr_offset fr_num fr_base_lg].
  assert (Hidx : Z.shiftr offset kFilterBaseLg = Z.of_nat i).
  { rewrite Z.shiftr_div_pow2 by done. change (2 ^ kFilterBaseLg) with kFilterBase.
    assert (0 <= offset / kFilterBase) by (apply Z.div_pos; [done|by vm_compute]). lia. }
  assert (i < length made)%nat as Hlt by (by eapply lookup_lt_Some).
  rewrite Hidx, (proj2 (Z.ltb_lt _ _)) by (unfold lenz; lia).
  assert (Hw : forall j, (j <= length made)%nat ->
    DecodeFixed32 (dropz (lenz (concat filters) + Z.of_nat j * 4) contents) = Some (lenz (concat (take j filters)))).
  { intros j Hj. rewrite dropz_app_ge by lia. replace (_ + _ - _) with (Z.of_nat j * 4) by lia. by apply start_word. }
  replace (lenz (concat filters) + Z.of_nat i * 4 + 4) with (lenz (concat filters) + Z.of_nat (S i) * 4) by lia.
  rewrite !Hw by lia. cbn [default from_option id].
  assert (Hf : filters !! i = Some (filter_of keys)) by (by rewrite list_lookup_fmap, Hi).
  pose proof (start_bound (S i)) as Hb. rewrite (take_S_r _ _ _ Hf), concat_app, lenz_app in *. cbn [concat] in *. rewrite app_nil_r in *.
  pose proof (lenz_nonneg (filter_of keys)). rewrite !(proj2 (Z.leb_le _ _)) by lia. cbn [andb]. f_equal.
  assert (concat filters = concat (take i filters) ++ filter_of keys ++ concat (drop (S i) filters)) as ->
    by (rewrite <- (take_drop_middle _ _ _ Hf) at 1; by rewrite concat_app).
  rewrite <- !app_assoc, dropz_app_ge by lia. rewrite Z.sub_diag, dropz_0, takez_app_le by lia. apply takez_all. lia.
Qed.

End finished.

End policy.

(** What a table relies on of a policy: filters are appended, and a key matches the filter
    of every list with a key it is looked up for. *)
Record policy_ok (matches : text -> text -> Prop) (policy : FilterPolicy) : Prop := {
  po_append keys dst : policy_CreateFilter policy keys dst = dst ++ policy_CreateFilter policy keys [];
  po_match keys key stored : lenz keys < 2 ^ 31 -> stored ∈ keys -> matches key stored ->
    policy_KeyMayMatch policy key (policy_CreateFilter policy keys []) = true
}.

(** No key of a block is filtered out. *)
Lemma filter_block_sound matches policy blocks offset keys key stored : policy_ok matches policy ->
  StronglySorted Z.le (0 :: blocks.*1) -> lenz (concat blocks.*2) < 2 ^ 31 ->
  lenz (filter_block policy blocks) < 2 ^ 32 -> (offset, keys) ∈ blocks -> stored ∈ keys -> matches key stored ->
  fr_KeyMayMatch policy (new_FilterBlockReader (filter_block policy blocks)) offset key = true.
Proof.
  intros [Hcreate Hmatch] Hs Hn Hsize Hb Hk Hm.
  destruct (blocks_inv policy Hcreate blocks Hs) as (made & waiting & I & C & Hcat & _).
  destruct (Finish_inv policy Hcreate made waiting _ I) as (made' & I' & Hcat' & C').
  set (b := if decide _ then _ else _) in I'.
  assert (Hcontents : filter_block policy blocks
    = PutFixed32 (foldl PutFixed32 (fb_result b) (filter_offsets b)) (u32 (lenz (fb_result b))) ++ [byte kFilterBaseLg]) by done.
  rewrite Hcontents in Hsize |- *. rewrite (finished_size policy made' b I') in Hsize.
  rewrite (finished_contents policy made' b I' Hsize).
  destruct (C' blocks C offset keys stored Hb Hk) as [(l & Hl & Hin)|[_ Hin]]; [|by apply not_elem_of_nil in Hin].
  assert (0 <= offset).
  { apply StronglySorted_cons in Hs as [Hs _]. rewrite Forall_forall in Hs. apply Hs. apply list_elem_of_fmap. by exists (offset, keys). }
  rewrite (reader_filter policy made' Hsize _ l Hl offset key) by done.
  unfold filter_of. rewrite decide_False by (intros ->; by apply not_elem_of_nil in Hin). apply (Hmatch l key stored); [|done..].
  rewrite <- Hcat, <- Hcat' in Hn. apply list_elem_of_lookup_2, list_elem_of_split in Hl as (l1 & l2 & ->).
  rewrite concat_app, lenz_app in Hn. cbn [concat] in Hn. rewrite lenz_app in Hn.
  pose proof (lenz_nonneg (concat l1)). pose proof (lenz_nonneg (concat l2)). lia.
Qed.

(** ** The policies of the repository *)

Definition bloom_policy (bits_per_key : Z) : FilterPolicy :=
  mkPolicy (L "leveldb.BuiltinBloomFilter2") (CreateFilter (new_BloomFilterPolicy bits_per_key)) KeyMayMatch.

(** [InternalFilterPolicy] over the Bloom filter *)
Definition internal_policy (bits_per_key : Z) : FilterPolicy :=
  mkPolicy (L "leveldb.BuiltinBloomFilter2") (InternalCreateFilter (new_BloomFilterPolicy bits_per_key)) InternalKeyMayMatch.

Lemma bits_bound n bits : 0 <= bits < 2 ^ 31 -> 0 <= n < 2 ^ 31 -> n * bits_per_key_ (new_BloomFilterPolicy bits) < 2 ^ 64 - 8.
Proof. intros Hb Hn. unfold new_BloomFilterPolicy, u64. cbn [bits_per_key_]. rewrite Z.mod_small by lia. nia. Qed.

Lemma bloom_policy_ok bits : 0 <= bits < 2 ^ 31 -> policy_ok eq (bloom_policy bits).
Proof.
  intros Hb. split; [done|]. intros keys key ? Hn Hin <-. apply bloom_match; [done|].
  apply bits_bound; [done|]. unfold lenz in Hn. lia.
Qed.

Lemma internal_policy_ok bits : 0 <= bits < 2 ^ 31 ->
  policy_ok (fun key stored => ExtractUserKey key = ExtractUserKey stored) (internal_policy bits).
Proof.
  intros Hb. split; [done|]. intros keys key stored Hn Hin Hu. cbn. unfold InternalKeyMayMatch, InternalCreateFilter.
  rewrite Hu. apply bloom_match; [by apply list_elem_of_fmap_2|].
  rewrite length_fmap. apply bits_bound; [done|]. unfold lenz in Hn. lia.
Qed.
