(* ===== verification/TableFile.v ===== *)
(** * TableFile: building, opening and searching a table file

    [src/leveldb/table/table_builder.cc] and [table.cc].  Sorted entries are collected in
    data blocks, which are compressed and appended to the file; then come the filter block,
    the metaindex block that names it, the index block with a separator and a handle for
    every data block, and the footer.  A lookup searches the index block, asks the filter
    and searches one data block, through the block cache.

    The comparator with its separators, the filter policy, the compression libraries, the
    file and the block cache are interfaces.

    The main result: a file that was finished without an error answers every lookup with
    the first entry at or after the key, or with nothing if that entry is not for the key. *)

From S2P Require Import Prelude Text Coding Status Crc LogFile Dbformat SkipList Block Format FilterBlock.

(** The separators of a comparator *)
Class Separators := {
  find_separator : text -> text -> text;
  find_successor : text -> text
}.

(** What [Table] uses of [Options] *)
Record TableOptions := mkTableOptions {
  block_size : Z;
  block_restart_interval : Z;
  compression : CompressionType;
  filter_policy : option FilterPolicy;
  table_paranoid : bool
}.

(** ** [TableBuilder] *)

(** [TableBuilder::Rep]; the file is the text written so far and what it answers next.
    The filter block keeps the policy it was made with. *)
Record TableBuilder := mkTableBuilder {
  tb_options : TableOptions;
  tb_file : text;
  tb_answers : list Answer;
  tb_offset : Z;
  tb_status : Status;
  tb_data_block : BlockBuilder;
  tb_index_block : BlockBuilder;
  tb_last_key : text;
  tb_num_entries : Z;
  tb_closed : bool;
  tb_filter : option (FilterPolicy * FilterBlockBuilder);
  pending_index_entry : bool;
  pending_handle : BlockHandle
}.

#[export] Instance eta_TableBuilder : Eta TableBuilder := fun b =>
  mkTableBuilder (tb_options b) (tb_file b) (tb_answers b) (tb_offset b) (tb_status b) (tb_data_block b)
    (tb_index_block b) (tb_last_key b) (tb_num_entries b) (tb_closed b) (tb_filter b) (pending_index_entry b)
    (pending_handle b).

Definition tb_ok (b : TableBuilder) : bool := status_ok (tb_status b).

(** The block cache, of which lookups may forget or keep what was inserted. *)
Class BlockCache (C : Type) := {
  cache_Lookup : text -> C -> option Block * C;
  cache_Insert : text -> Block -> Z -> C -> C
}.

Class BlockCacheLaws (C : Type) `{BlockCache C} := {
  cache_holds : C -> text -> Block -> Prop;
  holds_lookup k c b c' : cache_Lookup k c = (Some b, c') -> cache_holds c k b;
  holds_after_lookup k c r c' k' b : cache_Lookup k c = (r, c') -> cache_holds c' k' b -> cache_holds c k' b;
  holds_after_insert k v n c k' b : cache_holds (cache_Insert k v n c) k' b -> k' = k /\ b = v \/ cache_holds c k' b
}.

Section table.
Context `{Comparator text} `{!Separators}.
Variable accelerated : Z -> text -> Z.
Variable align : nat.
Variables snappy zstd : Codec.

(** [StartBlock] on the filter block, if there is one. *)
Definition filter_start (b : TableBuilder) : TableBuilder :=
  match tb_filter b with
  | Some (policy, f) => b <| tb_filter := Some (policy, StartBlock policy (tb_offset b) f) |>
  | None => b
  end.

Definition new_TableBuilder (options : TableOptions) (answers : list Answer) : TableBuilder :=
  filter_start
    (mkTableBuilder options [] answers 0 status_OK new_BlockBuilder new_BlockBuilder [] 0 false
       ((fun policy => (policy, new_FilterBlockBuilder)) <$> filter_policy options) false new_BlockHandle).

(** The comparators are pointers that are compared. *)
Definition ChangeOptions (same_comparator : bool) (options : TableOptions) (b : TableBuilder) : TableBuilder * Status :=
  if same_comparator then (b <| tb_options := options |>, status_OK)
  else (b, InvalidArgument (L "changing comparator while building table") []).

Definition tb_append (data : text) (b : TableBuilder) : TableBuilder :=
  let '(file, answers, s) := file_append (tb_answers b) data (tb_file b) in
  b <| tb_file := file |> <| tb_answers := answers |> <| tb_status := s |>.

Definition WriteRawBlock (block_contents : text) (type : CompressionType) (b : TableBuilder) : TableBuilder * BlockHandle :=
  let handle := mkHandle (tb_offset b) (lenz block_contents) in
  let b := tb_append block_contents b in
  if tb_ok b then
    let b := tb_append (block_trailer accelerated align block_contents type) b in
    if tb_ok b then (b <| tb_offset ::= fun o => u64 (o + lenz block_contents + kBlockTrailerSize) |>, handle)
    else (b, handle)
  else (b, handle).

(** Writes a finished block; the caller resets the block. *)
Definition WriteBlock (block : BlockBuilder) (b : TableBuilder) : TableBuilder * BlockHandle :=
  let raw := bb_buffer (bb_Finish block) in
  let '(block_contents, type) := compress_block snappy zstd (compression (tb_options b)) raw in
  WriteRawBlock block_contents type b.

Definition tb_Flush (b : TableBuilder) : TableBuilder :=
  if negb (tb_ok b) then b
  else if decide (bb_buffer (tb_data_block b) = []) then b
  else
    let '(b, handle) := WriteBlock (tb_data_block b) b in
    let b := b <| tb_data_block ::= bb_Reset |> <| pending_handle := handle |> in
    let b := if tb_ok b then
               let '(answers, s) := file_flush (tb_answers b) in
               b <| pending_index_entry := true |> <| tb_answers := answers |> <| tb_status := s |>
             else b in
    filter_start b.

(** The entry of a finished data block in the index block. *)
Definition add_index_entry (key : text) (b : TableBuilder) : TableBuilder :=
  b <| tb_last_key := key |> <| tb_index_block ::= bb_Add 1 key (handle_EncodeTo (pending_handle b) []) |>
    <| pending_index_entry := false |>.

Definition tb_Add (key value : text) (b : TableBuilder) : TableBuilder :=
  if negb (tb_ok b) then b
  else
    let b := if pending_index_entry b then add_index_entry (find_separator (tb_last_key b) key) b else b in
    let b := b <| tb_filter ::= fmap (prod_map id (AddKey key)) |> in
    let b := b <| tb_last_key := key |> <| tb_num_entries ::= Z.add 1 |>
               <| tb_data_block ::= bb_Add (block_restart_interval (tb_options b)) key value |> in
    if block_size (tb_options b) <=? CurrentSizeEstimate (tb_data_block b) then tb_Flush b else b.

(** The key of the filter block in the metaindex block *)
Definition filter_key (policy : FilterPolicy) : text := L "filter." ++ Name policy.

(** [WriteRawBlock] on the finished filter block *)
Definition write_filter (b : TableBuilder) : TableBuilder * BlockHandle :=
  match tb_filter b with
  | Some (policy, f) =>
    if tb_ok b then WriteRawBlock (fb_result (fb_Finish policy f)) kNoCompression b else (b, new_BlockHandle)
  | None => (b, new_BlockHandle)
  end.

Definition write_metaindex (filter_block_handle : BlockHandle) (b : TableBuilder) : TableBuilder * BlockHandle :=
  if tb_ok b then
    let block := new_BlockBuilder in
    let block := match filter_policy (tb_options b), tb_filter b with
                 | Some policy, Some _ =>
                   bb_Add (block_restart_interval (tb_options b)) (filter_key policy) (handle_EncodeTo filter_block_handle []) block
                 | _, _ => block
                 end in
    WriteBlock block b
  else (b, new_BlockHandle).

Definition write_index (b : TableBuilder) : TableBuilder * BlockHandle :=
  if tb_ok b then
    let b := if pending_index_entry b then add_index_entry (find_successor (tb_last_key b)) b else b in
    let '(b, handle) := WriteBlock (tb_index_block b) b in
    (b <| tb_index_block ::= bb_Reset |>, handle)
  else (b, new_BlockHandle).

Definition write_footer (metaindex index : BlockHandle) (b : TableBuilder) : TableBuilder :=
  if tb_ok b then
    let footer_encoding := footer_EncodeTo (mkFooter metaindex index) [] in
    let b := tb_append footer_encoding b in
    if tb_ok b then b <| tb_offset ::= fun o => u64 (o + lenz footer_encoding) |> else b
  else b.

Definition tb_Finish (b : TableBuilder) : TableBuilder * Status :=
  let b := tb_Flush b in
  let b := b <| tb_closed := true |> in
  let '(b, filter_block_handle) := write_filter b in
  let '(b, metaindex_block_handle) := write_metaindex filter_block_handle b in
  let '(b, index_block_handle) := write_index b in
  let b := write_footer metaindex_block_handle index_block_handle b in
  (b, tb_status b).

Definition Abandon (b : TableBuilder) : TableBuilder := b <| tb_closed := true |>.

Definition FileSize (b : TableBuilder) : Z := tb_offset b.

(** ** [Table] *)

(** [Table::Rep] *)
Record Table := mkTable {
  t_options : TableOptions;
  t_file : RandomAccessFile;
  t_cache_id : Z;
  t_filter : option FilterBlockReader;
  t_metaindex : BlockHandle;
  t_index : Block
}.

(** The operations of the iterators a block gives. *)
Definition ni_lift (f : BlockIter -> option BlockIter) (i : NewIter) : option NewIter :=
  match i with EntryIterator it => EntryIterator <$> f it | _ => Some i end.
Definition ni_Seek (target : text) : NewIter -> option NewIter := ni_lift (it_Seek target).
Definition ni_Valid (i : NewIter) : bool := match i with EntryIterator it => it_Valid it | _ => false end.
Definition ni_key (i : NewIter) : text := match i with EntryIterator it => it_key it | _ => [] end.
Definition ni_value (i : NewIter) : text := match i with EntryIterator it => value_text it | _ => [] end.
Definition ni_status (i : NewIter) : Status :=
  match i with ErrorIterator s => s | EmptyIterator => status_OK | EntryIterator it => it_status it end.

(** [ReadFilter] and [ReadMeta]: the filter of the table, if it can be read. *)
Definition ReadFilter (options : TableOptions) (file : RandomAccessFile) (filter_handle_value : text)
    : option FilterBlockReader :=
  match handle_DecodeFrom filter_handle_value with
  | inl (filter_handle, _) =>
    match ReadBlock accelerated align snappy zstd file (table_paranoid options) filter_handle with
    | inl block => Some (new_FilterBlockReader (bc_data block))
    | inr _ => None
    end
  | inr _ => None
  end.

(** The metaindex block is searched with the bytewise comparator. *)
Definition ReadMeta (options : TableOptions) (file : RandomAccessFile) (footer : Footer) : option (option FilterBlockReader) :=
  match filter_policy options with
  | None => Some None
  | Some policy =>
    match ReadBlock accelerated align snappy zstd file (table_paranoid options) (metaindex_handle_ footer) with
    | inr _ => Some None
    | inl contents =>
      let key := filter_key policy in
      iter ← ni_lift (@it_Seek slice_compare key) (NewIterator (new_Block (bc_data contents)));
      if ni_Valid iter && bool_decide (ni_key iter = key) then Some (ReadFilter options file (ni_value iter))
      else Some None
    end
  end.

Definition table_Open (options : TableOptions) (file : RandomAccessFile) (size cache_id : Z) : option (Table + Status) :=
  if size <? kEncodedLength then Some (inr (Corruption (L "file is too short to be an sstable") []))
  else
    let '(s, footer_input, _) := file (size - kEncodedLength) kEncodedLength in
    if negb (status_ok s) then Some (inr s)
    else
      match footer_DecodeFrom footer_input with
      | inr s => Some (inr s)
      | inl (footer, _) =>
        match ReadBlock accelerated align snappy zstd file (table_paranoid options) (index_handle_ footer) with
        | inr s => Some (inr s)
        | inl index_block_contents =>
          let index_block := new_Block (bc_data index_block_contents) in
          filter ← ReadMeta options file footer;
          Some (inl (mkTable options file cache_id filter (metaindex_handle_ footer) index_block))
        end
      end.

Context {C : Type} `{BlockCache C}.

Definition cache_key (t : Table) (handle : BlockHandle) : text :=
  EncodeFixed64 (t_cache_id t) ++ EncodeFixed64 (bh_offset handle).

(** [BlockReader], with the block cache if there is one. *)
Definition BlockReader (t : Table) (verify_checksums fill_cache : bool) (index_value : text) (cache : option C)
    : NewIter * option C :=
  match handle_DecodeFrom index_value with
  | inr s => (ErrorIterator s, cache)
  | inl (handle, _) =>
    let read := ReadBlock accelerated align snappy zstd (t_file t) verify_checksums handle in
    match cache with
    | Some c =>
      let '(hit, c) := cache_Lookup (cache_key t handle) c in
      match hit with
      | Some block => (NewIterator block, Some c)
      | None =>
        match read with
        | inl contents =>
          let block := new_Block (bc_data contents) in
          let c := if cachable contents && fill_cache then cache_Insert (cache_key t handle) block (size_ block) c else c in
          (NewIterator block, Some c)
        | inr s => (ErrorIterator s, Some c)
        end
      end
    | None =>
      match read with
      | inl contents => (NewIterator (new_Block (bc_data contents)), None)
      | inr s => (ErrorIterator s, None)
      end
    end
  end.

(** The filter lets a lookup pass, unless it knows better. *)
Definition filter_passes (t : Table) (k handle_value : text) : bool :=
  match t_filter t, filter_policy (t_options t), handle_DecodeFrom handle_value with
  | Some filter, Some policy, inl (handle, _) => fr_KeyMayMatch policy filter (bh_offset handle) k
  | _, _, _ => true
  end.

(** The entry given to [handle_result], if any, and the status. *)
Definition InternalGet (t : Table) (verify_checksums fill_cache : bool) (k : text) (cache : option C)
    : option (option (text * text) * Status * option C) :=
  iiter ← ni_Seek k (NewIterator (t_index t));
  '(r, s, cache) ←
    (if ni_Valid iiter then
       if filter_passes t k (ni_value iiter) then
         let '(block_iter, cache) := BlockReader t verify_checksums fill_cache (ni_value iiter) cache in
         block_iter ← ni_Seek k block_iter;
         Some (if ni_Valid block_iter then Some (ni_key block_iter, ni_value block_iter) else None,
               ni_status block_iter, cache)
       else Some (None, status_OK, cache)
     else Some (None, status_OK, cache));
  Some (r, if status_ok s then ni_status iiter else s, cache).

Definition ApproximateOffsetOf (t : Table) (key : text) : option Z :=
  index_iter ← ni_Seek key (NewIterator (t_index t));
  Some (if ni_Valid index_iter then
          match handle_DecodeFrom (ni_value index_iter) with
          | inl (handle, _) => bh_offset handle
          | inr _ => bh_offset (t_metaindex t)
          end
        else bh_offset (t_metaindex t)).

End table.

(** ** Orders *)

Section order.
Context `{ComparatorLaws text}.

Lemma cmp_lt_le a b c : compare_ a b = Lt -> compare_ b c <> Gt -> compare_ a c = Lt.
Proof.
  intros Hab Hbc. destruct (compare_ b c) eqn:E; [|by eapply cmp_trans|done].
  rewrite cmp_antisym, <- (cmp_eq_l b c a E), <- cmp_antisym. done.
Qed.

Lemma cmp_le_lt a b c : compare_ a b <> Gt -> compare_ b c = Lt -> compare_ a c = Lt.
Proof.
  intros Hab Hbc. destruct (compare_ a b) eqn:E; [|by eapply cmp_trans|done].
  by rewrite (cmp_eq_l a b c E).
Qed.

Lemma cmp_not_lt a b : compare_ a b <> Lt <-> compare_ b a <> Gt.
Proof. rewrite (cmp_antisym a b). by destruct (compare_ a b). Qed.

(** The first entry at or after a key, in the parts of a list. *)
Lemma lower_bound_app k l l' : Forall (fun e => compare_ e.1 k = Lt) l ->
  lower_bound k (l ++ l') = (length l + lower_bound k l')%nat.
Proof. induction 1 as [|e l He _ IH]; simpl; [done|]. by rewrite He, IH. Qed.

Lemma lower_bound_le k l : (lower_bound k l <= length l)%nat.
Proof. induction l as [|e l IH]; simpl; [lia|]. case_match; lia. Qed.

Lemma lower_bound_before k l i e : (i < lower_bound k l)%nat -> l !! i = Some e -> compare_ e.1 k = Lt.
Proof.
  revert i. induction l as [|x l IH]; intros i Hi He; simpl in *; [lia|].
  destruct (compare_ x.1 k) eqn:E; [lia| |lia]. destruct i as [|i]; simplify_eq/=; [done|]. apply (IH i); [lia|done].
Qed.

Lemma lower_bound_at k l e : l !! lower_bound k l = Some e -> compare_ e.1 k <> Lt.
Proof. induction l as [|x l IH]; simpl; [done|]. destruct (compare_ x.1 k) eqn:E; simpl; [|by auto|]; intros; simplify_eq; by rewrite E. Qed.

Lemma lower_bound_first k l l' : (lower_bound k l < length l)%nat -> lower_bound k (l ++ l') = lower_bound k l.
Proof. induction l as [|x l IH]; simpl; [lia|]. destruct (compare_ x.1 k); [done| |done]. intros. rewrite IH; lia. Qed.

Lemma lower_bound_all k l : lower_bound k l = length l -> Forall (fun e => compare_ e.1 k = Lt) l.
Proof. induction l as [|x l IH]; simpl; [done|]. destruct (compare_ x.1 k) eqn:E; intros; [done| |done]. constructor; [done|]. apply IH. lia. Qed.

End order.

(** ** Sizes of blocks *)

Lemma varint32_length v : lenz (EncodeVarint32 v) <= 5.
Proof. unfold EncodeVarint32, lenz. repeat case_match; simpl; lia. Qed.

(** What an entry adds to a block at most. *)
Definition entry_cost (e : text * text) : Z := lenz e.1 + lenz e.2 + 19.
Definition cost (es : list (text * text)) : Z := foldr (fun e n => entry_cost e + n) 0 es.

Lemma cost_app a b : cost (a ++ b) = cost a + cost b.
Proof. induction a as [|e a IH]; simpl; [done|]. rewrite IH. lia. Qed.

Lemma cost_nonneg es : 0 <= cost es.
Proof.
  induction es as [|e es IH]; simpl; [done|]. unfold entry_cost. pose proof (lenz_nonneg e.1). pose proof (lenz_nonneg e.2). lia.
Qed.

Lemma build_cost interval es : CurrentSizeEstimate (build_block interval es) <= 8 + cost es.
Proof.
  induction es as [|e es IH] using rev_ind; [done|]. rewrite build_snoc, cost_app. set (b := build_block interval es) in *.
  assert (CurrentSizeEstimate (bb_Add interval e.1 e.2 b) <= CurrentSizeEstimate b + entry_cost e); [|simpl; lia].
  rewrite bb_Add_fields. unfold CurrentSizeEstimate, entry_cost. cbn [bb_buffer bb_restarts]. rewrite !lenz_app.
  set (sh := if bb_counter b <? interval then shared_prefix (bb_last_key b) e.1 else O). pose proof (varint32_length (u32 (Z.of_nat sh))).
  pose proof (varint32_length (u32 (lenz e.1 - Z.of_nat sh))). pose proof (varint32_length (u32 (lenz e.2))).
  assert (lenz (drop sh e.1) <= lenz e.1) by (unfold lenz; rewrite length_drop; lia).
  assert (lenz (if bb_counter b <? interval then [] else [u32 (lenz (bb_buffer b))]) <= 1) by (by destruct (_ <? _)). lia.
Qed.

Lemma build_nil interval es : bb_buffer (build_block interval es) = [] <-> es = [].
Proof.
  split; [|by intros ->]. destruct es as [|e es _] using rev_ind; [done|]. rewrite build_snoc, bb_Add_fields. cbn [bb_buffer].
  intros Hn. apply (f_equal length) in Hn. rewrite !length_app in Hn.
  pose proof (varint32_nonempty (u32 (lenz e.2))). simpl in Hn. lia.
Qed.

(** What a table relies on of the separators: for keys that are [good], a separator lies
    between two keys, a key looked up in the gap before the next key is not for that key,
    and a separator is no longer than the key it replaces. *)
Class SeparatorsLaws `{Comparator text} `{!Separators} (good : text -> Prop) (matches : text -> text -> Prop) := {
  sep_lower a b : good a -> good b -> compare_ a b = Lt -> compare_ a (find_separator a b) <> Gt;
  sep_upper a b : good a -> good b -> compare_ a b = Lt -> compare_ (find_separator a b) b = Lt;
  sep_gap a b k : good a -> good b -> good k -> compare_ a b = Lt -> compare_ a k = Lt ->
    compare_ k (find_separator a b) <> Gt -> ~ matches k b;
  sep_length a b : good a -> good b -> compare_ a b = Lt -> lenz (find_separator a b) <= lenz a;
  succ_lower a : good a -> compare_ a (find_successor a) <> Gt;
  succ_length a : good a -> lenz (find_successor a) <= lenz a
}.

(** ** The builder *)

Section build.
Context `{Comparator text} `{!ComparatorLaws text} `{!Separators} {good matches} `{!SeparatorsLaws good matches}.
Variable accelerated : Z -> text -> Z.
Variable align : nat.
Variables snappy zstd : Codec.
Variable options : TableOptions.

Abbreviation interval := (block_restart_interval options).
Abbreviation entries := (list (text * text)).

(** The bytes stored for a block *)
Definition stored_size (raw : text) : Z := lenz (compress_block snappy zstd (compression options) raw).1.
Definition stored (raw : text) : text :=
  let '(data, type) := compress_block snappy zstd (compression options) raw in
  data ++ block_trailer accelerated align data type.
Definition stored_entries (es : entries) : text := stored (block_text interval es).

Definition prefix_text (blocks : list entries) (i : nat) : text := concat (stored_entries <$> take i blocks).
Definition block_offset (blocks : list entries) (i : nat) : Z := u64 (lenz (prefix_text blocks i)).
Definition handle_of (blocks : list entries) (i : nat) : BlockHandle :=
  mkHandle (block_offset blocks i) (stored_size (block_text interval (default [] (blocks !! i)))).

(** The calls of the filter block *)
Definition filter_calls (blocks : list entries) (cur : entries) : list (Z * list text) :=
  ((fun i => (block_offset blocks i, (default [] (blocks !! i)).*1)) <$> seq 0 (length blocks))
  ++ [(block_offset blocks (length blocks), cur.*1)].

(** A separator between the last key of a block and the entries after it *)
Definition separates (sep : text) (block rest : entries) : Prop :=
  exists e, last block = Some e /\ compare_ e.1 sep <> Gt /\ lenz sep <= lenz e.1
  /\ match rest with
     | [] => True
     | e' :: _ => compare_ sep e'.1 = Lt
                  /\ forall k, good k -> compare_ e.1 k = Lt -> compare_ k sep <> Gt -> ~ matches k e'.1
     end.

(** The entries of the index block, for the blocks but the one whose entry is pending. *)
Definition index_entries_ok (blocks : list entries) (cur : entries) (idx : list (text * text)) : Prop :=
  forall i sep value, idx !! i = Some (sep, value) ->
  value = handle_EncodeTo (handle_of blocks i) []
  /\ exists block, blocks !! i = Some block /\ separates sep block (concat (drop (S i) blocks) ++ cur).

Record BuildInv (es : entries) (blocks : list entries) (cur : entries) (idx : list (text * text)) (b : TableBuilder) : Prop := {
  ti_entries : es = concat blocks ++ cur;
  ti_nonempty : Forall (fun block => block <> []) blocks;
  ti_options : tb_options b = options;
  ti_file : tb_file b = concat (stored_entries <$> blocks);
  ti_offset : tb_offset b = u64 (lenz (tb_file b));
  ti_data : tb_data_block b = build_block interval cur;
  ti_index : tb_index_block b = build_block 1 idx;
  ti_last : tb_last_key b = key_at es (length es - 1);
  ti_filter : tb_filter b = (fun policy => (policy, foldl (add_block policy) new_FilterBlockBuilder (filter_calls blocks cur)))
                            <$> filter_policy options;
  ti_length : length blocks = (length idx + if pending_index_entry b then 1 else 0)%nat;
  ti_pending : pending_index_entry b = true -> cur = [] /\ pending_handle b = handle_of blocks (length blocks - 1);
  ti_cur : pending_index_entry b = false -> cur = [] -> blocks = [];
  ti_idx : index_entries_ok blocks cur idx
}.

Lemma prefix_text_app blocks more i : (i <= length blocks)%nat -> prefix_text (blocks ++ more) i = prefix_text blocks i.
Proof. intros Hi. unfold prefix_text. by rewrite take_app_le. Qed.

Lemma prefix_text_all blocks : prefix_text blocks (length blocks) = concat (stored_entries <$> blocks).
Proof. unfold prefix_text. by rewrite take_ge. Qed.

Lemma block_offset_app blocks more i : (i <= length blocks)%nat -> block_offset (blocks ++ more) i = block_offset blocks i.
Proof. intros Hi. unfold block_offset. by rewrite prefix_text_app. Qed.

Lemma handle_of_app blocks more i : (i < length blocks)%nat -> handle_of (blocks ++ more) i = handle_of blocks i.
Proof. intros Hi. unfold handle_of. rewrite block_offset_app by lia. by rewrite lookup_app_l. Qed.

Lemma filter_calls_flush blocks cur : filter_calls (blocks ++ [cur]) [] = filter_calls blocks cur
  ++ [(block_offset (blocks ++ [cur]) (length (blocks ++ [cur])), [])].
Proof.
  unfold filter_calls. rewrite length_app. simpl (length [cur]). rewrite seq_app, fmap_app. simpl. f_equal. f_equal.
  - apply list_fmap_ext. intros j i Hj. apply lookup_seq in Hj as [-> Hj]. simpl.
    rewrite block_offset_app by lia. by rewrite lookup_app_l.
  - rewrite block_offset_app by lia. by rewrite list_lookup_middle.
Qed.

Lemma filter_calls_add policy blocks cur key value b :
  foldl (add_block policy) b (filter_calls blocks (cur ++ [(key, value)]))
  = AddKey key (foldl (add_block policy) b (filter_calls blocks cur)).
Proof.
  unfold filter_calls. rewrite !foldl_app. simpl. unfold add_block at 1 3. simpl. rewrite fmap_app, foldl_app. done.
Qed.

Lemma u64_add x y z : u64 (u64 x + y + z) = u64 (x + (y + z)).
Proof. unfold u64. rewrite <- Z.add_assoc, Z.add_mod_idemp_l by lia. done. Qed.

(** The fields that writing to the file does not change *)
Record same_rest (b b' : TableBuilder) : Prop := {
  sr_options : tb_options b' = tb_options b;
  sr_data : tb_data_block b' = tb_data_block b;
  sr_index : tb_index_block b' = tb_index_block b;
  sr_last : tb_last_key b' = tb_last_key b;
  sr_filter : tb_filter b' = tb_filter b;
  sr_pending : pending_index_entry b' = pending_index_entry b;
  sr_handle : pending_handle b' = pending_handle b
}.

#[local] Instance same_rest_preorder : PreOrder same_rest.
Proof. split; [by intros b; split|]. intros a b c [] []. split; congruence. Qed.

(** An append that succeeds writes all. *)
Lemma append_rest data b : same_rest b (tb_append data b) /\ tb_offset (tb_append data b) = tb_offset b.
Proof. unfold tb_append. destruct (file_append _ _ _) as [[file a] s]. split; [split|]; reflexivity. Qed.

Lemma append_ok data b : tb_ok (tb_append data b) = true -> tb_file (tb_append data b) = tb_file b ++ data.
Proof.
  unfold tb_append, tb_ok, file_append. destruct (tb_answers b) as [|[|s n] a]; [reflexivity..|].
  intros Hs. change (status_ok s = true) in Hs. rewrite Hs. reflexivity.
Qed.

Lemma WriteRawBlock_rest contents type b : same_rest b (WriteRawBlock accelerated align contents type b).1.
Proof.
  unfold WriteRawBlock. destruct (append_rest contents b) as [R1 _].
  destruct (append_rest (block_trailer accelerated align contents type) (tb_append contents b)) as [R2 _].
  destruct (tb_ok _); [|done]. destruct (tb_ok _); [|by etrans]. etrans; [exact R1|]. etrans; [exact R2|]. split; reflexivity.
Qed.

Lemma WriteRawBlock_ok contents type b b' handle : WriteRawBlock accelerated align contents type b = (b', handle) ->
  tb_ok b' = true -> tb_offset b = u64 (lenz (tb_file b)) ->
  handle = mkHandle (tb_offset b) (lenz contents) /\ same_rest b b'
  /\ tb_file b' = tb_file b ++ contents ++ block_trailer accelerated align contents type
  /\ tb_offset b' = u64 (lenz (tb_file b')).
Proof.
  intros Hw Hok Ho. pose proof (WriteRawBlock_rest contents type b) as R. rewrite Hw in R. cbn [fst] in R.
  unfold WriteRawBlock in Hw. pose proof (block_trailer_length accelerated align contents type) as Htr.
  remember (block_trailer accelerated align contents type) as trailer eqn:Et. clear Et.
  destruct (tb_ok (tb_append contents b)) eqn:E1; [|injection Hw as <- <-; by rewrite E1 in Hok].
  destruct (tb_ok (tb_append trailer (tb_append contents b))) eqn:E2; [|injection Hw as <- <-; by rewrite E2 in Hok].
  apply append_ok in E1, E2. destruct (append_rest contents b) as [_ O1].
  destruct (append_rest trailer (tb_append contents b)) as [_ O2]. injection Hw as <- <-.
  assert (Hf : tb_file (tb_append trailer (tb_append contents b)) = tb_file b ++ contents ++ trailer)
    by (by rewrite E2, E1, <- app_assoc).
  split_and!; [done|done|exact Hf|].
  match goal with |- tb_offset ?x = _ => change (tb_offset x) with
    (u64 (tb_offset (tb_append trailer (tb_append contents b)) + lenz contents + kBlockTrailerSize));
    change (tb_file x) with (tb_file (tb_append trailer (tb_append contents b))) end.
  by rewrite Hf, O2, O1, Ho, u64_add, !lenz_app, Htr.
Qed.

Lemma WriteBlock_ok block b b' handle : WriteBlock accelerated align snappy zstd block b = (b', handle) ->
  tb_options b = options -> tb_ok b' = true -> tb_offset b = u64 (lenz (tb_file b)) ->
  let raw := bb_buffer (bb_Finish block) in
  handle = mkHandle (tb_offset b) (stored_size raw) /\ same_rest b b'
  /\ tb_file b' = tb_file b ++ stored raw /\ tb_offset b' = u64 (lenz (tb_file b')).
Proof.
  unfold WriteBlock. intros Hw Eo Hok Ho. rewrite Eo in Hw. unfold stored, stored_size.
  destruct (compress_block snappy zstd (compression options) _) as [data type]. by apply WriteRawBlock_ok.
Qed.

Lemma filter_start_fields b :
  let b' := filter_start b in
  tb_options b' = tb_options b /\ tb_file b' = tb_file b /\ tb_offset b' = tb_offset b /\ tb_status b' = tb_status b
  /\ tb_data_block b' = tb_data_block b /\ tb_index_block b' = tb_index_block b /\ tb_last_key b' = tb_last_key b
  /\ pending_index_entry b' = pending_index_entry b /\ pending_handle b' = pending_handle b
  /\ tb_filter b' = (fun pf => (pf.1, StartBlock pf.1 (tb_offset b) pf.2)) <$> tb_filter b.
Proof.
  unfold filter_start. destruct (tb_filter b) as [[policy f]|] eqn:E; split_and!; try done; cbn; by rewrite E.
Qed.

(** A flush that succeeds adds the block, with its index entry pending. *)
Lemma Flush_inv es blocks cur idx b : BuildInv es blocks cur idx b -> pending_index_entry b = false -> tb_ok b = true ->
  cur <> [] -> tb_ok (tb_Flush accelerated align snappy zstd b) = true ->
  BuildInv es (blocks ++ [cur]) [] idx (tb_Flush accelerated align snappy zstd b)
  /\ pending_index_entry (tb_Flush accelerated align snappy zstd b) = true.
Proof.
  intros I Hp Hok Hcur. unfold tb_Flush. rewrite Hok. cbn [negb].
  rewrite decide_False by (by rewrite (ti_data _ _ _ _ _ I), build_nil).
  destruct (WriteBlock _ _ _ _ _ _) as [b1 handle] eqn:Ew.
  destruct (tb_ok b1) eqn:E1; [|intros Hf; exfalso].
  2: { change (tb_ok (b1 <| tb_data_block ::= bb_Reset |> <| pending_handle := handle |>)) with (tb_ok b1) in Hf.
       rewrite E1 in Hf. match type of Hf with tb_ok (filter_start ?x) = true =>
         destruct (filter_start_fields x) as (_ & _ & _ & Hs & _) end. unfold tb_ok in Hf. rewrite Hs in Hf.
       change (tb_ok b1 = true) in Hf. by rewrite E1 in Hf. }
  change (tb_ok (b1 <| tb_data_block ::= bb_Reset |> <| pending_handle := handle |>)) with (tb_ok b1). rewrite E1.
  destruct (file_flush _) as [a s].
  destruct (WriteBlock_ok _ _ _ _ Ew (ti_options _ _ _ _ _ I) E1 (ti_offset _ _ _ _ _ I)) as (-> & R & Hfile & Hoff). clear Ew E1.
  rewrite (ti_data _ _ _ _ _ I) in Hfile |- *. fold (block_text interval cur) in Hfile |- *.
  set (b2 := b1 <| tb_data_block ::= bb_Reset |> <| pending_handle := _ |> <| pending_index_entry := true |>
               <| tb_answers := a |> <| tb_status := s |>).
  destruct (filter_start_fields b2) as (F1 & F2 & F3 & F4 & F5 & F6 & F7 & F8 & F9 & F10).
  set (b3 := filter_start b2) in *. intros _. clearbody b3.
  assert (Hblocks : concat (stored_entries <$> (blocks ++ [cur])) = tb_file b1).
  { rewrite fmap_app, concat_app, Hfile, (ti_file _ _ _ _ _ I). simpl. by rewrite app_nil_r. }
  assert (Hpre : prefix_text blocks (length blocks) = tb_file b) by (by rewrite prefix_text_all, (ti_file _ _ _ _ _ I)).
  split; [split|].
  - rewrite concat_app, (ti_entries _ _ _ _ _ I). simpl. by rewrite !app_nil_r.
  - apply Forall_app. split; [apply I|]. by constructor.
  - rewrite F1. change (tb_options b2) with (tb_options b1). rewrite (sr_options _ _ R). apply I.
  - rewrite F2, Hblocks. done.
  - rewrite F3, F2. exact Hoff.
  - rewrite F5. reflexivity.
  - rewrite F6. change (tb_index_block b2) with (tb_index_block b1). rewrite (sr_index _ _ R). apply I.
  - rewrite F7. change (tb_last_key b2) with (tb_last_key b1). rewrite (sr_last _ _ R). apply I.
  - rewrite F10. change (tb_filter b2) with (tb_filter b1).
    change (tb_offset b2) with (tb_offset b1). rewrite (sr_filter _ _ R), (ti_filter _ _ _ _ _ I).
    destruct (filter_policy options) as [policy|]; [|done]. cbn [fmap option_fmap option_map fst snd]. do 2 f_equal.
    rewrite filter_calls_flush, foldl_app. cbn [foldl]. unfold add_block at 2. cbn [fst snd foldl]. f_equal.
    unfold block_offset. rewrite prefix_text_all, Hblocks, Hoff. done.
  - rewrite F8, length_app, (ti_length _ _ _ _ _ I), Hp. change (pending_index_entry b2) with true. simpl. lia.
  - intros _. split; [done|]. rewrite F9, length_app. simpl (length [cur]). rewrite Nat.add_sub. unfold handle_of.
    rewrite block_offset_app, list_lookup_middle by lia. unfold block_offset. rewrite Hpre, <- (ti_offset _ _ _ _ _ I). reflexivity.
  - rewrite F8. intros Hf. discriminate Hf.
  - intros i sep value Hi. destruct (ti_idx _ _ _ _ _ I i sep value Hi) as (-> & block & Hb & Hsep).
    pose proof (lookup_lt_Some _ _ _ Hb). rewrite handle_of_app by done. split; [done|]. exists block.
    split; [by apply lookup_app_l_Some|]. rewrite drop_app_le by lia. rewrite concat_app. simpl. by rewrite !app_nil_r.
  - rewrite F8. reflexivity.
Qed.

Lemma key_at_last es e : last es = Some e -> key_at es (length es - 1) = e.1.
Proof. rewrite last_lookup, Nat.sub_1_r. intros Hl. unfold key_at. by rewrite Hl. Qed.

Lemma separates_app sep block rest more : separates sep block rest -> rest <> [] -> separates sep block (rest ++ more).
Proof. intros (e & ?) Hr. exists e. by destruct rest. Qed.

Lemma rest_nonempty blocks (cur : entries) i : Forall (fun block => block <> []) blocks ->
  (S i < length blocks)%nat \/ cur <> [] -> concat (drop (S i) blocks) ++ cur <> [].
Proof.
  intros Hne Hi Hn. apply app_eq_nil in Hn as [Hn Hc]. destruct Hi as [Hi|]; [|done].
  destruct (lookup_lt_is_Some_2 _ _ Hi) as [x Hx]. rewrite (drop_S _ _ _ Hx) in Hn. simpl in Hn.
  apply app_eq_nil in Hn as [-> _]. by eapply (Forall_lookup_1 _ _ _ _ Hne).
Qed.

(** The block whose index entry is pending ends with the last key. *)
Lemma pending_block es blocks cur idx b : BuildInv es blocks cur idx b -> pending_index_entry b = true -> Forall good es.*1 ->
  exists block e, blocks !! (length blocks - 1)%nat = Some block /\ last block = Some e /\ last es = Some e
    /\ tb_last_key b = e.1 /\ good e.1.
Proof.
  intros I Ep Hgood. pose proof (ti_length _ _ _ _ _ I) as Hlen. rewrite Ep in Hlen. destruct (ti_pending _ _ _ _ _ I Ep) as [-> _].
  destruct (lookup_lt_is_Some_2 blocks (length blocks - 1)) as [block Hb]; [lia|].
  pose proof (Forall_lookup_1 _ _ _ _ (ti_nonempty _ _ _ _ _ I) Hb) as Hne.
  destruct (last block) as [e|] eqn:El; [|by apply last_None in El].
  assert (Hes : last es = Some e).
  { rewrite (ti_entries _ _ _ _ _ I), app_nil_r. rewrite <- (take_drop_middle _ _ _ Hb), drop_ge by lia.
    rewrite concat_app. simpl. by rewrite app_nil_r, last_app, El. }
  exists block, e. split_and!; [done..| |].
  - by rewrite (ti_last _ _ _ _ _ I), (key_at_last _ _ Hes).
  - eapply Forall_forall; [exact Hgood|]. by apply list_elem_of_fmap_2, last_Some_elem_of.
Qed.

(** The index entries after the next entry of the table. *)
Lemma index_add es blocks cur idx b key value : BuildInv es blocks cur idx b ->
  Forall good es.*1 -> good key -> (forall e, last es = Some e -> compare_ e.1 key = Lt) ->
  index_entries_ok blocks (cur ++ [(key, value)])
    (if pending_index_entry b then idx ++ [(find_separator (tb_last_key b) key, handle_EncodeTo (pending_handle b) [])] else idx).
Proof.
  intros I Hgood Hkey Hlt. pose proof (ti_length _ _ _ _ _ I) as Hlen.
  assert (Hold : forall i sep v, idx !! i = Some (sep, v) -> v = handle_EncodeTo (handle_of blocks i) []
    /\ exists block, blocks !! i = Some block /\ separates sep block (concat (drop (S i) blocks) ++ cur ++ [(key, value)])).
  { intros i sep v Hi. destruct (ti_idx _ _ _ _ _ I i sep v Hi) as (-> & block & Hb & Hs). split; [done|].
    exists block. split; [done|]. rewrite app_assoc. apply separates_app; [done|].
    apply rest_nonempty; [apply I|]. apply lookup_lt_Some in Hi. destruct (pending_index_entry b) eqn:Ep; [left; lia|].
    right. intros ->. rewrite (ti_cur _ _ _ _ _ I Ep eq_refl) in Hb. done. }
  destruct (pending_index_entry b) eqn:Ep; [|exact Hold]. destruct (ti_pending _ _ _ _ _ I Ep) as [-> Hh].
  intros i sep v Hi. apply lookup_app_Some in Hi as [Hi|[Hge Hi]]; [by apply Hold|].
  apply list_lookup_singleton_Some in Hi as [Hi E]. injection E as <- <-. replace i with (length blocks - 1)%nat by lia.
  split; [by rewrite Hh|]. destruct (pending_block _ _ _ _ _ I Ep Hgood) as (block & e & Hb & El & Hes & -> & Hge').
  exists block. split; [done|]. exists e. split; [done|].
  specialize (Hlt e Hes). rewrite drop_ge by lia. cbn [concat app fst].
  split_and!; [by apply sep_lower|by apply sep_length|by apply sep_upper|]. intros k Hk Hek Hks. by apply (sep_gap e.1 key k).
Qed.

(** An entry is added, and the block is flushed if it is large. *)
Lemma tb_Add_inv es blocks cur idx b key value : BuildInv es blocks cur idx b -> tb_ok b = true ->
  Forall good es.*1 -> good key -> (forall e, last es = Some e -> compare_ e.1 key = Lt) ->
  tb_ok (tb_Add accelerated align snappy zstd key value b) = true ->
  exists blocks' cur' idx', BuildInv (es ++ [(key, value)]) blocks' cur' idx' (tb_Add accelerated align snappy zstd key value b).
Proof.
  intros I Hok Hgood Hkey Hlt. unfold tb_Add. rewrite Hok. cbn [negb].
  set (b0 := if pending_index_entry b then _ else b).
  set (b1 := b0 <| tb_filter ::= fmap (prod_map id (AddKey key)) |>).
  set (b2 := b1 <| tb_last_key := key |> <| tb_num_entries ::= Z.add 1 |>
               <| tb_data_block ::= bb_Add (block_restart_interval (tb_options b1)) key value |>).
  set (idx' := if pending_index_entry b then idx ++ [(find_separator (tb_last_key b) key, handle_EncodeTo (pending_handle b) [])] else idx).
  assert (Hb0 : tb_options b0 = tb_options b /\ tb_file b0 = tb_file b /\ tb_offset b0 = tb_offset b /\ tb_status b0 = tb_status b
    /\ tb_data_block b0 = tb_data_block b /\ tb_filter b0 = tb_filter b /\ pending_index_entry b0 = false
    /\ tb_index_block b0 = build_block 1 idx').
  { unfold b0, idx'. pose proof (ti_index _ _ _ _ _ I) as Hi. destruct (pending_index_entry b) eqn:Ep; [|done].
    split_and!; [reflexivity..|]. rewrite build_snoc, <- Hi. reflexivity. }
  destruct Hb0 as (E1 & E2 & E3 & E4 & E5 & E6 & E7 & E8).
  assert (I2 : BuildInv (es ++ [(key, value)]) blocks (cur ++ [(key, value)]) idx' b2 /\ pending_index_entry b2 = false
    /\ tb_ok b2 = true).
  { split; [split|split].
    - by rewrite (ti_entries _ _ _ _ _ I), app_assoc.
    - apply I.
    - change (tb_options b2) with (tb_options b0). rewrite E1. apply I.
    - change (tb_file b2) with (tb_file b0). rewrite E2. apply I.
    - change (tb_offset b2) with (tb_offset b0). change (tb_file b2) with (tb_file b0). rewrite E2, E3. apply I.
    - change (tb_data_block b2) with (bb_Add (block_restart_interval (tb_options b0)) key value (tb_data_block b0)).
      by rewrite E1, E5, (ti_options _ _ _ _ _ I), (ti_data _ _ _ _ _ I), build_snoc.
    - change (tb_index_block b2) with (tb_index_block b0). exact E8.
    - change (tb_last_key b2) with key. erewrite key_at_last; [|apply last_snoc]. done.
    - change (tb_filter b2) with (prod_map id (AddKey key) <$> tb_filter b0). rewrite E6, (ti_filter _ _ _ _ _ I).
      destruct (filter_policy options); [|done]. cbn [fmap option_fmap option_map prod_map id fst snd]. by rewrite filter_calls_add.
    - change (pending_index_entry b2) with (pending_index_entry b0). rewrite E7, (ti_length _ _ _ _ _ I). unfold idx'.
      destruct (pending_index_entry b); [rewrite length_app; simpl|]; lia.
    - change (pending_index_entry b2) with (pending_index_entry b0). by rewrite E7.
    - intros _ Hn. by destruct cur.
    - by apply index_add with (1 := I).
    - exact E7.
    - change (tb_ok b2) with (status_ok (tb_status b0)). by rewrite E4. }
  destruct I2 as (I2 & Hp2 & Hok2). clearbody b2. destruct (_ <=? _).
  - intros Hf. exists (blocks ++ [cur ++ [(key, value)]]), [], idx'. apply Flush_inv; [done..|by destruct cur|done].
  - intros _. by exists blocks, (cur ++ [(key, value)]), idx'.
Qed.

(** An error is kept. *)
Lemma Flush_error b : tb_ok b = false -> tb_ok (tb_Flush accelerated align snappy zstd b) = false.
Proof. intros Hb. unfold tb_Flush. by rewrite Hb. Qed.

Lemma Add_error key value b : tb_ok b = false -> tb_ok (tb_Add accelerated align snappy zstd key value b) = false.
Proof. intros Hb. unfold tb_Add. by rewrite Hb. Qed.

Definition add_all_entries (es : entries) (b : TableBuilder) : TableBuilder :=
  foldl (fun b e => tb_Add accelerated align snappy zstd e.1 e.2 b) b es.

Lemma adds_error es b : tb_ok b = false -> tb_ok (add_all_entries es b) = false.
Proof.
  revert b. induction es as [|e es IH]; intros b Hb; [done|]. simpl. apply IH. by apply Add_error.
Qed.

Lemma new_inv answers : BuildInv [] [] [] [] (new_TableBuilder options answers).
Proof.
  unfold new_TableBuilder. match goal with |- context [filter_start ?x] => set (b := x) end.
  destruct (filter_start_fields b) as (F1 & F2 & F3 & F4 & F5 & F6 & F7 & F8 & F9 & F10). set (b' := filter_start b) in *. clearbody b'.
  split; rewrite ?F1, ?F2, ?F3, ?F5, ?F6, ?F7, ?F8, ?F9, ?F10; try done.
  unfold b. simpl. by destruct (filter_policy options).
Qed.

Lemma adds_inv es answers : Forall good es.*1 -> StronglySorted key_lt es.*1 ->
  tb_ok (add_all_entries es (new_TableBuilder options answers)) = true ->
  exists blocks cur idx, BuildInv es blocks cur idx (add_all_entries es (new_TableBuilder options answers)).
Proof.
  induction es as [|[key value] es IH] using rev_ind; intros Hg Hs Hok; [by exists [], [], []; apply new_inv|].
  unfold add_all_entries in *. rewrite foldl_app in *. cbn [foldl fst snd] in *. fold (add_all_entries es (new_TableBuilder options answers)) in *.
  rewrite fmap_app in Hg, Hs. apply Forall_app in Hg as [Hg Hk]. apply Forall_cons in Hk as [Hk _].
  destruct (tb_ok (add_all_entries es (new_TableBuilder options answers))) eqn:E; [|by rewrite Add_error in Hok].
  destruct IH as (blocks & cur & idx & I); [done|by eapply StronglySorted_app_1_l|done|].
  eapply tb_Add_inv; [done..| |done]. intros e He. eapply (StronglySorted_app_1_elem_of key_lt); [done| |by apply list_elem_of_singleton].
  apply list_elem_of_fmap_2. by apply last_Some_elem_of.
Qed.

(** ** The finished file *)

Definition data_text (blocks : list entries) : text := concat (stored_entries <$> blocks).

Definition filter_raw (policy : FilterPolicy) (blocks : list entries) : text := filter_block policy (filter_calls blocks []).
Definition filter_text (blocks : list entries) : text :=
  match filter_policy options with
  | Some policy => filter_raw policy blocks ++ block_trailer accelerated align (filter_raw policy blocks) kNoCompression
  | None => []
  end.
Definition filter_handle (blocks : list entries) : BlockHandle :=
  match filter_policy options with
  | Some policy => mkHandle (u64 (lenz (data_text blocks))) (lenz (filter_raw policy blocks))
  | None => new_BlockHandle
  end.

Definition meta_entries (blocks : list entries) : entries :=
  match filter_policy options with
  | Some policy => [(filter_key policy, handle_EncodeTo (filter_handle blocks) [])]
  | None => []
  end.
Definition meta_text (blocks : list entries) : text := stored_entries (meta_entries blocks).
Definition meta_handle (blocks : list entries) : BlockHandle :=
  mkHandle (u64 (lenz (data_text blocks ++ filter_text blocks))) (stored_size (block_text interval (meta_entries blocks))).

Definition index_text (idx : list (text * text)) : text := stored (block_text 1 idx).
Definition index_handle (blocks : list entries) (idx : list (text * text)) : BlockHandle :=
  mkHandle (u64 (lenz ((data_text blocks ++ filter_text blocks) ++ meta_text blocks))) (stored_size (block_text 1 idx)).

Definition footer_text (blocks : list entries) (idx : list (text * text)) : text :=
  footer_EncodeTo (mkFooter (meta_handle blocks) (index_handle blocks idx)) [].

Definition table_text (blocks : list entries) (idx : list (text * text)) : text :=
  (((data_text blocks ++ filter_text blocks) ++ meta_text blocks) ++ index_text idx) ++ footer_text blocks idx.

(** How a finished table is cut into blocks *)
Record Layout (es : entries) (blocks : list entries) (idx : list (text * text)) : Prop := {
  lay_entries : es = concat blocks;
  lay_nonempty : Forall (fun block => block <> []) blocks;
  lay_length : length idx = length blocks;
  lay_idx : index_entries_ok blocks [] idx
}.

(** The last flush *)
Lemma final_flush es blocks cur idx b : BuildInv es blocks cur idx b -> tb_ok b = true ->
  tb_ok (tb_Flush accelerated align snappy zstd b) = true ->
  exists blocks', BuildInv es blocks' [] idx (tb_Flush accelerated align snappy zstd b).
Proof.
  intros I Hok Hf. destruct (decide (cur = [])) as [->|Hc].
  - exists blocks. unfold tb_Flush. rewrite Hok, (ti_data _ _ _ _ _ I). cbn [negb]. rewrite decide_True by done. done.
  - destruct (pending_index_entry b) eqn:Ep; [by destruct (ti_pending _ _ _ _ _ I Ep)|].
    exists (blocks ++ [cur]). by apply Flush_inv.
Qed.

Lemma index_final es blocks idx b : BuildInv es blocks [] idx b -> Forall good es.*1 ->
  Layout es blocks (if pending_index_entry b
                    then idx ++ [(find_successor (tb_last_key b), handle_EncodeTo (pending_handle b) [])] else idx).
Proof.
  intros I Hgood. pose proof (ti_length _ _ _ _ _ I) as Hlen. split.
  - by rewrite (ti_entries _ _ _ _ _ I), app_nil_r.
  - apply I.
  - destruct (pending_index_entry b); [rewrite length_app; simpl|]; lia.
  - destruct (pending_index_entry b) eqn:Ep; [|apply I]. destruct (ti_pending _ _ _ _ _ I Ep) as [_ Hh].
    intros i sep v Hi. apply lookup_app_Some in Hi as [Hi|[Hge Hi]]; [by apply (ti_idx _ _ _ _ _ I)|].
    apply list_lookup_singleton_Some in Hi as [Hi E]. injection E as <- <-. replace i with (length blocks - 1)%nat by lia.
    split; [by rewrite Hh|]. destruct (pending_block _ _ _ _ _ I Ep Hgood) as (block & e & Hb & El & _ & -> & Hge').
    exists block. split; [done|]. exists e. split; [done|].
    rewrite drop_ge by lia. cbn [concat app]. split_and!; [by apply succ_lower|by apply succ_length|done].
Qed.

(** The blocks after the data blocks *)
Lemma write_filter_ok es blocks idx b b' h : BuildInv es blocks [] idx b -> tb_ok b = true -> write_filter accelerated align b = (b', h) ->
  tb_ok b' = true ->
  h = filter_handle blocks /\ same_rest b b' /\ tb_file b' = data_text blocks ++ filter_text blocks
  /\ tb_offset b' = u64 (lenz (tb_file b')).
Proof.
  intros I Hok Hw Hok'. unfold write_filter in Hw. rewrite (ti_filter _ _ _ _ _ I), Hok in Hw.
  unfold filter_handle, filter_text. destruct (filter_policy options) as [policy|]; cbn [fmap option_fmap option_map] in Hw.
  - apply WriteRawBlock_ok in Hw as (-> & R & -> & Ho); [|done|apply I].
    rewrite (ti_offset _ _ _ _ _ I), (ti_file _ _ _ _ _ I). split_and!; [reflexivity|exact R|reflexivity|].
    rewrite Ho. by rewrite (ti_file _ _ _ _ _ I).
  - injection Hw as <- <-. rewrite app_nil_r. split_and!; [done|done|apply I|apply I].
Qed.

Lemma write_error b h : tb_ok b = false ->
  (write_filter accelerated align b).1 = b /\ (write_metaindex accelerated align snappy zstd h b).1 = b
  /\ (write_index accelerated align snappy zstd b).1 = b /\ forall m i, write_footer m i b = b.
Proof.
  intros Hb. unfold write_filter, write_metaindex, write_index, write_footer. rewrite Hb. split_and!; [|done..].
  by destruct (tb_filter b) as [[policy f]|].
Qed.

Lemma Finish_error b : tb_ok b = false -> status_ok (tb_Finish accelerated align snappy zstd b).2 = false.
Proof.
  intros Hb. unfold tb_Finish, tb_Flush. rewrite Hb. cbn [negb]. set (b0 := b <| tb_closed := true |>).
  change (tb_ok b0 = false) in Hb. clearbody b0.
  destruct (write_filter accelerated align b0) as [b1 fh] eqn:E1. pose proof (write_error b0 fh Hb) as (W1 & W2 & W3 & W4).
  rewrite E1 in W1. cbn [fst] in W1. subst b1.
  destruct (write_metaindex accelerated align snappy zstd fh b0) as [b2 mh]. cbn [fst] in W2. subst b2.
  destruct (write_index accelerated align snappy zstd b0) as [b3 ih]. cbn [fst] in W3. subst b3. rewrite W4. exact Hb.
Qed.

Lemma write_metaindex_ok es blocks idx b0 b b' h : BuildInv es blocks [] idx b0 -> same_rest b0 b -> tb_ok b = true ->
  tb_file b = data_text blocks ++ filter_text blocks -> tb_offset b = u64 (lenz (tb_file b)) ->
  write_metaindex accelerated align snappy zstd (filter_handle blocks) b = (b', h) -> tb_ok b' = true ->
  h = meta_handle blocks /\ same_rest b b' /\ tb_file b' = (data_text blocks ++ filter_text blocks) ++ meta_text blocks
  /\ tb_offset b' = u64 (lenz (tb_file b')).
Proof.
  intros I R Hok Hf Ho Hw Hok'. unfold write_metaindex in Hw.
  rewrite Hok, (sr_options _ _ R), (sr_filter _ _ R), (ti_options _ _ _ _ _ I), (ti_filter _ _ _ _ _ I) in Hw.
  match type of Hw with WriteBlock _ _ _ _ ?x _ = _ => assert (Em : x = build_block interval (meta_entries blocks))
    by (unfold meta_entries; by destruct (filter_policy options)); rewrite Em in Hw; clear Em end.
  apply WriteBlock_ok in Hw as (-> & R2 & F2 & O2); [|rewrite (sr_options _ _ R); apply I|done..].
  fold (block_text interval (meta_entries blocks)) in *. rewrite Ho, Hf in *. by split_and!.
Qed.

Lemma write_index_ok es blocks idx b0 b b' h : BuildInv es blocks [] idx b0 -> same_rest b0 b -> tb_ok b = true ->
  tb_file b = (data_text blocks ++ filter_text blocks) ++ meta_text blocks -> tb_offset b = u64 (lenz (tb_file b)) ->
  let idx' := if pending_index_entry b0
              then idx ++ [(find_successor (tb_last_key b0), handle_EncodeTo (pending_handle b0) [])] else idx in
  write_index accelerated align snappy zstd b = (b', h) -> tb_ok b' = true ->
  h = index_handle blocks idx'
  /\ tb_file b' = ((data_text blocks ++ filter_text blocks) ++ meta_text blocks) ++ index_text idx'.
Proof.
  intros I R Hok Hf Ho idx' Hw Hok'. unfold write_index in Hw. rewrite Hok in Hw.
  set (b2 := if pending_index_entry b then _ else b) in Hw.
  assert (Hb2 : tb_index_block b2 = build_block 1 idx' /\ tb_options b2 = options /\ tb_file b2 = tb_file b /\ tb_offset b2 = tb_offset b).
  { unfold b2, idx'. rewrite (sr_pending _ _ R). pose proof (sr_index _ _ R) as Ei. rewrite (ti_index _ _ _ _ _ I) in Ei.
    pose proof (sr_options _ _ R) as Eo. rewrite (ti_options _ _ _ _ _ I) in Eo.
    destruct (pending_index_entry b0); [|done]. split_and!; [|exact Eo|reflexivity..].
    rewrite build_snoc, <- Ei, <- (sr_last _ _ R), <- (sr_handle _ _ R). reflexivity. }
  destruct Hb2 as (Ei & Eo & Ef & Eoff). clearbody b2. destruct (WriteBlock _ _ _ _ _ b2) as [b4 h'] eqn:E4. injection Hw as <- <-.
  change (tb_ok b4 = true) in Hok'. apply WriteBlock_ok in E4 as (-> & _ & F4 & _); [|done..|by rewrite Eoff, Ef].
  rewrite Ei, Ef, Hf in F4. rewrite Ei, Eoff, Ho, Hf. split; [reflexivity|exact F4].
Qed.

Lemma write_footer_ok m i b : tb_ok (write_footer m i b) = true ->
  tb_file (write_footer m i b) = tb_file b ++ footer_EncodeTo (mkFooter m i) [].
Proof.
  unfold write_footer. remember (footer_EncodeTo (mkFooter m i) []) as footer eqn:Ef. clear Ef.
  destruct (tb_ok b) eqn:Eb; [|by rewrite Eb].
  destruct (tb_ok (tb_append footer b)) eqn:E; [|by rewrite E]. intros _. apply append_ok in E. exact E.
Qed.

(** A file that was finished without an error is complete. *)
Lemma Finish_ok es blocks cur idx b b' s : BuildInv es blocks cur idx b -> Forall good es.*1 ->
  tb_Finish accelerated align snappy zstd b = (b', s) -> status_ok s = true ->
  exists blocks' idx', Layout es blocks' idx' /\ tb_file b' = table_text blocks' idx'.
Proof.
  intros I Hgood. unfold tb_Finish. set (b0 := (tb_Flush _ _ _ _ b) <| tb_closed := true |>).
  destruct (write_filter _ _ b0) as [b1 fh] eqn:E1. destruct (write_metaindex _ _ _ _ fh b1) as [b2 mh] eqn:E2.
  destruct (write_index _ _ _ _ b2) as [b3 ih] eqn:E3. intros Hf Hs. injection Hf as <- <-.
  change (tb_ok (write_footer mh ih b3) = true) in Hs.
  assert (H3 : tb_ok b3 = true).
  { destruct (tb_ok b3) eqn:E; [done|]. destruct (write_error b3 fh E) as (_ & _ & _ & Hw). by rewrite Hw, E in Hs. }
  assert (H2 : tb_ok b2 = true).
  { destruct (tb_ok b2) eqn:E; [done|]. destruct (write_error b2 fh E) as (_ & _ & Hw & _). rewrite E3 in Hw. cbn in Hw. by rewrite Hw, E in H3. }
  assert (H1 : tb_ok b1 = true).
  { destruct (tb_ok b1) eqn:E; [done|]. destruct (write_error b1 fh E) as (_ & Hw & _). rewrite E2 in Hw. cbn in Hw. by rewrite Hw, E in H2. }
  assert (H0' : tb_ok b0 = true).
  { destruct (tb_ok b0) eqn:E; [done|]. destruct (write_error b0 fh E) as (Hw & _). rewrite E1 in Hw. cbn in Hw. by rewrite Hw, E in H1. }
  change (tb_ok b0) with (tb_ok (tb_Flush accelerated align snappy zstd b)) in H0'.
  assert (Hb : tb_ok b = true) by (destruct (tb_ok b) eqn:E; [done|by rewrite (Flush_error b E) in H0']).
  destruct (final_flush _ _ _ _ _ I Hb H0') as [blocks' I'].
  assert (I0 : BuildInv es blocks' [] idx b0) by (by destruct I'; split). change (tb_ok b0 = true) in H0'. clearbody b0.
  destruct (write_filter_ok _ _ _ _ _ _ I0 H0' E1 H1) as (-> & R1 & F1 & O1).
  destruct (write_metaindex_ok _ _ _ _ _ _ _ I0 R1 H1 F1 O1 E2 H2) as (-> & R2 & F2 & O2).
  destruct (write_index_ok _ _ _ _ _ _ _ I0 (transitivity R1 R2) H2 F2 O2 E3 H3) as (-> & F3).
  eexists blocks', _. split; [by apply index_final|]. rewrite write_footer_ok, F3 by done. reflexivity.
Qed.

End build.
