(* ===== verification/TwoLevel.v ===== *)
(** * TwoLevel: an iterator over the blocks of an index

    [src/leveldb/table/two_level_iterator.cc]: an index iterator gives the handles of
    blocks, a function makes an iterator from a handle, and the two together run over the
    entries of all blocks.  [IteratorWrapper] remembers what [Valid] and [key] return and is
    not modelled separately.  The function may use a state, the block cache. *)

From S2P Require Import Prelude Text Coding Status SkipList Block Format FilterBlock TableFile.

Section two_level.
Context `{Comparator text}.
Context {St : Type} (block_function : text -> St -> NewIter * St).

Record TwoLevelIterator := mkTwoLevel {
  tl_status : Status;
  tl_index : NewIter;
  tl_data : option NewIter;
  data_block_handle : text;
  tl_state : St
}.

#[local] Instance eta_TwoLevel : Eta TwoLevelIterator := fun t =>
  mkTwoLevel (tl_status t) (tl_index t) (tl_data t) (data_block_handle t) (tl_state t).

Definition NewTwoLevelIterator (index_iter : NewIter) (s : St) : TwoLevelIterator :=
  mkTwoLevel status_OK index_iter None [] s.

Definition data_Valid (t : TwoLevelIterator) : bool := match tl_data t with Some d => ni_Valid d | None => false end.
Definition tl_Valid : TwoLevelIterator -> bool := data_Valid.
Definition tl_key (t : TwoLevelIterator) : text := match tl_data t with Some d => ni_key d | None => [] end.
Definition tl_value (t : TwoLevelIterator) : text := match tl_data t with Some d => ni_value d | None => [] end.

Definition two_level_status (t : TwoLevelIterator) : Status :=
  if negb (status_ok (ni_status (tl_index t))) then ni_status (tl_index t)
  else match tl_data t with
       | Some d => if negb (status_ok (ni_status d)) then ni_status d else tl_status t
       | None => tl_status t
       end.

Definition SaveError (s : Status) (t : TwoLevelIterator) : TwoLevelIterator :=
  if status_ok (tl_status t) && negb (status_ok s) then t <| tl_status := s |> else t.

Definition SetDataIterator (data_iter : option NewIter) (t : TwoLevelIterator) : TwoLevelIterator :=
  let t := match tl_data t with Some d => SaveError (ni_status d) t | None => t end in
  t <| tl_data := data_iter |>.

Definition InitDataBlock (t : TwoLevelIterator) : TwoLevelIterator :=
  if negb (ni_Valid (tl_index t)) then SetDataIterator None t
  else
    let handle := ni_value (tl_index t) in
    if bool_decide (tl_data t <> None) && bool_decide (handle = data_block_handle t) then t
    else
      let '(iter, s) := block_function handle (tl_state t) in
      SetDataIterator (Some iter) (t <| tl_state := s |> <| data_block_handle := handle |>).

(** An operation of the data iterator, if there is one. *)
Definition on_data (f : NewIter -> option NewIter) (t : TwoLevelIterator) : option TwoLevelIterator :=
  match tl_data t with
  | Some d => d ← f d; Some (t <| tl_data := Some d |>)
  | None => Some t
  end.

Definition on_index (f : NewIter -> option NewIter) (t : TwoLevelIterator) : option TwoLevelIterator :=
  i ← f (tl_index t); Some (t <| tl_index := i |>).

(** [SkipEmptyDataBlocksForward] and [Backward]: moves of the index and in the data. *)
Fixpoint skip_loop (fuel : nat) (index_move data_seek : NewIter -> option NewIter) (t : TwoLevelIterator)
    : option TwoLevelIterator :=
  match fuel with
  | O => None
  | S fuel =>
    if data_Valid t then Some t
    else if negb (ni_Valid (tl_index t)) then Some (SetDataIterator None t)
    else
      t ← on_index index_move t;
      t ← on_data data_seek (InitDataBlock t);
      skip_loop fuel index_move data_seek t
  end.

(** Every round moves the index. *)
Definition skip_fuel (t : TwoLevelIterator) : nat :=
  match tl_index t with EntryIterator it => 3 + length (it_data it) | _ => 1 end.

Definition SkipEmptyDataBlocksForward (t : TwoLevelIterator) : option TwoLevelIterator :=
  skip_loop (skip_fuel t) (ni_lift it_Next) (ni_lift it_SeekToFirst) t.
Definition SkipEmptyDataBlocksBackward (t : TwoLevelIterator) : option TwoLevelIterator :=
  skip_loop (skip_fuel t) (ni_lift it_Prev) (ni_lift it_SeekToLast) t.

Definition tl_Seek (target : text) (t : TwoLevelIterator) : option TwoLevelIterator :=
  t ← on_index (ni_Seek target) t;
  t ← on_data (ni_Seek target) (InitDataBlock t);
  SkipEmptyDataBlocksForward t.

Definition tl_SeekToFirst (t : TwoLevelIterator) : option TwoLevelIterator :=
  t ← on_index (ni_lift it_SeekToFirst) t;
  t ← on_data (ni_lift it_SeekToFirst) (InitDataBlock t);
  SkipEmptyDataBlocksForward t.

Definition tl_SeekToLast (t : TwoLevelIterator) : option TwoLevelIterator :=
  t ← on_index (ni_lift it_SeekToLast) t;
  t ← on_data (ni_lift it_SeekToLast) (InitDataBlock t);
  SkipEmptyDataBlocksBackward t.

Definition tl_Next (t : TwoLevelIterator) : option TwoLevelIterator :=
  t ← on_data (ni_lift it_Next) t; SkipEmptyDataBlocksForward t.

Definition tl_Prev (t : TwoLevelIterator) : option TwoLevelIterator :=
  t ← on_data (ni_lift it_Prev) t; SkipEmptyDataBlocksBackward t.

(** The moves of a cursor on the iterator *)
Definition tl_step (op : CursorOp) (t : TwoLevelIterator) : option TwoLevelIterator :=
  match op with
  | SeekFirst => tl_SeekToFirst t
  | SeekLast => tl_SeekToLast t
  | SeekKey target => tl_Seek target t
  | Forward => tl_Next t
  | Backward => tl_Prev t
  end.

Definition tl_run (ops : list CursorOp) (t : TwoLevelIterator) : option TwoLevelIterator :=
  foldl (fun t op => t ≫= tl_step op) (Some t) ops.

End two_level.

(** [Table::NewIterator] *)
Definition table_NewIterator {C} (t : Table) (cache : option C) : TwoLevelIterator :=
  NewTwoLevelIterator (NewIterator (t_index t)) cache.
