(* ===== verification/TableLookup.v ===== *)
(** * TableLookup: a finished table gives back its entries

    The theorems about [TableFile] and [TwoLevel]: what [TableBuilder] wrote, [Table::Open]
    opens, [Table::InternalGet] searches and the iterator of [Table::NewIterator] runs
    over, with any comparator, filter policy, compression and block cache that keep their
    promises. *)

From S2P Require Import Prelude Text Coding Status Crc LogFile Dbformat SkipList Block Format FilterBlock TableFile TwoLevel.

(** ** Lists *)

Lemma sorted_of_lookup {A} (R : A -> A -> Prop) (l : list A) :
  (forall i j x y, (i < j)%nat -> l !! i = Some x -> l !! j = Some y -> R x y) -> StronglySorted R l.
Proof.
  induction l as [|a l IH]; intros HR; constructor.
  - apply IH. intros i j x y Hij Hx Hy. apply (HR (S i) (S j)); [lia|done..].
  - apply Forall_forall. intros y Hy. apply list_elem_of_lookup in Hy as [j Hj]. apply (HR O (S j)); [lia|done..].
Qed.

Lemma cost_elem e es : e ∈ es -> entry_cost e <= cost es.
Proof.
  intros He. apply list_elem_of_split in He as (l1 & l2 & ->). rewrite cost_app. simpl.
  pose proof (cost_nonneg l1). pose proof (cost_nonneg l2). lia.
Qed.

Lemma cost_length es : 19 * lenz es <= cost es.
Proof.
  unfold lenz. induction es as [|e es IH]; simpl; [done|]. unfold entry_cost. pose proof (lenz_nonneg e.1). pose proof (lenz_nonneg e.2). lia.
Qed.

Lemma cost_concat (blocks : list (list (text * text))) block : block ∈ blocks -> cost block <= cost (concat blocks).
Proof.
  intros Hb. apply list_elem_of_split in Hb as (l1 & l2 & ->). rewrite concat_app. simpl. rewrite !cost_app.
  pose proof (cost_nonneg (concat l1)). pose proof (cost_nonneg (concat l2)). lia.
Qed.

Lemma fixed64_inj a b : is_u64 a -> is_u64 b -> EncodeFixed64 a = EncodeFixed64 b -> a = b.
Proof.
  intros Ha Hb E. pose proof (decode_fixed64 a [] Ha) as Da. pose proof (decode_fixed64 b [] Hb) as Db.
  rewrite E, Db in Da. by injection Da.
Qed.

Lemma u64_range x : is_u64 (u64 x).
Proof. unfold is_u64, u64. apply Z.mod_pos_bound. lia. Qed.

(** A seek in a block that was built *)
Lemma seek_block `{ComparatorLaws text} interval es target : 1 <= interval -> StronglySorted key_lt es.*1 ->
  CurrentSizeEstimate (build_block interval es) < 2 ^ 32 ->
  exists it, ni_Seek target (NewIterator (new_Block (block_text interval es))) = Some (EntryIterator it)
    /\ it_status it = status_OK /\ it_Valid it = bool_decide (lower_bound target es < length es)%nat
    /\ forall key value, es !! lower_bound target es = Some (key, value) -> it_key it = key /\ value_text it = value.
Proof.
  intros Hi Hs Hsize. rewrite <- (Z2Nat.id interval) in * by lia. assert (1 <= Z.to_nat interval)%nat as Hk by lia.
  destruct (new_iterator (Z.to_nat interval) es Hk Hsize) as (it0 & -> & P0).
  destruct (iter_step_at (Z.to_nat interval) es Hk Hsize Hs (SeekKey target) _ _ it0 P0 eq_refl) as (it & E & P).
  exists it. split; [|by apply (position_view (Z.to_nat interval) es Hk Hsize)].
  change (iter_step (SeekKey target) it0) with (it_Seek target it0) in E. unfold ni_Seek, ni_lift. by rewrite E.
Qed.

(** ** Sequences of lookups *)

Section gets.
Context `{Comparator text} `{!Separators}.
Context (accelerated : Z -> text -> Z) (align : nat) (snappy zstd : Codec).
Context {C : Type} `{BlockCache C}.

(** Lookups one after the other, with their read options. *)
Fixpoint table_gets (t : Table) (ks : list (bool * bool * text)) (cache : option C)
    : option (list (option (text * text) * Status)) :=
  match ks with
  | [] => Some []
  | (verify_checksums, fill_cache, k) :: ks =>
    '(r, s, cache) ← InternalGet accelerated align snappy zstd t verify_checksums fill_cache k cache;
    rs ← table_gets t ks cache;
    Some ((r, s) :: rs)
  end.

Definition build_table (options : TableOptions) (answers : list Answer) (es : list (text * text)) : TableBuilder * Status :=
  tb_Finish accelerated align snappy zstd
    (add_all_entries accelerated align snappy zstd es (new_TableBuilder options answers)).

(** A cache that holds nothing under the number of the table. *)
Definition cache_without `{!BlockCacheLaws C} (cache_id : Z) (cache : option C) : Prop :=
  match cache with
  | None => True
  | Some c => forall offset b, ~ cache_holds c (EncodeFixed64 cache_id ++ EncodeFixed64 offset) b
  end.

End gets.

Section lookup.
Context `{Comparator text} `{!ComparatorLaws text} `{!Separators} {good matches} `{!SeparatorsLaws good matches}.
Context (accelerated : Z -> text -> Z) (align : nat) (snappy zstd : Codec) (options : TableOptions).
Context (Haccelerated : accelerator_ok accelerated) (Hsnappy : codec_ok snappy) (Hzstd : codec_ok zstd).
Context (Hinterval : 1 <= block_restart_interval options).
Context (Hpolicy : forall policy, filter_policy options = Some policy -> policy_ok matches policy /\ lenz (Name policy) < 2 ^ 30).
Context (es : list (text * text)) (Hsorted : StronglySorted key_lt es.*1) (Hcost : cost es < 2 ^ 30).
Context (blocks : list (list (text * text))) (idx : list (text * text)).
Context (Lay : Layout (good := good) (matches := matches) accelerated align snappy zstd options es blocks idx).

Abbreviation F := (table_text accelerated align snappy zstd options blocks idx).
Abbreviation interval := (block_restart_interval options).
Abbreviation handle i := (handle_of accelerated align snappy zstd options blocks i).
Abbreviation stored_ raw := (stored accelerated align snappy zstd options raw).

Context (HF : lenz F < 2 ^ 32).
Context (file : RandomAccessFile) (Hfile : reads_file file F).

(** ** Sizes *)

Lemma entries_blocks : es = concat blocks.
Proof. apply Lay. Qed.

Lemma block_fits i block : blocks !! i = Some block -> CurrentSizeEstimate (build_block interval block) < 2 ^ 32.
Proof.
  intros Hi. pose proof (build_cost interval block). pose proof (cost_concat blocks block ltac:(by eapply list_elem_of_lookup_2)).
  rewrite <- entries_blocks in *. lia.
Qed.

Lemma block_text_size i es' : 1 <= i -> CurrentSizeEstimate (build_block i es') < 2 ^ 32 -> lenz (block_text i es') < 2 ^ 32.
Proof.
  intros Hi Hs. rewrite <- (Z2Nat.id i) in * by lia. rewrite contents_length by (done || lia). rewrite size_estimate in Hs by (done || lia). lia.
Qed.

Lemma stored_split raw : exists data type, compress_block snappy zstd (compression options) raw = (data, type)
  /\ stored_ raw = data ++ block_trailer accelerated align data type
  /\ stored_size snappy zstd options raw = lenz data.
Proof. unfold stored, stored_size. destruct (compress_block _ _ _ _) as [data type]. by exists data, type. Qed.

(** A block written as part of the file is read from it. *)
Lemma read_stored pre raw post verify : F = pre ++ stored_ raw ++ post -> lenz raw < 2 ^ 32 ->
  let h := mkHandle (u64 (lenz pre)) (stored_size snappy zstd options raw) in
  handle_ok h /\ bh_offset h = lenz pre
  /\ exists c, ReadBlock accelerated align snappy zstd file verify h = inl c /\ bc_data c = raw.
Proof.
  intros E Hraw h. destruct (stored_split raw) as (data & type & Hc & Hs & Hz).
  assert (Hpre : u64 (lenz pre) = lenz pre).
  { unfold u64. apply Z.mod_small. pose proof (lenz_nonneg pre). rewrite E, lenz_app in HF. pose proof (lenz_nonneg (stored_ raw ++ post)). lia. }
  rewrite Hs, <- app_assoc in E.
  destruct (stored_read accelerated align snappy zstd Haccelerated Hsnappy Hzstd file F verify (lenz pre) _ raw data type pre post Hfile Hc E)
    as [Hle Hread]; [done|lia|]. subst h. rewrite Hz, Hpre. pose proof (lenz_nonneg data). pose proof (lenz_nonneg pre).
  pose proof (u64_range (lenz pre)) as Hr. rewrite Hpre in Hr.
  split_and!; [split; [done|unfold is_u64; simpl; lia]|done|done].
Qed.

Lemma blocks_split i block : blocks !! i = Some block ->
  exists post, F = prefix_text accelerated align snappy zstd options blocks i ++ stored_ (block_text interval block) ++ post.
Proof.
  intros Hi. assert (Hd : data_text accelerated align snappy zstd options blocks
    = prefix_text accelerated align snappy zstd options blocks i ++ stored_ (block_text interval block)
      ++ concat (stored_entries accelerated align snappy zstd options <$> drop (S i) blocks)).
  { unfold data_text, prefix_text. assert (Hb : blocks = take i blocks ++ block :: drop (S i) blocks)
      by (symmetry; by apply take_drop_middle).
    rewrite Hb at 1. by rewrite fmap_app, concat_app. }
  unfold table_text. rewrite Hd, <- !app_assoc. by eexists.
Qed.

(** Reading a data block *)
Lemma read_data i block verify : blocks !! i = Some block ->
  handle_ok (handle i) /\ bh_offset (handle i) = lenz (prefix_text accelerated align snappy zstd options blocks i)
  /\ exists c, ReadBlock accelerated align snappy zstd file verify (handle i) = inl c /\ bc_data c = block_text interval block.
Proof.
  intros Hi. destruct (blocks_split i block Hi) as [post E]. unfold handle_of. rewrite Hi. cbn [default from_option id].
  apply (read_stored _ _ post); [done|]. by apply block_text_size, (block_fits i).
Qed.

Lemma handle_fits i block : blocks !! i = Some block -> exists bytes, handle_EncodeTo (handle i) [] = bytes
  /\ lenz bytes <= 20 /\ handle_DecodeFrom bytes = inl (handle i, []).
Proof.
  intros Hi. destruct (read_data i block false Hi) as (Hok & _). destruct (handle_roundtrip (handle i) [] Hok) as (bytes & E & Hl & Hd).
  exists bytes. split_and!; [done..|]. specialize (Hd []). by rewrite app_nil_r in Hd.
Qed.

(** ** Order *)

Lemma le_last (l : list (text * text)) e el : StronglySorted key_lt l.*1 -> e ∈ l -> last l = Some el -> compare_ e.1 el.1 <> Gt.
Proof.
  intros Hs He Hl. apply last_Some in Hl as [l' ->]. rewrite fmap_app in Hs. apply elem_of_app in He as [He|He].
  - assert (key_lt e.1 el.1) as Hlt by (eapply (StronglySorted_app_1_elem_of key_lt); [done|by apply list_elem_of_fmap_2|by left]).
    unfold key_lt in Hlt. by rewrite Hlt.
  - apply list_elem_of_singleton in He as ->. by rewrite cmp_refl.
Qed.

Lemma head_le (l : list (text * text)) h e : StronglySorted key_lt (h :: l).*1 -> e ∈ h :: l -> compare_ h.1 e.1 <> Gt.
Proof.
  intros Hs He. apply elem_of_cons in He as [->|He]; [by rewrite cmp_refl|]. apply StronglySorted_cons in Hs as [Hs _].
  rewrite Forall_forall in Hs. specialize (Hs e.1 ltac:(by apply list_elem_of_fmap_2)). unfold key_lt in Hs. by rewrite Hs.
Qed.

Abbreviation after i := (concat (drop (S i) blocks)).

Lemma entries_split i block : blocks !! i = Some block -> es = concat (take i blocks) ++ block ++ after i.
Proof. intros Hi. rewrite entries_blocks. rewrite <- (take_drop_middle _ _ _ Hi) at 1. by rewrite concat_app. Qed.

Lemma block_sorted i block : blocks !! i = Some block -> StronglySorted key_lt block.*1 /\ StronglySorted key_lt (after i).*1.
Proof.
  intros Hi. pose proof Hsorted as Hs. rewrite (entries_split i block Hi), !fmap_app in Hs.
  apply StronglySorted_app_1_r in Hs. split; [by eapply StronglySorted_app_1_l|by eapply StronglySorted_app_1_r].
Qed.

Lemma sep_after i sep v block e : idx !! i = Some (sep, v) -> blocks !! i = Some block -> e ∈ block -> compare_ e.1 sep <> Gt.
Proof.
  intros Hi Hb He. destruct (lay_idx _ _ _ _ _ _ _ _ Lay i sep v Hi) as (_ & block' & Hb' & el & Hl & Hle & _). simplify_eq.
  pose proof (le_last block e el (proj1 (block_sorted i block Hb)) He Hl) as Hel.
  destruct (compare_ e.1 el.1) eqn:E; [by rewrite (cmp_eq_l _ _ _ E)| |done]. by rewrite (cmp_lt_le _ _ _ E Hle).
Qed.

Lemma sep_before i sep v e : idx !! i = Some (sep, v) -> e ∈ after i -> compare_ sep e.1 = Lt.
Proof.
  intros Hi He. destruct (lay_idx _ _ _ _ _ _ _ _ Lay i sep v Hi) as (_ & block & Hb & el & _ & _ & _ & Hrest).
  rewrite app_nil_r in Hrest. destruct (block_sorted i block Hb) as [_ Hs]. destruct (after i) as [|h l] eqn:E; [by apply not_elem_of_nil in He|].
  destruct Hrest as [Hlt _]. eapply cmp_lt_le; [exact Hlt|]. by eapply head_le.
Qed.

Lemma block_after i j block : (i < j)%nat -> blocks !! j = Some block -> block ⊆ after i.
Proof.
  intros Hij Hj e He. apply list_elem_of_In, in_concat. exists block. split; [|by apply list_elem_of_In].
  apply list_elem_of_In, (list_elem_of_lookup_2 _ (j - S i)). rewrite lookup_drop. by replace (S i + (j - S i))%nat with j by lia.
Qed.

Lemma idx_block i sep v : idx !! i = Some (sep, v) -> exists block, blocks !! i = Some block /\ block <> []
  /\ v = handle_EncodeTo (handle i) [] /\ entry_cost (sep, v) <= 3 * cost block.
Proof.
  intros Hi. destruct (lay_idx _ _ _ _ _ _ _ _ Lay i sep v Hi) as (Hv & block & Hb & el & Hl & _ & Hlen & _).
  exists block. pose proof (Forall_lookup_1 _ _ _ _ (lay_nonempty _ _ _ _ _ _ _ _ Lay) Hb) as Hne. split_and!; [done..|].
  destruct (handle_fits i block Hb) as (bytes & E & Hbytes & _). rewrite E in Hv. subst bytes v.
  pose proof (cost_elem el block ltac:(by apply last_Some_elem_of)) as Hc. unfold entry_cost in *. simpl.
  pose proof (lenz_nonneg el.1). pose proof (lenz_nonneg el.2). lia.
Qed.

Lemma idx_sorted : StronglySorted key_lt idx.*1.
Proof.
  apply sorted_of_lookup. intros i j x y Hij Hx Hy. rewrite list_lookup_fmap in Hx, Hy.
  destruct (idx !! i) as [[sep v]|] eqn:Ei; simplify_eq/=. destruct (idx !! j) as [[sep' v']|] eqn:Ej; simplify_eq/=.
  destruct (idx_block j _ _ Ej) as (block & Hb & Hne & _). destruct block as [|e block]; [done|].
  eapply cmp_lt_le; [eapply (sep_before i); [done|]; eapply block_after; [done..|by left]|].
  eapply sep_after; [done..|by left].
Qed.

Lemma cost_pointwise (l : list (text * text)) (bs : list (list (text * text))) : length l = length bs ->
  (forall i e b, l !! i = Some e -> bs !! i = Some b -> entry_cost e <= 3 * cost b) -> cost l <= 3 * cost (concat bs).
Proof.
  revert bs. induction l as [|e l IH]; intros [|b bs] Hlen Hc; simpl in *; try done. rewrite cost_app.
  pose proof (Hc O e b eq_refl eq_refl). specialize (IH bs ltac:(lia) (fun i => Hc (S i))). lia.
Qed.

Lemma idx_fits : CurrentSizeEstimate (build_block 1 idx) < 2 ^ 32.
Proof.
  pose proof (build_cost 1 idx). assert (cost idx <= 3 * cost es); [|lia]. rewrite entries_blocks.
  apply cost_pointwise; [apply Lay|]. intros i [sep v] block Hi Hb. destruct (idx_block i sep v Hi) as (block' & Hb' & _ & _ & Hc).
  by simplify_eq.
Qed.

(** ** Opening *)

Abbreviation fhandle := (filter_handle accelerated align snappy zstd options blocks).
Abbreviation mhandle := (meta_handle accelerated align snappy zstd options blocks).
Abbreviation ihandle := (index_handle accelerated align snappy zstd options blocks idx).
Abbreviation fraw policy := (filter_raw accelerated align snappy zstd options policy blocks).
Abbreviation mentries := (meta_entries accelerated align snappy zstd options blocks).

Lemma filter_fits policy : filter_policy options = Some policy ->
  lenz (fraw policy) < 2 ^ 32 /\ handle_ok fhandle
  /\ forall verify, exists c, ReadBlock accelerated align snappy zstd file verify fhandle = inl c /\ bc_data c = fraw policy.
Proof.
  intros Ep. set (pre := data_text accelerated align snappy zstd options blocks).
  assert (exists post, F = pre ++ fraw policy ++ block_trailer accelerated align (fraw policy) kNoCompression ++ post) as [post E].
  { unfold table_text, filter_text. rewrite Ep, <- !app_assoc. by eexists. }
  pose proof (lenz_nonneg pre). pose proof (lenz_nonneg (fraw policy)).
  assert (Hl : lenz pre + lenz (fraw policy) < 2 ^ 32).
  { rewrite E, !lenz_app in HF. pose proof (lenz_nonneg post). rewrite block_trailer_length in HF. unfold kBlockTrailerSize in HF. lia. }
  assert (Hpre : u64 (lenz pre) = lenz pre) by (unfold u64; apply Z.mod_small; lia).
  unfold filter_handle. rewrite Ep. fold pre. rewrite Hpre. split; [lia|]. split; [split; unfold is_u64; simpl; lia|].
  intros verify. eapply (stored_read accelerated align snappy zstd Haccelerated Hsnappy Hzstd file F verify (lenz pre) kNoCompression (fraw policy));
    [done|reflexivity|exact E|done|lia].
Qed.

Lemma meta_fits : CurrentSizeEstimate (build_block interval mentries) < 2 ^ 32.
Proof.
  pose proof (build_cost interval mentries). assert (cost mentries < 2 ^ 31); [|lia]. unfold meta_entries.
  destruct (filter_policy options) as [policy|] eqn:Ep; [|done]. destruct (Hpolicy policy eq_refl) as [_ Hn].
  destruct (filter_fits policy Ep) as (_ & Hok & _). destruct (handle_roundtrip fhandle [] Hok) as (bytes & -> & Hb & _).
  simpl. unfold entry_cost, filter_key. cbn [fst snd]. rewrite lenz_app. change (lenz (L "filter.")) with 7.
  change kMaxEncodedLength with 20 in Hb. cbn [app]. lia.
Qed.

Lemma meta_read verify : handle_ok mhandle
  /\ exists c, ReadBlock accelerated align snappy zstd file verify mhandle = inl c /\ bc_data c = block_text interval mentries.
Proof.
  destruct (read_stored (data_text accelerated align snappy zstd options blocks ++ filter_text accelerated align snappy zstd options blocks)
    (block_text interval mentries)
    (index_text accelerated align snappy zstd options idx ++ footer_text accelerated align snappy zstd options blocks idx) verify)
    as (Hok & _ & Hr); [|by apply block_text_size, meta_fits|done].
  unfold table_text. by rewrite <- !app_assoc.
Qed.

Lemma index_read verify : handle_ok ihandle
  /\ exists c, ReadBlock accelerated align snappy zstd file verify ihandle = inl c /\ bc_data c = block_text 1 idx.
Proof.
  destruct (read_stored ((data_text accelerated align snappy zstd options blocks ++ filter_text accelerated align snappy zstd options blocks)
      ++ meta_text accelerated align snappy zstd options blocks)
    (block_text 1 idx) (footer_text accelerated align snappy zstd options blocks idx) verify)
    as (Hok & _ & Hr); [|by apply block_text_size, idx_fits|done].
  unfold table_text. by rewrite <- !app_assoc.
Qed.

Definition table_filter : option FilterBlockReader :=
  (fun policy => new_FilterBlockReader (fraw policy)) <$> filter_policy options.

Lemma ReadMeta_ok : ReadMeta accelerated align snappy zstd options file (mkFooter mhandle ihandle) = Some table_filter.
Proof.
  unfold ReadMeta, table_filter. cbn [metaindex_handle_]. pose proof meta_fits as Hfits. pose proof filter_fits as Hfilter.
  destruct (meta_read (table_paranoid options)) as (_ & c & -> & ->).
  destruct (filter_policy options) as [policy|] eqn:Ep; [|done].
  assert (Hm : mentries = [(filter_key policy, handle_EncodeTo fhandle [])]) by (unfold meta_entries; by rewrite Ep).
  rewrite Hm in *.
  destruct (@seek_block bytewise bytewise_laws interval [(filter_key policy, handle_EncodeTo fhandle [])] (filter_key policy) Hinterval)
    as (it & E & _ & Hv & Hkv); [repeat constructor|done|].
  assert (Hlb : @lower_bound bytewise (filter_key policy) [(filter_key policy, handle_EncodeTo fhandle [])] = O)
    by (cbn [lower_bound fst]; by rewrite (@cmp_refl _ bytewise bytewise_laws)).
  rewrite Hlb in Hv, Hkv. destruct (Hkv _ _ eq_refl) as [Hkey Hval]. unfold ni_Seek in E.
  change (@it_Seek slice_compare) with (@it_Seek bytewise). rewrite E. cbn [mbind option_bind].
  unfold ni_Valid, ni_key, ni_value. rewrite Hv, Hkey, Hval, !bool_decide_true by (done || simpl; lia). cbn [andb fmap option_fmap option_map].
  do 2 f_equal. unfold ReadFilter. destruct (Hfilter policy eq_refl) as (_ & Hok & Hr).
  destruct (handle_roundtrip fhandle [] Hok) as (bytes & -> & _ & Hd). specialize (Hd []). rewrite app_nil_r in Hd. cbn [app]. rewrite Hd.
  destruct (Hr (table_paranoid options)) as (c' & -> & ->). done.
Qed.

Definition opened_table (cache_id : Z) : Table :=
  mkTable options file cache_id table_filter mhandle (new_Block (block_text 1 idx)).

Lemma Open_ok cache_id :
  table_Open accelerated align snappy zstd options file (lenz F) cache_id = Some (inl (opened_table cache_id)).
Proof.
  destruct (meta_read (table_paranoid options)) as [Hm _]. destruct (index_read (table_paranoid options)) as (Hi & c & Hr & Hc).
  destruct (footer_roundtrip (mkFooter mhandle ihandle) Hm Hi) as [Hlen Hdec]. unfold table_Open.
  set (pre := ((data_text accelerated align snappy zstd options blocks ++ filter_text accelerated align snappy zstd options blocks)
      ++ meta_text accelerated align snappy zstd options blocks) ++ index_text accelerated align snappy zstd options idx).
  assert (HFl : lenz F = lenz pre + kEncodedLength) by (unfold table_text, footer_text; by rewrite lenz_app, Hlen).
  rewrite HFl. pose proof (lenz_nonneg pre). rewrite (proj2 (Z.ltb_ge _ _)) by (unfold kEncodedLength, kMaxEncodedLength; lia).
  replace (lenz pre + kEncodedLength - kEncodedLength) with (lenz pre) by lia.
  destruct (Hfile (lenz pre) kEncodedLength) as [in_buf ->]; [lia|done|]. change (negb (status_ok status_OK)) with false. cbn match.
  unfold table_text at 1. fold pre. rewrite dropz_app_ge by lia. rewrite Z.sub_diag, dropz_0, takez_all by (unfold footer_text; lia).
  unfold footer_text. rewrite Hdec. cbn [index_handle_]. rewrite Hr, Hc, ReadMeta_ok. done.
Qed.

(** ** Offsets of the data blocks *)

Abbreviation prefix i := (prefix_text accelerated align snappy zstd options blocks i).
Abbreviation boffset i := (block_offset accelerated align snappy zstd options blocks i).

Lemma prefix_bound i : lenz (prefix i) < 2 ^ 32.
Proof.
  assert (lenz (prefix i) <= lenz F); [|lia]. unfold table_text. rewrite !lenz_app.
  assert (lenz (prefix i) <= lenz (data_text accelerated align snappy zstd options blocks)).
  { unfold data_text, prefix_text. rewrite <- (take_drop i blocks) at 2. rewrite fmap_app, concat_app, lenz_app.
    pose proof (lenz_nonneg (concat (stored_entries accelerated align snappy zstd options <$> drop i blocks))). lia. }
  pose proof (lenz_nonneg (filter_text accelerated align snappy zstd options blocks)).
  pose proof (lenz_nonneg (meta_text accelerated align snappy zstd options blocks)).
  pose proof (lenz_nonneg (index_text accelerated align snappy zstd options idx)).
  pose proof (lenz_nonneg (footer_text accelerated align snappy zstd options blocks idx)). lia.
Qed.

Lemma boffset_prefix i : boffset i = lenz (prefix i).
Proof. unfold block_offset, u64. apply Z.mod_small. pose proof (prefix_bound i). pose proof (lenz_nonneg (prefix i)). lia. Qed.

Lemma prefix_S i block : blocks !! i = Some block -> lenz (prefix i) + 5 <= lenz (prefix (S i)).
Proof.
  intros Hi. unfold prefix_text. rewrite (take_S_r _ _ _ Hi), fmap_app, concat_app, lenz_app. simpl. rewrite app_nil_r.
  destruct (stored_split (block_text interval block)) as (data & type & _ & Hs & _). unfold stored_entries at 3. rewrite Hs, lenz_app, block_trailer_length.
  pose proof (lenz_nonneg data). unfold kBlockTrailerSize. lia.
Qed.

Lemma prefix_lt i j : (i < j)%nat -> (j <= length blocks)%nat -> lenz (prefix i) < lenz (prefix j).
Proof.
  intros Hij. induction Hij as [|j Hij IH]; intros Hj.
  - destruct (lookup_lt_is_Some_2 blocks i) as [block Hb]; [lia|]. pose proof (prefix_S i block Hb). lia.
  - destruct (lookup_lt_is_Some_2 blocks j) as [block Hb]; [lia|]. pose proof (prefix_S j block Hb). specialize (IH ltac:(lia)). lia.
Qed.

Lemma handle_inj i j bi bj : blocks !! i = Some bi -> blocks !! j = Some bj -> bh_offset (handle i) = bh_offset (handle j) -> i = j.
Proof.
  intros Hi Hj. change (bh_offset (handle i)) with (boffset i). change (bh_offset (handle j)) with (boffset j). rewrite !boffset_prefix.
  apply lookup_lt_Some in Hi, Hj. intros E. destruct (Nat.lt_trichotomy i j) as [Hlt|[?|Hlt]]; [|done|].
  - pose proof (prefix_lt i j Hlt ltac:(lia)). lia.
  - pose proof (prefix_lt j i Hlt ltac:(lia)). lia.
Qed.

(** ** The filter *)

Abbreviation calls := (filter_calls accelerated align snappy zstd options blocks []).

Lemma calls_offsets : StronglySorted Z.le (0 :: calls.*1).
Proof.
  assert (Hc : calls.*1 = (fun i => boffset i) <$> seq 0 (S (length blocks))).
  { unfold filter_calls. rewrite fmap_app, <- list_fmap_compose, seq_S, fmap_app. done. }
  rewrite Hc. constructor.
  - apply sorted_of_lookup. intros i j x y Hij Hx Hy. rewrite list_lookup_fmap in Hx, Hy.
    apply fmap_Some in Hx as (i' & Ei & ->). apply fmap_Some in Hy as (j' & Ej & ->).
    apply lookup_seq in Ei as [-> Hi]. apply lookup_seq in Ej as [-> Hj]. rewrite !boffset_prefix.
    pose proof (prefix_lt i j Hij ltac:(lia)). simpl. lia.
  - apply Forall_fmap, Forall_true. intros i. simpl. rewrite boffset_prefix. apply lenz_nonneg.
Qed.

Lemma calls_keys : lenz (concat calls.*2) < 2 ^ 31.
Proof.
  assert (Hc : concat calls.*2 = es.*1).
  { unfold filter_calls. rewrite fmap_app, <- list_fmap_compose, concat_app, entries_blocks. simpl. rewrite app_nil_r.
    clear. induction blocks as [|b bs IH] using rev_ind; [done|].
    rewrite length_app, seq_app, fmap_app, !concat_app, fmap_app. simpl. rewrite list_lookup_middle by done. simpl. rewrite !app_nil_r. f_equal.
    rewrite <- IH. f_equal. apply list_fmap_ext. intros j i Hj. apply lookup_seq in Hj as [-> Hj]. simpl. by rewrite lookup_app_l. }
  rewrite Hc. pose proof (cost_length es). pose proof (lenz_nonneg es). unfold lenz in *. rewrite length_fmap. lia.
Qed.

Lemma filter_sound policy i block k e : filter_policy options = Some policy -> blocks !! i = Some block -> e ∈ block -> matches k e.1 ->
  fr_KeyMayMatch policy (new_FilterBlockReader (fraw policy)) (boffset i) k = true.
Proof.
  intros Ep Hi He Hm. destruct (Hpolicy policy Ep) as [Hok _]. destruct (filter_fits policy Ep) as [Hsize _].
  apply (filter_block_sound matches policy calls _ block.*1 k e.1); [done|apply calls_offsets|apply calls_keys|done| |by apply list_elem_of_fmap_2|done].
  unfold filter_calls. apply elem_of_app. left. apply list_elem_of_fmap. exists i. rewrite Hi. split; [done|].
  apply elem_of_seq. apply lookup_lt_Some in Hi. lia.
Qed.

(** ** Lookups *)

Context {C : Type} `{BlockCache C} `{!BlockCacheLaws C} (cache_id : Z).
Abbreviation T := (opened_table cache_id).

(** The cache holds blocks of the table only as they are in the file. *)
Definition cache_fine (cache : option C) : Prop :=
  match cache with
  | None => True
  | Some c => forall i block b, blocks !! i = Some block -> cache_holds c (cache_key T (handle i)) b ->
              b = new_Block (block_text interval block)
  end.

Lemma cache_key_inj i j bi bj : blocks !! i = Some bi -> blocks !! j = Some bj ->
  cache_key T (handle i) = cache_key T (handle j) -> i = j.
Proof.
  intros Hi Hj E. unfold cache_key in E. apply app_inv_head in E. apply fixed64_inj in E; [|apply u64_range..]. by eapply handle_inj.
Qed.

Lemma BlockReader_ok verify fill i block cache : blocks !! i = Some block -> cache_fine cache ->
  exists cache', BlockReader accelerated align snappy zstd T verify fill (handle_EncodeTo (handle i) []) cache
    = (NewIterator (new_Block (block_text interval block)), cache') /\ cache_fine cache'.
Proof.
  intros Hi Hf. destruct (handle_fits i block Hi) as (bytes & -> & _ & Hd). unfold BlockReader. rewrite Hd. change (t_file T) with file.
  destruct (read_data i block verify Hi) as (_ & _ & c & -> & Hc). rewrite Hc. destruct cache as [ca|]; [|by eexists].
  destruct (cache_Lookup (cache_key T (handle i)) ca) as [hit ca'] eqn:El.
  assert (Hf' : cache_fine (Some ca')) by (intros j b' b Hj Hh; eapply Hf; [done|]; by eapply holds_after_lookup).
  destruct hit as [b|].
  - apply holds_lookup in El. rewrite (Hf i block b Hi El). by eexists.
  - eexists. split; [done|]. destruct (cachable c && fill); [|done]. intros j b' b Hj Hh.
    apply holds_after_insert in Hh as [[Hk ->]|Hh]; [|by eapply Hf'].
    pose proof (cache_key_inj j i b' block Hj Hi Hk) as ->. by simplify_eq.
Qed.

(** What a lookup may find: the first entry at or after the key; or nothing, when that
    entry is not for the key. *)
Definition found_in (k : text) (r : option (text * text)) : Prop :=
  match es !! lower_bound k es with
  | Some e => r = Some e \/ r = None /\ ~ matches k e.1
  | None => r = None
  end.

Lemma blocks_before k i : (forall j sep v, (j < i)%nat -> idx !! j = Some (sep, v) -> compare_ sep k = Lt) -> (i <= length idx)%nat ->
  Forall (fun e => compare_ e.1 k = Lt) (concat (take i blocks)).
Proof.
  intros Hsep Hi. apply Forall_forall. intros e He. apply list_elem_of_In, in_concat in He as (block & Hb & He).
  apply list_elem_of_In, list_elem_of_lookup in Hb as [j Hj]. apply list_elem_of_In in He. apply lookup_take_Some in Hj as [Hj Hji].
  destruct (lookup_lt_is_Some_2 idx j) as [[sep v] Hs]; [lia|]. eapply cmp_le_lt; [by eapply sep_after|]. by eapply Hsep.
Qed.

(** The seek of the index and of its block is the seek of the table. *)
Lemma lower_bound_block k i sep v block : lower_bound k idx = i -> idx !! i = Some (sep, v) -> blocks !! i = Some block ->
  lower_bound k es = (length (concat (take i blocks)) + lower_bound k block)%nat.
Proof.
  intros Hlb Hi Hb.
  assert (Hle : compare_ k sep <> Gt) by (apply cmp_not_lt; rewrite <- Hlb in Hi; apply (lower_bound_at k idx (sep, v) Hi)).
  assert (Hbefore : Forall (fun e => compare_ e.1 k = Lt) (concat (take i blocks))).
  { apply blocks_before; [|apply lookup_lt_Some in Hi; lia]. intros j s w Hj Hs. eapply (lower_bound_before k idx j (s, w)); [lia|done]. }
  rewrite (entries_split i block Hb), (lower_bound_app k _ _ Hbefore). f_equal.
  pose proof (lower_bound_le k block). destruct (decide (lower_bound k block < length block)%nat) as [Hlt|Hge]; [by apply lower_bound_first|].
  assert (Hall : lower_bound k block = length block) by lia. rewrite Hall. apply lower_bound_all in Hall. rewrite (lower_bound_app k _ _ Hall).
  destruct (after i) as [|e rest] eqn:Ea; simpl; [lia|].
  assert (Hke : compare_ k e.1 = Lt) by (eapply cmp_le_lt; [done|]; eapply sep_before; [done|]; rewrite Ea; by left).
  assert (compare_ e.1 k = Gt) as -> by (by rewrite cmp_antisym, Hke). lia.
Qed.

(** The block a lookup goes to *)
Lemma lookup_block k i sep v block : good k -> lower_bound k idx = i -> idx !! i = Some (sep, v) -> blocks !! i = Some block ->
  found_in k (block !! lower_bound k block) /\ (found_in k None \/ exists e, e ∈ block /\ es !! lower_bound k es = Some e).
Proof.
  intros Hk Hlb Hi Hb.
  assert (Hle : compare_ k sep <> Gt) by (apply cmp_not_lt; rewrite <- Hlb in Hi; apply (lower_bound_at k idx (sep, v) Hi)).
  assert (Hes : es !! lower_bound k es = (block ++ after i) !! lower_bound k block).
  { rewrite (lower_bound_block k i sep v block Hlb Hi Hb), (entries_split i block Hb), lookup_app_r by lia. f_equal. lia. }
  unfold found_in. rewrite Hes. pose proof (lower_bound_le k block) as Hlen.
  destruct (decide (lower_bound k block < length block)%nat) as [Hlt|Hge].
  - rewrite lookup_app_l by done. destruct (lookup_lt_is_Some_2 _ _ Hlt) as [e He]. rewrite He.
    split; [by left|]. right. exists e. split; [by eapply list_elem_of_lookup_2|done].
  - assert (Hall : lower_bound k block = length block) by lia. rewrite (lookup_ge_None_2 block), lookup_app_r, Hall, Nat.sub_diag by lia.
    apply lower_bound_all in Hall. assert (Hnone : forall e, after i !! 0%nat = Some e -> ~ matches k e.1).
    { destruct (lay_idx _ _ _ _ _ _ _ _ Lay i sep v Hi) as (_ & block' & Hb' & el & Hl & _ & _ & Hrest).
      rewrite Hb in Hb'. injection Hb' as <-. rewrite app_nil_r in Hrest. destruct (after i) as [|e' rest]; [done|].
      destruct Hrest as [_ Hgap]. intros e E. injection E as <-. apply Hgap; [done| |done].
      eapply Forall_forall in Hall; [done|]. by apply last_Some_elem_of. }
    destruct (after i !! 0%nat) as [e|]; [|by split; [|left]]. specialize (Hnone e eq_refl). split; [|left]; by right.
Qed.

Lemma lower_bound_none k : lower_bound k idx = length idx -> lower_bound k es = length es.
Proof.
  intros Hlb. assert (Hall : Forall (fun e => compare_ e.1 k = Lt) es).
  { rewrite entries_blocks. rewrite <- (take_ge blocks (length idx)) by (rewrite (lay_length _ _ _ _ _ _ _ _ Lay); done).
    apply blocks_before; [|done]. intros j s w Hj Hs. eapply (lower_bound_before k idx j (s, w)); [lia|done]. }
  pose proof (lower_bound_app k es [] Hall) as E. rewrite app_nil_r in E. simpl in E. lia.
Qed.

Lemma InternalGet_ok verify fill k cache : good k -> cache_fine cache ->
  exists r cache', InternalGet accelerated align snappy zstd T verify fill k cache = Some (r, status_OK, cache')
    /\ found_in k r /\ cache_fine cache'.
Proof.
  intros Hk Hf. unfold InternalGet. change (t_index T) with (new_Block (block_text 1 idx)).
  destruct (seek_block 1 idx k ltac:(lia) idx_sorted idx_fits) as (it & -> & Hst & Hv & Hkv). cbn [mbind option_bind].
  unfold ni_Valid at 1. rewrite Hv. case_bool_decide as Hlt.
  2: { cbn. rewrite Hst. eexists None, cache. split_and!; [done| |done]. unfold found_in.
       pose proof (lower_bound_le k idx). rewrite lower_bound_none, lookup_ge_None_2 by lia. done. }
  destruct (lookup_lt_is_Some_2 _ _ Hlt) as [[sep v] Hi]. destruct (Hkv sep v Hi) as [_ Hval].
  destruct (idx_block _ sep v Hi) as (block & Hb & _ & -> & _).
  destruct (lookup_block k _ sep _ block Hk eq_refl Hi Hb) as [Hfound Hnone]. unfold ni_value at 1 2. rewrite Hval.
  destruct (filter_passes T k _) eqn:Ef.
  - destruct (BlockReader_ok verify fill _ block cache Hb Hf) as (cache' & -> & Hf').
    destruct (seek_block interval block k Hinterval (proj1 (block_sorted _ block Hb)) (block_fits _ block Hb)) as (bit & -> & Hbst & Hbv & Hbkv).
    cbn [mbind option_bind]. unfold ni_Valid, ni_status, ni_key, ni_value. rewrite Hbst, Hbv, Hst. change (status_ok status_OK) with true. cbn match.
    eexists _, cache'. split; [done|]. split; [|done]. case_bool_decide as Hl.
    + destruct (lookup_lt_is_Some_2 _ _ Hl) as [[key value] He]. destruct (Hbkv key value He) as [-> ->]. by rewrite <- He.
    + rewrite lookup_ge_None_2 in Hfound by lia. done.
  - cbn. rewrite Hst. eexists None, cache. split_and!; [done| |done]. destruct Hnone as [?|(e & He & Hes)]; [done|].
    unfold found_in. rewrite Hes. right. split; [done|]. intros Hm.
    unfold filter_passes, opened_table, table_filter in Ef. cbn [t_filter t_options] in Ef. pose proof filter_sound as Hsound.
    destruct (handle_fits _ block Hb) as (bytes & Eb & _ & Hd). rewrite Eb, Hd in Ef.
    destruct (filter_policy options) as [policy|]; [|done]. cbn [fmap option_fmap option_map] in Ef.
    pose proof (Hsound policy _ block k e eq_refl Hb He Hm) as Et. change (bh_offset (handle _)) with (boffset (lower_bound k idx)) in Ef.
    by rewrite Et in Ef.
Qed.

Lemma gets_ok ks cache : Forall good ks.*2 -> cache_fine cache ->
  exists rs, table_gets accelerated align snappy zstd T ks cache = Some rs
    /\ Forall2 (fun k r => r.2 = status_OK /\ found_in k.2 r.1) ks rs.
Proof.
  revert cache. induction ks as [|[[verify fill] k] ks IH]; intros cache Hg Hf; [by exists []|].
  cbn [fmap list_fmap snd] in Hg. apply Forall_cons in Hg as [Hk Hg].
  destruct (InternalGet_ok verify fill k cache Hk Hf) as (r & cache' & E & Hr & Hf'). destruct (IH cache' Hg Hf') as (rs & Ers & Hrs).
  exists ((r, status_OK) :: rs). cbn [table_gets]. rewrite E. cbn [mbind option_bind]. rewrite Ers. split; [done|]. by constructor.
Qed.

(** ** The iterator of the table *)

Context (verify fill : bool).
Abbreviation reader := (BlockReader accelerated align snappy zstd T verify fill).
Abbreviation kk := (Z.to_nat interval).
Abbreviation base i := (length (concat (take i blocks))).
Abbreviation ni_step op := (ni_lift (iter_step op)).

Definition index_at (i : nat) (x : NewIter) : Prop := exists it, x = EntryIterator it /\ position 1 idx i it.
Definition data_at (i j : nat) (x : NewIter) : Prop :=
  exists block it, blocks !! i = Some block /\ x = EntryIterator it /\ position kk block j it.

Lemma index_step op i i' x : index_at i x -> cursor_step idx op i = Some i' ->
  exists x', ni_step op x = Some x' /\ index_at i' x'.
Proof.
  intros (it & -> & P) Hs. destruct (iter_step_at 1 idx ltac:(lia) idx_fits idx_sorted op i i' it P Hs) as (it' & E & P').
  exists (EntryIterator it'). unfold ni_lift. rewrite E. split; [done|]. by exists it'.
Qed.

Lemma data_step op i j j' block x : blocks !! i = Some block -> data_at i j x -> cursor_step block op j = Some j' ->
  exists x', ni_step op x = Some x' /\ data_at i j' x'.
Proof.
  intros Hi (block' & it & Hi' & -> & P) Hs. simplify_eq. pose proof (block_fits i block Hi) as Hfits.
  rewrite <- (Z2Nat.id interval) in Hfits by lia.
  destruct (iter_step_at kk block ltac:(lia) Hfits (proj1 (block_sorted i block Hi)) op j j' it P Hs) as (it' & E & P').
  exists (EntryIterator it'). unfold ni_lift. rewrite E. split; [done|]. by exists block, it'.
Qed.

Lemma index_view i x : index_at i x -> ni_status x = status_OK /\ ni_Valid x = bool_decide (i < length idx)%nat
  /\ forall block, blocks !! i = Some block -> ni_value x = handle_EncodeTo (handle i) [].
Proof.
  intros (it & -> & P). destruct (position_view 1 idx ltac:(lia) idx_fits i it P) as (Hs & Hv & Hkv). split_and!; [done..|].
  intros block Hb. apply lookup_lt_Some in Hb. rewrite <- (lay_length _ _ _ _ _ _ _ _ Lay) in Hb.
  destruct (lookup_lt_is_Some_2 _ _ Hb) as [[sep v] Hi]. destruct (idx_block i sep v Hi) as (_ & _ & _ & -> & _).
  by destruct (Hkv _ _ Hi).
Qed.

Lemma data_view i j block x : blocks !! i = Some block -> data_at i j x ->
  ni_status x = status_OK /\ ni_Valid x = bool_decide (j < length block)%nat
  /\ forall key value, block !! j = Some (key, value) -> ni_key x = key /\ ni_value x = value.
Proof.
  intros Hi (block' & it & Hi' & -> & P). simplify_eq. pose proof (block_fits i block Hi) as Hfits.
  rewrite <- (Z2Nat.id interval) in Hfits by lia. exact (position_view kk block ltac:(lia) Hfits j it P).
Qed.

Lemma data_new i block : blocks !! i = Some block -> data_at i (length block) (NewIterator (new_Block (block_text interval block))).
Proof.
  intros Hi. pose proof (block_fits i block Hi) as Hfits. rewrite <- (Z2Nat.id interval) in Hfits by lia.
  destruct (new_iterator kk block ltac:(lia) Hfits) as (it & E & P). rewrite Z2Nat.id in E by lia. rewrite E. by exists block, it.
Qed.

(** The state of the iterator between its steps *)
Record TwoLevelInv (i : nat) (t : TwoLevelIterator (St := option C)) : Prop := {
  tv_status : tl_status t = status_OK;
  tv_cache : cache_fine (tl_state t);
  tv_index : index_at i (tl_index t);
  tv_data : forall d, tl_data t = Some d -> exists i' j, data_at i' j d /\ data_block_handle t = handle_EncodeTo (handle i') []
}.

Lemma data_ok i j d : data_at i j d -> ni_status d = status_OK.
Proof. intros D. destruct D as (block & it & Hb & Hd). by destruct (data_view i j block d Hb) as [-> _]; [exists block, it|]. Qed.

Lemma SetDataIterator_fields d i t : TwoLevelInv i t ->
  let t' := SetDataIterator d t in
  tl_status t' = status_OK /\ tl_state t' = tl_state t /\ tl_index t' = tl_index t /\ tl_data t' = d
  /\ data_block_handle t' = data_block_handle t.
Proof.
  intros I. pose proof (tv_status _ _ I) as Hs. unfold SetDataIterator, SaveError. destruct (tl_data t) as [d'|] eqn:Ed; [|done].
  destruct (tv_data _ _ I d' Ed) as (i' & j & D & _). rewrite (data_ok _ _ _ D), Hs. done.
Qed.

(** The data iterator is made for the block of the index. *)
Lemma InitDataBlock_inv i t : TwoLevelInv i t ->
  TwoLevelInv i (InitDataBlock reader t)
  /\ match blocks !! i with
     | Some block => exists j d, tl_data (InitDataBlock reader t) = Some d /\ data_at i j d
                     /\ data_block_handle (InitDataBlock reader t) = handle_EncodeTo (handle i) []
     | None => tl_data (InitDataBlock reader t) = None
     end.
Proof.
  intros I. destruct (index_view i _ (tv_index _ _ I)) as (_ & Hv & Hval). unfold InitDataBlock. rewrite Hv, (lay_length _ _ _ _ _ _ _ _ Lay).
  destruct (blocks !! i) as [block|] eqn:Hb.
  2: { apply lookup_ge_None_1 in Hb. rewrite bool_decide_false by lia. cbn [negb].
       destruct (SetDataIterator_fields None i t I) as (E1 & E2 & E3 & E4 & E5). set (t' := SetDataIterator None t) in *. clearbody t'.
       split; [|done]. split; [done|rewrite E2; apply I|rewrite E3; apply I|]. intros d Hd. by rewrite E4 in Hd. }
  rewrite bool_decide_true by (by eapply lookup_lt_Some). cbn [negb]. rewrite (Hval block eq_refl).
  destruct (bool_decide (tl_data t <> None) && bool_decide (handle_EncodeTo (handle i) [] = data_block_handle t)) eqn:Ec.
  - apply andb_true_iff in Ec as [Hd%bool_decide_eq_true Hh%bool_decide_eq_true]. split; [done|].
    destruct (tl_data t) as [d|] eqn:Ed; [|done]. destruct (tv_data _ _ I d Ed) as (i' & j & D & Hh').
    assert (i' = i) as ->.
    { destruct D as (block' & it & Hb' & _). destruct (handle_fits i block Hb) as (bytes & Eb & _ & D1).
      destruct (handle_fits i' block' Hb') as (bytes' & Eb' & _ & D2). rewrite <- Hh, Eb in Hh'. rewrite Eb' in Hh'. subst bytes'.
      rewrite D1 in D2. eapply handle_inj; [done..|congruence]. }
    exists j, d. split_and!; [done..|]. by rewrite <- Hh.
  - destruct (BlockReader_ok verify fill i block (tl_state t) Hb (tv_cache _ _ I)) as (cache' & -> & Hf).
    set (t1 := mkTwoLevel (tl_status t) (tl_index t) (tl_data t) (handle_EncodeTo (handle i) []) cache').
    set (d := NewIterator (new_Block (block_text interval block))).
    match goal with |- context [SetDataIterator (Some d) ?x] => change x with t1 end.
    assert (Et : tl_status (SetDataIterator (Some d) t1) = status_OK /\ tl_state (SetDataIterator (Some d) t1) = cache'
      /\ tl_index (SetDataIterator (Some d) t1) = tl_index t /\ tl_data (SetDataIterator (Some d) t1) = Some d
      /\ data_block_handle (SetDataIterator (Some d) t1) = handle_EncodeTo (handle i) []).
    { pose proof (tv_status _ _ I) as Hs. unfold SetDataIterator, SaveError. cbn [tl_data t1 tl_status].
      destruct (tl_data t) as [d'|] eqn:Ed; [|done]. destruct (tv_data _ _ I d' Ed) as (i' & j & D & _).
      rewrite (data_ok _ _ _ D), Hs. done. }
    destruct Et as (E1 & E2 & E3 & E4 & E5). set (t2 := SetDataIterator (Some d) t1) in *. clearbody t2. split.
    + split; [done|by rewrite E2|rewrite E3; apply I|]. intros d' Hd'. rewrite E4 in Hd'. injection Hd' as <-.
      exists i, (length block). split; [by apply data_new|done].
    + exists (length block), d. split_and!; [done|by apply data_new|done].
Qed.

(** The iterator stands at an entry of the table, or at the end. *)
Definition tl_at (p : nat) (t : TwoLevelIterator (St := option C)) : Prop :=
  exists i, TwoLevelInv i t
  /\ (p = length es /\ tl_data t = None
      \/ exists block j d, blocks !! i = Some block /\ tl_data t = Some d /\ data_at i j d
           /\ data_block_handle t = handle_EncodeTo (handle i) [] /\ (j < length block)%nat /\ p = (base i + j)%nat).

(** The data iterator is in the block of the index, perhaps past its end. *)
Definition in_block (i j : nat) (block : list (text * text)) (t : TwoLevelIterator (St := option C)) : Prop :=
  TwoLevelInv i t /\ blocks !! i = Some block /\ (j <= length block)%nat
  /\ exists d, tl_data t = Some d /\ data_at i j d /\ data_block_handle t = handle_EncodeTo (handle i) [].

Lemma base_S i block : blocks !! i = Some block -> base (S i) = (base i + length block)%nat.
Proof. intros Hi. rewrite (take_S_r _ _ _ Hi), concat_app, length_app. simpl. by rewrite app_nil_r. Qed.

Lemma base_all i : (length blocks <= i)%nat -> base i = length es.
Proof. intros Hi. rewrite take_ge by done. by rewrite entries_blocks. Qed.

Lemma block_pos i block : blocks !! i = Some block -> (1 <= length block)%nat.
Proof.
  intros Hi. pose proof (Forall_lookup_1 _ _ _ _ (lay_nonempty _ _ _ _ _ _ _ _ Lay) Hi) as Hne. destruct block; [done|simpl; lia].
Qed.

Lemma on_index_inv op i i' t : TwoLevelInv i t -> cursor_step idx op i = Some i' ->
  exists t', on_index (ni_step op) t = Some t' /\ TwoLevelInv i' t' /\ tl_data t' = tl_data t /\ data_block_handle t' = data_block_handle t.
Proof.
  intros I Hs. destruct (index_step op i i' _ (tv_index _ _ I) Hs) as (x & E & Hx). unfold on_index. rewrite E. cbn [mbind option_bind].
  eexists. split; [done|]. split; [|done]. destruct I. by split.
Qed.

Lemma on_data_inv op i j j' block t : in_block i j block t -> cursor_step block op j = Some j' -> (j' <= length block)%nat ->
  exists t', on_data (ni_step op) t = Some t' /\ in_block i j' block t'.
Proof.
  intros (I & Hb & _ & d & Hd & D & Hh) Hs Hj. destruct (data_step op i j j' block d Hb D Hs) as (d' & E & D').
  unfold on_data. rewrite Hd, E. cbn [mbind option_bind]. eexists. split; [done|]. split; [|split; [done|split; [done|]]].
  - destruct I as [I1 I2 I3 _]. split; [exact I1|exact I2|exact I3|]. intros d0 Hd0. injection Hd0 as <-. by exists i, j'.
  - exists d'. by split_and!.
Qed.

(** After a move of the index, the data iterator is at the wanted end of the new block, or
    there is none. *)
Lemma enter_block op i t : TwoLevelInv i t -> (forall block j, cursor_step block op j = cursor_step block op O) ->
  match blocks !! i with
  | Some block => forall j', cursor_step block op O = Some j' -> (j' <= length block)%nat ->
      exists t', on_data (ni_step op) (InitDataBlock reader t) = Some t' /\ in_block i j' block t'
  | None => exists t', on_data (ni_step op) (InitDataBlock reader t) = Some t' /\ TwoLevelInv i t' /\ tl_data t' = None
  end.
Proof.
  intros I Hop. destruct (InitDataBlock_inv i t I) as [I' Hd]. set (t1 := InitDataBlock reader t) in *. clearbody t1.
  destruct (blocks !! i) as [block|] eqn:Hb.
  - destruct Hd as (j & d & Hd & D & Hh). intros j' Hs Hj'. rewrite <- (Hop block (Nat.min j (length block))) in Hs.
    destruct (decide (j <= length block)%nat) as [Hj|Hj].
    + eapply (on_data_inv op i j); [|by rewrite <- Hs, Nat.min_l by lia|done]. split; [done|]. split; [done|]. split; [done|]. by exists d.
    + exfalso. destruct D as (block' & it & Hb' & _ & P). simplify_eq. pose proof (pos_le _ _ _ _ P). lia.
  - unfold on_data. rewrite Hd. by exists t1.
Qed.

Lemma skip_done fuel im ds i j block t : in_block i j block t -> (j < length block)%nat ->
  skip_loop reader (S fuel) im ds t = Some t /\ tl_at (base i + j) t.
Proof.
  intros (I & Hb & _ & d & Hd & D & Hh) Hj. destruct (data_view i j block d Hb D) as (_ & Hv & _). simpl. unfold data_Valid.
  rewrite Hd, Hv, bool_decide_true by done. split; [done|]. exists i. split; [done|]. right. by exists block, j, d.
Qed.

Lemma skip_end fuel im ds i t : TwoLevelInv i t -> tl_data t = None -> blocks !! i = None ->
  exists t', skip_loop reader (S fuel) im ds t = Some t' /\ tl_at (length es) t'.
Proof.
  intros I Hd Hb. simpl. unfold data_Valid. rewrite Hd. destruct (index_view i _ (tv_index _ _ I)) as (_ & Hv & _).
  rewrite Hv, bool_decide_false by (apply lookup_ge_None_1 in Hb; rewrite (lay_length _ _ _ _ _ _ _ _ Lay); lia). cbn [negb].
  destruct (SetDataIterator_fields None i t I) as (E1 & E2 & E3 & E4 & E5). eexists. split; [done|].
  set (t' := SetDataIterator None t) in *. clearbody t'. exists i. split; [|by left].
  split; [done|rewrite E2; apply I|rewrite E3; apply I|]. intros d Hd'. by rewrite E4 in Hd'.
Qed.

Lemma skip_fuel_ge i t : TwoLevelInv i t -> exists f, skip_fuel t = S (S (S f)).
Proof. intros I. destruct (tv_index _ _ I) as (it & E & _). unfold skip_fuel. rewrite E. by eexists. Qed.

Lemma skip_forward i j block t : in_block i j block t ->
  exists t', SkipEmptyDataBlocksForward reader t = Some t' /\ tl_at (base i + j) t'.
Proof.
  intros Hin. pose proof Hin as (I & Hb & Hj & d & Hd & D & Hh). unfold SkipEmptyDataBlocksForward.
  change (ni_lift it_Next) with (ni_step Forward). change (ni_lift it_SeekToFirst) with (ni_step SeekFirst).
  destruct (skip_fuel_ge i t I) as [f ->]. destruct (decide (j < length block)%nat) as [Hlt|Hge].
  { exists t. by eapply skip_done. }
  destruct (data_view i j block d Hb D) as (_ & Hv & _). destruct (index_view i _ (tv_index _ _ I)) as (_ & Hiv & _).
  assert (Hil : (i < length idx)%nat) by (rewrite (lay_length _ _ _ _ _ _ _ _ Lay); by eapply lookup_lt_Some).
  remember (S (S f)) as f' eqn:Ef. simpl. unfold data_Valid. rewrite Hd, Hv, Hiv, bool_decide_false, bool_decide_true by lia. cbn [negb].
  destruct (on_index_inv Forward i (S i) t I) as (t1 & -> & I1 & _); [by cbn; rewrite decide_True|]. cbn [mbind option_bind].
  pose proof (enter_block SeekFirst (S i) t1 I1 ltac:(done)) as He. replace (base i + j)%nat with (base (S i)) by (rewrite (base_S i block Hb); lia).
  destruct (blocks !! S i) as [block'|] eqn:Hb'.
  - destruct (He O eq_refl ltac:(lia)) as (t2 & -> & Hin2). cbn [mbind option_bind]. exists t2. rewrite Ef, <- (Nat.add_0_r (base (S i))).
    by apply (skip_done _ _ _ (S i) O block'), (block_pos (S i)).
  - destruct He as (t2 & -> & I2 & Hd2). cbn [mbind option_bind]. rewrite Ef, base_all by (by apply lookup_ge_None_1). by eapply skip_end.
Qed.

Lemma skip_backward i j block t : in_block i j block t ->
  exists t', SkipEmptyDataBlocksBackward reader t = Some t'
    /\ tl_at (if decide (j < length block)%nat then base i + j else if decide (i = 0%nat) then length es else base i - 1)%nat t'.
Proof.
  intros Hin. pose proof Hin as (I & Hb & Hj & d & Hd & D & Hh). unfold SkipEmptyDataBlocksBackward.
  change (ni_lift it_Prev) with (ni_step Backward). change (ni_lift it_SeekToLast) with (ni_step SeekLast).
  destruct (skip_fuel_ge i t I) as [f ->]. case_decide as Hlt.
  { exists t. by eapply skip_done. }
  destruct (data_view i j block d Hb D) as (_ & Hv & _). destruct (index_view i _ (tv_index _ _ I)) as (_ & Hiv & _).
  assert (Hil : (i < length idx)%nat) by (rewrite (lay_length _ _ _ _ _ _ _ _ Lay); by eapply lookup_lt_Some).
  remember (S (S f)) as f' eqn:Ef. simpl. unfold data_Valid. rewrite Hd, Hv, Hiv, bool_decide_false, bool_decide_true by lia. cbn [negb].
  destruct (on_index_inv Backward i (if decide (i = 0%nat) then length idx else i - 1)%nat t I) as (t1 & -> & I1 & _);
    [by cbn; rewrite decide_True|]. cbn [mbind option_bind]. pose proof (enter_block SeekLast _ t1 I1 ltac:(done)) as He. case_decide as Hi0.
  - rewrite (lay_length _ _ _ _ _ _ _ _ Lay), lookup_ge_None_2 in He by lia.
    destruct He as (t2 & -> & I2 & Hd2). cbn [mbind option_bind]. rewrite Ef. eapply skip_end; [done..|].
    by apply lookup_ge_None_2.
  - destruct (lookup_lt_is_Some_2 blocks (i - 1)) as [block' Hb']; [rewrite <- (lay_length _ _ _ _ _ _ _ _ Lay); lia|].
    rewrite Hb' in He. destruct (He (length block' - 1)%nat eq_refl ltac:(lia)) as (t2 & -> & Hin2). cbn [mbind option_bind]. exists t2.
    pose proof (block_pos _ _ Hb'). pose proof (base_S _ _ Hb') as Hbase. replace (S (i - 1)) with i in Hbase by lia.
    replace (base i - 1)%nat with (base (i - 1) + (length block' - 1))%nat by lia. rewrite Ef. apply (skip_done _ _ _ (i - 1) _ block'); [done|lia].
Qed.

Lemma end_forward i t : TwoLevelInv i t -> tl_data t = None -> blocks !! i = None ->
  (exists t', SkipEmptyDataBlocksForward reader t = Some t' /\ tl_at (length es) t')
  /\ exists t', SkipEmptyDataBlocksBackward reader t = Some t' /\ tl_at (length es) t'.
Proof.
  intros I Hd Hb. unfold SkipEmptyDataBlocksForward, SkipEmptyDataBlocksBackward. destruct (skip_fuel_ge i t I) as [f ->].
  split; by eapply skip_end.
Qed.

Lemma tl_seek_at op target p t : tl_at p t -> op = SeekKey target \/ op = SeekFirst ->
  exists t', (t ← on_index (ni_step op) t; t ← on_data (ni_step op) (InitDataBlock reader t); SkipEmptyDataBlocksForward reader t) = Some t'
    /\ forall p', cursor_step es op p = Some p' -> tl_at p' t'.
Proof.
  intros (i & I & _) Hop. set (i' := match op with SeekKey target => lower_bound target idx | _ => O end).
  destruct (on_index_inv op i i' t I) as (t1 & -> & I1 & _); [by destruct Hop as [->| ->]|]. cbn [mbind option_bind].
  pose proof (enter_block op i' t1 I1 ltac:(by destruct Hop as [->| ->])) as He. destruct (blocks !! i') as [block|] eqn:Hb.
  - pose proof (lower_bound_le target block) as Hle. set (j := match op with SeekKey target => lower_bound target block | _ => O end).
    destruct (He j) as (t2 & -> & Hin); [by destruct Hop as [->| ->]|unfold j; destruct Hop as [->| ->]; lia|]. cbn [mbind option_bind].
    destruct (skip_forward i' j block t2 Hin) as (t3 & -> & H3). exists t3. split; [done|]. intros p' Hp.
    destruct Hop as [->| ->]; cbn in Hp; injection Hp as <-; [|done].
    destruct (lookup_lt_is_Some_2 idx i') as [[sep v] Hi]; [rewrite (lay_length _ _ _ _ _ _ _ _ Lay); by eapply lookup_lt_Some|].
    by rewrite (lower_bound_block target i' sep v block eq_refl Hi Hb).
  - destruct He as (t2 & -> & I2 & Hd). cbn [mbind option_bind]. destruct (end_forward i' t2 I2 Hd Hb) as [(t3 & -> & H3) _].
    exists t3. split; [done|]. intros p' Hp. replace p' with (length es); [done|]. apply lookup_ge_None_1 in Hb.
    destruct Hop as [->| ->]; cbn in Hp; injection Hp as <-.
    + assert (Hf : lower_bound target idx = length idx).
      { pose proof (lower_bound_le target idx). rewrite <- (lay_length _ _ _ _ _ _ _ _ Lay) in Hb. unfold i' in Hb. lia. }
      by rewrite lower_bound_none.
    + rewrite <- (base_all i' ltac:(done)). done.
Qed.

Lemma tl_last_at p t : tl_at p t -> exists t', tl_SeekToLast reader t = Some t' /\ tl_at (length es - 1) t'.
Proof.
  intros (i & I & _). unfold tl_SeekToLast. change (ni_lift it_SeekToLast) with (ni_step SeekLast).
  destruct (on_index_inv SeekLast i _ t I eq_refl) as (t1 & -> & I1 & _). cbn [mbind option_bind].
  pose proof (enter_block SeekLast _ t1 I1 ltac:(done)) as He. rewrite (lay_length _ _ _ _ _ _ _ _ Lay) in *.
  destruct (blocks !! (length blocks - 1)%nat) as [block|] eqn:Hb.
  - destruct (He (length block - 1)%nat eq_refl ltac:(lia)) as (t2 & -> & Hin). cbn [mbind option_bind].
    destruct (skip_backward _ _ block t2 Hin) as (t3 & -> & H3). exists t3. split; [done|]. pose proof (block_pos _ _ Hb).
    rewrite decide_True in H3 by lia. pose proof (base_S _ _ Hb) as Hbase. apply lookup_lt_Some in Hb.
    replace (S (length blocks - 1)) with (length blocks) in Hbase by lia. rewrite base_all in Hbase by lia.
    replace (length es - 1)%nat with (base (length blocks - 1) + (length block - 1))%nat by lia. done.
  - destruct He as (t2 & -> & I2 & Hd). cbn [mbind option_bind]. destruct (end_forward _ t2 I2 Hd Hb) as [_ (t3 & -> & H3)].
    exists t3. split; [done|]. apply lookup_ge_None_1 in Hb. assert (length es = 0%nat) as E by (rewrite <- (base_all 0) by lia; done).
    by rewrite E in *.
Qed.

Lemma tl_step_at op p p' t : tl_at p t -> cursor_step es op p = Some p' ->
  exists t', tl_step reader op t = Some t' /\ tl_at p' t'.
Proof.
  intros A Hs. destruct op as [| |target| |].
  - destruct (tl_seek_at SeekFirst [] p t A ltac:(by right)) as (t' & E & H'). exists t'. split; [exact E|by apply H'].
  - cbn in Hs. injection Hs as <-. by eapply tl_last_at.
  - destruct (tl_seek_at (SeekKey target) target p t A ltac:(by left)) as (t' & E & H'). exists t'. split; [exact E|by apply H'].
  - cbn in Hs. case_decide as Hp; [|done]. injection Hs as <-.
    destruct A as (i & I & [[-> _]|(block & j & d & Hb & Hd & D & Hh & Hj & ->)]); [lia|].
    destruct (on_data_inv Forward i j (S j) block t) as (t1 & E & Hin); [by split_and!; [..|exists d]; try lia|by cbn; rewrite decide_True|lia|].
    unfold tl_step, tl_Next. change (ni_lift it_Next) with (ni_step Forward). rewrite E. cbn [mbind option_bind].
    replace (S (base i + j)) with (base i + S j)%nat by lia. by eapply skip_forward.
  - cbn in Hs. case_decide as Hp; [|done]. injection Hs as <-.
    destruct A as (i & I & [[-> _]|(block & j & d & Hb & Hd & D & Hh & Hj & ->)]); [lia|].
    destruct (on_data_inv Backward i j (if decide (j = 0%nat) then length block else j - 1)%nat block t) as (t1 & E & Hin);
      [by split_and!; [..|exists d]; try lia|by cbn; rewrite decide_True|case_decide; lia|].
    unfold tl_step, tl_Prev. change (ni_lift it_Prev) with (ni_step Backward). rewrite E. cbn [mbind option_bind].
    destruct (skip_backward _ _ block t1 Hin) as (t2 & -> & H2). exists t2. split; [done|].
    assert (Hbase : (i <> 0)%nat -> (1 <= base i)%nat).
    { intros Hi. destruct (lookup_lt_is_Some_2 blocks (i - 1)) as [b' Hb']; [apply lookup_lt_Some in Hb; lia|].
      pose proof (base_S _ _ Hb') as E'. replace (S (i - 1)) with i in E' by lia. pose proof (block_pos _ _ Hb'). lia. }
    assert (Hbase0 : i = 0%nat -> base i = 0%nat) by (by intros ->).
    destruct (decide (j = 0%nat)) as [->|Hj0]; [rewrite decide_False in H2 by lia|rewrite decide_True in H2 by lia].
    + rewrite Nat.add_0_r. destruct (decide (i = 0%nat)) as [Hi|Hi].
      * rewrite decide_True by (by apply Hbase0). done.
      * rewrite decide_False by (specialize (Hbase Hi); lia). done.
    + rewrite decide_False by lia. by replace (base i + j - 1)%nat with (base i + (j - 1))%nat by lia.
Qed.

Lemma tl_run_at ops p p' t : tl_at p t -> cursor_run es ops p = Some p' ->
  exists t', tl_run reader ops t = Some t' /\ tl_at p' t'.
Proof.
  unfold cursor_run, tl_run. revert p t. induction ops as [|op ops IH]; intros p t A Hrun.
  { simpl in *. simplify_eq. by exists t. }
  simpl in Hrun |- *. destruct (cursor_step es op p) as [q|] eqn:E.
  - destruct (tl_step_at op p q t A E) as (t' & -> & A'). by apply (IH q).
  - exfalso. clear -Hrun. induction ops; simpl in Hrun; [done|by apply IHops].
Qed.

Lemma tl_view p t : tl_at p t -> two_level_status t = status_OK /\ tl_Valid t = bool_decide (p < length es)%nat
  /\ forall key value, es !! p = Some (key, value) -> tl_key t = key /\ tl_value t = value.
Proof.
  intros (i & I & Hcase). destruct (index_view i _ (tv_index _ _ I)) as (Hi & _). unfold two_level_status, tl_Valid, data_Valid, tl_key, tl_value.
  rewrite Hi, (tv_status _ _ I). destruct Hcase as [[-> ->]|(block & j & d & Hb & -> & D & _ & Hj & ->)].
  - rewrite bool_decide_false by lia. split_and!; [done..|]. intros key value Hp. by rewrite lookup_ge_None_2 in Hp by lia.
  - destruct (data_view i j block d Hb D) as (Hs & Hv & Hkv). rewrite Hs, Hv, bool_decide_true by done.
    pose proof (entries_split i block Hb) as Hes. split_and!; [done| |].
    + rewrite bool_decide_true; [done|]. rewrite Hes, !length_app. lia.
    + intros key value Hp. apply Hkv. rewrite Hes, lookup_app_r, Nat.add_comm, Nat.add_sub, lookup_app_l in Hp by lia. done.
Qed.

Lemma table_iterator_start cache : cache_fine cache -> tl_at (length es) (table_NewIterator T cache).
Proof.
  intros Hf. exists (length idx). split; [|by left]. split; [done|done| |done].
  destruct (new_iterator 1 idx ltac:(lia) idx_fits) as (it & E & P). exists it. split; [exact E|done].
Qed.

Lemma cursor_ok cache ops p : cache_fine cache -> cursor_run es ops (length es) = Some p ->
  exists it, tl_run reader ops (table_NewIterator T cache) = Some it
  /\ two_level_status it = status_OK /\ tl_Valid it = bool_decide (p < length es)%nat
  /\ forall key value, es !! p = Some (key, value) -> tl_key it = key /\ tl_value it = value.
Proof.
  intros Hf Hrun. destruct (tl_run_at ops _ p _ (table_iterator_start cache Hf) Hrun) as (it & E & A).
  exists it. split; [exact E|by apply tl_view].
Qed.

End lookup.

(** Whatever the answers of the file, a table that is finished with [OK] is complete. *)
Lemma finished_layout `{ComparatorLaws text} `{!Separators} good matches `{!SeparatorsLaws good matches}
    accelerated align snappy zstd options answers es b s :
  Forall good es.*1 -> StronglySorted key_lt es.*1 ->
  build_table accelerated align snappy zstd options answers es = (b, s) -> status_ok s = true ->
  exists blocks idx, Layout (good := good) (matches := matches) accelerated align snappy zstd options es blocks idx
    /\ tb_file b = table_text accelerated align snappy zstd options blocks idx.
Proof.
  intros Hg Hs Hb Hok. unfold build_table in Hb.
  destruct (tb_ok (add_all_entries accelerated align snappy zstd es (new_TableBuilder options answers))) eqn:Eadd;
    [|apply (Finish_error accelerated align snappy zstd) in Eadd; rewrite Hb in Eadd; cbn [snd] in Eadd; by rewrite Eadd in Hok].
  destruct (adds_inv accelerated align snappy zstd options es answers Hg Hs Eadd) as (blocks0 & cur & idx0 & I).
  exact (Finish_ok _ _ _ _ _ _ _ _ _ _ _ _ I Hg Hb Hok).
Qed.

(** C17. A table file is its entries: whatever the answers of the file it is written to, if
    the builder finishes with [OK], the file opens, and every lookup, through any cache and
    with or without checksums, gives the first entry at or after the key with status [OK];
    only if that entry is not for the key may it give nothing.  So no answer of the filter,
    of a separator in the index or of the cache loses an entry. *)
Theorem table_lookup `{ComparatorLaws text} `{!Separators} good matches `{!SeparatorsLaws good matches}
    {C : Type} `{BlockCacheLaws C} accelerated align snappy zstd options answers es b s file cache_id cache ks :
  accelerator_ok accelerated -> codec_ok snappy -> codec_ok zstd -> 1 <= block_restart_interval options ->
  (forall policy, filter_policy options = Some policy -> policy_ok matches policy /\ lenz (Name policy) < 2 ^ 30) ->
  Forall good es.*1 -> StronglySorted key_lt es.*1 -> cost es < 2 ^ 30 ->
  build_table accelerated align snappy zstd options answers es = (b, s) -> status_ok s = true ->
  lenz (tb_file b) < 2 ^ 32 -> reads_file file (tb_file b) ->
  cache_without cache_id cache -> Forall good ks.*2 ->
  exists t, table_Open accelerated align snappy zstd options file (lenz (tb_file b)) cache_id = Some (inl t)
  /\ exists rs, table_gets accelerated align snappy zstd t ks cache = Some rs
     /\ Forall2 (fun k r => r.2 = status_OK
          /\ match es !! lower_bound k.2 es with
             | Some e => r.1 = Some e \/ r.1 = None /\ ~ matches k.2 e.1
             | None => r.1 = None
             end) ks rs.
Proof.
  intros Ha Hsn Hz Hi Hp Hg Hs Hc Hb Hok HF Hfile Hcache Hks.
  destruct (finished_layout good matches _ _ _ _ _ _ _ _ _ Hg Hs Hb Hok) as (blocks & idx & Lay & Ef). rewrite Ef in *.
  eexists. split; [by eapply Open_ok|]. eapply gets_ok; [done..|].
  destruct cache as [c|]; [|done]. intros i block blk Hb' Hh. by apply Hcache in Hh.
Qed.

(** C18. Iterating over a table file is moving in the list of its entries: whatever the
    answers of the file it is written to, if the builder finishes with [OK], an iterator
    over the opened table, through any cache, follows a cursor over the entries in every
    sequence of moves in both directions and seeks: it crosses the borders of the blocks,
    is valid exactly at entries, has their keys and values, and reports no error. *)
Theorem table_iterator `{ComparatorLaws text} `{!Separators} good matches `{!SeparatorsLaws good matches}
    {C : Type} `{BlockCacheLaws C} accelerated align snappy zstd options answers es b s file cache_id cache verify fill ops p :
  accelerator_ok accelerated -> codec_ok snappy -> codec_ok zstd -> 1 <= block_restart_interval options ->
  (forall policy, filter_policy options = Some policy -> policy_ok matches policy /\ lenz (Name policy) < 2 ^ 30) ->
  Forall good es.*1 -> StronglySorted key_lt es.*1 -> cost es < 2 ^ 30 ->
  build_table accelerated align snappy zstd options answers es = (b, s) -> status_ok s = true ->
  lenz (tb_file b) < 2 ^ 32 -> reads_file file (tb_file b) ->
  cache_without cache_id cache -> cursor_run es ops (length es) = Some p ->
  exists t it, table_Open accelerated align snappy zstd options file (lenz (tb_file b)) cache_id = Some (inl t)
  /\ tl_run (BlockReader accelerated align snappy zstd t verify fill) ops (table_NewIterator t cache) = Some it
  /\ two_level_status it = status_OK /\ tl_Valid it = bool_decide (p < length es)%nat
  /\ forall key value, es !! p = Some (key, value) -> tl_key it = key /\ tl_value it = value.
Proof.
  intros Ha Hsn Hz Hi Hp Hg Hs Hc Hb Hok HF Hfile Hcache Hrun.
  destruct (finished_layout good matches _ _ _ _ _ _ _ _ _ Hg Hs Hb Hok) as (blocks & idx & Lay & Ef). rewrite Ef in *.
  destruct (cursor_ok (matches := matches) accelerated align snappy zstd options Ha Hsn Hz Hi es Hs Hc blocks idx Lay HF
    file Hfile cache_id verify fill cache ops p) as (it & Hit); [|done|].
  - destruct cache as [c|]; [|done]. intros i block blk Hb' Hh. by apply Hcache in Hh.
  - eexists _, it. split; [by eapply Open_ok|exact Hit].
Qed.

(** ** The comparators of the repository *)

Definition bytewise_separators : Separators := {|
  find_separator := FindShortestSeparator;
  find_successor := FindShortSuccessor
|}.

Lemma bytewise_separators_laws : @SeparatorsLaws bytewise bytewise_separators (fun _ => True) eq.
Proof.
  split; unfold compare_, bytewise, find_separator, find_successor, bytewise_separators.
  - intros a b _ _ Hab. by apply separators_between.
  - intros a b _ _ Hab. by apply separators_between.
  - intros a b k _ _ _ Hab Hak Hks ->. destruct (separators_between a b Hab) as (_ & Hlt & _).
    rewrite slice_compare_lex in *. rewrite lex_antisym, Hlt in Hks. done.
  - intros a b _ _ Hab. destruct (separators_between a b Hab) as (_ & _ & Hl & _). unfold lenz. lia.
  - intros a _. apply successor_spec.
  - intros a _. unfold lenz. pose proof (successor_spec a). lia.
Qed.

(** The internal comparator on encoded keys; a lookup is for the entries of its user key. *)
Definition internal_order : Comparator text := internal_compare.

Lemma internal_order_laws : @ComparatorLaws text internal_order.
Proof.
  split; unfold compare_, internal_order; intros; [apply internal_antisym|by eapply internal_trans|by apply internal_eq_l].
Qed.

Definition internal_separators_of : Separators := {|
  find_separator := InternalFindShortestSeparator;
  find_successor := InternalFindShortSuccessor
|}.

Definition encoded_key (k : text) : Prop := exists u n, is_u64 n /\ k = tagged u n.
Definition same_user_key (key stored : text) : Prop := ExtractUserKey key = ExtractUserKey stored.

Lemma tagged_length u n : lenz (tagged u n) = lenz u + 8.
Proof. unfold tagged. by rewrite lenz_app. Qed.

Lemma internal_separators_laws : @SeparatorsLaws internal_order internal_separators_of encoded_key same_user_key.
Proof.
  pose proof seek_tag_u64 as Hseek.
  assert (Hrefl : forall u n, is_u64 n -> internal_compare (tagged u n) (tagged u n) = Eq)
    by (intros u n Hn; by rewrite internal_compare_tagged, lex_refl, Z.compare_refl).
  split; unfold compare_, internal_order, find_separator, find_successor, internal_separators_of.
  - intros ? ? (u & m & Hm & ->) (v & n & Hn & ->) Hlt.
    destruct (internal_separator_spec u v m n Hm Hn Hlt) as [->|(t & -> & Hut & _)]; [by rewrite Hrefl|].
    by rewrite internal_compare_tagged, Hut.
  - intros ? ? (u & m & Hm & ->) (v & n & Hn & ->) Hlt.
    destruct (internal_separator_spec u v m n Hm Hn Hlt) as [->|(t & -> & _ & Htv & _)]; [done|].
    by rewrite internal_compare_tagged, Htv.
  - intros ? ? ? (u & m & Hm & ->) (v & n & Hn & ->) (w & p & Hp & ->) Hlt Hak Hks Hsame.
    unfold same_user_key in Hsame. rewrite !extract_tagged in Hsame. subst w.
    destruct (internal_separator_spec u v m n Hm Hn Hlt) as [E|(t & E & _ & Htv & _)]; rewrite E in Hks.
    + by rewrite internal_antisym, Hak in Hks.
    + by rewrite internal_compare_tagged, lex_antisym, Htv in Hks.
  - intros ? ? (u & m & Hm & ->) (v & n & Hn & ->) Hlt.
    destruct (internal_separator_spec u v m n Hm Hn Hlt) as [->|(t & -> & _ & _ & Hl)]; [done|]. rewrite !tagged_length. unfold lenz. lia.
  - intros ? (u & m & Hm & ->). destruct (internal_successor_spec u m) as [->|(t & -> & Hut & _)]; [by rewrite Hrefl|].
    by rewrite internal_compare_tagged, Hut.
  - intros ? (u & m & Hm & ->). destruct (internal_successor_spec u m) as [->|(t & -> & _ & Hl)]; [done|]. rewrite !tagged_length. unfold lenz. lia.
Qed.

(** ** A table of internal keys *)

(** A cache without limit *)
Definition list_cache : BlockCache (list (text * Block)) := {|
  cache_Lookup := fun k c => ((fun x => x.2.2) <$> list_find (fun e => e.1 = k) c, c);
  cache_Insert := fun k b _ c => (k, b) :: c
|}.

Definition list_cache_laws : @BlockCacheLaws _ list_cache.
Proof.
  refine {| cache_holds := fun (c : list (text * Block)) k b => (k, b) ∈ c |}.
  - intros k c b c' E. cbn in E. injection E as E _. destruct (list_find _ c) as [[i [k' b']]|] eqn:Ef; [|done].
    cbn in E. injection E as ->. apply list_find_Some in Ef as (Hi & Hk & _). cbn in Hk. subst k'. by eapply list_elem_of_lookup_2.
  - intros k c r c' k' b E. cbn in E. by injection E as _ <-.
  - intros k v n c k' b Hin. cbn in Hin. apply elem_of_cons in Hin as [E|Hin]; [left; by injection E as -> ->|by right].
Defined.

Definition sample_key (u : text) (seq : Z) : text := tagged u (PackSequenceAndType seq kTypeValue).
Definition sample_entries : list (text * text) :=
  [(sample_key (L "apple") 7, L "red"); (sample_key (L "apple") 3, L "green"); (sample_key (L "banana") 5, L "yellow");
   (sample_key (L "cherry") 2, L "dark")].
Definition sample_options : TableOptions := mkTableOptions 40 2 kSnappyCompression (Some (internal_policy 10)) true.
Abbreviation sample_table :=
  (@build_table internal_separators_of (fun (_ : Z) (_ : text) => 0) 0 no_codec no_codec sample_options [] sample_entries).
Definition sample_file : RandomAccessFile := fun offset n => (status_OK, takez n (dropz offset (tb_file sample_table.1)), true).

Lemma sample_encoded u seq : 0 <= seq < 100 -> encoded_key (sample_key u seq).
Proof.
  intros Hseq. exists u, (PackSequenceAndType seq kTypeValue). split; [|done]. apply pack_spec.
  change kMaxSequenceNumber with 72057594037927935. lia.
Qed.

Lemma sample_policy policy : filter_policy sample_options = Some policy -> policy_ok same_user_key policy /\ lenz (Name policy) < 2 ^ 30.
Proof. intros E. injection E as <-. split; [|done]. apply internal_policy_ok. lia. Qed.

Lemma sample_good : Forall encoded_key sample_entries.*1.
Proof. repeat constructor; apply sample_encoded; lia. Qed.

Lemma sample_sorted : StronglySorted (@key_lt text internal_order) sample_entries.*1.
Proof. repeat constructor; vm_compute; reflexivity. Qed.

Lemma sample_reads : reads_file sample_file (tb_file sample_table.1).
Proof. intros offset n _ _. by exists true. Qed.

Lemma empty_without cache_id : @cache_without _ list_cache list_cache_laws cache_id (Some []).
Proof. intros offset b Hin. cbn in Hin. by apply not_elem_of_nil in Hin. Qed.

Lemma table_lookup_witness :
  exists t rs, @table_Open (fun _ _ => 0) 0 no_codec no_codec sample_options sample_file (lenz (tb_file sample_table.1)) 1 = Some (inl t)
  /\ @table_gets internal_order (fun _ _ => 0) 0%nat no_codec no_codec _ list_cache t
       [(true, true, sample_key (L "apple") 4); (false, true, sample_key (L "apple") 4)] (Some []) = Some rs
  /\ (fst <$> rs) = [Some (sample_key (L "apple") 3, L "green"); Some (sample_key (L "apple") 3, L "green")].
Proof.
  destruct (@table_lookup internal_order internal_order_laws internal_separators_of encoded_key same_user_key internal_separators_laws
    _ list_cache list_cache_laws (fun _ _ => 0) 0 no_codec no_codec sample_options [] sample_entries sample_table.1 sample_table.2
    sample_file 1 (Some []) [(true, true, sample_key (L "apple") 4); (false, true, sample_key (L "apple") 4)])
    as (t & Ht & rs & Hrs & Hall).
  - by right.
  - done.
  - done.
  - done.
  - exact sample_policy.
  - exact sample_good.
  - exact sample_sorted.
  - vm_compute. reflexivity.
  - apply surjective_pairing.
  - vm_compute. reflexivity.
  - vm_compute. reflexivity.
  - exact sample_reads.
  - apply empty_without.
  - repeat constructor; apply sample_encoded; lia.
  - exists t, rs. split; [exact Ht|]. split; [exact Hrs|].
    assert (E : sample_entries !! @lower_bound internal_order (sample_key (L "apple") 4) sample_entries
                = Some (sample_key (L "apple") 3, L "green")) by (vm_compute; reflexivity).
    clear Ht Hrs. revert Hall E. generalize sample_entries. intros es Hall E.
    apply Forall2_cons_inv_l in Hall as (r1 & rs1 & [_ H1] & Hall & ->).
    apply Forall2_cons_inv_l in Hall as (r2 & rs2 & [_ H2] & Hall & ->). apply Forall2_nil_inv_l in Hall as ->.
    cbn [snd] in H1, H2. rewrite E in H1, H2.
    change ([r1.1; r2.1] = [Some (sample_key (L "apple") 3, L "green"); Some (sample_key (L "apple") 3, L "green")]).
    assert (Hsame : same_user_key (sample_key (L "apple") 4) (sample_key (L "apple") 3)) by (vm_compute; reflexivity).
    destruct H1 as [->|[_ []]]; [|exact Hsame]. destruct H2 as [->|[_ []]]; [|exact Hsame]. reflexivity.
Defined.

Lemma table_iterator_witness :
  exists t it, @table_Open (fun _ _ => 0) 0 no_codec no_codec sample_options sample_file (lenz (tb_file sample_table.1)) 1 = Some (inl t)
  /\ @tl_run internal_order _ (@BlockReader (fun _ _ => 0) 0%nat no_codec no_codec _ list_cache t true true)
       [SeekKey (sample_key (L "apple") 4); Forward; Forward; Backward] (@table_NewIterator _ t (Some [])) = Some it
  /\ two_level_status it = status_OK /\ tl_Valid it = true
  /\ tl_key it = sample_key (L "banana") 5 /\ tl_value it = L "yellow".
Proof.
  destruct (@table_iterator internal_order internal_order_laws internal_separators_of encoded_key same_user_key internal_separators_laws
    _ list_cache list_cache_laws (fun _ _ => 0) 0 no_codec no_codec sample_options [] sample_entries sample_table.1 sample_table.2
    sample_file 1 (Some []) true true [SeekKey (sample_key (L "apple") 4); Forward; Forward; Backward] 2)
    as (t & it & Ht & Hrun & Hst & Hv & Hkv).
  - by right.
  - done.
  - done.
  - done.
  - exact sample_policy.
  - exact sample_good.
  - exact sample_sorted.
  - vm_compute. reflexivity.
  - apply surjective_pairing.
  - vm_compute. reflexivity.
  - vm_compute. reflexivity.
  - exact sample_reads.
  - apply empty_without.
  - vm_compute. reflexivity.
  - exists t, it. split; [exact Ht|]. split; [exact Hrun|]. split; [exact Hst|]. split; [exact Hv|].
    apply Hkv. reflexivity.
Defined.
